(* ===== verification/_CoqProject ===== *)
-Q . S2P
Prelude.v
RustStr.v
IpAddr.v
Cursor.v
Stream.v
Protocol.v
StreamHeader.v
Socks5.v
Egress.v
Http.v
HttpRelay.v
Mux.v
Bridge.v
Remote.v
RouteDecision.v
Routes.v
Link.v
Frontend.v
Controller.v
Collections.v
Jobs.v
Sessions.v
Handoff.v
DaemonWorld.v
RemotePeer.v
ProxySession.v
SessionRequests.v
SessionLife.v
Atomic.v
Metrics.v
SshNative.v
QuicNative.v
Json.v
Serde.v
ControlFrame.v
QuicControl.v
PeerHandshake.v
RemoteHelper.v
QuicConnect.v
Unicode.v
Control.v
ControlServer.v
Versions.v
