(* ===== verification/Prelude.v ===== *)
(** * A verification development of ssh_proxy

    ssh_proxy carries TCP streams and UDP datagrams between machines.  A
    client speaks SOCKS5 or HTTP to a local listener; the listener opens a
    flow on a link; the link multiplexes the flows as frames over one byte
    stream (SSH, TCP, TLS or QUIC) to a helper on the other machine, which
    connects to the targets, directly or through an upstream proxy.  A daemon
    keeps the routes (a listener with its link), decides which transport a
    route uses, restarts it and saves it across restarts.

    ** Files

    Foundations:
    - [Prelude] (this file): the [result] monad for the [?] operator, the
      state-and-error monad [sr], integers of a fixed width as [Z] with
      [in_u], [wrap_u] and [u_max], bytes, big-endian numbers, and the
      tactics and hint databases the files share.
    - [RustStr], [IpAddr]: the parts of Rust's standard library the sources
      use on text and addresses (UTF-8 validation, splitting, trimming,
      number parsing and formatting, [IpAddr] from and to text).
    - [Cursor]: the private decoding cursor that [protocol.rs] and
      [stream_header.rs] each define.
    - [Stream]: tokio's [AsyncRead] and [AsyncWrite] as classes with their
      documented behaviour as laws, connections built from them, and concrete
      streams that satisfy the laws.

    The data plane, from the wire up:
    - [Protocol] ([ssh-proxy-protocol/src/protocol.rs]): the frames, their
      encoding, [FrameReader::read_from], [write_frame_batch].  Theorems: a
      batch written by one side is read back frame by frame by the other,
      whatever the sizes of reads and writes; a reader's result does not
      depend on how the bytes arrive; exactly the frames within the limits
      are written; what is read could have been written.
    - [StreamHeader] ([quic_native/stream_header.rs]): the header of a QUIC
      stream.  Theorems: round trip, canonical decoding, and the length field
      that wraps at 2^16.
    - [Mux]: executions of an executable step function.
    - [Bridge] ([bridge.rs]): the end of a link that opens streams.
      [BridgeInner] is the shared state; [step] has one event per section of
      the callers, the reader, the writer and the lifecycle task that runs
      without waiting.  Theorems, by induction on the events: a flow gets a
      prefix of its stream's data and all of it while it is registered; every
      [open_tcp] call is answered; a call that timed out never closes its
      stream.
    - [Remote] ([remote.rs]): the helper's end, in the same style, with the
      token check.  Theorems: a target gets a prefix of its stream's data,
      however the peer uses ids; the token check is exact; an early [Close] is
      lost; connections outlive the link.
    - [Link] ([data_plane.rs] and both ends): a bridge and a helper with the
      frames on the wire between them.  Theorems: a flow is a tunnel to the
      target it was opened for, in both directions, and loses nothing while it
      lives.

    The proxies:
    - [Socks5] ([proxy/socks5.rs], and the client of [remote/egress.rs]): the
      negotiation, requests, replies and UDP datagrams.  Theorems: the two
      halves complete a handshake; every negotiation ends with acceptance or
      the specified refusal.
    - [Egress] ([remote/egress.rs], [remote/egress/proxy_endpoint.rs]): direct
      connections and upstream proxies.  Theorems: the order of the connection
      attempts and the error of the last; the exchange with an HTTP proxy; the
      text of a proxy address.
    - [Http] ([proxy/http.rs]): requests and response heads.  Theorems: what
      the origin server and the client get after rewriting; bytes sent after a
      CONNECT head are dropped.
    - [HttpRelay] (the response half of [socks/relay.rs]): theorems: the client
      gets the rewritten head and exactly the body its mode selects, up to the
      first idle time where the end of the connection ends the body, or nothing
      when the header limit is exceeded; that limit also counts body bytes.

    Decisions and the daemon:
    - [RouteDecision] ([ssh-proxy-route]'s [decision.rs], [preflight.rs],
      [policy.rs], [remote_use.rs], and [ssh-proxy-core]'s [model.rs]).
      Theorems: plain TCP needs consent; a fallback respects explicit choices;
      pool sizes are safe; fixed targets round trip as text.
    - [Routes] ([node_daemon/routes.rs] and [routes/*.rs], [ssh-proxy-route]'s
      [conflict.rs] and [status.rs]): the registry with its two locked
      sections, the store and the supervisor.  Theorems: no two routes share a
      listener under any interleaving of requests; the saved routes are
      restored exactly; starting twice changes nothing; saves can overtake
      each other; a failed restart drops a route; the supervisor's back-off
      and states.
    - [Collections], [Jobs], [Sessions]: the job registry with its ring of
      events, its pruning and its file, and the store of proxy sessions.
    - [Handoff] ([node_daemon/handoff.rs]): the probe that recognises the
      proxy behind the remote port of a session.  Theorems: it accepts exactly
      the answer of the modelled listener; its retries end.
    - [DaemonWorld], [RemotePeer], [ProxySession], [SessionRequests],
      [SessionLife] ([node_daemon/remote_peer*], [node_daemon/proxy_session*]):
      the jobs of the daemon as tasks over its stores, which other tasks may
      change between any two of their steps.  Theorems: a job ends in a final
      state and reports what it did; remote settings are applied only after
      the probe; a session is healthy only after the environment's own answers
      say so; asking twice reuses a reverse link and restarts any other mode;
      taking a session down ends it in the stores; a restart reconciles.

    Listeners and transports:
    - [Frontend] ([socks.rs], [socks/tunnel.rs]): a client's connection from its
      first byte to the relay.  Theorems: the protocol is chosen by the first
      byte, targets are those requested, counters balance.
    - [Controller] ([controller.rs], [controller/bridge_manager.rs]): the pool
      of bridges with its workers.
    - [Atomic]: tasks as trees of atomic operations, pools of them under every
      schedule, and a proof rule with ghosts per task.
    - [Metrics], [SshNative], [QuicNative] ([ssh_native*], [quic_native*],
      [socks/relay.rs]): the native transports with their session and
      connection pools.  Theorems: counters equal the clients that relay,
      under every interleaving; no deadlock, and everything is given back at
      the end; the choice of a session or connection; percentiles; the
      watchdog that also resets flows that are alive.

    Messages between peers:
    - [Json] ([ssh-proxy-core]'s [redaction.rs]): JSON values and the redaction
      of reports.  Theorem: redaction hides exactly what stands under secret
      keys and the directories of paths; texts are not searched for secrets.
    - [Serde]: [serde_json] as a class with its round trip as the law, a concrete
      instance, and the pieces of derived serialisers.
    - [ControlFrame] ([protocol_core/codec.rs], [quic_native/control.rs],
      [session.rs], [flow.rs]): framed JSON messages, route sessions and flow
      headers on a stream.  Theorems: the two ends of a session agree; headers
      are read back exactly.
    - [QuicControl] ([quic_native/runtime/control_loop.rs]): the keepalive loop
      with the cancellation of [select!].  Theorems: a peer that answers within
      45 s is never given up and one that does not is; a tick in the middle of a
      frame loses bytes.
    - [PeerHandshake] ([protocol_core/peer.rs], [peer_transport.rs],
      [server.rs]): the handshake and the token.  Theorems: both ends agree;
      without the token nothing is answered.
    - [RemoteHelper] ([remote_helper.rs], [remote_helper/client.rs]): how a
      client opens a link.  Theorem: the order of automatic transport.
    - [QuicConnect] ([quic_native/runtime/connection.rs],
      [node_daemon/quic_transport.rs]): both ends of a QUIC-native connection
      and the flows on it.  Theorem: both ends continue with the same route and
      a flow reaches its target only on this route.

    The control socket and the state of peers:
    - [Unicode]: characters, white space and lower case of texts.
    - [Control] ([protocol_core/control.rs], [envelope.rs], the [control.rs] of
      [ssh-proxy-daemon], [node_daemon/control_protocol.rs] and below,
      [control_socket.rs]): commands, requests and answers with their JSON, and
      control addresses.  Theorem: commands are recognised by their names
      however these are spelled, and the two tables of commands agree.
    - [ControlServer] ([node_daemon/control_server.rs], [control_client.rs],
      [control_socket.rs]): the listener, and a request from the command line to
      the daemon's method and back.  Theorems: the command reaches the method it
      is for and is answered with its result; whether a token is needed is
      settled when the listener starts, and then only a request with the token
      changes anything.
    - [Versions] ([protocol_core/version.rs], [descriptor.rs],
      [ssh-proxy-service]'s [health.rs]): versions, descriptors and reports.
      Theorems: the judgements of a peer fit together and fit the handshake;
      the report on a route store is exact.

    ** Conventions

    A function of the source is a definition of the same name where Rocq
    allows it; errors are constructors, and their texts are left out where
    the program never inspects them.  Code that waits is a relation between
    steps: [step s e = None] when event [e] cannot happen in [s].  Timeouts
    are events that may happen whenever the code waits, so the theorems hold
    for every clock.  Code outside the repository (tokio streams, name
    resolution, [serde_json], the operating system) is a class or a parameter
    with the behaviour its documentation promises, and each theorem that uses
    one has a witness with concrete values.

    Loops that consume their input are structural or have fuel: the writer's
    loop takes one byte at least per turn, so the number of bytes is enough
    fuel; a reader's loop likewise; the loop that collects HTTP headers stops
    above 64 KiB.  The specifications prove that the results for running out
    of fuel do not occur.  Ids of the bridge are 32 bits wide and wrap; the
    theorems that need fresh ids assume that fewer than 2^32 - 1 were given
    out.  The loops of the daemon that poll every 250 ms have fuel for their
    whole budget: [wait_fuel] is the budget divided by 250 ms plus two,
    [ready_fuel] that of 90 s plus one, and each turn uses at least 250 ms.
    Tasks of [Atomic] are trees without loops, and termination is proved for
    every schedule; the loop of a compare-and-exchange is proved to act as one
    atomic step and to end.

    ** Not modelled

    The byte counters that a QUIC-native worker keeps inside its stream are
    left out, and the copy loops of the native relays are one answer of their
    environment.  Calls into libraries and the operating system (russh, quinn, rustls,
    clap, service managers, remote shells) and the JSON reports built from
    the state of other components.  The command line, configuration files,
    deployment, peer lifecycle and service management consist mostly of
    these.  The parts with logic of their own that are still open are the
    reconciliation of peers and the merging of profiles. *)
From stdpp Require Export base option list strings numbers sets gmap.
From Stdlib Require Export ZArith Lia.
From Stdlib Require Export Init.Byte.
From Stdlib Require Strings.Byte.

#[global] Open Scope Z_scope.

(** ** Fallible computations

    Rust's [Result<T, E>] with the [?] operator.  The error type comes first
    so that [result E] is a monad in the sense of stdpp's classes and the
    notation [x ← e; k] reads like [let x = e?; k]. *)

Inductive result (E A : Type) : Type :=
| Ok (a : A)
| Err (e : E).
Arguments Ok {E A} a.
Arguments Err {E A} e.

#[global] Instance result_ret {E} : MRet (result E) := fun A a => Ok a.
#[global] Instance result_bind {E} : MBind (result E) := fun A B f m =>
  match m with
  | Ok a => f a
  | Err e => Err e
  end.
#[global] Instance result_fmap {E} : FMap (result E) := fun A B f m =>
  match m with
  | Ok a => Ok (f a)
  | Err e => Err e
  end.

#[global] Instance result_eq_dec {E A} `{EqDecision E, EqDecision A} :
  EqDecision (result E A).
Proof. solve_decision. Defined.

(** [Option::ok_or]. *)
Definition ok_or {E A} (e : E) (o : option A) : result E A :=
  match o with
  | Some a => Ok a
  | None => Err e
  end.

(** [Result::ok]. *)
Definition result_ok {E A} (r : result E A) : option A :=
  match r with
  | Ok a => Some a
  | Err _ => None
  end.

(** [Result::map_err], also used for [Context::context]. *)
Definition map_err {E F A} (f : E -> F) (r : result E A) : result F A :=
  match r with
  | Ok a => Ok a
  | Err e => Err (f e)
  end.

Definition is_ok {E A} (r : result E A) : bool :=
  match r with
  | Ok _ => true
  | Err _ => false
  end.

(** [bail!] under a condition. *)
Definition guard_or {E} (b : bool) (e : E) : result E unit :=
  if b then Ok tt else Err e.

Lemma bind_Ok {E A B} (m : result E A) (f : A -> result E B) b :
  (m ≫= f) = Ok b <-> exists a, m = Ok a /\ f a = Ok b.
Proof. destruct m; cbn; split; naive_solver. Qed.

Lemma bind_Err {E A B} (m : result E A) (f : A -> result E B) e :
  (m ≫= f) = Err e <-> m = Err e \/ exists a, m = Ok a /\ f a = Err e.
Proof. destruct m; cbn; split; naive_solver. Qed.

Lemma fmap_Ok {E A B} (f : A -> B) (m : result E A) b :
  (f <$> m) = Ok b <-> exists a, m = Ok a /\ b = f a.
Proof. destruct m; cbn; split; naive_solver. Qed.

Lemma ok_or_Ok {E A} (e : E) (o : option A) a : ok_or e o = Ok a <-> o = Some a.
Proof. destruct o; cbn; split; naive_solver. Qed.

Lemma guard_or_Ok {E} (b : bool) (e : E) u : guard_or b e = Ok u <-> b = true.
Proof. destruct b, u; cbn; split; naive_solver. Qed.

Lemma map_err_Ok {E F A} (f : E -> F) (r : result E A) a :
  map_err f r = Ok a <-> r = Ok a.
Proof. destruct r; cbn; split; naive_solver. Qed.

(** [inv_result] destructs every hypothesis that says a monadic computation
    succeeded. *)
Ltac inv_result :=
  repeat match goal with
  | H : (_ ≫= _) = Ok _ |- _ => apply bind_Ok in H as (? & ? & ?)
  | H : fmap _ _ = Ok _ |- _ => apply fmap_Ok in H as (? & ? & ?)
  | H : ok_or _ _ = Ok _ |- _ => apply ok_or_Ok in H
  | H : guard_or _ _ = Ok _ |- _ => apply guard_or_Ok in H
  | H : map_err _ _ = Ok _ |- _ => apply map_err_Ok in H
  | H : mret _ = Ok _ |- _ => unfold mret, result_ret in H
  | H : Ok _ = Ok _ |- _ => injection H as H
  | H : Err _ = Ok _ |- _ => discriminate H
  | H : Ok _ = Err _ |- _ => discriminate H
  end; simplify_eq.

(** ** Machine integers

    A [w]-bit unsigned integer is a [Z]; [in_u w z] is the invariant of the
    Rust type and [wrap_u w z] what an [as] cast keeps. *)

Definition u_max (w : Z) : Z := 2 ^ w - 1.
Definition in_u (w z : Z) : Prop := 0 <= z < 2 ^ w.
Definition in_ub (w z : Z) : bool := (0 <=? z) && (z <? 2 ^ w).
Definition wrap_u (w z : Z) : Z := z mod 2 ^ w.

(** [usize] of a 64-bit target. *)
Definition usize_max : Z := u_max 64.

Definition checked_add_u (w a b : Z) : option Z :=
  if a + b <=? u_max w then Some (a + b) else None.
Definition saturating_add_u (w a b : Z) : Z := Z.min (a + b) (u_max w).
Definition saturating_mul_u (w a b : Z) : Z := Z.min (a * b) (u_max w).
Definition saturating_sub_u (a b : Z) : Z := Z.max (a - b) 0.

#[global] Instance in_u_dec w z : Decision (in_u w z).
Proof. unfold in_u. apply _. Defined.

Lemma in_ub_spec w z : in_ub w z = true <-> in_u w z.
Proof. unfold in_ub, in_u. rewrite andb_true_iff, Z.leb_le, Z.ltb_lt. done. Qed.

Lemma wrap_u_small w z : in_u w z -> wrap_u w z = z.
Proof. apply Z.mod_small. Qed.

Lemma wrap_u_range w z : 0 <= w -> in_u w (wrap_u w z).
Proof. intros. apply Z.mod_pos_bound. by apply Z.pow_pos_nonneg. Qed.

(** [len v] is [v.len()]. *)
Abbreviation len l := (Z.of_nat (length l)).

(** ** Bytes *)

Abbreviation byte := Init.Byte.byte.

#[global] Instance byte_eq_dec : EqDecision byte := Strings.Byte.byte_eq_dec.

Definition byte_val (b : byte) : Z := Z.of_N (Strings.Byte.to_N b).

(** The low eight bits of an integer ([x as u8]). *)
Definition byte_of (z : Z) : byte :=
  match Strings.Byte.of_N (Z.to_N (z mod 256)) with
  | Some b => b
  | None => x00
  end.

Lemma byte_val_range b : 0 <= byte_val b < 256.
Proof. unfold byte_val. destruct b; cbn; lia. Qed.

Lemma byte_val_of z : byte_val (byte_of z) = z mod 256.
Proof.
  unfold byte_of, byte_val.
  pose proof (Z.mod_pos_bound z 256 ltac:(lia)) as Hz.
  destruct (Strings.Byte.of_N _) as [b|] eqn:Hb.
  - apply Strings.Byte.to_of_N in Hb. rewrite Hb. lia.
  - apply Strings.Byte.of_N_None_iff in Hb. lia.
Qed.

Lemma byte_val_inj b1 b2 : byte_val b1 = byte_val b2 -> b1 = b2.
Proof.
  unfold byte_val. intros H%N2Z.inj.
  pose proof (Strings.Byte.of_to_N b1) as H1.
  pose proof (Strings.Byte.of_to_N b2) as H2. congruence.
Qed.

Lemma byte_of_val b : byte_of (byte_val b) = b.
Proof.
  apply byte_val_inj. rewrite byte_val_of. apply Z.mod_small, byte_val_range.
Qed.

(** ** Big-endian integers ([to_be_bytes] and [from_be_bytes]) *)

Fixpoint be_bytes (n : nat) (z : Z) : list byte :=
  match n with
  | O => []
  | S n => be_bytes n (z / 256) ++ [byte_of z]
  end.

Definition be_value (l : list byte) : Z :=
  foldl (fun acc b => acc * 256 + byte_val b) 0 l.

Lemma length_be_bytes n z : length (be_bytes n z) = n.
Proof. revert z. induction n; intros; cbn; [done|]. rewrite length_app, IHn. cbn. lia. Qed.

Lemma be_value_snoc l b : be_value (l ++ [b]) = be_value l * 256 + byte_val b.
Proof. unfold be_value. by rewrite foldl_app. Qed.

Lemma be_value_byte z : be_value [byte_of z] = z mod 256.
Proof. unfold be_value. cbn [foldl]. rewrite byte_val_of. lia. Qed.

Lemma be_value_be_bytes n z : be_value (be_bytes n z) = z mod 2 ^ (8 * Z.of_nat n).
Proof.
  revert z. induction n as [|n IH]; intros z.
  - cbn. by rewrite Z.mod_1_r.
  - cbn [be_bytes]. rewrite be_value_snoc, IH, byte_val_of.
    replace (8 * Z.of_nat (S n)) with (8 + 8 * Z.of_nat n) by lia.
    rewrite Z.pow_add_r by lia. change (2 ^ 8) with 256.
    rewrite Z.rem_mul_r by lia. lia.
Qed.

Lemma be_value_u n z : in_u (8 * Z.of_nat n) z -> be_value (be_bytes n z) = z.
Proof. intros. rewrite be_value_be_bytes. by apply Z.mod_small. Qed.

Lemma in_u_mono w1 w2 z : in_u w1 z -> w1 <= w2 -> in_u w2 z.
Proof. unfold in_u. intros [? ?] ?. split; [done|]. pose proof (Z.pow_le_mono_r 2 w1 w2). lia. Qed.

Lemma take_drop_take {A} (l : list A) a b c :
  (a + b <= c)%nat -> take a (drop b (take c l)) = take a (drop b l).
Proof. intros. rewrite !take_drop_commute, take_take. do 2 f_equal. lia. Qed.

Lemma take_drop_pieces {A} (l : list A) a b :
  take a (drop b l) ++ drop (b + a) l = drop b l.
Proof. by rewrite <-drop_drop, take_drop. Qed.

Lemma be_value_range l : in_u (8 * len l) (be_value l).
Proof.
  unfold in_u. induction l as [|b l IH] using rev_ind; [cbn; lia|].
  rewrite be_value_snoc, length_app. cbn [length].
  replace (8 * Z.of_nat (length l + 1)) with (8 + 8 * len l) by lia.
  rewrite Z.pow_add_r by lia. pose proof (byte_val_range b). lia.
Qed.

Lemma be_bytes_be_value l : be_bytes (length l) (be_value l) = l.
Proof.
  induction l as [|b l IH] using rev_ind; [done|].
  rewrite be_value_snoc, length_app, Nat.add_comm. cbn [length Nat.add be_bytes].
  pose proof (byte_val_range b).
  rewrite Z.div_add_l, (Z.div_small (byte_val b)), Z.add_0_r, IH by lia.
  f_equal. f_equal. rewrite <-(byte_of_val b) at 2.
  apply byte_val_inj. rewrite !byte_val_of, Z.add_comm, Z.mod_add by lia.
  by rewrite Z.mod_small.
Qed.

Lemma be_bytes_value n l : length l = n -> be_bytes n (be_value l) = l.
Proof. intros <-. apply be_bytes_be_value. Qed.

#[global] Opaque be_bytes be_value byte_of byte_val.
#[global] Arguments u_max : simpl never.

Create Rewrite HintDb len.
#[export] Hint Rewrite @length_be_bytes @length_app @length_cons @length_nil : len.

(** ** Strings

    A Rust [str] is its UTF-8 bytes: a [string] of the library whose
    characters are those bytes. *)

Abbreviation str_bytes := Strings.String.list_byte_of_string.
Abbreviation str_of_bytes := Strings.String.string_of_list_byte.

(** [s.len()]: the number of bytes. *)
Definition str_len (s : string) : Z := len (str_bytes s).

Lemma str_of_bytes_str_bytes s : str_of_bytes (str_bytes s) = s.
Proof. apply Strings.String.string_of_list_byte_of_string. Qed.

Lemma str_bytes_str_of_bytes l : str_bytes (str_of_bytes l) = l.
Proof. apply Strings.String.list_byte_of_string_of_list_byte. Qed.

Lemma str_bytes_append a b : str_bytes (String.append a b) = str_bytes a ++ str_bytes b.
Proof.
  induction a as [|c a IH]; [done|].
  change (String.append (String c a) b) with (String c (String.append a b)).
  cbn [Strings.String.list_byte_of_string]. unfold str_bytes in *. cbn. by f_equal.
Qed.

Create Rewrite HintDb str.
#[export] Hint Rewrite str_of_bytes_str_bytes str_bytes_str_of_bytes str_bytes_append : str.

(** ** Finite sequences of steps *)

Section star.
Context {S : Type} (step : S -> S -> Prop).

Inductive star : S -> S -> Prop :=
| star_refl s : star s s
| star_step s1 s2 s3 : step s1 s2 -> star s2 s3 -> star s1 s3.

(** An invariant of a step relation holds in every reachable state. *)
Lemma star_invariant (I : S -> Prop) :
  (forall s s', I s -> step s s' -> I s') ->
  forall s s', star s s' -> I s -> I s'.
Proof. intros Hstep s s' Hstar. induction Hstar; eauto. Qed.

Lemma star_trans s1 s2 s3 : star s1 s2 -> star s2 s3 -> star s1 s3.
Proof. induction 1; eauto using star. Qed.

Lemma star_one s1 s2 : step s1 s2 -> star s1 s2.
Proof. eauto using star. Qed.
End star.

(** ** Stateful fallible computations

    [sr S E A] threads a state [S] (a cursor, a stream, a writer) through a
    computation that may fail with [E]; the state reached is kept on failure
    too, as it is in the code. *)

Definition sr (S E A : Type) : Type := S -> result E A * S.

#[global] Instance sr_ret {S E} : MRet (sr S E) := fun A a s => (Ok a, s).
#[global] Instance sr_bind {S E} : MBind (sr S E) := fun A B f m s =>
  match m s with
  | (Ok a, s') => f a s'
  | (Err e, s') => (Err e, s')
  end.

Definition sr_fail {S E A} (e : E) : sr S E A := fun s => (Err e, s).
Definition sr_lift {S E A} (r : result E A) : sr S E A := fun s => (r, s).
Definition sr_map_err {S E F A} (f : E -> F) (m : sr S E A) : sr S F A :=
  fun s => let '(r, s') := m s in (map_err f r, s').
Definition sr_gets {S E A} (f : S -> A) : sr S E A := fun s => (Ok (f s), s).
(** [if cond { bail!(e) }] *)
Definition sr_guard {S E} (b : bool) (e : E) : sr S E unit := sr_lift (guard_or b e).

Lemma sr_bind_Ok {S E A B} (m : sr S E A) (f : A -> sr S E B) s a s' :
  m s = (Ok a, s') -> (m ≫= f) s = f a s'.
Proof. intros H. unfold mbind, sr_bind. by rewrite H. Qed.

Lemma sr_bind_Err {S E A B} (m : sr S E A) (f : A -> sr S E B) s e s' :
  m s = (Err e, s') -> (m ≫= f) s = (Err e, s').
Proof. intros H. unfold mbind, sr_bind. by rewrite H. Qed.

Lemma sr_bind_inv {S E A B} (m : sr S E A) (f : A -> sr S E B) s b s2 :
  (m ≫= f) s = (Ok b, s2) -> exists a s1, m s = (Ok a, s1) /\ f a s1 = (Ok b, s2).
Proof. unfold mbind, sr_bind. destruct (m s) as [[a|e] s1]; naive_solver. Qed.

(** [inv_sr] runs a successful computation backwards. *)
Ltac inv_sr :=
  repeat match goal with
  | H : (_ ≫= _) _ = (Ok _, _) |- _ => apply sr_bind_inv in H as (? & ? & ? & ?)
  | H : mret _ _ = (Ok _, _) |- _ => unfold mret, sr_ret in H; injection H as H; subst
  | H : sr_fail _ _ = (Ok _, _) |- _ => discriminate H
  | H : sr_gets _ _ = (Ok _, _) |- _ => unfold sr_gets in H; injection H as H ?; subst
  | H : sr_guard ?b _ _ = (Ok _, _) |- _ =>
      unfold sr_guard, sr_lift in H; injection H as H ?; apply guard_or_Ok in H; subst
  | H : (let '(_, _) := ?p in _) = (Ok _, _) |- _ => destruct p eqn:?
  end; simplify_eq.
