(* ===== verification/RustStr.v ===== *)
(** * The parts of Rust's [str], [char] and integer formatting the code uses

    A [str] is its UTF-8 bytes (see [Prelude]).  This file models the standard
    library functions the sources call on it: UTF-8 validation
    ([String::from_utf8]), the [chars] iterator, ASCII case mapping, searching
    and splitting, [trim], [split_whitespace], [parse] for unsigned integers
    and their [Display]. *)
From S2P Require Import Prelude.

Import Strings.Ascii.

(** ** UTF-8 *)
Module Utf8.

(** A continuation byte [0b10xxxxxx] and its six payload bits. *)
Definition is_cont (b : byte) : bool := (128 <=? byte_val b) && (byte_val b <? 192).
Definition cont_val (b : byte) : Z := byte_val b - 128.
Definition in_range (lo hi : Z) (b : byte) : bool :=
  (lo <=? byte_val b) && (byte_val b <=? hi).

(** [decode] accepts exactly the well-formed sequences of the Unicode
    standard (no overlong forms, no surrogates, nothing above U+10FFFF) and
    gives their scalar values. *)
Fixpoint decode (l : list byte) : option (list Z) :=
  match l with
  | [] => Some []
  | b0 :: l1 =>
    if byte_val b0 <? 128 then
      cs ← decode l1; Some (byte_val b0 :: cs)
    else
      match l1 with
      | [] => None
      | b1 :: l2 =>
        if in_range 194 223 b0 then
          if is_cont b1 then
            cs ← decode l2; Some ((byte_val b0 - 192) * 64 + cont_val b1 :: cs)
          else None
        else
          match l2 with
          | [] => None
          | b2 :: l3 =>
            if in_range 224 239 b0 then
              if is_cont b1 && is_cont b2
                 && (if byte_val b0 =? 224 then 160 <=? byte_val b1 else true)
                 && (if byte_val b0 =? 237 then byte_val b1 <=? 159 else true)
              then
                cs ← decode l3;
                Some ((byte_val b0 - 224) * 4096 + cont_val b1 * 64 + cont_val b2 :: cs)
              else None
            else
              match l3 with
              | [] => None
              | b3 :: l4 =>
                if in_range 240 244 b0 && is_cont b1 && is_cont b2 && is_cont b3
                   && (if byte_val b0 =? 240 then 144 <=? byte_val b1 else true)
                   && (if byte_val b0 =? 244 then byte_val b1 <=? 143 else true)
                then
                  cs ← decode l4;
                  Some ((byte_val b0 - 240) * 262144 + cont_val b1 * 4096
                        + cont_val b2 * 64 + cont_val b3 :: cs)
                else None
              end
          end
      end
  end.

(** [char::encode_utf8]. *)
Definition encode_char (c : Z) : list byte :=
  if c <? 128 then [byte_of c]
  else if c <? 2048 then [byte_of (192 + c / 64); byte_of (128 + c mod 64)]
  else if c <? 65536 then
    [byte_of (224 + c / 4096); byte_of (128 + c / 64 mod 64); byte_of (128 + c mod 64)]
  else
    [byte_of (240 + c / 262144); byte_of (128 + c / 4096 mod 64);
     byte_of (128 + c / 64 mod 64); byte_of (128 + c mod 64)].

Definition encode (cs : list Z) : list byte := concat (encode_char <$> cs).

(** The validity test of [String::from_utf8] and [str::from_utf8]. *)
Definition valid (l : list byte) : bool :=
  match decode l with
  | Some _ => true
  | None => false
  end.

Lemma byte_of_eq z b : z = byte_val b -> byte_of z = b.
Proof. intros ->. apply byte_of_val. Qed.

Lemma encode_char_2 b0 b1 :
  194 <= byte_val b0 <= 223 -> 128 <= byte_val b1 < 192 ->
  encode_char ((byte_val b0 - 192) * 64 + cont_val b1) = [b0; b1].
Proof.
  intros H0 H1. unfold encode_char, cont_val.
  set (v0 := byte_val b0) in *. set (v1 := byte_val b1) in *.
  rewrite (proj2 (Z.ltb_ge _ 128)), (proj2 (Z.ltb_lt _ 2048)) by lia.
  rewrite Z.div_add_l, Z.add_comm with (m := (v1 - 128)) by lia.
  rewrite Z.mod_add, Z.div_small, Z.mod_small by lia.
  f_equal; [|f_equal]; apply byte_of_eq; lia.
Qed.

Lemma encode_char_3 b0 b1 b2 :
  224 <= byte_val b0 <= 239 -> 128 <= byte_val b1 < 192 -> 128 <= byte_val b2 < 192 ->
  (byte_val b0 = 224 -> 160 <= byte_val b1) ->
  encode_char ((byte_val b0 - 224) * 4096 + cont_val b1 * 64 + cont_val b2) = [b0; b1; b2].
Proof.
  intros H0 H1 H2 Hlo. unfold encode_char, cont_val.
  set (v0 := byte_val b0) in *. set (v1 := byte_val b1) in *. set (v2 := byte_val b2) in *.
  set (c := (v0 - 224) * 4096 + (v1 - 128) * 64 + (v2 - 128)).
  assert (Hc2 : 2048 <= c) by (destruct (decide (v0 = 224)); subst c; lia).
  rewrite (proj2 (Z.ltb_ge _ 128)), (proj2 (Z.ltb_ge _ 2048)), (proj2 (Z.ltb_lt _ 65536))
    by (subst c; lia).
  assert (c / 64 = (v0 - 224) * 64 + (v1 - 128)) as Hd
    by (symmetry; apply (Z.div_unique _ _ _ (v2 - 128)); subst c; lia).
  assert (c / 4096 = v0 - 224) as Hd2
    by (symmetry; apply (Z.div_unique _ _ _ ((v1 - 128) * 64 + (v2 - 128))); subst c; lia).
  assert (c mod 64 = v2 - 128) as Hm by (rewrite Z.mod_eq, Hd by lia; subst c; lia).
  rewrite Hd2, Hd, Hm.
  rewrite Z.add_comm with (m := (v1 - 128)), Z.mod_add, Z.mod_small by lia.
  f_equal; [|f_equal; [|f_equal]]; apply byte_of_eq; lia.
Qed.

Lemma encode_char_4 b0 b1 b2 b3 :
  240 <= byte_val b0 <= 244 -> 128 <= byte_val b1 < 192 -> 128 <= byte_val b2 < 192 ->
  128 <= byte_val b3 < 192 -> (byte_val b0 = 240 -> 144 <= byte_val b1) ->
  encode_char ((byte_val b0 - 240) * 262144 + cont_val b1 * 4096
               + cont_val b2 * 64 + cont_val b3) = [b0; b1; b2; b3].
Proof.
  intros H0 H1 H2 H3 Hlo. unfold encode_char, cont_val.
  set (v0 := byte_val b0) in *. set (v1 := byte_val b1) in *.
  set (v2 := byte_val b2) in *. set (v3 := byte_val b3) in *.
  set (c := (v0 - 240) * 262144 + (v1 - 128) * 4096 + (v2 - 128) * 64 + (v3 - 128)).
  assert (Hc2 : 65536 <= c) by (destruct (decide (v0 = 240)); subst c; lia).
  rewrite (proj2 (Z.ltb_ge _ 128)), (proj2 (Z.ltb_ge _ 2048)), (proj2 (Z.ltb_ge _ 65536)) by lia.
  assert (c / 64 = (v0 - 240) * 4096 + (v1 - 128) * 64 + (v2 - 128)) as Hd
    by (symmetry; apply (Z.div_unique _ _ _ (v3 - 128)); subst c; lia).
  assert (c / 4096 = (v0 - 240) * 64 + (v1 - 128)) as Hd2
    by (symmetry; apply (Z.div_unique _ _ _ ((v2 - 128) * 64 + (v3 - 128))); subst c; lia).
  assert (c / 262144 = v0 - 240) as Hd3
    by (symmetry; apply (Z.div_unique _ _ _ ((v1 - 128) * 4096 + (v2 - 128) * 64 + (v3 - 128)));
        subst c; lia).
  assert (c mod 64 = v3 - 128) as Hm by (rewrite Z.mod_eq, Hd by lia; subst c; lia).
  rewrite Hd3, Hd2, Hd, Hm.
  replace ((v0 - 240) * 4096 + (v1 - 128) * 64 + (v2 - 128))
    with ((v2 - 128) + ((v0 - 240) * 64 + (v1 - 128)) * 64) by lia.
  rewrite Z.add_comm with (m := (v1 - 128)), !Z.mod_add, !Z.mod_small by lia.
  f_equal; [|f_equal; [|f_equal; [|f_equal]]]; apply byte_of_eq; lia.
Qed.

Lemma in_range_spec lo hi b : in_range lo hi b = true <-> lo <= byte_val b <= hi.
Proof. unfold in_range. rewrite andb_true_iff, !Z.leb_le. done. Qed.

Lemma is_cont_spec b : is_cont b = true <-> 128 <= byte_val b < 192.
Proof. unfold is_cont. rewrite andb_true_iff, Z.leb_le, Z.ltb_lt. done. Qed.

Ltac split_guard :=
  repeat match goal with
  | H : (_ && _)%bool = true |- _ => apply andb_true_iff in H as [? ?]
  | H : is_cont _ = true |- _ => apply is_cont_spec in H
  | H : in_range _ _ _ = true |- _ => apply in_range_spec in H
  end.

(** Decoding loses nothing: a valid sequence is the encoding of its
    scalar values. *)
Lemma encode_decode l cs : decode l = Some cs -> encode cs = l.
Proof.
  remember (length l) as n eqn:Hn. revert l cs Hn.
  induction n as [n IH] using lt_wf_ind. intros l cs -> H.
  destruct l as [|b0 l1]; [by injection H as <-|]. cbn [decode] in H.
  destruct (byte_val b0 <? 128) eqn:E0.
  { apply bind_Some in H as (cs' & H' & [= <-]). apply Z.ltb_lt in E0.
    unfold encode. cbn. fold (encode cs'). unfold encode_char.
    rewrite (proj2 (Z.ltb_lt _ _) E0), byte_of_val. cbn.
    f_equal. eapply IH; [|done|done]. cbn. lia. }
  destruct l1 as [|b1 l2]; [done|].
  destruct (in_range 194 223 b0) eqn:E1.
  { destruct (is_cont b1) eqn:E2; [|done].
    apply bind_Some in H as (cs' & H' & [= <-]).
    apply in_range_spec in E1. apply is_cont_spec in E2.
    unfold encode. cbn [fmap list_fmap concat]. rewrite encode_char_2 by done.
    cbn. do 2 f_equal. eapply IH; [|done|done]. cbn. lia. }
  destruct l2 as [|b2 l3]; [done|].
  destruct (in_range 224 239 b0) eqn:E2.
  { destruct (_ && _) eqn:E3 in H; [|done].
    apply bind_Some in H as (cs' & H' & [= <-]).
    apply in_range_spec in E2. split_guard.
    unfold encode. cbn [fmap list_fmap concat]. rewrite encode_char_3; try done.
    - cbn. do 3 f_equal. eapply IH; [|done|done]. cbn. lia.
    - intros Hb. rewrite (proj2 (Z.eqb_eq _ _) Hb) in *. by apply Z.leb_le. }
  destruct l3 as [|b3 l4]; [done|].
  destruct (_ && _) eqn:E3 in H; [|done].
  apply bind_Some in H as (cs' & H' & [= <-]). split_guard.
  unfold encode. cbn [fmap list_fmap concat]. rewrite encode_char_4; try done.
  - cbn. do 4 f_equal. eapply IH; [|done|done]. cbn. lia.
  - intros Hb. rewrite (proj2 (Z.eqb_eq _ _) Hb) in *. by apply Z.leb_le.
Qed.

(** Decoding gives Unicode code points. *)
Lemma decode_range l cs : decode l = Some cs -> Forall (fun c => 0 <= c < 1114112) cs.
Proof.
  remember (length l) as n eqn:Hn. revert l cs Hn.
  induction n as [n IH] using lt_wf_ind. intros l cs -> H.
  destruct l as [|b0 l1]; [by injection H as <-|]. cbn [decode] in H.
  pose proof (byte_val_range b0) as B0.
  destruct (byte_val b0 <? 128) eqn:E0.
  { apply bind_Some in H as (cs' & H' & [= <-]). constructor; [lia|].
    eapply IH; [|done|done]. cbn. lia. }
  destruct l1 as [|b1 l2]; [done|]. destruct (in_range 194 223 b0) eqn:E1.
  { destruct (is_cont b1) eqn:E2; [|done]. apply bind_Some in H as (cs' & H' & [= <-]).
    split_guard. constructor; [unfold cont_val; lia|]. eapply IH; [|done|done]. cbn. lia. }
  destruct l2 as [|b2 l3]; [done|]. destruct (in_range 224 239 b0) eqn:E2.
  { destruct (_ && _) eqn:E3 in H; [|done]. apply bind_Some in H as (cs' & H' & [= <-]).
    split_guard. constructor; [unfold cont_val; lia|]. eapply IH; [|done|done]. cbn. lia. }
  destruct l3 as [|b3 l4]; [done|]. destruct (_ && _) eqn:E3 in H; [|done].
  apply bind_Some in H as (cs' & H' & [= <-]). split_guard. constructor.
  - unfold cont_val. match goal with H : (if _ =? 244 then _ else _) = true |- _ =>
      destruct (Z.eqb_spec (byte_val b0) 244); [apply Z.leb_le in H|] end; lia.
  - eapply IH; [|done|done]. cbn. lia.
Qed.

(** The bytes of a character above ASCII are above ASCII. *)
Lemma encode_char_bytes c b :
  0 <= c < 1114112 -> b ∈ encode_char c -> byte_val b = c \/ 128 <= byte_val b.
Proof.
  intros Hc. unfold encode_char.
  assert (Hb : forall z, 128 <= z < 256 -> 128 <= byte_val (byte_of z))
    by (intros z Hz; rewrite byte_val_of, Z.mod_small; lia).
  assert (Hm : forall z, 128 <= 128 + z mod 64 < 256)
    by (intros z; pose proof (Z.mod_pos_bound z 64 ltac:(lia)); lia).
  destruct (Z.ltb_spec c 128).
  { rewrite list_elem_of_singleton. intros ->. left. rewrite byte_val_of. apply Z.mod_small. lia. }
  destruct (Z.ltb_spec c 2048); [|destruct (Z.ltb_spec c 65536)]; rewrite !elem_of_cons;
    rewrite elem_of_nil; intros Hin; right; destruct_or! Hin; subst; try done;
    apply Hb; auto; Z.to_euclidean_division_equations; lia.
Qed.

(** Bytes below 128 are the characters themselves. *)
Definition is_ascii (l : list byte) : bool := forallb (fun b => byte_val b <? 128) l.

Lemma decode_ascii l : is_ascii l = true -> decode l = Some (byte_val <$> l).
Proof.
  induction l as [|b l IH]; [done|]. cbn. intros [-> H]%andb_true_iff.
  by rewrite (IH H).
Qed.

Lemma valid_ascii l : is_ascii l = true -> valid l = true.
Proof. intros H. unfold valid. by rewrite decode_ascii. Qed.

End Utf8.

(** The type invariant of a Rust [str]. *)
Definition str_ok (s : string) : Prop := Utf8.valid (str_bytes s) = true.

(** [String::from_utf8]. *)
Definition from_utf8 (l : list byte) : option string :=
  if Utf8.valid l then Some (str_of_bytes l) else None.

Lemma from_utf8_str_bytes s : str_ok s -> from_utf8 (str_bytes s) = Some s.
Proof. unfold str_ok, from_utf8. intros ->. by rewrite str_of_bytes_str_bytes. Qed.

Lemma from_utf8_Some l s : from_utf8 l = Some s -> str_ok s /\ str_bytes s = l.
Proof.
  unfold from_utf8, str_ok. intros. case_match; simplify_eq.
  by rewrite str_bytes_str_of_bytes.
Qed.

(** [s.chars()]. *)
Definition chars (s : string) : list Z := default [] (Utf8.decode (str_bytes s)).

(** Collecting characters into a [String]. *)
Definition string_of_chars (cs : list Z) : string := str_of_bytes (Utf8.encode cs).

Lemma string_of_chars_chars s : str_ok s -> string_of_chars (chars s) = s.
Proof.
  unfold str_ok, Utf8.valid, string_of_chars, chars. intros H.
  destruct (Utf8.decode _) as [cs|] eqn:E; [|done].
  change (default [] (Some cs)) with cs.
  by rewrite (Utf8.encode_decode _ _ E), str_of_bytes_str_bytes.
Qed.

(** ** Characters *)

(** [char::is_whitespace]: the Unicode [White_Space] property. *)
Definition is_whitespace (c : Z) : bool :=
  ((9 <=? c) && (c <=? 13)) || (c =? 32) || (c =? 133) || (c =? 160) || (c =? 5760)
  || ((8192 <=? c) && (c <=? 8202)) || (c =? 8232) || (c =? 8233) || (c =? 8239)
  || (c =? 8287) || (c =? 12288).

Definition is_ascii_uppercase (c : Z) : bool := (65 <=? c) && (c <=? 90).
Definition is_ascii_lowercase (c : Z) : bool := (97 <=? c) && (c <=? 122).
Definition is_ascii_digit (c : Z) : bool := (48 <=? c) && (c <=? 57).
Definition is_ascii_alphanumeric (c : Z) : bool :=
  is_ascii_uppercase c || is_ascii_lowercase c || is_ascii_digit c.

(** [char::to_ascii_lowercase]. *)
Definition char_lower (c : Z) : Z := if is_ascii_uppercase c then c + 32 else c.

(** ** Byte-wise string functions *)

Definition byte_lower (b : byte) : byte := byte_of (char_lower (byte_val b)).

(** [str::to_ascii_lowercase]. *)
Definition to_ascii_lowercase (s : string) : string :=
  str_of_bytes (byte_lower <$> str_bytes s).

(** [str::eq_ignore_ascii_case]. *)
Definition eq_ignore_ascii_case (a b : string) : bool :=
  String.eqb (to_ascii_lowercase a) (to_ascii_lowercase b).

(** [str::replace] of one ASCII character by another. *)
Fixpoint replace_char (a b : ascii) (s : string) : string :=
  match s with
  | EmptyString => EmptyString
  | String c s => String (if Ascii.eqb c a then b else c) (replace_char a b s)
  end.

(** [str::starts_with]. *)
Definition starts_with (s pat : string) : bool := String.prefix pat s.

(** [str::strip_prefix]. *)
Fixpoint strip_prefix (pat s : string) : option string :=
  match pat, s with
  | EmptyString, _ => Some s
  | String a pat, String b s => if Ascii.eqb a b then strip_prefix pat s else None
  | String _ _, EmptyString => None
  end.

(** [str::contains] for a string pattern. *)
Fixpoint contains (s pat : string) : bool :=
  String.prefix pat s ||
  match s with
  | EmptyString => false
  | String _ s => contains s pat
  end.

(** [str::split_once] for a string pattern: at its first occurrence. *)
Fixpoint split_once (pat s : string) : option (string * string) :=
  match strip_prefix pat s with
  | Some rest => Some (EmptyString, rest)
  | None =>
    match s with
    | EmptyString => None
    | String c s => '(h, t) ← split_once pat s; Some (String c h, t)
    end
  end.

(** [str::rsplit_once] for a character: at its last occurrence. *)
Fixpoint rsplit_once (a : ascii) (s : string) : option (string * string) :=
  match s with
  | EmptyString => None
  | String c s =>
    match rsplit_once a s with
    | Some (h, t) => Some (String c h, t)
    | None => if Ascii.eqb c a then Some (EmptyString, s) else None
    end
  end.

(** [&s[..s.find(set)]] and the rest, or all of [s] and the empty string. *)
Fixpoint split_at_any (set : list ascii) (s : string) : string * string :=
  match s with
  | EmptyString => (EmptyString, EmptyString)
  | String c s' =>
    if existsb (Ascii.eqb c) set then (EmptyString, s)
    else let '(h, t) := split_at_any set s' in (String c h, t)
  end.

(** [str::contains] for a character. *)
Definition contains_char (a : ascii) (s : string) : bool :=
  match rsplit_once a s with
  | Some _ => true
  | None => false
  end.

(** [str::split] at a character: never empty. *)
Fixpoint split_char (a : ascii) (s : string) : list string :=
  match s with
  | EmptyString => [EmptyString]
  | String c s =>
    if Ascii.eqb c a then EmptyString :: split_char a s
    else
      match split_char a s with
      | [] => [String c EmptyString]
      | h :: t => String c h :: t
      end
  end.

(** [[String]::join]. *)
Definition join (sep : string) (l : list string) : string := String.concat sep l.

(** ** Functions on characters *)

Fixpoint drop_while {A} (p : A -> bool) (l : list A) : list A :=
  match l with
  | [] => []
  | x :: l' => if p x then drop_while p l' else l
  end.

Fixpoint take_while {A} (p : A -> bool) (l : list A) : list A :=
  match l with
  | [] => []
  | x :: l' => if p x then x :: take_while p l' else []
  end.

Definition trim_by {A} (p : A -> bool) (l : list A) : list A :=
  reverse (drop_while p (reverse (drop_while p l))).

(** [str::trim]. *)
Definition trim (s : string) : string := string_of_chars (trim_by is_whitespace (chars s)).

(** [str::split_whitespace]. *)
Fixpoint split_words (cur : list Z) (cs : list Z) : list (list Z) :=
  match cs with
  | [] => if decide (cur = []) then [] else [reverse cur]
  | c :: cs =>
    if is_whitespace c then
      if decide (cur = []) then split_words [] cs
      else reverse cur :: split_words [] cs
    else split_words (c :: cur) cs
  end.
Definition split_whitespace (s : string) : list string :=
  string_of_chars <$> split_words [] (chars s).

(** ** Integers as text *)

(** [digits] as a base-ten number, [None] when a character is not a digit or
    the value exceeds [max]; the overflow test runs at every digit, as in the
    standard library. *)
Fixpoint parse_digits (max acc : Z) (l : list byte) : option Z :=
  match l with
  | [] => Some acc
  | b :: l =>
    let c := byte_val b in
    if is_ascii_digit c then
      let acc' := acc * 10 + (c - 48) in
      if acc' <=? max then parse_digits max acc' l else None
    else None
  end.

(** [str::parse::<uN>]: an optional [+], then at least one digit. *)
Definition parse_uint (w : Z) (s : string) : option Z :=
  match str_bytes s with
  | [] => None
  | b :: l =>
    let digits := if byte_val b =? 43 then l else b :: l in
    match digits with
    | [] => None
    | _ => parse_digits (u_max w) 0 digits
    end
  end.

(** [Display] of an unsigned integer. *)
Fixpoint digits_of (fuel : nat) (z : Z) : list byte :=
  match fuel with
  | O => []
  | S fuel =>
    if z <? 10 then [byte_of (48 + z)]
    else digits_of fuel (z / 10) ++ [byte_of (48 + z mod 10)]
  end.
Definition display_uint (z : Z) : string :=
  str_of_bytes (digits_of (S (Z.to_nat (Z.log2 z))) z).

(** ** Words contain no white space *)

Lemma split_words_all (P : Z -> Prop) cs : forall cur,
  Forall (fun c => P c /\ is_whitespace c = false) cur -> Forall P cs ->
  Forall (Forall (fun c => P c /\ is_whitespace c = false)) (split_words cur cs).
Proof.
  induction cs as [|c cs IH]; intros cur Hcur Hcs; cbn [split_words].
  - case_decide; [done|]. constructor; [by apply Forall_reverse|done].
  - apply Forall_cons_iff in Hcs as [Hc Hcs]. destruct (is_whitespace c) eqn:Hw.
    + case_decide; [by apply IH|]. constructor; [by apply Forall_reverse|by apply IH].
    + apply IH; [by constructor|done].
Qed.

(** A word has no ASCII white space bytes. *)
Lemma split_whitespace_bytes s w b :
  w ∈ split_whitespace s -> b ∈ str_bytes w ->
  128 <= byte_val b \/ is_whitespace (byte_val b) = false.
Proof.
  unfold split_whitespace. intros (cs & -> & Hcs)%list_elem_of_fmap.
  unfold string_of_chars. rewrite str_bytes_str_of_bytes. unfold Utf8.encode. intros Hb.
  assert (Hr : Forall (fun c => 0 <= c < 1114112) (chars s)).
  { unfold chars. destruct (Utf8.decode (str_bytes s)) eqn:E; [|done].
    by eapply Utf8.decode_range. }
  pose proof (split_words_all _ (chars s) [] ltac:(done) Hr) as Hw.
  rewrite Forall_forall in Hw. apply Hw in Hcs. rewrite Forall_forall in Hcs.
  rewrite list_elem_of_In, in_concat in Hb. destruct Hb as (l & Hl & Hb).
  rewrite <-list_elem_of_In in Hl. rewrite <-list_elem_of_In in Hb. apply list_elem_of_fmap in Hl as (c & -> & Hc).
  destruct (Hcs c Hc) as [Hrange Hws].
  destruct (Utf8.encode_char_bytes c b Hrange Hb) as [->|?]; auto.
Qed.

(** ** Facts about searching and splitting *)

Fixpoint str_all (p : ascii -> bool) (s : string) : bool :=
  match s with
  | EmptyString => true
  | String c s => p c && str_all p s
  end.

Definition not_in (set : list ascii) (c : ascii) : bool := negb (existsb (Ascii.eqb c) set).

Lemma str_all_append p a b : str_all p (a +:+ b) = str_all p a && str_all p b.
Proof.
  induction a as [|c a IH]; [done|]. cbn [str_all]. rewrite <-andb_assoc, <-IH. done.
Qed.

Lemma str_all_impl (p q : ascii -> bool) s :
  (forall c, p c = true -> q c = true) -> str_all p s = true -> str_all q s = true.
Proof.
  intros Hpq. induction s as [|c s IH]; cbn; [done|].
  intros [Hc Hs]%andb_true_iff. by rewrite Hpq, IH.
Qed.

Lemma str_append_assoc (a b c : string) : (a +:+ b) +:+ c = a +:+ (b +:+ c).
Proof. induction a as [|x a IH]; [done|]. exact (f_equal (String x) IH). Qed.

Lemma str_append_nil_r (a : string) : a +:+ EmptyString = a.
Proof. induction a as [|x a IH]; [done|]. exact (f_equal (String x) IH). Qed.

Lemma split_at_any_append set a t :
  str_all (not_in set) a = true ->
  match t with EmptyString => True | String c _ => existsb (Ascii.eqb c) set = true end ->
  split_at_any set (a +:+ t) = (a, t).
Proof.
  intros Ha Ht. induction a as [|c a IH]; cbn [str_all] in Ha.
  - destruct t as [|c t]; [done|].
    change (EmptyString +:+ String c t) with (String c t). cbn [split_at_any]. by rewrite Ht.
  - change (String c a +:+ t) with (String c (a +:+ t)). cbn [split_at_any]. apply andb_true_iff in Ha as [Hc Ha]. unfold not_in in Hc.
    destruct (existsb _ set); [done|]. by rewrite (IH Ha).
Qed.

Lemma rsplit_once_None c s : str_all (not_in [c]) s = true -> rsplit_once c s = None.
Proof.
  induction s as [|x s IH]; cbn; [done|]. intros [Hx Hs]%andb_true_iff. rewrite (IH Hs).
  unfold not_in in Hx. cbn in Hx. by destruct (Ascii.eqb x c).
Qed.

Lemma rsplit_once_append c a b :
  str_all (not_in [c]) b = true -> rsplit_once c (a +:+ String c b) = Some (a, b).
Proof.
  intros Hb%rsplit_once_None. induction a as [|x a IH].
  - change (EmptyString +:+ String c b) with (String c b). cbn [rsplit_once].
    by rewrite Hb, Ascii.eqb_refl.
  - change (String x a +:+ String c b) with (String x (a +:+ String c b)).
    cbn [rsplit_once]. by rewrite IH.
Qed.

Lemma prefix_spec p s : String.prefix p s = true <-> exists t, s = p +:+ t.
Proof.
  revert s. induction p as [|a p IH]; intros s; [split; [by exists s|by destruct s]|].
  destruct s as [|b s]; cbn [String.prefix]; [split; [done|by intros [t ?]]|].
  destruct (ascii_dec a b) as [->|Hne].
  - rewrite IH. split; intros [t Ht]; exists t; [by subst|by injection Ht].
  - split; [done|]. intros [t Ht]. by injection Ht as -> _.
Qed.

Lemma contains_spec s p : contains s p = true <-> exists a b, s = a +:+ p +:+ b.
Proof.
  induction s as [|c s IH]; cbn [contains]; rewrite orb_true_iff, prefix_spec.
  - split; [intros [[t Ht]|?]; [by exists EmptyString, t|done]|]. intros ([|] & t & Ht); [left; by exists t|done].
  - rewrite IH. split.
    + intros [[t Ht]|(a & b & ->)]; [by exists EmptyString, t|by exists (String c a), b].
    + intros ([|d a] & b & Ht); [left; by exists b|right]. exists a, b. by injection Ht.
Qed.

Lemma strip_prefix_append p s : strip_prefix p (p +:+ s) = Some s.
Proof.
  induction p as [|c p IH]; [done|].
  change (String c p +:+ s) with (String c (p +:+ s)). cbn [strip_prefix].
  by rewrite Ascii.eqb_refl.
Qed.

Lemma strip_prefix_Some p s r : strip_prefix p s = Some r -> s = p +:+ r.
Proof.
  revert s. induction p as [|c p IH]; intros s; cbn [strip_prefix]; [by intros [= ->]|].
  destruct s as [|d s]; [done|]. destruct (Ascii.eqb_spec c d) as [->|]; [|done].
  intros Hs%IH. subst. done.
Qed.

Lemma split_at_any_eq set s : s = (split_at_any set s).1 +:+ (split_at_any set s).2.
Proof.
  induction s as [|c s IH]; [done|]. cbn [split_at_any].
  destruct (existsb (Ascii.eqb c) set); [done|].
  destruct (split_at_any set s) as [h t]. cbn [fst snd] in *.
  change (String c h +:+ t) with (String c (h +:+ t)). by rewrite <-IH.
Qed.

Lemma split_once_char c a b :
  str_all (not_in [c]) a = true ->
  split_once (String c EmptyString) (a +:+ String c b) = Some (a, b).
Proof.
  intros Ha. induction a as [|x a IH].
  - change (EmptyString +:+ String c b) with (String c b). cbn [split_once strip_prefix].
    by rewrite Ascii.eqb_refl.
  - cbn [str_all] in Ha. apply andb_true_iff in Ha as [Hx Ha].
    change (String x a +:+ String c b) with (String x (a +:+ String c b)).
    cbn [split_once strip_prefix]. unfold not_in in Hx. cbn in Hx. rewrite Ascii.eqb_sym.
    destruct (Ascii.eqb x c); [done|]. by rewrite (IH Ha).
Qed.

Lemma split_at_any_parts set s :
  str_all (not_in set) (split_at_any set s).1 = true
  /\ match (split_at_any set s).2 with EmptyString => True | String c _ => existsb (Ascii.eqb c) set = true end.
Proof.
  induction s as [|c s [IH1 IH2]]; [done|]. cbn [split_at_any]. destruct (existsb (Ascii.eqb c) set) eqn:E; [done|].
  destruct (split_at_any set s) as [h t]. cbn [fst snd] in *. split; [|done]. cbn [str_all]. unfold not_in at 1.
  by rewrite E.
Qed.

Lemma rsplit_once_eq c s h t : rsplit_once c s = Some (h, t) -> s = h +:+ String c t.
Proof.
  revert h. induction s as [|x s IH]; intros h; cbn [rsplit_once]; [done|].
  destruct (rsplit_once c s) as [[h' t']|].
  - intros [= <- ->]. by rewrite (IH h' eq_refl) at 1.
  - destruct (Ascii.eqb_spec x c) as [-> |]; [|done]. by intros [= <- ->].
Qed.

Lemma strip_prefix_same p : forall x t t',
  (String.length p <= String.length x)%nat -> strip_prefix p (x +:+ t) = None -> strip_prefix p (x +:+ t') = None.
Proof.
  induction p as [|a p IH]; intros x t t' Hx; [done|]. destruct x as [|b x]; [cbn in Hx; lia|].
  change (String b x +:+ t) with (String b (x +:+ t)). change (String b x +:+ t') with (String b (x +:+ t')).
  cbn [strip_prefix]. destruct (Ascii.eqb a b); [|done]. apply IH. cbn in Hx. lia.
Qed.

Lemma str_length_append a b : String.length (a +:+ b) = (String.length a + String.length b)%nat.
Proof. induction a as [|c a IH]; [done|]. change (String c a +:+ b) with (String c (a +:+ b)). cbn. by rewrite IH. Qed.

Lemma split_once_eq p s h t : split_once p s = Some (h, t) -> s = h +:+ p +:+ t.
Proof.
  revert h. induction s as [|c s IH]; intros h; cbn [split_once]; destruct (strip_prefix p _) as [r|] eqn:E.
  - intros [= <- <-]. exact (strip_prefix_Some _ _ _ E).
  - done.
  - intros [= <- <-]. exact (strip_prefix_Some _ _ _ E).
  - destruct (split_once p s) as [[h' t']|]; [cbn|done]. intros [= <- <-].
    change (String c h' +:+ p +:+ t') with (String c (h' +:+ p +:+ t')). by rewrite <-IH.
Qed.

(** Where the first occurrence is does not depend on what follows it. *)
Lemma split_once_again p s h t t' : split_once p s = Some (h, t) -> split_once p (h +:+ p +:+ t') = Some (h, t').
Proof.
  revert h. induction s as [|c s IH]; intros h; cbn [split_once]; destruct (strip_prefix p _) as [r|] eqn:E.
  - intros [= <- <-]. change (EmptyString +:+ p +:+ t') with (p +:+ t'). destruct (p +:+ t') eqn:Ep.
    all: cbn [split_once]; by rewrite <-Ep, strip_prefix_append.
  - done.
  - intros [= <- <-]. change (EmptyString +:+ p +:+ t') with (p +:+ t'). destruct (p +:+ t') eqn:Ep.
    all: cbn [split_once]; by rewrite <-Ep, strip_prefix_append.
  - destruct (split_once p s) as [[h' t'']|] eqn:Es; [cbn|done]. intros [= <- <-].
    rewrite (split_once_eq _ _ _ _ Es) in E.
    change (String c h' +:+ p +:+ t') with (String c (h' +:+ p +:+ t')). cbn [split_once].
    assert (strip_prefix p (String c (h' +:+ p +:+ t')) = None) as ->; [|by rewrite (IH h' eq_refl)].
    rewrite <-!str_append_assoc in *.
    apply (strip_prefix_same p (String c (h' +:+ p)) t'' t'); [|done].
    cbn. rewrite str_length_append. lia.
Qed.

(** ** Printing an integer and parsing it back *)

Definition digit_char (c : ascii) : bool := is_ascii_digit (Z.of_N (N_of_ascii c)).

Lemma parse_digits_snoc max l z b acc :
  parse_digits max acc l = Some z ->
  is_ascii_digit (byte_val b) = true -> z * 10 + (byte_val b - 48) <= max ->
  parse_digits max acc (l ++ [b]) = Some (z * 10 + (byte_val b - 48)).
Proof.
  revert acc. induction l as [|x l IH]; cbn [parse_digits app]; intros acc Hl Hb Hz.
  - simplify_eq. rewrite Hb. by destruct (Z.leb_spec (z * 10 + (byte_val b - 48)) max); [|lia].
  - destruct (is_ascii_digit (byte_val x)); [|done].
    destruct (_ <=? max); [|done]. by apply IH.
Qed.

Lemma digit_byte d : 0 <= d < 10 ->
  is_ascii_digit (byte_val (byte_of (48 + d))) = true /\ byte_val (byte_of (48 + d)) - 48 = d.
Proof.
  intros Hd. rewrite byte_val_of, Z.mod_small by lia. unfold is_ascii_digit.
  split; [apply andb_true_iff; split; apply Z.leb_le; lia|lia].
Qed.

Lemma parse_digits_of max fuel : forall z,
  0 <= z <= max -> z < 2 ^ Z.of_nat (S fuel) ->
  parse_digits max 0 (digits_of (S fuel) z) = Some z.
Proof.
  induction fuel as [|fuel IH]; intros z Hz Hf.
  - change (2 ^ Z.of_nat 1) with 2 in Hf. cbn [digits_of].
    destruct (Z.ltb_spec z 10); [|lia].
    destruct (digit_byte z) as [Hd Hv]; [lia|]. cbn [parse_digits]. rewrite Hd, Hv.
    destruct (Z.leb_spec (0 * 10 + z) max); [|lia]. f_equal; lia.
  - cbn [digits_of]. destruct (Z.ltb_spec z 10).
    + destruct (digit_byte z) as [Hd Hv]; [lia|]. cbn [parse_digits]. rewrite Hd, Hv.
      destruct (Z.leb_spec (0 * 10 + z) max); [|lia]. f_equal; lia.
    + destruct (digit_byte (z mod 10)) as [Hd Hv]; [apply Z.mod_pos_bound; lia|].
      pose proof (Z.div_mod z 10 ltac:(lia)) as Hdm.
      pose proof (Z.mod_pos_bound z 10 ltac:(lia)) as Hm.
      erewrite (parse_digits_snoc max _ (z / 10)); [| |done|lia]; [f_equal; lia|].
      apply IH; [lia|]. rewrite Nat2Z.inj_succ, Z.pow_succ_r in Hf by lia. lia.
Qed.

Lemma display_fuel z : 0 <= z -> z < 2 ^ Z.of_nat (S (Z.to_nat (Z.log2 z))).
Proof.
  intros Hz. destruct (decide (z = 0)) as [->|]; [done|].
  pose proof (Z.log2_spec z ltac:(lia)) as [_ H].
  rewrite Nat2Z.inj_succ, Z2Nat.id by apply Z.log2_nonneg. done.
Qed.

Lemma digits_of_digits fuel : forall z,
  0 <= z -> Forall (fun b => is_ascii_digit (byte_val b) = true) (digits_of fuel z).
Proof.
  induction fuel as [|fuel IH]; intros z Hz; cbn [digits_of]; [done|].
  destruct (Z.ltb_spec z 10).
  - constructor; [|done]. by apply digit_byte.
  - apply Forall_app. split; [apply IH; apply Z.div_pos; lia|].
    constructor; [|done]. apply digit_byte, Z.mod_pos_bound. lia.
Qed.

Lemma parse_digits_range max l : forall acc z,
  parse_digits max acc l = Some z -> 0 <= acc <= max -> 0 <= z <= max.
Proof.
  induction l as [|b l IH]; cbn [parse_digits]; intros acc z Hp Ha; [by simplify_eq|].
  destruct (is_ascii_digit (byte_val b)) eqn:Hd; [|done].
  unfold is_ascii_digit in Hd. apply andb_true_iff in Hd as [Hd%Z.leb_le _].
  destruct (Z.leb_spec (acc * 10 + (byte_val b - 48)) max); [|done].
  eapply IH; [done|lia].
Qed.

Lemma parse_uint_range w s z : 0 <= w -> parse_uint w s = Some z -> in_u w z.
Proof.
  intros Hw Hp. unfold parse_uint in Hp.
  assert (Hm : 0 <= u_max w) by (unfold u_max; pose proof (Z.pow_pos_nonneg 2 w); lia).
  enough (0 <= z <= u_max w) by (unfold in_u, u_max in *; lia).
  destruct (str_bytes s) as [|b l]; [done|].
  destruct (if byte_val b =? 43 then l else b :: l); [done|].
  eapply parse_digits_range; [done|lia].
Qed.

(** [n.to_string().parse() == Ok(n)]. *)
Lemma parse_uint_display w z : 0 <= z <= u_max w -> parse_uint w (display_uint z) = Some z.
Proof.
  intros Hz. pose proof (parse_digits_of (u_max w) (Z.to_nat (Z.log2 z)) z Hz
    (display_fuel z ltac:(lia))) as Hp.
  pose proof (digits_of_digits (S (Z.to_nat (Z.log2 z))) z ltac:(lia)) as Hd.
  unfold parse_uint, display_uint. rewrite str_bytes_str_of_bytes.
  destruct (digits_of _ z) as [|b l] eqn:E.
  { exfalso. cbn [digits_of] in E. destruct (z <? 10); [done|]. by destruct (digits_of _ _). }
  apply Forall_cons_iff in Hd as [Hb _].
  destruct (Z.eqb_spec (byte_val b) 43) as [E43|]; [|done]. by rewrite E43 in Hb.
Qed.

Lemma str_all_bytes (p : ascii -> bool) l :
  Forall (fun b => p (ascii_of_byte b) = true) l -> str_all p (str_of_bytes l) = true.
Proof.
  induction 1 as [|b l Hb Hl IH]; [done|].
  change (str_of_bytes (b :: l)) with (String (ascii_of_byte b) (str_of_bytes l)).
  cbn [str_all]. by rewrite Hb.
Qed.

Lemma display_uint_all (p : ascii -> bool) z :
  0 <= z -> forallb p ["0"; "1"; "2"; "3"; "4"; "5"; "6"; "7"; "8"; "9"]%char = true ->
  str_all p (display_uint z) = true.
Proof.
  intros Hz Hp. apply str_all_bytes. eapply List.Forall_impl; [|by apply digits_of_digits].
  intros b Hb. cbn [forallb] in Hp. repeat (apply andb_true_iff in Hp as [? Hp]).
  destruct b; try (exfalso; vm_compute in Hb; discriminate); assumption.
Qed.

Lemma join_all (p : ascii -> bool) sep l :
  str_all p sep = true -> Forall (fun s => str_all p s = true) l -> str_all p (join sep l) = true.
Proof.
  intros Hsep Hl. induction Hl as [|s l Hs Hl IH]; [done|]. unfold join in *. cbn [String.concat].
  destruct l as [|s' l]; [done|]. change (?a ++ ?b ++ ?c)%string with (a +:+ b +:+ c).
  by rewrite !str_all_append, Hs, Hsep, IH.
Qed.

Example parse_uint_ex :
  (parse_uint 16 "443", parse_uint 16 "+80", parse_uint 16 "65536", parse_uint 16 "+", parse_uint 16 EmptyString)
  = (Some 443, Some 80, None, None, None).
Proof. reflexivity. Qed.

Example display_uint_ex : (display_uint 0, display_uint 65535) = ("0", "65535")%string.
Proof. reflexivity. Qed.

Example trim_ex : (trim "  a b ", split_whitespace " GET  / HTTP/1.1 ") = ("a b", ["GET"; "/"; "HTTP/1.1"])%string.
Proof. reflexivity. Qed.
