(* ===== verification/IpAddr.v ===== *)
(** * IP addresses and their text

    [std::net::IpAddr] as the sources use it: an address is its octets, and
    [to_string] and [parse] are the standard library's.  The parser reads
    from the front of a byte list and gives back what is left. *)
From Stdlib Require Import Strings.Ascii.
From S2P Require Import Prelude RustStr.

Inductive IpAddr := V4 (octets : list byte) | V6 (octets : list byte).

#[global] Instance IpAddr_eq_dec : EqDecision IpAddr.
Proof. solve_decision. Defined.

Definition ip_ok (ip : IpAddr) : Prop :=
  match ip with
  | V4 o => length o = 4%nat
  | V6 o => length o = 16%nat
  end.

Record SocketAddr := { sa_ip : IpAddr; sa_port : Z }.

(** ** Printing *)

Definition v4_text (o : list byte) : string := join "." ((fun b => display_uint (byte_val b)) <$> o).

Definition hex_digit (z : Z) : byte := byte_of (if z <? 10 then 48 + z else 87 + z).

(** [{:x}] of a sixteen bit group. *)
Definition hex_text (z : Z) : string :=
  str_of_bytes
    (if z <? 16 then [hex_digit z]
     else if z <? 256 then [hex_digit (z / 16); hex_digit (z mod 16)]
     else if z <? 4096 then [hex_digit (z / 256); hex_digit (z / 16 mod 16); hex_digit (z mod 16)]
     else [hex_digit (z / 4096); hex_digit (z / 256 mod 16); hex_digit (z / 16 mod 16);
           hex_digit (z mod 16)]).

Fixpoint segments (o : list byte) : list Z :=
  match o with
  | a :: b :: o => be_value [a; b] :: segments o
  | _ => []
  end.

(** The first longest run of zero groups: its start and its length. *)
Fixpoint longest_zeroes (i : nat) (longest current : nat * nat) (l : list Z) : nat * nat :=
  match l with
  | [] => longest
  | z :: l =>
    if z =? 0 then
      let current := (if Nat.eqb current.2 0 then i else current.1, S current.2) in
      longest_zeroes (S i) (if Nat.ltb longest.2 current.2 then current else longest) current l
    else longest_zeroes (S i) longest (0%nat, 0%nat) l
  end.

Definition groups_text (l : list Z) : string := join ":" (hex_text <$> l).

Definition v4_mapped (o : list byte) : option (list byte) :=
  if decide (take 12 o = repeat x00 10 ++ [xff; xff]) then Some (drop 12 o) else None.

Definition v6_text (o : list byte) : string :=
  match v4_mapped o with
  | Some v4 => "::ffff:" +:+ v4_text v4
  | None =>
    let l := segments o in
    let '(start, n) := longest_zeroes 0 (0, 0)%nat (0, 0)%nat l in
    if Nat.ltb 1 n
    then groups_text (take start l) +:+ "::" +:+ groups_text (drop (start + n) l)
    else groups_text l
  end.

Definition ip_text (ip : IpAddr) : string :=
  match ip with
  | V4 o => v4_text o
  | V6 o => v6_text o
  end.

(** ** Parsing *)

Definition digit_value (radix : Z) (b : byte) : option Z :=
  let c := byte_val b in
  let d := if is_ascii_digit c then Some (c - 48)
           else if is_ascii_lowercase c then Some (c - 87)
           else if is_ascii_uppercase c then Some (c - 55)
           else None in
  match d with
  | Some v => if v <? radix then Some v else None
  | None => None
  end.

(** The digits at the front of the input, as values. *)
Fixpoint read_digits (radix : Z) (l : list byte) : list Z * list byte :=
  match l with
  | [] => ([], [])
  | b :: l' =>
    match digit_value radix b with
    | Some d => let '(ds, r) := read_digits radix l' in (d :: ds, r)
    | None => ([], l)
    end
  end.

Definition read_number (radix : Z) (max_digits : nat) (allow_zero_prefix : bool) (max : Z)
    (l : list byte) : option (Z * list byte) :=
  let '(ds, r) := read_digits radix l in
  let v := foldl (fun acc d => acc * radix + d) 0 ds in
  if Nat.ltb max_digits (length ds) then None
  else
    match ds with
    | [] => None
    | d :: ds' =>
      if negb allow_zero_prefix && (d =? 0) && negb (Nat.eqb (length ds') 0) then None
      else if max <? v then None
      else Some (v, r)
    end.

(** [read_separator]: the separator before every item but the first. *)
Definition read_sep (sep : byte) (index : nat) (l : list byte) : option (list byte) :=
  match index with
  | O => Some l
  | _ =>
    match l with
    | b :: l => if decide (b = sep) then Some l else None
    | [] => None
    end
  end.

Fixpoint read_octets (n index : nat) (l : list byte) : option (list byte * list byte) :=
  match n with
  | O => Some ([], l)
  | S n =>
    l ← read_sep x2e index l;
    '(v, l) ← read_number 10 3 false 255 l;
    '(o, l) ← read_octets n (S index) l;
    Some (byte_of v :: o, l)
  end.

Definition read_v4 (l : list byte) : option (list byte * list byte) := read_octets 4 0 l.

(** [read_groups]: up to [slots] groups, as octets; the flag says that the
    last two groups were written as an IPv4 address. *)
Fixpoint read_groups (slots index : nat) (l : list byte) : list byte * bool * list byte :=
  match slots with
  | O => ([], false, l)
  | S slots =>
    match (if Nat.eqb slots 0 then None else l ← read_sep x3a index l; read_v4 l) with
    | Some (v4, l) => (v4, true, l)
    | None =>
      match (l ← read_sep x3a index l; read_number 16 4 true 65535 l) with
      | Some (g, l) =>
        let '(o, v4, l) := read_groups slots (S index) l in (be_bytes 2 g ++ o, v4, l)
      | None => ([], false, l)
      end
    end
  end.

Definition read_v6 (l : list byte) : option (list byte * list byte) :=
  let '(head, head_ipv4, l) := read_groups 8 0 l in
  if Nat.eqb (length head) 16 then Some (head, l)
  else if head_ipv4 then None
  else
    match l with
    | c1 :: c2 :: l =>
      if decide (c1 = x3a /\ c2 = x3a) then
        let '(tail, _, l) := read_groups (7 - length head / 2) 0 l in
        Some (head ++ repeat x00 (16 - length head - length tail) ++ tail, l)
      else None
    | _ => None
    end.

(** [s.parse::<IpAddr>()]: the whole input must be read. *)
Definition ip_parse (s : string) : option IpAddr :=
  let l := str_bytes s in
  let r := match read_v4 l with
           | Some (o, l) => Some (V4 o, l)
           | None => '(o, l) ← read_v6 l; Some (V6 o, l)
           end in
  match r with
  | Some (ip, []) => Some ip
  | _ => None
  end.

Example ip_parse_ex :
  (ip_parse "127.0.0.1", ip_parse "127.0.0.01", ip_parse "1.2.3.4.", ip_parse "example.com")
  = (Some (V4 [x7f; x00; x00; x01]), None, None, None).
Proof. vm_compute. reflexivity. Qed.

Example ip_text_ex :
  (ip_text (V4 [x7f; x00; x00; x01]), ip_text (V6 (repeat x00 15 ++ [x01])),
   ip_text (V6 (repeat x00 10 ++ [xff; xff; x0a; x00; x00; x01])),
   ip_text (V6 ([x20; x01; x0d; xb8] ++ repeat x00 11 ++ [x01])))
  = ("127.0.0.1", "::1", "::ffff:10.0.0.1", "2001:db8::1")%string.
Proof. vm_compute. reflexivity. Qed.

Example ip_round_trip_ex :
  ip_parse <$> ["::1"; "2001:db8::1"; "::ffff:10.0.0.1"; "1:2:3:4:5:6:7:8"; "::"; "1::2::3"]%string
  = [Some (V6 (repeat x00 15 ++ [x01])); Some (V6 ([x20; x01; x0d; xb8] ++ repeat x00 11 ++ [x01]));
     Some (V6 (repeat x00 10 ++ [xff; xff; x0a; x00; x00; x01]));
     Some (V6 [x00; x01; x00; x02; x00; x03; x00; x04; x00; x05; x00; x06; x00; x07; x00; x08]);
     Some (V6 (repeat x00 16)); None].
Proof. vm_compute. reflexivity. Qed.

(** ** Parsed addresses have the octets of their kind *)

Lemma read_octets_length n : forall i l o r, read_octets n i l = Some (o, r) -> length o = n.
Proof.
  induction n as [|n IH]; cbn; intros i l o r Hr; simplify_eq; [done|].
  destruct (read_sep _ _ _) as [l1|]; cbn in Hr; [|done].
  destruct (read_number _ _ _ _ _) as [[v l2]|]; cbn in Hr; [|done].
  destruct (read_octets n _ l2) as [[o' l3]|] eqn:E; cbn in Hr; simplify_eq.
  cbn. f_equal. by eapply IH.
Qed.

Lemma read_groups_length slots : forall i l,
  (length (read_groups slots i l).1.1 <= 2 * slots)%nat
  /\ Nat.even (length (read_groups slots i l).1.1) = true.
Proof.
  induction slots as [|n IH]; intros i l; cbn [read_groups]; [done|].
  destruct (if Nat.eqb n 0 then _ else _) as [[v4 l1]|] eqn:E4.
  - destruct (Nat.eqb_spec n 0); [done|]. destruct (read_sep _ _ _); [|done].
    change (read_octets 4 0 l0 = Some (v4, l1)) in E4.
    apply read_octets_length in E4. cbn [fst]. rewrite E4. split; [lia|done].
  - match goal with |- context [match ?x with Some _ => _ | None => _ end] =>
      destruct x as [[g l2]|] end; [|split; [cbn [fst length]; lia|done]].
    specialize (IH (S i) l2). destruct (read_groups n (S i) l2) as [[o v] l3].
    cbn [fst] in *. rewrite length_app, length_be_bytes. split; [lia|]. cbn. apply IH.
Qed.

Lemma read_v6_length l o r : read_v6 l = Some (o, r) -> length o = 16%nat.
Proof.
  unfold read_v6. pose proof (read_groups_length 8 0 l) as [Hl Hev].
  destruct (read_groups 8 0 l) as [[head v4] l1]. cbn [fst] in *.
  destruct (Nat.eqb_spec (length head) 16) as [E|E]; [by intros [= <- <-]|].
  destruct v4; [done|]. destruct l1 as [|c1 [|c2 l1]]; try done. case_decide; [|done].
  pose proof (read_groups_length (7 - length head / 2) 0 l1) as [Ht _].
  destruct (read_groups (7 - length head / 2) 0 l1) as [[tail ?] l2]. cbn [fst] in *.
  intros [= <- <-]. rewrite !length_app, repeat_length.
  apply Nat.even_spec in Hev as [k Hk].
  replace (length head / 2)%nat with k in Ht by (rewrite Hk, Nat.mul_comm, Nat.div_mul; lia).
  lia.
Qed.

Lemma ip_parse_ok s ip : ip_parse s = Some ip -> ip_ok ip.
Proof.
  unfold ip_parse. destruct (read_v4 _) as [[o l]|] eqn:E4.
  - destruct l; [|done]. intros [= <-]. by eapply read_octets_length.
  - destruct (read_v6 _) as [[o l]|] eqn:E6; cbn; [|done].
    destruct l; [|done]. intros [= <-]. by eapply read_v6_length.
Qed.

(** ** IPv4 addresses survive printing and parsing *)

Lemma read_digits_app radix t ds r :
  read_digits radix t = (ds, []) -> read_digits radix r = ([], r) ->
  read_digits radix (t ++ r) = (ds, r).
Proof.
  revert ds. induction t as [|b t IH]; cbn [read_digits app]; intros ds Ht Hr; [by simplify_eq|].
  destruct (digit_value radix b); [|done].
  destruct (read_digits radix t) as [ds' t'] eqn:E. injection Ht as <- ->.
  by rewrite (IH ds').
Qed.

Lemma read_number_app radix m a mx t v r :
  read_number radix m a mx t = Some (v, []) -> read_digits radix r = ([], r) ->
  read_number radix m a mx (t ++ r) = Some (v, r).
Proof.
  unfold read_number. intros Ht Hr. destruct (read_digits radix t) as [ds t'] eqn:E.
  assert (t' = []) as -> by (repeat case_match; congruence).
  rewrite (read_digits_app _ _ _ _ E Hr). repeat case_match; congruence.
Qed.

Definition octet_text (b : byte) : list byte := str_bytes (display_uint (byte_val b)).

Lemma read_octet b r :
  read_digits 10 r = ([], r) ->
  read_number 10 3 false 255 (octet_text b ++ r) = Some (byte_val b, r).
Proof. apply read_number_app. destruct b; vm_compute; reflexivity. Qed.

Lemma v4_text_bytes a b c d :
  str_bytes (v4_text [a; b; c; d])
  = octet_text a ++ [x2e] ++ octet_text b ++ [x2e] ++ octet_text c ++ [x2e] ++ octet_text d.
Proof. unfold v4_text, join. cbn [fmap list_fmap String.concat]. by autorewrite with str. Qed.

Lemma ip_parse_v4_text o : length o = 4%nat -> ip_parse (v4_text o) = Some (V4 o).
Proof.
  intros Ho. destruct o as [|a [|b [|c [|d [|]]]]]; try done.
  unfold ip_parse, read_v4. rewrite v4_text_bytes.
  cbn [read_octets read_sep mbind option_bind app].
  rewrite read_octet by done. cbn [mbind option_bind].
  rewrite decide_True by done. cbn [mbind option_bind].
  rewrite read_octet by done. cbn [mbind option_bind].
  rewrite decide_True by done. cbn [mbind option_bind].
  rewrite read_octet by done. cbn [mbind option_bind].
  rewrite decide_True by done. cbn [mbind option_bind].
  rewrite <-(app_nil_r (octet_text d)), read_octet by done. cbn [mbind option_bind].
  by rewrite !byte_of_val.
Qed.

(** ** What an address is written with *)

Definition ip_chars : list ascii :=
  ["0"; "1"; "2"; "3"; "4"; "5"; "6"; "7"; "8"; "9"; "a"; "b"; "c"; "d"; "e"; "f"; "."; ":"]%char.

Lemma hex_digit_all (p : ascii -> bool) z :
  forallb p ip_chars = true -> 0 <= z < 16 -> p (ascii_of_byte (hex_digit z)) = true.
Proof.
  intros Hp Hz. cbn [forallb ip_chars] in Hp. repeat (apply andb_true_iff in Hp as [? Hp]).
  assert (z ∈ seqZ 0 16) as Hin by (apply elem_of_seqZ; lia). cbn in Hin.
  repeat (apply elem_of_cons in Hin as [-> |Hin]; [assumption|]). by apply elem_of_nil in Hin.
Qed.

Lemma hex_text_all (p : ascii -> bool) z :
  forallb p ip_chars = true -> 0 <= z < 65536 -> str_all p (hex_text z) = true.
Proof.
  intros Hp Hz. apply str_all_bytes.
  repeat case_match; rewrite ?Z.ltb_lt, ?Z.ltb_ge in *;
    repeat (apply Forall_cons_2; [apply (hex_digit_all p); [done|]; try (apply Z.mod_pos_bound; lia)|]); try done;
    split; try lia; try (apply Z.div_pos; lia); apply Z.div_lt_upper_bound; lia.
Qed.

Lemma v4_text_all (p : ascii -> bool) o : forallb p ip_chars = true -> str_all p (v4_text o) = true.
Proof.
  intros Hp. assert (Hd := Hp). cbn [forallb ip_chars] in Hd. repeat (apply andb_true_iff in Hd as [? Hd]).
  apply join_all; [cbn; by rewrite andb_true_r|]. apply Forall_fmap, Forall_true. intros b. cbn.
  apply display_uint_all; [pose proof (byte_val_range b); lia|]. cbn [forallb]. by repeat (apply andb_true_iff; split).
Qed.

Lemma segments_range n : forall o z, (length o <= n)%nat -> z ∈ segments o -> 0 <= z < 65536.
Proof.
  induction n as [|n IH]; intros [|a [|b o]] z Hn; cbn in Hn |- *; try (by intros ?%elem_of_nil); [lia|].
  intros [-> |Hz]%elem_of_cons; [exact (be_value_range [a; b])|]. apply (IH o z); [lia|done].
Qed.

Lemma groups_text_all (p : ascii -> bool) l :
  forallb p ip_chars = true -> Forall (fun z => 0 <= z < 65536) l -> str_all p (groups_text l) = true.
Proof.
  intros Hp Hl. assert (Hd := Hp). cbn [forallb ip_chars] in Hd. repeat (apply andb_true_iff in Hd as [? Hd]).
  apply join_all; [cbn; by rewrite andb_true_r|]. apply Forall_fmap. eapply Forall_impl; [exact Hl|]. intros z Hz.
  by apply hex_text_all.
Qed.

Lemma ip_text_all (p : ascii -> bool) ip : forallb p ip_chars = true -> str_all p (ip_text ip) = true.
Proof.
  intros Hp. destruct ip as [o|o]; [by apply v4_text_all|]. assert (Hd := Hp). cbn [forallb ip_chars] in Hd.
  repeat (apply andb_true_iff in Hd as [? Hd]). cbn [ip_text]. unfold v6_text. destruct (v4_mapped o) as [v4|].
  - rewrite str_all_append, v4_text_all by done. cbn [str_all]. rewrite andb_true_r.
    by repeat (apply andb_true_iff; split).
  - assert (Hs : Forall (fun z => 0 <= z < 65536) (segments o)).
    { apply Forall_forall. intros z Hz. by apply (segments_range (length o) o). }
    destruct (longest_zeroes _ _ _ _) as [start n]. destruct (Nat.ltb 1 n); [|by apply groups_text_all].
    rewrite !str_all_append, !groups_text_all; [|done|by apply Forall_drop|done|by apply Forall_take].
    cbn [str_all]. by repeat (apply andb_true_iff; split).
Qed.
