(* ===== verification/Cursor.v ===== *)
(** * Cursors over a payload

    [ssh-proxy-protocol/src/protocol.rs] and
    [ssh-proxy/src/quic_native/stream_header.rs] both decode a payload with a
    private [Cursor] type (a slice and a position).  The two types differ only
    in their error messages, so the operations are given once, over a record
    of errors; [Frame] and [StreamHeader] instantiate it. *)
From S2P Require Import Prelude RustStr.

Record Cursor := MkCursor { bytes : list byte; pos : nat }.

Record CursorErrors (E : Type) := {
  truncated : E;
  overflow : E;
  invalid_utf8 : E;
  trailing : Z -> E;
}.
Arguments truncated {E}.
Arguments overflow {E}.
Arguments invalid_utf8 {E}.
Arguments trailing {E}.

Definition Cursor_new (bs : list byte) : Cursor := MkCursor bs 0.

Section ops.
Context {E : Type} (errs : CursorErrors E).

Definition read_u8 : sr Cursor E byte := fun c =>
  match bytes c !! pos c with
  | Some v => (Ok v, MkCursor (bytes c) (S (pos c)))
  | None => (Err (truncated errs), c)
  end.

Definition read_bytes (n : Z) : sr Cursor E (list byte) := fun c =>
  match checked_add_u 64 (Z.of_nat (pos c)) n with
  | None => (Err (overflow errs), c)
  | Some fin =>
    if fin <=? len (bytes c)
    then (Ok (take (Z.to_nat n) (drop (pos c) (bytes c))), MkCursor (bytes c) (Z.to_nat fin))
    else (Err (truncated errs), c)
  end.

Definition read_u16 : sr Cursor E Z := bs ← read_bytes 2; mret (be_value bs).
Definition read_u32 : sr Cursor E Z := bs ← read_bytes 4; mret (be_value bs).
Definition read_u64 : sr Cursor E Z := bs ← read_bytes 8; mret (be_value bs).

Definition read_string : sr Cursor E string :=
  n ← read_u16; bs ← read_bytes n; sr_lift (ok_or (invalid_utf8 errs) (from_utf8 bs)).

Definition is_empty (c : Cursor) : bool := Nat.eqb (pos c) (length (bytes c)).

Definition ensure_empty : sr Cursor E unit := fun c =>
  if is_empty c then (Ok tt, c)
  else (Err (trailing errs (len (bytes c) - Z.of_nat (pos c))), c).
End ops.

(** ** Length-prefixed strings, as both formats write them *)

Definition wire_string (s : string) : list byte := be_bytes 2 (str_len s) ++ str_bytes s.

Lemma str_len_nonneg s : 0 <= str_len s.
Proof. unfold str_len. lia. Qed.

Lemma str_len_u16 s : str_len s <= u_max 16 -> in_u 16 (str_len s).
Proof. pose proof (str_len_nonneg s). unfold in_u, u_max. lia. Qed.

Lemma length_wire_string s : len (wire_string s) = 2 + str_len s.
Proof. unfold wire_string, str_len. autorewrite with len. lia. Qed.

(** ** What a cursor still has to read *)

Definition cursor_at (c : Cursor) (rest : list byte) : Prop :=
  len (bytes c) <= usize_max /\ (pos c <= length (bytes c))%nat /\ drop (pos c) (bytes c) = rest.

Lemma cursor_at_new bs : len bs <= usize_max -> cursor_at (Cursor_new bs) bs.
Proof. unfold cursor_at; cbn. intros. split_and!; [done|lia|done]. Qed.

Lemma cursor_at_length c rest : cursor_at c rest -> len rest = len (bytes c) - Z.of_nat (pos c).
Proof. intros (_ & ? & <-). rewrite length_drop. lia. Qed.

Lemma is_empty_at c rest : cursor_at c rest -> is_empty c = bool_decide (rest = []).
Proof.
  intros H. pose proof (cursor_at_length _ _ H) as Hl. destruct H as (_ & ? & _).
  unfold is_empty. destruct (Nat.eqb_spec (pos c) (length (bytes c))).
  - rewrite bool_decide_eq_true_2; [done|]. destruct rest; [done|]. cbn in Hl. lia.
  - rewrite bool_decide_eq_false_2; [done|]. intros ->. cbn in Hl. lia.
Qed.

(** [consumes m x v]: wherever the cursor is followed by the bytes [x], [m]
    reads exactly them and returns [v].  The lemmas below compose it along a
    decoder; this is how the round trips are proved. *)
Definition consumes {E A} (m : sr Cursor E A) (x : list byte) (v : A) : Prop :=
  forall c rest, cursor_at c (x ++ rest) -> exists c', m c = (Ok v, c') /\ cursor_at c' rest.

Section consumes.
Context {E : Type} (errs : CursorErrors E).

Lemma consumes_ret {A} (v : A) : consumes (E := E) (mret v) [] v.
Proof. intros c rest H. exists c. by split. Qed.

Lemma consumes_bind {A B} (m : sr Cursor E A) (f : A -> sr Cursor E B) x y v w :
  consumes m x v -> consumes (f v) y w -> consumes (m ≫= f) (x ++ y) w.
Proof.
  intros Hm Hf c rest H. rewrite <-app_assoc in H.
  destruct (Hm _ _ H) as (c1 & H1 & H1'). destruct (Hf _ _ H1') as (c2 & H2 & H2').
  exists c2. by rewrite (sr_bind_Ok _ _ _ _ _ H1).
Qed.

Lemma consumes_read_u8 b : consumes (read_u8 errs) [b] b.
Proof.
  intros c rest (Hu & Hp & Hd). unfold read_u8.
  assert (bytes c !! pos c = Some b) as Hb.
  { rewrite <-(Nat.add_0_r (pos c)), <-lookup_drop, Hd. done. }
  rewrite Hb. eexists; split; [done|].
  pose proof (lookup_lt_Some _ _ _ Hb). unfold cursor_at; cbn. split_and!; [done|lia|].
  by rewrite <-Nat.add_1_r, <-drop_drop, Hd.
Qed.

Lemma consumes_read_bytes x : consumes (read_bytes errs (len x)) x x.
Proof.
  intros c rest H. pose proof (cursor_at_length _ _ H) as Hl.
  destruct H as (Hu & Hp & Hd). rewrite length_app in Hl. unfold read_bytes, checked_add_u.
  unfold usize_max in *.
  destruct (Z.leb_spec (Z.of_nat (pos c) + len x) (u_max 64)); [|lia].
  destruct (Z.leb_spec (Z.of_nat (pos c) + len x) (len (bytes c))); [|lia].
  replace (Z.to_nat (Z.of_nat (pos c) + len x)) with (pos c + length x)%nat by lia.
  rewrite Hd, Nat2Z.id, take_app_length. eexists; split; [done|].
  unfold cursor_at; cbn. split_and!; [done|lia|].
  by rewrite <-drop_drop, Hd, drop_app_length.
Qed.

Lemma consumes_be n z :
  in_u (8 * Z.of_nat n) z ->
  consumes (bs ← read_bytes errs (Z.of_nat n); mret (be_value bs)) (be_bytes n z) z.
Proof.
  intros Hz. rewrite <-(app_nil_r (be_bytes n z)).
  eapply consumes_bind with (v := be_bytes n z).
  - pose proof (consumes_read_bytes (be_bytes n z)) as H. by rewrite length_be_bytes in H.
  - rewrite be_value_u by done. apply consumes_ret.
Qed.

Lemma consumes_read_u16 z : in_u 16 z -> consumes (read_u16 errs) (be_bytes 2 z) z.
Proof. apply (consumes_be 2). Qed.
Lemma consumes_read_u32 z : in_u 32 z -> consumes (read_u32 errs) (be_bytes 4 z) z.
Proof. apply (consumes_be 4). Qed.
Lemma consumes_read_u64 z : in_u 64 z -> consumes (read_u64 errs) (be_bytes 8 z) z.
Proof. apply (consumes_be 8). Qed.

Lemma consumes_read_string s :
  str_ok s -> in_u 16 (str_len s) ->
  consumes (read_string errs) (be_bytes 2 (str_len s) ++ str_bytes s) s.
Proof.
  intros Hs Hl. eapply consumes_bind; [by apply consumes_read_u16|].
  rewrite <-(app_nil_r (str_bytes s)). eapply consumes_bind; [apply consumes_read_bytes|].
  rewrite from_utf8_str_bytes by done. apply consumes_ret.
Qed.

Lemma ensure_empty_at c : cursor_at c [] -> ensure_empty errs c = (Ok tt, c).
Proof. intros H. unfold ensure_empty. by rewrite (is_empty_at _ _ H). Qed.
End consumes.

Create HintDb consumes.
#[export] Hint Resolve consumes_ret consumes_read_u8 consumes_read_bytes consumes_read_u16
  consumes_read_u32 consumes_read_u64 consumes_read_string : consumes.

(** [finishes m x v]: with exactly [x] left, [m] succeeds with [v]. *)
Definition finishes {E A} (m : sr Cursor E A) (x : list byte) (v : A) : Prop :=
  forall c, cursor_at c x -> (m c).1 = Ok v.

Section finishes.
Context {E : Type} (errs : CursorErrors E).

Lemma finishes_bind {A B} (m : sr Cursor E A) (f : A -> sr Cursor E B) x y v w :
  consumes m x v -> finishes (f v) y w -> finishes (m ≫= f) (x ++ y) w.
Proof.
  intros Hm Hf c H. destruct (Hm _ _ H) as (c1 & H1 & H1').
  rewrite (sr_bind_Ok _ _ _ _ _ H1). by apply Hf.
Qed.

Lemma finishes_more {A} (f : bool -> sr Cursor E A) x v :
  x <> [] -> finishes (f false) x v -> finishes (sr_gets is_empty ≫= f) x v.
Proof.
  intros Hx Hf c H. unfold mbind, sr_bind, sr_gets.
  rewrite (is_empty_at _ _ H), bool_decide_eq_false_2 by done. by apply Hf.
Qed.

Lemma finishes_end {A} (v : A) : finishes (_ ← ensure_empty errs; mret v) [] v.
Proof. intros c H. by rewrite (sr_bind_Ok _ _ _ _ _ (ensure_empty_at _ _ H)). Qed.
End finishes.

#[export] Hint Resolve finishes_end : consumes.

(** ** Reading a successful decoder backwards

    Each lemma says what bytes a successful read took off the cursor. *)
Definition remaining (c : Cursor) : list byte := drop (pos c) (bytes c).

Section inversion.
Context {E : Type} (errs : CursorErrors E).

Lemma read_u8_inv c v c' :
  read_u8 errs c = (Ok v, c') -> remaining c = [v] ++ remaining c'.
Proof.
  unfold read_u8, remaining. intros. case_match; simplify_eq. cbn. by apply drop_S.
Qed.

Lemma read_bytes_inv n c x c' :
  0 <= n -> read_bytes errs n c = (Ok x, c') -> remaining c = x ++ remaining c' /\ len x = n.
Proof.
  unfold read_bytes, checked_add_u, remaining. intros Hn H.
  destruct (Z.leb_spec (Z.of_nat (pos c) + n) (u_max 64)); [|done].
  destruct (Z.leb_spec (Z.of_nat (pos c) + n) (len (bytes c))); simplify_eq. cbn.
  split; [|rewrite length_take, length_drop; lia].
  rewrite Z2Nat.inj_add, Nat2Z.id, <-drop_drop, take_drop by lia. done.
Qed.

Lemma read_be_inv n c v c' :
  (bs ← read_bytes errs (Z.of_nat n); mret (be_value bs)) c = (Ok v, c') ->
  remaining c = be_bytes n v ++ remaining c' /\ in_u (8 * Z.of_nat n) v.
Proof.
  intros (bs & c1 & H & H1)%sr_bind_inv. unfold mret, sr_ret in H1. simplify_eq.
  apply read_bytes_inv in H as [-> Hl]; [|lia].
  rewrite <-Hl. split; [|apply be_value_range].
  replace n with (length bs) by lia. by rewrite be_bytes_be_value.
Qed.

Lemma read_u16_inv c v c' :
  read_u16 errs c = (Ok v, c') -> remaining c = be_bytes 2 v ++ remaining c' /\ in_u 16 v.
Proof. apply (read_be_inv 2). Qed.
Lemma read_u32_inv c v c' :
  read_u32 errs c = (Ok v, c') -> remaining c = be_bytes 4 v ++ remaining c' /\ in_u 32 v.
Proof. apply (read_be_inv 4). Qed.
Lemma read_u64_inv c v c' :
  read_u64 errs c = (Ok v, c') -> remaining c = be_bytes 8 v ++ remaining c' /\ in_u 64 v.
Proof. apply (read_be_inv 8). Qed.

Lemma read_string_inv c s c' :
  read_string errs c = (Ok s, c') ->
  remaining c = be_bytes 2 (str_len s) ++ str_bytes s ++ remaining c'
  /\ str_ok s /\ in_u 16 (str_len s).
Proof.
  unfold read_string. intros H. inv_sr. apply read_u16_inv in H as [-> Hn].
  apply read_bytes_inv in H0 as [-> Hl]; [|apply Hn].
  unfold sr_lift in H1. simplify_eq. apply ok_or_Ok, from_utf8_Some in H as [Hs <-].
  by unfold str_len.
Qed.

Lemma ensure_empty_inv c u c' : ensure_empty errs c = (Ok u, c') -> remaining c = [] /\ c' = c.
Proof.
  unfold ensure_empty, is_empty, remaining. intros.
  destruct (Nat.eqb_spec (pos c) (length (bytes c))) as [->|]; simplify_eq. by rewrite drop_all.
Qed.
End inversion.

(** Apply them along a decoder that succeeded. *)
Ltac inv_cursor :=
  inv_sr;
  repeat match goal with
  | H : read_u8 _ _ = (Ok _, _) |- _ => apply read_u8_inv in H
  | H : read_u16 _ _ = (Ok _, _) |- _ => apply read_u16_inv in H as [H ?]
  | H : read_u32 _ _ = (Ok _, _) |- _ => apply read_u32_inv in H as [H ?]
  | H : read_u64 _ _ = (Ok _, _) |- _ => apply read_u64_inv in H as [H ?]
  | H : read_string _ _ = (Ok _, _) |- _ => apply read_string_inv in H as (H & ? & ?)
  | H : ensure_empty _ _ = (Ok _, _) |- _ => apply ensure_empty_inv in H as [H ->]
  | H : read_bytes _ ?n _ = (Ok _, _), Hn : in_u _ ?n |- _ =>
      apply read_bytes_inv in H as [H ?]; [|by apply Hn]
  end; inv_sr.
