(* ===== verification/Stream.v ===== *)
(** * Asynchronous byte streams as interfaces

    The sources read and write through tokio's [AsyncRead] and [AsyncWrite],
    which are not part of this repository.  They are modelled as classes: the
    operations the code calls, and the documented behaviour of those
    operations as laws over the bytes a stream still holds.  Components are
    verified against the classes; [Segments] and [ScriptedWriter] at the end
    are concrete streams that satisfy them (a peer that delivers its bytes in
    arbitrary pieces, a peer that accepts arbitrarily few bytes per call). *)
From S2P Require Import Prelude.

(** [std::io::Error], as far as the code looks at it: its kind is compared
    with [UnexpectedEof]. *)
Inductive io_error := UnexpectedEof | IoOther.
#[global] Instance io_error_eq_dec : EqDecision io_error.
Proof. solve_decision. Defined.

(** How a stream ends once its bytes are read. *)
Inductive io_end := AtEof | AtFailure.

(** ** Reading *)

Class AsyncRead (R : Type) := {
  (** [AsyncReadExt::read_exact] into a buffer of [n] bytes. *)
  read_exact : Z -> sr R io_error (list byte);
  (** one [AsyncReadExt::read_buf] through [take(n)]: between 1 and [n] bytes,
      or none at the end of the stream. *)
  read_some : Z -> sr R io_error (list byte);
}.

Definition end_error (e : io_end) : io_error :=
  match e with
  | AtEof => UnexpectedEof
  | AtFailure => IoOther
  end.

(** The laws speak about the bytes [rest r] that the stream still holds. *)
Class AsyncReadLaws (R : Type) `{AsyncRead R} := {
  rest : R -> list byte;
  fin : R -> io_end;
  read_exact_ok n r :
    0 <= n <= len (rest r) ->
    exists r', read_exact n r = (Ok (take (Z.to_nat n) (rest r)), r')
               /\ rest r' = drop (Z.to_nat n) (rest r) /\ fin r' = fin r;
  read_exact_short n r :
    len (rest r) < n -> exists r', read_exact n r = (Err (end_error (fin r)), r');
  read_some_ok n r :
    0 < n -> rest r <> [] ->
    exists k r', 0 < k /\ k <= n /\ k <= len (rest r)
                 /\ read_some n r = (Ok (take (Z.to_nat k) (rest r)), r')
                 /\ rest r' = drop (Z.to_nat k) (rest r) /\ fin r' = fin r;
  read_some_end n r :
    0 < n -> rest r = [] ->
    exists r', read_some n r =
      (match fin r with AtEof => Ok [] | AtFailure => Err IoOther end, r');
}.

(** [read_exact] seen from the bytes in front of it. *)
Lemma read_exact_app {R} `{AsyncReadLaws R} (r : R) x y :
  rest r = x ++ y ->
  exists r', read_exact (len x) r = (Ok x, r') /\ rest r' = y /\ fin r' = fin r.
Proof.
  intros Hr. destruct (read_exact_ok (len x) r) as (r' & H1 & H2 & H3).
  { rewrite Hr, length_app. lia. }
  rewrite Hr, Nat2Z.id, take_app_length in H1. rewrite Hr, Nat2Z.id, drop_app_length in H2.
  eauto.
Qed.

(** ** Writing *)

Class AsyncWrite (W : Type) := {
  (** [AsyncWriteExt::write_vectored]: how many bytes of the slices, in order,
      the writer took. *)
  write_vectored : list (list byte) -> sr W io_error Z;
  (** [AsyncWriteExt::write_all]. *)
  write_all : list byte -> sr W io_error unit;
  (** [AsyncWriteExt::flush]. *)
  flush : sr W io_error unit;
  (** [AsyncWriteExt::shutdown]. *)
  shutdown : sr W io_error unit;
}.

(** [live w] says that the peer of [w] keeps taking bytes. *)
Class AsyncWriteLaws (W : Type) `{AsyncWrite W} := {
  written : W -> list byte;
  live : W -> Prop;
  write_vectored_ok bufs w n w' :
    write_vectored bufs w = (Ok n, w') ->
    0 <= n <= len (concat bufs)
    /\ written w' = written w ++ take (Z.to_nat n) (concat bufs);
  write_vectored_live bufs w :
    live w -> concat bufs <> [] ->
    exists n w', write_vectored bufs w = (Ok n, w') /\ 0 < n /\ live w';
  write_all_live bs w :
    live w -> exists w', write_all bs w = (Ok tt, w')
                         /\ written w' = written w ++ bs /\ live w';
  flush_live w :
    live w -> exists w', flush w = (Ok tt, w') /\ written w' = written w /\ live w';
  shutdown_live w :
    live w -> exists w', shutdown w = (Ok tt, w') /\ written w' = written w;
}.

(** ** A stream that arrives in pieces *)

Record Segments := MkSegments { segs : list (list byte); seg_end : io_end }.

Definition seg_bytes (s : Segments) : list byte := concat (segs s).

(** One read takes from the first non-empty piece only. *)
Fixpoint take_piece (n : nat) (l : list (list byte)) : list byte * list (list byte) :=
  match l with
  | [] => ([], [])
  | [] :: l => take_piece n l
  | p :: l => (take n p, drop n p :: l)
  end.

Definition seg_read_some (n : Z) : sr Segments io_error (list byte) := fun s =>
  let '(bs, l) := take_piece (Z.to_nat n) (segs s) in
  match bs, seg_end s with
  | [], AtFailure => (Err IoOther, s)
  | _, _ => (Ok bs, MkSegments l (seg_end s))
  end.

Definition seg_read_exact (n : Z) : sr Segments io_error (list byte) := fun s =>
  if n <=? len (seg_bytes s)
  then (Ok (take (Z.to_nat n) (seg_bytes s)),
        MkSegments [drop (Z.to_nat n) (seg_bytes s)] (seg_end s))
  else (Err (end_error (seg_end s)), MkSegments [] (seg_end s)).

#[global] Instance segments_read : AsyncRead Segments :=
  {| read_exact := seg_read_exact; read_some := seg_read_some |}.

Lemma take_piece_spec n l bs l' :
  (0 < n)%nat -> take_piece n l = (bs, l') ->
  concat l = bs ++ concat l' /\ (length bs <= n)%nat /\ (concat l <> [] -> bs <> []).
Proof.
  intros Hn. induction l as [|[|b p] l IH]; cbn; intros Heq.
  - simplify_eq. by split_and!; [done|cbn; lia|].
  - by apply IH.
  - simplify_eq. destruct n as [|n]; [lia|]. cbn. split_and!; [|rewrite length_take; lia|done].
    by rewrite app_assoc, take_drop.
Qed.

#[global] Program Instance segments_laws : AsyncReadLaws Segments :=
  {| rest := seg_bytes; fin := seg_end |}.
Next Obligation.
  intros n r Hn. cbn. unfold seg_read_exact.
  rewrite (proj2 (Z.leb_le _ _) (proj2 Hn)). eexists; split; [done|].
  unfold seg_bytes; cbn. by rewrite app_nil_r.
Qed.
Next Obligation.
  intros n r Hn. cbn. unfold seg_read_exact.
  rewrite (proj2 (Z.leb_gt _ _) Hn). eauto.
Qed.
Next Obligation.
  intros n r Hn Hr. cbn. unfold seg_read_some, seg_bytes in *.
  destruct (take_piece (Z.to_nat n) (segs r)) as [bs l] eqn:E.
  apply take_piece_spec in E as (Hc & Hl & Hne); [|lia].
  specialize (Hne Hr). exists (len bs).
  assert (0 < len bs) by (destruct bs; [done|cbn; lia]).
  rewrite Nat2Z.id, Hc, take_app_length, drop_app_length, length_app.
  exists (MkSegments l (seg_end r)). destruct bs; [done|]. cbn [length] in *.
  split_and!; try done; lia.
Qed.
Next Obligation.
  intros n r Hn Hr. cbn. unfold seg_read_some, seg_bytes in *.
  destruct (take_piece (Z.to_nat n) (segs r)) as [bs l] eqn:E.
  apply take_piece_spec in E as (Hc & _ & _); [|lia].
  rewrite Hr in Hc. symmetry in Hc. apply app_eq_nil in Hc as [-> _].
  destruct (seg_end r); eauto.
Qed.

(** ** A writer that takes as much as its script says *)

Record ScriptedWriter := MkWriter { out : list byte; script : list Z; flushes : Z }.

(** The next script entry bounds what one call takes; a negative entry is an
    I/O failure; past the end of the script everything is taken. *)
Definition scr_write_vectored (bufs : list (list byte)) : sr ScriptedWriter io_error Z := fun w =>
  match script w with
  | [] => (Ok (len (concat bufs)), MkWriter (out w ++ concat bufs) [] (flushes w))
  | q :: l =>
    if q <? 0 then (Err IoOther, MkWriter (out w) l (flushes w))
    else
      let n := Z.min q (len (concat bufs)) in
      (Ok n, MkWriter (out w ++ take (Z.to_nat n) (concat bufs)) l (flushes w))
  end.

#[global] Instance scripted_write : AsyncWrite ScriptedWriter :=
  {| write_vectored := scr_write_vectored;
     write_all bs := fun w =>
       if forallb (Z.ltb 0) (script w)
       then (Ok tt, MkWriter (out w ++ bs) [] (flushes w))
       else (Err IoOther, w);
     flush := fun w => (Ok tt, MkWriter (out w) (script w) (flushes w + 1));
     shutdown := fun w => (Ok tt, w) |}.

#[global] Program Instance scripted_laws : AsyncWriteLaws ScriptedWriter :=
  {| written := out; live w := forallb (Z.ltb 0) (script w) = true |}.
Next Obligation.
  intros bufs w n w'. cbn. unfold scr_write_vectored. destruct (script w) as [|q l]; intros Heq.
  - simplify_eq. cbn. rewrite Nat2Z.id, firstn_all. split; [lia|done].
  - destruct (Z.ltb_spec q 0); simplify_eq. cbn. split; [lia|done].
Qed.
Next Obligation.
  intros bufs w Hl Hne. cbn in *. unfold scr_write_vectored.
  assert (0 < len (concat bufs)) by (destruct (concat bufs); [done|cbn; lia]).
  destruct (script w) as [|q l]; cbn in Hl; [by eauto|].
  apply andb_true_iff in Hl as [Hq Hl]. apply Z.ltb_lt in Hq.
  destruct (Z.ltb_spec q 0); [lia|]. do 2 eexists; split; [done|]. split; [lia|done].
Qed.
Next Obligation.
  intros bs w Hl. cbn in *. rewrite Hl. by eauto.
Qed.
Next Obligation.
  intros w Hl. cbn in *. by eauto.
Qed.
Next Obligation.
  intros w Hl. cbn in *. by eauto.
Qed.

(** ** A connection: both directions *)

Record TcpStream (R W : Type) := MkTcp { inbound : R; outbound : W }.
Arguments MkTcp {R W}.
Arguments inbound {R W}.
Arguments outbound {R W}.

Section connection.
Context {R W : Type} `{AsyncRead R} `{AsyncWrite W}.

Definition recv {A} (m : sr R io_error A) : sr (TcpStream R W) io_error A := fun s =>
  let '(v, r) := m (inbound s) in (v, MkTcp r (outbound s)).

Definition send {A} (m : sr W io_error A) : sr (TcpStream R W) io_error A := fun s =>
  let '(v, w) := m (outbound s) in (v, MkTcp (inbound s) w).

(** [AsyncReadExt::read_u8] and [read_u16]. *)
Definition stream_u8 : sr (TcpStream R W) io_error Z :=
  bs ← recv (read_exact 1); mret (be_value bs).
Definition stream_u16 : sr (TcpStream R W) io_error Z :=
  bs ← recv (read_exact 2); mret (be_value bs).
End connection.

(** [exchange m x v o]: whenever the bytes [x] are next on the connection and
    the peer takes what it is sent, [m] reads exactly [x], sends exactly [o]
    and returns [v]. *)
Definition exchange {R W E A} `{AsyncReadLaws R} `{AsyncWriteLaws W}
    (m : sr (TcpStream R W) E A) (x : list byte) (v : result E A) (o : list byte) : Prop :=
  forall s y, rest (inbound s) = x ++ y -> live (outbound s) ->
  exists s', m s = (v, s') /\ rest (inbound s') = y /\ fin (inbound s') = fin (inbound s)
             /\ written (outbound s') = written (outbound s) ++ o /\ live (outbound s').

Section exchange.
Context {R W : Type} `{AsyncReadLaws R} `{AsyncWriteLaws W} {E : Type}.
Implicit Types x o : list byte.

Lemma exchange_ret {A} (v : A) : exchange (R := R) (W := W) (E := E) (mret v) [] (Ok v) [].
Proof. intros s y Hr Hl. exists s. by rewrite app_nil_r. Qed.

Lemma exchange_fail {A} (e : E) :
  exchange (R := R) (W := W) (A := A) (sr_fail e) [] (Err e) [].
Proof. intros s y Hr Hl. exists s. by rewrite app_nil_r. Qed.

Lemma exchange_bind {A B} (m : sr (TcpStream R W) E A) (f : A -> sr (TcpStream R W) E B)
    x1 x2 v1 v2 o1 o2 :
  exchange m x1 (Ok v1) o1 -> exchange (f v1) x2 v2 o2 ->
  exchange (m ≫= f) (x1 ++ x2) v2 (o1 ++ o2).
Proof.
  intros Hm Hf s y Hr Hl. rewrite <-app_assoc in Hr.
  destruct (Hm s _ Hr Hl) as (s1 & Hs1 & Hr1 & Hf1 & Hw1 & Hl1).
  destruct (Hf s1 y Hr1 Hl1) as (s2 & Hs2 & Hr2 & Hf2 & Hw2 & Hl2).
  exists s2. rewrite (sr_bind_Ok _ _ _ _ _ Hs1), Hf2, Hf1, Hw2, Hw1, app_assoc.
  by split_and!.
Qed.

Lemma exchange_map_err {E' A} (g : E' -> E) (m : sr (TcpStream R W) E' A) x v o :
  exchange m x v o -> exchange (sr_map_err g m) x (map_err g v) o.
Proof.
  intros Hm s y Hr Hl. destruct (Hm s y Hr Hl) as (s' & Hs & ?).
  exists s'. unfold sr_map_err. by rewrite Hs.
Qed.

Lemma exchange_read_exact x :
  exchange (R := R) (W := W) (recv (read_exact (len x))) x (Ok x) [].
Proof.
  intros s y Hr Hl. destruct (read_exact_app (inbound s) x y Hr) as (r' & Hx & Hr' & Hf').
  exists (MkTcp r' (outbound s)). unfold recv. rewrite Hx, app_nil_r. cbn. by rewrite Hf'.
Qed.

Lemma exchange_read_be n z :
  in_u (8 * Z.of_nat n) z ->
  exchange (R := R) (W := W) (bs ← recv (read_exact (Z.of_nat n)); mret (be_value bs))
    (be_bytes n z) (Ok z) [].
Proof.
  intros Hz. pose proof (exchange_read_exact (be_bytes n z)) as Hx.
  rewrite length_be_bytes in Hx. intros s y Hr Hl.
  destruct (Hx s y Hr Hl) as (s' & Hs & ?). exists s'.
  rewrite (sr_bind_Ok _ _ _ _ _ Hs). rewrite be_value_u by done. by split.
Qed.

Lemma exchange_write_all bs :
  exchange (R := R) (W := W) (send (write_all bs)) [] (Ok tt) bs.
Proof.
  intros s y Hr Hl. destruct (write_all_live bs (outbound s) Hl) as (w' & Hx & Hw & Hl').
  exists (MkTcp (inbound s) w'). unfold send. rewrite Hx. by split_and!.
Qed.

(** A step that only reads, only writes, or only decides. *)
Lemma exchange_bind_r {A B} (m : sr (TcpStream R W) E A) (f : A -> sr (TcpStream R W) E B)
    x1 x2 v1 v2 o :
  exchange m x1 (Ok v1) [] -> exchange (f v1) x2 v2 o -> exchange (m ≫= f) (x1 ++ x2) v2 o.
Proof. intros Hm Hf. apply (exchange_bind m f x1 x2 v1 v2 [] o Hm Hf). Qed.

Lemma exchange_bind_w {A B} (m : sr (TcpStream R W) E A) (f : A -> sr (TcpStream R W) E B)
    x v1 v2 o1 o2 :
  exchange m [] (Ok v1) o1 -> exchange (f v1) x v2 o2 -> exchange (m ≫= f) x v2 (o1 ++ o2).
Proof. intros Hm Hf. apply (exchange_bind m f [] x v1 v2 o1 o2 Hm Hf). Qed.

Lemma exchange_finish {A B} (m : sr (TcpStream R W) E A) (f : A -> sr (TcpStream R W) E B) x v1 v2 o :
  exchange m x (Ok v1) o -> exchange (f v1) [] v2 [] -> exchange (m ≫= f) x v2 o.
Proof.
  intros Hm Hf. pose proof (exchange_bind m f x [] v1 v2 o [] Hm Hf) as Hx. by rewrite !app_nil_r in Hx.
Qed.
End exchange.

(** The operations of a stream with their errors wrapped by the caller. *)
Section wrapped.
Context {R W : Type} `{AsyncReadLaws R} `{AsyncWriteLaws W} {E : Type} (g : io_error -> E).
Implicit Types x o : list byte.

Lemma exchange_read_then {A} n x (k : list byte -> sr (TcpStream R W) E A) x2 v o :
  n = len x -> exchange (k x) x2 v o ->
  exchange (R := R) (W := W) (sr_map_err g (recv (read_exact n)) ≫= k) (x ++ x2) v o.
Proof.
  intros ->. apply exchange_bind_r. apply (exchange_map_err g _ _ (Ok x)), exchange_read_exact.
Qed.

Lemma exchange_read_last {A} n x (k : list byte -> sr (TcpStream R W) E A) v o :
  n = len x -> exchange (k x) [] v o ->
  exchange (R := R) (W := W) (sr_map_err g (recv (read_exact n)) ≫= k) x v o.
Proof. intros Hn Hk. pose proof (exchange_read_then n x k [] v o Hn Hk) as Hx. by rewrite app_nil_r in Hx. Qed.

Lemma exchange_write_then {A} bs (k : unit -> sr (TcpStream R W) E A) x v o :
  exchange (k tt) x v o -> exchange (R := R) (W := W) (sr_map_err g (send (write_all bs)) ≫= k) x v (bs ++ o).
Proof. apply exchange_bind_w. apply (exchange_map_err g _ _ (Ok tt)), exchange_write_all. Qed.

Lemma exchange_flush : exchange (R := R) (W := W) (sr_map_err g (send flush)) [] (Ok tt) [].
Proof.
  apply (exchange_map_err g _ _ (Ok tt)). intros s y Hr Hl.
  destruct (flush_live (outbound s) Hl) as (w & Hf & Hw & Hl').
  exists (MkTcp (inbound s) w). unfold send. rewrite Hf, app_nil_r. by split_and!.
Qed.

Lemma exchange_guard {A} (b : bool) (e : E) (k : unit -> sr (TcpStream R W) E A) x v o :
  b = true -> exchange (k tt) x v o -> exchange (sr_guard b e ≫= k) x v o.
Proof. intros ->. done. Qed.

(** What a successful read took. *)
Lemma recv_exact_inv n (s s' : TcpStream R W) x :
  0 <= n -> sr_map_err g (recv (read_exact n)) s = (Ok x, s') ->
  len x = n /\ rest (inbound s) = x ++ rest (inbound s') /\ outbound s' = outbound s
  /\ fin (inbound s') = fin (inbound s).
Proof.
  intros Hn. unfold sr_map_err, recv. destruct (Z.le_gt_cases n (len (rest (inbound s)))) as [Hl|Hl].
  - destruct (read_exact_ok n (inbound s)) as (r & E1 & Hr & Hf); [lia|]. rewrite E1. intros [= <- <-]. cbn.
    rewrite Hr, length_take, take_drop. split_and!; [lia|done..].
  - destruct (read_exact_short n (inbound s) Hl) as (r & E1). by rewrite E1.
Qed.
End wrapped.

Lemma sr_guard_inv {S E A} (b : bool) (e : E) (k : unit -> sr S E A) s a s' :
  (sr_guard b e ≫= k) s = (Ok a, s') -> b = true /\ k tt s = (Ok a, s').
Proof. by destruct b. Qed.
