(* ===== verification/Protocol.v ===== *)
(** * The SPX frame protocol

    [crates/ssh-proxy-protocol/src/protocol.rs]: the frames that multiplex TCP
    streams and UDP associations over one peer link, their binary encoding,
    the frame reader and the batching frame writer.

    A frame on the wire is a nine byte header (type, stream id, payload
    length) and the payload.  [Frame.encode_into]/[Frame.decode] map frames
    to payloads; [FrameReader.read_from] takes one frame off a stream;
    [write_frame_batch] writes a first frame and then up to 31 more that are
    already queued.  The scratch buffers of the reader and the writer are
    overwritten before every use and are not state of the model; a capacity
    reservation has no counterpart, except that [Frame.encoded_payload_capacity]
    is proved to be the exact size reserved. *)
From S2P Require Import Prelude RustStr Cursor Stream.

Definition MAX_FRAME : Z := 16 * 1024 * 1024.
Definition TCP_DATA_CHUNK : Z := 128 * 1024.
Definition FRAME_CHANNEL_CAPACITY : Z := 256.
Definition TCP_STREAM_CHANNEL_CAPACITY : Z := 64.
Definition FRAME_WRITE_BATCH_LIMIT : Z := 32.

Inductive FrameError :=
| FrameTooLarge (size : Z)
| StringTooLong
| PayloadTruncated
| PayloadLengthOverflow
| InvalidUtf8
| TrailingBytes (n : Z)
| UnknownFrameType (ty : Z)
| HeaderRead (e : io_error)
| PayloadRead (e : io_error)
| EarlyEof
| WriteZero
| WriteIo (e : io_error)
| OutOfFuel.

Definition frame_cursor_errors : CursorErrors FrameError :=
  {| truncated := PayloadTruncated; overflow := PayloadLengthOverflow;
     invalid_utf8 := InvalidUtf8; trailing := TrailingBytes |}.

Record UdpDatagram := { dg_host : string; dg_port : Z; dg_data : list byte }.

Inductive Frame :=
| OpenTcp (id : Z) (host : string) (port : Z) (egress_proxy : option string)
| OpenTcpResult (id : Z) (ok : bool) (message : string)
| Data (id : Z) (data : list byte)
| Close (id : Z) (reason : string)
| UdpPacket (id : Z) (host : string) (port : Z) (data : list byte)
| Log (message : string).

#[global] Instance Frame_eq_dec : EqDecision Frame.
Proof. solve_decision. Defined.

Record FrameWriteBatchStats := {
  frames_written : Z;
  flushes_done : Z;
  data_frames_written : Z;
  data_bytes_written : Z;
  vectored_writes : Z;
}.

Definition FrameWriteBatchStats_default : FrameWriteBatchStats :=
  {| frames_written := 0; flushes_done := 0; data_frames_written := 0;
     data_bytes_written := 0; vectored_writes := 0 |}.

Definition record_frame (f : Frame) (s : FrameWriteBatchStats) : FrameWriteBatchStats :=
  {| frames_written := frames_written s + 1;
     flushes_done := flushes_done s;
     data_frames_written :=
       match f with Data _ _ => data_frames_written s + 1 | _ => data_frames_written s end;
     data_bytes_written :=
       match f with
       | Data _ data => data_bytes_written s + len data
       | _ => data_bytes_written s
       end;
     vectored_writes := vectored_writes s |}.

(** [stats.vectored_writes += n] *)
Definition add_vectored (n : Z) (s : FrameWriteBatchStats) : FrameWriteBatchStats :=
  {| frames_written := frames_written s; flushes_done := flushes_done s;
     data_frames_written := data_frames_written s;
     data_bytes_written := data_bytes_written s;
     vectored_writes := vectored_writes s + n |}.

(** [stats.flushes = 1] *)
Definition set_flushed (s : FrameWriteBatchStats) : FrameWriteBatchStats :=
  {| frames_written := frames_written s; flushes_done := 1;
     data_frames_written := data_frames_written s;
     data_bytes_written := data_bytes_written s;
     vectored_writes := vectored_writes s |}.

Definition write_string (out : list byte) (value : string) : result FrameError (list byte) :=
  let bs := str_bytes value in
  if u_max 16 <? len bs then Err StringTooLong
  else Ok (out ++ be_bytes 2 (wrap_u 16 (len bs)) ++ bs).

Module Frame.

Definition encode_into (f : Frame) : result FrameError (list byte * (Z * Z)) :=
  match f with
  | OpenTcp id host port egress_proxy =>
    p ← write_string [] host;
    let p := p ++ be_bytes 2 port in
    p ← match egress_proxy with
        | Some proxy => write_string (p ++ [x01]) proxy
        | None => Ok (p ++ [x00])
        end;
    Ok (p, (1, id))
  | OpenTcpResult id ok message =>
    p ← write_string [if ok then x01 else x00] message;
    Ok (p, (2, id))
  | Data id data => Ok (data, (3, id))
  | Close id reason =>
    p ← write_string [] reason;
    Ok (p, (4, id))
  | UdpPacket id host port data =>
    p ← write_string [] host;
    Ok (p ++ be_bytes 2 port ++ be_bytes 4 (wrap_u 32 (len data)) ++ data, (5, id))
  | Log message =>
    p ← write_string [] message;
    Ok (p, (6, 0))
  end.

Definition encoded_payload_capacity (f : Frame) : Z :=
  match f with
  | OpenTcp _ host _ egress_proxy =>
    2 + str_len host + 2 + 1
    + match egress_proxy with Some proxy => 2 + str_len proxy | None => 0 end
  | OpenTcpResult _ _ message => 1 + 2 + str_len message
  | Data _ data => len data
  | Close _ reason => 2 + str_len reason
  | UdpPacket _ host _ data => 2 + str_len host + 2 + 4 + len data
  | Log message => 2 + str_len message
  end.

Definition decode_fields (ty id : Z) (payload : list byte) : sr Cursor FrameError Frame :=
  let e := frame_cursor_errors in
  if ty =? 1 then
    host ← read_string e;
    port ← read_u16 e;
    done ← sr_gets is_empty;
    egress_proxy ←
      (if done : bool then mret None
       else
         b ← read_u8 e;
         if byte_val b =? 0 then mret None
         else s ← read_string e; mret (Some s));
    _ ← ensure_empty e;
    mret (OpenTcp id host port egress_proxy)
  else if ty =? 2 then
    b ← read_u8 e;
    message ← read_string e;
    _ ← ensure_empty e;
    mret (OpenTcpResult id (negb (byte_val b =? 0)) message)
  else if ty =? 3 then mret (Data id payload)
  else if ty =? 4 then
    reason ← read_string e;
    _ ← ensure_empty e;
    mret (Close id reason)
  else if ty =? 5 then
    host ← read_string e;
    port ← read_u16 e;
    n ← read_u32 e;
    data ← read_bytes e n;
    _ ← ensure_empty e;
    mret (UdpPacket id host port data)
  else if ty =? 6 then
    message ← read_string e;
    _ ← ensure_empty e;
    mret (Log message)
  else sr_fail (UnknownFrameType ty).

Definition decode (ty id : Z) (payload : list byte) : result FrameError Frame :=
  (decode_fields ty id payload (Cursor_new payload)).1.

End Frame.

(** ** Writing *)
Section write.
Context {W : Type} `{AsyncWrite W}.

(** The loop of [write_all_vectored_payload]: offsets into the header and
    the payload, and the number of calls so far. *)
Fixpoint write_vectored_loop (fuel : nat) (header payload : list byte)
    (header_offset payload_offset writes : Z) : sr W FrameError Z :=
  if (header_offset <? len header) || (payload_offset <? len payload) then
    match fuel with
    | O => sr_fail OutOfFuel
    | S fuel =>
      let hs := drop (Z.to_nat header_offset) header in
      let ps := drop (Z.to_nat payload_offset) payload in
      n ← sr_map_err WriteIo (write_vectored
            (if (header_offset <? len header) && (payload_offset <? len payload) then [hs; ps]
             else if header_offset <? len header then [hs] else [ps]));
      if n =? 0 then sr_fail WriteZero
      else
        let header_remaining := len header - header_offset in
        if n <? header_remaining
        then write_vectored_loop fuel header payload
               (header_offset + n) payload_offset (writes + 1)
        else write_vectored_loop fuel header payload
               (len header) (payload_offset + (n - header_remaining)) (writes + 1)
    end
  else mret writes.

(** One unit of fuel per byte: every turn of the loop takes at least one. *)
Definition write_all_vectored_payload (header payload : list byte) : sr W FrameError Z :=
  write_vectored_loop (length header + length payload) header payload 0 0 0.

Definition frame_header (ty id size : Z) : list byte :=
  [byte_of ty] ++ be_bytes 4 id ++ be_bytes 4 (wrap_u 32 size).

Definition write_payload (ty id : Z) (payload : list byte) : sr W FrameError Z :=
  if MAX_FRAME <? len payload then sr_fail (FrameTooLarge (len payload))
  else write_all_vectored_payload (frame_header ty id (len payload)) payload.

Definition write_to_with_scratch (f : Frame) : sr W FrameError Z :=
  match f with
  | Data id data => write_payload 3 id data
  | _ => '(payload, (ty, id)) ← sr_lift (Frame.encode_into f); write_payload ty id payload
  end.

(** [ready] is what [try_recv] returns before it is empty or disconnected. *)
Fixpoint batch_loop (stats : FrameWriteBatchStats) (ready : list Frame) :
    sr W FrameError (FrameWriteBatchStats * list Frame) :=
  if frames_written stats <? FRAME_WRITE_BATCH_LIMIT then
    match ready with
    | [] => mret (stats, [])
    | frame :: ready =>
      n ← write_to_with_scratch frame;
      batch_loop (record_frame frame (add_vectored n stats)) ready
    end
  else mret (stats, ready).

Definition write_frame_batch (first : Frame) (ready : list Frame) :
    sr W FrameError (FrameWriteBatchStats * list Frame) :=
  n ← write_to_with_scratch first;
  '(stats, ready) ←
    batch_loop (record_frame first (add_vectored n FrameWriteBatchStats_default)) ready;
  _ ← sr_map_err WriteIo flush;
  mret (set_flushed stats, ready).
End write.

(** ** Reading *)
Module FrameReader.
Section read.
Context {R : Type} `{AsyncRead R}.

(** The loop of [read_data_frame]; [acc] is [self.data_payload]. *)
Fixpoint read_data_loop (fuel : nat) (n : Z) (acc : list byte) : sr R FrameError (list byte) :=
  if len acc <? n then
    match fuel with
    | O => sr_fail OutOfFuel
    | S fuel =>
      bs ← sr_map_err PayloadRead (read_some (n - len acc));
      match bs with
      | [] => sr_fail EarlyEof
      | _ => read_data_loop fuel n (acc ++ bs)
      end
    end
  else mret acc.

(** One unit of fuel per byte: every read adds at least one. *)
Definition read_data_frame (id n : Z) : sr R FrameError Frame :=
  bs ← read_data_loop (Z.to_nat n) n [];
  mret (Data id (take (Z.to_nat n) bs)).

Definition read_from : sr R FrameError (option Frame) := fun r =>
  match read_exact 9 r with
  | (Err UnexpectedEof, r) => (Ok None, r)
  | (Err e, r) => (Err (HeaderRead e), r)
  | (Ok header, r) =>
    let ty := be_value (take 1 header) in
    let id := be_value (take 4 (drop 1 header)) in
    let n := be_value (take 4 (drop 5 header)) in
    (if MAX_FRAME <? n then sr_fail (FrameTooLarge n)
     else if ty =? 3 then f ← read_data_frame id n; mret (Some f)
     else
       payload ← sr_map_err PayloadRead (read_exact n);
       f ← sr_lift (Frame.decode ty id payload);
       mret (Some f)) r
  end.
End read.
End FrameReader.

(** ** Well-formed frames and their wire format *)

(** The invariants of the Rust types of the fields. *)
Definition frame_ok (f : Frame) : Prop :=
  match f with
  | OpenTcp id host port egress_proxy =>
    in_u 32 id /\ str_ok host /\ in_u 16 port
    /\ match egress_proxy with Some proxy => str_ok proxy | None => True end
  | OpenTcpResult id _ message => in_u 32 id /\ str_ok message
  | Data id _ => in_u 32 id
  | Close id reason => in_u 32 id /\ str_ok reason
  | UdpPacket id host port _ => in_u 32 id /\ str_ok host /\ in_u 16 port
  | Log message => str_ok message
  end.

(** The frames the writer accepts: what [write_string] and [write_payload]
    check. *)
Definition frame_fits (f : Frame) : Prop :=
  match f with
  | OpenTcp _ host _ egress_proxy =>
    str_len host <= u_max 16
    /\ match egress_proxy with Some proxy => str_len proxy <= u_max 16 | None => True end
  | OpenTcpResult _ _ message => str_len message <= u_max 16
  | Data _ data => len data <= MAX_FRAME
  | Close _ reason => str_len reason <= u_max 16
  | UdpPacket _ host _ data =>
    str_len host <= u_max 16 /\ 2 + str_len host + 2 + 4 + len data <= MAX_FRAME
  | Log message => str_len message <= u_max 16
  end.

#[global] Instance frame_fits_dec f : Decision (frame_fits f).
Proof. destruct f as [? ? ? []|?|?|?|?|?]; apply _. Defined.

(** The wire format, independently of the encoder. *)
Definition wire_payload (f : Frame) : list byte :=
  match f with
  | OpenTcp _ host port None => wire_string host ++ be_bytes 2 port ++ [x00]
  | OpenTcp _ host port (Some proxy) =>
    wire_string host ++ be_bytes 2 port ++ [x01] ++ wire_string proxy
  | OpenTcpResult _ ok message => [if ok then x01 else x00] ++ wire_string message
  | Data _ data => data
  | Close _ reason => wire_string reason
  | UdpPacket _ host port data =>
    wire_string host ++ be_bytes 2 port ++ be_bytes 4 (len data) ++ data
  | Log message => wire_string message
  end.

Definition wire_type (f : Frame) : Z :=
  match f with
  | OpenTcp _ _ _ _ => 1
  | OpenTcpResult _ _ _ => 2
  | Data _ _ => 3
  | Close _ _ => 4
  | UdpPacket _ _ _ _ => 5
  | Log _ => 6
  end.

Definition wire_id (f : Frame) : Z :=
  match f with
  | OpenTcp id _ _ _ | OpenTcpResult id _ _ | Data id _ | Close id _ | UdpPacket id _ _ _ => id
  | Log _ => 0
  end.

Definition wire_frame (f : Frame) : list byte :=
  [byte_of (wire_type f)] ++ be_bytes 4 (wire_id f) ++ be_bytes 4 (len (wire_payload f))
  ++ wire_payload f.

Definition wire_frames (fs : list Frame) : list byte := concat (wire_frame <$> fs).

(** What a sequence of frames adds to the statistics of a batch. *)
Definition data_count (f : Frame) : Z := match f with Data _ _ => 1 | _ => 0 end.
Definition data_size (f : Frame) : Z := match f with Data _ data => len data | _ => 0 end.
Definition total (g : Frame -> Z) (fs : list Frame) : Z := foldr (fun f n => g f + n) 0 fs.

Definition counted (s s' : FrameWriteBatchStats) (fs : list Frame) : Prop :=
  frames_written s' = frames_written s + len fs
  /\ data_frames_written s' = data_frames_written s + total data_count fs
  /\ data_bytes_written s' = data_bytes_written s + total data_size fs.

(** What reading one frame means on the bytes of a stream: [None] at its end,
    or the frame and the bytes after it.  A stream that ends inside a frame's
    header counts as ended. *)
Definition read_spec (bs : list byte) (e : io_end) :
    result FrameError (option (Frame * list byte)) :=
  if len bs <? 9 then
    match e with
    | AtEof => Ok None
    | AtFailure => Err (HeaderRead IoOther)
    end
  else
    let ty := be_value (take 1 bs) in
    let id := be_value (take 4 (drop 1 bs)) in
    let n := be_value (take 4 (drop 5 bs)) in
    let body := drop 9 bs in
    if MAX_FRAME <? n then Err (FrameTooLarge n)
    else if len body <? n then
      Err (match ty =? 3, e with
           | true, AtEof => EarlyEof
           | _, _ => PayloadRead (end_error e)
           end)
    else
      f ← Frame.decode ty id (take (Z.to_nat n) body);
      Ok (Some (f, drop (Z.to_nat n) body)).

(** Case analysis on a frame, with the optional proxy. *)
Ltac frame_cases f :=
  destruct f as [id host port [proxy|]|id ok m|id d|id m|id host port d|m].

Lemma counted_nil s : counted s s [].
Proof. unfold counted. cbn. lia. Qed.

Lemma counted_cons s n s' f fs :
  counted (record_frame f (add_vectored n s)) s' fs -> counted s s' (f :: fs).
Proof.
  unfold counted, total, record_frame, add_vectored.
  cbn [foldr length frames_written data_frames_written data_bytes_written].
  destruct f; cbn [data_count data_size]; lia.
Qed.

Lemma write_string_eq out v :
  write_string out v =
  if u_max 16 <? str_len v then Err StringTooLong else Ok (out ++ wire_string v).
Proof.
  unfold write_string, wire_string. fold (str_len v).
  destruct (Z.ltb_spec (u_max 16) (str_len v)); [done|].
  rewrite wrap_u_small; [done|]. by apply str_len_u16.
Qed.

Lemma write_string_fits out v :
  str_len v <= u_max 16 -> write_string out v = Ok (out ++ wire_string v).
Proof. intros Hv. rewrite write_string_eq. destruct (Z.ltb_spec (u_max 16) (str_len v)); [lia|done]. Qed.

Lemma write_string_Ok out v p :
  write_string out v = Ok p -> str_len v <= u_max 16 /\ p = out ++ wire_string v.
Proof. rewrite write_string_eq. destruct (Z.ltb_spec (u_max 16) (str_len v)); naive_solver. Qed.

Lemma length_wire_payload f : len (wire_payload f) = Frame.encoded_payload_capacity f.
Proof.
  frame_cases f; cbn; rewrite ?length_app, ?Nat2Z.inj_add, ?length_wire_string,
    ?length_be_bytes; cbn [length]; rewrite ?Nat2Z.inj_succ, ?length_wire_string; lia.
Qed.

Module FrameFacts.
Import Frame.

(** Encoding writes the wire format, and succeeds exactly when the strings
    (and for a datagram its length field) fit. *)
Lemma encode_into_fits f :
  frame_fits f -> encode_into f = Ok (wire_payload f, (wire_type f, wire_id f)).
Proof.
  frame_cases f; cbn [encode_into frame_fits]; intros; destruct_and?;
    repeat (rewrite write_string_fits by done; cbn [mbind result_bind]);
    rewrite <-?app_assoc; try done.
  rewrite wrap_u_small; [done|]. pose proof (str_len_nonneg host).
  unfold in_u, MAX_FRAME in *. lia.
Qed.

Lemma encode_into_size f p tyid :
  encode_into f = Ok (p, tyid) -> len p = encoded_payload_capacity f.
Proof.
  rewrite <-length_wire_payload.
  frame_cases f; cbn [encode_into]; intros H; inv_result;
    repeat match goal with
    | H : write_string _ _ = Ok _ |- _ => apply write_string_Ok in H as [? ->]
    end; cbn [wire_payload]; autorewrite with len; lia.
Qed.

Lemma encode_into_Ok_fits f p tyid :
  encode_into f = Ok (p, tyid) -> len p <= MAX_FRAME -> frame_fits f.
Proof.
  intros He Hp. rewrite (encode_into_size _ _ _ He) in Hp.
  frame_cases f; cbn [encode_into frame_fits encoded_payload_capacity] in *; inv_result;
    repeat match goal with
    | H : write_string _ _ = Ok _ |- _ => apply write_string_Ok in H as [? ->]
    end; done || lia.
Qed.

Lemma encode_into_Err f e : encode_into f = Err e -> e = StringTooLong.
Proof.
  assert (Hs : forall out v e', write_string out v = Err e' -> e' = StringTooLong).
  { intros out v e'. rewrite write_string_eq. by case_match; intros [= <-]. }
  frame_cases f; cbn [encode_into]; unfold mbind, result_bind; intros He;
    repeat case_match; naive_solver.
Qed.

Lemma frame_fits_max f : frame_fits f -> len (wire_payload f) <= MAX_FRAME.
Proof.
  rewrite length_wire_payload. pose proof str_len_nonneg.
  frame_cases f; cbn; unfold u_max, MAX_FRAME in *; lia.
Qed.

Lemma wire_tag f : frame_ok f -> in_u 8 (wire_type f) /\ in_u 32 (wire_id f).
Proof. frame_cases f; cbn; unfold in_u; intros; destruct_and?; lia. Qed.

(** Decoding the wire format gives the frame back. *)
Lemma decode_wire f :
  frame_ok f -> frame_fits f -> decode (wire_type f) (wire_id f) (wire_payload f) = Ok f.
Proof.
  intros Hok Hfit. unfold decode.
  enough (finishes (decode_fields (wire_type f) (wire_id f) (wire_payload f)) (wire_payload f) f)
    as Hf.
  { apply Hf, cursor_at_new. pose proof (frame_fits_max _ Hfit).
    unfold usize_max, u_max, MAX_FRAME in *. lia. }
  assert (Hs : forall s, str_ok s -> str_len s <= u_max 16 ->
            consumes (read_string frame_cursor_errors) (wire_string s) s).
  { intros. by apply consumes_read_string, str_len_u16. }
  frame_cases f; cbn [frame_ok frame_fits wire_type wire_id wire_payload] in *; destruct_and?;
    unfold decode_fields; cbn [Z.eqb Pos.eqb].
  - do 2 (eapply finishes_bind; [by eauto with consumes|]).
    apply finishes_more; [done|].
    rewrite <-(app_nil_r (_ ++ wire_string proxy)).
    eapply finishes_bind; [|by eauto with consumes].
    eapply consumes_bind; [by eauto with consumes|]. cbn.
    rewrite <-(app_nil_r (wire_string proxy)). eapply consumes_bind; eauto with consumes.
  - do 2 (eapply finishes_bind; [by eauto with consumes|]).
    apply finishes_more; [done|].
    rewrite <-(app_nil_r [x00]). eapply finishes_bind; [|by eauto with consumes].
    rewrite <-(app_nil_r [x00]). eapply consumes_bind; [by eauto with consumes|].
    apply consumes_ret.
  - eapply finishes_bind; [by eauto with consumes|].
    rewrite <-(app_nil_r (wire_string m)).
    eapply finishes_bind; [by eauto with consumes|].
    replace (negb _) with ok by by destruct ok. eauto with consumes.
  - intros c _. done.
  - rewrite <-(app_nil_r (wire_string m)).
    eapply finishes_bind; eauto with consumes.
  - do 2 (eapply finishes_bind; [by eauto with consumes|]).
    eapply finishes_bind; [apply consumes_read_u32|].
    { pose proof (str_len_nonneg host). unfold in_u, MAX_FRAME in *. lia. }
    rewrite <-(app_nil_r d). eapply finishes_bind; [|by eauto with consumes].
    rewrite app_nil_r. apply consumes_read_bytes.
  - rewrite <-(app_nil_r (wire_string m)).
    eapply finishes_bind; eauto with consumes.
Qed.

(** A decoded frame is well formed, and small enough to be written again. *)
Lemma decode_sound ty id p f :
  decode ty id p = Ok f -> in_u 32 id ->
  frame_ok f /\ wire_type f = ty /\ (len p <= MAX_FRAME -> frame_fits f).
Proof.
  unfold decode. destruct (decode_fields _ _ _ _) as [r c'] eqn:Hd. cbn. intros -> Hid.
  assert (Hp : remaining (Cursor_new p) = p) by done.
  set (c := Cursor_new p) in *. clearbody c. revert Hd. unfold decode_fields.
  assert (Hu : forall s, in_u 16 (str_len s) -> str_len s <= u_max 16)
    by (unfold in_u, u_max; lia).
  destruct (Z.eqb_spec ty 1) as [->|_].
  { intros Hd. inv_sr. destruct (is_empty _); inv_cursor;
      [|destruct (_ =? _)]; inv_cursor; cbn; auto 10. }
  destruct (Z.eqb_spec ty 2) as [->|_]; [intros; inv_cursor; cbn; auto|].
  destruct (Z.eqb_spec ty 3) as [->|_].
  { intros. inv_cursor. done. }
  destruct (Z.eqb_spec ty 4) as [->|_]; [intros; inv_cursor; cbn; auto|].
  destruct (Z.eqb_spec ty 5) as [->|_].
  { intros. inv_cursor. cbn. split_and!; auto. intros Hm. split; [auto|].
    rewrite H, H0, H1, H2, H3 in Hm. unfold str_len in *. autorewrite with len in Hm. lia. }
  destruct (Z.eqb_spec ty 6) as [->|_]; intros; inv_cursor; cbn; auto.
Qed.
End FrameFacts.

(** ** The writer *)
Section write_facts.
Context {W : Type} `{AsyncWriteLaws W}.

(** What the loop has left to write, and how one write moves the offsets. *)
Definition unwritten (header payload : list byte) (ho po : Z) : list byte :=
  drop (Z.to_nat ho) header ++ drop (Z.to_nat po) payload.

Lemma length_unwritten header payload ho po :
  0 <= ho <= len header -> 0 <= po <= len payload ->
  len (unwritten header payload ho po) = (len header - ho) + (len payload - po).
Proof. intros. unfold unwritten. rewrite length_app, !length_drop. lia. Qed.

Lemma vectored_slices header payload ho po :
  concat (if (ho <? len header) && (po <? len payload)
          then [drop (Z.to_nat ho) header; drop (Z.to_nat po) payload]
          else if ho <? len header then [drop (Z.to_nat ho) header]
          else [drop (Z.to_nat po) payload])
  = unwritten header payload ho po.
Proof.
  unfold unwritten.
  destruct (Z.ltb_spec ho (len header)), (Z.ltb_spec po (len payload)); cbn;
    rewrite ?app_nil_r; try done.
  - by rewrite (drop_ge payload), app_nil_r by lia.
  - by rewrite (drop_ge header) by lia.
  - by rewrite (drop_ge header) by lia.
Qed.

Lemma unwritten_advance header payload ho po n :
  0 <= ho <= len header -> 0 <= po <= len payload ->
  0 <= n <= len (unwritten header payload ho po) ->
  drop (Z.to_nat n) (unwritten header payload ho po) =
  if n <? len header - ho then unwritten header payload (ho + n) po
  else unwritten header payload (len header) (po + (n - (len header - ho))).
Proof.
  intros Hh Hp Hn. rewrite length_unwritten in Hn by done. unfold unwritten.
  destruct (Z.ltb_spec n (len header - ho)).
  - rewrite drop_app_le by (rewrite length_drop; lia).
    rewrite drop_drop. do 2 f_equal. lia.
  - rewrite drop_app_ge by (rewrite length_drop; lia).
    rewrite drop_drop, length_drop, (drop_ge header) by lia. cbn. f_equal. lia.
Qed.

Lemma write_vectored_loop_spec fuel header payload : forall ho po k w,
  0 <= ho <= len header -> 0 <= po <= len payload ->
  len (unwritten header payload ho po) <= Z.of_nat fuel ->
  let r := write_vectored_loop fuel header payload ho po k w in
  (forall n, r.1 = Ok n ->
     written r.2 = written w ++ unwritten header payload ho po
     /\ n <= k + len (unwritten header payload ho po))
  /\ r.1 <> Err OutOfFuel
  /\ (live w -> (exists n, r.1 = Ok n) /\ live r.2).
Proof.
  induction fuel as [|fuel IH]; intros ho po k w Hh Hp Hf; cbn zeta;
    rewrite length_unwritten in * by done; cbn [write_vectored_loop];
    destruct (_ || _) eqn:E.
  - apply orb_true_iff in E as [E%Z.ltb_lt|E%Z.ltb_lt]; lia.
  - apply orb_false_iff in E as [?%Z.ltb_ge ?%Z.ltb_ge]. cbn.
    unfold unwritten. rewrite !drop_ge, !app_nil_r by lia.
    split_and!; [|done|by eauto]. intros ? [= <-]. split; [done|lia].
  - unfold mbind, sr_bind, sr_map_err. set (bufs := if _ && _ then _ else _).
    assert (Hb : concat bufs = unwritten header payload ho po) by apply vectored_slices.
    assert (Hne : concat bufs <> []).
    { intros Hc. pose proof (length_unwritten header payload ho po Hh Hp) as Hl.
      rewrite <-Hb, Hc in Hl. cbn in Hl.
      apply orb_true_iff in E as [E%Z.ltb_lt|E%Z.ltb_lt]; lia. }
    destruct (write_vectored bufs w) as [[n|e] w1] eqn:Ew; cbn; last first.
    { split_and!; [done|done|]. intros Hlive.
      destruct (write_vectored_live bufs w Hlive Hne) as (? & ? & ? & _). congruence. }
    apply write_vectored_ok in Ew as Hok. destruct Hok as [Hn Hw]. rewrite Hb in Hn, Hw.
    pose proof (unwritten_advance header payload ho po n Hh Hp Hn) as Hadv.
    rewrite length_unwritten in Hn by done.
    assert (Hlive1 : live w -> 0 < n /\ live w1).
    { intros Hlive. destruct (write_vectored_live bufs w Hlive Hne) as (? & ? & Heq & ? & ?).
      rewrite Ew in Heq. by simplify_eq. }
    destruct (Z.eqb_spec n 0); [split_and!; [done|done|]; intros []%Hlive1; lia|].
    assert (Hstep : forall ho' po', 0 <= ho' <= len header -> 0 <= po' <= len payload ->
              ho' - ho + (po' - po) = n ->
              unwritten header payload ho' po' = drop (Z.to_nat n) (unwritten header payload ho po) ->
              let r := write_vectored_loop fuel header payload ho' po' (k + 1) w1 in
              (forall m, r.1 = Ok m ->
                 written r.2 = written w ++ unwritten header payload ho po
                 /\ m <= k + ((len header - ho) + (len payload - po)))
              /\ r.1 <> Err OutOfFuel
              /\ (live w -> (exists m, r.1 = Ok m) /\ live r.2)).
    { intros ho' po' Hh' Hp' Hsum Hu.
      destruct (IH ho' po' (k + 1) w1 Hh' Hp') as (H1 & H2 & H3).
      { rewrite length_unwritten by done. lia. }
      split_and!; [|done|by intros []%Hlive1; auto].
      intros m Hm. destruct (H1 m Hm) as [Hw' Hm'].
      rewrite length_unwritten in Hm' by done. split; [|lia].
      by rewrite Hw', Hw, <-app_assoc, Hu, take_drop. }
    destruct (Z.ltb_spec n (len header - ho)); apply Hstep; done || lia.
  - apply orb_false_iff in E as [?%Z.ltb_ge ?%Z.ltb_ge]. cbn.
    unfold unwritten. rewrite !drop_ge, !app_nil_r by lia.
    split_and!; [|done|by eauto]. intros ? [= <-]. split; [done|lia].
Qed.

Lemma write_all_vectored_payload_spec header payload w :
  let r := write_all_vectored_payload header payload w in
  (forall n, r.1 = Ok n ->
     written r.2 = written w ++ header ++ payload /\ n <= len header + len payload)
  /\ r.1 <> Err OutOfFuel
  /\ (live w -> (exists n, r.1 = Ok n) /\ live r.2).
Proof.
  assert (Hu : unwritten header payload 0 0 = header ++ payload) by done.
  destruct (write_vectored_loop_spec (length header + length payload) header payload 0 0 0 w)
    as (H1 & H2 & H3); rewrite ?Hu, ?length_app; try lia.
  cbn zeta. unfold write_all_vectored_payload. split_and!; [|done..].
  intros n Hn. apply H1 in Hn as [Hw Hn]. rewrite Hu in *. rewrite length_app in Hn.
  split; [done|lia].
Qed.

Lemma frame_header_payload f :
  frame_fits f ->
  frame_header (wire_type f) (wire_id f) (len (wire_payload f)) ++ wire_payload f = wire_frame f.
Proof.
  intros Hf%FrameFacts.frame_fits_max. unfold frame_header, wire_frame.
  rewrite wrap_u_small by (unfold in_u, MAX_FRAME in *; lia). by rewrite <-!app_assoc.
Qed.

(** The writer goes through the encoder: the case of data frames in
    [write_to_with_scratch] only saves a copy. *)
Lemma write_to_eq f w :
  write_to_with_scratch f w =
  match Frame.encode_into f with
  | Ok (payload, (ty, id)) => write_payload ty id payload w
  | Err e => (Err e, w)
  end.
Proof.
  destruct f; try done; unfold write_to_with_scratch, mbind, sr_bind, sr_lift;
    by destruct (Frame.encode_into _) as [[? []]|].
Qed.

(** A frame that fits goes to the vectored writer, any other one stops
    before the first byte. *)
Lemma write_to_fits f w :
  frame_fits f ->
  write_to_with_scratch f w =
  write_all_vectored_payload
    (frame_header (wire_type f) (wire_id f) (len (wire_payload f))) (wire_payload f) w.
Proof.
  intros Hf. pose proof (FrameFacts.frame_fits_max f Hf) as Hm.
  rewrite write_to_eq, FrameFacts.encode_into_fits by done. unfold write_payload.
  by destruct (Z.ltb_spec MAX_FRAME (len (wire_payload f))); [lia|].
Qed.

Lemma write_to_rejects f w :
  ~ frame_fits f ->
  exists e, write_to_with_scratch f w = (Err e, w)
            /\ (e = StringTooLong \/ exists n, e = FrameTooLarge n /\ MAX_FRAME < n).
Proof.
  intros Hf. rewrite write_to_eq.
  destruct (Frame.encode_into f) as [[p [ty id]]|e] eqn:He.
  - unfold write_payload. destruct (Z.ltb_spec MAX_FRAME (len p)) as [|Hp].
    { eexists. split; [done|]. right. eauto. }
    by destruct (Hf (FrameFacts.encode_into_Ok_fits _ _ _ He Hp)).
  - apply FrameFacts.encode_into_Err in He as ->. eauto.
Qed.

Lemma write_to_ok f w n w' :
  write_to_with_scratch f w = (Ok n, w') ->
  frame_fits f /\ written w' = written w ++ wire_frame f /\ n <= len (wire_frame f).
Proof.
  intros Hw. destruct (decide (frame_fits f)) as [Hf|Hf]; last first.
  { destruct (write_to_rejects f w Hf) as (? & ? & _). congruence. }
  split; [done|]. rewrite write_to_fits in Hw by done.
  destruct (write_all_vectored_payload_spec
    (frame_header (wire_type f) (wire_id f) (len (wire_payload f))) (wire_payload f) w)
    as (H1 & _ & _).
  rewrite Hw in H1. destruct (H1 n) as [? ?]; [done|].
  rewrite <-frame_header_payload by done. split; [done|]. rewrite length_app. lia.
Qed.

Lemma write_to_live f w :
  live w -> frame_fits f ->
  exists n w', write_to_with_scratch f w = (Ok n, w')
               /\ written w' = written w ++ wire_frame f /\ n <= len (wire_frame f) /\ live w'.
Proof.
  intros Hl Hf.
  destruct (write_all_vectored_payload_spec
    (frame_header (wire_type f) (wire_id f) (len (wire_payload f))) (wire_payload f) w)
    as (_ & _ & H3).
  rewrite <-write_to_fits in H3 by done.
  destruct (write_to_with_scratch f w) as [r w'] eqn:Hw. cbn in H3.
  destruct (H3 Hl) as [[n ->] ?]. apply write_to_ok in Hw as (? & ? & ?). eauto 6.
Qed.

Lemma batch_loop_live ready : forall stats w,
  live w -> 0 <= frames_written stats <= FRAME_WRITE_BATCH_LIMIT ->
  let m := Z.to_nat (FRAME_WRITE_BATCH_LIMIT - frames_written stats) in
  Forall frame_fits (take m ready) ->
  exists stats' w',
    batch_loop stats ready w = (Ok (stats', drop m ready), w')
    /\ written w' = written w ++ wire_frames (take m ready)
    /\ live w' /\ counted stats stats' (take m ready).
Proof.
  induction ready as [|f ready IH]; intros stats w Hl Hk m Hfit.
  { exists stats, w. cbn. rewrite take_nil, drop_nil, app_nil_r.
    split_and!; [by case_match|done..|]. apply counted_nil. }
  cbn [batch_loop]. destruct (Z.ltb_spec (frames_written stats) FRAME_WRITE_BATCH_LIMIT).
  - assert (m = S (Nat.pred m)) as Hm by lia. rewrite Hm in Hfit |- *. cbn in Hfit |- *.
    apply Forall_cons_iff in Hfit as [Hf Hfit].
    destruct (write_to_live f w Hl Hf) as (n & w1 & Hw & Hw1 & _ & Hl1).
    erewrite sr_bind_Ok by done.
    destruct (IH (record_frame f (add_vectored n stats)) w1) as (st & w2 & Hb & Hw2 & Hl2 & Hc);
      try (cbn [record_frame frames_written add_vectored];
           replace (Z.to_nat _) with (Nat.pred m) by lia); [done|cbn; lia|done|].
    cbn [record_frame frames_written add_vectored] in Hb, Hw2, Hc.
    replace (Z.to_nat _) with (Nat.pred m) in Hb, Hw2, Hc by lia.
    exists st, w2. split_and!; [done| |done|by eapply counted_cons].
    rewrite Hw2, Hw1. cbn. by rewrite <-app_assoc.
  - assert (m = O) as -> by lia. exists stats, w. cbn. rewrite app_nil_r.
    split_and!; [done..|]. apply counted_nil.
Qed.

Lemma write_frame_batch_live first ready w :
  live w -> frame_fits first -> Forall frame_fits (take 31 ready) ->
  exists stats w',
    write_frame_batch first ready w = (Ok (stats, drop 31 ready), w')
    /\ written w' = written w ++ wire_frames (first :: take 31 ready)
    /\ live w' /\ flushes_done stats = 1
    /\ counted FrameWriteBatchStats_default stats (first :: take 31 ready).
Proof.
  intros Hl Hf Hr. unfold write_frame_batch.
  destruct (write_to_live first w Hl Hf) as (n & w1 & Hw & Hw1 & _ & Hl1).
  erewrite sr_bind_Ok by done.
  destruct (batch_loop_live ready
    (record_frame first (add_vectored n FrameWriteBatchStats_default)) w1)
    as (st & w2 & Hb & Hw2 & Hl2 & Hc); [done|cbn; unfold FRAME_WRITE_BATCH_LIMIT; lia|done|].
  change (Z.to_nat _) with 31%nat in Hb, Hw2, Hc.
  erewrite sr_bind_Ok by done. destruct (flush_live w2 Hl2) as (w3 & Hfl & Hw3 & Hl3).
  erewrite sr_bind_Ok by (unfold sr_map_err; by rewrite Hfl). exists (set_flushed st), w3.
  split_and!; [done| |done|done|].
  - rewrite Hw3, Hw2, Hw1. cbn. by rewrite <-app_assoc.
  - apply (counted_cons _ n) in Hc. unfold counted in *. by cbn in *.
Qed.
End write_facts.

(** ** The reader *)
Section read_facts.
Context {R : Type} `{AsyncReadLaws R}.
Import FrameReader.

Lemma read_data_loop_spec fuel n : forall acc r,
  len acc <= n -> n - len acc <= Z.of_nat fuel ->
  exists r',
    if n - len acc <=? len (rest r) then
      read_data_loop fuel n acc r = (Ok (acc ++ take (Z.to_nat (n - len acc)) (rest r)), r')
      /\ rest r' = drop (Z.to_nat (n - len acc)) (rest r) /\ fin r' = fin r
    else
      read_data_loop fuel n acc r =
      (Err (match fin r with AtEof => EarlyEof | AtFailure => PayloadRead IoOther end), r').
Proof.
  induction fuel as [|fuel IH]; intros acc r Hn Hf; cbn [read_data_loop];
    destruct (Z.ltb_spec (len acc) n); try lia.
  1,3: exists r; destruct (Z.leb_spec (n - len acc) (len (rest r))); [|lia];
       replace (n - len acc) with 0 by lia; cbn; by rewrite app_nil_r.
  destruct (decide (rest r = [])) as [Hr|Hr].
  - destruct (read_some_end (n - len acc) r) as [r' Hs]; [lia|done|]. exists r'.
    rewrite Hr. destruct (Z.leb_spec (n - len acc) (Z.of_nat (@length byte [])));
      [cbn in *; lia|].
    unfold mbind, sr_bind, sr_map_err. rewrite Hs. by destruct (fin r).
  - destruct (read_some_ok (n - len acc) r) as (k & r1 & Hk0 & Hkn & Hkr & Hs & Hr1 & Hf1);
      [lia|done|].
    erewrite sr_bind_Ok by (unfold sr_map_err; by rewrite Hs).
    assert (Ht : len (take (Z.to_nat k) (rest r)) = k) by (rewrite length_take; lia).
    destruct (take (Z.to_nat k) (rest r)) as [|b bs] eqn:Hbs; [cbn in Ht; lia|].
    rewrite <-Hbs in *.
    destruct (IH (acc ++ take (Z.to_nat k) (rest r)) r1) as (r2 & H2);
      [rewrite length_app; lia..|].
    exists r2. rewrite length_app, Nat2Z.inj_add, Ht, Hr1, length_drop in H2.
    destruct (Z.leb_spec (n - len acc) (len (rest r)));
      destruct (Z.leb_spec (n - (len acc + k)) (Z.of_nat (length (rest r) - Z.to_nat k)));
      try lia; [|by rewrite H2, Hf1].
    destruct H2 as (-> & -> & ->). split_and!; [|rewrite drop_drop; f_equal; lia|done].
    rewrite <-app_assoc. do 3 f_equal.
    replace (Z.to_nat (n - len acc)) with (Z.to_nat k + Z.to_nat (n - (len acc + k)))%nat by lia.
    by rewrite <-take_take_drop.
Qed.

Lemma read_from_refines r :
  exists r',
    match read_spec (rest r) (fin r) with
    | Ok (Some (f, y)) => read_from r = (Ok (Some f), r') /\ rest r' = y /\ fin r' = fin r
    | Ok None => read_from r = (Ok None, r')
    | Err e => read_from r = (Err e, r')
    end.
Proof.
  unfold read_spec, read_from. destruct (Z.ltb_spec (len (rest r)) 9) as [Hs|Hs].
  { destruct (read_exact_short 9 r Hs) as [r' ->]. exists r'. by destruct (fin r). }
  destruct (read_exact_ok 9 r) as (r1 & -> & Hr1 & Hf1); [lia|].
  change (Z.to_nat 9) with 9%nat in *.
  rewrite take_take, !take_drop_take by lia. cbn [Nat.min].
  set (ty := be_value (take 1 _)). set (id := be_value (take 4 (drop 1 _))).
  set (n := be_value (take 4 (drop 5 _))).
  destruct (Z.ltb_spec MAX_FRAME n); [by exists r1|].
  assert (0 <= n) as Hn by apply be_value_range.
  rewrite <-Hr1. destruct (Z.eqb_spec ty 3) as [Hty|Hty].
  - unfold read_data_frame.
    destruct (read_data_loop_spec (Z.to_nat n) n [] r1) as [r2 Hl]; [cbn; lia..|].
    cbn [length Z.of_nat] in Hl. rewrite Z.sub_0_r in Hl. exists r2.
    destruct (Z.leb_spec n (len (rest r1))), (Z.ltb_spec (len (rest r1)) n); try lia.
    + destruct Hl as (Hl & Hr2 & Hf2). rewrite Hty. cbn in Hl |- *.
      erewrite sr_bind_Ok by (erewrite sr_bind_Ok by done; done).
      by rewrite take_take, Nat.min_id, Hf2, Hf1.
    + unfold mbind, sr_bind. rewrite Hl, Hf1. by destruct (fin r).
  - destruct (Z.ltb_spec (len (rest r1)) n) as [Hs2|Hs2].
    + destruct (read_exact_short n r1 Hs2) as [r2 Hx]. exists r2.
      erewrite sr_bind_Err by (unfold sr_map_err; by rewrite Hx). by rewrite Hf1.
    + destruct (read_exact_ok n r1) as (r2 & Hx & Hr2 & Hf2); [lia|]. exists r2.
      erewrite sr_bind_Ok by (unfold sr_map_err; by rewrite Hx).
      unfold mbind at 2. unfold mbind, sr_bind, sr_lift, result_bind.
      destruct (Frame.decode ty id _); [|done]. by rewrite Hf2, Hf1.
Qed.
End read_facts.

(** ** Frames over a link *)

(** [read_frames r fs r']: reading [length fs] frames one after the other
    gives [fs] and leaves the reader at [r']. *)
Inductive read_frames {R} `{AsyncRead R} : R -> list Frame -> R -> Prop :=
| read_frames_nil r : read_frames r [] r
| read_frames_cons r f r1 fs r2 :
    FrameReader.read_from r = (Ok (Some f), r1) -> read_frames r1 fs r2 ->
    read_frames r (f :: fs) r2.

Lemma read_spec_wire f y e :
  frame_ok f -> frame_fits f -> read_spec (wire_frame f ++ y) e = Ok (Some (f, y)).
Proof.
  intros Hok Hf. pose proof (FrameFacts.frame_fits_max f Hf) as Hm.
  destruct (FrameFacts.wire_tag f Hok) as [Hty Hid].
  pose proof (be_value_u 4 (wire_id f) Hid) as V1.
  pose proof (be_value_u 4 (len (wire_payload f))) as V2.
  pose proof (be_value_u 1 (wire_type f) Hty) as V0. cbn [be_bytes app] in V0.
  pose proof (length_be_bytes 4 (wire_id f)) as L1.
  pose proof (length_be_bytes 4 (len (wire_payload f))) as L2.
  unfold wire_frame, read_spec. rewrite <-!app_assoc.
  destruct (be_bytes 4 (wire_id f)) as [|a1 [|a2 [|a3 [|a4 [|]]]]]; try done.
  destruct (be_bytes 4 (len (wire_payload f))) as [|b1 [|b2 [|b3 [|b4 [|]]]]]; try done.
  destruct (Z.ltb_spec (len ([byte_of (wire_type f)] ++ [a1; a2; a3; a4] ++ [b1; b2; b3; b4]
    ++ wire_payload f ++ y)) 9) as [Hl|_]; [cbn in Hl; lia|].
  cbn [app take drop]. rewrite take_0, drop_0, V0, V1, V2 by (unfold in_u, MAX_FRAME in *; lia).
  destruct (Z.ltb_spec MAX_FRAME (len (wire_payload f))); [lia|].
  destruct (Z.ltb_spec (len (wire_payload f ++ y)) (len (wire_payload f))) as [Hl|_];
    [rewrite length_app in Hl; lia|].
  rewrite Nat2Z.id, take_app_length, drop_app_length, FrameFacts.decode_wire by done. done.
Qed.

Section link.
Context {R : Type} `{AsyncReadLaws R}.

Lemma read_from_wire (r : R) f y :
  frame_ok f -> frame_fits f -> rest r = wire_frame f ++ y ->
  exists r', FrameReader.read_from r = (Ok (Some f), r') /\ rest r' = y /\ fin r' = fin r.
Proof.
  intros Hok Hf Hr. destruct (read_from_refines r) as [r' Hs].
  rewrite Hr, read_spec_wire in Hs by done. eauto.
Qed.

Lemma read_frames_wire fs : forall (r : R) y,
  Forall frame_ok fs -> Forall frame_fits fs -> rest r = wire_frames fs ++ y ->
  exists r', read_frames r fs r' /\ rest r' = y /\ fin r' = fin r.
Proof.
  induction fs as [|f fs IH]; intros r y Hok Hf Hr.
  { exists r. split; [constructor|done]. }
  apply Forall_cons_iff in Hok as [? Hok], Hf as [? Hf].
  unfold wire_frames in Hr. cbn in Hr. rewrite <-app_assoc in Hr.
  destruct (read_from_wire r f _ ltac:(done) ltac:(done) Hr) as (r1 & ? & Hr1 & <-).
  destruct (IH r1 y Hok Hf Hr1) as (r2 & ? & ? & <-).
  exists r2. split; [by econstructor|done].
Qed.
End link.

(** C8. The batch writer and the frame reader agree: on a peer that keeps
    taking bytes, in whatever portions, [write_frame_batch] succeeds, takes
    the first frame and at most 31 of the queued ones, and any reader whose
    stream starts with the bytes written, in whatever pieces they arrive, reads
    back exactly these frames in order and is left in front of what follows. *)
Theorem write_frame_batch_round_trip {W} `{AsyncWriteLaws W} {R} `{AsyncReadLaws R}
    (first : Frame) (ready : list Frame) (w : W) :
  live w ->
  Forall frame_ok (first :: take 31 ready) -> Forall frame_fits (first :: take 31 ready) ->
  exists stats w' sent,
    write_frame_batch first ready w = (Ok (stats, drop 31 ready), w')
    /\ written w' = written w ++ sent
    /\ forall (r : R) y, rest r = sent ++ y ->
       exists r', read_frames r (first :: take 31 ready) r' /\ rest r' = y.
Proof.
  intros Hl Hok Hf. apply Forall_cons_iff in Hf as Hf'. destruct Hf' as [Hf1 Hf2].
  destruct (write_frame_batch_live first ready w Hl Hf1 Hf2) as (st & w' & Hw & Hw' & _).
  exists st, w', (wire_frames (first :: take 31 ready)). split_and!; [done..|].
  intros r y Hr. destruct (read_frames_wire _ r y Hok Hf Hr) as (r' & ? & ? & _). eauto.
Qed.

Definition sample_frames : list Frame :=
  [OpenTcp 7 "example.com" 443 (Some "socks5h://127.0.0.1:1080"%string);
   Data 7 [x01; x02; x03]; OpenTcpResult 7 true "ok"; UdpPacket 9 "::1" 53 [xff];
   Close 7 "done"; Log "hello"].

Lemma sample_frames_ok : Forall frame_ok sample_frames /\ Forall frame_fits sample_frames.
Proof. split; repeat constructor; vm_compute; intuition congruence. Qed.

Lemma write_frame_batch_round_trip_witness :
  exists stats w' sent,
    write_frame_batch (Data 1 [x2a]) sample_frames (MkWriter [] [1; 2; 5; 3] 0)
      = (Ok (stats, drop 31 sample_frames), w')
    /\ written w' = written (MkWriter [] [1; 2; 5; 3] 0) ++ sent
    /\ forall (r : Segments) y, rest r = sent ++ y ->
       exists r', read_frames r (Data 1 [x2a] :: take 31 sample_frames) r' /\ rest r' = y.
Proof.
  apply (write_frame_batch_round_trip (R := Segments) (Data 1 [x2a]) sample_frames
    (MkWriter [] [1; 2; 5; 3] 0)).
  - reflexivity.
  - constructor; [vm_compute; intuition congruence|apply sample_frames_ok].
  - constructor; [vm_compute; intuition congruence|apply sample_frames_ok].
Defined.

(** Fragmentation does not matter: what [read_from] returns (a frame, the
    end of the stream, or which error) and where it leaves the stream depend
    only on the bytes the stream holds and on how it ends, not on the pieces
    they come in or on the kind of stream. *)
Theorem read_from_segmentation {R1} `{AsyncReadLaws R1} {R2} `{AsyncReadLaws R2}
    (r1 : R1) (r2 : R2) :
  rest r1 = rest r2 -> fin r1 = fin r2 ->
  let x1 := FrameReader.read_from r1 in
  let x2 := FrameReader.read_from r2 in
  x1.1 = x2.1 /\ (forall f, x1.1 = Ok (Some f) -> rest x1.2 = rest x2.2 /\ fin x1.2 = fin x2.2).
Proof.
  intros Hr Hf. destruct (read_from_refines r1) as [r1' E1], (read_from_refines r2) as [r2' E2].
  rewrite Hr, Hf in E1. cbn zeta.
  destruct (read_spec (rest r2) (fin r2)) as [[[f y]|]|e].
  - destruct E1 as (-> & Hr1 & Hf1), E2 as (-> & Hr2 & Hf2). cbn. split; [done|].
    intros _ _. by rewrite Hr1, Hr2, Hf1, Hf2.
  - by rewrite E1, E2.
  - by rewrite E1, E2.
Qed.

Lemma read_from_segmentation_witness :
  let r1 := MkSegments [[x06; x00]; [x00; x00; x00; x00; x00; x00; x03; x00]; []; [x01; x41; x07]] AtEof in
  let r2 := MkSegments [[x06; x00; x00; x00; x00; x00; x00; x00; x03; x00; x01; x41; x07]] AtEof in
  (FrameReader.read_from r1).1 = (FrameReader.read_from r2).1
  /\ (forall f, (FrameReader.read_from r1).1 = Ok (Some f) ->
      rest (FrameReader.read_from r1).2 = rest (FrameReader.read_from r2).2
      /\ fin (FrameReader.read_from r1).2 = fin (FrameReader.read_from r2).2).
Proof. apply read_from_segmentation; reflexivity. Defined.

(** A frame is written exactly when its strings and payload fit; a frame
    that does not fit is refused before any byte reaches the peer, so the
    stream of the other frames stays readable; and the write loop never runs
    out of fuel, that is, it terminates. *)
Theorem write_to_accepts {W} `{AsyncWriteLaws W} (f : Frame) (w : W) :
  (~ frame_fits f -> exists e, write_to_with_scratch f w = (Err e, w))
  /\ (forall n w', write_to_with_scratch f w = (Ok n, w') ->
      frame_fits f /\ written w' = written w ++ wire_frame f /\ n <= len (wire_frame f))
  /\ (live w -> frame_fits f -> exists n w', write_to_with_scratch f w = (Ok n, w') /\ live w')
  /\ (write_to_with_scratch f w).1 <> Err OutOfFuel.
Proof.
  split_and!.
  - intros Hf. destruct (write_to_rejects f w Hf) as (e & ? & _). eauto.
  - intros n w' Hw. by apply write_to_ok.
  - intros Hl Hf. destruct (write_to_live f w Hl Hf) as (n & w' & ? & _ & _ & ?). eauto.
  - destruct (decide (frame_fits f)) as [Hf|Hf].
    + rewrite write_to_fits by done. by apply write_all_vectored_payload_spec.
    + by destruct (write_to_rejects f w Hf) as (e & -> & [->|(n & -> & _)]).
Qed.

Lemma write_to_accepts_witness :
  (~ frame_fits (Data 1 [x2a]) -> exists e,
     write_to_with_scratch (Data 1 [x2a]) (MkWriter [] [3; 1] 0) = (Err e, MkWriter [] [3; 1] 0))
  /\ (forall n w', write_to_with_scratch (Data 1 [x2a]) (MkWriter [] [3; 1] 0) = (Ok n, w') ->
      frame_fits (Data 1 [x2a])
      /\ written w' = written (MkWriter [] [3; 1] 0) ++ wire_frame (Data 1 [x2a])
      /\ n <= len (wire_frame (Data 1 [x2a])))
  /\ (live (MkWriter [] [3; 1] 0) -> frame_fits (Data 1 [x2a]) -> exists n w',
      write_to_with_scratch (Data 1 [x2a]) (MkWriter [] [3; 1] 0) = (Ok n, w') /\ live w')
  /\ (write_to_with_scratch (Data 1 [x2a]) (MkWriter [] [3; 1] 0)).1 <> Err OutOfFuel.
Proof. exact (write_to_accepts (Data 1 [x2a]) (MkWriter [] [3; 1] 0)). Defined.

(** Every frame that comes off a stream satisfies the invariants of the
    Rust types and can be written again: the reader never produces a frame
    that the writer of a relay would refuse. *)
Theorem read_from_writable {R} `{AsyncReadLaws R} (r : R) (f : Frame) (r' : R) :
  FrameReader.read_from r = (Ok (Some f), r') -> frame_ok f /\ frame_fits f.
Proof.
  intros Hr. destruct (read_from_refines r) as [r1 Hs].
  unfold read_spec in Hs. rewrite Hr in Hs.
  destruct (Z.ltb_spec (len (rest r)) 9); [by destruct (fin r)|].
  set (n := be_value (take 4 (drop 5 _))) in *.
  destruct (Z.ltb_spec MAX_FRAME n); [done|].
  destruct (Z.ltb_spec (len (drop 9 (rest r))) n); [by destruct (fin r)|].
  destruct (Frame.decode _ _ _) as [f'|] eqn:Hd; cbn in Hs; [|done].
  destruct Hs as [[= -> ->] _]. apply FrameFacts.decode_sound in Hd as (? & _ & Hf).
  - split; [done|]. apply Hf. rewrite length_take. unfold MAX_FRAME in *. lia.
  - eapply in_u_mono; [apply be_value_range|]. rewrite length_take. lia.
Qed.

Lemma read_from_writable_witness :
  frame_ok (Log "A") /\ frame_fits (Log "A").
Proof.
  eapply (read_from_writable (MkSegments
    [[x06; x00; x00; x00; x00; x00; x00; x00; x03; x00; x01; x41; x07]] AtEof)).
  vm_compute. reflexivity.
Defined.
