(* ===== verification/StreamHeader.v ===== *)
(** * The header of a QUIC-native stream

    [crates/ssh-proxy/src/quic_native/stream_header.rs]: the first bytes of
    every QUIC stream, which name the route, the target and the egress proxy.
    An eight byte prefix (magic, version, body length) is followed by the
    body.  [encode_into] writes into a reused buffer, so it is a computation
    over that buffer; errors leave it half written, as in the source. *)
From S2P Require Import Prelude RustStr Cursor.

Definition STREAM_HEADER_MAGIC : list byte := str_bytes "QNT1".
Definition STREAM_HEADER_VERSION : Z := 1.
Definition MAX_STREAM_HEADER : Z := 64 * 1024.

Inductive TargetKind := TcpConnect | FixedTcp.

Record StreamTarget := { kind : TargetKind; host : string; port : Z }.

Record StreamHeader := {
  route_id : string;
  stream_id : Z;
  target : StreamTarget;
  egress_proxy : option string;
  flags : Z;
}.

#[global] Instance TargetKind_eq_dec : EqDecision TargetKind.
Proof. solve_decision. Defined.
#[global] Instance StreamTarget_eq_dec : EqDecision StreamTarget.
Proof. solve_decision. Defined.
#[global] Instance StreamHeader_eq_dec : EqDecision StreamHeader.
Proof. solve_decision. Defined.

Inductive HeaderError :=
| HeaderStringTooLong
| HeaderTooLarge (n : Z)
| HeaderTruncated
| InvalidMagic
| UnsupportedVersion (v : Z)
| HeaderPayloadTruncated
| HeaderLengthOverflow
| HeaderInvalidUtf8
| HeaderTrailing (n : Z)
| UnknownTargetKind (v : Z)
| InvalidEgressMarker (v : Z).

Definition header_cursor_errors : CursorErrors HeaderError :=
  {| truncated := HeaderPayloadTruncated; overflow := HeaderLengthOverflow;
     invalid_utf8 := HeaderInvalidUtf8; trailing := HeaderTrailing |}.

Definition to_wire (k : TargetKind) : Z :=
  match k with
  | TcpConnect => 1
  | FixedTcp => 2
  end.

Definition from_wire (v : Z) : result HeaderError TargetKind :=
  if v =? 1 then Ok TcpConnect
  else if v =? 2 then Ok FixedTcp
  else Err (UnknownTargetKind v).

(** [out.extend_from_slice(bs)] and [out.push(b)]. *)
Definition extend (bs : list byte) : sr (list byte) HeaderError unit :=
  fun out => (Ok tt, out ++ bs).

Definition write_string (value : string) : sr (list byte) HeaderError unit :=
  let bs := str_bytes value in
  if u_max 16 <? len bs then sr_fail HeaderStringTooLong
  else _ ← extend (be_bytes 2 (wrap_u 16 (len bs))); extend bs.

Definition write_body (h : StreamHeader) : sr (list byte) HeaderError unit :=
  _ ← extend (be_bytes 4 (flags h));
  _ ← extend (be_bytes 8 (stream_id h));
  _ ← extend [byte_of (to_wire (kind (target h)))];
  _ ← write_string (route_id h);
  _ ← write_string (host (target h));
  _ ← extend (be_bytes 2 (port (target h)));
  match egress_proxy h with
  | Some proxy => _ ← extend [byte_of 1]; write_string proxy
  | None => extend [byte_of 0]
  end.

(** The two assignments [out[6] = ..] and [out[7] = ..]. *)
Definition patch_length (n : Z) : sr (list byte) HeaderError unit := fun out =>
  let body_len := be_bytes 2 (wrap_u 16 n) in
  (Ok tt, <[7%nat := default x00 (body_len !! 1%nat)]>
            (<[6%nat := default x00 (body_len !! 0%nat)]> out)).

Definition encode_into (h : StreamHeader) : sr (list byte) HeaderError unit := fun _ =>
  (_ ← extend STREAM_HEADER_MAGIC;
   _ ← extend (be_bytes 2 STREAM_HEADER_VERSION);
   _ ← extend (be_bytes 2 0);
   body_start ← sr_gets (fun out => len out);
   _ ← write_body h;
   body_len ← sr_gets (fun out => len out - body_start);
   if MAX_STREAM_HEADER <? body_len then sr_fail (HeaderTooLarge body_len)
   else patch_length body_len) [].

Definition encode (h : StreamHeader) : result HeaderError (list byte) :=
  match encode_into h [] with
  | (Ok _, out) => Ok out
  | (Err e, _) => Err e
  end.

Definition encoded_capacity_hint (h : StreamHeader) : Z :=
  let egress_len := match egress_proxy h with Some proxy => 2 + str_len proxy | None => 0 end in
  8 + 4 + 8 + 1 + 2 + str_len (route_id h) + 2 + str_len (host (target h)) + 2 + 1 + egress_len.

(** The match on the egress proxy marker. *)
Definition read_marker (b : byte) : sr Cursor HeaderError (option string) :=
  if byte_val b =? 0 then mret None
  else if byte_val b =? 1 then s ← read_string header_cursor_errors; mret (Some s)
  else sr_fail (InvalidEgressMarker (byte_val b)).

Definition decode_body : sr Cursor HeaderError StreamHeader :=
  let e := header_cursor_errors in
  flags ← read_u32 e;
  stream_id ← read_u64 e;
  b ← read_u8 e;
  kind ← sr_lift (from_wire (byte_val b));
  route_id ← read_string e;
  host ← read_string e;
  port ← read_u16 e;
  marker ← read_u8 e;
  egress_proxy ← read_marker marker;
  _ ← ensure_empty e;
  mret {| route_id := route_id; stream_id := stream_id;
          target := {| kind := kind; host := host; port := port |};
          egress_proxy := egress_proxy; flags := flags |}.

Definition decode (bs : list byte) : result HeaderError (StreamHeader * Z) :=
  if len bs <? 8 then Err HeaderTruncated
  else if negb (bool_decide (take 4 bs = STREAM_HEADER_MAGIC)) then Err InvalidMagic
  else
    let version := be_value (take 2 (drop 4 bs)) in
    if negb (version =? STREAM_HEADER_VERSION) then Err (UnsupportedVersion version)
    else
      let body_len := be_value (take 2 (drop 6 bs)) in
      if MAX_STREAM_HEADER <? body_len then Err (HeaderTooLarge body_len)
      else
        let fin := 8 + body_len in
        if len bs <? fin then Err HeaderPayloadTruncated
        else
          h ← (decode_body (Cursor_new (take (Z.to_nat body_len) (drop 8 bs)))).1;
          Ok (h, fin).

(** ** The wire format *)

Definition wire_body (h : StreamHeader) : list byte :=
  be_bytes 4 (flags h) ++ be_bytes 8 (stream_id h) ++ [byte_of (to_wire (kind (target h)))]
  ++ wire_string (route_id h) ++ wire_string (host (target h)) ++ be_bytes 2 (port (target h))
  ++ match egress_proxy h with
     | Some proxy => [byte_of 1] ++ wire_string proxy
     | None => [byte_of 0]
     end.

(** The prefix, with the body length in sixteen bits. *)
Definition wire_header (h : StreamHeader) : list byte :=
  STREAM_HEADER_MAGIC ++ be_bytes 2 STREAM_HEADER_VERSION
  ++ be_bytes 2 (wrap_u 16 (len (wire_body h))) ++ wire_body h.

(** The invariants of the Rust types of the fields. *)
Definition header_ok (h : StreamHeader) : Prop :=
  str_ok (route_id h) /\ str_ok (host (target h)) /\ in_u 16 (port (target h))
  /\ in_u 64 (stream_id h) /\ in_u 32 (flags h)
  /\ match egress_proxy h with Some proxy => str_ok proxy | None => True end.

Definition strings_fit (h : StreamHeader) : Prop :=
  str_len (route_id h) <= u_max 16 /\ str_len (host (target h)) <= u_max 16
  /\ match egress_proxy h with Some proxy => str_len proxy <= u_max 16 | None => True end.

Lemma length_magic : length STREAM_HEADER_MAGIC = 4%nat.
Proof. done. Qed.
#[local] Hint Rewrite length_magic : len.

Lemma length_wire_header h : len (wire_header h) = encoded_capacity_hint h.
Proof.
  unfold wire_header, wire_body, encoded_capacity_hint, wire_string, str_len.
  destruct (egress_proxy h); autorewrite with len; cbn [length]; lia.
Qed.

Lemma length_wire_body h : len (wire_body h) = encoded_capacity_hint h - 8.
Proof.
  rewrite <-length_wire_header. unfold wire_header. autorewrite with len. cbn [length]. lia.
Qed.

(** ** Encoding *)

Lemma write_string_run v out :
  write_string v out =
  if u_max 16 <? str_len v then (Err HeaderStringTooLong, out) else (Ok tt, out ++ wire_string v).
Proof.
  unfold write_string, wire_string. fold (str_len v).
  destruct (Z.ltb_spec (u_max 16) (str_len v)); [done|].
  rewrite wrap_u_small by (unfold in_u, u_max, str_len in *; lia).
  unfold mbind, sr_bind, extend. by rewrite <-app_assoc.
Qed.

Lemma extend_bind {A} bs (k : unit -> sr (list byte) HeaderError A) out :
  (extend bs ≫= k) out = k tt (out ++ bs).
Proof. done. Qed.

Lemma write_string_bind {A} v (k : unit -> sr (list byte) HeaderError A) out :
  str_len v <= u_max 16 -> (write_string v ≫= k) out = k tt (out ++ wire_string v).
Proof.
  intros Hv. apply sr_bind_Ok. rewrite write_string_run.
  by destruct (Z.ltb_spec (u_max 16) (str_len v)); [lia|].
Qed.

Lemma write_body_fits h out :
  strings_fit h -> write_body h out = (Ok tt, out ++ wire_body h).
Proof.
  intros (Hr & Hh & He). unfold write_body, wire_body.
  rewrite !extend_bind, !write_string_bind, extend_bind by done.
  destruct (egress_proxy h) as [proxy|].
  - rewrite extend_bind, write_string_run.
    destruct (Z.ltb_spec (u_max 16) (str_len proxy)); [lia|]. by rewrite <-!app_assoc.
  - unfold extend. by rewrite <-!app_assoc.
Qed.

Lemma write_body_long h out :
  ~ strings_fit h -> exists out', write_body h out = (Err HeaderStringTooLong, out').
Proof.
  intros Hf. unfold write_body. rewrite !extend_bind.
  destruct (decide (str_len (route_id h) <= u_max 16)) as [Hr|Hr]; last first.
  { eexists. apply sr_bind_Err. rewrite write_string_run.
    by destruct (Z.ltb_spec (u_max 16) (str_len (route_id h))); [|lia]. }
  rewrite write_string_bind by done.
  destruct (decide (str_len (host (target h)) <= u_max 16)) as [Hh|Hh]; last first.
  { eexists. apply sr_bind_Err. rewrite write_string_run.
    by destruct (Z.ltb_spec (u_max 16) (str_len (host (target h)))); [|lia]. }
  rewrite write_string_bind, extend_bind by done.
  destruct (egress_proxy h) as [proxy|] eqn:He.
  - rewrite extend_bind, write_string_run.
    destruct (Z.ltb_spec (u_max 16) (str_len proxy)); [by eauto|].
    destruct Hf. unfold strings_fit. by rewrite He.
  - destruct Hf. unfold strings_fit. by rewrite He.
Qed.

#[global] Instance strings_fit_dec h : Decision (strings_fit h).
Proof. unfold strings_fit. destruct (egress_proxy h); apply _. Defined.

(** [encode] writes the wire format, or says why it cannot. *)
Lemma encode_eq h :
  encode h =
  if decide (strings_fit h) then
    if MAX_STREAM_HEADER <? len (wire_body h) then Err (HeaderTooLarge (len (wire_body h)))
    else Ok (wire_header h)
  else Err HeaderStringTooLong.
Proof.
  unfold encode, encode_into. rewrite !extend_bind. cbn [app].
  set (pre := _ ++ be_bytes 2 0).
  assert (Hpre : len pre = 8) by (unfold pre; autorewrite with len; lia).
  erewrite sr_bind_Ok by done. destruct (decide (strings_fit h)) as [Hf|Hf].
  - erewrite sr_bind_Ok by by apply write_body_fits. erewrite sr_bind_Ok by done.
    rewrite length_app, Nat2Z.inj_add, Z.add_simpl_l.
    destruct (Z.ltb_spec MAX_STREAM_HEADER (len (wire_body h))); [done|].
    unfold patch_length, wire_header, pre.
    pose proof (length_be_bytes 2 (wrap_u 16 (len (wire_body h)))) as Hl.
    destruct (be_bytes 2 (wrap_u 16 _)) as [|b0 [|b1 [|]]]; try done.
  - destruct (write_body_long h pre Hf) as [out' Hw]. by erewrite sr_bind_Err by done.
Qed.

(** ** Decoding *)

Lemma decode_body_wire h :
  header_ok h -> strings_fit h -> finishes decode_body (wire_body h) h.
Proof.
  intros (? & ? & ? & ? & ? & He) (? & ? & Hf). unfold decode_body, wire_body.
  assert (Hs : forall s, str_ok s -> str_len s <= u_max 16 ->
            consumes (read_string header_cursor_errors) (wire_string s) s).
  { intros. by apply consumes_read_string, str_len_u16. }
  do 3 (eapply finishes_bind; [by eauto with consumes|]).
  rewrite <-(app_nil_l (wire_string (route_id h) ++ _)).
  eapply finishes_bind with (v := kind (target h)).
  { rewrite byte_val_of. destruct (kind (target h)); apply consumes_ret. }
  do 3 (eapply finishes_bind; [by eauto with consumes|]).
  destruct h as [rid sid [k hs pt] [proxy|] fl]; cbn [egress_proxy] in *.
  - eapply finishes_bind; [by eauto with consumes|]. unfold read_marker. rewrite byte_val_of.
    change (1 mod 256) with 1. cbn [Z.eqb Pos.eqb].
    rewrite <-(app_nil_r (wire_string proxy)).
    eapply finishes_bind; [|by eauto with consumes].
    rewrite <-(app_nil_r (wire_string proxy)). eapply consumes_bind; eauto with consumes.
  - rewrite <-(app_nil_r [byte_of 0]).
    eapply finishes_bind; [by eauto with consumes|]. unfold read_marker. rewrite byte_val_of.
    change (0 mod 256) with 0. cbn [Z.eqb].
    rewrite <-(app_nil_r []). eapply finishes_bind; eauto with consumes.
Qed.

Lemma decode_prefix n z :
  in_u 16 n ->
  decode (STREAM_HEADER_MAGIC ++ be_bytes 2 STREAM_HEADER_VERSION ++ be_bytes 2 n ++ z) =
  if len z <? n then Err HeaderPayloadTruncated
  else h ← (decode_body (Cursor_new (take (Z.to_nat n) z))).1; Ok (h, 8 + n).
Proof.
  intros Hn. unfold decode.
  pose proof (be_value_u 2 n Hn) as Vn. pose proof (length_be_bytes 2 n) as Ln.
  assert (Vv : be_value (be_bytes 2 STREAM_HEADER_VERSION) = STREAM_HEADER_VERSION)
    by (apply be_value_u; done).
  pose proof (length_be_bytes 2 STREAM_HEADER_VERSION) as Lv.
  destruct (be_bytes 2 n) as [|b0 [|b1 [|]]]; try done.
  destruct (be_bytes 2 STREAM_HEADER_VERSION) as [|v0 [|v1 [|]]]; try done.
  change STREAM_HEADER_MAGIC with [x51; x4e; x54; x31]. cbn [app take drop].
  rewrite take_0, drop_0, bool_decide_eq_true_2, Vn by done. cbn [negb].
  cbn [length]. destruct (Z.ltb_spec (Z.of_nat (S (S (S (S (S (S (S (S (length z))))))))))  8);
    [lia|].
  rewrite Vv. cbn [Z.eqb Pos.eqb negb STREAM_HEADER_VERSION].
  destruct (Z.ltb_spec MAX_STREAM_HEADER n); [unfold in_u, MAX_STREAM_HEADER in *; lia|].
  destruct (Z.ltb_spec (Z.of_nat (S (S (S (S (S (S (S (S (length z))))))))))  (8 + n)),
    (Z.ltb_spec (len z) n); try lia; done.
Qed.

(** A prefix that [decode] accepts. *)
Lemma decode_inv bs h n :
  decode bs = Ok (h, n) ->
  exists z, bs = STREAM_HEADER_MAGIC ++ be_bytes 2 STREAM_HEADER_VERSION ++ be_bytes 2 (n - 8) ++ z
            /\ in_u 16 (n - 8) /\ n - 8 <= len z
            /\ (decode_body (Cursor_new (take (Z.to_nat (n - 8)) z))).1 = Ok h.
Proof.
  unfold decode. destruct (Z.ltb_spec (len bs) 8) as [|Hl]; [done|].
  case_bool_decide as Hm; [|done]. cbn [negb].
  destruct (Z.eqb_spec (be_value (take 2 (drop 4 bs))) STREAM_HEADER_VERSION) as [Hv|]; [|done].
  cbn [negb]. destruct (Z.ltb_spec MAX_STREAM_HEADER (be_value (take 2 (drop 6 bs)))); [done|].
  set (m := be_value (take 2 (drop 6 bs))) in *.
  destruct (Z.ltb_spec (len bs) (8 + m)); [done|]. intros Hd. inv_result.
  replace (8 + m - 8) with m by lia. exists (drop 8 bs).
  assert (L2 : forall k, (k <= 6)%nat -> length (take 2 (drop k bs)) = 2%nat).
  { intros. rewrite length_take, length_drop. lia. }
  split_and!.
  - rewrite <-Hm, <-Hv. unfold m. rewrite !be_bytes_value by (apply L2; lia).
    pose proof (take_drop_pieces bs 2 6) as E6. pose proof (take_drop_pieces bs 2 4) as E4.
    cbn [Nat.add] in E6, E4. by rewrite E6, E4, take_drop.
  - eapply in_u_mono; [apply be_value_range|]. rewrite L2 by lia. lia.
  - rewrite length_drop. lia.
  - done.
Qed.

Lemma from_wire_inv b k : from_wire (byte_val b) = Ok k -> b = byte_of (to_wire k).
Proof.
  unfold from_wire.
  destruct (Z.eqb_spec (byte_val b) 1) as [E|].
  { intros [= <-]. cbn [to_wire]. by rewrite <-E, byte_of_val. }
  destruct (Z.eqb_spec (byte_val b) 2) as [E|]; [|done].
  intros [= <-]. cbn [to_wire]. by rewrite <-E, byte_of_val.
Qed.

Lemma read_marker_inv b c v c' :
  read_marker b c = (Ok v, c') ->
  [b] ++ remaining c
  = match v with Some s => [byte_of 1] ++ wire_string s | None => [byte_of 0] end ++ remaining c'
  /\ match v with Some s => str_ok s /\ in_u 16 (str_len s) | None => True end.
Proof.
  unfold read_marker. destruct (Z.eqb_spec (byte_val b) 0) as [E|].
  { intros. inv_sr. by rewrite <-E, byte_of_val. }
  destruct (Z.eqb_spec (byte_val b) 1) as [E|]; intros; inv_cursor.
  rewrite H, <-E, byte_of_val. unfold wire_string. by rewrite <-!app_assoc.
Qed.

Lemma decode_body_sound bs h :
  (decode_body (Cursor_new bs)).1 = Ok h -> header_ok h /\ strings_fit h /\ bs = wire_body h.
Proof.
  destruct (decode_body _) as [r c'] eqn:Hd. cbn. intros ->.
  assert (Hb : bs = remaining (Cursor_new bs)) by done. rewrite Hb at 1.
  set (c := Cursor_new bs) in *. clearbody c. clear Hb. revert Hd. unfold decode_body. intros Hd.
  inv_cursor.
  match goal with H : read_marker _ _ = _, H' : _ = [] |- _ =>
    apply read_marker_inv in H as [Hm Hv]; rewrite H', app_nil_r in Hm end.
  match goal with H : sr_lift _ _ = _ |- _ => unfold sr_lift in H; injection H as H ->;
    apply from_wire_inv in H as -> end.
  unfold header_ok, strings_fit, wire_body, wire_string. cbn.
  rewrite H, H0, H1, H3, H4, H5, H6, Hm, <-!app_assoc.
  assert (Hu : forall s, in_u 16 (str_len s) -> str_len s <= u_max 16)
    by (unfold in_u, u_max; lia).
  split_and!; try done; try (by apply Hu).
  - by destruct x15; [apply Hv|].
  - by destruct x15; [apply Hu, Hv|].
Qed.

(** ** Properties *)

Lemma encode_Ok h out :
  encode h = Ok out ->
  strings_fit h /\ len (wire_body h) <= MAX_STREAM_HEADER /\ out = wire_header h.
Proof.
  rewrite encode_eq. case_decide; [|done].
  destruct (Z.ltb_spec MAX_STREAM_HEADER (len (wire_body h))); [done|]. by intros [= <-].
Qed.

(** A stream header decodes to itself and to its own length, whatever
    bytes of the stream follow it, for every header whose encoding is at most
    8 + 65535 bytes long. *)
Theorem stream_header_round_trip (h : StreamHeader) (out y : list byte) :
  header_ok h -> encode h = Ok out -> len out <= 8 + u_max 16 ->
  decode (out ++ y) = Ok (h, len out).
Proof.
  intros Hok (Hf & Hb & ->)%encode_Ok Hl. rewrite length_wire_header in *.
  pose proof (length_wire_body h) as Hlb.
  unfold wire_header. rewrite <-!app_assoc.
  rewrite wrap_u_small by (unfold in_u, u_max in *; lia).
  rewrite decode_prefix by (unfold in_u, u_max in *; lia).
  destruct (Z.ltb_spec (len (wire_body h ++ y)) (len (wire_body h))) as [Hlt|_];
    [rewrite length_app in Hlt; lia|].
  rewrite Nat2Z.id, take_app_length, decode_body_wire; [|done|done|].
  - cbn. do 2 f_equal. lia.
  - apply cursor_at_new. unfold usize_max, u_max in *. lia.
Qed.

Definition sample_header : StreamHeader :=
  {| route_id := "local-via-remote:peer-a:18080"; stream_id := 42;
     target := {| kind := TcpConnect; host := "example.com"; port := 443 |};
     egress_proxy := Some "socks5h://127.0.0.1:18080"%string; flags := 16 |}.

Lemma stream_header_round_trip_witness :
  decode (wire_header sample_header ++ [x2a]) = Ok (sample_header, len (wire_header sample_header)).
Proof.
  apply stream_header_round_trip.
  - vm_compute. intuition congruence.
  - vm_compute. reflexivity.
  - vm_compute. congruence.
Defined.

(** Decoding accepts only what encoding writes: a header that [decode]
    returns satisfies the invariants of the Rust types, and encoding it again
    gives exactly the bytes that were consumed, of which there are at least
    eight and at most as many as were given. *)
Theorem stream_header_decode_canonical (bs : list byte) (h : StreamHeader) (n : Z) :
  decode bs = Ok (h, n) ->
  header_ok h /\ 8 <= n <= len bs /\ encode h = Ok (take (Z.to_nat n) bs).
Proof.
  intros (z & -> & Hn & Hz & Hd)%decode_inv.
  apply decode_body_sound in Hd as (Hok & Hf & Hb).
  assert (Hlen : len (wire_body h) = n - 8).
  { rewrite <-Hb, length_take. unfold in_u in *. lia. }
  split; [done|]. split; [autorewrite with len; unfold in_u in *; lia|].
  rewrite encode_eq, decide_True by done.
  destruct (Z.ltb_spec MAX_STREAM_HEADER (len (wire_body h))).
  { unfold in_u, MAX_STREAM_HEADER in *. lia. }
  unfold wire_header. rewrite Hlen, wrap_u_small by done. f_equal.
  set (p := be_bytes 2 STREAM_HEADER_VERSION ++ be_bytes 2 (n - 8)).
  assert (Hp : forall l, STREAM_HEADER_MAGIC ++ be_bytes 2 STREAM_HEADER_VERSION
    ++ be_bytes 2 (n - 8) ++ l = (STREAM_HEADER_MAGIC ++ p) ++ l).
  { intros l. unfold p. by rewrite <-!app_assoc. }
  rewrite !Hp, <-Hb, take_app_ge; [|unfold p; autorewrite with len; unfold in_u in *; lia].
  do 2 f_equal. unfold p. autorewrite with len. unfold in_u in *. lia.
Qed.

Lemma stream_header_decode_canonical_witness :
  header_ok sample_header
  /\ 8 <= len (wire_header sample_header) <= len (wire_header sample_header ++ [x2a])
  /\ encode sample_header
     = Ok (take (Z.to_nat (len (wire_header sample_header))) (wire_header sample_header ++ [x2a])).
Proof. apply stream_header_decode_canonical. vm_compute. reflexivity. Defined.

(** A body of exactly 65536 bytes passes the check against
    [MAX_STREAM_HEADER], but its length does not fit the sixteen bit length
    field, which wraps to zero: the header is encoded successfully, and every
    reader refuses it. *)
Theorem stream_header_length_wraps (h : StreamHeader) :
  strings_fit h -> encoded_capacity_hint h = 8 + MAX_STREAM_HEADER ->
  exists out, encode h = Ok out /\ len out = 8 + MAX_STREAM_HEADER
              /\ forall y, decode (out ++ y) = Err HeaderPayloadTruncated.
Proof.
  intros Hf Hc. pose proof (length_wire_body h) as Hl. exists (wire_header h). split_and!.
  - rewrite encode_eq, decide_True by done.
    by destruct (Z.ltb_spec MAX_STREAM_HEADER (len (wire_body h))); [lia|].
  - by rewrite length_wire_header.
  - intros y. unfold wire_header. rewrite <-!app_assoc.
    replace (wrap_u 16 _) with 0 by (by replace (len (wire_body h)) with (64 * 1024) by
      (unfold MAX_STREAM_HEADER in *; lia)).
    rewrite decode_prefix by done.
    by destruct (Z.ltb_spec (len (wire_body h ++ y)) 0); [lia|].
Qed.

(** A header whose route id makes the body 65536 bytes long. *)
Definition long_header : StreamHeader :=
  {| route_id := str_of_bytes (repeat x61 (Z.to_nat 65505)); stream_id := 1;
     target := {| kind := FixedTcp; host := "example.com"; port := 80 |};
     egress_proxy := None; flags := 0 |}.

Lemma stream_header_length_wraps_witness :
  exists out, encode long_header = Ok out /\ len out = 8 + MAX_STREAM_HEADER
              /\ forall y, decode (out ++ y) = Err HeaderPayloadTruncated.
Proof.
  apply stream_header_length_wraps.
  - vm_compute. intuition congruence.
  - vm_compute. reflexivity.
Defined.
