(* ===== verification/Socks5.v ===== *)
(** * SOCKS5: the proxy's server side and the egress client side

    [crates/ssh-proxy-transport/src/proxy/socks5.rs] is the server half
    (method negotiation, requests, replies, UDP datagrams);
    [connect_via_socks5_proxy] of [crates/ssh-proxy/src/remote/egress.rs] is
    the client half, used to reach a target through an upstream proxy.  Both
    run over a connection ([TcpStream]) of abstract streams. *)
From S2P Require Import Prelude RustStr IpAddr Stream.

Definition SOCKS_VERSION : Z := 5.

Inductive SocksError :=
| SocksIo (e : io_error)
| InvalidSocksVersion (v : Z)
| NoAuthNotOffered
| InvalidRequestVersion (v : Z)
| UnsupportedCommand (v : Z)
| InvalidReserved (v : Z)
| UnsupportedAddressType (v : Z)
| DomainNotUtf8
| InvalidUdpPacket
| FragmentedUdpPacket
| MissingUdpAddressType
| TruncatedIpv4
| TruncatedDomainLength
| TruncatedDomain
| TruncatedIpv6
| UnsupportedUdpAddressType (v : Z)
| TruncatedUdpPort
| UdpHostTooLong
| UpstreamRejectedNoAuth
| TargetHostTooLong
| UpstreamConnectFailed (v : Z)
| UpstreamAddressType (v : Z).

Inductive Command := Connect | Bind | UdpAssociate.

Record Request := { command : Command; req_host : string; req_port : Z }.

Inductive Reply := Succeeded | HostUnreachable | CommandNotSupported.

(** [reply as u8]. *)
Definition reply_code (r : Reply) : Z :=
  match r with
  | Succeeded => 0
  | HostUnreachable => 4
  | CommandNotSupported => 7
  end.

Record UdpPacket := { udp_host : string; udp_port : Z; udp_data : list byte }.

(** The address part of a reply, and of a datagram: type byte and octets. *)
Definition ip_bytes (ip : IpAddr) : list byte :=
  match ip with
  | V4 o => [byte_of 1] ++ o
  | V6 o => [byte_of 4] ++ o
  end.

Section server.
Context {R W : Type} `{AsyncRead R} `{AsyncWrite W}.

Definition io {A} (m : sr (TcpStream R W) io_error A) : sr (TcpStream R W) SocksError A :=
  sr_map_err SocksIo m.

Definition negotiate_no_auth : sr (TcpStream R W) SocksError unit :=
  version ← io stream_u8;
  if negb (version =? SOCKS_VERSION) then sr_fail (InvalidSocksVersion version)
  else
    methods_len ← io stream_u8;
    methods ← io (recv (read_exact methods_len));
    if negb (existsb (fun b => byte_val b =? 0) methods) then
      _ ← io (send (write_all [byte_of SOCKS_VERSION; byte_of 255]));
      sr_fail NoAuthNotOffered
    else io (send (write_all [byte_of SOCKS_VERSION; byte_of 0])).

Definition read_addr : sr (TcpStream R W) SocksError string :=
  atyp ← io stream_u8;
  if atyp =? 1 then
    octets ← io (recv (read_exact 4));
    mret (ip_text (V4 octets))
  else if atyp =? 3 then
    n ← io stream_u8;
    name ← io (recv (read_exact n));
    sr_lift (ok_or DomainNotUtf8 (from_utf8 name))
  else if atyp =? 4 then
    octets ← io (recv (read_exact 16));
    mret (ip_text (V6 octets))
  else sr_fail (UnsupportedAddressType atyp).

Definition read_command (v : Z) : result SocksError Command :=
  if v =? 1 then Ok Connect
  else if v =? 2 then Ok Bind
  else if v =? 3 then Ok UdpAssociate
  else Err (UnsupportedCommand v).

(** [Request::read_from]. *)
Definition read_request : sr (TcpStream R W) SocksError Request :=
  version ← io stream_u8;
  if negb (version =? SOCKS_VERSION) then sr_fail (InvalidRequestVersion version)
  else
    v ← io stream_u8;
    command ← sr_lift (read_command v);
    reserved ← io stream_u8;
    if negb (reserved =? 0) then sr_fail (InvalidReserved reserved)
    else
      host ← read_addr;
      port ← io stream_u16;
      mret {| command := command; req_host := host; req_port := port |}.

Definition reply (r : Reply) (bind : SocketAddr) : sr (TcpStream R W) SocksError unit :=
  let out := [byte_of SOCKS_VERSION; byte_of (reply_code r); byte_of 0] in
  let out := out ++ ip_bytes (sa_ip bind) in
  let out := out ++ be_bytes 2 (sa_port bind) in
  io (send (write_all out)).

(** The handshake of [connect_via_socks5_proxy], once connected. *)
Definition socks5_client (host : string) (port : Z) : sr (TcpStream R W) SocksError unit :=
  _ ← io (send (write_all [byte_of 5; byte_of 1; byte_of 0]));
  method ← io (recv (read_exact 2));
  if negb (bool_decide (method = [byte_of 5; byte_of 0])) then sr_fail UpstreamRejectedNoAuth
  else
    let host_bytes := str_bytes host in
    if 255 <? len host_bytes then sr_fail TargetHostTooLong
    else
      let request := [byte_of 5; byte_of 1; byte_of 0; byte_of 3; byte_of (len host_bytes)] in
      let request := request ++ host_bytes ++ be_bytes 2 port in
      _ ← io (send (write_all request));
      head ← io (recv (read_exact 4));
      let h i := be_value (take 1 (drop i head)) in
      if negb (h 0%nat =? 5) || negb (h 1%nat =? 0)
      then sr_fail (UpstreamConnectFailed (h 1%nat))
      else if h 3%nat =? 1 then _ ← io (recv (read_exact 6)); mret tt
      else if h 3%nat =? 3 then
        n ← io stream_u8;
        _ ← io (recv (read_exact (n + 2)));
        mret tt
      else if h 3%nat =? 4 then _ ← io (recv (read_exact 18)); mret tt
      else sr_fail (UpstreamAddressType (h 3%nat)).
End server.

(** [bytes.get(a..b)], for [a <= b]. *)
Definition get_range (bs : list byte) (a b : nat) : option (list byte) :=
  if Nat.leb b (length bs) then Some (take (b - a) (drop a bs)) else None.

Definition byte_at (bs : list byte) (i : nat) : Z := be_value (take 1 (drop i bs)).

(** The address of a datagram: the host and the position after it. *)
Definition parse_udp_host (bs : list byte) : result SocksError (string * nat) :=
  atyp ← ok_or MissingUdpAddressType (bs !! 3%nat);
  let atyp := byte_val atyp in
  if atyp =? 1 then
    addr ← ok_or TruncatedIpv4 (get_range bs 4 8);
    Ok (ip_text (V4 addr), 8%nat)
  else if atyp =? 3 then
    n ← ok_or TruncatedDomainLength (bs !! 4%nat);
    let n := Z.to_nat (byte_val n) in
    name ← ok_or TruncatedDomain (get_range bs 5 (5 + n));
    host ← ok_or DomainNotUtf8 (from_utf8 name);
    Ok (host, (5 + n)%nat)
  else if atyp =? 4 then
    addr ← ok_or TruncatedIpv6 (get_range bs 4 20);
    Ok (ip_text (V6 addr), 20%nat)
  else Err (UnsupportedUdpAddressType atyp).

Definition parse_udp_packet (bs : list byte) : result SocksError UdpPacket :=
  if (len bs <? 4) || negb (byte_at bs 0 =? 0) || negb (byte_at bs 1 =? 0)
  then Err InvalidUdpPacket
  else if negb (byte_at bs 2 =? 0) then Err FragmentedUdpPacket
  else
    '(host, pos) ← parse_udp_host bs;
    port_bytes ← ok_or TruncatedUdpPort (get_range bs pos (pos + 2));
    Ok {| udp_host := host; udp_port := be_value port_bytes; udp_data := drop (pos + 2) bs |}.

Definition build_udp_packet (host : string) (port : Z) (data : list byte) :
    result SocksError (list byte) :=
  let out := [byte_of 0; byte_of 0; byte_of 0] in
  out ← match ip_parse host with
        | Some ip => Ok (out ++ ip_bytes ip)
        | None =>
          let bs := str_bytes host in
          if u_max 8 <? len bs then Err UdpHostTooLong
          else Ok (out ++ [byte_of 3; byte_of (len bs)] ++ bs)
        end;
  Ok (out ++ be_bytes 2 port ++ data).

(** ** Handshakes *)

(** What the client sends as its request. *)
Definition request_bytes (host : string) (port : Z) : list byte :=
  [byte_of 5; byte_of 1; byte_of 0; byte_of 3; byte_of (str_len host)]
  ++ str_bytes host ++ be_bytes 2 port.

(** The three ways a client names its target, and what the proxy connects to. *)
Inductive SocksTarget := ByName (host : string) | ByIp (ip : IpAddr).

Definition target_ok (t : SocksTarget) : Prop :=
  match t with ByName host => str_ok host /\ str_len host <= 255 | ByIp ip => ip_ok ip end.
Definition target_host (t : SocksTarget) : string :=
  match t with ByName host => host | ByIp ip => ip_text ip end.
Definition target_bytes (t : SocksTarget) : list byte :=
  match t with
  | ByName host => [byte_of 3; byte_of (str_len host)] ++ str_bytes host
  | ByIp ip => ip_bytes ip
  end.
Definition connect_bytes (t : SocksTarget) (port : Z) : list byte :=
  [byte_of 5; byte_of 1; byte_of 0] ++ target_bytes t ++ be_bytes 2 port.

Definition reply_bytes (r : Reply) (bind : SocketAddr) : list byte :=
  [byte_of 5; byte_of (reply_code r); byte_of 0] ++ ip_bytes (sa_ip bind)
  ++ be_bytes 2 (sa_port bind).

Section exchanges.
Context {R W : Type} `{AsyncReadLaws R} `{AsyncWriteLaws W}.
Abbreviation exchange := (exchange (R := R) (W := W)).

Lemma io_u8 z : in_u 8 z -> exchange (io stream_u8) [byte_of z] (Ok z) [].
Proof.
  intros Hz. apply (exchange_map_err SocksIo _ _ (Ok z)), (exchange_read_be 1 z Hz).
Qed.

Lemma io_u16 z : in_u 16 z -> exchange (io stream_u16) (be_bytes 2 z) (Ok z) [].
Proof.
  intros Hz. apply (exchange_map_err SocksIo _ _ (Ok z)), (exchange_read_be 2 z Hz).
Qed.

Lemma io_read n x : n = len x -> exchange (io (recv (read_exact n))) x (Ok x) [].
Proof. intros ->. apply (exchange_map_err SocksIo _ _ (Ok x)), exchange_read_exact. Qed.

Lemma io_write bs : exchange (io (send (write_all bs))) [] (Ok tt) bs.
Proof. apply (exchange_map_err SocksIo _ _ (Ok tt)), exchange_write_all. Qed.

Lemma reply_exchange r bind : exchange (reply r bind) [] (Ok tt) (reply_bytes r bind).
Proof. unfold reply, reply_bytes. rewrite app_assoc. apply io_write. Qed.

(** One step of a handshake that reads [x]; what is left to read is made to
    end in an explicit empty tail when it is the last step. *)
Lemma io_read_then {A} n x (k : list byte -> sr (TcpStream R W) SocksError A) x2 v o :
  n = len x -> exchange (k x) x2 v o -> exchange (io (recv (read_exact n)) ≫= k) (x ++ x2) v o.
Proof. intros Hn. apply exchange_bind_r. by apply io_read. Qed.

Lemma io_read_last {A} n x (k : list byte -> sr (TcpStream R W) SocksError A) v o :
  n = len x -> exchange (k x) [] v o -> exchange (io (recv (read_exact n)) ≫= k) x v o.
Proof. intros Hn Hk. pose proof (io_read_then n x k [] v o Hn Hk) as Hx. by rewrite app_nil_r in Hx. Qed.

Lemma io_u8_then {A} z (k : Z -> sr (TcpStream R W) SocksError A) x2 v o :
  in_u 8 z -> exchange (k z) x2 v o -> exchange (io stream_u8 ≫= k) ([byte_of z] ++ x2) v o.
Proof. intros Hz. apply exchange_bind_r. by apply io_u8. Qed.

Lemma io_write_then {A} bs (k : unit -> sr (TcpStream R W) SocksError A) x v o :
  exchange (k tt) x v o -> exchange (io (send (write_all bs)) ≫= k) x v (bs ++ o).
Proof. apply exchange_bind_w, io_write. Qed.

Lemma exchange_lift {A B} (a : A) (k : A -> sr (TcpStream R W) SocksError B) x v o :
  exchange (k a) x v o -> exchange (sr_lift (Ok a) ≫= k) x v o.
Proof. done. Qed.

Lemma negotiate_exchange methods :
  len methods <= 255 ->
  exchange negotiate_no_auth ([byte_of 5] ++ [byte_of (len methods)] ++ methods)
    (if existsb (fun b => byte_val b =? 0) methods then Ok tt else Err NoAuthNotOffered)
    [byte_of 5; byte_of (if existsb (fun b => byte_val b =? 0) methods then 0 else 255)].
Proof.
  intros Hm. unfold negotiate_no_auth.
  apply io_u8_then; [done|]. cbn [Z.eqb Pos.eqb negb SOCKS_VERSION].
  apply io_u8_then; [unfold in_u; lia|].
  apply io_read_last; [done|].
  destruct (existsb _ methods); cbn [negb]; [apply io_write|].
  apply (io_write_then [byte_of 5; byte_of 255] _ [] _ []), exchange_fail.
Qed.

Lemma addr_exchange t : target_ok t -> exchange read_addr (target_bytes t) (Ok (target_host t)) [].
Proof.
  destruct t as [host|[o|o]]; unfold read_addr, target_bytes.
  - intros [Hok Hl]. change ([?a; ?b] ++ ?x) with ([a] ++ [b] ++ x).
    apply io_u8_then; [done|]. cbn [Z.eqb Pos.eqb].
    apply io_u8_then; [unfold in_u, str_len in *; lia|].
    apply io_read_last; [done|]. rewrite from_utf8_str_bytes by done. apply exchange_ret.
  - intros Ho. apply io_u8_then; [done|]. cbn [Z.eqb Pos.eqb].
    apply io_read_last; [cbn in Ho; by rewrite Ho|]. apply exchange_ret.
  - intros Ho. apply io_u8_then; [done|]. cbn [Z.eqb Pos.eqb].
    apply io_read_last; [cbn in Ho; by rewrite Ho|]. apply exchange_ret.
Qed.

Lemma connect_exchange t port :
  target_ok t -> in_u 16 port ->
  exchange read_request (connect_bytes t port)
    (Ok {| command := Connect; req_host := target_host t; req_port := port |}) [].
Proof.
  intros Ht Hp. unfold read_request, connect_bytes.
  change ([?a; ?b; ?c] ++ ?x) with ([a] ++ [b] ++ [c] ++ x).
  apply io_u8_then; [done|]. cbn [Z.eqb Pos.eqb negb SOCKS_VERSION].
  apply io_u8_then; [done|]. apply (exchange_lift Connect).
  apply io_u8_then; [done|]. cbn [Z.eqb negb].
  eapply exchange_bind_r; [by apply addr_exchange|].
  rewrite <-(app_nil_r (be_bytes 2 port)).
  eapply exchange_bind_r; [by apply io_u16|]. apply exchange_ret.
Qed.

Lemma request_exchange host port :
  str_ok host -> str_len host <= 255 -> in_u 16 port ->
  exchange read_request (request_bytes host port)
    (Ok {| command := Connect; req_host := host; req_port := port |}) [].
Proof. intros Hok Hl. by apply (connect_exchange (ByName host)). Qed.

(** The client up to the reply's address: it sends its two messages and
    takes the four byte head. *)
Lemma client_head_exchange host port r atyp x v :
  str_len host <= 255 -> in_u 8 atyp ->
  exchange (if negb (reply_code r =? 0) then sr_fail (UpstreamConnectFailed (reply_code r))
            else if atyp =? 1 then _ ← io (recv (read_exact 6)); mret tt
            else if atyp =? 3 then n ← io stream_u8; _ ← io (recv (read_exact (n + 2))); mret tt
            else if atyp =? 4 then _ ← io (recv (read_exact 18)); mret tt
            else sr_fail (UpstreamAddressType atyp)) x v [] ->
  exchange (socks5_client host port)
    ([byte_of 5; byte_of 0] ++ [byte_of 5; byte_of (reply_code r); byte_of 0; byte_of atyp] ++ x) v
    ([byte_of 5; byte_of 1; byte_of 0] ++ request_bytes host port).
Proof.
  intros Hl Ha Hx. unfold socks5_client.
  apply io_write_then. apply io_read_then; [done|].
  rewrite bool_decide_eq_true_2 by done. cbn [negb].
  fold (str_len host). destruct (Z.ltb_spec 255 (str_len host)); [lia|].
  rewrite <-(app_nil_r (request_bytes host port)). apply io_write_then.
  apply io_read_then; [done|]. cbn [take drop].
  rewrite !be_value_byte. change (5 mod 256) with 5.
  replace (reply_code r mod 256) with (reply_code r) by by destruct r.
  rewrite (Z.mod_small atyp) by done. apply Hx.
Qed.

Lemma client_accepts host port bind :
  str_len host <= 255 -> ip_ok (sa_ip bind) ->
  exchange (socks5_client host port) ([byte_of 5; byte_of 0] ++ reply_bytes Succeeded bind)
    (Ok tt) ([byte_of 5; byte_of 1; byte_of 0] ++ request_bytes host port).
Proof.
  intros Hl Hip. unfold reply_bytes. destruct bind as [[o|o] p]; cbn in Hip;
    cbn [ip_bytes sa_ip sa_port]; rewrite <-?app_assoc.
  - apply (client_head_exchange host port Succeeded 1); [done..|].
    cbn [Z.eqb Pos.eqb negb reply_code].
    apply io_read_last; [rewrite length_app, length_be_bytes; lia|apply exchange_ret].
  - apply (client_head_exchange host port Succeeded 4); [done..|].
    cbn [Z.eqb Pos.eqb negb reply_code].
    apply io_read_last; [rewrite length_app, length_be_bytes; lia|apply exchange_ret].
Qed.
End exchanges.

(** ** Datagrams *)

Lemma get_range_app pre x z a b :
  a = length pre -> b = (a + length x)%nat -> get_range (pre ++ x ++ z) a b = Some x.
Proof.
  intros -> ->. unfold get_range. rewrite !length_app.
  destruct (Nat.leb_spec (length pre + length x) (length pre + (length x + length z))); [|lia].
  rewrite drop_app_length. replace (_ + _ - _)%nat with (length x) by lia.
  by rewrite take_app_length.
Qed.

(** The bytes in front of the port for a host. *)
Definition udp_prefix (host : string) : list byte :=
  [byte_of 0; byte_of 0; byte_of 0]
  ++ match ip_parse host with
     | Some ip => ip_bytes ip
     | None => [byte_of 3; byte_of (str_len host)] ++ str_bytes host
     end.

(** The text under which a host comes back: an IP address in the standard
    library's notation. *)
Definition canonical_host (host : string) : string :=
  match ip_parse host with
  | Some ip => ip_text ip
  | None => host
  end.

Lemma build_udp_packet_eq host port data :
  build_udp_packet host port data =
  if bool_decide (ip_parse host = None) && (255 <? str_len host) then Err UdpHostTooLong
  else Ok (udp_prefix host ++ be_bytes 2 port ++ data).
Proof.
  unfold build_udp_packet, udp_prefix. fold (str_len host).
  destruct (ip_parse host) as [ip|] eqn:Hip; cbn [mbind result_bind].
  - rewrite bool_decide_eq_false_2 by done. done.
  - rewrite bool_decide_eq_true_2 by done. cbn [andb].
    change (u_max 8) with 255. by destruct (Z.ltb_spec 255 (str_len host)).
Qed.

Lemma parse_udp_host_ip ip z :
  ip_ok ip ->
  parse_udp_host ([byte_of 0; byte_of 0; byte_of 0] ++ ip_bytes ip ++ z)
  = Ok (ip_text ip, length ([byte_of 0; byte_of 0; byte_of 0] ++ ip_bytes ip)).
Proof.
  intros Hip. unfold parse_udp_host. destruct ip as [o|o]; cbn in Hip;
    cbn [ip_bytes app lookup list_lookup ok_or mbind result_bind]; rewrite byte_val_of;
    change (1 mod 256) with 1; change (4 mod 256) with 4; cbn [Z.eqb Pos.eqb].
  - erewrite (get_range_app [byte_of 0; byte_of 0; byte_of 0; byte_of 1] o z); [|done|cbn; lia].
    cbn. by rewrite Hip.
  - erewrite (get_range_app [byte_of 0; byte_of 0; byte_of 0; byte_of 4] o z); [|done|cbn; lia].
    cbn. by rewrite Hip.
Qed.

Lemma parse_udp_host_prefix host z :
  str_ok host -> (ip_parse host = None -> str_len host <= 255) ->
  parse_udp_host (udp_prefix host ++ z) = Ok (canonical_host host, length (udp_prefix host)).
Proof.
  intros Hok Hlen. unfold udp_prefix, canonical_host.
  destruct (ip_parse host) as [ip|] eqn:Hip; rewrite <-app_assoc.
  { apply parse_udp_host_ip. by eapply ip_parse_ok. }
  specialize (Hlen eq_refl). unfold parse_udp_host.
  cbn [app lookup list_lookup ok_or mbind result_bind]. rewrite !byte_val_of.
  change (3 mod 256) with 3. cbn [Z.eqb Pos.eqb].
  rewrite Z.mod_small by (unfold str_len in *; lia).
  erewrite (get_range_app [byte_of 0; byte_of 0; byte_of 0; byte_of 3; byte_of (str_len host)]
    (str_bytes host) z); [|done|unfold str_len; cbn; lia].
  cbn [ok_or mbind result_bind]. rewrite from_utf8_str_bytes by done.
  cbn. do 2 f_equal. unfold str_len. lia.
Qed.

(** ** Properties *)

(** C33. The two halves of the SOCKS5 implementation work together: what the
    egress client sends for a target makes the server negotiate and read
    exactly the request to connect to that target, and the client accepts the
    server's messages, consuming them completely, so that the first byte of
    the tunnel is the next one in both directions. *)
Theorem socks5_handshake {R W} `{AsyncReadLaws R} `{AsyncWriteLaws W}
    (host : string) (port : Z) (bind : SocketAddr) :
  str_ok host -> str_len host <= 255 -> in_u 16 port -> ip_ok (sa_ip bind) ->
  exists c1 c2 s1 s2,
    exchange (R := R) (W := W) negotiate_no_auth c1 (Ok tt) s1
    /\ exchange (R := R) (W := W) read_request c2
         (Ok {| command := Connect; req_host := host; req_port := port |}) []
    /\ exchange (R := R) (W := W) (reply Succeeded bind) [] (Ok tt) s2
    /\ exchange (R := R) (W := W) (socks5_client host port) (s1 ++ s2) (Ok tt) (c1 ++ c2).
Proof.
  intros Hok Hl Hp Hb.
  exists [byte_of 5; byte_of 1; byte_of 0], (request_bytes host port), [byte_of 5; byte_of 0],
    (reply_bytes Succeeded bind). split_and!.
  - exact (negotiate_exchange [byte_of 0] ltac:(done)).
  - by apply request_exchange.
  - apply reply_exchange.
  - by apply client_accepts.
Qed.

Lemma socks5_handshake_witness :
  exists c1 c2 s1 s2,
    exchange (R := Segments) (W := ScriptedWriter) negotiate_no_auth c1 (Ok tt) s1
    /\ exchange (R := Segments) (W := ScriptedWriter) read_request c2
         (Ok {| command := Connect; req_host := "example.com"; req_port := 9443 |}) []
    /\ exchange (R := Segments) (W := ScriptedWriter)
         (reply Succeeded {| sa_ip := V4 [x7f; x00; x00; x01]; sa_port := 0 |}) [] (Ok tt) s2
    /\ exchange (R := Segments) (W := ScriptedWriter)
         (socks5_client "example.com" 9443) (s1 ++ s2) (Ok tt) (c1 ++ c2).
Proof.
  apply socks5_handshake; try reflexivity; vm_compute; intuition congruence.
Defined.

(** Without an offer of no authentication the server says so on the wire
    and stops; with one it accepts it, in both cases after reading exactly
    the client's greeting. *)
Theorem socks5_negotiation {R W} `{AsyncReadLaws R} `{AsyncWriteLaws W} (methods : list byte) :
  len methods <= 255 ->
  let offered := bool_decide (byte_of 0 ∈ methods) in
  exchange (R := R) (W := W) negotiate_no_auth
    ([byte_of 5] ++ [byte_of (len methods)] ++ methods)
    (if offered then Ok tt else Err NoAuthNotOffered)
    [byte_of 5; byte_of (if offered then 0 else 255)].
Proof.
  intros Hm offered.
  replace offered with (existsb (fun b => byte_val b =? 0) methods).
  { by apply negotiate_exchange. }
  unfold offered. case_bool_decide as Hin.
  - apply existsb_exists. exists (byte_of 0). split; [by apply list_elem_of_In|done].
  - apply not_true_iff_false. intros (b & Hb & Hz%Z.eqb_eq)%existsb_exists.
    apply Hin, list_elem_of_In. by rewrite <-Hz, byte_of_val.
Qed.

Lemma socks5_negotiation_witness :
  exchange (R := Segments) (W := ScriptedWriter) negotiate_no_auth
    ([byte_of 5] ++ [byte_of (len [x02; x01])] ++ [x02; x01])
    (Err NoAuthNotOffered) [byte_of 5; byte_of 255].
Proof. apply (socks5_negotiation [x02; x01]). vm_compute. congruence. Defined.

(** A SOCKS UDP datagram built for a host, port and payload parses back
    to them, with an IP address in its canonical notation; building fails
    only for a name of more than 255 bytes. *)
Theorem udp_packet_round_trip (host : string) (port : Z) (data : list byte) :
  str_ok host -> in_u 16 port ->
  (exists p, build_udp_packet host port data = Ok p
             /\ parse_udp_packet p =
                Ok {| udp_host := canonical_host host; udp_port := port; udp_data := data |})
  \/ (build_udp_packet host port data = Err UdpHostTooLong
      /\ ip_parse host = None /\ 255 < str_len host).
Proof.
  intros Hok Hp. rewrite build_udp_packet_eq. case_bool_decide as Hip; cbn [andb];
    [destruct (Z.ltb_spec 255 (str_len host)) as [|Hl]; [by right|]|]; left;
    (eexists; split; [done|]).
  all: assert (Hh : parse_udp_host (udp_prefix host ++ be_bytes 2 port ++ data)
                    = Ok (canonical_host host, length (udp_prefix host)))
         by (apply parse_udp_host_prefix; done).
  all: unfold parse_udp_packet; rewrite Hh.
  all: destruct (Z.ltb_spec (len (udp_prefix host ++ be_bytes 2 port ++ data)) 4) as [Hlt|_];
         [rewrite !length_app, length_be_bytes in Hlt; unfold udp_prefix in Hlt;
          rewrite length_app in Hlt; cbn in Hlt; lia|].
  all: assert (Hz : forall i, (i < 3)%nat -> byte_at (udp_prefix host ++ be_bytes 2 port ++ data) i = 0)
         by (intros [|[|[|]]] ?; try lia; unfold byte_at, udp_prefix; cbn; by rewrite be_value_byte).
  all: rewrite !Hz by lia; cbn [Z.eqb negb orb mbind result_bind].
  all: rewrite get_range_app; [|done|by rewrite length_be_bytes]; cbn [ok_or mbind result_bind].
  all: rewrite be_value_u by done; rewrite <-drop_drop, drop_app_length;
       replace 2%nat with (length (be_bytes 2 port)) by apply length_be_bytes;
       by rewrite drop_app_length.
Qed.

Lemma udp_packet_round_trip_witness :
  (exists p, build_udp_packet "127.0.0.1" 5353 [x2a] = Ok p
             /\ parse_udp_packet p =
                Ok {| udp_host := canonical_host "127.0.0.1"; udp_port := 5353; udp_data := [x2a] |})
  \/ (build_udp_packet "127.0.0.1" 5353 [x2a] = Err UdpHostTooLong
      /\ ip_parse "127.0.0.1" = None /\ 255 < str_len "127.0.0.1").
Proof. apply udp_packet_round_trip; vm_compute; intuition congruence. Defined.
