(* ===== verification/Egress.v ===== *)
(** * Egress: how a peer reaches a target

    [crates/ssh-proxy/src/remote/egress.rs] and
    [remote/egress/proxy_endpoint.rs]: direct connections, and connections
    through an upstream HTTP or SOCKS5 proxy given as a URL.  Name resolution
    and the connect system call are parameters; the handshakes run over the
    connection they return. *)
From S2P Require Import Prelude RustStr IpAddr Stream Socks5.

Import Strings.Ascii.

(** ** Proxy endpoints *)

Record ProxyEndpoint := { ep_host : string; ep_port : Z }.

Inductive EndpointError :=
| MissingHost
| InvalidBracketedIpv6
| InvalidPort
| InvalidIpv6Suffix.

(** The host and the port of an authority without user info. *)
Definition parse_host_port (authority : string) (default_port : Z) :
    result EndpointError (string * Z) :=
  match strip_prefix "[" authority with
  | Some rest =>
    '(host, tail) ← ok_or InvalidBracketedIpv6 (split_once "]" rest);
    match strip_prefix ":" tail with
    | Some port => port ← ok_or InvalidPort (parse_uint 16 port); Ok (host, port)
    | None => if bool_decide (tail = EmptyString) then Ok (host, default_port)
              else Err InvalidIpv6Suffix
    end
  | None =>
    match rsplit_once ":" authority with
    | Some (host, port) =>
      if contains_char ":" host then Ok (authority, default_port)
      else port ← ok_or InvalidPort (parse_uint 16 port); Ok (host, port)
    | None => Ok (authority, default_port)
    end
  end.

Definition parse_proxy_endpoint (value : string) (default_port : Z) :
    result EndpointError ProxyEndpoint :=
  let authority := (split_at_any ["/"; "?"; "#"]%char value).1 in
  let authority := match rsplit_once "@" authority with
                   | Some (_, endpoint) => endpoint
                   | None => authority
                   end in
  if bool_decide (authority = EmptyString) then Err MissingHost
  else
    '(host, port) ← parse_host_port authority default_port;
    if bool_decide (host = EmptyString) then Err MissingHost
    else Ok {| ep_host := host; ep_port := port |}.

(** ** Connecting *)

Inductive attempt (C : Type) := Connected (c : C) | Refused | AttemptTimedOut.
Arguments Connected {C}.
Arguments Refused {C}.
Arguments AttemptTimedOut {C}.

Inductive ProxyKind := HttpProxy | SocksProxy.

Inductive EgressError :=
| ResolveFailed
| NoAddresses
| AllAttemptsFailed (attempts : list (SocketAddr * bool))
| EndpointInvalid (e : EndpointError)
| HandshakeTimedOut (k : ProxyKind)
| UnsupportedScheme
| HttpIo (e : io_error)
| HttpConnectFailed
| SocksHandshake (e : SocksError).

Definition is_ipv4 (a : SocketAddr) : bool :=
  match sa_ip a with
  | V4 _ => true
  | V6 _ => false
  end.

#[global] Instance SocketAddr_eq_dec : EqDecision SocketAddr.
Proof. solve_decision. Defined.

(** [addrs.sort_by_key(..)]: the sort is stable, and its key has two values. *)
Definition ipv4_first (addrs : list SocketAddr) : list SocketAddr :=
  List.filter is_ipv4 addrs ++ List.filter (fun a => negb (is_ipv4 a)) addrs.

(** [Vec::dedup]: consecutive repetitions only. *)
Fixpoint dedup {A} `{EqDecision A} (l : list A) : list A :=
  match l with
  | [] => []
  | x :: l' =>
    match l' with
    | [] => [x]
    | y :: _ => if decide (x = y) then dedup l' else x :: dedup l'
    end
  end.

Section egress.
Context {R W : Type} `{AsyncRead R} `{AsyncWrite W}.
Abbreviation Conn := (TcpStream R W).
(** [lookup_host], [TcpStream::connect] within its timeout, and whether the
    proxy handshake ran into its own. *)
Context (lookup_host : string -> Z -> option (list SocketAddr)).
Context (connect : SocketAddr -> attempt Conn).
Context (elapsed : ProxyKind -> bool).

(** The loop over the addresses; [errors] says for each failed attempt
    whether it timed out. *)
Fixpoint try_addrs (errors : list (SocketAddr * bool)) (addrs : list SocketAddr) :
    result EgressError Conn :=
  match addrs with
  | [] => Err (AllAttemptsFailed errors)
  | addr :: addrs =>
    match connect addr with
    | Connected c => Ok c
    | Refused => try_addrs (errors ++ [(addr, false)]) addrs
    | AttemptTimedOut => try_addrs (errors ++ [(addr, true)]) addrs
    end
  end.

Definition connect_direct_tcp (host : string) (port : Z) : result EgressError Conn :=
  addrs ← ok_or ResolveFailed (lookup_host host port);
  let addrs := dedup (ipv4_first addrs) in
  if bool_decide (addrs = []) then Err NoAddresses
  else try_addrs [] addrs.

Definition CRLF2 : list byte := [x0d; x0a; x0d; x0a].

Definition ends_with (l suffix : list byte) : bool :=
  bool_decide (drop (length l - length suffix) l = suffix).

(** The loop that reads the response head, one byte at a time; one unit of
    fuel per byte below the limit of 8192. *)
Fixpoint read_head (fuel : nat) (response : list byte) : sr Conn io_error (list byte) :=
  match fuel with
  | O => mret response
  | S fuel =>
    bs ← recv (read_some 1);
    match bs with
    | [] => mret response
    | b :: _ =>
      let response := response ++ [b] in
      if ends_with response CRLF2 then mret response else read_head fuel response
    end
  end.

Definition http_request (host : string) (port : Z) : list byte :=
  str_bytes ("CONNECT " +:+ host +:+ ":" +:+ display_uint port +:+ " HTTP/1.1" +:+
             str_of_bytes [x0d; x0a] +:+ "Host: " +:+ host +:+ ":" +:+ display_uint port +:+
             str_of_bytes CRLF2).

(** The prefixes are ASCII, so they can be looked for in the bytes: the
    lossy decoding keeps ASCII bytes and makes none. *)
Definition http_success (response : list byte) : bool :=
  bool_decide (take 10 response = str_bytes "HTTP/1.1 2")
  || bool_decide (take 10 response = str_bytes "HTTP/1.0 2").

(** [connect_via_http_proxy], once connected. *)
Definition http_client (host : string) (port : Z) : sr Conn EgressError unit :=
  _ ← sr_map_err HttpIo (send (write_all (http_request host port)));
  response ← sr_map_err HttpIo (read_head (Z.to_nat 8192) []);
  if http_success response then mret tt else sr_fail HttpConnectFailed.

(** Running a handshake on a fresh connection and handing it on. *)
Definition on_connection {E} (f : E -> EgressError) (m : sr Conn E unit) (c : Conn) :
    result EgressError Conn :=
  match m c with
  | (Ok _, c) => Ok c
  | (Err e, _) => Err (f e)
  end.

Definition connect_via_http_proxy (addr host : string) (port : Z) : result EgressError Conn :=
  endpoint ← map_err EndpointInvalid (parse_proxy_endpoint addr 8080);
  c ← connect_direct_tcp (ep_host endpoint) (ep_port endpoint);
  on_connection id (http_client host port) c.

Definition connect_via_socks5_proxy (addr host : string) (port : Z) : result EgressError Conn :=
  endpoint ← map_err EndpointInvalid (parse_proxy_endpoint addr 1080);
  c ← connect_direct_tcp (ep_host endpoint) (ep_port endpoint);
  on_connection SocksHandshake (socks5_client host port) c.

Definition connect_via_upstream_proxy (proxy host : string) (port : Z) : result EgressError Conn :=
  match strip_prefix "http://" proxy with
  | Some addr =>
    if elapsed HttpProxy then Err (HandshakeTimedOut HttpProxy)
    else connect_via_http_proxy addr host port
  | None =>
    match (match strip_prefix "socks5h://" proxy with
           | Some addr => Some addr
           | None => strip_prefix "socks5://" proxy
           end) with
    | Some addr =>
      if elapsed SocksProxy then Err (HandshakeTimedOut SocksProxy)
      else connect_via_socks5_proxy addr host port
    | None => Err UnsupportedScheme
    end
  end.

Definition connect_tcp (host : string) (port : Z) (egress_proxy : option string) :
    result EgressError Conn :=
  match egress_proxy with
  | Some proxy => connect_via_upstream_proxy proxy host port
  | None => connect_direct_tcp host port
  end.
End egress.

(** ** Direct connections *)

Definition connects {C} (a : attempt C) : Prop :=
  match a with
  | Connected _ => True
  | _ => False
  end.

Lemma elem_of_dedup {A} `{EqDecision A} (l : list A) x : x ∈ dedup l <-> x ∈ l.
Proof.
  induction l as [|a l IH]; [done|]. destruct l as [|b l]; [done|].
  change (dedup (a :: b :: l)) with (if decide (a = b) then dedup (b :: l) else a :: dedup (b :: l)).
  case_decide; subst; set_solver.
Qed.

Lemma elem_of_ipv4_first l a : a ∈ ipv4_first l <-> a ∈ l.
Proof.
  unfold ipv4_first. rewrite elem_of_app, !list_elem_of_In, !filter_In.
  destruct (is_ipv4 a); naive_solver.
Qed.

(** IPv4 addresses stay in front of IPv6 ones. *)
Definition v4_before_v6 (l : list SocketAddr) : Prop :=
  forall pre a post, l = pre ++ a :: post -> is_ipv4 a = false ->
  Forall (fun b => is_ipv4 b = false) post.

Lemma v4_before_v6_cons a l :
  v4_before_v6 (a :: l) <->
  v4_before_v6 l /\ (is_ipv4 a = false -> Forall (fun b => is_ipv4 b = false) l).
Proof.
  split.
  - intros Hl. split; [|by apply (Hl [] a l)]. intros pre b post ->. by apply (Hl (a :: pre)).
  - intros [Hl Ha] pre b post E Hb. destruct pre as [|c pre]; simplify_eq/=; [by apply Ha|].
    by apply (Hl pre b post).
Qed.

Lemma ipv4_first_ordered l : v4_before_v6 (ipv4_first l).
Proof.
  unfold ipv4_first. induction l as [|a l IH]; cbn.
  { intros [] ? ? ?; discriminate. }
  destruct (is_ipv4 a) eqn:Ha; cbn [app negb].
  - apply v4_before_v6_cons. split; [done|congruence].
  - clear IH. set (l4 := List.filter is_ipv4 l).
    assert (H4 : Forall (fun b => is_ipv4 b = true) l4).
    { apply Forall_forall. intros b Hb. unfold l4 in Hb.
      rewrite list_elem_of_In, filter_In in Hb. apply Hb. }
    assert (H6 : Forall (fun b => is_ipv4 b = false)
                   (a :: List.filter (fun a => negb (is_ipv4 a)) l)).
    { constructor; [done|]. apply Forall_forall. intros b Hb.
      rewrite list_elem_of_In, filter_In in Hb. by apply negb_true_iff, Hb. }
    clearbody l4. induction H4 as [|b l4 Hb H4 IH]; cbn [app].
    + intros pre b post E _. rewrite E in H6. by apply Forall_app in H6 as [_ [_ ?]%Forall_cons_iff].
    + apply v4_before_v6_cons. split; [done|congruence].
Qed.

Lemma dedup_ordered l : v4_before_v6 l -> v4_before_v6 (dedup l).
Proof.
  induction l as [|a l IH]; [done|]. intros [Hl Ha]%v4_before_v6_cons.
  destruct l as [|b l].
  { apply v4_before_v6_cons. split; [|done]. intros [] ? ? ?; discriminate. }
  change (dedup (a :: b :: l)) with (if decide (a = b) then dedup (b :: l) else a :: dedup (b :: l)).
  case_decide; [by apply IH|]. apply v4_before_v6_cons. split; [by apply IH|].
  intros Hf%Ha. rewrite Forall_forall in Hf |- *. intros x Hx. rewrite elem_of_dedup in Hx. by apply Hf.
Qed.

Section direct.
Context {R W : Type} `{AsyncRead R} `{AsyncWrite W}.
Context (connect : SocketAddr -> attempt (TcpStream R W)).

Lemma try_addrs_spec addrs : forall errors,
  match try_addrs connect errors addrs with
  | Ok c => exists pre a post, addrs = pre ++ a :: post /\ connect a = Connected c
                               /\ Forall (fun b => ~ connects (connect b)) pre
  | Err _ => Forall (fun b => ~ connects (connect b)) addrs
  end.
Proof.
  induction addrs as [|a addrs IH]; intros errors; cbn [try_addrs]; [done|].
  destruct (connect a) eqn:Ha.
  - exists [], a, addrs. done.
  - specialize (IH (errors ++ [(a, false)])). destruct (try_addrs _ _ _).
    + destruct IH as (pre & b & post & -> & ? & ?). exists (a :: pre), b, post.
      split_and!; [done..|]. constructor; [rewrite Ha; by intros []|done].
    + constructor; [rewrite Ha; by intros []|done].
  - specialize (IH (errors ++ [(a, true)])). destruct (try_addrs _ _ _).
    + destruct IH as (pre & b & post & -> & ? & ?). exists (a :: pre), b, post.
      split_and!; [done..|]. constructor; [rewrite Ha; by intros []|done].
    + constructor; [rewrite Ha; by intros []|done].
Qed.
End direct.

(** A direct connection is made to a resolved address that answers, an
    IPv6 address only when no resolved IPv4 address answers; and it fails
    only when the name does not resolve or no resolved address answers. *)
Theorem connect_direct_tcp_spec {R W} `{AsyncRead R} `{AsyncWrite W}
    (lookup_host : string -> Z -> option (list SocketAddr))
    (connect : SocketAddr -> attempt (TcpStream R W)) (host : string) (port : Z)
    (addrs : list SocketAddr) :
  lookup_host host port = Some addrs ->
  match connect_direct_tcp lookup_host connect host port with
  | Ok c => exists a, a ∈ addrs /\ connect a = Connected c
      /\ (is_ipv4 a = false ->
          forall b, b ∈ addrs -> is_ipv4 b = true -> ~ connects (connect b))
  | Err _ => forall b, b ∈ addrs -> ~ connects (connect b)
  end.
Proof.
  intros Hl. unfold connect_direct_tcp. rewrite Hl. cbn [ok_or mbind result_bind].
  assert (Hin : forall b, b ∈ dedup (ipv4_first addrs) <-> b ∈ addrs).
  { intros b. by rewrite elem_of_dedup, elem_of_ipv4_first. }
  case_bool_decide as Hnil.
  { intros b Hb. rewrite <-Hin, Hnil in Hb. by apply not_elem_of_nil in Hb. }
  pose proof (try_addrs_spec connect (dedup (ipv4_first addrs)) []) as Ht.
  pose proof (dedup_ordered _ (ipv4_first_ordered addrs)) as Hord.
  destruct (try_addrs _ _ _) as [c|e].
  - destruct Ht as (pre & a & post & E & Ha & Hpre). exists a. rewrite <-Hin, E.
    split_and!; [set_solver|done|]. intros Ha6 b Hb Hb4. apply Hin in Hb. rewrite E in Hb.
    specialize (Hord pre a post E Ha6). rewrite Forall_forall in Hord, Hpre.
    apply elem_of_app in Hb as [Hb|[->|Hb]%elem_of_cons]; [by apply Hpre|congruence|].
    apply Hord in Hb. congruence.
  - intros b Hb. rewrite <-Hin in Hb. rewrite Forall_forall in Ht. by apply Ht.
Qed.

Lemma connect_direct_tcp_spec_witness :
  let a4 := {| sa_ip := V4 [x7f; x00; x00; x01]; sa_port := 80 |} in
  let a6 := {| sa_ip := V6 (repeat x00 16); sa_port := 80 |} in
  let link := MkTcp (MkSegments [] AtEof) (MkWriter [] [] 0) in
  match connect_direct_tcp (fun _ _ => Some [a6; a4; a4])
          (fun a => if is_ipv4 a then Refused else Connected link) "localhost" 80 with
  | Ok c => exists a, a ∈ [a6; a4; a4]
      /\ (if is_ipv4 a then Refused else Connected link) = Connected c
      /\ (is_ipv4 a = false -> forall b, b ∈ [a6; a4; a4] -> is_ipv4 b = true ->
          ~ connects (if is_ipv4 b then Refused else Connected link))
  | Err _ => forall b, b ∈ [a6; a4; a4] ->
      ~ connects (if is_ipv4 b then Refused else Connected link)
  end.
Proof.
  intros a4 a6 link.
  apply (connect_direct_tcp_spec (fun _ _ => Some [a6; a4; a4])
    (fun a => if is_ipv4 a then Refused else Connected link) "localhost" 80).
  reflexivity.
Defined.

(** ** Proxy handshakes *)

(** A response head: it ends with the first empty line. *)
Definition complete_head (x : list byte) : Prop :=
  ends_with x CRLF2 = true
  /\ forall p, p `prefix_of` x -> p <> x -> ends_with p CRLF2 = false.

Section handshake.
Context {R W : Type} `{AsyncReadLaws R} `{AsyncWriteLaws W}.

Lemma read_some_one b :
  exchange (R := R) (W := W) (recv (read_some 1)) [b] (Ok [b]) [].
Proof.
  intros s y Hr Hl. destruct (read_some_ok 1 (inbound s)) as (k & r' & ? & ? & ? & Hs & Hr' & Hf).
  { lia. } { by rewrite Hr. }
  assert (k = 1) as -> by lia. rewrite Hr in Hs, Hr'. cbn in Hs, Hr'.
  exists (MkTcp r' (outbound s)). unfold recv. rewrite Hs, app_nil_r. cbn. by rewrite Hf.
Qed.

Lemma read_head_exchange x : forall fuel acc,
  x <> [] -> (length x <= fuel)%nat -> complete_head (acc ++ x) ->
  exchange (R := R) (W := W) (read_head fuel acc) x (Ok (acc ++ x)) [].
Proof.
  induction x as [|b x IH]; intros fuel acc Hx Hf Hc; [done|].
  destruct fuel as [|fuel]; [cbn in Hf; lia|]. cbn [read_head].
  apply (exchange_bind_r _ _ [b] x [b]); [apply read_some_one|].
  replace (acc ++ b :: x) with ((acc ++ [b]) ++ x) in * by by rewrite <-app_assoc.
  destruct x as [|c x].
  - rewrite app_nil_r in *. destruct Hc as [-> _]. apply exchange_ret.
  - rewrite (proj2 Hc (acc ++ [b])).
    + apply IH; [done|cbn in *; lia|done].
    + by eexists.
    + intros E. apply (f_equal length) in E. rewrite !length_app in E. cbn in E. lia.
Qed.
End handshake.

(** The HTTP CONNECT handshake of the egress client sends its request
    and reads exactly the response head, up to and including its empty line
    and not one byte of the tunnel behind it; it accepts the 2xx status of an
    HTTP/1.0 or 1.1 response and nothing else. *)
Theorem http_client_exchange {R W} `{AsyncReadLaws R} `{AsyncWriteLaws W}
    (host : string) (port : Z) (head : list byte) :
  complete_head head -> len head <= 8192 ->
  exchange (R := R) (W := W) (http_client host port) head
    (if http_success head then Ok tt else Err HttpConnectFailed) (http_request host port).
Proof.
  intros Hc Hl. unfold http_client. rewrite <-(app_nil_r (http_request host port)) at 2.
  eapply exchange_bind_w.
  { apply (exchange_map_err HttpIo _ _ (Ok tt)), exchange_write_all. }
  cbn beta. rewrite <-(app_nil_r head) at 1.
  eapply exchange_bind_r with (v1 := head).
  { apply (exchange_map_err HttpIo _ _ (Ok head)), (read_head_exchange head _ []); [|lia|done].
    intros ->. by destruct Hc. }
  destruct (http_success head); [apply exchange_ret|apply exchange_fail].
Qed.

(** A bounded form of [complete_head], for concrete heads. *)
Lemma complete_head_check x :
  ends_with x CRLF2 = true ->
  forallb (fun n => negb (ends_with (take n x) CRLF2)) (seq 0 (length x)) = true ->
  complete_head x.
Proof.
  intros Hx Hp. split; [done|]. intros p [z ->] Hne.
  rewrite forallb_forall in Hp. specialize (Hp (length p)).
  rewrite take_app_length in Hp. apply negb_true_iff, Hp, in_seq.
  rewrite length_app. destruct z; [by rewrite app_nil_r in Hne|]. cbn. lia.
Qed.

Definition sample_head : list byte := str_bytes "HTTP/1.1 200 OK" ++ [x0d; x0a; x0d; x0a].

Lemma http_client_exchange_witness :
  exchange (R := Segments) (W := ScriptedWriter) (http_client "example.com" 8443) sample_head
    (Ok tt) (http_request "example.com" 8443).
Proof.
  apply (http_client_exchange "example.com" 8443 sample_head).
  - apply complete_head_check; vm_compute; reflexivity.
  - vm_compute. congruence.
Defined.

(** ** Proxy URLs *)

Definition endpoint_text (bracketed : bool) (host : string) (port : option Z) : string :=
  (if bracketed then "[" +:+ host +:+ "]" else host)
  +:+ match port with Some p => ":" +:+ display_uint p | None => EmptyString end.

Definition userinfo_text (user : option string) : string :=
  match user with Some u => u +:+ "@" | None => EmptyString end.

(** The characters that end the authority, and those that end its parts. *)
Definition plain_host (bracketed : bool) (host : string) : bool :=
  str_all (not_in ["/"; "?"; "#"; "@"]%char) host
  && str_all (not_in (if bracketed then ["]"] else [":"; "["])%char) host
  && negb (String.eqb host EmptyString).

Definition url_suffix (s : string) : bool :=
  match s with
  | EmptyString => true
  | String c _ => existsb (Ascii.eqb c) ["/"; "?"; "#"]%char
  end.

Lemma not_in_sub (l l' : list ascii) s :
  (forall c, existsb (Ascii.eqb c) l' = true -> existsb (Ascii.eqb c) l = true) ->
  str_all (not_in l) s = true -> str_all (not_in l') s = true.
Proof.
  intros Hl. apply str_all_impl. intros c. unfold not_in.
  destruct (existsb (Ascii.eqb c) l') eqn:E; [|done]. by rewrite (Hl c E).
Qed.

Lemma contains_char_false c s : str_all (not_in [c]) s = true -> contains_char c s = false.
Proof. intros Hs. unfold contains_char. by rewrite rsplit_once_None. Qed.

Lemma endpoint_text_all (p : ascii -> bool) bracketed host port :
  str_all p host = true -> forallb p ["["; "]"; ":"; "0"; "1"; "2"; "3"; "4"; "5"; "6"; "7"; "8"; "9"]%char = true ->
  match port with Some p => 0 <= p | None => True end ->
  str_all p (endpoint_text bracketed host port) = true.
Proof.
  intros Hh Hp Hport. pose proof Hp as Hd. cbn [forallb] in Hp.
  apply andb_true_iff in Hp as [H1 Hp]. apply andb_true_iff in Hp as [H2 Hp].
  apply andb_true_iff in Hp as [H3 Hp].
  unfold endpoint_text. rewrite str_all_append. apply andb_true_iff. split.
  - destruct bracketed; [|done]. rewrite !str_all_append, Hh. cbn. by rewrite H1, H2.
  - destruct port as [z|]; [|done]. rewrite str_all_append. cbn [str_all]. rewrite H3.
    by apply display_uint_all.
Qed.

Lemma parse_host_port_text bracketed host port d :
  plain_host bracketed host = true ->
  match port with Some p => in_u 16 p | None => True end ->
  parse_host_port (endpoint_text bracketed host port) d
  = Ok (host, default d port).
Proof.
  unfold plain_host. intros [[_ Hh]%andb_true_iff Hne]%andb_true_iff Hp.
  apply negb_true_iff, String.eqb_neq in Hne.
  assert (Hpu : forall p, in_u 16 p -> parse_uint 16 (display_uint p) = Some p).
  { intros p Hu. apply parse_uint_display. unfold in_u, u_max in *. lia. }
  unfold parse_host_port, endpoint_text. destruct bracketed.
  - rewrite !str_append_assoc, strip_prefix_append. cbn [ok_or mbind result_bind].
    change ("]" +:+ ?s) with (String "]" s). rewrite split_once_char by done.
    cbn [ok_or mbind result_bind]. destruct port as [p|].
    + rewrite strip_prefix_append, Hpu by done. done.
    + done.
  - assert (Hb : strip_prefix "[" (host +:+ match port with Some p => ":" +:+ display_uint p
                                            | None => EmptyString end) = None).
    { destruct host as [|c host]; [done|]. cbn in Hh. apply andb_true_iff in Hh as [Hc _].
      unfold not_in in Hc. cbn in Hc. 
      change (String c host +:+ ?t) with (String c (host +:+ t)). cbn [strip_prefix].
      rewrite Ascii.eqb_sym. destruct (Ascii.eqb c "["); [|done].
      by destruct (Ascii.eqb c ":"). }
    rewrite Hb. assert (Hc : str_all (not_in [":"]%char) host = true).
    { eapply not_in_sub; [|done]. intros c. cbn. by destruct (Ascii.eqb c ":"). }
    destruct port as [p|].
    + change (":" +:+ ?s) with (String ":" s).
      rewrite rsplit_once_append by (apply display_uint_all; [apply Hp|done]).
      by rewrite contains_char_false, Hpu by done.
    + by rewrite str_append_nil_r, rsplit_once_None.
Qed.

(** A proxy URL's authority is taken apart as written: for every host
    without delimiters (a name, an IPv4 address, or a bracketed IPv6 address),
    optional user info, optional port and any path, query or fragment,
    [parse_proxy_endpoint] returns the host and the port, or the default port
    when there is none. *)
Theorem parse_proxy_endpoint_text (user : option string) (bracketed : bool) (host : string)
    (port : option Z) (suffix : string) (d : Z) :
  plain_host bracketed host = true -> url_suffix suffix = true ->
  match port with Some p => in_u 16 p | None => True end ->
  match user with Some u => str_all (not_in ["/"; "?"; "#"]%char) u = true | None => True end ->
  parse_proxy_endpoint (userinfo_text user +:+ endpoint_text bracketed host port +:+ suffix) d
  = Ok {| ep_host := host; ep_port := default d port |}.
Proof.
  intros Hh Hs Hp Hu.
  pose proof (parse_host_port_text bracketed host port d Hh Hp) as Hparse.
  unfold plain_host in Hh. apply andb_true_iff in Hh as [[Hd _]%andb_true_iff Hne].
  apply negb_true_iff, String.eqb_neq in Hne.
  assert (Hport : match port with Some p => 0 <= p | None => True end)
    by (destruct port; [apply Hp|done]).
  set (text := endpoint_text bracketed host port) in *.
  assert (Hat : str_all (not_in ["@"]%char) text = true).
  { apply endpoint_text_all; [|done..]. eapply not_in_sub; [|done]. intros c. cbn.
    destruct (Ascii.eqb c "@"); [|done]. by rewrite !orb_true_r. }
  assert (Hdel : str_all (not_in ["/"; "?"; "#"]%char) (userinfo_text user +:+ text) = true).
  { rewrite str_all_append. apply andb_true_iff. split.
    - destruct user; [|done]. unfold userinfo_text. rewrite str_all_append. by rewrite Hu.
    - apply endpoint_text_all; [|done..]. eapply not_in_sub; [|done]. intros c. cbn.
      destruct (Ascii.eqb c "/"), (Ascii.eqb c "?"), (Ascii.eqb c "#"); done. }
  unfold parse_proxy_endpoint. rewrite <-str_append_assoc, split_at_any_append; [|done|].
  2: by destruct suffix.
  cbn [fst]. set (authority := match rsplit_once _ _ with Some _ => _ | None => _ end).
  assert (authority = text) as ->.
  { unfold authority. destruct user as [u|]; unfold userinfo_text.
    - rewrite str_append_assoc. change ("@" +:+ ?s) with (String "@" s).
      by rewrite rsplit_once_append.
    - by rewrite rsplit_once_None. }
  rewrite bool_decide_eq_false_2.
  { rewrite Hparse. cbn [mbind result_bind].
    by rewrite bool_decide_eq_false_2. }
  unfold text, endpoint_text. destruct bracketed; [done|]. by destruct host.
Qed.

Lemma parse_proxy_endpoint_text_witness :
  parse_proxy_endpoint
    (userinfo_text (Some "user:pass"%string) +:+ endpoint_text true "::1" (Some 1080) +:+ "/p?x=1") 8080
  = Ok {| ep_host := "::1"; ep_port := 1080 |}.
Proof.
  apply (parse_proxy_endpoint_text (Some "user:pass"%string) true "::1" (Some 1080) "/p?x=1" 8080);
    vm_compute; intuition congruence.
Defined.
