(* ===== verification/Http.v ===== *)
(** * The HTTP proxy: requests and response heads

    [crates/ssh-proxy-transport/src/proxy/http.rs] reads a proxy request
    (CONNECT, or an absolute-form request that is rewritten for the origin
    server) and rewrites response heads.  Hop-by-hop headers are removed in
    both directions. *)
From S2P Require Import Prelude RustStr IpAddr Stream Socks5 Egress.

Import Strings.Ascii.

Inductive HttpRequestKind :=
| HttpConnect (host : string) (port : Z)
| HttpForward (host : string) (port : Z) (request : list byte).

Inductive HttpResponseBodyMode :=
| ModeContentLength (n : Z)
| ModeChunked
| ModeCloseDelimited
| ModeNoBody.

Inductive HttpError :=
| RequestIo (e : io_error)
| ClosedBeforeHeaders
| RequestHeadersTooLarge
| MissingTerminator
| HeadersNotUtf8
| MissingRequestLine
| MissingMethod
| MissingTarget
| MissingVersion
| InvalidRequestLine
| OnlyConnectOrAbsolute
| EmptyAuthority
| AuthorityInvalid (e : EndpointError)
| MissingStatusLine
| MissingResponseVersion
| InvalidStatusLine
| MissingResponseStatus
| InvalidResponseStatus
| ResponseHeadersTooLarge
| ResponseIo (e : io_error)
| HttpOutOfFuel.

Definition crlf : list byte := [x0d; x0a].

(** [s.split("\r\n")], on the bytes of [s]: the pattern is ASCII. *)
Fixpoint split_crlf_bytes (bs : list byte) : list (list byte) :=
  match bs with
  | [] => [[]]
  | b :: bs' =>
    match bs' with
    | c :: bs'' =>
      if bool_decide (b = x0d /\ c = x0a) then [] :: split_crlf_bytes bs''
      else
        match split_crlf_bytes bs' with
        | [] => [[b]]
        | h :: t => (b :: h) :: t
        end
    | [] => [[b]]
    end
  end.
Definition split_crlf (s : string) : list string :=
  (fun l => str_of_bytes l) <$> split_crlf_bytes (str_bytes s).

(** [http_header_end]: after the first empty line. *)
Fixpoint http_header_end (bs : list byte) : option nat :=
  if bool_decide (take 4 bs = CRLF2) then Some 4%nat
  else
    match bs with
    | [] => None
    | _ :: bs => S <$> http_header_end bs
    end.

Definition split_header (line : string) : option (string * string) :=
  '(name, value) ← split_once ":" line;
  Some (trim name, trim value).

Definition connection_header_tokens (headers : list string) : list string :=
  let fields := omap split_header headers in
  let values := (filter (fun nv => eq_ignore_ascii_case nv.1 "connection" = true) fields).*2 in
  let tokens := trim <$> (values ≫= split_char ",") in
  to_ascii_lowercase <$> filter (fun t => t <> EmptyString) tokens.

Definition is_static_hop_by_hop_header (name : string) : bool :=
  existsb (fun header => eq_ignore_ascii_case name header)
    ["connection"; "keep-alive"; "proxy-authenticate"; "proxy-authorization";
     "proxy-connection"; "te"; "trailer"; "upgrade"]%string.

Definition should_skip_forward_header (line : string) (connection_tokens : list string) : bool :=
  match split_header line with
  | None => false
  | Some (name, _) =>
    is_static_hop_by_hop_header name
    || existsb (fun token => eq_ignore_ascii_case name token) connection_tokens
  end.

Definition line_bytes (line : string) : list byte := str_bytes line ++ crlf.

(** The header lines that are kept, each with its line end, as both rewriting
    loops emit them. *)
Definition forward_lines (tokens header_lines : list string) : list byte :=
  concat (line_bytes <$>
    filter (fun line => should_skip_forward_header line tokens = false) header_lines).

Definition non_empty (line : string) : bool := negb (String.eqb line EmptyString).

(** ** Requests *)

Definition parse_host_port (authority : string) (default_port : Z) :
    result HttpError (string * Z) :=
  if bool_decide (authority = EmptyString) then Err EmptyAuthority
  else map_err AuthorityInvalid (Egress.parse_host_port authority default_port).

Record AbsoluteTarget := { at_host : string; at_port : Z; at_path : string }.

Definition parse_absolute_http_target (target : string) : option AbsoluteTarget :=
  rest ← strip_prefix "http://" target;
  let '(authority, path) := split_at_any ["/"; "?"]%char rest in
  let path := if bool_decide (path = EmptyString) then "/"%string else path in
  let path := if starts_with path "?" then "/" +:+ path else path in
  '(host, port) ← result_ok (parse_host_port authority 80);
  Some {| at_host := host; at_port := port; at_path := path |}.

(** What [HttpRequest::read_from] makes of the bytes it collected. *)
Definition parse_request (bs : list byte) : result HttpError HttpRequestKind :=
  header_end ← ok_or MissingTerminator (http_header_end bs);
  headers ← ok_or HeadersNotUtf8 (from_utf8 (take header_end bs));
  let lines := split_crlf headers in
  request_line ← ok_or MissingRequestLine (head lines);
  let parts := split_whitespace request_line in
  method ← ok_or MissingMethod (parts !! 0%nat);
  target ← ok_or MissingTarget (parts !! 1%nat);
  version ← ok_or MissingVersion (parts !! 2%nat);
  if (match parts !! 3%nat with Some _ => true | None => false end)
     || negb (starts_with version "HTTP/")
  then Err InvalidRequestLine
  else if eq_ignore_ascii_case method "CONNECT" then
    '(host, port) ← parse_host_port target 443;
    Ok (HttpConnect host port)
  else
    absolute ← ok_or OnlyConnectOrAbsolute (parse_absolute_http_target target);
    let header_lines := take_while non_empty (tail lines) in
    let connection_tokens := connection_header_tokens header_lines in
    let rewritten :=
      str_bytes method ++ [x20] ++ str_bytes (at_path absolute) ++ [x20] ++ str_bytes version
      ++ crlf ++ forward_lines connection_tokens header_lines
      ++ line_bytes "connection: close" ++ crlf ++ drop header_end bs in
    Ok (HttpForward (at_host absolute) (at_port absolute) rewritten).

Section request.
Context {R W : Type} `{AsyncRead R} `{AsyncWrite W}.

(** The loop that collects the bytes.  It gives up above 64 KiB and every
    turn adds at least one byte, so 64 Ki + 2 turns are enough. *)
Fixpoint read_headers (fuel : nat) (bs : list byte) : sr (TcpStream R W) HttpError (list byte) :=
  match fuel with
  | O => sr_fail HttpOutOfFuel
  | S fuel =>
    got ← sr_map_err RequestIo (recv (read_some 1024));
    match got with
    | [] => sr_fail ClosedBeforeHeaders
    | _ =>
      let bs := bs ++ got in
      match http_header_end bs with
      | Some _ => mret bs
      | None => if 64 * 1024 <? len bs then sr_fail RequestHeadersTooLarge
                else read_headers fuel bs
      end
    end
  end.

Definition read_http_request : sr (TcpStream R W) HttpError HttpRequestKind :=
  bs ← read_headers (Z.to_nat (64 * 1024 + 2)) [];
  sr_lift (parse_request bs).

Definition write_http_error (status : Z) (reason : string) : sr (TcpStream R W) HttpError unit :=
  let body := display_uint status +:+ " " +:+ reason +:+ str_of_bytes [x0a] in
  let nl := str_of_bytes crlf in
  let response :=
    "HTTP/1.1 " +:+ display_uint status +:+ " " +:+ reason +:+ nl +:+ "content-length: "
    +:+ display_uint (str_len body) +:+ nl +:+ "connection: close" +:+ nl +:+ nl +:+ body in
  sr_map_err ResponseIo (send (write_all (str_bytes response))).
End request.

(** ** Response heads *)

Definition parse_response_status (status_line : string) : result HttpError Z :=
  let parts := split_whitespace status_line in
  version ← ok_or MissingResponseVersion (parts !! 0%nat);
  if negb (starts_with version "HTTP/") then Err InvalidStatusLine
  else
    status ← ok_or MissingResponseStatus (parts !! 1%nat);
    ok_or InvalidResponseStatus (parse_uint 16 status).

Definition response_status_has_no_body (status : Z) : bool :=
  ((100 <=? status) && (status <? 200)) || (status =? 204) || (status =? 304).

(** What the loop over the header lines learns about the body. *)
Definition scan_line (acc : option Z * bool) (line : string) : option Z * bool :=
  let '(content_length, chunked) := acc in
  match split_header line with
  | None => acc
  | Some (name, value) =>
    if eq_ignore_ascii_case name "content-length" then
      (match content_length with
       | None => parse_uint 64 value
       | Some _ => content_length
       end, chunked)
    else if eq_ignore_ascii_case name "transfer-encoding"
            && existsb (fun token => eq_ignore_ascii_case (trim token) "chunked")
                 (split_char "," value)
    then (content_length, true)
    else acc
  end.

Definition body_mode_of (status : Z) (content_length : option Z) (chunked : bool) :
    HttpResponseBodyMode :=
  if response_status_has_no_body status then ModeNoBody
  else if chunked then ModeChunked
  else
    match content_length with
    | Some n => ModeContentLength n
    | None => ModeCloseDelimited
    end.

Definition rewrite_response_head_for_proxy_close (head_bytes : list byte) :
    result HttpError (list byte * HttpResponseBodyMode) :=
  headers ← ok_or HeadersNotUtf8 (from_utf8 head_bytes);
  let lines := split_crlf headers in
  status_line ← ok_or MissingStatusLine (head lines);
  status ← parse_response_status status_line;
  let header_lines := take_while non_empty (tail lines) in
  let connection_tokens := connection_header_tokens header_lines in
  let '(content_length, chunked) := foldl scan_line (None, false) header_lines in
  let rewritten :=
    line_bytes status_line ++ forward_lines connection_tokens header_lines
    ++ line_bytes "connection: close" ++ crlf in
  Ok (rewritten, body_mode_of status content_length chunked).

(** ** Finding the end of the headers *)

Lemma http_header_end_le bs n : http_header_end bs = Some n -> (n <= length bs)%nat.
Proof.
  revert n. induction bs as [|b bs IH]; intros n; cbn [http_header_end].
  { by rewrite bool_decide_eq_false_2. }
  case_bool_decide as E.
  - intros [= <-]. apply (f_equal length) in E. rewrite length_take in E. change (length CRLF2) with 4%nat in E. lia.
  - destruct (http_header_end bs) as [k|]; cbn; [|done]. intros [= <-].
    specialize (IH k eq_refl). cbn [length]. lia.
Qed.

Lemma http_header_end_ge bs n : http_header_end bs = Some n -> (4 <= n)%nat.
Proof.
  revert n. induction bs as [|b bs IH]; intros n; cbn [http_header_end].
  { by rewrite bool_decide_eq_false_2. }
  case_bool_decide; [by intros [= <-]|].
  destruct (http_header_end bs) as [k|]; cbn; [|done]. intros [= <-].
  specialize (IH k eq_refl). lia.
Qed.

(** More bytes do not move it. *)
Lemma http_header_end_app bs n z :
  http_header_end bs = Some n -> http_header_end (bs ++ z) = Some n.
Proof.
  revert n. induction bs as [|b bs IH]; intros n; cbn [http_header_end app].
  { by rewrite bool_decide_eq_false_2. }
  case_bool_decide as E.
  - intros [= <-]. rewrite bool_decide_eq_true_2; [done|].
    by destruct bs as [|b1 [|b2 [|b3 bs]]].
  - destruct (http_header_end bs) as [k|] eqn:Hk; cbn; [|done]. intros [= <-].
    rewrite (IH k eq_refl). rewrite bool_decide_eq_false_2; [done|].
    pose proof (http_header_end_le _ _ Hk) as Hle.
    assert (4 <= k)%nat by by eapply http_header_end_ge.
    destruct bs as [|b1 [|b2 [|b3 bs]]]; try (cbn in Hle; lia). done.
Qed.

(** A content length is a 64 bit number. *)
Lemma scan_lines_range lines : forall cl ch n,
  match cl with Some m => in_u 64 m | None => True end ->
  (foldl scan_line (cl, ch) lines).1 = Some n -> in_u 64 n.
Proof.
  induction lines as [|line lines IH]; cbn [foldl]; intros cl ch n Hcl Hn; [by simplify_eq/=|].
  destruct (scan_line (cl, ch) line) as [cl' ch'] eqn:E. eapply IH, Hn.
  unfold scan_line in E. destruct (split_header line) as [[name value]|]; [|by simplify_eq].
  repeat case_match; simplify_eq; try done.
  by eapply parse_uint_range.
Qed.

Lemma rewrite_head_content_length hb head n :
  rewrite_response_head_for_proxy_close hb = Ok (head, ModeContentLength n) -> in_u 64 n.
Proof.
  unfold rewrite_response_head_for_proxy_close. intros Hr.
  apply bind_Ok in Hr as (headers & _ & Hr). apply bind_Ok in Hr as (line & _ & Hr).
  apply bind_Ok in Hr as (status & _ & Hr).
  destruct (foldl scan_line _ _) as [cl ch] eqn:E. injection Hr as _ Hm.
  unfold body_mode_of in Hm. repeat case_match; simplify_eq.
  eapply (scan_lines_range _ None false); [done|]. by rewrite E.
Qed.

(** ** Lines *)

Definition no_crlf (l : list byte) : Prop := split_crlf_bytes l = [l].

Definition lines_bytes (ls : list (list byte)) : list byte := concat ((fun l => l ++ crlf) <$> ls).

(** Splitting looks at two bytes at a time. *)
Lemma split_crlf_step b c bs :
  split_crlf_bytes (b :: c :: bs) =
  if bool_decide (b = x0d /\ c = x0a) then [] :: split_crlf_bytes bs
  else match split_crlf_bytes (c :: bs) with
       | [] => [[b]]
       | h :: t => (b :: h) :: t
       end.
Proof. done. Qed.

Lemma split_crlf_not_nil bs : split_crlf_bytes bs <> [].
Proof.
  destruct bs as [|b [|c bs]]; [done..|]. rewrite split_crlf_step. by repeat case_match.
Qed.

Lemma no_crlf_cons b l :
  no_crlf (b :: l) -> no_crlf l /\ forall c l', l = c :: l' -> ~ (b = x0d /\ c = x0a).
Proof.
  unfold no_crlf. destruct l as [|c l]; [done|]. rewrite split_crlf_step.
  case_bool_decide as E; [done|].
  destruct (split_crlf_bytes (c :: l)) as [|h t]; [done|]. intros Hs.
  injection Hs as -> ->. split; [done|]. intros c' l' Hc. by injection Hc as <- <-.
Qed.

Lemma split_crlf_line l r :
  no_crlf l -> split_crlf_bytes (l ++ crlf ++ r) = l :: split_crlf_bytes r.
Proof.
  induction l as [|b l IH]; intros Hl; [done|].
  apply no_crlf_cons in Hl as [Hl Hb]. specialize (IH Hl).
  destruct l as [|c l].
  - cbn [app crlf] in *. rewrite split_crlf_step, bool_decide_eq_false_2 by naive_solver.
    by rewrite IH.
  - cbn [app] in *. rewrite split_crlf_step, bool_decide_eq_false_2 by (eapply Hb; done).
    by rewrite IH.
Qed.

Lemma split_crlf_lines ls r :
  Forall no_crlf ls -> split_crlf_bytes (lines_bytes ls ++ r) = ls ++ split_crlf_bytes r.
Proof.
  unfold lines_bytes. induction 1 as [|l ls Hl Hls IH]; [done|].
  cbn [fmap list_fmap concat]. rewrite <-!app_assoc, split_crlf_line, IH by done. done.
Qed.

(** Every piece of a split is a line. *)
Lemma split_crlf_no_crlf n : forall bs,
  (length bs <= n)%nat -> Forall no_crlf (split_crlf_bytes bs).
Proof.
  induction n as [|n IH]; intros bs Hn.
  { destruct bs; [|cbn in Hn; lia]. by repeat constructor. }
  destruct bs as [|b [|c bs]]; [by repeat constructor..|]. rewrite split_crlf_step.
  case_bool_decide as E.
  - constructor; [done|]. apply IH. cbn in Hn. lia.
  - specialize (IH (c :: bs) ltac:(cbn in *; lia)).
    destruct (split_crlf_bytes (c :: bs)) as [|h t] eqn:Hs; [by apply split_crlf_not_nil in Hs|].
    apply Forall_cons_iff in IH as [Hh Ht]. constructor; [|done].
    unfold no_crlf in *. destruct h as [|d h]; [done|].
    rewrite split_crlf_step, bool_decide_eq_false_2, Hh; [done|].
    intros [-> ->]. apply E. split; [done|].
    destruct bs as [|e bs]; [by injection Hs|]. rewrite split_crlf_step in Hs.
    case_bool_decide; [done|]. destruct (split_crlf_bytes (e :: bs)); by injection Hs.
Qed.

Lemma header_end_line l r :
  no_crlf l ->
  http_header_end (l ++ crlf ++ r) =
  if bool_decide (take 2 r = crlf) then Some (length l + 4)%nat
  else (fun n => length l + 2 + n)%nat <$> http_header_end r.
Proof.
  induction l as [|b l IH]; intros Hl.
  - cbn [app crlf http_header_end take length Nat.add].
    destruct (decide (take 2 r = crlf)) as [E|E].
    + rewrite E. by rewrite !bool_decide_eq_true_2.
    + rewrite (bool_decide_eq_false_2 (take 2 r = crlf)) by done.
      rewrite bool_decide_eq_false_2 by (unfold CRLF2, crlf in *; naive_solver).
      rewrite bool_decide_eq_false_2 by done. by destruct (http_header_end r).
  - apply no_crlf_cons in Hl as [Hl Hb]. specialize (IH Hl). cbn [app http_header_end].
    rewrite bool_decide_eq_false_2.
    + rewrite IH. case_bool_decide; [done|]. by destruct (http_header_end r).
    + unfold CRLF2. intros E. destruct l as [|c l]; cbn in E; [done|].
      injection E as -> -> _. by apply (Hb x0a l).
Qed.

Lemma header_end_lines ls :
  ls <> [] -> Forall no_crlf ls -> Forall (fun l => l <> []) ls ->
  forall r, http_header_end (lines_bytes ls ++ crlf ++ r) = Some (length (lines_bytes ls) + 2)%nat.
Proof.
  intros Hne Hno Hnil r. induction ls as [|l ls IH]; [done|].
  apply Forall_cons_iff in Hno as [Hl Hno], Hnil as [Hn Hnil].
  unfold lines_bytes in *. cbn [fmap list_fmap concat]. rewrite <-!app_assoc, header_end_line by done.
  rewrite !length_app. destruct ls as [|l2 ls].
  - rewrite bool_decide_eq_true_2 by done. cbn. f_equal. lia.
  - rewrite IH by done. rewrite bool_decide_eq_false_2; [cbn; f_equal; lia|].
    apply Forall_cons_iff in Hno as [Hl2 _], Hnil as [Hn2 _].
    destruct l2 as [|b [|c l2]]; [done| |]; cbn; [done|].
    apply no_crlf_cons in Hl2 as [_ Hb]. intros [= -> ->]. by apply (Hb x0a l2).
Qed.

(** ** Rewritten heads *)

(** A line that can stand in a head. *)
Definition good_line (l : string) : Prop := l <> EmptyString /\ no_crlf (str_bytes l).

Definition emitted_head (first : string) (kept : list string) : list byte :=
  line_bytes first ++ concat (line_bytes <$> kept) ++ line_bytes "connection: close" ++ crlf.

Definition forwarded (header_lines : list string) : list string :=
  filter (fun line => should_skip_forward_header line (connection_header_tokens header_lines) = false)
    header_lines.

Lemma str_bytes_nil l : str_bytes l = [] -> l = EmptyString.
Proof. intros E. rewrite <-(str_of_bytes_str_bytes l), E. done. Qed.

(** A head made of good lines is one head: it ends at its only empty line,
    and splitting it gives the lines back. *)
Lemma emitted_head_spec first kept body :
  good_line first -> Forall good_line kept ->
  http_header_end (emitted_head first kept ++ body) = Some (length (emitted_head first kept))
  /\ split_crlf (str_of_bytes (emitted_head first kept))
     = first :: kept ++ ["connection: close"%string; EmptyString; EmptyString].
Proof.
  intros Hf Hk. set (ls := first :: kept ++ ["connection: close"%string]).
  assert (Hls : Forall good_line ls).
  { constructor; [done|]. apply Forall_app. split; [done|]. by repeat constructor. }
  assert (He : emitted_head first kept = lines_bytes (str_bytes <$> ls) ++ crlf).
  { unfold emitted_head, lines_bytes, ls. rewrite <-list_fmap_compose.
    rewrite fmap_cons, fmap_app, concat_cons, concat_app, <-!app_assoc. cbn [fmap list_fmap concat].
    by rewrite app_nil_r. }
  assert (Hno : Forall no_crlf (str_bytes <$> ls)).
  { apply Forall_fmap. eapply List.Forall_impl; [|done]. by intros l []. }
  assert (Hne : Forall (fun l => l <> []) (str_bytes <$> ls)).
  { apply Forall_fmap. eapply List.Forall_impl; [|done]. intros l [Hl _] E. by apply Hl, str_bytes_nil. }
  rewrite He. split.
  - rewrite <-app_assoc, header_end_lines by done. rewrite length_app. done.
  - unfold split_crlf. rewrite str_bytes_str_of_bytes, split_crlf_lines by done.
    rewrite fmap_app, <-list_fmap_compose. cbn [split_crlf_bytes crlf].
    unfold ls. change (?a :: ?b ++ ?c) with ([a] ++ b ++ c). rewrite !fmap_app, <-!app_assoc.
    cbn [fmap list_fmap]. f_equal; [f_equal; apply str_of_bytes_str_bytes|].
    rewrite bool_decide_eq_true_2 by done. rewrite <-(list_fmap_id kept) at 2.
    f_equal. apply list_fmap_ext. intros i l _. apply str_of_bytes_str_bytes.
Qed.

Lemma split_crlf_elem s l : l ∈ split_crlf s -> no_crlf (str_bytes l).
Proof.
  unfold split_crlf. intros (bs & -> & Hbs)%list_elem_of_fmap. rewrite str_bytes_str_of_bytes.
  pose proof (split_crlf_no_crlf _ (str_bytes s) (Nat.le_refl _)) as Hno.
  rewrite Forall_forall in Hno. by apply Hno.
Qed.

Lemma take_while_elem {A} (p : A -> bool) l x : x ∈ take_while p l -> x ∈ l /\ p x = true.
Proof.
  induction l as [|y l IH]; cbn; [by rewrite elem_of_nil|].
  destruct (p y) eqn:E; [|by rewrite elem_of_nil].
  rewrite !elem_of_cons. naive_solver.
Qed.

Lemma forwarded_good s first lines :
  split_crlf s = first :: lines -> Forall good_line (forwarded (take_while non_empty lines)).
Proof.
  intros Hs. apply Forall_forall. intros l Hl. unfold forwarded in Hl.
  apply list_elem_of_filter in Hl as [_ Hl].
  apply take_while_elem in Hl as [Hl Hne]. split.
  - unfold non_empty in Hne. by destruct l.
  - apply (split_crlf_elem s). rewrite Hs. by apply elem_of_cons; right.
Qed.

(** A kept header is neither hop-by-hop nor named by a [Connection] header. *)
Definition end_to_end (header_lines : list string) (line : string) : Prop :=
  forall name value, split_header line = Some (name, value) ->
  is_static_hop_by_hop_header name = false
  /\ forall token, token ∈ connection_header_tokens header_lines ->
     eq_ignore_ascii_case name token = false.

Lemma forwarded_end_to_end header_lines :
  Forall (end_to_end header_lines) (forwarded header_lines).
Proof.
  apply Forall_forall. intros l Hl. unfold forwarded in Hl.
  apply list_elem_of_filter in Hl as [Hskip _]. intros name value Hs.
  unfold should_skip_forward_header in Hskip. rewrite Hs in Hskip.
  apply orb_false_iff in Hskip as [Hh Ht]. split; [done|]. intros token Htok.
  apply not_true_iff_false. intros E. apply not_true_iff_false in Ht. apply Ht.
  apply existsb_exists. exists token. by rewrite <-list_elem_of_In.
Qed.

(** ** The request line of a forwarded request *)

Definition no_cr (s : string) : Prop := Forall (fun b => b <> x0d) (str_bytes s).

Lemma no_cr_append a b : no_cr (a +:+ b) <-> no_cr a /\ no_cr b.
Proof. unfold no_cr. rewrite str_bytes_append. apply Forall_app. Qed.

Lemma no_cr_no_crlf l : Forall (fun b => b <> x0d) l -> no_crlf l.
Proof.
  unfold no_crlf. induction 1 as [|b l Hb Hl IH]; [done|]. destruct l as [|c l]; [done|].
  rewrite split_crlf_step, bool_decide_eq_false_2, IH by naive_solver. done.
Qed.

Lemma word_no_cr s w : w ∈ split_whitespace s -> no_cr w.
Proof.
  intros Hw. apply Forall_forall. intros b Hb ->.
  destruct (split_whitespace_bytes s w x0d Hw Hb) as [H|H]; by vm_compute in H.
Qed.

Lemma absolute_path_no_cr target a :
  parse_absolute_http_target target = Some a -> no_cr target -> no_cr (at_path a).
Proof.
  unfold parse_absolute_http_target. intros Ha Ht.
  destruct (strip_prefix _ target) as [rest|] eqn:Hr; cbn in Ha; [|done].
  apply strip_prefix_Some in Hr as ->. apply no_cr_append in Ht as [_ Ht].
  rewrite (split_at_any_eq ["/"; "?"]%char rest) in Ht. apply no_cr_append in Ht as [_ Ht].
  destruct (split_at_any _ rest) as [authority path]. cbn [snd] in Ht.
  destruct (result_ok _) as [[host port]|]; cbn in Ha; simplify_eq. cbn [at_path].
  assert (Hp : no_cr (if bool_decide (path = EmptyString) then "/"%string else path))
    by (case_bool_decide; [by repeat constructor|done]).
  destruct (starts_with _ _); [|done]. apply no_cr_append. split; [by repeat constructor|done].
Qed.

(** ** Properties *)

(** The response head that the client sees is the origin's with the
    hop-by-hop headers removed: it has the origin's status line, the
    end-to-end headers in their order and a [connection: close], it is exactly
    one head (its first empty line is its end), and no header in it is
    hop-by-hop or named by a [Connection] header of the origin. *)
Theorem response_head_rewritten (hb out : list byte) (mode : HttpResponseBodyMode) :
  rewrite_response_head_for_proxy_close hb = Ok (out, mode) ->
  exists s status lines,
    from_utf8 hb = Some s /\ split_crlf s = status :: lines
    /\ let header_lines := take_while non_empty lines in
       split_crlf (str_of_bytes out)
       = status :: forwarded header_lines ++ ["connection: close"%string; EmptyString; EmptyString]
       /\ http_header_end out = Some (length out)
       /\ Forall (end_to_end header_lines) (forwarded header_lines).
Proof.
  unfold rewrite_response_head_for_proxy_close. intros Hr.
  apply bind_Ok in Hr as (s & Hs%ok_or_Ok & Hr). apply bind_Ok in Hr as (status & Hl%ok_or_Ok & Hr).
  apply bind_Ok in Hr as (code & Hcode & Hr).
  destruct (split_crlf s) as [|status' lines] eqn:Hlines; [done|]. injection Hl as ->.
  destruct (foldl scan_line _ _) as [cl ch]. injection Hr as <- _.
  exists s, status, lines. split; [done|]. split; [done|]. cbn zeta. cbn [tail].
  fold (forwarded (take_while non_empty lines)).
  assert (Hgood : good_line status).
  { split; [|apply (split_crlf_elem s); rewrite Hlines; by apply elem_of_cons; left].
    intros ->. by vm_compute in Hcode. }
  destruct (emitted_head_spec status (forwarded (take_while non_empty lines)) [] Hgood
    (forwarded_good _ _ _ Hlines)) as [He Hsplit].
  rewrite app_nil_r in He. unfold emitted_head in He, Hsplit.
  split; [done|]. split; [done|]. apply forwarded_end_to_end.
Qed.

Lemma response_head_rewritten_witness :
  let hb := str_bytes "HTTP/1.1 204 No Content" ++ crlf ++ str_bytes "Keep-Alive: 5" ++ crlf ++ crlf in
  let out := str_bytes "HTTP/1.1 204 No Content" ++ crlf ++ str_bytes "connection: close" ++ crlf ++ crlf in
  exists s status lines,
    from_utf8 hb = Some s /\ split_crlf s = status :: lines
    /\ let header_lines := take_while non_empty lines in
       split_crlf (str_of_bytes out)
       = status :: forwarded header_lines ++ ["connection: close"%string; EmptyString; EmptyString]
       /\ http_header_end out = Some (length out)
       /\ Forall (end_to_end header_lines) (forwarded header_lines).
Proof. intros hb out. apply (response_head_rewritten hb out ModeNoBody). vm_compute. reflexivity. Defined.

(** C32. An absolute-form request reaches the origin as one origin-form
    request: the rewritten bytes are one head (method, path and version from
    the request line, the end-to-end headers, [connection: close]) followed by
    exactly the body bytes that were read, so no header of the client can end
    the head early or survive as a hop-by-hop header. *)
Theorem forward_request_rewritten (bs req : list byte) (host : string) (port : Z) :
  parse_request bs = Ok (HttpForward host port req) ->
  exists n s line lines method target version absolute,
    http_header_end bs = Some n /\ from_utf8 (take n bs) = Some s
    /\ split_crlf s = line :: lines
    /\ split_whitespace line = [method; target; version]
    /\ parse_absolute_http_target target = Some absolute
    /\ at_host absolute = host /\ at_port absolute = port
    /\ let header_lines := take_while non_empty lines in
       let k := (length req - length (drop n bs))%nat in
       http_header_end req = Some k /\ drop k req = drop n bs
       /\ split_crlf (str_of_bytes (take k req))
          = (method +:+ " " +:+ at_path absolute +:+ " " +:+ version)
            :: forwarded header_lines ++ ["connection: close"%string; EmptyString; EmptyString]
       /\ Forall (end_to_end header_lines) (forwarded header_lines).
Proof.
  unfold parse_request. intros Hr.
  apply bind_Ok in Hr as (n & Hn%ok_or_Ok & Hr). apply bind_Ok in Hr as (s & Hs%ok_or_Ok & Hr).
  apply bind_Ok in Hr as (line & Hl%ok_or_Ok & Hr).
  destruct (split_crlf s) as [|line' lines] eqn:Hlines; [done|]. injection Hl as ->.
  pose proof (word_no_cr line) as Hw.
  destruct (split_whitespace line) as [|method [|target [|version [|]]]] eqn:Hparts; try done.
  cbn [lookup list_lookup ok_or mbind result_bind] in Hr.
  destruct (_ || _); [done|]. destruct (eq_ignore_ascii_case method "CONNECT").
  { by apply bind_Ok in Hr as ([] & _ & ?). }
  apply bind_Ok in Hr as (a & Ha%ok_or_Ok & Hr). cbn [tail] in Hr.
  fold (forwarded (take_while non_empty lines)) in Hr.
  exists n, s, line, lines, method, target, version, a.
  set (first := method +:+ " " +:+ at_path a +:+ " " +:+ version).
  assert (Hgood : good_line first).
  { split; [by destruct method|]. apply no_cr_no_crlf. unfold first.
    change (no_cr (method +:+ " " +:+ at_path a +:+ " " +:+ version)). rewrite !no_cr_append.
    split_and!; try (by repeat constructor); try (apply Hw; set_solver).
    eapply absolute_path_no_cr; [done|]. apply Hw. set_solver. }
  destruct (emitted_head_spec first (forwarded (take_while non_empty lines)) (drop n bs) Hgood
    (forwarded_good _ _ _ Hlines)) as [He Hsplit].
  assert (Hreq : req = emitted_head first (forwarded (take_while non_empty lines)) ++ drop n bs).
  { injection Hr as _ _ <-. unfold emitted_head, first, forward_lines, line_bytes.
    rewrite !str_bytes_append, <-!app_assoc. done. }
  injection Hr as <- <- _. do 7 (split; [done|]). cbn zeta.
  rewrite Hreq, length_app, Nat.add_sub, drop_app_length, take_app_length.
  split_and!; try done. apply forwarded_end_to_end.
Qed.

Definition sample_request : list byte :=
  str_bytes "GET http://example.com:8080?q=1 HTTP/1.1" ++ crlf ++ str_bytes "Host: example.com" ++ crlf
  ++ str_bytes "Connection: X-Hop" ++ crlf ++ str_bytes "x-hop: 1" ++ crlf ++ crlf ++ str_bytes "body".

Definition sample_forward : list byte :=
  str_bytes "GET /?q=1 HTTP/1.1" ++ crlf ++ str_bytes "Host: example.com" ++ crlf
  ++ str_bytes "connection: close" ++ crlf ++ crlf ++ str_bytes "body".

Lemma forward_request_rewritten_witness :
  exists n s line lines method target version absolute,
    http_header_end sample_request = Some n /\ from_utf8 (take n sample_request) = Some s
    /\ split_crlf s = line :: lines
    /\ split_whitespace line = [method; target; version]
    /\ parse_absolute_http_target target = Some absolute
    /\ at_host absolute = "example.com"%string /\ at_port absolute = 8080
    /\ let header_lines := take_while non_empty lines in
       let k := (length sample_forward - length (drop n sample_request))%nat in
       http_header_end sample_forward = Some k /\ drop k sample_forward = drop n sample_request
       /\ split_crlf (str_of_bytes (take k sample_forward))
          = (method +:+ " " +:+ at_path absolute +:+ " " +:+ version)
            :: forwarded header_lines ++ ["connection: close"%string; EmptyString; EmptyString]
       /\ Forall (end_to_end header_lines) (forwarded header_lines).
Proof. apply forward_request_rewritten. vm_compute. reflexivity. Defined.

Definition connect_head : list byte := str_bytes "CONNECT example.com:443 HTTP/1.1" ++ CRLF2.

Lemma parse_connect_head early :
  parse_request (connect_head ++ early) = Ok (HttpConnect "example.com" 443).
Proof.
  unfold parse_request.
  assert (He : http_header_end connect_head = Some (length connect_head)) by (vm_compute; reflexivity).
  rewrite (http_header_end_app _ _ early He). cbn [ok_or mbind result_bind].
  rewrite take_app_length. vm_compute. reflexivity.
Qed.

(** The bytes that arrive together with a CONNECT request are lost: when
    a client sends the first bytes of its tunnel in the same segment as the
    head, [HttpRequest::read_from] takes them off the connection and returns
    only the target, for whatever those bytes are. *)
Theorem connect_drops_early_data (early : list byte) (w : ScriptedWriter) :
  len early <= 900 ->
  exists s,
    read_http_request (MkTcp (MkSegments [connect_head ++ early] AtEof) w)
    = (Ok (HttpConnect "example.com" 443), s)
    /\ rest (inbound s) = [].
Proof.
  intros He. set (bs := connect_head ++ early).
  assert (Hlen : (length bs <= 1024)%nat)
    by (unfold bs; rewrite length_app; change (length connect_head) with 36%nat; lia).
  assert (Hend : exists n, http_header_end bs = Some n).
  { exists (length connect_head). apply http_header_end_app. vm_compute. reflexivity. }
  destruct Hend as [n Hend].
  assert (Hread : recv (W := ScriptedWriter) (read_some 1024) (MkTcp (MkSegments [bs] AtEof) w)
                  = (Ok bs, MkTcp (MkSegments [drop 1024 bs] AtEof) w)).
  { unfold recv. cbn [inbound read_some segments_read seg_read_some segs take_piece].
    unfold seg_read_some. cbn [segs take_piece]. destruct bs as [|b bs'] eqn:Hb; [done|].
    change (Z.to_nat 1024) with 1024%nat. by rewrite (take_ge (b :: bs') 1024) by done. }
  exists (MkTcp (MkSegments [drop 1024 bs] AtEof) w). unfold read_http_request.
  replace (Z.to_nat (64 * 1024 + 2)) with (S (Z.to_nat (64 * 1024 + 1))) by lia.
  split.
  - erewrite (sr_bind_Ok _ _ _ bs); [unfold sr_lift, bs; by rewrite parse_connect_head|].
    cbn [read_headers]. erewrite sr_bind_Ok by (unfold sr_map_err; by rewrite Hread).
    assert (Hne : forall A (x y : A), match bs with [] => x | _ :: _ => y end = y) by done.
    by rewrite Hne, app_nil_l, Hend.
  - change (drop 1024 bs ++ [] = []). by rewrite drop_ge.
Qed.

Lemma connect_drops_early_data_witness :
  exists s,
    read_http_request (MkTcp (MkSegments [connect_head ++ [x16; x03; x01]] AtEof) (MkWriter [] [] 0))
    = (Ok (HttpConnect "example.com" 443), s)
    /\ rest (inbound s) = [].
Proof. apply (connect_drops_early_data [x16; x03; x01]). vm_compute. congruence. Defined.
