(* ===== verification/HttpRelay.v ===== *)
(** * Forwarding an HTTP response

    The response half of [crates/ssh-proxy/src/socks/relay.rs]: chunks of the
    remote's bytes arrive from the multiplexed stream, the head is collected
    and rewritten, and the body is passed on until it is complete. *)
From S2P Require Import Prelude RustStr Stream Protocol Egress Http.

Definition HTTP_RESPONSE_HEADER_LIMIT : Z := 64 * 1024.

Inductive HttpForwardResponseState :=
| ReadingHead (buffer : list byte)
| RespContentLength (remaining : Z)
| RespChunked
| RespCloseDelimited
| RespDone.

Definition from_body_mode (mode : HttpResponseBodyMode) : HttpForwardResponseState :=
  match mode with
  | ModeContentLength n => if n =? 0 then RespDone else RespContentLength n
  | ModeNoBody => RespDone
  | ModeChunked => RespChunked
  | ModeCloseDelimited => RespCloseDelimited
  end.

Definition uses_idle_close (s : HttpForwardResponseState) : bool :=
  match s with
  | RespCloseDelimited => true
  | _ => false
  end.

Definition is_done (s : HttpForwardResponseState) : bool :=
  match s with
  | RespDone => true
  | _ => false
  end.

(** What one wait for the remote gives; a timeout is only armed while the
    body is delimited by the end of the connection. *)
Inductive RemoteEvent := Received (data : list byte) | IdleTimeout.

Section relay.
Context {W : Type} `{AsyncWrite W}.

Definition write_if (data : list byte) : sr W HttpError unit :=
  if bool_decide (data = []) then mret tt else sr_map_err ResponseIo (write_all data).

Definition write_http_forward_body_chunk (state : HttpForwardResponseState) (data : list byte) :
    sr W HttpError HttpForwardResponseState :=
  match state with
  | RespContentLength remaining =>
    let n := Z.min (len data) remaining in
    _ ← write_if (take (Z.to_nat n) data);
    let remaining := saturating_sub_u remaining n in
    mret (if remaining =? 0 then RespDone else RespContentLength remaining)
  | RespChunked | RespCloseDelimited => _ ← write_if data; mret state
  | ReadingHead _ | RespDone => mret state
  end.

Definition write_http_forward_response_chunk (state : HttpForwardResponseState)
    (data : list byte) : sr W HttpError HttpForwardResponseState :=
  match state with
  | ReadingHead buffer =>
    let buffer := buffer ++ data in
    if HTTP_RESPONSE_HEADER_LIMIT <? len buffer then sr_fail ResponseHeadersTooLarge
    else
      match http_header_end buffer with
      | None => mret (ReadingHead buffer)
      | Some header_end =>
        '(head, body_mode) ← sr_lift (rewrite_response_head_for_proxy_close (take header_end buffer));
        _ ← sr_map_err ResponseIo (write_all head);
        write_http_forward_body_chunk (from_body_mode body_mode) (drop header_end buffer)
      end
  | RespContentLength _ | RespChunked | RespCloseDelimited =>
    write_http_forward_body_chunk state data
  | RespDone => mret state
  end.

(** The loop of [relay_http_forward_spx_response]; the end of [events] is the
    end of the stream.  The result is the number of bytes counted. *)
Fixpoint relay_loop (state : HttpForwardResponseState) (count : Z) (events : list RemoteEvent) :
    sr W HttpError Z :=
  match events with
  | [] => mret count
  | IdleTimeout :: events =>
    if uses_idle_close state then mret count else relay_loop state count events
  | Received data :: events =>
    let count := count + len data in
    state ← write_http_forward_response_chunk state data;
    if is_done state then mret count else relay_loop state count events
  end.

Definition relay_http_forward_spx_response (events : list RemoteEvent) : sr W HttpError Z :=
  count ← relay_loop (ReadingHead []) 0 events;
  _ ← sr_map_err ResponseIo shutdown;
  mret count.
End relay.

(** ** What the client gets of the body *)

Definition body_part (state : HttpForwardResponseState) (body : list byte) : list byte :=
  match state with
  | RespContentLength n => take (Z.to_nat n) body
  | RespChunked | RespCloseDelimited => body
  | ReadingHead _ | RespDone => []
  end.

Definition body_state (state : HttpForwardResponseState) : Prop :=
  match state with
  | RespContentLength n => 0 < n
  | ReadingHead _ => False
  | _ => True
  end.

(** The data of some events; what comes before the connection is idle for the
    first time; and the same, when idle times before the end of the head do not
    count. *)
Definition chunks (events : list RemoteEvent) : list (list byte) :=
  omap (fun e => match e with Received data => Some data | IdleTimeout => None end) events.
Fixpoint before_idle (events : list RemoteEvent) : list (list byte) :=
  match events with
  | Received data :: events => data :: before_idle events
  | IdleTimeout :: _ | [] => []
  end.
Fixpoint until_idle (acc : list byte) (events : list RemoteEvent) : list (list byte) :=
  match http_header_end acc, events with
  | Some _, _ => before_idle events
  | None, [] => []
  | None, IdleTimeout :: events => until_idle acc events
  | None, Received data :: events => data :: until_idle (acc ++ data) events
  end.

(** The data that a body is taken from. *)
Definition body_chunks (idle_close : bool) (events : list RemoteEvent) : list (list byte) :=
  if idle_close then before_idle events else chunks events.

Section relay_facts.
Context {W : Type} `{AsyncWriteLaws W}.

Lemma write_if_live data w :
  live w ->
  exists w', write_if data w = (Ok tt, w') /\ written w' = written w ++ data /\ live w'.
Proof.
  intros Hl. unfold write_if. case_bool_decide as E.
  - exists w. by rewrite E, app_nil_r.
  - destruct (write_all_live data w Hl) as (w' & Hw & ?). exists w'.
    unfold sr_map_err. by rewrite Hw.
Qed.

(** One chunk of the body: what is written, and that the rest of the body
    goes on from the new state. *)
Lemma body_chunk_live state data w :
  live w -> body_state state ->
  exists state' w',
    write_http_forward_body_chunk state data w = (Ok state', w')
    /\ live w' /\ body_state state' /\ (is_done state' = false -> uses_idle_close state' = uses_idle_close state)
    /\ written w' = written w ++ body_part state data
    /\ forall rest, body_part state (data ++ rest) = body_part state data ++ body_part state' rest.
Proof.
  intros Hl Hb. unfold write_http_forward_body_chunk. destruct state as [|n| | |]; try done.
  - destruct (write_if_live (take (Z.to_nat (Z.min (len data) n)) data) w Hl) as (w' & Hw & Hw' & Hl').
    erewrite sr_bind_Ok by done. cbn in Hb.
    assert (Htake : take (Z.to_nat (Z.min (len data) n)) data = take (Z.to_nat n) data).
    { destruct (Z.min_spec (len data) n) as [[? ->]|[? ->]]; [|done].
      rewrite !take_ge by lia. done. }
    rewrite Htake in Hw'. unfold saturating_sub_u.
    exists (if Z.max (n - Z.min (len data) n) 0 =? 0 then RespDone
            else RespContentLength (Z.max (n - Z.min (len data) n) 0)), w'.
    split_and!; [done|done| |by case_match|done|].
    + destruct (Z.eqb_spec (Z.max (n - Z.min (len data) n) 0) 0); cbn; [done|lia].
    + intros rest. cbn [body_part]. rewrite take_app. f_equal.
      destruct (Z.eqb_spec (Z.max (n - Z.min (len data) n) 0) 0); cbn [body_part].
      * replace (Z.to_nat n - length data)%nat with 0%nat by lia. done.
      * f_equal. lia.
  - destruct (write_if_live data w Hl) as (w' & Hw & Hw' & Hl').
    erewrite sr_bind_Ok by done. exists RespChunked, w'. by split_and!.
  - destruct (write_if_live data w Hl) as (w' & Hw & Hw' & Hl').
    erewrite sr_bind_Ok by done. exists RespCloseDelimited, w'. by split_and!.
  - exists RespDone, w. cbn. rewrite app_nil_r. by split_and!.
Qed.

Lemma body_chunk_is_chunk state data :
  body_state state ->
  write_http_forward_response_chunk (W := W) state data = write_http_forward_body_chunk state data.
Proof. by destruct state. Qed.

Lemma relay_body events : forall state count w,
  live w -> body_state state -> is_done state = false ->
  exists c w', relay_loop state count events w = (Ok c, w')
    /\ live w' /\ written w' = written w ++ body_part state (concat (body_chunks (uses_idle_close state) events)).
Proof.
  assert (Hnil : forall state, body_part state [] = []) by (intros []; cbn; by rewrite ?take_nil).
  induction events as [|[data|] events IH]; intros state count w Hl Hb Hd.
  { exists count, w. split_and!; [done..|]. unfold body_chunks. destruct (uses_idle_close state); cbn; by rewrite Hnil, app_nil_r. }
  - cbn [relay_loop]. rewrite body_chunk_is_chunk by done.
    destruct (body_chunk_live state data w Hl Hb) as (st & w1 & Hs & Hl1 & Hb1 & Hi & Hw1 & Hrest).
    erewrite sr_bind_Ok by done.
    assert (concat (body_chunks (uses_idle_close state) (Received data :: events))
            = data ++ concat (body_chunks (uses_idle_close state) events)) as ->.
    { unfold body_chunks. by destruct (uses_idle_close state). }
    rewrite Hrest. destruct (is_done st) eqn:Hd1.
    + exists (count + len data), w1. destruct st; try done. by rewrite app_nil_r.
    + destruct (IH st (count + len data) w1 Hl1 Hb1 Hd1) as (c & w2 & Hr & Hl2 & Hw2).
      exists c, w2. by rewrite Hw2, Hw1, app_assoc, Hi.
  - cbn [relay_loop]. destruct (uses_idle_close state) eqn:Hi.
    + exists count, w. cbn. by rewrite Hnil, app_nil_r.
    + destruct (IH state count w Hl Hb Hd) as (c & w2 & Hr & Hl2 & Hw2). exists c, w2. by rewrite Hw2, Hi.
Qed.
End relay_facts.

(** The chunks up to the one that completes the head stay below the limit. *)
Fixpoint head_within_limit (acc : list byte) (chunks : list (list byte)) : Prop :=
  match chunks with
  | [] => True
  | c :: chunks =>
    len (acc ++ c) <= HTTP_RESPONSE_HEADER_LIMIT
    /\ (http_header_end (acc ++ c) = None -> head_within_limit (acc ++ c) chunks)
  end.

Lemma body_state_mode hb head mode :
  rewrite_response_head_for_proxy_close hb = Ok (head, mode) -> body_state (from_body_mode mode).
Proof.
  intros Hr. destruct mode as [n| | |]; try done. apply rewrite_head_content_length in Hr.
  unfold from_body_mode. destruct (Z.eqb_spec n 0); [done|]. cbn. unfold in_u in *. lia.
Qed.

Section head_facts.
Context {W : Type} `{AsyncWriteLaws W}.

(** The chunk that completes the head. *)
Lemma head_chunk_live acc data n head mode w :
  live w -> len (acc ++ data) <= HTTP_RESPONSE_HEADER_LIMIT ->
  http_header_end (acc ++ data) = Some n ->
  rewrite_response_head_for_proxy_close (take n (acc ++ data)) = Ok (head, mode) ->
  exists state w',
    write_http_forward_response_chunk (ReadingHead acc) data w = (Ok state, w')
    /\ live w' /\ body_state state
    /\ (is_done state = false -> uses_idle_close state = uses_idle_close (from_body_mode mode))
    /\ written w' = written w ++ head ++ body_part (from_body_mode mode) (drop n (acc ++ data))
    /\ forall rest, body_part (from_body_mode mode) (drop n (acc ++ data) ++ rest)
        = body_part (from_body_mode mode) (drop n (acc ++ data)) ++ body_part state rest.
Proof.
  intros Hl Hlim He Hr. cbn [write_http_forward_response_chunk].
  destruct (Z.ltb_spec HTTP_RESPONSE_HEADER_LIMIT (len (acc ++ data))); [lia|].
  rewrite He, Hr. destruct (write_all_live head w Hl) as (w1 & Hw1 & Ht1 & Hl1).
  erewrite sr_bind_Ok by done. cbn beta iota.
  erewrite sr_bind_Ok by (unfold sr_map_err; by rewrite Hw1).
  destruct (body_chunk_live (from_body_mode mode) (drop n (acc ++ data)) w1 Hl1
    (body_state_mode _ _ _ Hr)) as (st & w2 & Hs & Hl2 & Hb2 & Hi & Hw2 & Hrest).
  exists st, w2. split_and!; [done..| |done]. by rewrite Hw2, Ht1, app_assoc.
Qed.

(** The data the body is taken from, once the head is complete. *)
Definition served_chunks (idle_close : bool) (acc : list byte) (events : list RemoteEvent) : list (list byte) :=
  if idle_close then until_idle acc events else chunks events.

Lemma relay_head events : forall acc count n head mode w,
  live w -> head_within_limit acc (chunks events) -> http_header_end acc = None ->
  http_header_end (acc ++ concat (chunks events)) = Some n ->
  rewrite_response_head_for_proxy_close (take n (acc ++ concat (chunks events))) = Ok (head, mode) ->
  exists c w', relay_loop (ReadingHead acc) count events w = (Ok c, w')
    /\ live w'
    /\ written w' = written w ++ head ++ body_part (from_body_mode mode)
         (drop n (acc ++ concat (served_chunks (uses_idle_close (from_body_mode mode)) acc events))).
Proof.
  induction events as [|[data|] events IH]; intros acc count n head mode w Hl Hlim Hacc He Hr.
  { cbn in He. rewrite app_nil_r in He. congruence. }
  - change (chunks (Received data :: events)) with (data :: chunks events) in *. cbn [concat] in He, Hr.
    assert (forall i, acc ++ concat (served_chunks i acc (Received data :: events))
              = (acc ++ data) ++ concat (served_chunks i (acc ++ data) events)) as Hsc.
    { intros []; cbn; rewrite ?Hacc; cbn; by rewrite app_assoc. }
    rewrite Hsc. rewrite (app_assoc acc data) in He, Hr. cbn [relay_loop]. destruct Hlim as [Hlen Hlim].
    destruct (http_header_end (acc ++ data)) as [m|] eqn:Hm.
    + assert (n = m) as -> by (apply (http_header_end_app _ _ (concat (chunks events))) in Hm; congruence).
      pose proof (http_header_end_le _ _ Hm) as Hle. rewrite take_app_le in Hr by done.
      rewrite (drop_app_le (acc ++ data)) by exact Hle.
      assert (forall i, served_chunks i (acc ++ data) events = body_chunks i events) as Hb.
      { intros []; cbn; [|done]. destruct events; cbn; by rewrite Hm. }
      rewrite Hb. destruct (head_chunk_live acc data m head mode w Hl Hlen Hm Hr)
        as (st & w1 & Hs & Hl1 & Hb1 & Hi & Hw1 & Hrest).
      erewrite sr_bind_Ok by done. rewrite Hrest. destruct (is_done st) eqn:Hd.
      * exists (count + len data), w1. split_and!; [done..|]. destruct st; try done. by rewrite app_nil_r.
      * destruct (relay_body events st (count + len data) w1 Hl1 Hb1 Hd) as (c & w2 & ? & ? & Hw2).
        exists c, w2. split_and!; [done..|]. by rewrite Hw2, Hw1, !app_assoc, Hi.
    + unfold write_http_forward_response_chunk at 1.
      destruct (Z.ltb_spec HTTP_RESPONSE_HEADER_LIMIT (len (acc ++ data))); [lia|].
      rewrite Hm. apply IH; auto.
  - change (chunks (IdleTimeout :: events)) with (chunks events) in *. cbn [relay_loop uses_idle_close].
    destruct (IH acc count n head mode w Hl Hlim Hacc He Hr) as (c & w' & Hc & Hl' & Hw'). exists c, w'.
    split_and!; [done..|]. rewrite Hw'. unfold served_chunks. destruct (uses_idle_close _); [|done]. cbn [until_idle].
    by rewrite Hacc.
Qed.

(** What has arrived up to the end of the head is too much: nothing is sent. *)
Lemma relay_refused events : forall acc count w,
  ~ head_within_limit acc (chunks events) ->
  relay_loop (W := W) (ReadingHead acc) count events w = (Err ResponseHeadersTooLarge, w).
Proof.
  induction events as [|[data|] events IH]; intros acc count w Hno; [by destruct Hno|..].
  - change (chunks (Received data :: events)) with (data :: chunks events) in Hno. cbn [head_within_limit] in Hno.
    cbn [relay_loop]. unfold write_http_forward_response_chunk at 1.
    destruct (Z.ltb_spec HTTP_RESPONSE_HEADER_LIMIT (len (acc ++ data))); [done|].
    destruct (http_header_end (acc ++ data)) eqn:Hm; [by destruct Hno|]. apply IH. auto.
  - by apply IH.
Qed.
End head_facts.

(** C31. The client of a forwarded request gets the rewritten head and then the
    body: cut at the content length when there is one, empty for a status
    without a body, everything for a chunked one, and for a body that ends with
    the connection what came before the connection was first idle for the time
    limit of 750 ms after the head.  This holds however the response is cut into
    chunks, if what has arrived with the chunk that completes the head is within
    the header limit of 64 KiB, the beginning of the body included; if it is
    not, the relay fails and the client gets nothing. *)
Theorem http_forward_relay_exact {W} `{AsyncWriteLaws W} (events : list RemoteEvent) (w : W) :
  live w ->
  (forall n head mode, head_within_limit [] (chunks events) ->
     http_header_end (concat (chunks events)) = Some n ->
     rewrite_response_head_for_proxy_close (take n (concat (chunks events))) = Ok (head, mode) ->
     exists count w',
       relay_http_forward_spx_response events w = (Ok count, w')
       /\ written w' = written w ++ head
            ++ match mode with
               | ModeContentLength k => take (Z.to_nat k) (drop n (concat (chunks events)))
               | ModeChunked => drop n (concat (chunks events))
               | ModeCloseDelimited => drop n (concat (until_idle [] events))
               | ModeNoBody => []
               end)
  /\ (~ head_within_limit [] (chunks events) ->
      relay_http_forward_spx_response events w = (Err ResponseHeadersTooLarge, w)).
Proof.
  intros Hl. split.
  - intros n head mode Hlim He Hr.
    destruct (relay_head events [] 0 n head mode w Hl Hlim ltac:(done) He Hr) as (c & w1 & Hc & Hl1 & Hw1).
    unfold relay_http_forward_spx_response. erewrite sr_bind_Ok by done.
    destruct (shutdown_live w1 Hl1) as (w2 & Hs & Hw2).
    erewrite sr_bind_Ok by (unfold sr_map_err; by rewrite Hs).
    exists c, w2. split; [done|]. rewrite Hw2, Hw1. do 2 f_equal.
    destruct mode as [k| | |]; cbn [from_body_mode]; try done.
    by destruct (Z.eqb_spec k 0) as [->|].
  - intros Hno. unfold relay_http_forward_spx_response. erewrite sr_bind_Err; [done|]. by apply relay_refused.
Qed.

Definition sample_response : list byte :=
  str_bytes "HTTP/1.1 200 OK" ++ crlf ++ str_bytes "Content-Length: 3" ++ crlf
  ++ str_bytes "Proxy-Connection: keep-alive" ++ crlf ++ crlf.

Definition sample_events : list RemoteEvent :=
  Received <$> [take 7 sample_response; drop 7 sample_response ++ str_bytes "ab"; str_bytes "cdef"].

Definition sample_rewritten : list byte :=
  str_bytes "HTTP/1.1 200 OK" ++ crlf ++ str_bytes "Content-Length: 3" ++ crlf
  ++ str_bytes "connection: close" ++ crlf ++ crlf.

(** A response without a length, whose body has a pause in it. *)
Definition paused_head : list byte := str_bytes "HTTP/1.1 200 OK" ++ crlf ++ crlf.
Definition paused_events : list RemoteEvent :=
  [Received (take 7 paused_head); IdleTimeout; Received (drop 7 paused_head ++ str_bytes "ab"); IdleTimeout;
   Received (str_bytes "cdef")].
Definition paused_rewritten : list byte :=
  str_bytes "HTTP/1.1 200 OK" ++ crlf ++ str_bytes "connection: close" ++ crlf ++ crlf.

Lemma http_forward_relay_exact_witness :
  (exists count w',
    relay_http_forward_spx_response sample_events (MkWriter [] [] 0) = (Ok count, w')
    /\ written w' = sample_rewritten ++ str_bytes "abc")
  /\ exists count w',
    relay_http_forward_spx_response paused_events (MkWriter [] [] 0) = (Ok count, w')
    /\ written w' = paused_rewritten ++ str_bytes "ab".
Proof.
  split.
  - destruct (http_forward_relay_exact sample_events (MkWriter [] [] 0)) as [Hs _]; [reflexivity|].
    apply (Hs (length sample_response) sample_rewritten (ModeContentLength 3));
      [vm_compute; intuition congruence|vm_compute; reflexivity|vm_compute; reflexivity].
  - destruct (http_forward_relay_exact paused_events (MkWriter [] [] 0)) as [Hs _]; [reflexivity|].
    apply (Hs (length paused_head) paused_rewritten ModeCloseDelimited);
      [vm_compute; intuition congruence|vm_compute; reflexivity|vm_compute; reflexivity].
Defined.

(** A response with a short head and a body that fits one chunk of the link. *)
Definition large_chunk : list byte := sample_response ++ repeat x61 (Z.to_nat 65500).

(** The header limit is applied to whatever arrived with the head: there
    is a response whose head is complete, well formed and under a hundred
    bytes long, in a chunk of the size the link delivers, that the relay
    refuses as having too large headers, because the chunk also carries the
    beginning of the body. *)
Theorem http_forward_limit_counts_body :
  http_header_end large_chunk = Some (length sample_response)
  /\ len sample_response < 100 /\ len large_chunk <= TCP_DATA_CHUNK
  /\ rewrite_response_head_for_proxy_close sample_response
     = Ok (sample_rewritten, ModeContentLength 3)
  /\ forall W `(AsyncWrite W) (w : W),
       relay_http_forward_spx_response [Received large_chunk] w = (Err ResponseHeadersTooLarge, w).
Proof.
  split_and!; vm_compute; congruence.
Qed.
