(* ===== verification/Mux.v ===== *)
(** * Executions of the multiplexer's tasks

    The two ends of a link ([bridge.rs] and [remote.rs]) are several tasks on
    one shared state.  Each is given by an executable step function on events;
    an execution is a sequence of events.  This file holds what both ends
    share: executions, guards, and the ways a bounded send can end. *)
From S2P Require Import Prelude.

Section Executions.
Context {S E : Type} (step : S -> E -> option S).

Fixpoint runs (s : S) (es : list E) : option S :=
  match es with
  | [] => Some s
  | e :: es => s ← step s e; runs s es
  end.

Lemma runs_app s es1 es2 : runs s (es1 ++ es2) = s1 ← runs s es1; runs s1 es2.
Proof.
  revert s. induction es1 as [|e es1 IH]; intros s; cbn [runs app]; [done|].
  destruct (step s e); cbn; [apply IH|done].
Qed.

Lemma runs_snoc s es e s' :
  runs s (es ++ [e]) = Some s' <-> exists s1, runs s es = Some s1 /\ step s1 e = Some s'.
Proof.
  rewrite runs_app. split.
  - intros (s1 & H1 & (s2 & H2 & [= ->])%bind_Some)%bind_Some. eauto.
  - intros (s1 & -> & H). cbn. by rewrite H.
Qed.

(** A property of the initial state that every step keeps. *)
Lemma runs_invariant (I : S -> Prop) s es s' :
  (forall s e s', I s -> step s e = Some s' -> I s') -> I s -> runs s es = Some s' -> I s'.
Proof.
  intros Hstep. revert s. induction es as [|e es IH]; intros s Hs; cbn [runs].
  - by intros [= <-].
  - intros (s1 & H1 & H2)%bind_Some. eapply IH; [|done]. by eapply Hstep.
Qed.
End Executions.

(** A step with a guard. *)
Definition when {S} (b : bool) (s : S) : option S := if b then Some s else None.

Lemma when_Some {S} b (s s' : S) : when b s = Some s' -> b = true /\ s' = s.
Proof. unfold when. destruct b; naive_solver. Qed.

(** How [time::timeout(.., tx.send(v))] on a bounded channel ends. *)
Inductive SendOutcome := Sent | ReceiverGone | TimedOut.
