(* ===== verification/Bridge.v ===== *)
(** * The bridge: one link, many streams

    [crates/ssh-proxy/src/bridge.rs]: the side of a link that opens streams.
    Callers open TCP streams and register UDP associations; a writer task
    drains a bounded frame queue to the link; a reader task dispatches the
    frames of the link to the streams; a lifecycle task cleans up when the
    reader ends.

    The shared state is [BridgeInner], with the channels it feeds.  Each
    section of code that runs without waiting is one operation, and [step]
    says which operations can happen in a state and what they do: waiting (on
    a full queue, an empty channel, a timeout) is the absence of a step.  A
    stream's channel is named by its id, because an id is given out once (the
    counter is 32 bits wide and wraps; the theorems that need fresh ids say
    so). *)
From S2P Require Import Prelude RustStr Protocol Mux.

(** ** State *)

(** A bounded [mpsc] channel: what is in it, and whether its receiver lives. *)
Record Chan (A : Type) := MkChan { queue : list A; rx_alive : bool }.
Arguments MkChan {A}.
Arguments queue {A}.
Arguments rx_alive {A}.

(** An [open_tcp] call in progress: how far it is (the oneshot registered, the
    stream registered, the frame sent) and what its oneshot holds. *)
Inductive OpenPc := PcPending | PcStream | PcWaiting.
Record OpenCall := MkOpen {
  open_target : string * Z * option string;   (* host, port, egress proxy *)
  pc : OpenPc;
  answer : option (result string unit);
}.

#[global] Instance result_eq_dec {E A} `{EqDecision E} `{EqDecision A} : EqDecision (result E A).
Proof. solve_decision. Defined.

(** How far the tasks of the link are: the reader runs, has ended, and then
    the lifecycle task has drained the pending calls, cleared the TCP and the
    UDP streams and aborted the writer. *)
Inductive Phase := Running | ReaderEnded | Drained | TcpCleared | UdpCleared | Finished.

#[global] Instance Phase_eq_dec : EqDecision Phase.
Proof. solve_decision. Defined.
#[global] Instance UdpDatagram_eq_dec : EqDecision UdpDatagram.
Proof. solve_decision. Defined.

(** What the reader holds while it waits for room in a stream's channel: it
    has cloned the sender, so the stream may be removed in the meantime. *)
Inductive Delivery :=
| DelTcp (id : Z) (data : list byte)
| DelUdp (id : Z) (dg : UdpDatagram).

Record BridgeMetrics := {
  frame_write_batches : Z;
  frame_write_flushes : Z;
  frame_write_frames : Z;
  frame_write_data_frames : Z;
  frame_write_data_bytes : Z;
  frame_write_vectored_writes : Z;
  frame_write_failures : Z;
  frame_read_frames : Z;
  frame_read_data_frames : Z;
  frame_read_data_bytes : Z;
  tcp_stream_backpressure_timeouts : Z;
  udp_assoc_backpressure_timeouts : Z;
}.

Definition BridgeMetrics_default : BridgeMetrics :=
  Build_BridgeMetrics 0 0 0 0 0 0 0 0 0 0 0 0.

Record BridgeInner := {
  outbox : list Frame;        (* the queue behind [writer] *)
  writer_alive : bool;        (* its receiver, the writer task *)
  next_id : Z;
  pending_tcp : gset Z;       (* the ids with a oneshot sender *)
  opens : gmap Z OpenCall;    (* the calls holding the receiving ends *)
  tcp_streams : gset Z;       (* the ids with a sender *)
  tcp_chans : gmap Z (Chan (list byte));
  udp_streams : gset Z;
  udp_chans : gmap Z (Chan UdpDatagram);
  metrics : BridgeMetrics;
  phase : Phase;
  reading : option Delivery;  (* the reader's send in progress *)
  batch : list Frame;         (* the frames the writer has taken *)
}.

Definition BridgeInner_new : BridgeInner :=
  {| outbox := []; writer_alive := true; next_id := 1; pending_tcp := ∅; opens := ∅;
     tcp_streams := ∅; tcp_chans := ∅; udp_streams := ∅; udp_chans := ∅;
     metrics := BridgeMetrics_default; phase := Running;
     reading := None; batch := [] |}.

(** Field updates. *)
Definition set_outbox v (s : BridgeInner) : BridgeInner :=
  Build_BridgeInner v (writer_alive s) (next_id s) (pending_tcp s) (opens s) (tcp_streams s)
    (tcp_chans s) (udp_streams s) (udp_chans s) (metrics s) (phase s) (reading s) (batch s).
Definition set_next_id v (s : BridgeInner) : BridgeInner :=
  Build_BridgeInner (outbox s) (writer_alive s) v (pending_tcp s) (opens s) (tcp_streams s)
    (tcp_chans s) (udp_streams s) (udp_chans s) (metrics s) (phase s) (reading s) (batch s).
Definition set_opening p o (s : BridgeInner) : BridgeInner :=
  Build_BridgeInner (outbox s) (writer_alive s) (next_id s) p o (tcp_streams s) (tcp_chans s)
    (udp_streams s) (udp_chans s) (metrics s) (phase s) (reading s) (batch s).
Definition set_tcp t c (s : BridgeInner) : BridgeInner :=
  Build_BridgeInner (outbox s) (writer_alive s) (next_id s) (pending_tcp s) (opens s) t c
    (udp_streams s) (udp_chans s) (metrics s) (phase s) (reading s) (batch s).
Definition set_udp t c (s : BridgeInner) : BridgeInner :=
  Build_BridgeInner (outbox s) (writer_alive s) (next_id s) (pending_tcp s) (opens s)
    (tcp_streams s) (tcp_chans s) t c (metrics s) (phase s) (reading s) (batch s).
Definition set_metrics m (s : BridgeInner) : BridgeInner :=
  Build_BridgeInner (outbox s) (writer_alive s) (next_id s) (pending_tcp s) (opens s)
    (tcp_streams s) (tcp_chans s) (udp_streams s) (udp_chans s) m (phase s) (reading s) (batch s).
Definition set_phase p (s : BridgeInner) : BridgeInner :=
  Build_BridgeInner (outbox s) (writer_alive s) (next_id s) (pending_tcp s) (opens s)
    (tcp_streams s) (tcp_chans s) (udp_streams s) (udp_chans s) (metrics s) p (reading s)
    (batch s).
Definition set_reading r (s : BridgeInner) : BridgeInner :=
  Build_BridgeInner (outbox s) (writer_alive s) (next_id s) (pending_tcp s) (opens s)
    (tcp_streams s) (tcp_chans s) (udp_streams s) (udp_chans s) (metrics s) (phase s) r (batch s).
Definition set_batch b (s : BridgeInner) : BridgeInner :=
  Build_BridgeInner (outbox s) (writer_alive s) (next_id s) (pending_tcp s) (opens s)
    (tcp_streams s) (tcp_chans s) (udp_streams s) (udp_chans s) (metrics s) (phase s) (reading s)
    b.
Definition stop_writer (s : BridgeInner) : BridgeInner :=
  Build_BridgeInner [] false (next_id s) (pending_tcp s) (opens s) (tcp_streams s) (tcp_chans s)
    (udp_streams s) (udp_chans s) (metrics s) (phase s) (reading s) [].

(** ** Metrics *)

(** [fetch_add] wraps. *)
Definition add64 (a b : Z) : Z := wrap_u 64 (a + b).

Definition record_write_batch (st : FrameWriteBatchStats) (m : BridgeMetrics) : BridgeMetrics :=
  {| frame_write_batches := add64 (frame_write_batches m) 1;
     frame_write_flushes := add64 (frame_write_flushes m) (flushes_done st);
     frame_write_frames := add64 (frame_write_frames m) (frames_written st);
     frame_write_data_frames := add64 (frame_write_data_frames m) (data_frames_written st);
     frame_write_data_bytes := add64 (frame_write_data_bytes m) (data_bytes_written st);
     frame_write_vectored_writes := add64 (frame_write_vectored_writes m) (vectored_writes st);
     frame_write_failures := frame_write_failures m;
     frame_read_frames := frame_read_frames m;
     frame_read_data_frames := frame_read_data_frames m;
     frame_read_data_bytes := frame_read_data_bytes m;
     tcp_stream_backpressure_timeouts := tcp_stream_backpressure_timeouts m;
     udp_assoc_backpressure_timeouts := udp_assoc_backpressure_timeouts m |}.

Definition record_read_frame (f : Frame) (m : BridgeMetrics) : BridgeMetrics :=
  {| frame_write_batches := frame_write_batches m;
     frame_write_flushes := frame_write_flushes m;
     frame_write_frames := frame_write_frames m;
     frame_write_data_frames := frame_write_data_frames m;
     frame_write_data_bytes := frame_write_data_bytes m;
     frame_write_vectored_writes := frame_write_vectored_writes m;
     frame_write_failures := frame_write_failures m;
     frame_read_frames := add64 (frame_read_frames m) 1;
     frame_read_data_frames :=
       match f with Data _ _ => add64 (frame_read_data_frames m) 1 | _ => frame_read_data_frames m end;
     frame_read_data_bytes :=
       match f with
       | Data _ data => add64 (frame_read_data_bytes m) (len data)
       | _ => frame_read_data_bytes m
       end;
     tcp_stream_backpressure_timeouts := tcp_stream_backpressure_timeouts m;
     udp_assoc_backpressure_timeouts := udp_assoc_backpressure_timeouts m |}.

(** The three counters that only grow by one. *)
Definition bump (write_failures tcp_timeouts udp_timeouts : Z) (m : BridgeMetrics) : BridgeMetrics :=
  Build_BridgeMetrics (frame_write_batches m) (frame_write_flushes m) (frame_write_frames m)
    (frame_write_data_frames m) (frame_write_data_bytes m) (frame_write_vectored_writes m)
    (add64 (frame_write_failures m) write_failures) (frame_read_frames m) (frame_read_data_frames m)
    (frame_read_data_bytes m) (add64 (tcp_stream_backpressure_timeouts m) tcp_timeouts)
    (add64 (udp_assoc_backpressure_timeouts m) udp_timeouts).
Definition record_write_failure : BridgeMetrics -> BridgeMetrics := bump 1 0 0.
Definition record_tcp_backpressure_timeout : BridgeMetrics -> BridgeMetrics := bump 0 1 0.
Definition record_udp_backpressure_timeout : BridgeMetrics -> BridgeMetrics := bump 0 0 1.

(** What [write_frame_batch] reports for the frames of a batch. *)
Definition batch_stats (fs : list Frame) (vectored : Z) : FrameWriteBatchStats :=
  set_flushed (add_vectored vectored
    (foldl (fun st f => record_frame f st) FrameWriteBatchStats_default fs)).

(** ** The calls of [BridgeHandle] *)

(** [self.inner.writer.send(frame)]: fails when the writer task is gone.  It
    waits while the queue is full, which is the guard of [step]. *)
Definition send_frame (f : Frame) (s : BridgeInner) : bool * BridgeInner :=
  if writer_alive s then (true, set_outbox (outbox s ++ [f]) s) else (false, s).

Definition can_send (s : BridgeInner) : bool :=
  negb (writer_alive s) || (len (outbox s) <? FRAME_CHANNEL_CAPACITY).

(** [open_tcp], part by part: take an id and register the oneshot, register
    the stream, send the frame, and take the answer or give up. *)
Definition open_register (host : string) (port : Z) (egress_proxy : option string)
    (s : BridgeInner) : BridgeInner :=
  let id := next_id s in
  set_next_id (wrap_u 32 (id + 1))
    (set_opening ({[id]} ∪ pending_tcp s)
       (<[id := MkOpen (host, port, egress_proxy) PcPending None]> (opens s)) s).

Definition open_stream (id : Z) (c : OpenCall) (s : BridgeInner) : BridgeInner :=
  set_tcp ({[id]} ∪ tcp_streams s) (<[id := MkChan [] true]> (tcp_chans s))
    (set_opening (pending_tcp s) (<[id := MkOpen (open_target c) PcStream (answer c)]> (opens s)) s).

(** The call returns an error: its registrations are removed and its data
    receiver is dropped. *)
Definition open_fail (id : Z) (s : BridgeInner) : BridgeInner :=
  set_tcp (tcp_streams s ∖ {[id]}) (delete id (tcp_chans s))
    (set_opening (pending_tcp s ∖ {[id]}) (delete id (opens s)) s).

Definition open_send (id : Z) (c : OpenCall) (s : BridgeInner) : BridgeInner :=
  let '(host, port, egress_proxy) := open_target c in
  let '(ok, s) := send_frame (OpenTcp id host port egress_proxy) s in
  if ok then
    set_opening (pending_tcp s) (<[id := MkOpen (open_target c) PcWaiting (answer c)]> (opens s)) s
  else open_fail id s.

Definition open_finish (id : Z) (r : result string unit) (s : BridgeInner) : BridgeInner :=
  match r with
  | Ok _ => set_opening (pending_tcp s) (delete id (opens s)) s
  | Err _ => open_fail id s
  end.

Definition send_data (id : Z) (data : list byte) (s : BridgeInner) : BridgeInner :=
  (send_frame (Data id data) s).2.

Definition close (id : Z) (reason : string) (s : BridgeInner) : BridgeInner :=
  let s := (send_frame (Close id reason) s).2 in
  set_tcp (tcp_streams s ∖ {[id]}) (tcp_chans s) s.

Definition register_udp (s : BridgeInner) : BridgeInner :=
  let id := next_id s in
  set_next_id (wrap_u 32 (id + 1))
    (set_udp ({[id]} ∪ udp_streams s) (<[id := MkChan [] true]> (udp_chans s)) s).

Definition send_udp (id : Z) (dg : UdpDatagram) (s : BridgeInner) : BridgeInner :=
  (send_frame (UdpPacket id (dg_host dg) (dg_port dg) (dg_data dg)) s).2.

Definition unregister_udp (id : Z) (s : BridgeInner) : BridgeInner :=
  let s := set_udp (udp_streams s ∖ {[id]}) (udp_chans s) s in
  (send_frame (Close id "udp association closed") s).2.

Definition send_log (message : string) (s : BridgeInner) : BridgeInner :=
  (send_frame (Log message) s).2.

(** ** The reader *)

(** [tx.send(r)] on the oneshot of a call; the call may have gone. *)
Definition answer_open (id : Z) (r : result string unit) (s : BridgeInner) : BridgeInner :=
  set_opening (pending_tcp s ∖ {[id]})
    (alter (fun c => MkOpen (open_target c) (pc c) (Some r)) id (opens s)) s.

Definition push_chan {A} (id : Z) (v : A) (m : gmap Z (Chan A)) : gmap Z (Chan A) :=
  alter (fun c => MkChan (queue c ++ [v]) (rx_alive c)) id m.

(** The end of the reader's send, after which it goes on with the next frame. *)
Definition deliver_tcp (id : Z) (data : list byte) (o : SendOutcome) (s : BridgeInner) :
    BridgeInner :=
  match o with
  | Sent => set_tcp (tcp_streams s) (push_chan id data (tcp_chans s)) s
  | ReceiverGone => set_tcp (tcp_streams s ∖ {[id]}) (tcp_chans s) s
  | TimedOut =>
    let s := set_metrics (record_tcp_backpressure_timeout (metrics s)) s in
    let s := set_tcp (tcp_streams s ∖ {[id]}) (tcp_chans s) s in
    (send_frame (Close id "local receiver backpressure timed out after 30s") s).2
  end.

Definition deliver_udp (id : Z) (dg : UdpDatagram) (o : SendOutcome) (s : BridgeInner) :
    BridgeInner :=
  match o with
  | Sent => set_udp (udp_streams s) (push_chan id dg (udp_chans s)) s
  | ReceiverGone => set_udp (udp_streams s ∖ {[id]}) (udp_chans s) s
  | TimedOut =>
    let s := set_metrics (record_udp_backpressure_timeout (metrics s)) s in
    let s := set_udp (udp_streams s ∖ {[id]}) (udp_chans s) s in
    (send_frame (Close id "local UDP receiver backpressure timed out after 10s") s).2
  end.

Definition deliver (d : Delivery) (o : SendOutcome) (s : BridgeInner) : BridgeInner :=
  let s := set_reading None s in
  match d with
  | DelTcp id data => deliver_tcp id data o s
  | DelUdp id dg => deliver_udp id dg o s
  end.

(** One turn of [reader_loop], up to the send to the stream's channel for the
    frames that make one. *)
Definition handle_frame (f : Frame) (s : BridgeInner) : BridgeInner :=
  let s := set_metrics (record_read_frame f (metrics s)) s in
  match f with
  | OpenTcpResult id ok message =>
    if decide (id ∈ pending_tcp s)
    then answer_open id (if ok then Ok tt else Err message) s else s
  | Data id data => if decide (id ∈ tcp_streams s) then set_reading (Some (DelTcp id data)) s else s
  | UdpPacket id host port data =>
    if decide (id ∈ udp_streams s) then
      set_reading (Some (DelUdp id {| dg_host := host; dg_port := port; dg_data := data |})) s
    else s
  | Close id reason =>
    let s := set_tcp (tcp_streams s ∖ {[id]}) (tcp_chans s) s in
    let s := set_udp (udp_streams s ∖ {[id]}) (udp_chans s) s in
    if decide (id ∈ pending_tcp s) then answer_open id (Err reason) s else s
  | Log _ | OpenTcp _ _ _ _ => s
  end.

(** ** The lifecycle task *)

Definition drain_pending (s : BridgeInner) : BridgeInner :=
  set_phase Drained (set_opening ∅
    (map_imap (fun id c => Some
       (if decide (id ∈ pending_tcp s)
        then MkOpen (open_target c) (pc c) (Some (Err "remote bridge closed"%string)) else c))
     (opens s)) s).

(** ** Steps *)

Inductive Event :=
| EOpen (id : Z) (host : string) (port : Z) (egress_proxy : option string)
| EOpenStream (id : Z)
| EOpenSend (id : Z)
| EOpenDone (id : Z) (r : result string unit)
| EOpenTimeout (id : Z)
| ESendData (id : Z) (data : list byte)
| EClose (id : Z) (reason : string)
| ERegisterUdp (id : Z)
| ESendUdp (id : Z) (dg : UdpDatagram)
| EUnregisterUdp (id : Z)
| ELog (message : string)
| ERead (f : Frame)                      (* the reader gets a frame *)
| EDeliver (o : SendOutcome)             (* its send to a channel ends *)
| ERecvTcp (id : Z) (data : list byte)   (* the flow takes a chunk *)
| ERecvUdp (id : Z) (dg : UdpDatagram)
| EDropTcp (id : Z)                      (* the flow drops its receiver *)
| EDropUdp (id : Z)
| ETake                                  (* the writer takes a frame into its batch *)
| EWrite (vectored : Z)                  (* the batch is written *)
| EWriteFail
| EReaderEnd
| EDrain
| EClearTcp
| EClearUdp
| EAbortWriter.

(** When a send to a channel can end the way [o] says. *)
Definition outcome_ok {A} (c : option (Chan A)) (o : SendOutcome) : bool :=
  match o, c with
  | Sent, Some c => rx_alive c && (len (queue c) <? TCP_STREAM_CHANNEL_CAPACITY)
  | Sent, None => false
  | ReceiverGone, Some c => negb (rx_alive c)
  | ReceiverGone, None => true
  | TimedOut, Some c => rx_alive c && (TCP_STREAM_CHANNEL_CAPACITY <=? len (queue c))
  | TimedOut, None => false
  end.

Definition reader_idle (s : BridgeInner) : bool :=
  bool_decide (phase s = Running) && match reading s with None => true | Some _ => false end.

Definition deliver_ok (d : Delivery) (o : SendOutcome) (s : BridgeInner) : bool :=
  match d with
  | DelTcp id _ => outcome_ok (tcp_chans s !! id) o
  | DelUdp id _ => outcome_ok (udp_chans s !! id) o
  end
  && match o with TimedOut => can_send s | _ => true end.

(** The head of a channel is taken by its receiver. *)
Definition pop_chan {A} `{EqDecision A} (id : Z) (v : A) (m : gmap Z (Chan A)) :
    option (gmap Z (Chan A)) :=
  match m !! id with
  | Some (MkChan (x :: q) true) => if decide (x = v) then Some (<[id := MkChan q true]> m) else None
  | _ => None
  end.

Definition drop_chan {A} (id : Z) (m : gmap Z (Chan A)) : gmap Z (Chan A) :=
  alter (fun c => MkChan (queue c) false) id m.

Definition step (s : BridgeInner) (e : Event) : option BridgeInner :=
  match e with
  | EOpen id host port egress_proxy =>
    when (id =? next_id s) (open_register host port egress_proxy s)
  | EOpenStream id =>
    match opens s !! id with
    | Some (MkOpen f PcPending a) => Some (open_stream id (MkOpen f PcPending a) s)
    | _ => None
    end
  | EOpenSend id =>
    match opens s !! id with
    | Some (MkOpen f PcStream a) => when (can_send s) (open_send id (MkOpen f PcStream a) s)
    | _ => None
    end
  | EOpenDone id r =>
    match opens s !! id with
    | Some (MkOpen _ PcWaiting (Some a)) => if decide (a = r) then Some (open_finish id r s) else None
    | _ => None
    end
  | EOpenTimeout id =>
    match opens s !! id with
    | Some (MkOpen _ PcWaiting None) => Some (open_fail id s)
    | _ => None
    end
  | ESendData id data => when (can_send s) (send_data id data s)
  | EClose id reason => when (can_send s) (close id reason s)
  | ERegisterUdp id => when (id =? next_id s) (register_udp s)
  | ESendUdp id dg => when (can_send s) (send_udp id dg s)
  | EUnregisterUdp id => when (can_send s) (unregister_udp id s)
  | ELog message => when (can_send s) (send_log message s)
  | ERead f => when (reader_idle s) (handle_frame f s)
  | EDeliver o =>
    match reading s with
    | Some d => when (deliver_ok d o s) (deliver d o s)
    | None => None
    end
  | ERecvTcp id data =>
    m ← pop_chan id data (tcp_chans s); Some (set_tcp (tcp_streams s) m s)
  | ERecvUdp id dg =>
    m ← pop_chan id dg (udp_chans s); Some (set_udp (udp_streams s) m s)
  | EDropTcp id => Some (set_tcp (tcp_streams s) (drop_chan id (tcp_chans s)) s)
  | EDropUdp id => Some (set_udp (udp_streams s) (drop_chan id (udp_chans s)) s)
  | ETake =>
    match outbox s with
    | f :: rest =>
      when (writer_alive s && (len (batch s) <? FRAME_WRITE_BATCH_LIMIT))
        (set_batch (batch s ++ [f]) (set_outbox rest s))
    | [] => None
    end
  | EWrite vectored =>
    when (writer_alive s && match batch s with [] => false | _ => true end)
      (set_metrics (record_write_batch (batch_stats (batch s) vectored) (metrics s)) (set_batch [] s))
  | EWriteFail =>
    when (writer_alive s) (set_metrics (record_write_failure (metrics s)) (stop_writer s))
  | EReaderEnd => when (reader_idle s) (set_phase ReaderEnded s)
  | EDrain => when (bool_decide (phase s = ReaderEnded)) (drain_pending s)
  | EClearTcp =>
    when (bool_decide (phase s = Drained)) (set_phase TcpCleared (set_tcp ∅ (tcp_chans s) s))
  | EClearUdp =>
    when (bool_decide (phase s = TcpCleared)) (set_phase UdpCleared (set_udp ∅ (udp_chans s) s))
  | EAbortWriter =>
    when (bool_decide (phase s = UdpCleared)) (set_phase Finished (stop_writer s))
  end.

Definition reaches (es : list Event) (s : BridgeInner) : Prop :=
  runs step BridgeInner_new es = Some s.

(** ** What the events say about one TCP stream *)

(** The chunks its flow has taken. *)
Definition received_by (id : Z) (e : Event) : option (list byte) :=
  match e with
  | ERecvTcp i data => if decide (i = id) then Some data else None
  | _ => None
  end.
Definition received (id : Z) (es : list Event) : list (list byte) := omap (received_by id) es.

(** Whether it was opened, and the data frames read for it since. *)
Definition history_step (id : Z) (h : bool * list (list byte)) (e : Event) :
    bool * list (list byte) :=
  match e with
  | EOpenStream i => if decide (i = id) then (true, h.2) else h
  | ERead (Data i data) => if h.1 && bool_decide (i = id) then (true, h.2 ++ [data]) else h
  | _ => h
  end.
Definition history (id : Z) (es : list Event) : bool * list (list byte) :=
  foldl (history_step id) (false, []) es.

(** The chunk the reader is sending to its channel. *)
Definition in_flight (id : Z) (s : BridgeInner) : list (list byte) :=
  match reading s with
  | Some (DelTcp i data) => if decide (i = id) then [data] else []
  | _ => []
  end.

(** What waits in its channel or to enter it. *)
Definition chan_queue (id : Z) (s : BridgeInner) : list (list byte) :=
  match tcp_chans s !! id with
  | Some c => queue c ++ in_flight id s
  | None => []
  end.

(** How many ids were given out. *)
Definition alloc (e : Event) : Z :=
  match e with
  | EOpen _ _ _ _ | ERegisterUdp _ => 1
  | _ => 0
  end.
Definition allocs (es : list Event) : Z := foldr (fun e n => alloc e + n) 0 es.

Lemma allocs_snoc es e : allocs (es ++ [e]) = allocs es + alloc e.
Proof. unfold allocs. induction es as [|e' es IH]; cbn [app foldr]; lia. Qed.

Lemma alloc_nonneg e : 0 <= alloc e <= 1.
Proof. destruct e; cbn; lia. Qed.

Lemma allocs_nonneg es : 0 <= allocs es.
Proof. induction es as [|e es IH]; [done|]. cbn. pose proof (alloc_nonneg e). unfold allocs in *. lia. Qed.

Lemma received_snoc id es e :
  received id (es ++ [e]) = received id es ++ match received_by id e with Some d => [d] | None => [] end.
Proof. unfold received. rewrite omap_app. cbn. by destruct (received_by id e). Qed.

Lemma history_snoc id es e : history id (es ++ [e]) = history_step id (history id es) e.
Proof. unfold history. by rewrite foldl_app. Qed.

(** ** The invariant *)

Record stream_inv (es : list Event) (s : BridgeInner) : Prop := {
  inv_next : next_id s = 1 + allocs es;
  inv_opens : forall id c, opens s !! id = Some c ->
    id < next_id s /\ (pc c = PcPending -> (history id es).1 = false);
  inv_opened : forall id, (history id es).1 = true -> id < next_id s;
  inv_unopened : forall id, (history id es).1 = false ->
    tcp_chans s !! id = None /\ (id ∉ tcp_streams s) /\ received id es = [] /\ in_flight id s = [];
  inv_prefix : forall id, (received id es ++ chan_queue id s) `prefix_of` (history id es).2;
  inv_live : forall id, id ∈ tcp_streams s ->
    is_Some (tcp_chans s !! id) /\ received id es ++ chan_queue id s = (history id es).2;
}.

(** Steps that only take away: no new call, no new stream, nothing added to a
    channel and nothing lost from the channel of a live stream. *)
Record shrinks (s s' : BridgeInner) : Prop := {
  shrink_opens : forall id c, opens s' !! id = Some c ->
    exists c', opens s !! id = Some c' /\ (pc c = PcPending -> pc c' = PcPending);
  shrink_streams : tcp_streams s' ⊆ tcp_streams s;
  shrink_chans : forall id, is_Some (tcp_chans s' !! id) -> is_Some (tcp_chans s !! id);
  shrink_flight : forall id, in_flight id s = [] -> in_flight id s' = [];
  shrink_queue : forall id, chan_queue id s' `prefix_of` chan_queue id s;
  shrink_live : forall id, id ∈ tcp_streams s' ->
    chan_queue id s' = chan_queue id s
    /\ (is_Some (tcp_chans s !! id) -> is_Some (tcp_chans s' !! id));
}.

(** Events that take nothing from a TCP stream and add nothing to a live one. *)
Definition quiet (es : list Event) (s' : BridgeInner) (e : Event) : Prop :=
  (forall id, received_by id e = None)
  /\ forall id, let h := history id es in
     (history_step id h e).1 = h.1 /\ (h.2 `prefix_of` (history_step id h e).2)
     /\ (id ∈ tcp_streams s' -> history_step id h e = h).

Lemma stream_inv_shrinks es s s' e :
  stream_inv es s -> quiet es s' e -> shrinks s s' -> next_id s' = next_id s + alloc e ->
  stream_inv (es ++ [e]) s'.
Proof.
  intros I [Hr Hh] Hs Hn. pose proof (alloc_nonneg e) as Ha.
  assert (Hrec : forall id, received id (es ++ [e]) = received id es)
    by (intros id; by rewrite received_snoc, Hr, app_nil_r).
  split.
  - rewrite Hn, (inv_next _ _ I), allocs_snoc. lia.
  - intros id c Hc. apply (shrink_opens _ _ Hs) in Hc as (c' & Hc' & Hpc).
    apply (inv_opens _ _ I) in Hc' as [? ?].
    rewrite history_snoc, (proj1 (Hh id)). split; [lia|auto].
  - intros id. rewrite history_snoc, (proj1 (Hh id)). intros ?%(inv_opened _ _ I). lia.
  - intros id. rewrite history_snoc, (proj1 (Hh id)), Hrec.
    intros (Hc & Ht & ? & ?)%(inv_unopened _ _ I).
    split_and!; [|pose proof (shrink_streams _ _ Hs); set_solver|done|by apply (shrink_flight _ _ Hs)].
    apply eq_None_not_Some. intros [c ?]%(shrink_chans _ _ Hs). congruence.
  - intros id. rewrite history_snoc, Hrec. destruct (Hh id) as (_ & Hp' & _).
    etrans; [|exact Hp']. etrans; [|apply (inv_prefix _ _ I)].
    apply prefix_app, (shrink_queue _ _ Hs).
  - intros id Hid. rewrite history_snoc, Hrec, (proj2 (proj2 (Hh id)) Hid).
    destruct (inv_live _ _ I id) as [Hc He]; [pose proof (shrink_streams _ _ Hs); set_solver|].
    destruct (shrink_live _ _ Hs id Hid) as [-> Hc']. auto.
Qed.

(** Nothing changes but registrations. *)
Lemma shrinks_refl s s' :
  opens s' = opens s -> tcp_streams s' ⊆ tcp_streams s -> tcp_chans s' = tcp_chans s ->
  reading s' = reading s -> shrinks s s'.
Proof.
  intros Ho Ht Hc Hr.
  assert (Hq : forall id, chan_queue id s' = chan_queue id s)
    by (intros id; unfold chan_queue, in_flight; by rewrite Hc, Hr).
  split; intros id; rewrite ?Ho, ?Hc, ?Hq; unfold in_flight; rewrite ?Hr; eauto.
Qed.

(** [send_frame] only touches the queue. *)
Lemma send_frame_eq f s : exists b, send_frame f s = (b, set_outbox (outbox (send_frame f s).2) s).
Proof. unfold send_frame. destruct (writer_alive s); eexists; [done|]. by destruct s. Qed.

Lemma chan_queue_delete t id i s :
  chan_queue i (set_tcp t (delete id (tcp_chans s)) s) = if decide (id = i) then [] else chan_queue i s.
Proof.
  unfold chan_queue. cbn. case_decide; subst; [by rewrite lookup_delete_eq|by rewrite lookup_delete_ne].
Qed.

Lemma shrinks_open_fail id s : shrinks s (open_fail id s).
Proof.
  assert (Hq : forall i, chan_queue i (open_fail id s) = if decide (id = i) then [] else chan_queue i s)
    by (intros i; exact (chan_queue_delete _ id i (set_opening (pending_tcp s ∖ {[id]}) (delete id (opens s)) s))).
  split; intros i; rewrite ?Hq; cbn.
  - intros c [_ Hc]%lookup_delete_Some. eauto.
  - set_solver.
  - intros [c [_ ?]%lookup_delete_Some]. eauto.
  - done.
  - case_decide; [apply prefix_nil|done].
  - intros Hi. assert (id <> i) by set_solver. rewrite decide_False by done. by rewrite lookup_delete_ne.
Qed.

(** Calls may lose or gain an answer, or go past the first part. *)
Lemma shrinks_opens p o s :
  (forall id c, o !! id = Some c ->
     exists c', opens s !! id = Some c' /\ (pc c = PcPending -> pc c' = PcPending)) ->
  shrinks s (set_opening p o s).
Proof. intros Ho. by split. Qed.

Lemma shrinks_answer id r s : shrinks s (answer_open id r s).
Proof.
  apply shrinks_opens. intros i c. destruct (decide (id = i)) as [->|].
  - rewrite lookup_alter_eq. destruct (opens s !! i) as [c'|]; cbn; [|done].
    intros [= <-]. exists c'. done.
  - rewrite lookup_alter_ne by done. eauto.
Qed.

Lemma shrinks_trans s1 s2 s3 : shrinks s1 s2 -> shrinks s2 s3 -> shrinks s1 s3.
Proof.
  intros H12 H23. split.
  - intros id c Hc. apply (shrink_opens _ _ H23) in Hc as (c2 & Hc2 & ?).
    apply (shrink_opens _ _ H12) in Hc2 as (c1 & ? & ?). eauto.
  - pose proof (shrink_streams _ _ H12). pose proof (shrink_streams _ _ H23). set_solver.
  - intros id ?%(shrink_chans _ _ H23). by apply (shrink_chans _ _ H12).
  - intros id ?. by apply (shrink_flight _ _ H23), (shrink_flight _ _ H12).
  - intros id. etrans; [apply (shrink_queue _ _ H23)|apply (shrink_queue _ _ H12)].
  - intros id H3. assert (H2 : id ∈ tcp_streams s2) by (pose proof (shrink_streams _ _ H23); set_solver).
    destruct (shrink_live _ _ H23 id H3) as [-> ?]. destruct (shrink_live _ _ H12 id H2) as [-> ?]. auto.
Qed.

(** ... and leave the id counter alone. *)
Definition takes (s s' : BridgeInner) : Prop := shrinks s s' /\ next_id s' = next_id s.

Lemma takes_trans s1 s2 s3 : takes s1 s2 -> takes s2 s3 -> takes s1 s3.
Proof. intros [H1 N1] [H2 N2]. split; [by eapply shrinks_trans|congruence]. Qed.

Lemma takes_same s s' :
  opens s' = opens s -> tcp_streams s' ⊆ tcp_streams s -> tcp_chans s' = tcp_chans s ->
  reading s' = reading s -> next_id s' = next_id s -> takes s s'.
Proof. intros. split; [by apply shrinks_refl|done]. Qed.

Lemma takes_send f s : takes s (send_frame f s).2.
Proof. unfold send_frame. destruct (writer_alive s); by apply takes_same. Qed.

Lemma takes_remove id s : takes s (set_tcp (tcp_streams s ∖ {[id]}) (tcp_chans s) s).
Proof. apply takes_same; cbn; [done|set_solver|done..]. Qed.

Lemma takes_udp t c s : takes s (set_udp t c s).
Proof. by apply takes_same. Qed.

Lemma takes_metrics m s : takes s (set_metrics m s).
Proof. by apply takes_same. Qed.

Lemma takes_answer id r s : takes s (answer_open id r s).
Proof. split; [apply shrinks_answer|done]. Qed.

Lemma takes_fail id s : takes s (open_fail id s).
Proof. split; [apply shrinks_open_fail|done]. Qed.

Lemma takes_past_pending p id f q a s :
  is_Some (opens s !! id) -> q <> PcPending ->
  takes s (set_opening p (<[id := MkOpen f q a]> (opens s)) s).
Proof.
  intros [c0 Hc0] Hq. split; [|done]. apply shrinks_opens.
  intros i c [[<- <-]|[? Hc]]%lookup_insert_Some; [|by eauto].
  exists c0. split; [done|]. cbn. by intros ->.
Qed.

Lemma takes_delete p id s : takes s (set_opening p (delete id (opens s)) s).
Proof. split; [|done]. apply shrinks_opens. intros i c [_ Hc]%lookup_delete_Some. eauto. Qed.

Create HintDb bridge.
#[export] Hint Resolve takes_send takes_remove takes_udp takes_metrics takes_answer takes_fail
  takes_delete : bridge.

(** The frames that feed a TCP stream; the others only take away. *)
Definition feeds (f : Frame) (s : BridgeInner) : Prop :=
  match f with
  | Data id _ => id ∈ tcp_streams s
  | _ => False
  end.

#[global] Instance feeds_dec f s : Decision (feeds f s).
Proof. destruct f; cbn; apply _. Defined.

Lemma takes_read_udp id dg s : reading s = None -> takes s (set_reading (Some (DelUdp id dg)) s).
Proof.
  intros Hr. assert (Hq : forall i, chan_queue i (set_reading (Some (DelUdp id dg)) s) = chan_queue i s)
    by (intros i; unfold chan_queue, in_flight; cbn; by rewrite Hr).
  split; [|done]. split; intros i; rewrite ?Hq; eauto.
Qed.

Lemma takes_handle_frame f s : reading s = None -> ~ feeds f s -> takes s (handle_frame f s).
Proof.
  intros Hr Hf. unfold handle_frame. eapply takes_trans; [apply (takes_metrics (record_read_frame f (metrics s)))|].
  set (s1 := set_metrics _ s).
  destruct f as [| id ok m | id data | id reason | id host port data |]; try by apply takes_same.
  - case_decide; [apply takes_answer|by apply takes_same].
  - rewrite decide_False by done. by apply takes_same.
  - eapply takes_trans; [apply (takes_remove id)|]. eapply takes_trans; [apply takes_udp|].
    case_decide; [by apply takes_answer|by apply takes_same].
  - case_decide; [by apply takes_read_udp|by apply takes_same].
Qed.

(** The end of a send: the chunk is in the channel, or it is lost and the
    stream is not live. *)
Lemma takes_pushed id data s c :
  reading s = Some (DelTcp id data) -> tcp_chans s !! id = Some c ->
  takes s (set_tcp (tcp_streams s) (push_chan id data (tcp_chans s)) (set_reading None s)).
Proof.
  intros Hr Hc. set (s' := set_tcp _ _ _).
  assert (Hq : forall i, chan_queue i s' = chan_queue i s).
  { intros i. unfold chan_queue, in_flight, s', push_chan. cbn. rewrite Hr.
    destruct (decide (id = i)) as [->|].
    - rewrite lookup_alter_eq, Hc. cbn. by rewrite app_nil_r.
    - by rewrite lookup_alter_ne. }
  assert (Hs : forall i, is_Some (tcp_chans s' !! i) <-> is_Some (tcp_chans s !! i)).
  { intros i. unfold s', push_chan. cbn. destruct (decide (id = i)) as [->|].
    - by rewrite lookup_alter_eq, fmap_is_Some.
    - by rewrite lookup_alter_ne. }
  split; [|done]. split; intros i; rewrite ?Hq, ?Hs; cbn; eauto.
Qed.

Lemma takes_lost id data s :
  reading s = Some (DelTcp id data) ->
  takes s (set_tcp (tcp_streams s ∖ {[id]}) (tcp_chans s) (set_reading None s)).
Proof.
  intros Hr. set (s' := set_tcp _ _ _).
  assert (Hq : forall i, chan_queue i s'
                         = if decide (id = i) then default [] (queue <$> tcp_chans s !! i) else chan_queue i s).
  { intros i. unfold chan_queue, in_flight, s'. cbn. rewrite Hr.
    destruct (tcp_chans s !! i); cbn; case_decide; by rewrite ?app_nil_r. }
  split; [|done]. split; intros i; rewrite ?Hq; cbn; [by eauto|set_solver|by eauto|done|..].
  - case_decide; [|done]. unfold chan_queue. destruct (tcp_chans s !! i); cbn; [|done]. by apply prefix_app_r.
  - intros Hi. rewrite decide_False by set_solver. done.
Qed.

Lemma takes_delivered_udp id dg s : reading s = Some (DelUdp id dg) -> takes s (set_reading None s).
Proof.
  intros Hr. assert (Hq : forall i, chan_queue i (set_reading None s) = chan_queue i s)
    by (intros i; unfold chan_queue, in_flight; cbn; by rewrite Hr).
  split; [|done]. split; intros i; rewrite ?Hq; eauto.
Qed.

Lemma takes_deliver d o s : reading s = Some d -> deliver_ok d o s = true -> takes s (deliver d o s).
Proof.
  intros Hr Hok. unfold deliver. destruct d as [id data|id dg].
  - destruct o; cbn [deliver_tcp].
    + unfold deliver_ok in Hok. destruct (tcp_chans s !! id) as [c|] eqn:Hc; [|done]. exact (takes_pushed id data s c Hr Hc).
    + exact (takes_lost id data s Hr).
    + eapply takes_trans; [exact (takes_lost id data s Hr)|].
      eapply takes_trans; [apply (takes_metrics (record_tcp_backpressure_timeout (metrics s)))|].
      apply takes_send.
  - eapply takes_trans; [exact (takes_delivered_udp id dg s Hr)|]. destruct o; cbn [deliver_udp]; [by auto with bridge..|].
    eapply takes_trans; [apply takes_metrics|]. eapply takes_trans; [apply takes_udp|]. apply takes_send.
Qed.

(** ** Preservation *)

Definition busy (e : Event) (s : BridgeInner) : Prop :=
  match e with
  | EOpen _ _ _ _ | EOpenStream _ | ERecvTcp _ _ | ERegisterUdp _ => True
  | ERead f => feeds f s
  | _ => False
  end.

Lemma takes_open_send id f a s :
  is_Some (opens s !! id) -> takes s (open_send id (MkOpen f PcStream a) s).
Proof.
  intros Ho. unfold open_send. cbn [open_target answer]. destruct f as [[host port] px].
  destruct (send_frame (OpenTcp id host port px) s) as [ok s1] eqn:E.
  pose proof (takes_send (OpenTcp id host port px) s) as Ht. rewrite E in Ht. cbn [snd] in Ht.
  eapply takes_trans; [exact Ht|]. destruct ok; [|apply takes_fail].
  apply takes_past_pending; [|done].
  unfold send_frame in E. destruct (writer_alive s); simplify_eq. exact Ho.
Qed.

Lemma takes_drain s : takes s (drain_pending s).
Proof.
  split; [|done]. split; cbn; [|by eauto..].
  intros id c Hc. rewrite map_lookup_imap in Hc. destruct (opens s !! id) as [c'|] eqn:E; cbn in Hc; [|done].
  injection Hc as <-. exists c'. split; [done|]. by case_decide.
Qed.

Lemma takes_drop id s : takes s (set_tcp (tcp_streams s) (drop_chan id (tcp_chans s)) s).
Proof.
  set (s' := set_tcp _ _ _).
  assert (Hs : forall i, is_Some (tcp_chans s' !! i) <-> is_Some (tcp_chans s !! i)).
  { intros i. unfold s', drop_chan. cbn. destruct (decide (id = i)) as [->|].
    - by rewrite lookup_alter_eq, fmap_is_Some.
    - by rewrite lookup_alter_ne. }
  assert (Hq : forall i, chan_queue i s' = chan_queue i s).
  { intros i. unfold chan_queue, in_flight, s', drop_chan. cbn. destruct (decide (id = i)) as [->|].
    - rewrite lookup_alter_eq. by destruct (tcp_chans s !! i).
    - by rewrite lookup_alter_ne. }
  split; [|done]. split; intros i; rewrite ?Hq, ?Hs; cbn; eauto.
Qed.

Lemma reader_idle_true s : reader_idle s = true -> phase s = Running /\ reading s = None.
Proof.
  unfold reader_idle. intros [Hp%bool_decide_eq_true Hr]%andb_prop. split; [done|]. by destruct (reading s).
Qed.

(** Every other step only takes away. *)
Lemma step_takes s e s' : step s e = Some s' -> ~ busy e s -> takes s s'.
Proof.
  intros Hs Hb. destruct e as [| |id|id r|id|id data|id reason| |id dg|id|m|f|o| |id dg|id|id| |v| | | | | |];
    cbn [step] in Hs; try (by destruct Hb); try (apply when_Some in Hs as [Hg ->]).
  - destruct (opens s !! id) as [[f [] a]|] eqn:Ho; try done. apply when_Some in Hs as [_ ->].
    apply takes_open_send. by rewrite Ho.
  - destruct (opens s !! id) as [[f [] [a|]]|]; try done. case_decide; simplify_eq.
    destruct r; cbn; auto with bridge.
  - destruct (opens s !! id) as [[f [] [a|]]|]; simplify_eq; auto with bridge.
  - apply takes_send.
  - eapply takes_trans; [apply takes_send|]. apply takes_remove.
  - apply takes_send.
  - eapply takes_trans; [apply takes_udp|]. apply takes_send.
  - apply takes_send.
  - apply reader_idle_true in Hg as [_ Hr]. by apply takes_handle_frame.
  - destruct (reading s) as [d|] eqn:Hr; [|done]. apply when_Some in Hs as [Hok ->]. by apply takes_deliver.
  - apply bind_Some in Hs as (m & _ & [= <-]). apply takes_udp.
  - simplify_eq. apply takes_drop.
  - simplify_eq. apply takes_udp.
  - destruct (outbox s); [done|]. apply when_Some in Hs as [_ ->]. by apply takes_same.
  - by apply takes_same.
  - by apply takes_same.
  - by apply takes_same.
  - apply takes_drain.
  - by apply takes_same; cbn; [|set_solver|..].
  - by apply takes_same.
  - by apply takes_same.
Qed.

Lemma step_quiet es s e s' : step s e = Some s' -> ~ busy e s -> quiet es s' e.
Proof.
  intros Hs Hb. split; [by destruct e|]. intros id h.
  destruct e as [| | | | | | | | | | |f| | | | | | | | | | | | |]; cbn [history_step]; try done;
    try by destruct Hb.
  destruct f as [| |i data| | |]; cbn [history_step]; try done.
  destruct (h.1) eqn:Hh; cbn [andb]; [|by rewrite Hh].
  case_bool_decide as Hi; [|by rewrite Hh]. subst i. cbn. split_and!; [done|by eexists|].
  intros Hin. destruct (step_takes _ _ _ Hs Hb) as [Hsh _].
  destruct Hb. cbn. pose proof (shrink_streams _ _ Hsh). set_solver.
Qed.

Lemma wrap_next n : 0 <= n -> n + 1 <= u_max 32 -> wrap_u 32 (n + 1) = n + 1.
Proof. intros. apply wrap_u_small. unfold in_u, u_max in *. lia. Qed.

Lemma inv_open es s id host port egress_proxy s' :
  stream_inv es s -> step s (EOpen id host port egress_proxy) = Some s' ->
  allocs (es ++ [EOpen id host port egress_proxy]) < u_max 32 ->
  stream_inv (es ++ [EOpen id host port egress_proxy]) s'.
Proof.
  intros I Hs Ha. cbn [step] in Hs. apply when_Some in Hs as [Hid%Z.eqb_eq ->].
  rewrite allocs_snoc in Ha. cbn [alloc] in Ha. pose proof (allocs_nonneg es) as Hnn.
  pose proof (inv_next _ _ I) as Hn.
  assert (Hfresh : (history id es).1 = false).
  { apply not_true_iff_false. intros ?%(inv_opened _ _ I). lia. }
  split; cbn [next_id opens tcp_streams tcp_chans open_register set_next_id set_opening].
  - rewrite wrap_next, allocs_snoc by lia. cbn. lia.
  - rewrite wrap_next by lia. intros i c [[<- <-]|[? Hc]]%lookup_insert_Some.
    + rewrite <-Hid, history_snoc. cbn. split; [lia|done].
    + apply (inv_opens _ _ I) in Hc as [? ?]. rewrite history_snoc. cbn. split; [lia|done].
  - rewrite wrap_next by lia. intros i. rewrite history_snoc. cbn. intros ?%(inv_opened _ _ I). lia.
  - intros i. rewrite history_snoc, received_snoc. cbn. rewrite app_nil_r. apply (inv_unopened _ _ I).
  - intros i. rewrite history_snoc, received_snoc. cbn. rewrite app_nil_r. apply (inv_prefix _ _ I).
  - intros i. rewrite history_snoc, received_snoc. cbn. rewrite app_nil_r. apply (inv_live _ _ I).
Qed.

Lemma history_unopened id es : (history id es).1 = false -> (history id es).2 = [].
Proof.
  induction es as [|e es IH] using rev_ind; [done|]. rewrite history_snoc.
  destruct (history id es) as [h l]. cbn [fst snd] in *.
  destruct e as [| i | | | | | | | | | |f| | | | | | | | | | | | |]; cbn [history_step fst snd]; auto.
  - case_decide; [done|auto].
  - destruct f; auto. destruct h; cbn; [by case_bool_decide|auto].
Qed.

Lemma inv_open_stream es s id s' :
  stream_inv es s -> step s (EOpenStream id) = Some s' -> stream_inv (es ++ [EOpenStream id]) s'.
Proof.
  intros I Hs. cbn [step] in Hs. destruct (opens s !! id) as [[f [] a]|] eqn:Ho; simplify_eq.
  destruct (inv_opens _ _ I id _ Ho) as [Hlt Hun]. specialize (Hun eq_refl).
  destruct (inv_unopened _ _ I id Hun) as (Hc & Ht & Hr & Hf).
  pose proof (history_unopened id es Hun) as Hh2.
  assert (Hq : forall i, chan_queue i (open_stream id (MkOpen f PcPending a) s)
                         = if decide (id = i) then [] else chan_queue i s).
  { intros i. unfold open_stream, chan_queue. cbn.
    case_decide; subst; [by rewrite lookup_insert_eq|by rewrite lookup_insert_ne]. }
  assert (Hhist : forall i, history i (es ++ [EOpenStream id])
                            = if decide (id = i) then (true, []) else history i es).
  { intros i. rewrite history_snoc. cbn. case_decide; subst; [by rewrite Hh2|done]. }
  assert (Hrec : forall i, received i (es ++ [EOpenStream id]) = received i es)
    by (intros i; rewrite received_snoc; apply app_nil_r).
  split.
  - rewrite allocs_snoc. cbn. rewrite (inv_next _ _ I). lia.
  - intros i c. cbn. intros [[<- <-]|[Hne Hi]]%lookup_insert_Some; [done|].
    apply (inv_opens _ _ I) in Hi as [? ?]. rewrite Hhist, decide_False by done. done.
  - intros i. rewrite Hhist. cbn. case_decide; [by subst|]. apply (inv_opened _ _ I).
  - intros i. rewrite Hhist, Hrec. cbn. case_decide; [done|]. intros Hi.
    apply (inv_unopened _ _ I) in Hi as (? & ? & ? & ?). rewrite lookup_insert_ne by done.
    split_and!; [done|set_solver|done..].
  - intros i. rewrite Hhist, Hrec, Hq. case_decide; [subst; by rewrite Hr|]. apply (inv_prefix _ _ I).
  - intros i Hi. rewrite Hhist, Hrec, Hq. cbn in *. case_decide.
    + subst. by rewrite lookup_insert_eq, Hr.
    + rewrite lookup_insert_ne by done. apply (inv_live _ _ I). set_solver.
Qed.

Lemma inv_feed es s id data s' :
  stream_inv es s -> id ∈ tcp_streams s -> step s (ERead (Data id data)) = Some s' ->
  stream_inv (es ++ [ERead (Data id data)]) s'.
Proof.
  intros I Hin Hs. cbn [step] in Hs. apply when_Some in Hs as [[_ Hnone]%reader_idle_true ->].
  destruct (inv_live _ _ I id Hin) as [[c Hc] Hlive].
  assert (Hop : (history id es).1 = true).
  { apply not_false_iff_true. intros (? & ? & _)%(inv_unopened _ _ I). done. }
  unfold handle_frame. cbn [tcp_streams set_metrics]. rewrite decide_True by done.
  set (s1 := set_reading _ _). set (e := ERead (Data id data)).
  assert (Hfl : forall i, in_flight i s1 = if decide (id = i) then [data] else in_flight i s)
    by (intros i; unfold in_flight, s1; cbn; by rewrite Hnone).
  assert (Hq : forall i, chan_queue i s1 = if decide (id = i) then chan_queue i s ++ [data] else chan_queue i s).
  { intros i. unfold chan_queue. rewrite Hfl. cbn. case_decide; subst; [|done].
    rewrite Hc. unfold in_flight. by rewrite Hnone, app_nil_r. }
  assert (Hhist : forall i, history i (es ++ [e])
      = if decide (id = i) then (true, (history i es).2 ++ [data]) else history i es).
  { intros i. rewrite history_snoc. cbn. case_decide as Hd; subst.
    - by rewrite Hop, bool_decide_eq_true_2.
    - rewrite bool_decide_eq_false_2, andb_false_r by done. done. }
  assert (Hrec : forall i, received i (es ++ [e]) = received i es)
    by (intros i; rewrite received_snoc; apply app_nil_r).
  split.
  - rewrite allocs_snoc. cbn. rewrite (inv_next _ _ I). lia.
  - intros i c' Hi. apply (inv_opens _ _ I) in Hi as [? Hp]. split; [done|]. rewrite Hhist.
    case_decide; subst; [|done]. intros Hpc. apply Hp in Hpc. congruence.
  - intros i. rewrite Hhist. case_decide; [subst; intros _; by apply (inv_opened _ _ I)|].
    apply (inv_opened _ _ I).
  - intros i. rewrite Hhist, Hrec, Hfl. case_decide; [done|]. apply (inv_unopened _ _ I).
  - intros i. rewrite Hhist, Hrec, Hq. case_decide; [subst|apply (inv_prefix _ _ I)].
    cbn. rewrite app_assoc, Hlive. done.
  - intros i Hi. rewrite Hhist, Hrec, Hq. apply (inv_live _ _ I) in Hi as [? Hi].
    split; [done|]. case_decide; [subst|done]. cbn. by rewrite app_assoc, Hlive.
Qed.

Lemma inv_recv es s id data s' :
  stream_inv es s -> step s (ERecvTcp id data) = Some s' -> stream_inv (es ++ [ERecvTcp id data]) s'.
Proof.
  intros I Hs. cbn [step] in Hs. apply bind_Some in Hs as (m & Hpop & [= <-]).
  unfold pop_chan in Hpop. destruct (tcp_chans s !! id) as [[[|x q] []]|] eqn:Hc; try done.
  case_decide as Hx; [|done]. subst x. injection Hpop as <-.
  set (e := ERecvTcp id data). set (s1 := set_tcp _ _ _).
  assert (Hop : (history id es).1 = true).
  { apply not_false_iff_true. intros (? & _ & _)%(inv_unopened _ _ I). congruence. }
  assert (Hhist : forall i, history i (es ++ [e]) = history i es) by (intros; by rewrite history_snoc).
  assert (Hsum : forall i, received i (es ++ [e]) ++ chan_queue i s1 = received i es ++ chan_queue i s).
  { intros i. rewrite received_snoc. unfold chan_queue, s1. cbn. case_decide; subst.
    - rewrite lookup_insert_eq, Hc. cbn. by rewrite <-app_assoc.
    - by rewrite lookup_insert_ne, app_nil_r. }
  split.
  - rewrite allocs_snoc. cbn. rewrite (inv_next _ _ I). lia.
  - intros i c Hi. rewrite Hhist. by apply (inv_opens _ _ I).
  - intros i. rewrite Hhist. apply (inv_opened _ _ I).
  - intros i. rewrite Hhist. intros Hi. assert (id <> i) by congruence.
    apply (inv_unopened _ _ I) in Hi as (? & ? & Hri & ?). cbn. rewrite lookup_insert_ne by done.
    split_and!; [done..| |done]. rewrite received_snoc. cbn. rewrite decide_False by done. by rewrite Hri.
  - intros i. rewrite Hhist, Hsum. apply (inv_prefix _ _ I).
  - intros i Hi. rewrite Hhist, Hsum. apply (inv_live _ _ I) in Hi as [? ?]. split; [|done].
    cbn. destruct (decide (id = i)); [subst; by rewrite lookup_insert_eq|by rewrite lookup_insert_ne].
Qed.

Lemma inv_not_busy es s e s' :
  stream_inv es s -> step s e = Some s' -> ~ busy e s -> alloc e = 0 -> stream_inv (es ++ [e]) s'.
Proof.
  intros I Hs Hb Ha. destruct (step_takes _ _ _ Hs Hb) as [Hsh Hn].
  apply (stream_inv_shrinks es s); [done|by apply (step_quiet es s)|done|lia].
Qed.

Lemma inv_register_udp es s id s' :
  stream_inv es s -> step s (ERegisterUdp id) = Some s' ->
  allocs es + 1 < u_max 32 -> stream_inv (es ++ [ERegisterUdp id]) s'.
Proof.
  intros I Hs Ha. cbn [step] in Hs. apply when_Some in Hs as [_ ->].
  pose proof (inv_next _ _ I). pose proof (allocs_nonneg es).
  apply (stream_inv_shrinks es s); [done|by split|by apply shrinks_refl|].
  cbn. rewrite wrap_next; lia.
Qed.

Lemma stream_inv_reaches es s : reaches es s -> allocs es < u_max 32 -> stream_inv es s.
Proof.
  unfold reaches. revert s. induction es as [|e es IH] using rev_ind; intros s Hs Ha.
  { injection Hs as <-. split; cbn; try done. }
  apply runs_snoc in Hs as (s1 & H1 & Hs). rewrite allocs_snoc in Ha.
  pose proof (alloc_nonneg e) as Hnn.
  assert (I : stream_inv es s1) by (apply IH; [done|lia]).
  destruct e as [id host port egress_proxy|id| | | | | |id| | | |f| |id data| | | | | | | | | | |];
    try exact (inv_not_busy es s1 _ s I Hs (fun H => H) eq_refl).
  - eapply inv_open; [done..|]. by rewrite allocs_snoc.
  - by eapply inv_open_stream.
  - by apply (inv_register_udp es s1).
  - destruct (decide (feeds f s1)) as [Hf|Hf]; [|by apply (inv_not_busy es s1)].
    destruct f as [| |id data| | |]; try done. by apply (inv_feed es s1).
  - by apply (inv_recv es s1).
Qed.

(** ** Calls and their oneshots *)

(** An id has a registered oneshot exactly when its call has no answer yet. *)
Definition pending_inv (s : BridgeInner) : Prop :=
  forall id, id ∈ pending_tcp s <-> exists c, opens s !! id = Some c /\ answer c = None.

Lemma pending_inv_same s s' :
  pending_inv s -> pending_tcp s' = pending_tcp s -> opens s' = opens s -> pending_inv s'.
Proof. intros I Hp Ho id. rewrite Hp, Ho. apply I. Qed.

Lemma pending_inv_fail id s : pending_inv s -> pending_inv (open_fail id s).
Proof.
  intros I i. cbn. rewrite elem_of_difference, elem_of_singleton, (I i).
  setoid_rewrite lookup_delete_Some. naive_solver.
Qed.

Lemma pending_inv_answer id r s : pending_inv s -> pending_inv (answer_open id r s).
Proof.
  intros I i. cbn. rewrite elem_of_difference, elem_of_singleton, (I i).
  destruct (decide (id = i)) as [->|Hne].
  - rewrite lookup_alter_eq. destruct (opens s !! i) as [c|]; cbn; naive_solver.
  - rewrite lookup_alter_ne by done. naive_solver.
Qed.

Lemma pending_inv_set id c c' s :
  pending_inv s -> opens s !! id = Some c -> answer c' = answer c ->
  pending_inv (set_opening (pending_tcp s) (<[id := c']> (opens s)) s).
Proof.
  intros I Hc Ha i. cbn. rewrite (I i). destruct (decide (id = i)) as [->|].
  - rewrite lookup_insert_eq, Hc. split; intros (c0 & [= <-] & Hn); eexists; (split; [done|congruence]).
  - by rewrite lookup_insert_ne.
Qed.

Lemma pending_inv_drain s : pending_inv s -> pending_inv (drain_pending s).
Proof.
  intros I i. cbn. rewrite map_lookup_imap. split; [set_solver|].
  intros (c & Hc & Hn). destruct (opens s !! i) as [c0|] eqn:E; cbn in Hc; [|done].
  injection Hc as <-. case_decide as Hp; [done|]. destruct Hp. apply I. eauto.
Qed.

Lemma pending_inv_send f s : pending_inv s -> pending_inv (send_frame f s).2.
Proof. intros I. unfold send_frame. by case_match. Qed.

Lemma pending_inv_frame f s : pending_inv s -> pending_inv (handle_frame f s).
Proof.
  intros I. unfold handle_frame. set (s1 := set_metrics _ s).
  assert (I1 : pending_inv s1) by done. clearbody s1.
  destruct f as [| id ok m | id data | id reason | id host port data |]; try done;
    case_decide; try done; by apply pending_inv_answer.
Qed.

Lemma pending_inv_deliver d o s : pending_inv s -> pending_inv (deliver d o s).
Proof. intros I. destruct d, o; try done; by apply pending_inv_send. Qed.

Lemma pending_inv_step s e s' : pending_inv s -> step s e = Some s' -> pending_inv s'.
Proof.
  intros I Hs. destruct e as [id host port px|id|id|id r|id|id data|id reason|id|id dg|id|m|f|o|id data|id dg|id|id| |v| | | | | |];
    cbn [step] in Hs; try (apply when_Some in Hs as [_ ->]); try done; try (by apply pending_inv_send).
  - intros i. cbn. rewrite elem_of_union, elem_of_singleton, (I i).
    destruct (decide (next_id s = i)) as [->|].
    + rewrite lookup_insert_eq. naive_solver.
    + rewrite lookup_insert_ne by done. naive_solver.
  - destruct (opens s !! id) as [[f [] a]|] eqn:Ho; simplify_eq.
    by apply (pending_inv_set id _ (MkOpen f PcStream a) s I Ho).
  - destruct (opens s !! id) as [[f [] a]|] eqn:Ho; try done. apply when_Some in Hs as [_ ->].
    unfold open_send. cbn [open_target answer]. destruct f as [[host port] px].
    pose proof (pending_inv_send (OpenTcp id host port px) s I) as I1.
    destruct (send_frame (OpenTcp id host port px) s) as [ok s1] eqn:E. cbn [snd] in I1.
    destruct ok; [|by apply pending_inv_fail].
    apply (pending_inv_set id (MkOpen (host, port, px) PcStream a)); [done| |done].
    unfold send_frame in E. destruct (writer_alive s); by simplify_eq.
  - destruct (opens s !! id) as [[f [] [a|]]|] eqn:Ho; try done. case_decide; simplify_eq.
    destruct r; cbn; [|by apply pending_inv_fail]. intros i. cbn. rewrite (I i).
    setoid_rewrite lookup_delete_Some. split; [|naive_solver].
    intros (c & Hc & Hn). exists c. split_and!; try done. intros ->. rewrite Ho in Hc. by simplify_eq.
  - destruct (opens s !! id) as [[f [] [a|]]|]; simplify_eq. by apply pending_inv_fail.
  - by apply pending_inv_frame.
  - destruct (reading s) as [d|]; [|done]. apply when_Some in Hs as [_ ->]. by apply pending_inv_deliver.
  - apply bind_Some in Hs as (? & _ & [= <-]). done.
  - apply bind_Some in Hs as (? & _ & [= <-]). done.
  - by simplify_eq.
  - by simplify_eq.
  - destruct (outbox s); [done|]. by apply when_Some in Hs as [_ ->].
  - by apply pending_inv_drain.
Qed.

Lemma pending_inv_reaches es s : reaches es s -> pending_inv s.
Proof.
  unfold reaches. revert s. induction es as [|e es IH] using rev_ind; intros s Hs.
  - injection Hs as <-. intros id. cbn. split; [set_solver|]. intros (c & Hc & _).
    by rewrite lookup_empty in Hc.
  - apply runs_snoc in Hs as (s1 & H1 & Hs). eapply pending_inv_step; eauto.
Qed.

(** ** Properties *)

(** C29. What a flow has received, followed by what waits in its channel or is
    being sent to it, is always a prefix of the data the remote sent on the stream since it was
    opened: nothing is lost in the middle, duplicated, reordered or mixed with
    another stream, under any interleaving of callers, reader, writer,
    timeouts and shutdown; and while the stream is registered it is all of
    it.  (Ids are fresh as long as fewer than 2^32 - 1 were given out.) *)
Theorem bridge_stream_prefix (es : list Event) (s : BridgeInner) (id : Z) :
  reaches es s -> allocs es < u_max 32 ->
  ((received id es ++ chan_queue id s) `prefix_of` (history id es).2)
  /\ (id ∈ tcp_streams s -> received id es ++ chan_queue id s = (history id es).2).
Proof.
  intros Hs Ha. pose proof (stream_inv_reaches es s Hs Ha) as I. split.
  - apply (inv_prefix _ _ I).
  - intros Hin. by apply (inv_live _ _ I).
Qed.

(** Two streams; the first one's receiver is slow, the second one is closed
    while the reader is sending to it. *)
Definition sample_trace : list Event :=
  [EOpen 1 "a" 80 None; EOpen 2 "b" 81 None; EOpenStream 1; EOpenStream 2; EOpenSend 2; EOpenSend 1;
   ETake; ETake; EWrite 2;
   ERead (OpenTcpResult 1 true "ok"); ERead (Data 1 [x01]); EDeliver Sent;
   ERead (OpenTcpResult 2 true "ok"); EOpenDone 1 (Ok tt); EOpenDone 2 (Ok tt);
   ERead (Data 2 [x02]); EClose 2 "done"; EDeliver Sent; ERecvTcp 1 [x01];
   ERead (Data 1 [x03]); EDeliver Sent; ERead (Data 2 [x04]); ERecvTcp 2 [x02];
   ERead (Close 2 "bye"); ERead (Data 1 [x05])].

Definition sample_state : BridgeInner := default BridgeInner_new (runs step BridgeInner_new sample_trace).

Lemma bridge_stream_prefix_witness :
  ((received 1 sample_trace ++ chan_queue 1 sample_state) `prefix_of` (history 1 sample_trace).2)
  /\ (1 ∈ tcp_streams sample_state ->
      received 1 sample_trace ++ chan_queue 1 sample_state = (history 1 sample_trace).2).
Proof.
  apply (bridge_stream_prefix sample_trace sample_state 1).
  - vm_compute. reflexivity.
  - vm_compute. reflexivity.
Defined.

(** No [open_tcp] call is forgotten: a call without an answer is always
    registered, so the remote's result, the remote's close and the end of the
    link each answer it, with the result, the reason, or an error. *)
Theorem open_calls_answered (es : list Event) (s : BridgeInner) (id : Z) (c : OpenCall) :
  reaches es s -> opens s !! id = Some c -> answer c = None ->
  (forall ok m s', step s (ERead (OpenTcpResult id ok m)) = Some s' ->
     opens s' !! id = Some (MkOpen (open_target c) (pc c) (Some (if ok then Ok tt else Err m))))
  /\ (forall reason s', step s (ERead (Close id reason)) = Some s' ->
     opens s' !! id = Some (MkOpen (open_target c) (pc c) (Some (Err reason))))
  /\ (forall s', step s EDrain = Some s' ->
     opens s' !! id = Some (MkOpen (open_target c) (pc c) (Some (Err "remote bridge closed"%string)))).
Proof.
  intros Hs Hc Ha. assert (Hp : id ∈ pending_tcp s) by (apply (pending_inv_reaches es s Hs); eauto).
  split_and!.
  - intros ok m s' [_ ->]%when_Some. unfold handle_frame. rewrite decide_True by done. cbn.
    by rewrite lookup_alter_eq, Hc.
  - intros reason s' [_ ->]%when_Some. unfold handle_frame. rewrite decide_True by done. cbn.
    by rewrite lookup_alter_eq, Hc.
  - intros s' [_ ->]%when_Some. cbn. rewrite map_lookup_imap, Hc. cbn. by rewrite decide_True.
Qed.

Definition opening_trace : list Event := [EOpen 1 "a" 80 None; EOpenStream 1; EOpenSend 1].
Definition opening_state : BridgeInner := default BridgeInner_new (runs step BridgeInner_new opening_trace).

Lemma open_calls_answered_witness :
  let c := MkOpen ("a"%string, 80, None) PcWaiting None in
  (forall ok m s', step opening_state (ERead (OpenTcpResult 1 ok m)) = Some s' ->
     opens s' !! 1 = Some (MkOpen (open_target c) (pc c) (Some (if ok then Ok tt else Err m))))
  /\ (forall reason s', step opening_state (ERead (Close 1 reason)) = Some s' ->
     opens s' !! 1 = Some (MkOpen (open_target c) (pc c) (Some (Err reason))))
  /\ (forall s', step opening_state EDrain = Some s' ->
     opens s' !! 1 = Some (MkOpen (open_target c) (pc c) (Some (Err "remote bridge closed"%string)))).
Proof.
  intros c. apply (open_calls_answered opening_trace opening_state 1 c).
  - vm_compute. reflexivity.
  - vm_compute. reflexivity.
  - reflexivity.
Defined.

(** A timed out [open_tcp] forgets its stream without telling the remote:
    the timeout queues no frame, and neither does the remote's later success,
    so the remote keeps a connection that nobody will close. *)
Theorem open_timeout_never_closes (s s1 s2 : BridgeInner) (id : Z) (m : string) :
  step s (EOpenTimeout id) = Some s1 -> step s1 (ERead (OpenTcpResult id true m)) = Some s2 ->
  outbox s2 = outbox s /\ (id ∉ tcp_streams s2) /\ (id ∉ pending_tcp s2) /\ opens s2 !! id = None.
Proof.
  intros H1 [_ ->]%when_Some. cbn [step] in H1.
  destruct (opens s !! id) as [[f [] [a|]]|]; simplify_eq. cbn.
  rewrite decide_False by set_solver. cbn. rewrite lookup_delete_eq. split_and!; set_solver.
Qed.

Definition timed_out_state : BridgeInner :=
  default BridgeInner_new (step opening_state (EOpenTimeout 1)).
Definition late_state : BridgeInner :=
  default BridgeInner_new (step timed_out_state (ERead (OpenTcpResult 1 true "ok"))).

Lemma open_timeout_never_closes_witness :
  outbox late_state = outbox opening_state /\ (1 ∉ tcp_streams late_state)
  /\ (1 ∉ pending_tcp late_state) /\ opens late_state !! 1 = None.
Proof.
  apply (open_timeout_never_closes opening_state timed_out_state late_state 1 "ok").
  - vm_compute. reflexivity.
  - vm_compute. reflexivity.
Defined.
