(* ===== verification/Remote.v ===== *)
(** * The remote end of a link

    [crates/ssh-proxy/src/remote.rs]: the side of a link that connects to the
    targets.  The reader opens a connection per [OpenTcp] frame in a task of
    its own, dispatches data and datagrams to the tasks, and forgets streams
    on [Close]; two pumps per connection copy between the target's socket and
    the link; a writer task drains the frame queue.

    Streams are named by the peer, so nothing keeps it from using an id twice:
    connections and associations are numbered in the order of their tasks, and
    the maps of streams lead from ids to these numbers.  An aborted task may
    finish what it is doing, so the model lets it run on until the abort takes
    effect ([EAbort]). *)
From S2P Require Import Prelude RustStr Stream Protocol Mux.

(** ** Authentication *)

Inductive AuthError := AuthIo (e : io_error) | InvalidToken.

Section auth.
Context {R W : Type} `{AsyncRead R} `{AsyncWrite W}.

(** [verify_token], without its timeout (a timeout is an error, too). *)
Definition verify_token (expected : option string) : sr (TcpStream R W) AuthError unit :=
  match expected with
  | Some expected =>
    bytes ← sr_map_err AuthIo (recv (read_exact 2));
    let n := be_value bytes in
    token ← sr_map_err AuthIo (recv (read_exact n));
    if decide (token = str_bytes expected) then mret tt else sr_fail InvalidToken
  | None => mret tt
  end.
End auth.

(** ** State *)

(** A copying task: waiting for data, with data to pass on, or over. *)
Inductive Pump := Idle | Holding (data : list byte) | Stopped.

(** How far [handle_open_tcp] is: connecting; with the error to report; over
    without a connection; with the stream registered and the success to
    report; with both pumps running; with the [Close] frame to send; over. *)
Inductive OpenPhase :=
| Connecting | Refused (message : string) | Failed | Registered | Relaying | Closing | Done.

Record Conn := MkConn {
  c_id : Z;
  c_target : string * Z * option string;   (* host, port, egress proxy *)
  c_phase : OpenPhase;
  c_queue : list (list byte);              (* [stream_rx] *)
  c_in : Pump;                             (* [remote_to_local] *)
  c_out : Pump;                            (* [local_to_remote] *)
  c_written : list byte;                   (* what the target's socket was given *)
}.

(** A UDP association: binding its socket; with a bind error to report;
    running; over. *)
Inductive AssocPhase := Binding | BindFailed (reason : string) | Bound | AssocDone.

Record Assoc := MkAssoc {
  a_id : Z;
  a_phase : AssocPhase;
  a_queue : list UdpDatagram;
  a_in : option UdpDatagram;               (* the reader's packet waiting for the queue *)
  a_reader : bool;                         (* whether the reader task runs *)
}.

(** The reader's send in progress: the id, the task and the message. *)
Inductive Delivery :=
| DelTcp (id : Z) (k : nat) (data : list byte)
| DelUdp (id : Z) (u : nat) (dg : UdpDatagram).

Record Transport := {
  outbox : list Frame;
  batch : list Frame;
  writer_alive : bool;
  tcp_streams : gmap Z nat;
  udp_streams : gmap Z nat;
  conns : list Conn;
  assocs : list Assoc;
  reading : option Delivery;
  reader_alive : bool;
  default_egress_proxy : option string;
}.

Definition Transport_new (default_egress_proxy : option string) : Transport :=
  {| outbox := []; batch := []; writer_alive := true; tcp_streams := ∅; udp_streams := ∅;
     conns := []; assocs := []; reading := None; reader_alive := true;
     default_egress_proxy := default_egress_proxy |}.

(** Field updates. *)
Definition set_outbox v (s : Transport) : Transport :=
  Build_Transport v (batch s) (writer_alive s) (tcp_streams s) (udp_streams s) (conns s)
    (assocs s) (reading s) (reader_alive s) (default_egress_proxy s).
Definition set_batch v (s : Transport) : Transport :=
  Build_Transport (outbox s) v (writer_alive s) (tcp_streams s) (udp_streams s) (conns s)
    (assocs s) (reading s) (reader_alive s) (default_egress_proxy s).
Definition stop_writer (s : Transport) : Transport :=
  Build_Transport [] [] false (tcp_streams s) (udp_streams s) (conns s) (assocs s) (reading s)
    (reader_alive s) (default_egress_proxy s).
Definition set_tcp v (s : Transport) : Transport :=
  Build_Transport (outbox s) (batch s) (writer_alive s) v (udp_streams s) (conns s) (assocs s)
    (reading s) (reader_alive s) (default_egress_proxy s).
Definition set_udp v (s : Transport) : Transport :=
  Build_Transport (outbox s) (batch s) (writer_alive s) (tcp_streams s) v (conns s) (assocs s)
    (reading s) (reader_alive s) (default_egress_proxy s).
Definition set_conns v (s : Transport) : Transport :=
  Build_Transport (outbox s) (batch s) (writer_alive s) (tcp_streams s) (udp_streams s) v
    (assocs s) (reading s) (reader_alive s) (default_egress_proxy s).
Definition set_assocs v (s : Transport) : Transport :=
  Build_Transport (outbox s) (batch s) (writer_alive s) (tcp_streams s) (udp_streams s) (conns s)
    v (reading s) (reader_alive s) (default_egress_proxy s).
Definition set_reading v (s : Transport) : Transport :=
  Build_Transport (outbox s) (batch s) (writer_alive s) (tcp_streams s) (udp_streams s) (conns s)
    (assocs s) v (reader_alive s) (default_egress_proxy s).
Definition stop_reader (s : Transport) : Transport :=
  Build_Transport (outbox s) (batch s) (writer_alive s) (tcp_streams s) (udp_streams s) (conns s)
    (assocs s) (reading s) false (default_egress_proxy s).

Definition set_phase v (c : Conn) : Conn :=
  MkConn (c_id c) (c_target c) v (c_queue c) (c_in c) (c_out c) (c_written c).
Definition set_queue v (c : Conn) : Conn :=
  MkConn (c_id c) (c_target c) (c_phase c) v (c_in c) (c_out c) (c_written c).
Definition set_in v (c : Conn) : Conn :=
  MkConn (c_id c) (c_target c) (c_phase c) (c_queue c) v (c_out c) (c_written c).
Definition set_out v w (c : Conn) : Conn :=
  MkConn (c_id c) (c_target c) (c_phase c) (c_queue c) (c_in c) v w.
Definition set_assoc p q i r (a : Assoc) : Assoc := MkAssoc (a_id a) p q i r.

Definition upd_conn (k : nat) (f : Conn -> Conn) (s : Transport) : Transport :=
  set_conns (alter f k (conns s)) s.
Definition upd_assoc (u : nat) (f : Assoc -> Assoc) (s : Transport) : Transport :=
  set_assocs (alter f u (assocs s)) s.

(** ** The frame queue *)

(** [tx.send(frame)]; the callers ignore a failure. *)
Definition send_frame (f : Frame) (s : Transport) : Transport :=
  if writer_alive s then set_outbox (outbox s ++ [f]) s else s.

Definition can_send (s : Transport) : bool :=
  negb (writer_alive s) || (len (outbox s) <? FRAME_CHANNEL_CAPACITY).

(** ** The reader *)

(** [tokio::spawn(handle_open_tcp(..))]. *)
Definition spawn_open (id : Z) (host : string) (port : Z) (egress_proxy : option string)
    (s : Transport) : Transport :=
  let egress_proxy :=
    match egress_proxy with Some p => Some p | None => default_egress_proxy s end in
  set_conns (conns s ++ [MkConn id (host, port, egress_proxy) Connecting [] Idle Idle []]) s.

(** The sender of an association, which is created on its first datagram. *)
Definition udp_sender (id : Z) (s : Transport) : nat * Transport :=
  match udp_streams s !! id with
  | Some u => (u, s)
  | None =>
    let u := length (assocs s) in
    (u, set_udp (<[id := u]> (udp_streams s))
          (set_assocs (assocs s ++ [MkAssoc id Binding [] None false]) s))
  end.

(** One turn of the loop of [run_transport_with_egress_proxy], up to the send
    to a task for the frames that make one. *)
Definition handle_frame (f : Frame) (s : Transport) : Transport :=
  match f with
  | OpenTcp id host port egress_proxy => spawn_open id host port egress_proxy s
  | Data id data =>
    match tcp_streams s !! id with
    | Some k => set_reading (Some (DelTcp id k data)) s
    | None => s
    end
  | Close id _ => set_udp (delete id (udp_streams s)) (set_tcp (delete id (tcp_streams s)) s)
  | UdpPacket id host port data =>
    let '(u, s) := udp_sender id s in
    set_reading (Some (DelUdp id u {| dg_host := host; dg_port := port; dg_data := data |})) s
  | Log _ => s
  | OpenTcpResult _ _ _ => s
  end.

Definition deliver (d : Delivery) (o : SendOutcome) (s : Transport) : Transport :=
  let s := set_reading None s in
  match d, o with
  | DelTcp id k data, Sent => upd_conn k (fun c => set_queue (c_queue c ++ [data]) c) s
  | DelTcp id k data, ReceiverGone => set_tcp (delete id (tcp_streams s)) s
  | DelTcp id k data, TimedOut =>
    send_frame (Close id "remote receiver backpressure timed out after 30s")
      (set_tcp (delete id (tcp_streams s)) s)
  | DelUdp id u dg, Sent =>
    upd_assoc u (fun a => set_assoc (a_phase a) (a_queue a ++ [dg]) (a_in a) (a_reader a) a) s
  | DelUdp id u dg, ReceiverGone => set_udp (delete id (udp_streams s)) s
  | DelUdp id u dg, TimedOut =>
    send_frame (Close id "remote UDP receiver backpressure timed out after 10s")
      (set_udp (delete id (udp_streams s)) s)
  end.

(** ** Steps *)

Inductive Event :=
| ERead (f : Frame)                        (* the reader gets a frame *)
| EDeliver (o : SendOutcome)               (* its send to a task ends *)
| EReaderEnd                               (* the link ends *)
| EReaderFail                              (* the link breaks: the function returns its error *)
| EConnected (k : nat)                     (* [connect_tcp] succeeds; the stream is registered *)
| ERefused (k : nat) (message : string)    (* [connect_tcp] fails *)
| EResult (k : nat)                        (* the result of the open is queued *)
| EInRead (k : nat) (data : list byte)     (* the target sends data *)
| EInSend (k : nat)                        (* it is queued *)
| EInEnd (k : nat)                         (* the target's end of stream, or a read error *)
| EOutRecv (k : nat)                       (* a chunk is taken for the target *)
| EOutWrite (k : nat)                      (* it is written *)
| EOutFail (k : nat) (part : list byte)    (* its write fails after a part *)
| EOutEnd (k : nat)                        (* all senders are gone: the socket is shut down *)
| ESelect (k : nat)                        (* a pump is over: the other is aborted, the stream removed *)
| EClosed (k : nat)                        (* the close is queued *)
| EAbort (k : nat)                         (* the abort takes effect *)
| EUdpBound (u : nat)
| EUdpBindFailed (u : nat) (reason : string)
| EUdpBindClosed (u : nat)
| EUdpOut (u : nat)                        (* a datagram is taken and sent; errors are ignored *)
| EUdpIn (u : nat) (host : string) (port : Z) (data : list byte)
| EUdpInSend (u : nat)
| EUdpInEnd (u : nat)                      (* the socket's reader fails *)
| EUdpEnd (u : nat)
| ETake
| EWrite
| EWriteFail.

Definition reader_idle (s : Transport) : bool :=
  reader_alive s && match reading s with None => true | Some _ => false end.

(** A sender of connection [k], or of association [u], exists. *)
Definition has_sender (k : nat) (id : Z) (s : Transport) : bool :=
  bool_decide (tcp_streams s !! id = Some k)
  || match reading s with Some (DelTcp _ j _) => bool_decide (j = k) | _ => false end.
Definition has_udp_sender (u : nat) (id : Z) (s : Transport) : bool :=
  bool_decide (udp_streams s !! id = Some u)
  || match reading s with Some (DelUdp _ j _) => bool_decide (j = u) | _ => false end.

(** When a send to a task can end the way [o] says: [q] is what is in the
    channel, [alive] whether the task still holds its receiver. *)
Definition outcome_ok {A} (q : list A) (alive : bool) (o : SendOutcome) : bool :=
  match o with
  | Sent => alive && (len q <? TCP_STREAM_CHANNEL_CAPACITY)
  | ReceiverGone => negb alive
  | TimedOut => alive && (TCP_STREAM_CHANNEL_CAPACITY <=? len q)
  end.

Definition running (p : Pump) : bool := match p with Stopped => false | _ => true end.

Definition deliver_ok (d : Delivery) (o : SendOutcome) (s : Transport) : bool :=
  match d with
  | DelTcp _ k _ =>
    match conns s !! k with Some c => outcome_ok (c_queue c) (running (c_out c)) o | None => false end
  | DelUdp _ u _ =>
    match assocs s !! u with
    | Some a => outcome_ok (a_queue a) (match a_phase a with AssocDone => false | _ => true end) o
    | None => false
    end
  end
  && match o with TimedOut => can_send s | _ => true end.

(** The pumps exist. *)
Definition spawned (c : Conn) : bool :=
  match c_phase c with Relaying | Closing | Done => true | _ => false end.

Definition conn_step (k : nat) (c : Conn) (e : Event) (s : Transport) : option Transport :=
  match e with
  | EConnected _ =>
    match c_phase c with
    | Connecting =>
      Some (upd_conn k (set_phase Registered) (set_tcp (<[c_id c := k]> (tcp_streams s)) s))
    | _ => None
    end
  | ERefused _ m =>
    match c_phase c with Connecting => Some (upd_conn k (set_phase (Refused m)) s) | _ => None end
  | EResult _ =>
    match c_phase c with
    | Registered =>
      when (can_send s)
        (upd_conn k (set_phase Relaying) (send_frame (OpenTcpResult (c_id c) true EmptyString) s))
    | Refused m =>
      when (can_send s)
        (upd_conn k (set_phase Failed) (send_frame (OpenTcpResult (c_id c) false m) s))
    | _ => None
    end
  | EInRead _ data =>
    match c_in c with
    | Idle =>
      when (spawned c && match data with [] => false | _ => true end)
        (upd_conn k (set_in (Holding data)) s)
    | _ => None
    end
  | EInSend _ =>
    match c_in c with
    | Holding data =>
      when (can_send s) (upd_conn k (set_in Idle) (send_frame (Data (c_id c) data) s))
    | _ => None
    end
  | EInEnd _ =>
    match c_in c with Idle => when (spawned c) (upd_conn k (set_in Stopped) s) | _ => None end
  | EOutRecv _ =>
    match c_out c, c_queue c with
    | Idle, data :: q =>
      when (spawned c)
        (upd_conn k (fun c => set_queue q (set_out (Holding data) (c_written c) c)) s)
    | _, _ => None
    end
  | EOutWrite _ =>
    match c_out c with
    | Holding data => Some (upd_conn k (set_out Idle (c_written c ++ data)) s)
    | _ => None
    end
  | EOutFail _ part =>
    match c_out c with
    | Holding data =>
      when (bool_decide (part `prefix_of` data)) (upd_conn k (set_out Stopped (c_written c ++ part)) s)
    | _ => None
    end
  | EOutEnd _ =>
    match c_out c, c_queue c with
    | Idle, [] =>
      when (spawned c && negb (has_sender k (c_id c) s)) (upd_conn k (set_out Stopped (c_written c)) s)
    | _, _ => None
    end
  | ESelect _ =>
    match c_phase c with
    | Relaying =>
      when (negb (running (c_in c)) || negb (running (c_out c)))
        (upd_conn k (set_phase Closing) (set_tcp (delete (c_id c) (tcp_streams s)) s))
    | _ => None
    end
  | EClosed _ =>
    match c_phase c with
    | Closing =>
      when (can_send s) (upd_conn k (set_phase Done) (send_frame (Close (c_id c) "tcp closed") s))
    | _ => None
    end
  | EAbort _ =>
    match c_phase c with
    | Closing | Done =>
      Some (upd_conn k (fun c => set_in Stopped (set_out Stopped (c_written c) c)) s)
    | _ => None
    end
  | _ => None
  end.

Definition assoc_step (u : nat) (a : Assoc) (e : Event) (s : Transport) : option Transport :=
  match e, a_phase a with
  | EUdpBound _, Binding => Some (upd_assoc u (set_assoc Bound (a_queue a) None true) s)
  | EUdpBindFailed _ reason, Binding =>
    Some (upd_assoc u (set_assoc (BindFailed reason) (a_queue a) None false) s)
  | EUdpBindClosed _, BindFailed reason =>
    when (can_send s)
      (upd_assoc u (set_assoc AssocDone [] None false) 
         (send_frame (Close (a_id a) ("udp bind failed: " +:+ reason)) s))
  | EUdpOut _, Bound =>
    match a_queue a with
    | _ :: q => Some (upd_assoc u (set_assoc Bound q (a_in a) (a_reader a)) s)
    | [] => None
    end
  | EUdpIn _ host port data, Bound =>
    match a_in a with
    | None =>
      when (a_reader a)
        (upd_assoc u (set_assoc Bound (a_queue a) 
          (Some {| dg_host := host; dg_port := port; dg_data := data |}) true) s)
    | Some _ => None
    end
  | EUdpInSend _, Bound =>
    match a_in a with
    | Some dg =>
      when (can_send s)
        (upd_assoc u (set_assoc Bound (a_queue a) None (a_reader a))
           (send_frame (UdpPacket (a_id a) (dg_host dg) (dg_port dg) (dg_data dg)) s))
    | None => None
    end
  | EUdpInEnd _, Bound =>
    match a_in a with
    | None => Some (upd_assoc u (set_assoc Bound (a_queue a) None false) s)
    | Some _ => None
    end
  | EUdpEnd _, Bound =>
    match a_queue a with
    | [] => when (negb (has_udp_sender u (a_id a) s)) (upd_assoc u (set_assoc AssocDone [] None false) s)
    | _ => None
    end
  | _, _ => None
  end.

Definition step (s : Transport) (e : Event) : option Transport :=
  match e with
  | ERead f => when (reader_idle s) (handle_frame f s)
  | EDeliver o =>
    match reading s with
    | Some d => when (deliver_ok d o s) (deliver d o s)
    | None => None
    end
  (* [writer_task.abort()], and the map of associations is dropped *)
  | EReaderEnd => when (reader_idle s) (stop_reader (stop_writer (set_udp ∅ s)))
  | EReaderFail => when (reader_idle s) (stop_reader (set_udp ∅ s))
  | EConnected k | ERefused k _ | EResult k | EInRead k _ | EInSend k | EInEnd k | EOutRecv k
  | EOutWrite k | EOutFail k _ | EOutEnd k | ESelect k | EClosed k | EAbort k =>
    c ← conns s !! k; conn_step k c e s
  | EUdpBound u | EUdpBindFailed u _ | EUdpBindClosed u | EUdpOut u | EUdpIn u _ _ _ | EUdpInSend u
  | EUdpInEnd u | EUdpEnd u => a ← assocs s !! u; assoc_step u a e s
  | ETake =>
    match outbox s with
    | f :: rest =>
      when (writer_alive s && (len (batch s) <? FRAME_WRITE_BATCH_LIMIT))
        (set_batch (batch s ++ [f]) (set_outbox rest s))
    | [] => None
    end
  | EWrite =>
    when (writer_alive s && match batch s with [] => false | _ => true end) (set_batch [] s)
  | EWriteFail => when (writer_alive s) (stop_writer s)
  end.

Definition reaches (es : list Event) (s : Transport) : Prop :=
  exists px, runs step (Transport_new px) es = Some s.

(** ** From the link to a target *)

(** Whether connection [k] was registered, and the data the link sent for its
    id since. *)
Definition history_step (k : nat) (id : Z) (h : bool * list byte) (e : Event) : bool * list byte :=
  match e with
  | EConnected j => if decide (j = k) then (true, h.2) else h
  | ERead (Data i data) => if h.1 && bool_decide (i = id) then (true, h.2 ++ data) else h
  | _ => h
  end.
Definition history (k : nat) (id : Z) (es : list Event) : bool * list byte :=
  foldl (history_step k id) (false, []) es.

Lemma conn_history_snoc k id es e : history k id (es ++ [e]) = history_step k id (history k id es) e.
Proof. unfold history. by rewrite foldl_app. Qed.

Lemma conn_history_unopened k id es : (history k id es).1 = false -> (history k id es).2 = [].
Proof.
  induction es as [|e es IH] using rev_ind; [done|]. rewrite conn_history_snoc.
  destruct (history k id es) as [h l]. cbn [fst snd] in *.
  destruct e as [f| | | |j| | | | | | | | | | | | | | | | | | | | | | |]; cbn [history_step fst snd]; auto.
  - destruct f; auto. destruct h; cbn; [by case_bool_decide|auto].
  - case_decide; [done|auto].
Qed.

(** The bytes on their way to the target: in the reader's hands, in the
    channel, in the pump. *)
Definition flight (k : nat) (s : Transport) : list byte :=
  match reading s with
  | Some (DelTcp _ j data) => if decide (j = k) then data else []
  | _ => []
  end.
Definition waiting (c : Conn) (fl : list byte) : list byte :=
  match c_out c with
  | Stopped => []
  | Idle => concat (c_queue c) ++ fl
  | Holding data => data ++ concat (c_queue c) ++ fl
  end.
Definition total (k : nat) (c : Conn) (s : Transport) : list byte :=
  c_written c ++ waiting c (flight k s).

Definition registered (c : Conn) : bool :=
  match c_phase c with Connecting | Refused _ | Failed => false | _ => true end.

(** A connection that was not registered has nothing. *)
Definition untouched (c : Conn) : Prop := c_queue c = [] /\ c_out c = Idle /\ c_written c = [].

Record inbound_inv (es : list Event) (s : Transport) : Prop := {
  inv_prefix : forall k c, conns s !! k = Some c -> total k c s `prefix_of` (history k (c_id c) es).2;
  inv_live : forall id k, tcp_streams s !! id = Some k ->
    exists c, conns s !! k = Some c /\ c_id c = id /\ registered c = true
    /\ (running (c_out c) = true -> total k c s = (history k id es).2);
  inv_new : forall k c, conns s !! k = Some c -> registered c = false ->
    (history k (c_id c) es).1 = false /\ untouched c;
  inv_reg : forall k c, conns s !! k = Some c -> registered c = true -> (history k (c_id c) es).1 = true;
  inv_none : forall k id, conns s !! k = None -> (history k id es).1 = false;
  inv_reading : forall id k data, reading s = Some (DelTcp id k data) ->
    exists c, conns s !! k = Some c /\ c_id c = id /\ registered c = true;
}.

(** What happens to one connection in a step that registers nothing and
    brings it nothing: its bytes stay, or it is not live. *)
Record calm (k : nat) (s s' : Transport) (c c' : Conn) : Prop := {
  calm_id : c_id c' = c_id c;
  calm_reg : registered c' = registered c;
  calm_new : registered c = false -> untouched c -> untouched c';
  calm_total : total k c' s' `prefix_of` total k c s;
  calm_live : tcp_streams s' !! c_id c = Some k -> running (c_out c') = true ->
    running (c_out c) = true /\ total k c' s' = total k c s;
}.

Definition all_calm (s s' : Transport) : Prop :=
  (forall k c', conns s' !! k = Some c' -> exists c, conns s !! k = Some c /\ calm k s s' c c')
  /\ (forall k, conns s' !! k = None -> conns s !! k = None)
  /\ tcp_streams s' ⊆ tcp_streams s
  /\ (reading s' = reading s \/ reading s' = None \/ exists id u dg, reading s' = Some (DelUdp id u dg)).

Definition quiet (es : list Event) (s' : Transport) (e : Event) : Prop :=
  forall k id, let h := history k id es in
    (history_step k id h e).1 = h.1 /\ (h.2 `prefix_of` (history_step k id h e).2)
    /\ (tcp_streams s' !! id = Some k -> history_step k id h e = h).

Lemma inbound_calm es s s' e :
  inbound_inv es s -> quiet es s' e -> all_calm s s' -> inbound_inv (es ++ [e]) s'.
Proof.
  intros I Hq (Hc & Hn & Ht & Hr). split.
  - intros k c' (c & H & C)%Hc. rewrite (calm_id _ _ _ _ _ C), conn_history_snoc.
    destruct (Hq k (c_id c)) as (_ & Hp & _). etrans; [|exact Hp].
    etrans; [apply (calm_total _ _ _ _ _ C)|by apply (inv_prefix _ _ I)].
  - intros id k Hid. pose proof (lookup_weaken _ _ _ _ Hid Ht) as Hid0.
    destruct (inv_live _ _ I id k Hid0) as (c & H & Hci & Hreg & Htot).
    destruct (conns s' !! k) as [c'|] eqn:E; [|apply Hn in E; congruence].
    destruct (Hc k c' E) as (c0 & E0 & C). replace c0 with c in * by congruence. subst id.
    exists c'. rewrite (calm_id _ _ _ _ _ C), (calm_reg _ _ _ _ _ C), conn_history_snoc. split_and!; [done..|].
    intros Hrun. destruct (calm_live _ _ _ _ _ C Hid Hrun) as [Hrun0 ->].
    destruct (Hq k (c_id c)) as (_ & _ & ->); auto.
  - intros k c' (c & H & C)%Hc. rewrite (calm_reg _ _ _ _ _ C), (calm_id _ _ _ _ _ C). intros Hreg.
    destruct (inv_new _ _ I k c H Hreg) as [Hh Hu]. rewrite conn_history_snoc, (proj1 (Hq k (c_id c))).
    split; [done|]. by apply (calm_new _ _ _ _ _ C).
  - intros k c' (c & H & C)%Hc. rewrite (calm_reg _ _ _ _ _ C), (calm_id _ _ _ _ _ C).
    rewrite conn_history_snoc, (proj1 (Hq k (c_id c))). by apply (inv_reg _ _ I).
  - intros k id H%Hn. rewrite conn_history_snoc, (proj1 (Hq k id)). by apply (inv_none _ _ I).
  - intros id k data Hd. destruct Hr as [Hr|[Hr|(?&?&?&Hr)]]; rewrite Hr in Hd; [|congruence..].
    destruct (inv_reading _ _ I id k data Hd) as (c & H & ? & ?).
    destruct (conns s' !! k) as [c'|] eqn:E; [|apply Hn in E; congruence].
    destruct (Hc k c' E) as (c0 & E0 & C). replace c0 with c in * by congruence. subst id. exists c'.
    by rewrite (calm_id _ _ _ _ _ C), (calm_reg _ _ _ _ _ C).
Qed.

Lemma calm_same k s s' c c' :
  c_id c' = c_id c -> registered c' = registered c -> c_queue c' = c_queue c -> c_out c' = c_out c ->
  c_written c' = c_written c -> flight k s' = flight k s -> calm k s s' c c'.
Proof.
  intros Hid Hreg Hq Ho Hw Hf.
  assert (Ht : total k c' s' = total k c s) by (unfold total, waiting; by rewrite Hw, Ho, Hq, Hf).
  split; [done..| | |].
  - unfold untouched. by rewrite Hq, Ho, Hw.
  - by rewrite Ht.
  - by rewrite Ht, Ho.
Qed.

(** A step that changes no connection. *)
Lemma all_calm_same s s' :
  conns s' = conns s -> tcp_streams s' ⊆ tcp_streams s -> reading s' = reading s -> all_calm s s'.
Proof.
  intros Hc Ht Hr. split_and!; [|by rewrite Hc|done|by left].
  intros k c. rewrite Hc. intros H. exists c. split; [done|].
  apply calm_same; try done. unfold flight. by rewrite Hr.
Qed.

(** A step of the task of one connection. *)
Lemma all_calm_upd k f s s' :
  conns s' = alter f k (conns s) -> tcp_streams s' ⊆ tcp_streams s -> reading s' = reading s ->
  (forall c, conns s !! k = Some c -> calm k s s' c (f c)) -> all_calm s s'.
Proof.
  intros Hc Ht Hr Hf.
  assert (Hfl : forall j, flight j s' = flight j s) by (intros j; unfold flight; by rewrite Hr).
  split_and!; [| |done|by left]; intros j; rewrite Hc.
  - intros c'. destruct (decide (k = j)) as [<-|].
    + rewrite list_lookup_alter_eq. destruct (conns s !! k) as [c|] eqn:E; cbn; [|done].
      intros [= <-]. eauto.
    + rewrite list_lookup_alter_ne by done. intros H. exists c'. split; [done|]. by apply calm_same.
  - destruct (decide (k = j)) as [<-|].
    + rewrite list_lookup_alter_eq. by destruct (conns s !! k).
    + by rewrite list_lookup_alter_ne.
Qed.

(** The same, when the task's own state is not what it passes on. *)
Lemma all_calm_aside k f s s' :
  conns s' = alter f k (conns s) -> tcp_streams s' ⊆ tcp_streams s -> reading s' = reading s ->
  (forall c, conns s !! k = Some c -> c_id (f c) = c_id c /\ registered (f c) = registered c
    /\ c_queue (f c) = c_queue c /\ c_out (f c) = c_out c /\ c_written (f c) = c_written c) ->
  all_calm s s'.
Proof.
  intros Hc Ht Hr Hf. apply (all_calm_upd k f); [done..|]. intros c H.
  destruct (Hf c H) as (? & ? & ? & ? & ?). apply calm_same; try done. unfold flight. by rewrite Hr.
Qed.

(** [send_frame] only touches the queue. *)
Lemma send_frame_conns f s : conns (send_frame f s) = conns s.
Proof. unfold send_frame. by case_match. Qed.
Lemma send_frame_tcp f s : tcp_streams (send_frame f s) = tcp_streams s.
Proof. unfold send_frame. by case_match. Qed.
Lemma send_frame_reading f s : reading (send_frame f s) = reading s.
Proof. unfold send_frame. by case_match. Qed.
Create Rewrite HintDb remote.
#[export] Hint Rewrite send_frame_conns send_frame_tcp send_frame_reading : remote.

Ltac remote_simpl :=
  cbn [deliver conns tcp_streams reading upd_conn upd_assoc set_conns set_assocs set_tcp set_udp set_reading
       set_outbox set_batch stop_writer stop_reader];
  autorewrite with remote.

(** The steps of [local_to_remote]. *)
Lemma calm_out k s s' c v q w :
  flight k s' = flight k s -> registered c = true ->
  let c' := set_queue q (set_out v w c) in
  (total k c' s' `prefix_of` total k c s) ->
  (running v = true -> running (c_out c) = true /\ total k c' s' = total k c s) ->
  calm k s s' c c'.
Proof. intros Hf Hreg c' Ht Hl. split; [done..| | |]; [by rewrite Hreg|done|by auto]. Qed.

Lemma spawned_registered c : spawned c = true -> registered c = true.
Proof. unfold spawned, registered. by destruct (c_phase c). Qed.

(** A connection whose pump has something was registered. *)
Lemma pumped_registered es k c s :
  inbound_inv es s -> conns s !! k = Some c -> c_out c <> Idle -> registered c = true.
Proof.
  intros I Hc Ho. destruct (registered c) eqn:Hr; [done|].
  by destruct (inv_new _ _ I k c Hc Hr) as [_ (_ & ? & _)].
Qed.

(** The pump takes, writes, fails or ends. *)
Lemma calm_out_recv k s c data q :
  c_out c = Idle -> c_queue c = data :: q -> registered c = true ->
  forall s', flight k s' = flight k s ->
  calm k s s' c (set_queue q (set_out (Holding data) (c_written c) c)).
Proof.
  intros Ho Hq Hreg s' Hf.
  assert (Ht : total k (set_queue q (set_out (Holding data) (c_written c) c)) s' = total k c s).
  { unfold total, waiting. cbn. rewrite Ho, Hq, Hf. cbn. by rewrite <-app_assoc. }
  apply calm_out; [done..| |]; rewrite Ht; [done|]. by rewrite Ho.
Qed.

Lemma calm_out_write k s c data :
  c_out c = Holding data -> registered c = true ->
  forall s', flight k s' = flight k s -> calm k s s' c (set_out Idle (c_written c ++ data) c).
Proof.
  intros Ho Hreg s' Hf.
  assert (Ht : total k (set_out Idle (c_written c ++ data) c) s' = total k c s).
  { unfold total, waiting. cbn. rewrite Ho, Hf. by rewrite <-app_assoc. }
  split; [done..| | |]; [by rewrite Hreg|by rewrite Ht|by rewrite Ht, Ho].
Qed.

Lemma calm_out_stop k s c part :
  match c_out c with Holding data => part `prefix_of` data | _ => part = [] end ->
  registered c = true ->
  forall s', calm k s s' c (set_out Stopped (c_written c ++ part) c).
Proof.
  intros Hp Hreg s'. split; [done..| | |done]; [by rewrite Hreg|].
  unfold total, waiting. cbn. rewrite app_nil_r. apply prefix_app.
  destruct (c_out c); [rewrite Hp; apply prefix_nil|by apply prefix_app_r|by rewrite Hp].
Qed.

(** The steps of a connection's task other than its registration. *)
Lemma conn_step_calm es k c e s s' :
  inbound_inv es s -> conns s !! k = Some c -> (forall j, e <> EConnected j) ->
  conn_step k c e s = Some s' -> all_calm s s'.
Proof.
  intros I Hc He Hs. pose proof (pumped_registered es k c s I Hc) as Hp.
  assert (Haside : forall f s0, s' = upd_conn k f s0 -> conns s0 = conns s ->
    tcp_streams s0 ⊆ tcp_streams s -> reading s0 = reading s ->
    c_id (f c) = c_id c /\ registered (f c) = registered c
    /\ c_queue (f c) = c_queue c /\ c_out (f c) = c_out c /\ c_written (f c) = c_written c ->
    all_calm s s').
  { intros f s0 -> E ? ? Hf. apply (all_calm_aside k f); cbn; [by rewrite E|done..|].
    intros c0 ?. by replace c0 with c by congruence. }
  assert (Hupd : forall f, s' = upd_conn k f s -> calm k s s' c (f c) -> all_calm s s').
  { intros f -> Hf. apply (all_calm_upd k f); cbn; [done..|]. intros c0 ?. by replace c0 with c by congruence. }
  destruct e as [| | | |j|j m|j|j data|j|j|j|j|j part|j|j|j|j| | | | | | | | | | |];
    cbn [conn_step] in Hs; try done; try by destruct (He j).
  - destruct (c_phase c) eqn:E; try done. injection Hs as <-. eapply Haside; try done.
    unfold registered. cbn. by rewrite E.
  - destruct (c_phase c) eqn:E; try done; apply when_Some in Hs as [_ ->];
      (eapply Haside; [done|by autorewrite with remote..|]); unfold registered; cbn; by rewrite E.
  - destruct (c_in c); try done. apply when_Some in Hs as [_ ->]. by eapply Haside.
  - destruct (c_in c); try done. apply when_Some in Hs as [_ ->].
    by (eapply Haside; [done|by autorewrite with remote..|]).
  - destruct (c_in c); try done. apply when_Some in Hs as [_ ->]. by eapply Haside.
  - destruct (c_out c) eqn:Ho; try done. destruct (c_queue c) eqn:Hq; try done.
    apply when_Some in Hs as [Hsp%spawned_registered ->].
    eapply Hupd; [done|]. by apply calm_out_recv.
  - destruct (c_out c) eqn:Ho; try done. injection Hs as <-.
    eapply Hupd; [done|]. apply calm_out_write; [done|by apply Hp|done].
  - destruct (c_out c) eqn:Ho; try done. apply when_Some in Hs as [Hpre%bool_decide_eq_true ->].
    eapply Hupd; [done|]. apply calm_out_stop; [by rewrite Ho|by apply Hp].
  - destruct (c_out c) eqn:Ho; try done. destruct (c_queue c) eqn:Hq; try done.
    apply when_Some in Hs as [[Hsp%spawned_registered _]%andb_prop ->].
    eapply Hupd; [done|]. rewrite <-(app_nil_r (c_written c)). apply calm_out_stop; [by rewrite Ho|done].
  - destruct (c_phase c) eqn:E; try done. apply when_Some in Hs as [_ ->].
    eapply Haside; [done..|apply delete_subseteq|done|]. unfold registered. cbn. by rewrite E.
  - destruct (c_phase c) eqn:E; try done. apply when_Some in Hs as [_ ->].
    (eapply Haside; [done|by autorewrite with remote..|]). unfold registered. cbn. by rewrite E.
  - assert (Hreg : registered c = true) by (unfold registered; by destruct (c_phase c)).
    assert (Hs' : s' = upd_conn k (fun c => set_in Stopped (set_out Stopped (c_written c) c)) s)
      by (destruct (c_phase c); by simplify_eq).
    eapply Hupd; [exact Hs'|].
    assert (Hst : calm k s s' c (set_out Stopped (c_written c ++ []) c)).
    { apply calm_out_stop; [by destruct (c_out c); [|apply prefix_nil|]|done]. }
    rewrite app_nil_r in Hst. destruct Hst. by split.
Qed.

(** The end of the reader's send to a connection: the chunk is in the channel,
    or it is lost and the stream is not live. *)
Lemma calm_delivered k s s' c data :
  flight k s = data -> flight k s' = [] -> registered c = true ->
  calm k s s' c (set_queue (c_queue c ++ [data]) c).
Proof.
  intros Hf Hf' Hreg.
  assert (Ht : total k (set_queue (c_queue c ++ [data]) c) s' = total k c s).
  { unfold total, waiting. cbn. rewrite Hf, Hf', concat_app. cbn.
    destruct (c_out c); by rewrite ?app_nil_r. }
  split; [done..| | |]; [by rewrite Hreg|by rewrite Ht|by rewrite Ht].
Qed.

Lemma calm_lost k s s' c :
  flight k s' = [] -> tcp_streams s' !! c_id c <> Some k -> calm k s s' c c.
Proof.
  intros Hf Hn. split; [done..| |done]. unfold total, waiting. apply prefix_app. rewrite Hf.
  destruct (c_out c); [|apply prefix_app|done]; apply prefix_app; apply prefix_nil.
Qed.

Lemma deliver_reading d o s : reading (deliver d o s) = None.
Proof. by destruct d, o; remote_simpl. Qed.

(** The connections whose task is not the one the reader sends to. *)
Lemma deliver_other d o s j c :
  reading s = Some d -> match d with DelTcp _ k _ => k <> j | _ => True end ->
  calm j s (deliver d o s) c c.
Proof.
  intros Hr Hj. apply calm_same; try done. unfold flight. rewrite deliver_reading, Hr.
  destruct d; [|done]. by rewrite decide_False.
Qed.

Lemma deliver_calm es d o s :
  inbound_inv es s -> reading s = Some d -> deliver_ok d o s = true -> all_calm s (deliver d o s).
Proof.
  intros I Hr Hok.
  assert (Hkeep : conns (deliver d o s) = conns s -> tcp_streams (deliver d o s) ⊆ tcp_streams s ->
    (forall id k data c, d = DelTcp id k data -> conns s !! k = Some c -> calm k s (deliver d o s) c c) ->
    all_calm s (deliver d o s)).
  { intros Hc Ht Hk. split_and!; [|by rewrite Hc|done|rewrite deliver_reading; by auto].
    intros j c. rewrite Hc. intros H. exists c. split; [done|].
    destruct d as [id k data|]; [|by apply deliver_other].
    destruct (decide (k = j)) as [->|]; [by eapply Hk|by apply deliver_other]. }
  assert (Hfl : forall k, flight k (deliver d o s) = []) by (intros; unfold flight; by rewrite deliver_reading).
  destruct d as [id k data|id u dg]; [|apply Hkeep; destruct o; remote_simpl; done].
  destruct (inv_reading _ _ I id k data Hr) as (c0 & Hc0 & Hid & Hreg).
  assert (Hlost : forall c, conns s !! k = Some c -> tcp_streams (deliver (DelTcp id k data) o s) !! id = None ->
            calm k s (deliver (DelTcp id k data) o s) c c).
  { intros c H Hn. apply calm_lost; [done|]. replace c with c0 by congruence. by rewrite Hid, Hn. }
  destruct o; [|apply Hkeep; remote_simpl; [done|apply delete_subseteq|]..].
  - split_and!; [| |done|right; by left]; intros j; remote_simpl.
    + intros c'. destruct (decide (k = j)) as [<-|].
      * rewrite list_lookup_alter_eq, Hc0. intros [= <-]. exists c0. split; [done|].
        apply calm_delivered; [|done..]. unfold flight. by rewrite Hr, decide_True.
      * rewrite list_lookup_alter_ne by done. intros H. exists c'. split; [done|].
        by apply (deliver_other (DelTcp id k data) Sent).
    + destruct (decide (k = j)) as [<-|]; [by rewrite list_lookup_alter_eq, Hc0|by rewrite list_lookup_alter_ne].
  - intros ? ? ? c [= <- <- <-] H. apply Hlost; [done|]. apply lookup_delete_eq.
  - intros ? ? ? c [= <- <- <-] H. apply Hlost; [done|]. remote_simpl. apply lookup_delete_eq.
Qed.

Lemma udp_sender_same id s :
  conns (udp_sender id s).2 = conns s /\ tcp_streams (udp_sender id s).2 = tcp_streams s
  /\ reading (udp_sender id s).2 = reading s.
Proof. unfold udp_sender. by destruct (udp_streams s !! id). Qed.

(** The frames that neither open a connection nor feed one. *)
Lemma frame_calm f s :
  reading s = None ->
  match f with
  | OpenTcp _ _ _ _ => False
  | Data id _ => tcp_streams s !! id = None
  | _ => True
  end -> all_calm s (handle_frame f s).
Proof.
  intros Hr Hf. destruct f as [| | id data | id reason | id host port data |]; cbn [handle_frame]; try done;
    try by apply all_calm_same.
  - rewrite Hf. by apply all_calm_same.
  - apply all_calm_same; try done. apply delete_subseteq.
  - destruct (udp_sender_same id s) as (Hc & Ht & Hrd). destruct (udp_sender id s) as [u s1]. cbn in Hc, Ht, Hrd.
    split_and!; remote_simpl; [|by rewrite Hc|by rewrite Ht|right; right; by do 3 eexists].
    intros k c. rewrite Hc. intros H. exists c. split; [done|]. apply calm_same; try done.
    unfold flight. cbn. by rewrite Hr.
Qed.

Lemma assoc_step_local u a e s s' :
  assoc_step u a e s = Some s' ->
  tcp_streams s' = tcp_streams s /\ conns s' = conns s /\ reader_alive s' = reader_alive s
  /\ reading s' = reading s.
Proof.
  assert (Hal : forall f s, reader_alive (send_frame f s) = reader_alive s)
    by (intros; unfold send_frame; by case_match).
  intros Hs. destruct e; cbn [assoc_step] in Hs; destruct (a_phase a); try done;
    repeat (case_match; try done); try apply when_Some in Hs as [_ ->]; simplify_eq;
    split_and!; remote_simpl; try done; cbn; by rewrite ?Hal.
Qed.

Lemma assoc_step_calm u a e s s' : assoc_step u a e s = Some s' -> all_calm s s'.
Proof.
  intros (Ht & Hc & _ & Hr)%assoc_step_local. apply all_calm_same; [done|by rewrite Ht|done].
Qed.

(** ** The steps that open, register and feed a connection *)

Lemma inbound_open es s id host port px :
  inbound_inv es s -> reading s = None ->
  inbound_inv (es ++ [ERead (OpenTcp id host port px)]) (spawn_open id host port px s).
Proof.
  intros I Hr. set (e := ERead _). set (px' := match px with Some p => Some p | None => default_egress_proxy s end).
  set (cn := MkConn id (host, port, px') Connecting [] Idle Idle []).
  assert (Hh : forall k i, history k i (es ++ [e]) = history k i es) by (intros; by rewrite conn_history_snoc).
  assert (Hfl : forall k, flight k (spawn_open id host port px s) = []) by (intros; unfold flight; cbn; by rewrite Hr).
  assert (Hfl0 : forall k, flight k s = []) by (intros; unfold flight; cbn; by rewrite Hr).
  assert (Ht : forall k c, total k c (spawn_open id host port px s) = total k c s)
    by (intros; unfold total; by rewrite Hfl, Hfl0).
  assert (Hl : forall k c, (conns s ++ [cn]) !! k = Some c ->
            conns s !! k = Some c \/ (conns s !! k = None /\ c = cn)).
  { intros k c [H|[Hge H]]%lookup_app_Some; [by left|]. right. split; [by apply lookup_ge_None|].
    destruct (k - length (conns s))%nat; [by injection H as <-|done]. }
  split.
  - intros k c [H|[H ->]]%Hl; rewrite Hh, Ht; [by apply (inv_prefix _ _ I)|].
    unfold total, waiting. rewrite Hfl0. apply prefix_nil.
  - intros i k Hi. destruct (inv_live _ _ I i k Hi) as (c & ? & ? & ? & ?). exists c.
    rewrite Hh, Ht. split_and!; [by apply lookup_app_l_Some|done..].
  - intros k c [H|[H ->]]%Hl; rewrite Hh; [by apply (inv_new _ _ I)|]. intros _.
    split; [by apply (inv_none _ _ I)|done].
  - intros k c [H|[H ->]]%Hl; rewrite Hh; [by apply (inv_reg _ _ I)|done].
  - intros k i H%lookup_ge_None. cbn in H. rewrite length_app in H. rewrite Hh. apply (inv_none _ _ I).
    apply lookup_ge_None. lia.
  - intros i k data Hd. change (reading s = Some (DelTcp i k data)) in Hd. congruence.
Qed.

Lemma inbound_feed es s id k data :
  inbound_inv es s -> reading s = None -> tcp_streams s !! id = Some k ->
  inbound_inv (es ++ [ERead (Data id data)]) (set_reading (Some (DelTcp id k data)) s).
Proof.
  intros I Hr Hk. destruct (inv_live _ _ I id k Hk) as (ck & Hck & Hid & Hreg & Hlive).
  set (s' := set_reading _ s). set (e := ERead _).
  assert (Hopen : (history k id es).1 = true) by (rewrite <-Hid; by apply (inv_reg _ _ I)).
  assert (Hh1 : forall j i, (history j i (es ++ [e])).1 = (history j i es).1).
  { intros j i. rewrite conn_history_snoc. cbn. destruct (history j i es) as [[] l]; cbn; [by case_bool_decide|done]. }
  assert (Hh2 : forall j i, (history j i es).2 `prefix_of` (history j i (es ++ [e])).2).
  { intros j i. rewrite conn_history_snoc. cbn. case_match; [by apply prefix_app_r|done]. }
  assert (Hhk : (history k id (es ++ [e])).2 = (history k id es).2 ++ data).
  { rewrite conn_history_snoc. cbn. by rewrite Hopen, bool_decide_eq_true_2. }
  assert (Hfl : forall j, j <> k -> flight j s' = flight j s).
  { intros j Hj. unfold flight. cbn. by rewrite Hr, decide_False. }
  assert (Htk : running (c_out ck) = true -> total k ck s' = total k ck s ++ data).
  { unfold total, waiting, flight. cbn. rewrite Hr, decide_True by done.
    destruct (c_out ck); rewrite ?app_nil_r, <-?app_assoc; done. }
  assert (Htk' : running (c_out ck) = false -> total k ck s' = total k ck s).
  { unfold total, waiting. by destruct (c_out ck). }
  split.
  - intros j c H. change (conns s !! j = Some c) in H. destruct (decide (j = k)) as [->|Hj].
    + replace c with ck by congruence. rewrite Hid. destruct (running (c_out ck)) eqn:E.
      * rewrite Htk, Hhk, Hlive by done. done.
      * rewrite Htk' by done. etrans; [|apply Hh2]. rewrite <-Hid. by apply (inv_prefix _ _ I).
    + unfold total. rewrite Hfl by done. etrans; [|apply Hh2]. by apply (inv_prefix _ _ I).
  - intros i j Hij. change (tcp_streams s !! i = Some j) in Hij. destruct (inv_live _ _ I i j Hij) as (c & H & Hci & Hrj & Hl).
    exists c. split_and!; [done..|]. intros Hrun. destruct (decide (j = k)) as [->|Hj].
    + replace c with ck in * by congruence. replace i with id by congruence. by rewrite Htk, Hhk, Hlive.
    + unfold total. rewrite Hfl by done. rewrite conn_history_snoc. cbn.
      rewrite bool_decide_eq_false_2, andb_false_r by congruence. by apply Hl.
  - intros j c H ?. rewrite Hh1. by apply (inv_new _ _ I).
  - intros j c H ?. rewrite Hh1. by apply (inv_reg _ _ I).
  - intros j i H. rewrite Hh1. by apply (inv_none _ _ I).
  - intros i j d [= <- <- <-]. eauto.
Qed.

Lemma inbound_connected es s k c :
  inbound_inv es s -> conns s !! k = Some c -> c_phase c = Connecting ->
  inbound_inv (es ++ [EConnected k])
    (upd_conn k (set_phase Registered) (set_tcp (<[c_id c := k]> (tcp_streams s)) s)).
Proof.
  intros I Hc Hp. set (s' := upd_conn _ _ _). set (e := EConnected k).
  assert (Hreg : registered c = false) by (unfold registered; by rewrite Hp).
  destruct (inv_new _ _ I k c Hc Hreg) as [Hh (Hq & Ho & Hw)].
  assert (Hfl : flight k s = []).
  { unfold flight. destruct (reading s) as [[id j d|]|] eqn:Hr; [|done..]. case_decide; [subst|done].
    destruct (inv_reading _ _ I id k d Hr) as (c0 & ? & _ & ?). congruence. }
  assert (Hhk : forall j i, history j i (es ++ [e])
                  = if decide (k = j) then (true, (history j i es).2) else history j i es)
    by (intros; by rewrite conn_history_snoc).
  assert (Ht : forall j c0, total j c0 s' = total j c0 s) by done.
  assert (Hl : forall j c', conns s' !! j = Some c' ->
            (j = k /\ c' = set_phase Registered c) \/ (j <> k /\ conns s !! j = Some c')).
  { intros j c'. cbn. destruct (decide (k = j)) as [<-|].
    - rewrite list_lookup_alter_eq, Hc. intros [= <-]. by left.
    - rewrite list_lookup_alter_ne by done. auto. }
  assert (Htk : total k (set_phase Registered c) s = []).
  { unfold total, waiting. cbn. by rewrite Ho, Hw, Hq, Hfl. }
  split.
  - intros j c' [[-> ->]|[? H]]%Hl; rewrite Hhk, Ht.
    + rewrite Htk. apply prefix_nil.
    + rewrite decide_False by done. by apply (inv_prefix _ _ I).
  - intros i j. cbn. intros [[<- <-]|[Hne H]]%lookup_insert_Some.
    + exists (set_phase Registered c). rewrite list_lookup_alter_eq, Hc, Hhk, Ht, Htk, decide_True by done.
      split_and!; [done..|]. intros _. symmetry. by apply conn_history_unopened.
    + destruct (inv_live _ _ I i j H) as (c0 & H0 & ? & ? & ?).
      assert (k <> j) by congruence. exists c0. rewrite list_lookup_alter_ne, Hhk, decide_False by done. done.
  - intros j c' [[-> ->]|[? H]]%Hl; [done|]. rewrite Hhk, decide_False by done. by apply (inv_new _ _ I).
  - intros j c' [[-> ->]|[? H]]%Hl; rewrite Hhk; [by rewrite decide_True|].
    rewrite decide_False by done. by apply (inv_reg _ _ I).
  - intros j i. cbn. destruct (decide (k = j)) as [<-|].
    + by rewrite list_lookup_alter_eq, Hc.
    + rewrite list_lookup_alter_ne by done. rewrite Hhk, decide_False by done. apply (inv_none _ _ I).
  - intros i j d Hr. destruct (inv_reading _ _ I i j d Hr) as (c0 & ? & ? & ?). exists c0. cbn.
    assert (k <> j) by congruence. by rewrite list_lookup_alter_ne.
Qed.

(** Nothing but data frames and registrations is in a history. *)
Lemma quiet_event es s' e :
  match e with ERead (Data _ _) | EConnected _ => False | _ => True end -> quiet es s' e.
Proof. intros He k id h. destruct e as [[]| | | | | | | | | | | | | | | | | | | | | | | | | | |]; done. Qed.

Lemma quiet_unmatched es s id data :
  tcp_streams s !! id = None -> quiet es (handle_frame (Data id data) s) (ERead (Data id data)).
Proof.
  intros Hn k i h. cbn. rewrite Hn. destruct h as [[] l]; cbn; [|done].
  case_bool_decide as Hi; cbn; [|done]. split_and!; [done|by apply prefix_app_r|]. congruence.
Qed.

Lemma inbound_inv_step es s e s' : inbound_inv es s -> step s e = Some s' -> inbound_inv (es ++ [e]) s'.
Proof.
  intros I Hs.
  assert (Hcalm : match e with ERead (Data _ _) | EConnected _ => False | _ => True end ->
                  all_calm s s' -> inbound_inv (es ++ [e]) s')
    by (intros; eapply inbound_calm; eauto using quiet_event).
  assert (Hconn : forall k, step s e = (c ← conns s !! k; conn_step k c e s) ->
            (forall j, e <> EConnected j) -> all_calm s s').
  { intros k E He. rewrite E in Hs. apply bind_Some in Hs as (c & Hc & Hs). by eapply conn_step_calm. }
  assert (Hass : forall u, step s e = (a ← assocs s !! u; assoc_step u a e s) -> all_calm s s').
  { intros u E. rewrite E in Hs. apply bind_Some in Hs as (a & Ha & Hs). by eapply assoc_step_calm. }
  destruct e as [f|o| | |k|k m|k|k data|k|k|k|k|k part|k|k|k|k|u|u m|u|u|u h p d|u|u|u| | |];
    try (apply Hcalm; [done|]; by eapply (Hconn k)); try (apply Hcalm; [done|]; by eapply (Hass u)).
  - apply when_Some in Hs as [Hi ->]. unfold reader_idle in Hi. destruct (reading s) eqn:Hr; [by destruct (reader_alive s)|].
    destruct f as [id host port px| |id data| | |].
    + by apply inbound_open.
    + apply Hcalm; [done|]. by apply frame_calm.
    + destruct (tcp_streams s !! id) as [k|] eqn:Hk; [cbn; rewrite Hk; by apply inbound_feed|].
      eapply inbound_calm; [done|by apply quiet_unmatched|by apply frame_calm].
    + apply Hcalm; [done|]. by apply frame_calm.
    + apply Hcalm; [done|]. by apply frame_calm.
    + apply Hcalm; [done|]. by apply frame_calm.
  - cbn [step] in Hs. destruct (reading s) as [d|] eqn:Hr; [|done]. apply when_Some in Hs as [Hok ->].
    apply Hcalm; [done|]. by eapply deliver_calm.
  - apply when_Some in Hs as [_ ->]. apply Hcalm; [done|]. by apply all_calm_same.
  - apply when_Some in Hs as [_ ->]. apply Hcalm; [done|]. by apply all_calm_same.
  - cbn [step] in Hs. apply bind_Some in Hs as (c & Hc & Hs). cbn in Hs.
    destruct (c_phase c) eqn:Hp; try done. injection Hs as <-. by apply inbound_connected.
  - cbn [step] in Hs. destruct (outbox s); [done|]. apply when_Some in Hs as [_ ->].
    apply Hcalm; [done|]. by apply all_calm_same.
  - apply when_Some in Hs as [_ ->]. apply Hcalm; [done|]. by apply all_calm_same.
  - apply when_Some in Hs as [_ ->]. apply Hcalm; [done|]. by apply all_calm_same.
Qed.

Lemma inbound_inv_reaches es s : reaches es s -> inbound_inv es s.
Proof.
  intros [px Hs]. revert s Hs. induction es as [|e es IH] using rev_ind; intros s Hs.
  - injection Hs as <-. by split.
  - apply runs_snoc in Hs as (s1 & H1 & Hs). by eapply inbound_inv_step; eauto.
Qed.

(** ** After the end of the link *)

(** The link has ended and connection [k], the only one of its id, relays. *)
Record held (k : nat) (id : Z) (s : Transport) : Prop := {
  held_reader : reader_alive s = false /\ reading s = None;
  held_stream : tcp_streams s !! id = Some k;
  held_conn : exists c, conns s !! k = Some c /\ c_phase c = Relaying
              /\ running (c_in c) = true /\ running (c_out c) = true;
  held_only : forall j c, conns s !! j = Some c -> (c_id c = id <-> j = k);
}.

(** A step of the task of connection [j] changes its own entries only. *)
Lemma conn_step_local j c e s s' :
  conn_step j c e s = Some s' ->
  exists f, conns s' = alter f j (conns s) /\ c_id (f c) = c_id c
    /\ (c_target (f c) = c_target c /\ (registered c = true -> registered (f c) = true))
    /\ (reader_alive s' = reader_alive s /\ reading s' = reading s)
    /\ forall i, i <> c_id c -> tcp_streams s' !! i = tcp_streams s !! i.
Proof.
  assert (Hal : forall f s, reader_alive (send_frame f s) = reader_alive s)
    by (intros; unfold send_frame; by case_match).
  intros Hs. destruct e; cbn [conn_step] in Hs; try done;
    repeat (case_match; try done); try apply when_Some in Hs as [_ ->]; simplify_eq;
    (eexists; split_and!;
       [remote_simpl; reflexivity|done|done|unfold registered; cbn; by destruct (c_phase c)
       |cbn; by rewrite ?Hal|by remote_simpl|]);
    intros i Hi; remote_simpl; by rewrite ?lookup_insert_ne, ?lookup_delete_ne.
Qed.

Definition conn_of (e : Event) : option nat :=
  match e with
  | EConnected k | ERefused k _ | EResult k | EInRead k _ | EInSend k | EInEnd k | EOutRecv k
  | EOutWrite k | EOutFail k _ | EOutEnd k | ESelect k | EClosed k | EAbort k => Some k
  | _ => None
  end.

Lemma conn_of_step e k s : conn_of e = Some k -> step s e = (c ← conns s !! k; conn_step k c e s).
Proof. intros He. destruct e; by simplify_eq/=. Qed.

(** The target's end of stream, and a failed write to it. *)
Definition target_ends (k : nat) (e : Event) : Prop :=
  match e with EInEnd j | EOutFail j _ => j = k | _ => False end.

(** The connection's own task goes on relaying. *)
Lemma held_own k id e s s' c :
  held k id s -> conns s !! k = Some c -> c_phase c = Relaying -> running (c_in c) = true ->
  running (c_out c) = true -> conn_of e = Some k -> ~ target_ends k e -> conn_step k c e s = Some s' ->
  tcp_streams s' = tcp_streams s
  /\ exists c', conns s' !! k = Some c' /\ c_phase c' = Relaying /\ running (c_in c') = true
               /\ running (c_out c') = true.
Proof.
  intros Hh Hc Hp Hi Ho He Hn Hs.
  assert (Hupd : forall f s0, s' = upd_conn k f s0 -> conns s0 = conns s -> tcp_streams s0 = tcp_streams s ->
    c_phase (f c) = Relaying -> running (c_in (f c)) = true -> running (c_out (f c)) = true ->
    tcp_streams s' = tcp_streams s
    /\ exists c', conns s' !! k = Some c' /\ c_phase c' = Relaying /\ running (c_in c') = true
               /\ running (c_out c') = true).
  { intros f s0 -> E Et ? ? ?. cbn. split; [done|]. exists (f c). by rewrite E, list_lookup_alter_eq, Hc. }
  destruct e as [| | | |j|j m|j|j data|j|j|j|j|j part|j|j|j|j| | | | | | | | | | |]; simplify_eq/=;
    try (by destruct Hn); rewrite ?Hp in Hs; try done.
  - destruct (c_in c); try done. apply when_Some in Hs as [_ ->]. by eapply Hupd.
  - destruct (c_in c); try done. apply when_Some in Hs as [_ ->].
    by (eapply Hupd; [done|by autorewrite with remote..|done|done|done]).
  - destruct (c_out c); try done. destruct (c_queue c); try done. apply when_Some in Hs as [_ ->]. by eapply Hupd.
  - destruct (c_out c); try done. injection Hs as <-. by eapply Hupd.
  - destruct (c_out c); try done. destruct (c_queue c); try done.
    apply when_Some in Hs as [[_ Hns]%andb_prop _]. unfold has_sender in Hns.
    rewrite (proj2 (held_only _ _ _ Hh k c Hc) eq_refl), (held_stream _ _ _ Hh), bool_decide_eq_true_2 in Hns by done.
    done.
  - apply when_Some in Hs as [Hr _]. by rewrite Hi, Ho in Hr.
Qed.

Lemma held_step k id e s s' :
  held k id s -> ~ target_ends k e -> step s e = Some s' -> held k id s'.
Proof.
  intros Hh Hn Hs. destruct (held_conn _ _ _ Hh) as (c & Hc & Hp & Hi & Ho).
  destruct (held_reader _ _ _ Hh) as [Hal Hrd].
  assert (Hidle : reader_idle s = false) by (unfold reader_idle; by rewrite Hal).
  assert (Hkeep : tcp_streams s' = tcp_streams s -> conns s' = conns s -> reader_alive s' = reader_alive s ->
                  reading s' = reading s -> held k id s').
  { intros Et Ec Ea Er. split; rewrite ?Et, ?Ec, ?Ea, ?Er; [done|apply (held_stream _ _ _ Hh)|by eauto|].
    apply (held_only _ _ _ Hh). }
  destruct (conn_of e) as [j|] eqn:He.
  - rewrite (conn_of_step _ _ _ He) in Hs. apply bind_Some in Hs as (cj & Hcj & Hs).
    destruct (conn_step_local _ _ _ _ _ Hs) as (f & Ec & Hidf & _ & [Ea Er] & Et).
    assert (Honly : forall i c0, conns s' !! i = Some c0 -> (c_id c0 = id <-> i = k)).
    { intros i c0. rewrite Ec. destruct (decide (j = i)) as [<-|].
      - rewrite list_lookup_alter_eq, Hcj. intros [= <-]. rewrite Hidf. by apply (held_only _ _ _ Hh).
      - rewrite list_lookup_alter_ne by done. apply (held_only _ _ _ Hh). }
    destruct (decide (j = k)) as [->|Hj].
    + replace cj with c in * by congruence.
      destruct (held_own k id e s s' c Hh Hc Hp Hi Ho He Hn Hs) as [Et' Hc'].
      split; [by rewrite Ea, Er|by rewrite Et', (held_stream _ _ _ Hh)|done|done].
    + split; [by rewrite Ea, Er| |exists c; by rewrite Ec, list_lookup_alter_ne|done].
      rewrite Et; [apply (held_stream _ _ _ Hh)|]. intros E. by apply Hj, (held_only _ _ _ Hh j cj).
  - destruct e; try done; cbn [step] in Hs; rewrite ?Hidle, ?Hrd in Hs; try done;
      try (apply bind_Some in Hs as (a & _ & (Et & Ec & Ea & Er)%assoc_step_local); by apply Hkeep);
      try (by apply when_Some in Hs as [_ ->]; apply Hkeep).
    destruct (outbox s); [done|]. apply when_Some in Hs as [_ ->]. by apply Hkeep.
Qed.

(** ** The token *)

Section token.
Context {R W : Type} `{AsyncReadLaws R} `{AsyncWriteLaws W}.

Lemma verify_token_accepts expected (s : TcpStream R W) y :
  str_len expected <= u_max 16 ->
  rest (inbound s) = (be_bytes 2 (str_len expected) ++ str_bytes expected) ++ y ->
  (verify_token (Some expected) s).1 = Ok tt
  /\ rest (inbound (verify_token (Some expected) s).2) = y
  /\ outbound (verify_token (Some expected) s).2 = outbound s.
Proof.
  intros Hl Hr. rewrite <-app_assoc in Hr.
  destruct (read_exact_app (inbound s) (be_bytes 2 (str_len expected)) _ Hr) as (r1 & E1 & Hr1 & _).
  rewrite length_be_bytes in E1.
  change (Z.of_nat 2) with 2 in E1.
  destruct (read_exact_app r1 (str_bytes expected) y Hr1) as (r2 & E2 & Hr2 & _).
  assert (Hv : be_value (be_bytes 2 (str_len expected)) = str_len expected).
  { apply be_value_u. unfold in_u, u_max, str_len in *. lia. }
  assert (E : verify_token (Some expected) s = (Ok tt, MkTcp r2 (outbound s))).
  { unfold verify_token. erewrite sr_bind_Ok by (unfold sr_map_err, recv; by rewrite E1).
    rewrite Hv. erewrite sr_bind_Ok by (unfold sr_map_err, recv; cbn; unfold str_len; by rewrite E2).
    by rewrite decide_True. }
  by rewrite E.
Qed.

Lemma verify_token_inv expected (s : TcpStream R W) :
  (verify_token (Some expected) s).1 = Ok tt ->
  str_len expected <= u_max 16
  /\ exists y, rest (inbound s) = (be_bytes 2 (str_len expected) ++ str_bytes expected) ++ y.
Proof.
  unfold verify_token. destruct (Z.lt_ge_cases (len (rest (inbound s))) 2) as [Hs|Hs].
  { destruct (read_exact_short 2 (inbound s) Hs) as (r' & E).
    erewrite sr_bind_Err by (unfold sr_map_err, recv; by rewrite E). done. }
  destruct (read_exact_ok 2 (inbound s)) as (r1 & E1 & Hr1 & _); [lia|].
  erewrite sr_bind_Ok by (unfold sr_map_err, recv; by rewrite E1).
  set (l2 := take (Z.to_nat 2) (rest (inbound s))) in *.
  assert (Hl2 : length l2 = 2%nat) by (unfold l2; rewrite length_take; lia).
  pose proof (be_value_range l2) as Hn. rewrite Hl2 in Hn. set (n := be_value l2) in *.
  destruct (Z.lt_ge_cases (len (rest r1)) n) as [Hs1|Hs1].
  { destruct (read_exact_short n r1 Hs1) as (r' & E).
    erewrite sr_bind_Err by (unfold sr_map_err, recv; cbn; by rewrite E). done. }
  destruct (read_exact_ok n r1) as (r2 & E2 & Hr2 & _); [unfold in_u in Hn; lia|].
  erewrite sr_bind_Ok by (unfold sr_map_err, recv; cbn; by rewrite E2).
  case_decide as Ht; [|done]. intros _.
  assert (Hlen : str_len expected = n).
  { unfold str_len. rewrite <-Ht, length_take. unfold in_u in Hn. lia. }
  split; [unfold in_u, u_max in *; rewrite Hlen; lia|].
  exists (drop (Z.to_nat n) (rest r1)). rewrite Hlen. unfold n. rewrite (be_bytes_value 2 l2) by done.
  rewrite <-app_assoc, <-Ht, take_drop, Hr1. unfold l2. by rewrite take_drop.
Qed.
End token.

(** ** Properties *)

(** C30. What a target is sent is always a prefix of the data the link sent
    for its stream since it was registered, under any interleaving of the
    reader, the copying tasks, aborts and failures, and however the peer
    reuses ids; and while the stream is registered and its writing side
    runs, all of that data was written or is on its way, in order. *)
Theorem remote_target_prefix (es : list Event) (s : Transport) (k : nat) (c : Conn) :
  reaches es s -> conns s !! k = Some c ->
  (c_written c `prefix_of` (history k (c_id c) es).2)
  /\ (tcp_streams s !! c_id c = Some k -> running (c_out c) = true ->
      c_written c ++ waiting c (flight k s) = (history k (c_id c) es).2).
Proof.
  intros I%inbound_inv_reaches Hc. split.
  - etrans; [|by apply (inv_prefix _ _ I)]. by apply prefix_app_r.
  - intros Hk Hrun. destruct (inv_live _ _ I _ _ Hk) as (c0 & Hc0 & _ & _ & Ht).
    replace c0 with c in * by congruence. by apply Ht.
Qed.

(** The peer uses id 7 twice; the first connection keeps what it got. *)
Definition sample_trace : list Event :=
  [ERead (OpenTcp 7 "a" 80 None); EConnected 0; EResult 0; ERead (Data 7 [x01; x02]); EDeliver Sent;
   EOutRecv 0; ERead (Data 7 [x03]); EDeliver Sent; EOutWrite 0; ERead (OpenTcp 7 "b" 81 None);
   EInRead 0 [x61]; EInSend 0; ERead (Data 7 [x04]); EConnected 1; EDeliver Sent; EOutRecv 0; EOutWrite 0;
   ERead (Data 7 [x05]); EDeliver Sent; EOutRecv 0; EOutWrite 0; EOutEnd 0].

Definition sample_state : Transport :=
  default (Transport_new None) (runs step (Transport_new None) sample_trace).

Lemma remote_target_prefix_witness :
  let c := default (MkConn 0 (EmptyString, 0, None) Done [] Idle Idle []) (conns sample_state !! 0%nat) in
  c_written c = [x01; x02; x03; x04]
  /\ (c_written c `prefix_of` (history 0 (c_id c) sample_trace).2)
  /\ (tcp_streams sample_state !! c_id c = Some 0%nat -> running (c_out c) = true ->
      c_written c ++ waiting c (flight 0 sample_state) = (history 0 (c_id c) sample_trace).2).
Proof.
  split; [vm_compute; reflexivity|]. apply (remote_target_prefix sample_trace sample_state 0).
  - exists None. vm_compute. reflexivity.
  - vm_compute. reflexivity.
Defined.

(** A [Close] frame that arrives while the connection is being made has no
    effect: the stream is registered afterwards, and its target's data goes
    to a peer that has forgotten it. *)
Theorem close_before_connect_ignored (s s1 s2 : Transport) (k : nat) (c : Conn) (reason : string) :
  conns s !! k = Some c -> c_phase c = Connecting ->
  step s (ERead (Close (c_id c) reason)) = Some s1 -> step s1 (EConnected k) = Some s2 ->
  tcp_streams s2 !! c_id c = Some k /\ conns s2 !! k = Some (set_phase Registered c).
Proof.
  intros Hc Hp [_ ->]%when_Some H2. cbn in H2. rewrite Hc in H2. cbn in H2. rewrite Hp in H2.
  injection H2 as <-. cbn. by rewrite lookup_insert_eq, list_lookup_alter_eq, Hc.
Qed.

Definition connecting_state : Transport :=
  default (Transport_new None) (step (Transport_new None) (ERead (OpenTcp 1 "a" 80 None))).
Definition cancelled_state : Transport :=
  default (Transport_new None) (step connecting_state (ERead (Close 1 "client gone"))).
Definition leaked_state : Transport :=
  default (Transport_new None) (step cancelled_state (EConnected 0)).

Lemma close_before_connect_ignored_witness :
  let c := MkConn 1 ("a"%string, 80, None) Connecting [] Idle Idle [] in
  tcp_streams leaked_state !! c_id c = Some 0%nat /\ conns leaked_state !! 0%nat = Some (set_phase Registered c).
Proof.
  intros c. apply (close_before_connect_ignored connecting_state cancelled_state leaked_state 0 c "client gone");
    vm_compute; reflexivity.
Defined.

(** A client is accepted exactly when the first bytes of its connection
    are the token with its length in front; then exactly these bytes were
    read and nothing was sent. *)
Theorem verify_token_exact {R W} `{AsyncReadLaws R} `{AsyncWriteLaws W} (expected : string)
    (s : TcpStream R W) :
  let x := be_bytes 2 (str_len expected) ++ str_bytes expected in
  (verify_token (Some expected) s).1 = Ok tt <->
  str_len expected <= u_max 16 /\ (x `prefix_of` rest (inbound s))
  /\ rest (inbound (verify_token (Some expected) s).2) = drop (length x) (rest (inbound s))
  /\ outbound (verify_token (Some expected) s).2 = outbound s.
Proof.
  intros x. split; [|intros (Hl & [y Hy] & _); by apply (verify_token_accepts expected s y)].
  intros Hok. destruct (verify_token_inv expected s Hok) as (Hl & y & Hy).
  destruct (verify_token_accepts expected s y Hl Hy) as (_ & Hr & Ho).
  split_and!; [done|by exists y| |done]. fold x in Hy. by rewrite Hy, drop_app_length.
Qed.

(** The end of the link does not end the connections: a connection that
    relays when the link is over, and is the only one of its id, stays
    registered until its target ends the stream or a write to it fails.  (The
    map of streams keeps its sender alive, so its writing side never ends.) *)
Theorem link_end_keeps_connections (s s' : Transport) (es : list Event) (k : nat) (id : Z) :
  held k id s -> Forall (fun e => ~ target_ends k e) es -> runs step s es = Some s' ->
  held k id s'.
Proof.
  intros Hh He. revert s Hh. induction He as [|e es Hn He IH]; intros s Hh; cbn [runs].
  - by intros [= <-].
  - intros (s1 & H1 & H2)%bind_Some. eapply IH; [|done]. by eapply held_step.
Qed.

Definition ended_state : Transport :=
  default (Transport_new None) (runs step (Transport_new None)
    [ERead (OpenTcp 7 "a" 80 None); EConnected 0; EResult 0; EReaderEnd]).
Definition later_state : Transport :=
  default (Transport_new None) (runs step ended_state [EInRead 0 [x01]; EInSend 0; EInRead 0 [x02]]).

Lemma link_end_keeps_connections_witness : held 0 7 later_state.
Proof.
  apply (link_end_keeps_connections ended_state later_state [EInRead 0 [x01]; EInSend 0; EInRead 0 [x02]]).
  - split; [by vm_compute|by vm_compute|eexists; by vm_compute|].
    intros [|j] c; [|done]. by intros [= <-].
  - repeat constructor; cbn; tauto.
  - vm_compute. reflexivity.
Defined.
