(* ===== verification/RouteDecision.v ===== *)
(** * Route decisions

    The pure decisions of [crates/ssh-proxy-route]: which transport a route
    uses ([decision.rs]), whether a failed preflight replaces it
    ([preflight.rs]), how large its pools are ([policy.rs]) and how a remote
    machine reaches the local one ([remote_use.rs]), with the enumerations and
    the fixed target of [crates/ssh-proxy-core/src/model.rs]. *)
From S2P Require Import Prelude RustStr IpAddr.

Import Strings.Ascii.

(** ** The model of the core crate *)

Inductive TransportMode := Auto | SshNative | QuicNative | Quic | TlsTcp | PlainTcp | Exec | Tcp.

#[global] Instance TransportMode_eq_dec : EqDecision TransportMode.
Proof. solve_decision. Defined.

Inductive WorkloadHint := Large | Concurrent | Mixed.

#[global] Instance WorkloadHint_eq_dec : EqDecision WorkloadHint.
Proof. solve_decision. Defined.

Record TcpTarget := { t_host : string; t_port : Z }.

(** [impl Display for TcpTarget]. *)
Definition display_target (t : TcpTarget) : string := t_host t +:+ ":" +:+ display_uint (t_port t).

Inductive TargetError := ExpectedBracketed | InvalidPort (text : string) | ExpectedHostPort | EmptyHost.

(** [impl FromStr for TcpTarget]. *)
Definition parse_target (value : string) : result TargetError TcpTarget :=
  match strip_prefix "[" value with
  | Some r =>
    match split_once "]:" r with
    | None => Err ExpectedBracketed
    | Some (host, tail) =>
      match parse_uint 16 tail with
      | None => Err (InvalidPort tail)
      | Some port => Ok {| t_host := host; t_port := port |}
      end
    end
  | None =>
    match rsplit_once ":" value with
    | None => Err ExpectedHostPort
    | Some (host, port) =>
      if decide (host = EmptyString) then Err EmptyHost
      else
        match parse_uint 16 port with
        | None => Err (InvalidPort port)
        | Some p => Ok {| t_host := host; t_port := p |}
        end
    end
  end.

(** [SocketAddr]'s text and [IpAddr::is_loopback]. *)
Definition addr_text (a : SocketAddr) : string :=
  match sa_ip a with
  | V4 _ => ip_text (sa_ip a) +:+ ":" +:+ display_uint (sa_port a)
  | V6 _ => "[" +:+ ip_text (sa_ip a) +:+ "]:" +:+ display_uint (sa_port a)
  end.

Definition is_loopback (ip : IpAddr) : bool :=
  match ip with
  | V4 (b :: _) => byte_val b =? 127
  | V4 [] => false
  | V6 o => bool_decide (o = replicate 15 x00 ++ [x01])
  end.

(** ** Transport selection *)

Definition remote_transport_name (t : TransportMode) : string :=
  match t with
  | Auto => "auto"
  | SshNative => "ssh-native"
  | QuicNative => "quic-native"
  | Quic => "quic"
  | TlsTcp => "tls-tcp"
  | PlainTcp => "plain-tcp"
  | Exec => "ssh-exec"
  | Tcp => "ssh-direct-tcpip"
  end.

(** The names [parse_transport_mode] knows, in lower case. *)
Definition transport_names : list (string * TransportMode) :=
  [("auto", Auto);
   ("quic-native", QuicNative); ("quic_native", QuicNative); ("native-quic", QuicNative);
   ("native_quic", QuicNative);
   ("ssh-native", SshNative); ("ssh_native", SshNative); ("native-ssh", SshNative);
   ("native_ssh", SshNative);
   ("quic", Quic);
   ("tls-tcp", TlsTcp); ("tls_tcp", TlsTcp); ("tls", TlsTcp);
   ("plain-tcp", PlainTcp); ("plain_tcp", PlainTcp); ("tcp-plain", PlainTcp);
   ("direct-tcp", PlainTcp); ("direct_tcp", PlainTcp);
   ("exec", Exec); ("tcp", Tcp)]%string.

(** The error carries the lower case text. *)
Inductive DecisionError := InvalidTransport (value : string).

Definition parse_transport_mode (value : string) : result DecisionError TransportMode :=
  let value := to_ascii_lowercase value in
  match list_find (fun p => p.1 = value) transport_names with
  | Some (_, (_, t)) => Ok t
  | None => Err (InvalidTransport value)
  end.

Record TransportSelection := { transport : TransportMode; source : string; reason : string }.

Record ConnectionDecision := {
  cd_selected_transport : string;
  cd_source : string;
  cd_reason : string;
  cd_endpoint : option string;
  cd_requires_external_ssh : bool;
}.

Definition from_transport (t : TransportMode) (source reason : string) : ConnectionDecision :=
  {| cd_selected_transport := remote_transport_name t; cd_source := source; cd_reason := reason;
     cd_endpoint := None;
     cd_requires_external_ssh := match t with Exec => true | _ => false end |}.

Definition with_endpoint (d : ConnectionDecision) (endpoint : string) : ConnectionDecision :=
  {| cd_selected_transport := cd_selected_transport d; cd_source := cd_source d;
     cd_reason := cd_reason d; cd_endpoint := Some endpoint;
     cd_requires_external_ssh := cd_requires_external_ssh d |}.

Record PeerReadinessInput := {
  has_remote_path : bool;
  has_control_endpoint : bool;
  has_transport : bool;
  has_tls_transport : bool;
  has_quic_transport : bool;
}.

Definition persistent_peer_ready (i : PeerReadinessInput) : bool :=
  has_remote_path i && has_control_endpoint i
  && (has_transport i || has_tls_transport i || has_quic_transport i).

(** [Option::or]. *)
Definition option_or {A} (a b : option A) : option A := match a with Some _ => a | None => b end.

Definition direct_endpoint_for_peer (transport tls_transport quic_transport : option SocketAddr) :
    option SocketAddr :=
  option_or (option_or tls_transport quic_transport) transport.

Record TransportSelectionPolicyInput := {
  requested_transport : TransportMode;
  profile_remote_transport : option string;
  defaults_remote_transport : option string;
  remote_quic : option SocketAddr;
  remote_tls : option SocketAddr;
  allow_plain_tcp : bool;
  cli_allow_plain_tcp : bool;
  profile_allow_plain_tcp : option bool;
  defaults_allow_plain_tcp : option bool;
  tcp_target_present : bool;
  remote_side_listens : bool;
  peer_ready : bool;
}.

Definition plain_tcp_auto_source (i : TransportSelectionPolicyInput) : option string :=
  if cli_allow_plain_tcp i then Some "cli"%string
  else if decide (profile_allow_plain_tcp i = Some true) then Some "profile"%string
  else if decide (defaults_allow_plain_tcp i = Some true) then Some "benchmark-tuned default"%string
  else None.

Definition plain_tcp_selection_reason (source : string) : string :=
  "plain TCP peer transport is enabled by " +:+ source
    +:+ "; use only for lab or private trusted links".

Definition plain_tcp_selection (src : string) : TransportSelection :=
  {| transport := PlainTcp; source := src; reason := plain_tcp_selection_reason src |}.

(** [transport_selection_policy], from its last part to the first: without
    any setting, ... *)
Definition select_fallback (i : TransportSelectionPolicyInput) : TransportSelection :=
  if allow_plain_tcp i then plain_tcp_selection (default "cli"%string (plain_tcp_auto_source i))
  else if peer_ready i then
    {| transport := Tcp; source := "peer-default";
       reason := "persistent remote peer is recorded; using SPX over Rust SSH direct-tcpip to the peer transport" |}
  else
    let workload : string :=
      if tcp_target_present i then "fixed --tcp-target route"
      else if remote_side_listens i then "remote-owned proxy route"
      else "SOCKS/HTTP proxy route" in
    {| transport := SshNative; source := "topology";
       reason := "no reachable direct peer transport is configured for this " +:+ workload
         +:+ "; using ssh-native direct-tcpip as the SSH-only simple egress default" |}.

(** ... the defaults of the configuration, ... *)
Definition select_by_defaults (i : TransportSelectionPolicyInput) :
    result DecisionError TransportSelection :=
  match defaults_remote_transport i with
  | None => Ok (select_fallback i)
  | Some value =>
    t ← parse_transport_mode value;
    match t with
    | Auto => Ok (select_fallback i)
    | PlainTcp =>
      if allow_plain_tcp i
      then Ok (plain_tcp_selection (default "benchmark-tuned default"%string (plain_tcp_auto_source i)))
      else Ok (select_fallback i)
    | _ =>
      Ok {| transport := t; source := "defaults";
            reason := "selected by [defaults].remote_transport" |}
    end
  end.

(** ... the endpoints of the peer, ... *)
Definition select_by_topology (i : TransportSelectionPolicyInput) :
    result DecisionError TransportSelection :=
  match remote_tls i, remote_quic i with
  | Some addr, _ =>
    Ok {| transport := TlsTcp; source := "topology";
          reason := "direct TLS/TCP peer endpoint " +:+ addr_text addr
            +:+ " is configured; TLS is the production direct default" |}
  | None, Some addr =>
    Ok {| transport := Quic; source := "topology";
          reason := "direct QUIC peer endpoint " +:+ addr_text addr
            +:+ " is configured; framed QUIC is selected while quic-native remains opt-in" |}
  | None, None => select_by_defaults i
  end.

(** ... the command line and the profile of the target. *)
Definition transport_selection_policy (i : TransportSelectionPolicyInput) :
    result DecisionError TransportSelection :=
  if decide (requested_transport i <> Auto) then
    Ok {| transport := requested_transport i; source := "cli";
          reason := "selected by --remote-transport " +:+ remote_transport_name (requested_transport i) |}
  else
    match profile_remote_transport i with
    | None => select_by_topology i
    | Some value =>
      t ← parse_transport_mode value;
      if decide (t = Auto) then select_by_topology i
      else Ok {| transport := t; source := "profile";
                 reason := "selected by target profile remote_transport" |}
    end.

(** ** Preflight and fallback *)

Record RouteProbeResult := {
  protocol : string;
  endpoint : option string;
  reachable : option bool;
  status : string;
  message : string;
}.

Definition is_direct_probe_protocol (p : string) : bool :=
  bool_decide (p = "quic"%string) || bool_decide (p = "tls-tcp"%string)
  || bool_decide (p = "plain-tcp"%string).

Definition direct_failed (r : RouteProbeResult) : bool :=
  is_direct_probe_protocol (protocol r) && bool_decide (reachable r = Some false).
Definition direct_reachable (r : RouteProbeResult) : bool :=
  is_direct_probe_protocol (protocol r) && bool_decide (reachable r = Some true).

(** The failures are reported as JSON objects of the results; here they are
    the results themselves. *)
Definition candidate_failures (results : list RouteProbeResult) : list RouteProbeResult :=
  filter (fun r => direct_failed r = true) results.

Record RoutePreflightDecision := {
  pd_timeout_ms : Z;
  pd_results : list RouteProbeResult;
  pd_candidate_failures : list RouteProbeResult;
  recommended_fallback : option string;
  selected_reason : string;
  repair_hint : string;
}.

Definition decide_route_preflight (timeout_ms : Z) (results : list RouteProbeResult) :
    RoutePreflightDecision :=
  let failures := candidate_failures results in
  let successes := filter (fun r => direct_reachable r = true) results in
  let fallback : option string :=
    if (0 <? len failures) && (len successes =? 0) then Some "ssh-native"%string else None in
  {| pd_timeout_ms := timeout_ms;
     pd_results := results;
     pd_candidate_failures := failures;
     recommended_fallback := fallback;
     selected_reason :=
       match fallback with
       | Some _ => "all probed direct peer transports failed; SSH fallback is recommended before starting the route"
       | None =>
         if 0 <? len successes
         then "at least one direct peer transport was reachable before route start"
         else "no failing direct peer transport was observed before route start"
       end;
     repair_hint :=
       match fallback with
       | Some _ => "use ssh-native fallback, or publish a peer endpoint reachable from this client"
       | None =>
         match failures with
         | [] => "none"
         | _ => "publish a reachable peer endpoint, adjust firewall/NAT, or switch to an SSH fallback transport"
         end
       end |}.

Record RouteFallbackDecision := {
  selected_transport : option TransportMode;
  selection_source : option string;
  selection_reason : option string;
  next_action : option string;
}.

Definition no_fallback : RouteFallbackDecision :=
  {| selected_transport := None; selection_source := None; selection_reason := None;
     next_action := None |}.

Definition applied (d : RouteFallbackDecision) : bool :=
  match selected_transport d with Some _ => true | None => false end.

Definition decide_route_fallback (recommended : option string) (current : TransportMode)
    (selection_source : option string) : RouteFallbackDecision :=
  match recommended with
  | None => no_fallback
  | Some recommended =>
    let may_override :=
      bool_decide (current = Auto)
      || bool_decide (selection_source = Some "topology"%string)
      || bool_decide (selection_source = Some "benchmark-tuned default"%string) in
    if negb may_override then no_fallback
    else if negb (bool_decide (recommended = "ssh-native"%string))
            && negb (bool_decide (recommended = "ssh-direct-tcpip"%string)) then no_fallback
    else
      {| selected_transport := Some SshNative;
         selection_source := Some "route-preflight"%string;
         selection_reason := Some "direct private transport preflight failed; selected SSH native direct-tcpip fallback"%string;
         next_action := Some "using ssh-native fallback; no user action required"%string |}
  end.

(** ** Descriptions of a transport; [None] is JSON's null *)

Definition direct_transport_policy (t : TransportMode) : option string :=
  match t with
  | TlsTcp => Some "production_direct"%string
  | PlainTcp => Some "lab_baseline"%string
  | Quic | QuicNative => Some "experimental"%string
  | _ => None
  end.

Definition direct_transport_policy_reason (t : TransportMode) : option string :=
  match t with
  | TlsTcp => Some "TLS/TCP SPX is the production direct baseline because it keeps the stable SPX data plane while adding peer encryption and certificate identity"%string
  | PlainTcp => Some "Plain TCP SPX is a lab or explicitly trusted baseline only; it is not selected as the production default because the data path is not encrypted"%string
  | Quic | QuicNative => Some "QUIC direct transport remains experimental until throughput and recovery behavior close the gap with TLS/TCP SPX"%string
  | _ => None
  end.

Definition tls_peer_auth_mode (t : TransportMode) (has_client_cert has_client_key : bool) :
    option string :=
  match t with
  | TlsTcp =>
    match has_client_cert, has_client_key with
    | true, true => Some "mutual_tls"%string
    | false, false => Some "server_auth"%string
    | _, _ => Some "invalid_client_auth_config"%string
    end
  | _ => None
  end.

Definition ssh_mode_name (t : TransportMode) : option string :=
  match t with
  | SshNative => Some "native-direct-tcpip"%string
  | Tcp => Some "spx-over-ssh-direct"%string
  | Exec => Some "ssh-exec-helper"%string
  | _ => None
  end.

Definition ssh_mode_reason (t : TransportMode) : option string :=
  match t with
  | SshNative => Some "ssh-native opens russh direct-tcpip channels to each requested target; use it for simple SSH-only local egress because it avoids remote daemon and SPX framed data-plane overhead"%string
  | Tcp => Some "spx-over-ssh-direct opens SSH direct-tcpip to the remote daemon transport and keeps SPX daemon semantics; use it when remote daemon policy, token auth, route restore, or SPX UDP behavior is required"%string
  | Exec => Some "ssh-exec-helper starts a temporary remote helper over SSH; keep it as a compatibility path when no persistent remote daemon transport is available"%string
  | _ => None
  end.

Definition ssh_data_plane_reason (t : TransportMode) (selection_source : option string) :
    option string :=
  if bool_decide (selection_source = Some "cli"%string)
     || bool_decide (selection_source = Some "profile"%string) then
    match t with
    | SshNative | Tcp | Exec => Some "explicit_user_choice"%string
    | _ => None
    end
  else
    match t with
    | SshNative => Some "simple_egress"%string
    | Tcp => Some "daemon_policy_required"%string
    | Exec => Some "ssh_exec_compatibility"%string
    | _ => None
    end.

(** ** Pool sizes *)

Record RoutePoolSizingInput := {
  has_tcp_target : bool;
  command_transport_pool_size : option Z;
  profile_transport_pool_size : option Z;
  default_transport_pool_size : option Z;
  command_ssh_session_pool_size : option Z;
  profile_ssh_session_pool_size : option Z;
  default_ssh_session_pool_size : option Z;
  command_workload_hint : option WorkloadHint;
  profile_workload_hint : option WorkloadHint;
  default_workload_hint : option WorkloadHint;
}.

Record RouteTransportPoolPolicy := {
  tp_size : Z;
  tp_source : string;
  tp_reason : string;
  tp_pool_policy : string;
  tp_workload_hint : WorkloadHint;
}.

Record RouteSshSessionPoolPolicy := {
  sp_size : Z;
  sp_source : string;
  sp_reason : string;
  sp_warning : option string;
}.

Definition pool_policy_name (h : WorkloadHint) : string :=
  match h with Large => "large" | Concurrent => "concurrent" | Mixed => "mixed" end.

Definition pool_reason (source : string) (requested effective : Z) : string :=
  if requested =? effective then "loaded from " +:+ source
  else "loaded from " +:+ source +:+ "; clamped to minimum 1".

Definition workload_hint_policy (i : RoutePoolSizingInput) : WorkloadHint :=
  default (if has_tcp_target i then Large else Concurrent)
    (option_or (option_or (command_workload_hint i) (profile_workload_hint i))
       (default_workload_hint i)).

Definition implicit_transport_pool_size (i : RoutePoolSizingInput) (h : WorkloadHint) : Z :=
  match h with
  | Large => 1
  | Concurrent | Mixed => if has_tcp_target i then 1 else 4
  end.

Definition implicit_transport_pool_reason (i : RoutePoolSizingInput) (h : WorkloadHint) : string :=
  match has_tcp_target i, h with
  | true, Large => "pool_policy=large: implicit single-worker default for fixed --tcp-target routes"
  | true, _ =>
    "pool_policy=" +:+ pool_policy_name h
      +:+ ": fixed --tcp-target routes stay at pool=1 unless --transport-pool-size is explicit"
  | false, Large => "pool_policy=large: single-worker default favors one large transfer"
  | false, Concurrent =>
    "pool_policy=concurrent: implicit pool=4 default for multi-flow SOCKS/HTTP proxy routes"
  | false, Mixed =>
    "pool_policy=mixed: implicit pool=4 default balances large and concurrent proxy traffic"
  end.

Definition plan_transport_pool (i : RoutePoolSizingInput) : RouteTransportPoolPolicy :=
  let explicit (value : Z) (source setting : string) :=
    let size := Z.max value 1 in
    {| tp_size := size; tp_source := source; tp_reason := pool_reason setting value size;
       tp_pool_policy := "explicit"; tp_workload_hint := workload_hint_policy i |} in
  match command_transport_pool_size i, profile_transport_pool_size i, default_transport_pool_size i with
  | Some value, _, _ => explicit value "command-line"%string "--transport-pool-size"%string
  | None, Some value, _ => explicit value "profile"%string "target profile transport_pool_size"%string
  | None, None, Some value => explicit value "defaults"%string "[defaults].transport_pool_size"%string
  | None, None, None =>
    let hint := workload_hint_policy i in
    {| tp_size := implicit_transport_pool_size i hint; tp_source := "implicit";
       tp_reason := implicit_transport_pool_reason i hint;
       tp_pool_policy := pool_policy_name hint; tp_workload_hint := hint |}
  end.

Definition ssh_session_pool_warning (size : Z) : option string :=
  if 2 <? size then
    Some "ssh-native session pools above 2 can lose to handshake and scheduling overhead; benchmark before relying on this explicit value"%string
  else None.

Definition implicit_ssh_session_pool_size (i : RoutePoolSizingInput) : Z :=
  if has_tcp_target i then 1 else 2.

Definition implicit_ssh_session_pool_reason (i : RoutePoolSizingInput) : string :=
  if has_tcp_target i
  then "implicit ssh-native single-session default for fixed --tcp-target routes"
  else "implicit ssh-native two-session default for multi-flow SOCKS/HTTP proxy routes".

Definition plan_ssh_session_pool (i : RoutePoolSizingInput) : RouteSshSessionPoolPolicy :=
  match command_ssh_session_pool_size i, profile_ssh_session_pool_size i, default_ssh_session_pool_size i with
  | Some value, _, _ =>
    let size := Z.max value 1 in
    {| sp_size := size; sp_source := "command-line";
       sp_reason := pool_reason "--ssh-session-pool-size" value size;
       sp_warning := ssh_session_pool_warning size |}
  | None, Some value, _ =>
    let size := Z.max value 1 in
    {| sp_size := size; sp_source := "profile";
       sp_reason := pool_reason "target profile ssh_session_pool_size" value size;
       sp_warning := ssh_session_pool_warning size |}
  | None, None, Some value =>
    let requested := Z.max value 1 in
    let size := Z.min requested 2 in
    {| sp_size := size; sp_source := "defaults";
       sp_reason :=
         if requested =? size then pool_reason "[defaults].ssh_session_pool_size" value size
         else "loaded from [defaults].ssh_session_pool_size=" +:+ display_uint value
           +:+ "; capped to pool=2 because only command-line/profile benchmark experiments may exceed the implicit-safe ssh-native range";
       sp_warning :=
         if size <? requested then
           Some "ssh-native defaults above 2 are not auto-selected; use --ssh-session-pool-size or a target profile for explicit benchmark experiments"%string
         else ssh_session_pool_warning size |}
  | None, None, None =>
    {| sp_size := implicit_ssh_session_pool_size i; sp_source := "implicit";
       sp_reason := implicit_ssh_session_pool_reason i; sp_warning := None |}
  end.

(** ** How the remote machine reaches this one *)

Inductive RemoteUseConnectMode := ModeAuto | ModeDirect | ModeReverseLink.
Inductive RemoteUsePlan := Direct (addr : SocketAddr) | ReverseLink.
Record RemoteUseDecision := { plan : RemoteUsePlan; fallback_reason : option string }.
Record RemoteUseInput := {
  connect_mode : RemoteUseConnectMode;
  local_peer : option SocketAddr;
  daemon_transport_listen : option SocketAddr;
}.

Definition resolve_remote_use_local_peer (i : RemoteUseInput) : result string SocketAddr :=
  match local_peer i with
  | Some addr => Ok addr
  | None =>
    match daemon_transport_listen i with
    | None => Err "--direction remote-uses-local needs --local-peer or [daemon].transport_listen; run `ssh_proxy daemon install --scope system --elevate` first"%string
    | Some addr =>
      if is_loopback (sa_ip addr) then
        Err ("local daemon transport " +:+ addr_text addr
             +:+ " is loopback-only; pass --local-peer <reachable-ip:port>, or use a public/TLS/QUIC relay route when this machine is behind NAT")
      else Ok addr
    end
  end.

Definition decide_remote_use (i : RemoteUseInput) : result string RemoteUseDecision :=
  match connect_mode i with
  | ModeReverseLink =>
    Ok {| plan := ReverseLink; fallback_reason := Some "--connect-mode reverse-link requested"%string |}
  | ModeDirect =>
    addr ← resolve_remote_use_local_peer i; Ok {| plan := Direct addr; fallback_reason := None |}
  | ModeAuto =>
    match resolve_remote_use_local_peer i with
    | Ok addr => Ok {| plan := Direct addr; fallback_reason := None |}
    | Err err => Ok {| plan := ReverseLink; fallback_reason := Some err |}
    end
  end.

(** ** Lemmas *)

(** Where a selection can come from. *)
Inductive selected_by (i : TransportSelectionPolicyInput) : TransportSelection -> Prop :=
| by_cli t r : requested_transport i = t -> t <> Auto ->
    selected_by i {| transport := t; source := "cli"; reason := r |}
| by_profile_setting v t r : requested_transport i = Auto ->
    profile_remote_transport i = Some v -> parse_transport_mode v = Ok t -> t <> Auto ->
    selected_by i {| transport := t; source := "profile"; reason := r |}
| by_endpoint t r : requested_transport i = Auto ->
    t = TlsTcp \/ t = Quic \/ t = SshNative ->
    selected_by i {| transport := t; source := "topology"; reason := r |}
| by_default_setting v t r : requested_transport i = Auto ->
    defaults_remote_transport i = Some v -> parse_transport_mode v = Ok t ->
    t <> Auto -> t <> PlainTcp ->
    selected_by i {| transport := t; source := "defaults"; reason := r |}
| by_allowance src r : requested_transport i = Auto -> allow_plain_tcp i = true ->
    selected_by i {| transport := PlainTcp; source := src; reason := r |}
| by_peer r : requested_transport i = Auto -> peer_ready i = true ->
    selected_by i {| transport := Tcp; source := "peer-default"; reason := r |}.

Definition consulted (i : TransportSelectionPolicyInput) (v : string) : Prop :=
  profile_remote_transport i = Some v \/ defaults_remote_transport i = Some v.

(** What a part of the policy may return. *)
Definition selection_ok (i : TransportSelectionPolicyInput) (r : result DecisionError TransportSelection) :
    Prop :=
  match r with
  | Ok sel => selected_by i sel
  | Err e => exists v, consulted i v /\ parse_transport_mode v = Err e
  end.

Lemma select_fallback_by i : requested_transport i = Auto -> selected_by i (select_fallback i).
Proof.
  intros Hr. unfold select_fallback. destruct (allow_plain_tcp i) eqn:Ha; [by apply by_allowance|].
  destruct (peer_ready i) eqn:Hp; [by apply by_peer|]. apply by_endpoint; auto.
Qed.

Lemma select_by_defaults_by i : requested_transport i = Auto -> selection_ok i (select_by_defaults i).
Proof.
  intros Hr. pose proof (select_fallback_by i Hr) as Hl. unfold select_by_defaults.
  destruct (defaults_remote_transport i) as [v|] eqn:Hd; [|done].
  destruct (parse_transport_mode v) as [t|e] eqn:Hv; [|exists v; split; [by right|done]].
  cbn. destruct t; try done; try (by eapply by_default_setting).
  destruct (allow_plain_tcp i) eqn:Ha; [by apply by_allowance|done].
Qed.

Lemma select_by_topology_by i : requested_transport i = Auto -> selection_ok i (select_by_topology i).
Proof.
  intros Hr. unfold select_by_topology. destruct (remote_tls i); [apply by_endpoint; auto|].
  destruct (remote_quic i); [apply by_endpoint; auto|]. by apply select_by_defaults_by.
Qed.

Lemma selection_by i : selection_ok i (transport_selection_policy i).
Proof.
  unfold transport_selection_policy. case_decide as Hreq; [by apply by_cli|].
  pose proof (select_by_topology_by i Hreq) as Ht.
  destruct (profile_remote_transport i) as [v|] eqn:Hp; [|done].
  destruct (parse_transport_mode v) as [t|e] eqn:Hv; [|exists v; split; [by left|done]].
  cbn. case_decide; [done|]. by eapply by_profile_setting.
Qed.

(** When the preflight recommends the fallback. *)
Definition all_direct_failed (results : list RouteProbeResult) : Prop :=
  (exists r, r ∈ results /\ direct_failed r = true)
  /\ Forall (fun r => direct_reachable r = false) results.

Lemma filter_nonempty {A} (P : A -> Prop) `{forall x, Decision (P x)} (l : list A) :
  0 < len (filter P l) <-> exists x, x ∈ l /\ P x.
Proof.
  split.
  - intros Hl. destruct (filter P l) as [|x l'] eqn:E; [cbn in Hl; lia|].
    assert (Hx : x ∈ filter P l) by (rewrite E; left). apply list_elem_of_filter in Hx as [? ?]. eauto.
  - intros (x & Hx & HP). assert (Hf : x ∈ filter P l) by (by apply list_elem_of_filter).
    destruct (filter P l); [by apply elem_of_nil in Hf|cbn; lia].
Qed.

Lemma preflight_recommends ms results :
  (recommended_fallback (decide_route_preflight ms results) = Some "ssh-native"%string
   /\ all_direct_failed results)
  \/ (recommended_fallback (decide_route_preflight ms results) = None /\ ~ all_direct_failed results).
Proof.
  unfold decide_route_preflight, candidate_failures, all_direct_failed. cbn [recommended_fallback].
  set (fs := filter _ results). set (ss := filter (fun r => direct_reachable r = true) results).
  assert (Hs : len ss = 0 <-> Forall (fun r => direct_reachable r = false) results).
  { rewrite Forall_forall. split.
    - intros H0 r Hr. apply not_true_is_false. intros Ht.
      assert (0 < len ss) by (apply filter_nonempty; eauto). lia.
    - intros Hall. destruct (decide (0 < len ss)) as [(r & Hr & Ht)%filter_nonempty|]; [|lia].
      rewrite Hall in Ht by done. done. }
  assert (Hf : 0 < len fs <-> exists r, r ∈ results /\ direct_failed r = true) by apply filter_nonempty.
  rewrite <-Hs, <-Hf.
  destruct (Z.ltb_spec 0 (len fs)), (Z.eqb_spec (len ss) 0); cbn; [left|right..]; (split; [done|lia]).
Qed.

(** The user's choice is what is selected. *)
Lemma chosen_source i sel :
  transport_selection_policy i = Ok sel ->
  requested_transport i <> Auto
  \/ (exists v t, profile_remote_transport i = Some v /\ parse_transport_mode v = Ok t /\ t <> Auto) ->
  transport sel <> Auto /\ (source sel = "cli"%string \/ source sel = "profile"%string).
Proof.
  unfold transport_selection_policy. intros Hs Hc. case_decide as Hr; [simplify_eq; by auto|].
  destruct Hc as [?|(v & t & Hp & Hv & Ht)]; [done|]. rewrite Hp, Hv in Hs. cbn in Hs.
  rewrite decide_False in Hs by done. simplify_eq. auto.
Qed.

Lemma parse_display_target host port :
  in_u 16 port -> host <> EmptyString -> strip_prefix "[" host = None ->
  parse_target (display_target {| t_host := host; t_port := port |})
  = Ok {| t_host := host; t_port := port |}.
Proof.
  intros Hp Hh Hb. unfold parse_target, display_target. cbn [t_host t_port].
  assert (strip_prefix "[" (host +:+ ":" +:+ display_uint port) = None) as ->.
  { destruct host as [|c host]; [done|].
    change (String c host +:+ ?x) with (String c (host +:+ x)). cbn [strip_prefix] in Hb |- *.
    by destruct (Ascii.eqb "[" c). }
  change (":" +:+ display_uint port) with (String ":" (display_uint port)).
  rewrite rsplit_once_append by (apply display_uint_all; [unfold in_u in Hp; lia|reflexivity]).
  rewrite decide_False by done. rewrite parse_uint_display; [done|]. unfold in_u, u_max in *. lia.
Qed.

(** ** Properties *)

(** C37. The selected transport is never left open, and it is unencrypted TCP
    only with consent: requested on the command line, set in the target's
    profile, or allowed by [allow_plain_tcp].  An error always is an unknown
    name in the profile or the defaults. *)
Theorem plain_tcp_needs_consent (i : TransportSelectionPolicyInput) :
  match transport_selection_policy i with
  | Ok sel =>
    transport sel <> Auto
    /\ (transport sel = PlainTcp ->
        requested_transport i = PlainTcp
        \/ (exists v, profile_remote_transport i = Some v /\ parse_transport_mode v = Ok PlainTcp)
        \/ allow_plain_tcp i = true)
  | Err e =>
    exists v, (profile_remote_transport i = Some v \/ defaults_remote_transport i = Some v)
              /\ parse_transport_mode v = Err e
  end.
Proof.
  pose proof (selection_by i) as Hs. destruct (transport_selection_policy i) as [sel|e]; [|done].
  destruct Hs; cbn; naive_solver.
Qed.

(** The preflight replaces a transport exactly when every direct probe
    that gave a result failed, there was one, and nobody chose the transport:
    it came from the topology or a tuned default.  Then SSH is used; a
    transport from the command line or the profile is never replaced. *)
Theorem fallback_respects_choice (i : TransportSelectionPolicyInput) (sel : TransportSelection)
    (timeout_ms : Z) (results : list RouteProbeResult) :
  transport_selection_policy i = Ok sel ->
  let d := decide_route_fallback (recommended_fallback (decide_route_preflight timeout_ms results))
             (transport sel) (Some (source sel)) in
  (selected_transport d = Some SshNative <->
     (exists r, r ∈ results /\ direct_failed r = true)
     /\ Forall (fun r => direct_reachable r = false) results
     /\ (source sel = "topology"%string \/ source sel = "benchmark-tuned default"%string))
  /\ (selected_transport d = None \/ selected_transport d = Some SshNative)
  /\ (requested_transport i <> Auto
      \/ (exists v t, profile_remote_transport i = Some v /\ parse_transport_mode v = Ok t /\ t <> Auto) ->
      selected_transport d = None).
Proof.
  intros Hsel d.
  assert (Hna : transport sel <> Auto).
  { pose proof (selection_by i) as Hs. rewrite Hsel in Hs. destruct Hs; cbn; naive_solver. }
  assert (Hd : selected_transport d = Some SshNative
               /\ all_direct_failed results
               /\ (source sel = "topology"%string \/ source sel = "benchmark-tuned default"%string)
               \/ selected_transport d = None
               /\ ~ (all_direct_failed results
                     /\ (source sel = "topology"%string \/ source sel = "benchmark-tuned default"%string))).
  { unfold d, decide_route_fallback.
    destruct (preflight_recommends timeout_ms results) as [[-> ?]|[-> ?]]; cbn; [|naive_solver].
    rewrite bool_decide_eq_false_2 by done. cbn [orb].
    case_bool_decide as E1; cbn [orb negb]; [left; simplify_eq; by auto|].
    case_bool_decide as E2; cbn [orb negb]; [left; simplify_eq; by auto|right].
    split; [done|]. intros [_ [E|E]]; congruence. }
  split_and!.
  - destruct Hd as [(E & [? ?] & ?)|(E & Hn)]; rewrite E; [done|].
    split; [done|]. intros (? & ? & ?). by destruct Hn.
  - destruct Hd as [[? _]|[? _]]; auto.
  - intros Hc. destruct (chosen_source i sel Hsel Hc) as [_ Hsrc].
    destruct Hd as [(_ & _ & Hso)|[? _]]; [|done]. exfalso.
    destruct Hsrc as [E|E]; rewrite E in Hso; by destruct Hso.
Qed.

(** A TLS endpoint that does not answer, and nothing chosen. *)
Definition tls_input : TransportSelectionPolicyInput :=
  {| requested_transport := Auto; profile_remote_transport := Some "AUTO"%string;
     defaults_remote_transport := None; remote_quic := None;
     remote_tls := Some {| sa_ip := V4 [x0a; x00; x00; x01]; sa_port := 19443 |};
     allow_plain_tcp := false; cli_allow_plain_tcp := false; profile_allow_plain_tcp := None;
     defaults_allow_plain_tcp := None; tcp_target_present := false; remote_side_listens := false;
     peer_ready := false |}.
Definition tls_selection : TransportSelection :=
  match transport_selection_policy tls_input with
  | Ok sel => sel
  | Err _ => {| transport := Auto; source := EmptyString; reason := EmptyString |}
  end.
Definition failed_tls : RouteProbeResult :=
  {| protocol := "tls-tcp"; endpoint := Some "10.0.0.1:19443"%string; reachable := Some false;
     status := "connect-failed"; message := "connection refused" |}.

Lemma fallback_respects_choice_witness :
  let d := decide_route_fallback (recommended_fallback (decide_route_preflight 750 [failed_tls]))
             (transport tls_selection) (Some (source tls_selection)) in
  transport tls_selection = TlsTcp /\
  ((selected_transport d = Some SshNative <->
     (exists r, r ∈ [failed_tls] /\ direct_failed r = true)
     /\ Forall (fun r => direct_reachable r = false) [failed_tls]
     /\ (source tls_selection = "topology"%string \/ source tls_selection = "benchmark-tuned default"%string))
  /\ (selected_transport d = None \/ selected_transport d = Some SshNative)
  /\ (requested_transport tls_input <> Auto
      \/ (exists v t, profile_remote_transport tls_input = Some v /\ parse_transport_mode v = Ok t /\ t <> Auto) ->
      selected_transport d = None)).
Proof.
  split; [vm_compute; reflexivity|].
  apply (fallback_respects_choice tls_input tls_selection 750 [failed_tls]). vm_compute. reflexivity.
Defined.

(** Pools have at least one connection; without an explicit size a route
    to a fixed target has one.  An SSH session pool is larger than 2 only when
    the command line or the target's profile says so, and then with a
    warning. *)
Theorem pool_sizes_safe (i : RoutePoolSizingInput) :
  let t := plan_transport_pool i in
  let p := plan_ssh_session_pool i in
  1 <= tp_size t
  /\ (tp_source t = "implicit"%string -> has_tcp_target i = true -> tp_size t = 1)
  /\ 1 <= sp_size p
  /\ (2 < sp_size p ->
      (sp_source p = "command-line"%string \/ sp_source p = "profile"%string) /\ is_Some (sp_warning p)).
Proof.
  intros t p. subst t p. unfold plan_transport_pool, plan_ssh_session_pool, implicit_transport_pool_size,
    implicit_ssh_session_pool_size, ssh_session_pool_warning.
  split_and!.
  - repeat case_match; cbn; lia.
  - repeat case_match; cbn; congruence.
  - repeat case_match; cbn; lia.
  - destruct (command_ssh_session_pool_size i) as [v|]; cbn.
    { intros ?. rewrite (proj2 (Z.ltb_lt _ _)) by lia. eauto. }
    destruct (profile_ssh_session_pool_size i) as [v|]; cbn.
    { intros ?. rewrite (proj2 (Z.ltb_lt _ _)) by lia. eauto. }
    destruct (default_ssh_session_pool_size i); cbn; [lia|]. case_match; lia.
Qed.

(** A fixed target that parses has a text that parses back to it, in every
    notation ([host:port] and [[ipv6]:port]), unless its host is empty or
    starts with a bracket. *)
Theorem target_round_trip (text : string) (t : TcpTarget) :
  parse_target text = Ok t -> t_host t <> EmptyString -> strip_prefix "[" (t_host t) = None ->
  in_u 16 (t_port t) /\ parse_target (display_target t) = Ok t.
Proof.
  intros Hp Hh Hb.
  assert (Hport : in_u 16 (t_port t)).
  { unfold parse_target in Hp. repeat case_match; simplify_eq; cbn; by eapply parse_uint_range. }
  split; [done|]. destruct t as [host port]. cbn in *. by apply parse_display_target.
Qed.

Lemma target_round_trip_witness :
  in_u 16 22 /\ parse_target (display_target {| t_host := "::1"; t_port := 22 |})
               = Ok {| t_host := "::1"; t_port := 22 |}.
Proof.
  apply (target_round_trip "[::1]:22" {| t_host := "::1"; t_port := 22 |}); vm_compute; congruence.
Defined.

(** The name a transport is reported by is a name the configuration takes,
    except for two: the reports say [ssh-exec] and [ssh-direct-tcpip], and a
    profile must say [exec] and [tcp]. *)
Theorem transport_names_parse_back (t : TransportMode) :
  parse_transport_mode (remote_transport_name t) = Ok t <-> t <> Exec /\ t <> Tcp.
Proof. destruct t; vm_compute; split; intuition congruence. Qed.
