(* ===== verification/Routes.v ===== *)
(** * The daemon's routes

    The conflict policy of [crates/ssh-proxy-route/src/conflict.rs], the
    registry of running routes with its store
    ([crates/ssh-proxy/src/node_daemon/routes.rs] and [routes/*.rs]), and the
    supervisor that restarts a route, with its statistics and readiness
    ([routes/supervisor.rs], [crates/ssh-proxy-route/src/status.rs]).

    Route specifications are compared as JSON values, which the registry only
    inspects through a few operations of [serde_json]; their text, the text
    of the store, the binding of ports, the clock and the defaults of the
    configuration are parameters. *)
From S2P Require Import Prelude RustStr IpAddr RouteDecision Mux.

(** ** Conflict policy *)

(** What the policy uses of [serde_json::Value]. *)
Class JsonValue (V : Type) := {
  #[global] json_eq_dec :: EqDecision V;
  (** [v.get(k).and_then(Value::as_str)] *)
  get_str : string -> V -> option string;
  (** [v.get_mut(k1).and_then(Value::as_object_mut)] and [remove(k2)] *)
  remove_in : string -> string -> V -> V;
}.

Section conflict.
Context {V : Type} `{JsonValue V}.

Record RouteConflictRoute := {
  r_id : string;
  r_direction : string;
  r_listen : option string;
  r_peer : option string;
  r_spec : V;
}.

Record RouteConflictInput := {
  i_id : option string;
  i_direction : string;
  i_listen : string;
  i_peer : option string;
  i_spec : V;
}.

Inductive RouteConflictDecision :=
| Available
| ReuseExisting (route_id : string)
| DifferentSpec (route_id : string)
| ListenerReserved (route_id : string).

Definition normalized_route_spec (v : V) : V :=
  match get_str "direction" v with
  | Some direction =>
    if eq_ignore_ascii_case direction "reverse" then remove_in "reverse" "identity" v else v
  | None => v
  end.

Definition route_specs_match_values (left right : V) : bool :=
  bool_decide (normalized_route_spec left = normalized_route_spec right).

Definition route_matches (route : RouteConflictRoute) (candidate : RouteConflictInput) : bool :=
  bool_decide (r_direction route = i_direction candidate)
  && bool_decide (r_listen route = Some (i_listen candidate))
  && match i_peer candidate with
     | Some peer => bool_decide (r_peer route = Some peer)
     | None => true
     end
  && route_specs_match_values (r_spec route) (i_spec candidate).

Definition route_reserves_listener (route : RouteConflictRoute) (candidate : RouteConflictInput) : bool :=
  bool_decide (r_direction route = i_direction candidate)
  && bool_decide (r_listen route = Some (i_listen candidate))
  && (bool_decide (i_direction candidate = "forward"%string)
      || match i_peer candidate with
         | Some peer => bool_decide (r_peer route = Some peer)
         | None => false
         end).

Definition decide_route_conflict (existing : list RouteConflictRoute) (candidate : RouteConflictInput) :
    RouteConflictDecision :=
  let by_listener :=
    match list_find (fun route => route_reserves_listener route candidate = true) existing with
    | Some (_, route) => ListenerReserved (r_id route)
    | None => Available
    end in
  match i_id candidate with
  | Some id =>
    match list_find (fun route => r_id route = id) existing with
    | Some (_, route) =>
      if route_matches route candidate then ReuseExisting (r_id route) else DifferentSpec (r_id route)
    | None => by_listener
    end
  | None => by_listener
  end.
End conflict.
Arguments RouteConflictRoute : clear implicits.
Arguments RouteConflictInput : clear implicits.

(** ** Routes *)

Section registry.
(** [Opts]: the options of a route the registry only passes on; [V]: JSON
    values; [Text]: the text of the store. *)
Context {Opts V Text : Type} `{JsonValue V}.

Record ProxyArgs := {
  px_listen : SocketAddr;
  px_target : string;
  px_remote_transport : TransportMode;
  px_options : Opts;
}.

Record ReverseTaskArgs := {
  rv_remote_listen : SocketAddr;
  rv_target : string;
  rv_options : Opts;
}.

Inductive RouteSpec := Forward (proxy : ProxyArgs) | Reverse (reverse : ReverseTaskArgs).

Definition spec_direction (s : RouteSpec) : string :=
  match s with Forward _ => "forward" | Reverse _ => "reverse" end.
Definition spec_detail (s : RouteSpec) : string :=
  match s with
  | Forward proxy => addr_text (px_listen proxy) +:+ " -> " +:+ px_target proxy
  | Reverse reverse => addr_text (rv_remote_listen reverse) +:+ " <- " +:+ rv_target reverse
  end.
Definition spec_listen (s : RouteSpec) : SocketAddr :=
  match s with Forward proxy => px_listen proxy | Reverse reverse => rv_remote_listen reverse end.
Definition spec_peer (s : RouteSpec) : string :=
  match s with Forward proxy => px_target proxy | Reverse reverse => rv_target reverse end.
Definition execution_backend (s : RouteSpec) : string :=
  match s with
  | Forward proxy =>
    match px_remote_transport proxy with
    | Auto => "auto"
    | SshNative => "ssh_native"
    | QuicNative => "quic_native"
    | Quic => "quic"
    | TlsTcp => "tls_tcp"
    | PlainTcp => "plain_tcp"
    | Exec => "ssh_exec"
    | Tcp => "ssh_tcp"
    end
  | Reverse _ => "ssh_reverse_link"
  end.

(** Which state the link of a route keeps; reverse routes keep none. *)
Inductive RouteLinkState := LinkSpx | LinkQuicNative | LinkSshNative.
Definition link_state_of (s : RouteSpec) : option RouteLinkState :=
  match s with
  | Forward proxy =>
    match px_remote_transport proxy with
    | SshNative => Some LinkSshNative
    | QuicNative => Some LinkQuicNative
    | _ => Some LinkSpx
    end
  | Reverse _ => None
  end.

(** A task; [finished] is [handle.is_finished()]. *)
Record RouteTask := MkTask {
  task_spec : RouteSpec;
  task_direction : string;
  task_detail : string;
  task_listen : option SocketAddr;
  task_peer : option string;
  task_persist : bool;
  task_created_at_unix : Z;
  task_fallback_reason : option string;
  task_link_state : option RouteLinkState;
  finished : bool;
}.

Record StoredRoute := {
  st_id : string;
  st_created_at_unix : Z;
  st_fallback_reason : option string;
  st_spec : RouteSpec;
}.
Record RouteStore := { st_version : Z; st_routes : list StoredRoute }.

Inductive RouteStartOutcome := Started | ReusedExisting (persist upgraded_persist : bool).

Definition reused_existing (o : RouteStartOutcome) : bool :=
  match o with ReusedExisting _ _ => true | Started => false end.
Definition outcome_persist (o : RouteStartOutcome) (requested : bool) : bool :=
  match o with Started => requested | ReusedExisting persist _ => persist end.
Definition should_save_route_store (o : RouteStartOutcome) (requested : bool) : bool :=
  match o with Started => requested | ReusedExisting _ upgraded_persist => upgraded_persist end.

Inductive RouteError :=
| MissingId | MissingDirection | MissingProxy | MissingReverse
| UnknownDirection (direction : string)
| DefaultsError (message : string)
| RunningDifferentSpec (id : string)
| OwnsListener (route_id : string)
| PortUnavailable (listen : SocketAddr)
| SpecNotSerializable
| NotRunning (id : string)
| StoreNotWritten.

(** The manager's state: the running routes and the file of the store. *)
Record Node := MkNode { routes : gmap string RouteTask; route_store : option Text }.
End registry.
Arguments ProxyArgs : clear implicits.
Arguments ReverseTaskArgs : clear implicits.
Arguments RouteSpec : clear implicits.
Arguments RouteTask : clear implicits.
Arguments StoredRoute : clear implicits.
Arguments RouteStore : clear implicits.
Arguments Node : clear implicits.

(** ** The manager *)

Section manager.
Context {Opts V Text : Type} `{JsonValue V}.

Abbreviation ProxyArgs := (ProxyArgs Opts).
Abbreviation RouteSpec := (RouteSpec Opts).
Abbreviation RouteTask := (RouteTask Opts).
Abbreviation RouteStore := (RouteStore Opts).
Abbreviation Node := (Node Opts Text).

(** What the manager uses of [serde_json]'s texts and values. *)
Class RouteFormat := {
  to_value : RouteSpec -> option V;
  to_string_pretty : RouteStore -> option Text;
  from_str : Text -> option RouteStore;
}.
Context `{RouteFormat}.

(** The outside during a call: whether an address can be bound, the store
    written, the clock, and [config::apply_proxy_defaults]. *)
Record Env := {
  bind_ok : SocketAddr -> bool;
  write_ok : bool;
  now_unix : Z;
  apply_proxy_defaults : ProxyArgs -> result string ProxyArgs;
}.

Definition route_conflict_route (id : string) (task : RouteTask) : option (RouteConflictRoute V) :=
  v ← to_value (task_spec task);
  Some {| r_id := id; r_direction := task_direction task; r_listen := addr_text <$> task_listen task;
          r_peer := task_peer task; r_spec := v |}.

Definition route_conflict_routes (rs : gmap string RouteTask) : option (list (RouteConflictRoute V)) :=
  mapM (fun '(id, task) => route_conflict_route id task) (map_to_list rs).

Definition route_conflict_input (id : option string) (direction : string) (listen : SocketAddr)
    (peer : option string) (spec : RouteSpec) : option (RouteConflictInput V) :=
  v ← to_value spec;
  Some {| i_id := id; i_direction := direction; i_listen := addr_text listen; i_peer := peer; i_spec := v |}.

Definition route_task_matches (task : RouteTask) (direction : string) (listen : SocketAddr)
    (peer : option string) (spec : RouteSpec) : bool :=
  match route_conflict_route "_candidate" task, route_conflict_input None direction listen peer spec with
  | Some route, Some candidate => route_matches route candidate
  | _, _ => false
  end.

Definition ensure_new_route_can_start (bind_ok : SocketAddr -> bool) (rs : gmap string RouteTask)
    (direction : string) (listen : SocketAddr) (peer : option string) (spec : RouteSpec) :
    result RouteError unit :=
  match route_conflict_input None direction listen peer spec, route_conflict_routes rs with
  | Some candidate, Some existing =>
    match decide_route_conflict existing candidate with
    | ListenerReserved route_id => Err (OwnsListener route_id)
    | Available | ReuseExisting _ | DifferentSpec _ =>
      match spec with
      | Forward _ => if bind_ok listen then Ok tt else Err (PortUnavailable listen)
      | Reverse _ => Ok tt
      end
    end
  | _, _ => Err SpecNotSerializable
  end.

(** [routes.retain(|_, task| !task.handle.is_finished())]. *)
Definition retain_running (rs : gmap string RouteTask) : gmap string RouteTask :=
  filter (fun p => finished p.2 = false) rs.

Definition set_persist (t : RouteTask) : RouteTask :=
  MkTask (task_spec t) (task_direction t) (task_detail t) (task_listen t) (task_peer t) true
    (task_created_at_unix t) (task_fallback_reason t) (task_link_state t) (finished t).

(** The two sections of [start_route_spec] that hold the lock begin the same
    way: reuse the task of the id, or see whether a new one can start. *)
Definition start_section (bind_ok : SocketAddr -> bool) (id : string) (spec : RouteSpec)
    (persist : bool) (rs : gmap string RouteTask) :
    result RouteError (option RouteStartOutcome) * gmap string RouteTask :=
  let rs := retain_running rs in
  match rs !! id with
  | Some task =>
    if route_task_matches task (spec_direction spec) (spec_listen spec) (Some (spec_peer spec)) spec then
      let upgraded_persist := persist && negb (task_persist task) in
      (Ok (Some (ReusedExisting (task_persist task || upgraded_persist) upgraded_persist)),
       if upgraded_persist then <[id := set_persist task]> rs else rs)
    else (Err (RunningDifferentSpec id), rs)
  | None =>
    match ensure_new_route_can_start bind_ok rs (spec_direction spec) (spec_listen spec)
            (Some (spec_peer spec)) spec with
    | Ok _ => (Ok None, rs)
    | Err e => (Err e, rs)
    end
  end.

Definition new_task (spec : RouteSpec) (persist : bool) (created_at_unix : Z)
    (fallback_reason : option string) : RouteTask :=
  MkTask spec (spec_direction spec) (spec_detail spec) (Some (spec_listen spec)) (Some (spec_peer spec))
    persist created_at_unix fallback_reason (link_state_of spec) false.

(** The second section: start the supervisor and register the task. *)
Definition commit_section (bind_ok : SocketAddr -> bool) (id : string) (spec : RouteSpec)
    (persist : bool) (created_at_unix : Z) (fallback_reason : option string)
    (rs : gmap string RouteTask) : result RouteError RouteStartOutcome * gmap string RouteTask :=
  match start_section bind_ok id spec persist rs with
  | (Ok (Some outcome), rs) => (Ok outcome, rs)
  | (Ok None, rs) => (Ok Started, <[id := new_task spec persist created_at_unix fallback_reason]> rs)
  | (Err e, rs) => (Err e, rs)
  end.

Definition locked {A} (f : gmap string RouteTask -> result RouteError A * gmap string RouteTask) :
    sr Node RouteError A := fun n =>
  let '(r, rs) := f (routes n) in (r, MkNode rs (route_store n)).

Definition start_route_spec (env : Env) (id : string) (spec : RouteSpec) (persist : bool)
    (created_at_unix : Z) (fallback_reason : option string) : sr Node RouteError RouteStartOutcome :=
  o ← locked (start_section (bind_ok env) id spec persist);
  match o with
  | Some outcome => mret outcome
  | None => locked (commit_section (bind_ok env) id spec persist created_at_unix fallback_reason)
  end.

(** ** The store *)

Definition stored_route (p : string * RouteTask) : StoredRoute Opts :=
  {| st_id := p.1; st_created_at_unix := task_created_at_unix p.2;
     st_fallback_reason := task_fallback_reason p.2; st_spec := task_spec p.2 |}.

(** What [save_routes] takes under the lock. *)
Definition snapshot (rs : gmap string RouteTask) : RouteStore :=
  {| st_version := 1; st_routes := stored_route <$> filter (fun p => task_persist p.2 = true) (map_to_list rs) |}.

Definition save_routes (env : Env) : sr Node RouteError unit := fun n =>
  match to_string_pretty (snapshot (routes n)) with
  | Some text => if write_ok env then (Ok tt, MkNode (routes n) (Some text)) else (Err StoreNotWritten, n)
  | None => (Err StoreNotWritten, n)
  end.

(** A route that does not start is only logged. *)
Definition restore_one (env : Env) (n : Node) (r : StoredRoute Opts) : Node :=
  (start_route_spec env (st_id r) (st_spec r) true (st_created_at_unix r) (st_fallback_reason r) n).2.

Definition restore_routes (env : Env) (n : Node) : Node :=
  match t ← route_store n; from_str t with
  | Some store => foldl (restore_one env) n (st_routes store)
  | None => n
  end.

(** ** Requests *)

Record NodeRequest := {
  q_id : option string;
  q_direction : option string;
  q_proxy : option ProxyArgs;
  q_reverse : option (ReverseTaskArgs Opts);
  q_persist : option bool;
  q_fallback_reason : option string;
}.

Definition or_error {A} (o : option A) (e : RouteError) : sr Node RouteError A :=
  match o with Some v => mret v | None => sr_fail e end.

Definition request_spec (env : Env) (direction : string) (q : NodeRequest) : sr Node RouteError RouteSpec :=
  if decide (direction = "forward"%string) then
    args ← or_error (q_proxy q) MissingProxy;
    match apply_proxy_defaults env args with
    | Ok args => mret (Forward args)
    | Err e => sr_fail (DefaultsError e)
    end
  else if decide (direction = "reverse"%string) then
    args ← or_error (q_reverse q) MissingReverse; mret (Reverse args)
  else sr_fail (UnknownDirection direction).

(** The response is its outcome and the persistence it reports. *)
Definition start_route (env : Env) (q : NodeRequest) : sr Node RouteError (RouteStartOutcome * bool) :=
  id ← or_error (q_id q) MissingId;
  direction ← or_error (q_direction q) MissingDirection;
  spec ← request_spec env direction q;
  let persist := default true (q_persist q) in
  outcome ← start_route_spec env id spec persist (now_unix env) (q_fallback_reason q);
  _ ← (if should_save_route_store outcome persist then save_routes env else mret tt);
  mret (outcome, outcome_persist outcome persist).

Definition take_task (id : string) : sr Node RouteError RouteTask := fun n =>
  match routes n !! id with
  | Some task => (Ok task, MkNode (delete id (routes n)) (route_store n))
  | None => (Err (NotRunning id), n)
  end.

(** The response's [removed_persistent]. *)
Definition stop_route (env : Env) (q : NodeRequest) : sr Node RouteError bool :=
  id ← or_error (q_id q) MissingId;
  task ← take_task id;
  _ ← (if task_persist task then save_routes env else mret tt);
  mret (task_persist task).

(** The response's [persist]. *)
Definition restart_route (env : Env) (q : NodeRequest) : sr Node RouteError bool :=
  id ← or_error (q_id q) MissingId;
  task ← take_task id;
  _ ← start_route_spec env id (task_spec task) (task_persist task) (task_created_at_unix task)
        (task_fallback_reason task);
  _ ← (if task_persist task then save_routes env else mret tt);
  mret (task_persist task).
End manager.
Arguments Env : clear implicits.
Arguments NodeRequest : clear implicits.

(** ** Concurrent requests *)

Section concurrent.
Context {Opts V Text : Type} `{JsonValue V} `{!@RouteFormat Opts V Text}.

Abbreviation Tasks := (gmap string (RouteTask Opts)).

(** Requests run concurrently; what is atomic is what they do under the lock
    of the routes, and the writing of the store.  [saving] holds the
    snapshots of the requests that are about to write the store. *)
Record Shared := MkShared {
  sh_routes : Tasks;
  sh_saving : gmap nat (RouteStore Opts);
  sh_store : option (RouteStore Opts);
}.

Definition Shared_new : Shared := MkShared ∅ ∅ None.

Inductive RouteEvent :=
| ECheck (bind : SocketAddr -> bool) (id : string) (spec : RouteSpec Opts) (persist : bool)
| ECommit (bind : SocketAddr -> bool) (id : string) (spec : RouteSpec Opts) (persist : bool)
    (created_at_unix : Z) (fallback_reason : option string)
| ERemove (id : string)                    (* [stop_route], [restart_route] *)
| EFinished (id : string)                  (* the task ends *)
| ESnapshot (request : nat)
| EWriteStore (request : nat).

Definition set_finished (t : RouteTask Opts) : RouteTask Opts :=
  MkTask (task_spec t) (task_direction t) (task_detail t) (task_listen t) (task_peer t) (task_persist t)
    (task_created_at_unix t) (task_fallback_reason t) (task_link_state t) true.

Definition route_step (s : Shared) (e : RouteEvent) : option Shared :=
  match e with
  | ECheck bind id spec persist =>
    Some (MkShared (start_section (Text := Text) bind id spec persist (sh_routes s)).2 (sh_saving s) (sh_store s))
  | ECommit bind id spec persist created_at_unix fallback_reason =>
    Some (MkShared (commit_section (Text := Text) bind id spec persist created_at_unix fallback_reason (sh_routes s)).2
            (sh_saving s) (sh_store s))
  | ERemove id => Some (MkShared (delete id (sh_routes s)) (sh_saving s) (sh_store s))
  | EFinished id => Some (MkShared (alter set_finished id (sh_routes s)) (sh_saving s) (sh_store s))
  | ESnapshot r => Some (MkShared (sh_routes s) (<[r := snapshot (sh_routes s)]> (sh_saving s)) (sh_store s))
  | EWriteStore r =>
    store ← sh_saving s !! r; Some (MkShared (sh_routes s) (delete r (sh_saving s)) (Some store))
  end.

(** ** Listeners are not shared *)

(** Two routes that would listen on the same address (of the same text): both
    local, or both on the same peer. *)
Definition conflicting (t1 t2 : RouteTask Opts) : Prop :=
  task_direction t1 = task_direction t2
  /\ addr_text <$> task_listen t1 = addr_text <$> task_listen t2
  /\ (task_direction t1 = "forward"%string \/ task_peer t1 = task_peer t2).

(** A task's columns are those of its specification. *)
Definition task_ok (t : RouteTask Opts) : Prop :=
  task_direction t = spec_direction (task_spec t) /\ task_listen t = Some (spec_listen (task_spec t))
  /\ task_peer t = Some (spec_peer (task_spec t)) /\ task_detail t = spec_detail (task_spec t)
  /\ task_link_state t = link_state_of (task_spec t).

Record routes_ok (rs : Tasks) : Prop := {
  ok_tasks : map_Forall (fun _ t => task_ok t) rs;
  ok_apart : forall id1 id2 t1 t2, rs !! id1 = Some t1 -> rs !! id2 = Some t2 -> id1 <> id2 ->
    ~ conflicting t1 t2;
}.

Lemma routes_ok_subseteq (rs rs' : Tasks) : rs' ⊆ rs -> routes_ok rs -> routes_ok rs'.
Proof.
  intros Hs [Ht Ha]. split.
  - intros id t Hid. eapply Ht, lookup_weaken; done.
  - intros id1 id2 t1 t2 H1 H2. apply Ha; by eapply lookup_weaken.
Qed.

(** Changing what neither the specification nor the columns show. *)
Lemma routes_ok_insert id t t' (rs : Tasks) :
  rs !! id = Some t -> task_spec t' = task_spec t -> task_direction t' = task_direction t ->
  task_listen t' = task_listen t -> task_peer t' = task_peer t -> task_detail t' = task_detail t ->
  task_link_state t' = task_link_state t -> routes_ok rs -> routes_ok (<[id := t']> rs).
Proof.
  intros Hid E1 E2 E3 E4 E5 E6 [Ht Ha]. split.
  - apply map_Forall_insert_2; [|done]. unfold task_ok. rewrite E1, E2, E3, E4, E5, E6. by apply (Ht id).
  - intros i1 i2 t1 t2 H1 H2 Hne.
    assert (Hold : forall i u, <[id := t']> rs !! i = Some u -> exists v, rs !! i = Some v
              /\ task_direction u = task_direction v /\ task_listen u = task_listen v /\ task_peer u = task_peer v).
    { intros i u [[<- <-]|[? ?]]%lookup_insert_Some; eauto. }
    apply Hold in H1 as (v1 & H1 & D1 & L1 & P1). apply Hold in H2 as (v2 & H2 & D2 & L2 & P2).
    unfold conflicting. rewrite D1, D2, L1, L2, P1, P2. by apply (Ha i1 i2).
Qed.

Lemma conflict_routes_elem (rs : Tasks) l id t :
  route_conflict_routes (Text := Text) rs = Some l -> rs !! id = Some t ->
  exists r, r ∈ l /\ route_conflict_route (Text := Text) id t = Some r.
Proof.
  intros Hl Hid. apply mapM_Some_1 in Hl. apply elem_of_map_to_list in Hid.
  apply list_elem_of_lookup in Hid as (k & Hk).
  destruct (Forall2_lookup_l _ _ _ _ _ Hl Hk) as (r & Hr & Hrr). cbn in Hrr.
  exists r. split; [|done]. by eapply list_elem_of_lookup_2.
Qed.

(** A route that may start conflicts with none. *)
Lemma can_start_apart bind (rs : Tasks) spec persist created fb id t :
  ensure_new_route_can_start (Text := Text) bind rs (spec_direction spec) (spec_listen spec)
    (Some (spec_peer spec)) spec = Ok tt ->
  rs !! id = Some t -> ~ conflicting (new_task spec persist created fb) t.
Proof.
  unfold ensure_new_route_can_start. intros Hok Hid (Hd & Hl & Hp). cbn in Hd, Hl, Hp.
  destruct (route_conflict_input None _ _ _ spec) as [c|] eqn:Hc; [|done].
  destruct (route_conflict_routes rs) as [l|] eqn:Hrs; [|done].
  apply bind_Some in Hc as (v & _ & [= <-]).
  destruct (conflict_routes_elem rs l id t Hrs Hid) as (r & Hr & Hrr).
  apply bind_Some in Hrr as (w & _ & [= <-]).
  unfold decide_route_conflict in Hok. cbn [i_id] in Hok.
  destruct (list_find _ l) as [[]|] eqn:Hf; [done|].
  apply list_find_None in Hf. rewrite Forall_forall in Hf. apply (Hf _ Hr).
  unfold route_reserves_listener. cbn. rewrite <-Hd, <-Hl.
  rewrite !bool_decide_eq_true_2 by done. cbn.
  destruct Hp as [->| <-]; [by rewrite bool_decide_eq_true_2|].
  rewrite (bool_decide_eq_true_2 (Some (spec_peer spec) = Some (spec_peer spec))) by done. apply orb_true_r.
Qed.

Lemma retain_subseteq (rs : Tasks) : retain_running rs ⊆ rs.
Proof. apply map_filter_subseteq. Qed.

Lemma start_section_routes bind id spec persist (rs : Tasks) :
  routes_ok rs ->
  routes_ok (start_section (Text := Text) bind id spec persist rs).2
  /\ ((start_section (Text := Text) bind id spec persist rs).1 = Ok None ->
      forall created fb, routes_ok (<[id := new_task spec persist created fb]>
                                     (start_section (Text := Text) bind id spec persist rs).2)).
Proof.
  intros Hok. pose proof (routes_ok_subseteq _ _ (retain_subseteq rs) Hok) as Hr.
  unfold start_section. set (rs' := retain_running rs) in *.
  destruct (rs' !! id) as [t|] eqn:Hid.
  - case_match; [|by split]. cbn. split; [|done]. case_match; [|done]. by eapply routes_ok_insert.
  - destruct (ensure_new_route_can_start _ rs' _ _ _ spec) as [[]|] eqn:He; [|by split].
    cbn. split; [done|]. intros _ created fb. split.
    + apply map_Forall_insert_2; [done|apply (ok_tasks _ Hr)].
    + intros i1 i2 t1 t2 [[<- <-]|[? L1]]%lookup_insert_Some [[<- <-]|[? L2]]%lookup_insert_Some Hne; [done|..].
      * by eapply can_start_apart.
      * intros (D & L & P). eapply (can_start_apart _ _ spec persist created fb); [done|exact L1|].
        unfold conflicting in *. rewrite <-D. naive_solver.
      * by apply (ok_apart _ Hr i1 i2).
Qed.

Lemma commit_section_routes bind id spec persist created fb (rs : Tasks) :
  routes_ok rs -> routes_ok (commit_section (Text := Text) bind id spec persist created fb rs).2.
Proof.
  intros Hok. destruct (start_section_routes bind id spec persist rs Hok) as [Hs Hn].
  unfold commit_section. destruct (start_section bind id spec persist rs) as [[[o|]|e] rs']; cbn in *; auto.
Qed.

Lemma routes_ok_step s e s' : routes_ok (sh_routes s) -> route_step s e = Some s' -> routes_ok (sh_routes s').
Proof.
  intros Hok Hs. destruct e; cbn [route_step] in Hs; simplify_eq; cbn; try done.
  - by apply start_section_routes.
  - by apply commit_section_routes.
  - eapply routes_ok_subseteq; [apply delete_subseteq|done].
  - destruct (sh_routes s !! id) as [t|] eqn:Hid.
    + rewrite <-(insert_id (sh_routes s) id t) by done. rewrite alter_insert_eq. by eapply routes_ok_insert.
    + eapply routes_ok_subseteq; [|exact Hok]. apply map_subseteq_spec. intros i u.
      destruct (decide (id = i)) as [->|]; [by rewrite lookup_alter_eq, Hid|by rewrite lookup_alter_ne].
  - apply bind_Some in Hs as (store & _ & [= <-]). done.
Qed.

(** ** Starting again *)

Lemma route_task_matches_refl (t : RouteTask Opts) spec :
  is_Some (to_value (Text := Text) spec) -> task_spec t = spec -> task_ok t ->
  route_task_matches (Text := Text) t (spec_direction spec) (spec_listen spec) (Some (spec_peer spec)) spec = true.
Proof.
  intros [v Hv] <- (Hd & Hl & Hp & _). unfold route_task_matches, route_conflict_route, route_conflict_input.
  rewrite Hv. cbn. unfold route_matches, route_specs_match_values. cbn.
  rewrite Hd, Hl, Hp. by rewrite !bool_decide_eq_true_2.
Qed.

Lemma retain_lookup (rs : Tasks) id t : retain_running rs !! id = Some t <-> rs !! id = Some t /\ finished t = false.
Proof. unfold retain_running. by rewrite map_lookup_filter_Some. Qed.

Lemma retain_id (rs : Tasks) : map_Forall (fun _ t => finished t = false) rs -> retain_running rs = rs.
Proof. intros Hf. by apply map_filter_id. Qed.

(** A started route: running, matching, and alone with its id. *)
Definition started (n : Node Opts Text) (id : string) (spec : RouteSpec Opts) (persist : bool) : Prop :=
  map_Forall (fun _ t => finished t = false) (routes n)
  /\ exists t, routes n !! id = Some t /\ (persist = true -> task_persist t = true)
     /\ route_task_matches (Text := Text) t (spec_direction spec) (spec_listen spec) (Some (spec_peer spec)) spec = true.

Lemma start_section_reuse bind id spec persist (n : Node Opts Text) :
  started n id spec persist ->
  exists p, locked (start_section (Text := Text) bind id spec persist) n = (Ok (Some (ReusedExisting p false)), n).
Proof.
  intros (Hf & t & Ht & Hp & Hm). unfold locked, start_section. rewrite retain_id by done. rewrite Ht, Hm.
  replace (persist && negb (task_persist t)) with false by (destruct persist; [by rewrite Hp|done]).
  eexists. by destruct n.
Qed.

Lemma start_section_started bind id spec persist (n n' : Node Opts Text) o :
  locked (start_section (Text := Text) bind id spec persist) n = (Ok (Some o), n') -> started n' id spec persist.
Proof.
  unfold locked, start_section.
  assert (Hr : map_Forall (fun _ t => finished t = false) (retain_running (routes n))).
  { intros i t Hi. by apply retain_lookup in Hi as [_ ?]. }
  set (rs := retain_running (routes n)) in *.
  destruct (rs !! id) as [t|] eqn:Hid; [|by destruct (ensure_new_route_can_start _ _ _ _ _ _)].
  destruct (route_task_matches _ _ _ _ _) eqn:Hm; [|done]. intros [= _ <-]. cbn.
  destruct (persist && negb (task_persist t)) eqn:Hu.
  - split; cbn; [apply map_Forall_insert_2; [exact (Hr id t Hid)|done]|].
    exists (set_persist t). by rewrite lookup_insert_eq.
  - split; [done|]. exists t. split_and!; [done| |done]. intros ->. by destruct (task_persist t).
Qed.

Lemma commit_section_started bind id spec persist created fb (n n' : Node Opts Text) o :
  locked (commit_section (Text := Text) bind id spec persist created fb) n = (Ok o, n') -> started n' id spec persist.
Proof.
  unfold locked, commit_section. intros Hc.
  destruct (start_section bind id spec persist (routes n)) as [[[o'|]|e] rs'] eqn:Hs; simplify_eq.
  - eapply (start_section_started bind id spec persist n). unfold locked. by rewrite Hs.
  - unfold start_section in Hs.
    assert (Hr : map_Forall (fun _ t => finished t = false) (retain_running (routes n))).
    { intros i t Hi. by apply retain_lookup in Hi as [_ ?]. }
    set (rs := retain_running (routes n)) in *.
    destruct (rs !! id) eqn:Hid; [by case_match|].
    destruct (ensure_new_route_can_start _ _ _ _ _ _) eqn:He; simplify_eq.
    split; cbn; [by apply map_Forall_insert_2|]. eexists. rewrite lookup_insert_eq. split_and!; [done..|].
    apply route_task_matches_refl; [|done|done].
    unfold ensure_new_route_can_start, route_conflict_input in He. by destruct (to_value spec); [eexists|].
Qed.

(** ** Restoring what was saved *)

Lemma NoDup_fst_filter {A B} (P : A * B -> Prop) `{forall p, Decision (P p)} (l : list (A * B)) :
  NoDup l.*1 -> NoDup (filter P l).*1.
Proof.
  induction l as [|[a b] l IH]; [done|]. intros [Hn Hnd]%NoDup_cons. rewrite filter_cons. case_decide; [|by auto].
  cbn. constructor; [|by auto]. intros ([a' b'] & -> & Hin%list_elem_of_filter)%list_elem_of_fmap.
  apply Hn, list_elem_of_fmap. exists (a', b'). by destruct Hin.
Qed.

Section restore.
Context (to_value_total : forall spec : RouteSpec Opts, is_Some (to_value (Text := Text) spec)).

Lemma conflict_routes_total (rs : Tasks) :
  exists l, route_conflict_routes (Text := Text) rs = Some l
  /\ forall r, r ∈ l -> exists id t, rs !! id = Some t
      /\ r_direction r = task_direction t /\ r_listen r = addr_text <$> task_listen t /\ r_peer r = task_peer t.
Proof.
  assert (Hall : is_Some (route_conflict_routes (Text := Text) rs)).
  { apply mapM_is_Some_2, Forall_forall. intros [id t] _. unfold compose, route_conflict_route. cbn beta iota.
    destruct (to_value_total (task_spec t)) as [v ->]. by eexists. }
  destruct Hall as [l Hl]. exists l. split; [done|]. intros r Hr. apply mapM_Some_1 in Hl.
  apply list_elem_of_lookup in Hr as (k & Hk).
  destruct (Forall2_lookup_r _ _ _ _ _ Hl Hk) as ([id t] & Hkt & Hrr). cbn in Hrr.
  apply bind_Some in Hrr as (v & _ & [= <-]). exists id, t. split; [|done].
  apply elem_of_map_to_list. by eapply list_elem_of_lookup_2.
Qed.

Lemma can_start (bind : SocketAddr -> bool) (rs : Tasks) spec persist created fb :
  match spec with Forward _ => bind (spec_listen spec) = true | Reverse _ => True end ->
  map_Forall (fun _ t => ~ conflicting (new_task spec persist created fb) t) rs ->
  ensure_new_route_can_start (Text := Text) bind rs (spec_direction spec) (spec_listen spec)
    (Some (spec_peer spec)) spec = Ok tt.
Proof.
  intros Hb Hc. unfold ensure_new_route_can_start, route_conflict_input.
  destruct (to_value_total spec) as [v ->]. cbn [mbind option_bind].
  destruct (conflict_routes_total rs) as (l & -> & Hl).
  unfold decide_route_conflict. cbn [i_id].
  destruct (list_find _ l) as [[k r]|] eqn:Hf.
  - apply list_find_Some in Hf as (Hk & Hr & _). exfalso.
    destruct (Hl r) as (id & t & Hid & Hd & Hli & Hp); [by eapply list_elem_of_lookup_2|].
    apply (Hc id t Hid). unfold route_reserves_listener in Hr. cbn in Hr.
    apply andb_prop in Hr as [[H1%bool_decide_eq_true H2%bool_decide_eq_true]%andb_prop H3].
    unfold conflicting. cbn. split_and!; [congruence..|].
    apply orb_prop in H3 as [H3%bool_decide_eq_true|H3%bool_decide_eq_true]; [by left|right; congruence].
  - destruct spec; [by rewrite Hb|done].
Qed.

Lemma start_fresh (env : Env Opts) id spec persist created fb (n : Node Opts Text) :
  routes n !! id = None -> map_Forall (fun _ t => finished t = false) (routes n) ->
  match spec with Forward _ => bind_ok env (spec_listen spec) = true | Reverse _ => True end ->
  map_Forall (fun _ t => ~ conflicting (new_task spec persist created fb) t) (routes n) ->
  start_route_spec (Text := Text) env id spec persist created fb n
  = (Ok Started, MkNode (<[id := new_task spec persist created fb]> (routes n)) (route_store n)).
Proof.
  intros Hid Hf Hb Hc.
  assert (Hs : start_section (Text := Text) (bind_ok env) id spec persist (routes n) = (Ok None, routes n)).
  { unfold start_section. rewrite retain_id, Hid by done. by erewrite can_start. }
  unfold start_route_spec. erewrite sr_bind_Ok by (unfold locked; by rewrite Hs).
  unfold locked. cbn. unfold commit_section. by rewrite Hs.
Qed.

(** A stored route comes back as a running, persistent task. *)
Definition revive (t : RouteTask Opts) : RouteTask Opts :=
  new_task (task_spec t) true (task_created_at_unix t) (task_fallback_reason t).

Lemma revive_conflicting t t' : task_ok t -> conflicting (revive t) t' <-> conflicting t t'.
Proof. intros (Hd & Hl & Hp & _). unfold conflicting, revive. cbn. by rewrite Hd, Hl, Hp. Qed.

Lemma conflicting_comm t t' : conflicting t t' -> conflicting t' t.
Proof. intros (Hd & Hl & Hp). split_and!; [done..|]. rewrite <-Hd. naive_solver. Qed.

Definition can_bind (env : Env Opts) (t : RouteTask Opts) : Prop :=
  match task_spec t with Forward _ => bind_ok env (spec_listen (task_spec t)) = true | Reverse _ => True end.

Lemma restore_fold (env : Env Opts) (rs : Tasks) (l : list (string * RouteTask Opts)) : forall n : Node Opts Text,
  routes_ok rs -> NoDup l.*1 ->
  (forall id t, (id, t) ∈ l -> rs !! id = Some t /\ can_bind env t /\ routes n !! id = None) ->
  map_Forall (fun id t => finished t = false /\ exists t0, rs !! id = Some t0 /\ t = revive t0) (routes n) ->
  routes (foldl (restore_one env) n (stored_route <$> l)) = (revive <$> list_to_map l) ∪ routes n.
Proof.
  induction l as [|[id t] l IH]; intros n Hok Hnd Hl Hn; cbn [fmap list_fmap foldl].
  { cbn. rewrite fmap_empty. by rewrite (left_id_L ∅ (∪)). }
  apply NoDup_cons in Hnd as [Hnin Hnd].
  destruct (Hl id t) as (Hid & Hb & Hnone); [left|].
  assert (Hstep : restore_one env n (stored_route (id, t)) = MkNode (<[id := revive t]> (routes n)) (route_store n)).
  { unfold restore_one. cbn. rewrite start_fresh; [done|done| |done|].
    - intros i u Hi. by apply Hn in Hi as [? _].
    - intros i u Hi. destruct (Hn i u Hi) as (_ & t0 & Ht0 & ->).
      assert (Hne : id <> i) by (intros ->; congruence).
      intros Hc. apply (ok_apart _ Hok id i t t0 Hid Ht0 Hne).
      change (conflicting (revive t) (revive t0)) in Hc.
      apply (revive_conflicting t _ (ok_tasks _ Hok id t Hid)), conflicting_comm in Hc.
      by apply (revive_conflicting t0 _ (ok_tasks _ Hok i t0 Ht0)), conflicting_comm in Hc. }
  rewrite Hstep, IH; cbn; [|done|done| |].
  - rewrite fmap_insert, <-insert_union_l. symmetry. apply insert_union_r.
    rewrite lookup_fmap, not_elem_of_list_to_map_1; done.
  - intros i u Hi. destruct (Hl i u) as (? & ? & ?); [by right|]. split_and!; [done..|].
    rewrite lookup_insert_ne; [done|]. intros ->. apply Hnin. by apply (list_elem_of_fmap_2 fst _ (i, u)).
  - apply map_Forall_insert_2; [by eauto|done].
Qed.
End restore.
End concurrent.

(** ** The supervisor *)

Record RouteStats := {
  state : string;
  attempts : Z;
  restart_count : Z;
  last_error : option string;
  last_event : option string;
  started_at_unix : Z;
  updated_at_unix : Z;
}.

(** [RouteStats::default] at time [now]. *)
Definition RouteStats_default (now : Z) : RouteStats :=
  {| state := "starting"; attempts := 0; restart_count := 0; last_error := None;
     last_event := Some "route task created"%string; started_at_unix := now; updated_at_unix := now |}.

Record RouteReadinessReport := {
  rr_state : string;
  rr_phase : string;
  rr_retry_count : Z;
  rr_attempts : Z;
  rr_blocker : option string;
  rr_next_action : string;
  rr_managed_by : string;
  rr_job_id : string;
  rr_route_id : string;
  rr_peer : option string;
  rr_updated_at : Z;
}.

Definition phase_of_state (s : string) : string :=
  if decide (s = "running"%string) then "ready"
  else if decide (s = "failed"%string \/ s = "error"%string) then "failed"
  else if decide (s = "restarting"%string) then "starting"
  else if decide (s = "stopping"%string \/ s = "stopped"%string) then "stopped"
  else "starting".

Definition action_of_phase (phase : string) : string :=
  if decide (phase = "ready"%string) then "none"
  else if decide (phase = "failed"%string) then "restart-route"
  else if decide (phase = "stopped"%string) then "remove-or-restart-route"
  else "wait".

Definition from_stats (id : string) (peer : option string) (s : RouteStats) : RouteReadinessReport :=
  {| rr_state := state s; rr_phase := phase_of_state (state s); rr_retry_count := restart_count s;
     rr_attempts := attempts s; rr_blocker := last_error s;
     rr_next_action := action_of_phase (phase_of_state (state s)); rr_managed_by := "current-daemon";
     rr_job_id := "route:" +:+ id; rr_route_id := id; rr_peer := peer;
     rr_updated_at := updated_at_unix s |}.

(** What the supervisor does under the lock of the statistics before and after
    an attempt. *)
Definition attempt_starts (now : Z) (s : RouteStats) : RouteStats :=
  {| state := "running"; attempts := attempts s + 1; restart_count := restart_count s;
     last_error := last_error s; last_event := Some "route task starting"%string;
     started_at_unix := started_at_unix s; updated_at_unix := now |}.

Definition attempt_ended (now : Z) (r : result string unit) (s : RouteStats) : RouteStats :=
  match r with
  | Ok _ =>
    {| state := "exited"; attempts := attempts s; restart_count := restart_count s;
       last_error := last_error s; last_event := Some "route task exited cleanly"%string;
       started_at_unix := started_at_unix s; updated_at_unix := now |}
  | Err err =>
    {| state := "error"; attempts := attempts s; restart_count := restart_count s;
       last_error := Some err; last_event := Some "route task failed"%string;
       started_at_unix := started_at_unix s; updated_at_unix := now |}
  end.

Definition attempt_restarts (now delay : Z) (s : RouteStats) : RouteStats :=
  {| state := "restarting"; attempts := attempts s; restart_count := restart_count s + 1;
     last_error := last_error s;
     last_event := Some ("route task restarting in " +:+ display_uint delay +:+ "s");
     started_at_unix := started_at_unix s; updated_at_unix := now |}.

(** One turn of the loop: an attempt that starts and ends at given times with
    a result.  [observed] is what others can read: the statistics whenever
    the lock is released. *)
Definition supervise_once (attempt : Z * Z * result string unit)
    (st : Z * RouteStats * list RouteStats) : Z * RouteStats * list RouteStats :=
  let '(delay, s, observed) := st in
  let '(t0, t1, r) := attempt in
  let s1 := attempt_starts t0 s in
  let s2 := attempt_restarts t1 delay (attempt_ended t1 r s1) in
  (Z.min (delay * 2) 30, s2, observed ++ [s1; s2]).

Definition supervise (created : Z) (attempts : list (Z * Z * result string unit)) :
    Z * RouteStats * list RouteStats :=
  foldl (fun st a => supervise_once a st) (1, RouteStats_default created, [RouteStats_default created]) attempts.

Lemma supervise_snoc created l a : supervise created (l ++ [a]) = supervise_once a (supervise created l).
Proof. unfold supervise. by rewrite foldl_app. Qed.

(** ** A concrete format *)

(** Objects of objects of strings; a top-level string is under the empty key. *)
Definition FlatJson : Type := list (string * list (string * string)).

#[global] Instance FlatJson_value : JsonValue FlatJson := {|
  json_eq_dec := _;
  get_str k v :=
    match list_find (fun p => p.1 = k) v with
    | Some (_, (_, [(EmptyString, s)])) => Some s
    | _ => None
    end;
  remove_in k1 k2 v :=
    (fun p => if decide (p.1 = k1) then (p.1, filter (fun q => q.1 <> k2) p.2) else p) <$> v;
|}.

(** The options are the identities of the SSH client. *)
Definition flat_spec (s : RouteSpec (list string)) : FlatJson :=
  match s with
  | Forward p =>
    [("direction", [(EmptyString, "forward")]);
     ("proxy", [("listen", addr_text (px_listen p)); ("target", px_target p);
                ("remote_transport", remote_transport_name (px_remote_transport p));
                ("identity", join "," (px_options p))])]%string
  | Reverse r =>
    [("direction", [(EmptyString, "reverse")]);
     ("reverse", [("remote_listen", addr_text (rv_remote_listen r)); ("target", rv_target r);
                  ("identity", join "," (rv_options r))])]%string
  end.

#[global] Instance flat_format : RouteFormat (Opts := list string) (V := FlatJson) (Text := RouteStore (list string)) := {|
  to_value s := Some (flat_spec s);
  to_string_pretty s := Some s;
  from_str s := Some s;
|}.

Definition sample_addr (port : Z) : SocketAddr := {| sa_ip := V4 [x7f; x00; x00; x01]; sa_port := port |}.
Definition sample_forward (port : Z) (target : string) : RouteSpec (list string) :=
  Forward {| px_listen := sample_addr port; px_target := target; px_remote_transport := SshNative;
             px_options := [] |}.
Definition sample_reverse (port : Z) (target : string) (ids : list string) : RouteSpec (list string) :=
  Reverse {| rv_remote_listen := sample_addr port; rv_target := target; rv_options := ids |}.
Definition sample_env : Env (list string) :=
  {| bind_ok := fun _ => true; write_ok := true; now_unix := 1700000000; apply_proxy_defaults := fun p => Ok p |}.

Abbreviation SampleNode := (Node (list string) (RouteStore (list string))).

(** ** Properties *)

(** C11. However requests interleave, the registry never has two routes that
    would listen on the same address (of this machine for forward routes, of
    the same peer for reverse routes), and every entry's columns are those of
    its specification. *)
Theorem listeners_not_shared {Opts V Text} `{JsonValue V} `{!@RouteFormat Opts V Text}
    (es : list RouteEvent) (s : Shared) (id1 id2 : string) (t1 t2 : RouteTask Opts) :
  runs (route_step (Text := Text)) Shared_new es = Some s ->
  sh_routes s !! id1 = Some t1 -> sh_routes s !! id2 = Some t2 -> id1 <> id2 ->
  task_ok t1 /\ ~ conflicting t1 t2.
Proof.
  intros Hr H1 H2 Hne.
  assert (Hok : routes_ok (sh_routes s)).
  { eapply (runs_invariant _ (fun s => routes_ok (sh_routes s))); [by apply routes_ok_step| |done].
    split; [apply map_Forall_empty|done]. }
  split; [exact (ok_tasks _ Hok id1 t1 H1)|exact (ok_apart _ Hok _ _ _ _ H1 H2 Hne)].
Qed.

(** Two requests for one port race; a third route listens on the peer. *)
Definition race_events : list (RouteEvent (Opts := list string)) :=
  let ok _ := true in
  [ECheck ok "a" (sample_forward 8080 "edge") true; ECheck ok "b" (sample_forward 8080 "core") true;
   ECommit ok "a" (sample_forward 8080 "edge") true 1 None;
   ECommit ok "b" (sample_forward 8080 "core") true 2 None;
   ECommit ok "c" (sample_reverse 8080 "edge" []) false 3 None].
Definition race_state : Shared (Opts := list string) :=
  default Shared_new (runs (route_step (Text := RouteStore (list string))) Shared_new race_events).

Lemma listeners_not_shared_witness :
  let ta := new_task (sample_forward 8080 "edge") true 1 None in
  let tc := new_task (sample_reverse 8080 "edge" []) false 3 None in
  sh_routes race_state !! "b"%string = None /\ task_ok ta /\ ~ conflicting ta tc.
Proof.
  intros ta tc. split; [vm_compute; reflexivity|].
  apply (listeners_not_shared (Text := RouteStore (list string)) race_events race_state "a" "c").
  - vm_compute. reflexivity.
  - vm_compute. reflexivity.
  - vm_compute. reflexivity.
  - congruence.
Defined.

(** Starting a route that was started is harmless: the second request
    reuses the task and changes nothing, whatever the network and the clock
    say by then. *)
Theorem start_is_idempotent {Opts V Text} `{JsonValue V} `{!@RouteFormat Opts V Text}
    (env env' : Env Opts) (id : string) (spec : RouteSpec Opts) (persist : bool) (c c' : Z)
    (fb fb' : option string) (n n' : Node Opts Text) (o : RouteStartOutcome) :
  start_route_spec env id spec persist c fb n = (Ok o, n') ->
  exists p, start_route_spec env' id spec persist c' fb' n' = (Ok (ReusedExisting p false), n').
Proof.
  intros Hs.
  assert (Hst : started n' id spec persist).
  { unfold start_route_spec in Hs. apply sr_bind_inv in Hs as ([o'|] & n1 & H1 & Hs).
    - injection Hs as <- <-. by eapply start_section_started.
    - by eapply commit_section_started. }
  destruct (start_section_reuse (bind_ok env') id spec persist n' Hst) as [p Hp].
  exists p. unfold start_route_spec. by erewrite sr_bind_Ok by done.
Qed.

Definition started_node : SampleNode :=
  (start_route_spec sample_env "r" (sample_reverse 8080 "edge" ["id_rsa"%string]) true 5 None (MkNode ∅ None)).2.

Lemma start_is_idempotent_witness :
  exists p, start_route_spec sample_env "r" (sample_reverse 8080 "edge" ["id_rsa"%string]) true 9 None started_node
            = (Ok (ReusedExisting p false), started_node).
Proof.
  apply (start_is_idempotent sample_env sample_env "r" _ true 5 9 None None (MkNode ∅ None) started_node Started).
  vm_compute. reflexivity.
Defined.

(** C36. The persistent routes survive a restart of the daemon: from what was
    saved, an empty registry restores exactly these routes, each with its
    specification, creation time and fallback reason, if their ports can be
    bound.  (The registry satisfies the invariant of concurrent requests, and
    the store's text can be read back.) *)
Theorem restore_saved_routes {Opts V Text} `{JsonValue V} `{!@RouteFormat Opts V Text}
    (env env' : Env Opts) (n n1 : Node Opts Text) :
  (forall spec, is_Some (to_value (Text := Text) spec)) ->
  (forall store text, to_string_pretty store = Some text -> from_str text = Some store) ->
  routes_ok (routes n) ->
  map_Forall (fun _ t => task_persist t = true -> can_bind env' t) (routes n) ->
  save_routes env n = (Ok tt, n1) ->
  routes (restore_routes env' (MkNode ∅ (route_store n1)))
  = revive <$> filter (fun p => task_persist p.2 = true) (routes n).
Proof.
  intros Htot Hfmt Hok Hbind Hsave. unfold save_routes in Hsave.
  destruct (to_string_pretty (snapshot (routes n))) as [text|] eqn:Ht; [|done].
  destruct (write_ok env); [|done]. injection Hsave as <-. cbn [route_store].
  unfold restore_routes. cbn [route_store mbind option_bind]. rewrite (Hfmt _ _ Ht). cbn [st_routes snapshot].
  set (l := filter _ (map_to_list (routes n))).
  assert (Hl : forall id t, (id, t) ∈ l <-> routes n !! id = Some t /\ task_persist t = true).
  { intros id t. unfold l. rewrite list_elem_of_filter, elem_of_map_to_list. naive_solver. }
  assert (Hnd : NoDup l.*1).
  { apply NoDup_fst_filter, NoDup_fst_map_to_list. }
  rewrite (restore_fold Htot env' (routes n)); [|done|done| |apply map_Forall_empty].
  - cbn [routes]. rewrite (right_id_L ∅ (∪)). f_equal. apply map_eq. intros id.
    apply option_eq. intros t. rewrite map_lookup_filter_Some, <-elem_of_list_to_map by done. by rewrite Hl.
  - intros id t [Hid Hp]%Hl. split_and!; [done| |done]. by apply (Hbind id t Hid).
Qed.

Definition saved_node : SampleNode :=
  MkNode (<["a"%string := new_task (sample_forward 8080 "edge") true 1 None]>
          (<["b"%string := new_task (sample_reverse 8080 "edge" []) false 2 None]>
           (<["c"%string := set_finished (new_task (sample_reverse 9000 "edge" []) true 3 (Some "reason"%string))]> ∅)))
         None.

Lemma restore_saved_routes_witness :
  routes (restore_routes sample_env (MkNode ∅ (route_store (save_routes sample_env saved_node).2)))
  = revive <$> filter (fun p => task_persist p.2 = true) (routes saved_node).
Proof.
  apply (restore_saved_routes sample_env sample_env saved_node (save_routes sample_env saved_node).2).
  - intros spec. eexists. reflexivity.
  - intros store text [= <-]. reflexivity.
  - split.
    + intros id t Hid. unfold saved_node in Hid. cbn [routes] in Hid.
      rewrite !lookup_insert_Some, lookup_empty in Hid.
      destruct Hid as [[_ <-]|[_ [[_ <-]|[_ [[_ <-]|[_ ?]]]]]]; done.
    + intros id1 id2 t1 t2 H1 H2 Hne (D & L & P). unfold saved_node in H1, H2. cbn [routes] in H1, H2.
      rewrite !lookup_insert_Some, lookup_empty in H1. rewrite !lookup_insert_Some, lookup_empty in H2.
      destruct H1 as [[<- <-]|[_ [[<- <-]|[_ [[<- <-]|[_ ?]]]]]];
        destruct H2 as [[<- <-]|[_ [[<- <-]|[_ [[<- <-]|[_ ?]]]]]];
        first [done | vm_compute in D; discriminate D | vm_compute in L; discriminate L].
  - intros id t Hid _. unfold can_bind. by destruct (task_spec t).
  - vm_compute. reflexivity.
Defined.

(** Concurrent requests can lose a route from the store: the store is
    written outside of the lock, so an older snapshot may be written last.
    All requests are done, a persistent route runs, and the store that the
    next daemon reads does not have it. *)
Theorem concurrent_saves_lose_routes :
  exists (es : list (RouteEvent (Opts := list string))) s store t,
    runs (route_step (Text := RouteStore (list string))) Shared_new es = Some s
    /\ sh_saving s = ∅ /\ sh_store s = Some store
    /\ sh_routes s !! "b"%string = Some t /\ task_persist t = true /\ finished t = false
    /\ Forall (fun r => st_id r <> "b"%string) (st_routes store).
Proof.
  exists [ECommit (fun _ => true) "a" (sample_forward 8080 "edge") true 1 None; ESnapshot 1;
          ECommit (fun _ => true) "b" (sample_forward 8081 "edge") true 2 None; ESnapshot 2;
          EWriteStore 2; EWriteStore 1].
  eexists. eexists. eexists. split; [vm_compute; reflexivity|].
  split; [vm_compute; reflexivity|]. split; [reflexivity|]. split; [vm_compute; reflexivity|].
  split; [reflexivity|]. split; [reflexivity|]. repeat constructor. discriminate.
Qed.

(** A restart that cannot bind the port again loses the route: it is gone
    from the registry, and the store, which is not written, still has it. *)
Theorem failed_restart_loses_route {Opts V Text} `{JsonValue V} `{!@RouteFormat Opts V Text}
    (env : Env Opts) (q : NodeRequest Opts) (n : Node Opts Text) (id : string) (t : RouteTask Opts)
    (p : ProxyArgs Opts) :
  q_id q = Some id -> routes n !! id = Some t -> task_spec t = Forward p -> bind_ok env (px_listen p) = false ->
  exists e n', restart_route env q n = (Err e, n') /\ routes n' !! id = None /\ route_store n' = route_store n.
Proof.
  intros Hq Hid Hspec Hb.
  set (rs := retain_running (delete id (routes n))).
  assert (Hnone : rs !! id = None).
  { apply eq_None_not_Some. intros [u [Hu _]%retain_lookup]. by rewrite lookup_delete_eq in Hu. }
  assert (Hens : exists e, ensure_new_route_can_start (Text := Text) (bind_ok env) rs (spec_direction (Forward p))
            (spec_listen (Forward p)) (Some (spec_peer (Forward p))) (Forward p) = Err e).
  { unfold ensure_new_route_can_start. cbn [spec_listen]. rewrite Hb.
    repeat case_match; eauto. }
  destruct Hens as [e He]. exists e, (MkNode rs (route_store n)). split; [|done].
  unfold restart_route. rewrite Hq. erewrite sr_bind_Ok by done.
  erewrite sr_bind_Ok by (unfold take_task; by rewrite Hid).
  rewrite Hspec. erewrite sr_bind_Err; [done|].
  unfold start_route_spec. erewrite sr_bind_Err; [done|].
  unfold locked, start_section. cbn [routes]. fold rs. by rewrite Hnone, He.
Qed.

Lemma failed_restart_loses_route_witness :
  let env := {| bind_ok := fun _ => false; write_ok := true; now_unix := 0; apply_proxy_defaults := fun p => Ok p |} in
  let q := {| q_id := Some "a"%string; q_direction := None; q_proxy := None; q_reverse := None;
              q_persist := None; q_fallback_reason := None |} in
  exists e n', restart_route env q saved_node = (Err e, n') /\ routes n' !! "a"%string = None
               /\ route_store n' = route_store saved_node.
Proof.
  intros env q.
  apply (failed_restart_loses_route env q saved_node "a" (new_task (sample_forward 8080 "edge") true 1 None)
           {| px_listen := sample_addr 8080; px_target := "edge"; px_remote_transport := SshNative; px_options := [] |});
    reflexivity.
Defined.

(** The supervisor counts its attempts, doubles its delay up to 30
    seconds, and keeps the last error; but no statistics that others can read
    ever say that the route failed: the states [error] and [exited] are
    overwritten before the lock is released, so readiness is [ready] or
    [starting] however often the route fails. *)
Theorem supervisor_never_reports_failure (created : Z) (l : list (Z * Z * result string unit)) :
  let '(delay, s, observed) := supervise created l in
  delay = Z.min (2 ^ len l) 30
  /\ attempts s = len l /\ restart_count s = len l
  /\ (forall err t0 t1 l', l = l' ++ [(t0, t1, Err err)] -> last_error s = Some err)
  /\ Forall (fun o => rr_phase (from_stats EmptyString None o) = "ready"%string
                      \/ rr_phase (from_stats EmptyString None o) = "starting"%string) observed.
Proof.
  induction l as [|[[t0 t1] r] l IH] using rev_ind.
  - cbn. split_and!; [done..| |].
    + intros err t0 t1 l' Hl. by destruct l'.
    + constructor; [right; by vm_compute|done].
  - rewrite supervise_snoc. destruct (supervise created l) as [[delay s] observed].
    destruct IH as (Hd & Ha & Hr & _ & Ho). cbn [supervise_once].
    rewrite length_app. cbn [length]. split_and!.
    + rewrite Hd, Nat2Z.inj_add, Z.pow_add_r by lia. change (2 ^ Z.of_nat 1) with 2. lia.
    + destruct r; cbn; lia.
    + destruct r; cbn; lia.
    + intros err t0' t1' l' [_ [= -> -> ->]]%app_inj_tail. done.
    + apply Forall_app. split; [done|]. constructor; [left; by vm_compute|]. constructor; [right; by vm_compute|done].
Qed.
