(* ===== verification/Link.v ===== *)
(** * A link and its two ends

    The bridge ([bridge.rs]) on one side and the remote helper ([remote.rs])
    on the other, with what is on the wire between them: the frames one side's
    writer has written and the other side's reader has not read yet.  (That
    the wire carries frames in order, whatever the network does to its bytes,
    is the round trip of [write_frame_batch] and [read_from].)

    The callers of the bridge are those of
    [crates/ssh-proxy/src/data_plane.rs]: a flow, with its sender, exists only
    after [open_tcp] has returned it. *)
From S2P Require Import Prelude RustStr Protocol Mux Bridge Remote.

(** ** State and steps *)

Record Link := MkLink {
  local : BridgeInner;
  remote : Transport;
  up : list Frame;      (* written by the bridge, to be read by the helper *)
  down : list Frame;    (* the other direction *)
  flows : gset Z;       (* the flows [open_tcp] returned *)
}.

Definition Link_new (default_egress_proxy : option string) : Link :=
  MkLink BridgeInner_new (Transport_new default_egress_proxy) [] [] ∅.

(** A step of one end.  The number says how many frames of its batch are on
    the wire when the writer fails or is aborted. *)
Inductive LinkEvent := L (n : nat) (e : Bridge.Event) | R (n : nat) (e : Remote.Event).

(** What a step puts on the wire. *)
Definition local_writes (n : nat) (e : Bridge.Event) (s : BridgeInner) : list Frame :=
  match e with
  | Bridge.EWrite _ => Bridge.batch s
  | Bridge.EWriteFail | EAbortWriter => take n (Bridge.batch s)
  | _ => []
  end.
Definition remote_writes (n : nat) (e : Remote.Event) (s : Transport) : list Frame :=
  match e with
  | EWrite => batch s
  | EWriteFail | EReaderEnd => take n (batch s)
  | _ => []
  end.

(** The head of a wire is read. *)
Definition take_head (f : Frame) (wire : list Frame) : option (list Frame) :=
  match wire with
  | g :: rest => if decide (f = g) then Some rest else None
  | [] => None
  end.

Definition link_step (s : Link) (le : LinkEvent) : option Link :=
  match le with
  | L n e =>
    match e with
    | ESendData id _ => if decide (id ∈ flows s) then Some tt else None
    | _ => Some tt
    end ≫= fun _ =>
    down' ← match e with Bridge.ERead f => take_head f (down s) | _ => Some (down s) end;
    local' ← Bridge.step (local s) e;
    Some (MkLink local' (remote s) (up s ++ local_writes n e (local s)) down'
            (match e with EOpenDone id (Ok _) => {[id]} ∪ flows s | _ => flows s end))
  | R n e =>
    up' ← match e with ERead f => take_head f (up s) | _ => Some (up s) end;
    remote' ← Remote.step (remote s) e;
    Some (MkLink (local s) remote' up' (down s ++ remote_writes n e (remote s)) (flows s))
  end.

(** ** What the events say *)

Definition local_events (es : list LinkEvent) : list Bridge.Event :=
  omap (fun e => match e with L _ e => Some e | R _ _ => None end) es.
Definition remote_events (es : list LinkEvent) : list Remote.Event :=
  omap (fun e => match e with R _ e => Some e | L _ _ => None end) es.

Definition data_of (id : Z) (f : Frame) : option (list byte) :=
  match f with Data i data => if decide (i = id) then Some data else None | _ => None end.
Definition datas (id : Z) (fs : list Frame) : list (list byte) := omap (data_of id) fs.

(** The chunks a flow's sender was given. *)
Definition sent (id : Z) (es : list LinkEvent) : list (list byte) :=
  omap (fun e => match e with
                 | L _ (ESendData i data) => if decide (i = id) then Some data else None
                 | _ => None end) es.
(** The chunks that arrived from the target of connection [k]. *)
Definition arrived (k : nat) (es : list LinkEvent) : list (list byte) :=
  omap (fun e => match e with
                 | R _ (EInRead j data) => if decide (j = k) then Some data else None
                 | _ => None end) es.
(** The data frames of a stream that each end has read. *)
Definition read_up (id : Z) (es : list LinkEvent) : list (list byte) :=
  omap (fun e => match e with R _ (ERead f) => data_of id f | _ => None end) es.
Definition read_down (id : Z) (es : list LinkEvent) : list (list byte) :=
  omap (fun e => match e with L _ (Bridge.ERead f) => data_of id f | _ => None end) es.

(** The frames on their way. *)
Definition pipe_up (s : Link) : list Frame :=
  up s ++ Bridge.batch (local s) ++ Bridge.outbox (local s).
Definition pipe_down (s : Link) : list Frame := down s ++ batch (remote s) ++ outbox (remote s).

(** ** What a step queues *)

Definition local_emits (e : Bridge.Event) (s : BridgeInner) : list Frame :=
  match e with
  | EOpenSend id =>
    match opens s !! id with
    | Some c => let '(host, port, px) := open_target c in [OpenTcp id host port px]
    | None => []
    end
  | ESendData id data => [Data id data]
  | EClose id reason => [Close id reason]
  | ESendUdp id dg => [UdpPacket id (dg_host dg) (dg_port dg) (dg_data dg)]
  | EUnregisterUdp id => [Close id "udp association closed"]
  | ELog m => [Log m]
  | Bridge.EDeliver TimedOut =>
    match Bridge.reading s with
    | Some (Bridge.DelTcp id _) => [Close id "local receiver backpressure timed out after 30s"]
    | Some (Bridge.DelUdp id _) => [Close id "local UDP receiver backpressure timed out after 10s"]
    | None => []
    end
  | _ => []
  end.

Definition remote_emits (e : Remote.Event) (s : Transport) : list Frame :=
  match e with
  | EResult k =>
    match conns s !! k with
    | Some c =>
      match c_phase c with
      | Registered => [OpenTcpResult (c_id c) true EmptyString]
      | Refused m => [OpenTcpResult (c_id c) false m]
      | _ => []
      end
    | None => []
    end
  | EInSend k =>
    match conns s !! k with
    | Some c => match c_in c with Holding data => [Data (c_id c) data] | _ => [] end
    | None => []
    end
  | EClosed k => match conns s !! k with Some c => [Close (c_id c) "tcp closed"] | None => [] end
  | EDeliver TimedOut =>
    match reading s with
    | Some (DelTcp id _ _) => [Close id "remote receiver backpressure timed out after 30s"]
    | Some (DelUdp id _ _) => [Close id "remote UDP receiver backpressure timed out after 10s"]
    | None => []
    end
  | EUdpBindClosed u =>
    match assocs s !! u with
    | Some a =>
      match a_phase a with
      | BindFailed reason => [Close (a_id a) ("udp bind failed: " +:+ reason)]
      | _ => []
      end
    | None => []
    end
  | EUdpInSend u =>
    match assocs s !! u with
    | Some a =>
      match a_in a with
      | Some dg => [UdpPacket (a_id a) (dg_host dg) (dg_port dg) (dg_data dg)]
      | None => []
      end
    | None => []
    end
  | _ => []
  end.

Lemma local_send_flow f s :
  Bridge.writer_alive (Bridge.send_frame f s).2 = Bridge.writer_alive s
  /\ Bridge.batch (Bridge.send_frame f s).2 = Bridge.batch s
  /\ Bridge.outbox (Bridge.send_frame f s).2
     = Bridge.outbox s ++ (if Bridge.writer_alive s then [f] else []).
Proof.
  unfold Bridge.send_frame. destruct (Bridge.writer_alive s) eqn:E; cbn; [done|]. by rewrite app_nil_r.
Qed.

Lemma remote_send_flow f s :
  writer_alive (send_frame f s) = writer_alive s /\ batch (send_frame f s) = batch s
  /\ outbox (send_frame f s) = outbox s ++ (if writer_alive s then [f] else []).
Proof.
  unfold send_frame. destruct (writer_alive s) eqn:E; cbn; [done|]. by rewrite app_nil_r.
Qed.

(** The frames of the bridge: a step either stops the writer or moves frames
    from the queue to the batch to the wire, after what it queues. *)
Definition local_flow (s s' : BridgeInner) (wrote emitted : list Frame) : Prop :=
  Bridge.writer_alive s' = Bridge.writer_alive s
  /\ wrote ++ Bridge.batch s' ++ Bridge.outbox s'
     = Bridge.batch s ++ Bridge.outbox s ++ (if Bridge.writer_alive s then emitted else []).

Lemma local_flow_same s s' :
  Bridge.writer_alive s' = Bridge.writer_alive s -> Bridge.batch s' = Bridge.batch s ->
  Bridge.outbox s' = Bridge.outbox s -> local_flow s s' [] [].
Proof. intros Hw Hb Ho. split; [done|]. rewrite Hb, Ho. case_match; by rewrite app_nil_r. Qed.

Lemma local_flow_send f s s' :
  Bridge.writer_alive s' = Bridge.writer_alive (Bridge.send_frame f s).2 ->
  Bridge.batch s' = Bridge.batch (Bridge.send_frame f s).2 ->
  Bridge.outbox s' = Bridge.outbox (Bridge.send_frame f s).2 -> local_flow s s' [] [f].
Proof.
  destruct (local_send_flow f s) as (-> & -> & ->). intros Hw Hb Ho. split; [done|]. by rewrite Hb, Ho.
Qed.

(** A send after changes elsewhere. *)
Lemma local_flow_later f s s0 :
  Bridge.writer_alive s0 = Bridge.writer_alive s -> Bridge.batch s0 = Bridge.batch s ->
  Bridge.outbox s0 = Bridge.outbox s -> local_flow s (Bridge.send_frame f s0).2 [] [f].
Proof.
  intros Hw Hb Ho. pose proof (local_flow_send f s0 _ eq_refl eq_refl eq_refl) as H.
  unfold local_flow in *. by rewrite Hw, Hb, Ho in H.
Qed.

Lemma local_flow_step s e s' :
  Bridge.step s e = Some s' ->
  match e with
  | Bridge.EWriteFail | EAbortWriter =>
    Bridge.writer_alive s' = false /\ Bridge.batch s' = [] /\ Bridge.outbox s' = []
  | _ => local_flow s s' (local_writes 0 e s) (local_emits e s)
  end.
Proof.
  intros Hs.
  destruct e as [id host port px|id|id|id r|id|id data|id reason|id|id dg|id|m|f|o|id data|id dg|id|id| |v| | | | | |];
    cbn [Bridge.step] in Hs; try (apply when_Some in Hs as [Hg ->]); cbn [local_writes local_emits];
    try (by apply local_flow_same); try (by apply local_flow_send).
  - destruct (opens s !! id) as [[f [] a]|]; simplify_eq. by apply local_flow_same.
  - destruct (opens s !! id) as [[[[host port] px] [] a]|]; simplify_eq. apply when_Some in Hs as [_ ->].
    unfold open_send. cbn [open_target answer]. pose proof (local_flow_send (OpenTcp id host port px) s) as Hf.
    destruct (Bridge.send_frame (OpenTcp id host port px) s) as [ok s1]. cbn [snd] in Hf. destruct ok; by apply Hf.
  - destruct (opens s !! id) as [[f [] [a|]]|]; simplify_eq. case_decide; simplify_eq.
    destruct r; by apply local_flow_same.
  - destruct (opens s !! id) as [[f [] [a|]]|]; simplify_eq. by apply local_flow_same.
  - by apply local_flow_later.
  - destruct f as [| id ok m | id data | id reason | id host port data |]; cbn; try (by apply local_flow_same);
      case_decide; by apply local_flow_same.
  - destruct (Bridge.reading s) as [d|]; [|done]. apply when_Some in Hs as [_ ->].
    destruct d, o; try (by apply local_flow_same); by apply local_flow_later.
  - apply bind_Some in Hs as (m & _ & [= <-]). by apply local_flow_same.
  - apply bind_Some in Hs as (m & _ & [= <-]). by apply local_flow_same.
  - simplify_eq. by apply local_flow_same.
  - simplify_eq. by apply local_flow_same.
  - destruct (Bridge.outbox s) as [|f rest] eqn:Ho; [done|]. apply when_Some in Hs as [_ ->].
    split; [done|]. cbn. rewrite Ho. destruct (Bridge.writer_alive s); by rewrite <-app_assoc, ?app_nil_r.
  - split; [done|]. cbn. destruct (Bridge.writer_alive s); by rewrite !app_nil_r.
  - done.
  - done.
Qed.

(** The same for the helper. *)
Definition remote_flow (s s' : Transport) (wrote emitted : list Frame) : Prop :=
  writer_alive s' = writer_alive s
  /\ wrote ++ batch s' ++ outbox s' = batch s ++ outbox s ++ (if writer_alive s then emitted else []).

Lemma remote_flow_same s s' :
  writer_alive s' = writer_alive s -> batch s' = batch s -> outbox s' = outbox s -> remote_flow s s' [] [].
Proof.
  intros Hw Hb Ho. split; [done|]. rewrite Hb, Ho. destruct (writer_alive s); by rewrite app_nil_r.
Qed.

Lemma remote_flow_send f s s0 s' :
  writer_alive s' = writer_alive (send_frame f s0) -> batch s' = batch (send_frame f s0) ->
  outbox s' = outbox (send_frame f s0) ->
  writer_alive s0 = writer_alive s -> batch s0 = batch s -> outbox s0 = outbox s ->
  remote_flow s s' [] [f].
Proof.
  destruct (remote_send_flow f s0) as (-> & -> & ->). intros Hw Hb Ho Hw0 Hb0 Ho0.
  split; [congruence|]. by rewrite Hb, Ho, Hb0, Ho0, Hw0.
Qed.

Lemma remote_flow_step s e s' :
  Remote.step s e = Some s' ->
  match e with
  | EWriteFail | EReaderEnd => writer_alive s' = false /\ batch s' = [] /\ outbox s' = []
  | _ => remote_flow s s' (remote_writes 0 e s) (remote_emits e s)
  end.
Proof.
  intros Hs. destruct e as [f|o| | |k|k m|k|k data|k|k|k|k|k part|k|k|k|k|u|u m|u|u|u h p d|u|u|u| | |];
    cbn [Remote.step] in Hs; try (apply when_Some in Hs as [Hg ->]);
    cbn [remote_writes remote_emits]; try done; try (by apply remote_flow_same).
  all: try (apply bind_Some in Hs as (c & Hc & Hs); rewrite ?Hc; cbn [conn_step] in Hs;
            repeat (case_match; try done); try (apply when_Some in Hs as [_ ->]); simplify_eq;
            first [by apply remote_flow_same | by eapply (remote_flow_send _ s s)]).
  all: try (apply bind_Some in Hs as (a & Ha & Hs); rewrite ?Ha; cbn [assoc_step] in Hs;
            repeat (case_match; try done); try (apply when_Some in Hs as [_ ->]); simplify_eq;
            first [by apply remote_flow_same | by eapply (remote_flow_send _ s s)]).
  - destruct f as [| | id data | id reason | id host port data |]; cbn [handle_frame]; try (by apply remote_flow_same).
    + case_match; by apply remote_flow_same.
    + unfold udp_sender. destruct (udp_streams s !! id); by apply remote_flow_same.
  - destruct (reading s) as [d|]; [|done]. apply when_Some in Hs as [_ ->].
    destruct d, o; try (by apply remote_flow_same); by eapply remote_flow_send.
  - destruct (outbox s) as [|f rest] eqn:Ho; [done|]. apply when_Some in Hs as [_ ->].
    split; [done|]. cbn. rewrite Ho. destruct (writer_alive s); by rewrite <-app_assoc, ?app_nil_r.
  - split; [done|]. cbn. destruct (writer_alive s); by rewrite !app_nil_r.
Qed.

(** ** The link's steps, seen from the two ends *)

Lemma take_head_Some f wire rest : take_head f wire = Some rest -> wire = f :: rest.
Proof. destruct wire as [|g wire]; cbn; [done|]. case_decide; intros; by simplify_eq. Qed.

Lemma link_L n e s s' :
  link_step s (L n e) = Some s' ->
  Bridge.step (local s) e = Some (local s') /\ remote s' = remote s
  /\ up s' = up s ++ local_writes n e (local s)
  /\ down s = (match e with Bridge.ERead f => [f] | _ => [] end) ++ down s'
  /\ flows s' = (match e with EOpenDone id (Ok _) => {[id]} ∪ flows s | _ => flows s end)
  /\ (match e with ESendData id _ => id ∈ flows s | _ => True end).
Proof.
  cbn [link_step]. intros (u & Hf & (d & Hd & (l & Hl & [= <-])%bind_Some)%bind_Some)%bind_Some.
  cbn. split_and!; [done..| |done|].
  - destruct e; cbn; try congruence. by apply take_head_Some.
  - destruct e; try done. by case_decide.
Qed.

Lemma link_R n e s s' :
  link_step s (R n e) = Some s' ->
  Remote.step (remote s) e = Some (remote s') /\ local s' = local s
  /\ down s' = down s ++ remote_writes n e (remote s)
  /\ up s = (match e with ERead f => [f] | _ => [] end) ++ up s' /\ flows s' = flows s.
Proof.
  cbn [link_step]. intros (d & Hd & (l & Hl & [= <-])%bind_Some)%bind_Some.
  cbn. split_and!; try done. destruct e; cbn; try congruence. by apply take_head_Some.
Qed.

(** A step of one end appends what it queues to what is on the way, or its
    writer stops and the end of it is lost. *)
Lemma pipe_up_L n e s s' :
  link_step s (L n e) = Some s' ->
  (Bridge.writer_alive (local s') = false /\ exists lost, pipe_up s = pipe_up s' ++ lost)
  \/ (Bridge.writer_alive (local s') = Bridge.writer_alive (local s)
      /\ pipe_up s' = pipe_up s
           ++ (if Bridge.writer_alive (local s) then local_emits e (local s) else [])).
Proof.
  intros (Hs & _ & Hu & _)%link_L. pose proof (local_flow_step _ _ _ Hs) as Hf. unfold pipe_up. rewrite Hu.
  destruct e; try (right; destruct Hf as [Ha Hb]; split; [done|];
                   rewrite <-!app_assoc; f_equal; exact Hb).
  all: left; destruct Hf as (Ha & Hb & Ho); split; [done|]; rewrite Hb, Ho, app_nil_r;
    exists (drop n (Bridge.batch (local s)) ++ Bridge.outbox (local s)); cbn [local_writes];
    rewrite <-!app_assoc, (app_assoc (take _ _)); by rewrite take_drop.
Qed.

Lemma pipe_down_R n e s s' :
  link_step s (R n e) = Some s' ->
  (writer_alive (remote s') = false /\ exists lost, pipe_down s = pipe_down s' ++ lost)
  \/ (writer_alive (remote s') = writer_alive (remote s)
      /\ pipe_down s' = pipe_down s
           ++ (if writer_alive (remote s) then remote_emits e (remote s) else [])).
Proof.
  intros (Hs & _ & Hu & _)%link_R. pose proof (remote_flow_step _ _ _ Hs) as Hf. unfold pipe_down. rewrite Hu.
  destruct e; try (right; destruct Hf as [Ha Hb]; split; [done|];
                   rewrite <-!app_assoc; f_equal; exact Hb).
  all: left; destruct Hf as (Ha & Hb & Ho); split; [done|]; rewrite Hb, Ho, app_nil_r;
    exists (drop n (batch (remote s)) ++ outbox (remote s)); cbn [remote_writes];
    rewrite <-!app_assoc, (app_assoc (take _ _)); by rewrite take_drop.
Qed.

(** The other end takes frames from the front. *)
Lemma pipe_up_R n e s s' :
  link_step s (R n e) = Some s' ->
  pipe_up s = (match e with ERead f => [f] | _ => [] end) ++ pipe_up s'.
Proof. intros (_ & Hl & _ & Hu & _)%link_R. unfold pipe_up. rewrite Hl, Hu. by rewrite <-app_assoc. Qed.

Lemma pipe_down_L n e s s' :
  link_step s (L n e) = Some s' ->
  pipe_down s = (match e with Bridge.ERead f => [f] | _ => [] end) ++ pipe_down s'.
Proof. intros (_ & Hl & _ & Hu & _)%link_L. unfold pipe_down. rewrite Hl, Hu. by rewrite <-app_assoc. Qed.

Lemma local_events_snoc es le :
  local_events (es ++ [le]) = local_events es ++ match le with L _ e => [e] | R _ _ => [] end.
Proof. unfold local_events. rewrite omap_app. by destruct le. Qed.

Lemma remote_events_snoc es le :
  remote_events (es ++ [le]) = remote_events es ++ match le with R _ e => [e] | L _ _ => [] end.
Proof. unfold remote_events. rewrite omap_app. by destruct le. Qed.

(** Each end, alone, makes the steps it makes in the link. *)
Lemma link_projects px es s :
  runs link_step (Link_new px) es = Some s ->
  Bridge.reaches (local_events es) (local s)
  /\ runs Remote.step (Transport_new px) (remote_events es) = Some (remote s).
Proof.
  revert s. induction es as [|le es IH] using rev_ind; [by intros s [= <-]|].
  intros s' (s & Hr & Hs)%runs_snoc. destruct (IH s Hr) as [Hl Hrm].
  rewrite local_events_snoc, remote_events_snoc. unfold Bridge.reaches in *.
  destruct le as [n e|n e].
  - apply link_L in Hs as (Hs & -> & _). rewrite app_nil_r. split; [|done]. apply runs_snoc. eauto.
  - apply link_R in Hs as (Hs & -> & _). rewrite app_nil_r. split; [done|]. apply runs_snoc. eauto.
Qed.

(** ** The calls of [open_tcp] *)

(** What a step does to the calls: a new call is at its start; another call
    moves on at its own steps, and is answered by a result or with an error. *)
Definition call_step (id : Z) (e : Bridge.Event) (c c' : OpenCall) : Prop :=
  open_target c' = open_target c
  /\ pc c' = (match e with
              | EOpenStream i => if decide (i = id) then PcStream else pc c
              | EOpenSend i => if decide (i = id) then PcWaiting else pc c
              | _ => pc c
              end)
  /\ (answer c' = Some (Ok tt) -> answer c = Some (Ok tt)
      \/ exists m, e = Bridge.ERead (OpenTcpResult id true m)).

Lemma call_step_same id e c :
  match e with EOpenStream i | EOpenSend i => i <> id | _ => True end -> call_step id e c c.
Proof. intros H. split_and!; [done| |by left]. destruct e; try done; by rewrite decide_False. Qed.

Lemma opens_send f s : opens (Bridge.send_frame f s).2 = opens s.
Proof. unfold Bridge.send_frame. by destruct (Bridge.writer_alive s). Qed.

Lemma opens_answer i r s id c' :
  opens (answer_open i r s) !! id = Some c' ->
  exists c, opens s !! id = Some c /\ open_target c' = open_target c /\ pc c' = pc c
    /\ (answer c' = answer c \/ i = id /\ answer c' = Some r).
Proof.
  unfold answer_open. cbn. destruct (decide (i = id)) as [->|].
  - rewrite lookup_alter_eq. intros (c & -> & Hc)%fmap_Some. exists c. subst c'. split_and!; auto.
  - rewrite lookup_alter_ne by done. eauto 10.
Qed.

(** A frame the reader gets. *)
Lemma opens_handle f s id c' :
  opens (Bridge.handle_frame f s) !! id = Some c' ->
  exists c, opens s !! id = Some c /\ call_step id (Bridge.ERead f) c c'.
Proof.
  assert (Hsame : opens s !! id = Some c' -> exists c, opens s !! id = Some c /\ call_step id (Bridge.ERead f) c c')
    by (intros; exists c'; split; [done|]; by apply call_step_same).
  destruct f as [| i ok m | i data | i reason | i host port data |]; cbn [Bridge.handle_frame];
    try done; try (case_decide; done).
  - case_decide; [|done]. intros (c & Hc & Ht & Hp & Ha)%opens_answer. exists c. split; [done|].
    split_and!; [done..|]. destruct Ha as [->|[-> ->]]; [by left|]. destruct ok; [|done]. right. by exists m.
  - case_decide; [|done]. intros (c & Hc & Ht & Hp & Ha)%opens_answer. exists c. split; [done|].
    split_and!; [done..|]. destruct Ha as [->|[-> ->]]; [by left|done].
Qed.

Lemma opens_step s e s' id c' :
  Bridge.step s e = Some s' -> opens s' !! id = Some c' ->
  (exists c, opens s !! id = Some c /\ call_step id e c c')
  \/ exists host port px, e = EOpen id host port px /\ c' = MkOpen (host, port, px) PcPending None.
Proof.
  intros Hs Hc. cut (opens s !! id = Some c' /\ match e with EOpenStream i | EOpenSend i => i <> id | _ => True end
    \/ (exists c, opens s !! id = Some c /\ call_step id e c c')
    \/ exists host port px, e = EOpen id host port px /\ c' = MkOpen (host, port, px) PcPending None).
  { intros [[H1 H2]|[H|H]]; [|by left|by right]. left. exists c'. split; [done|]. by apply call_step_same. }
  destruct e as [i host port px|i|i|i r|i|i data|i reason|i|i dg|i|m|f|o|i data|i dg|i|i| |v| | | | | |];
    cbn [Bridge.step] in Hs; try (apply when_Some in Hs as [Hg ->]); try (by left).
  all: try (change (opens s !! id = Some c') in Hc; by left).
  all: try (unfold send_data, Bridge.close, send_udp, unregister_udp, send_log in Hc; cbn [opens Bridge.set_tcp] in Hc;
            rewrite opens_send in Hc; by left).
  - unfold open_register in Hc. cbn in Hc. apply lookup_insert_Some in Hc as [[<- <-]|[_ Hc]]; [|by left].
    right; right. apply Z.eqb_eq in Hg as ->. eauto.
  - destruct (opens s !! i) as [[t [] a]|] eqn:Hi; simplify_eq.
    unfold open_stream in Hc. cbn in Hc. apply lookup_insert_Some in Hc as [[<- <-]|[? Hc]]; [|by left].
    right; left. eexists; split; [done|]. split_and!; cbn; [done|by rewrite decide_True|by left].
  - destruct (opens s !! i) as [[[[h p] x] [] a]|] eqn:Hi; simplify_eq. apply when_Some in Hs as [_ ->].
    unfold open_send in Hc. cbn [open_target answer] in Hc. pose proof (opens_send (OpenTcp i h p x) s) as Ho.
    destruct (Bridge.send_frame _ s) as [ok s1]. cbn [snd] in Ho. destruct ok; cbn in Hc; rewrite Ho in Hc.
    + apply lookup_insert_Some in Hc as [[<- <-]|[? Hc]]; [|by left].
      right; left. eexists; split; [done|]. split_and!; cbn; [done|by rewrite decide_True|by left].
    + apply lookup_delete_Some in Hc as [? Hc]. by left.
  - destruct (opens s !! i) as [[t [] [a|]]|]; simplify_eq. case_decide; simplify_eq. left; split; [|done].
    destruct r; cbn in Hc; by apply lookup_delete_Some in Hc as [_ Hc].
  - destruct (opens s !! i) as [[t [] [a|]]|]; simplify_eq. left; split; [|done].
    cbn in Hc. by apply lookup_delete_Some in Hc as [_ Hc].
  - right; left. by apply opens_handle.
  - destruct (Bridge.reading s) as [d|]; [|done]. apply when_Some in Hs as [_ ->]. left; split; [|done].
    destruct d, o; cbn in Hc; rewrite ?opens_send in Hc; done.
  - apply bind_Some in Hs as (m & _ & [= <-]). by left.
  - apply bind_Some in Hs as (m & _ & [= <-]). by left.
  - simplify_eq. by left.
  - simplify_eq. by left.
  - destruct (Bridge.outbox s); [done|]. apply when_Some in Hs as [_ ->]. by left.
  - right; left. unfold drain_pending in Hc. cbn in Hc. rewrite map_lookup_imap in Hc.
    apply bind_Some in Hc as (c & Hc & [= <-]). exists c. split; [done|].
    destruct (decide (id ∈ pending_tcp s)); [by split_and!|by apply call_step_same].
Qed.

(** ** Ids are opened once *)

Definition open_id (f : Frame) : option Z := match f with OpenTcp id _ _ _ => Some id | _ => None end.

(** The ids the helper was asked to open, or will be. *)
Definition opened_ids (s : Link) : list Z := omap open_id (pipe_up s) ++ (c_id <$> conns (remote s)).

(** The target of an open, with the helper's default egress proxy. *)
Definition egress_default (px : option string) (t : string * Z * option string) : string * Z * option string :=
  let '(host, port, p) := t in (host, port, match p with Some p => Some p | None => px end).

Record id_inv (px : option string) (es : list LinkEvent) (s : Link) : Prop := {
  id_nodup : NoDup (opened_ids s);
  id_sent : forall id, id ∈ opened_ids s ->
    id < next_id (local s)
    /\ (Bridge.history id (local_events es)).1 = true
    /\ forall c, opens (local s) !! id = Some c -> pc c = PcWaiting;
  id_registered : forall id c, opens (local s) !! id = Some c -> pc c <> PcPending ->
    (Bridge.history id (local_events es)).1 = true;
  id_call : forall id c, opens (local s) !! id = Some c ->
    exists host port p, open_target c = (host, port, p) /\ EOpen id host port p ∈ local_events es;
  id_frame : forall id host port p, OpenTcp id host port p ∈ pipe_up s ->
    EOpen id host port p ∈ local_events es;
  id_conn : forall k c, conns (remote s) !! k = Some c ->
    exists host port p, EOpen (c_id c) host port p ∈ local_events es
      /\ c_target c = egress_default px (host, port, p);
  id_default : default_egress_proxy (remote s) = px;
}.

(** The connections of the helper: a step appends the one the link asks for
    and keeps what the others are for. *)
Definition new_conn (px : option string) (e : Remote.Event) : list Conn :=
  match e with
  | ERead (OpenTcp id host port p) =>
    [MkConn id (egress_default px (host, port, p)) Connecting [] Idle Idle []]
  | _ => []
  end.

Definition same_conn (c c' : Conn) : Prop :=
  c_id c' = c_id c /\ c_target c' = c_target c /\ (registered c = true -> registered c' = true).

Lemma same_conns_refl l : Forall2 same_conn l l.
Proof. apply Forall_Forall2_diag, Forall_true. by intros c. Qed.

Lemma same_conns_alter f k l :
  (forall c, l !! k = Some c -> same_conn c (f c)) -> Forall2 same_conn l (alter f k l).
Proof.
  intros Hf. apply Forall2_same_length_lookup_2; [by rewrite length_alter|].
  intros i x y Hx. destruct (decide (k = i)) as [<-|].
  - rewrite list_lookup_alter_eq, Hx. intros [= <-]. by apply Hf.
  - rewrite list_lookup_alter_ne, Hx by done. by intros [= <-].
Qed.

Lemma conns_step s e s' :
  Remote.step s e = Some s' ->
  exists l, conns s' = l ++ new_conn (default_egress_proxy s) e /\ Forall2 same_conn (conns s) l.
Proof.
  intros Hs.
  assert (Hsame : conns s' = conns s -> new_conn (default_egress_proxy s) e = [] ->
    exists l, conns s' = l ++ new_conn (default_egress_proxy s) e /\ Forall2 same_conn (conns s) l).
  { intros -> ->. exists (conns s). rewrite app_nil_r. split; [done|apply same_conns_refl]. }
  destruct e as [f|o| | |k|k m|k|k data|k|k|k|k|k part|k|k|k|k|u|u m|u|u|u h p d|u|u|u| | |];
    cbn [Remote.step] in Hs; try (apply when_Some in Hs as [_ ->]); try (by apply Hsame).
  all: try (apply bind_Some in Hs as (c & Hc & (f & Ec & Hid & [Ht Hr] & _)%conn_step_local);
            exists (conns s'); rewrite app_nil_r; split; [done|]; rewrite Ec;
            apply same_conns_alter; intros; by simplify_eq).
  all: try (apply bind_Some in Hs as (a & _ & (_ & Hc & _)%assoc_step_local); by apply Hsame).
  - destruct f as [id host port p| | id data | id reason | id host port data |]; try (by apply Hsame).
    + exists (conns s). split; [by destruct p|apply same_conns_refl].
    + apply Hsame; [|done]. cbn. by destruct (tcp_streams s !! id).
    + apply Hsame; [|done]. cbn. unfold udp_sender. by destruct (udp_streams s !! id).
  - destruct (reading s) as [d|]; [|done]. apply when_Some in Hs as [_ ->].
    destruct d as [id k data|id u dg]; [|apply Hsame; [|done]; destruct o; remote_simpl; done].
    destruct o; [|apply Hsame; [by remote_simpl|done]..]. cbn [deliver]. unfold upd_conn. cbn.
    eexists. rewrite app_nil_r. split; [done|]. by apply same_conns_alter.
  - destruct (outbox s); [done|]. apply when_Some in Hs as [_ ->]. by apply Hsame.
Qed.

Lemma default_step s e s' :
  Remote.step s e = Some s' -> default_egress_proxy s' = default_egress_proxy s.
Proof.
  assert (Hf : forall f s, default_egress_proxy (send_frame f s) = default_egress_proxy s)
    by (intros; unfold send_frame; by case_match).
  intros Hs. destruct e; cbn [Remote.step] in Hs; try (apply when_Some in Hs as [_ ->]);
    try (apply bind_Some in Hs as (c & Hc & Hs); cbn [conn_step assoc_step] in Hs);
    repeat (case_match; try done); try (apply when_Some in Hs as [_ ->]); simplify_eq; cbn; rewrite ?Hf; try done.
  - destruct f; cbn; unfold udp_sender; try done; by destruct (_ !! _).
  - match goal with |- context [deliver ?d ?o _] => destruct d, o end; cbn; by rewrite ?Hf.
Qed.

(** When the steps of a call can happen. *)
Lemma call_guard s e s' :
  Bridge.step s e = Some s' ->
  match e with
  | EOpen id _ _ _ => id = next_id s
  | EOpenStream id => exists c, opens s !! id = Some c /\ pc c = PcPending
  | EOpenSend id => exists c, opens s !! id = Some c /\ pc c = PcStream
  | EOpenDone id r => exists c, opens s !! id = Some c /\ answer c = Some r
  | _ => True
  end.
Proof.
  intros Hs. destruct e; try done; cbn [Bridge.step] in Hs.
  - by apply when_Some in Hs as [?%Z.eqb_eq _].
  - destruct (opens s !! id) as [[t [] a]|]; try done. by eexists.
  - destruct (opens s !! id) as [[t [] a]|]; try done. by eexists.
  - destruct (opens s !! id) as [[t [] [a|]]|]; try done. case_decide; [|done]. subst. by eexists.
Qed.

Lemma history_opened_mono id es e :
  (Bridge.history id es).1 = true -> (Bridge.history id (es ++ [e])).1 = true.
Proof.
  intros Hh. rewrite history_snoc. destruct e; cbn; try done; [by case_decide|].
  destruct f; try done. case_match; [done|done].
Qed.

(** A step of the bridge asks for one more id at most, and only when the
    stream of the call is registered. *)
Lemma local_emits_open e s s' :
  Bridge.step s e = Some s' ->
  omap open_id (local_emits e s) = match e with EOpenSend id => [id] | _ => [] end.
Proof.
  intros Hg%call_guard. destruct e; cbn; try done.
  - destruct Hg as (c & -> & _). by destruct (open_target c) as [[h p] x].
  - destruct o; try done. by destruct (Bridge.reading s) as [[]|].
Qed.

Lemma opened_ids_L n e s s' :
  link_step s (L n e) = Some s' ->
  exists kept lost new, omap open_id (pipe_up s) = kept ++ lost
  /\ opened_ids s' = kept ++ new ++ (c_id <$> conns (remote s))
  /\ (new = [] \/ exists id, e = EOpenSend id /\ new = [id]).
Proof.
  intros Hs. pose proof (link_L _ _ _ _ Hs) as (Hl & Hr & _). unfold opened_ids. rewrite Hr.
  destruct (pipe_up_L _ _ _ _ Hs) as [[Ha [lost ->]]|[Ha ->]].
  - exists (omap open_id (pipe_up s')), (omap open_id lost), []. rewrite omap_app. split_and!; auto.
  - exists (omap open_id (pipe_up s)), [],
      (omap open_id (if Bridge.writer_alive (local s) then local_emits e (local s) else [])).
    rewrite omap_app, app_nil_r, <-app_assoc. split_and!; [done..|].
    destruct (Bridge.writer_alive (local s)); [|by left]. rewrite (local_emits_open _ _ _ Hl).
    destruct e; eauto.
Qed.

(** A frame of another kind is not among the frames a step queues. *)
Ltac no_frame :=
  solve [intros Hin; first [by apply elem_of_nil in Hin | by apply list_elem_of_singleton in Hin]].

Lemma local_emits_call e s id h p x :
  OpenTcp id h p x ∈ local_emits e s -> exists c, opens s !! id = Some c /\ open_target c = (h, p, x).
Proof.
  destruct e; cbn; try no_frame.
  - destruct (opens s !! id0) as [c|] eqn:Hc; [|no_frame].
    destruct (open_target c) as [[h' p'] x'] eqn:Ht. intros [= -> -> -> ->]%list_elem_of_singleton. eauto.
  - destruct o; try no_frame. destruct (Bridge.reading s) as [[]|]; no_frame.
Qed.

(** Once its frame is sent, a call waits for its answer. *)
Lemma waiting_step s e s' id :
  Bridge.step s e = Some s' -> id < next_id s ->
  (e = EOpenSend id \/ forall c, opens s !! id = Some c -> pc c = PcWaiting) ->
  forall c, opens s' !! id = Some c -> pc c = PcWaiting.
Proof.
  intros Hs Hid Hw c' Hc'. pose proof (call_guard _ _ _ Hs) as Hg.
  destruct (opens_step _ _ _ _ _ Hs Hc') as [(c & Hc & _ & Hpc & _)|(h & p & x & -> & _)]; [|lia].
  destruct Hw as [->|Hw]; [by rewrite decide_True in Hpc|]. specialize (Hw c Hc). rewrite Hpc.
  destruct e; try done; case_decide; subst; try done. destruct Hg as (? & ? & ?). simplify_eq. congruence.
Qed.

(** A call past its first part has its stream registered. *)
Lemma registered_step es s e s' id c' :
  Bridge.step s e = Some s' -> opens s' !! id = Some c' -> pc c' <> PcPending ->
  (forall c, opens s !! id = Some c -> pc c <> PcPending -> (Bridge.history id es).1 = true) ->
  (Bridge.history id (es ++ [e])).1 = true.
Proof.
  intros Hs Hc' Hp' IH. pose proof (call_guard _ _ _ Hs) as Hg.
  destruct (opens_step _ _ _ _ _ Hs Hc') as [(c & Hc & _ & Hpc & _)|(h & p & x & -> & ->)]; [|done].
  destruct e as [|i|i| | | | | | | | | | | | | | | | | | | | | |];
    try (apply history_opened_mono, (IH c Hc); congruence); case_decide; subst;
    try (apply history_opened_mono, (IH c Hc); congruence).
  - rewrite history_snoc. cbn. by rewrite decide_True.
  - destruct Hg as (? & ? & ?). apply history_opened_mono, (IH c Hc). simplify_eq. congruence.
Qed.

Lemma id_inv_L px n e es s s' :
  stream_inv (local_events es) (local s) -> stream_inv (local_events es ++ [e]) (local s') ->
  id_inv px es s -> link_step s (L n e) = Some s' -> id_inv px (es ++ [L n e]) s'.
Proof.
  intros B B' I Hs. pose proof (link_L _ _ _ _ Hs) as (Hl & Hr & _).
  pose proof (call_guard _ _ _ Hl) as Hg.
  assert (Hnext : next_id (local s) <= next_id (local s')).
  { rewrite (inv_next _ _ B), (inv_next _ _ B'), allocs_snoc. pose proof (alloc_nonneg e). lia. }
  destruct (opened_ids_L _ _ _ _ Hs) as (kept & lost & new & Hk & Ho & Hnew).
  assert (Hold : forall id, id ∈ kept ++ (c_id <$> conns (remote s)) -> id ∈ opened_ids s).
  { intros id. unfold opened_ids. rewrite Hk. set_solver. }
  assert (Hnd : NoDup (kept ++ (c_id <$> conns (remote s)))).
  { pose proof (id_nodup _ _ _ I) as Hnd. unfold opened_ids in Hnd. rewrite Hk, <-app_assoc in Hnd.
    apply NoDup_app in Hnd as (? & Hd & (_ & _ & ?)%NoDup_app). apply NoDup_app. set_solver. }
  split; rewrite ?local_events_snoc, ?Hr.
  - rewrite Ho. destruct Hnew as [->|(id & -> & ->)]; [done|].
    rewrite (app_assoc kept), (Permutation_app_comm kept), <-app_assoc. cbn. constructor; [|done].
    intros Hid%Hold. destruct Hg as (c & Hc & Hpc).
    destruct (id_sent _ _ _ I id Hid) as (_ & _ & Hw). specialize (Hw c Hc). congruence.
  - intros id. rewrite Ho. intros Hid.
    assert (Hcase : id ∈ opened_ids s \/ e = EOpenSend id).
    { destruct Hnew as [->|(i & -> & ->)]; [left; by apply Hold|].
      destruct (decide (i = id)) as [->|]; [by right|]. left. apply Hold. set_solver. }
    destruct Hcase as [Hin| ->].
    + destruct (id_sent _ _ _ I id Hin) as (Hlt & Hh & Hw).
      split_and!; [lia|by apply history_opened_mono|]. by eapply waiting_step; eauto.
    + destruct Hg as (c & Hc & Hpc). destruct (inv_opens _ _ B id c Hc) as [Hlt _].
      split_and!; [lia| |by eapply waiting_step; eauto].
      apply history_opened_mono, (id_registered _ _ _ I id c Hc). congruence.
  - intros id c' Hc' Hp'. eapply registered_step; eauto using id_registered.
  - intros id c' Hc'. destruct (opens_step _ _ _ _ _ Hl Hc') as [(c & Hc & -> & _)|(h & p & x & -> & ->)].
    + destruct (id_call _ _ _ I id c Hc) as (h & p & x & -> & ?). exists h, p, x. set_solver.
    + exists h, p, x. set_solver.
  - intros id h p x Hin. destruct (pipe_up_L _ _ _ _ Hs) as [[_ [rest Hp]]|[_ Hp]].
    + pose proof (id_frame _ _ _ I id h p x) as Hf. rewrite Hp in Hf. set_solver.
    + rewrite Hp in Hin. apply elem_of_app in Hin as [Hin|Hin].
      { pose proof (id_frame _ _ _ I id h p x Hin). set_solver. }
      destruct (Bridge.writer_alive (local s)); [|by apply elem_of_nil in Hin].
      destruct (local_emits_call _ _ _ _ _ _ Hin) as (c & Hc & Ht).
      destruct (id_call _ _ _ I id c Hc) as (h' & p' & x' & Ht' & ?). rewrite Ht in Ht'. simplify_eq. set_solver.
  - intros k c Hc. destruct (id_conn _ _ _ I k c Hc) as (h & p & x & ? & ?). exists h, p, x. set_solver.
  - apply (id_default _ _ _ I).
Qed.

Lemma same_conns_ids l l' : Forall2 same_conn l l' -> c_id <$> l' = c_id <$> l.
Proof. induction 1 as [|c c' l l' (Hid & _)]; cbn; [done|]. by f_equal. Qed.

Lemma new_conn_ids px e :
  c_id <$> new_conn px e = omap open_id (match e with ERead f => [f] | _ => [] end).
Proof. destruct e; try done. by destruct f. Qed.

(** A step of the helper moves the id of an open from the wire to the connections. *)
Lemma opened_ids_R n e s s' : link_step s (R n e) = Some s' -> opened_ids s' ≡ₚ opened_ids s.
Proof.
  intros Hs. pose proof (link_R _ _ _ _ Hs) as (Hr & _ & _). unfold opened_ids.
  destruct (conns_step _ _ _ Hr) as (l & -> & Hl).
  rewrite (pipe_up_R _ _ _ _ Hs), omap_app, fmap_app, (same_conns_ids _ _ Hl), new_conn_ids.
  rewrite <-app_assoc, app_assoc. apply Permutation_app_comm.
Qed.

Lemma id_inv_R px n e es s s' :
  id_inv px es s -> link_step s (R n e) = Some s' -> id_inv px (es ++ [R n e]) s'.
Proof.
  intros I Hs. pose proof (link_R _ _ _ _ Hs) as (Hr & Hl & _).
  pose proof (opened_ids_R _ _ _ _ Hs) as Ho. pose proof (pipe_up_R _ _ _ _ Hs) as Hp.
  split; rewrite ?local_events_snoc, ?app_nil_r, ?Hl.
  - rewrite Ho. apply (id_nodup _ _ _ I).
  - intros id. rewrite Ho. apply (id_sent _ _ _ I).
  - apply (id_registered _ _ _ I).
  - apply (id_call _ _ _ I).
  - intros id h p x Hin. apply (id_frame _ _ _ I). rewrite Hp. set_solver.
  - intros k c' Hc'. destruct (conns_step _ _ _ Hr) as (l & El & Hsame). rewrite El in Hc'.
    apply lookup_app_Some in Hc' as [Hc'|[_ Hc']].
    + destruct (Forall2_lookup_r _ _ _ _ _ Hsame Hc') as (c & Hc & -> & -> & _). by apply (id_conn _ _ _ I k).
    + apply list_elem_of_lookup_2 in Hc'. destruct e; cbn in Hc'; try set_solver.
      destruct f as [id h p x| | | | |]; cbn in Hc'; try set_solver.
      apply list_elem_of_singleton in Hc' as ->. rewrite (id_default _ _ _ I). exists h, p, x.
      split; [|done]. apply (id_frame _ _ _ I). rewrite Hp. set_solver.
  - rewrite (default_step _ _ _ Hr). apply (id_default _ _ _ I).
Qed.

(** ** A flow has its connection *)

Definition connected (id : Z) (s : Link) : Prop :=
  exists k c, conns (remote s) !! k = Some c /\ c_id c = id /\ registered c = true.

Record flow_inv (s : Link) : Prop := {
  flow_result : forall id m, OpenTcpResult id true m ∈ pipe_down s -> connected id s;
  flow_answer : forall id c, opens (local s) !! id = Some c -> answer c = Some (Ok tt) -> connected id s;
  flow_open : forall id, id ∈ flows s -> connected id s;
}.

Lemma connected_R n e s s' id : link_step s (R n e) = Some s' -> connected id s -> connected id s'.
Proof.
  intros (Hr & _)%link_R (k & c & Hc & Hid & Hreg). destruct (conns_step _ _ _ Hr) as (l & El & Hl).
  destruct (Forall2_lookup_l _ _ _ _ _ Hl Hc) as (c' & Hc' & Hid' & _ & Hreg').
  exists k, c'. rewrite El, lookup_app_l by (by eapply lookup_lt_Some). split_and!; [done|congruence|auto].
Qed.

Lemma remote_emits_result e s s' id m :
  Remote.step s e = Some s' -> OpenTcpResult id true m ∈ remote_emits e s ->
  exists k c, conns s !! k = Some c /\ c_id c = id /\ registered c = true.
Proof.
  intros _. destruct e; cbn; try no_frame.
  - destruct o; try no_frame. destruct (reading s) as [[]|]; no_frame.
  - destruct (conns s !! k) as [c|] eqn:Hc; [|no_frame]. unfold registered.
    destruct (c_phase c) eqn:Hp; try no_frame; intros Hin%list_elem_of_singleton; simplify_eq.
    exists k, c. by rewrite Hp.
  - destruct (conns s !! k) as [c|]; [|no_frame]. destruct (c_in c); no_frame.
  - destruct (conns s !! k) as [c|]; no_frame.
  - destruct (assocs s !! u) as [a|]; [|no_frame]. destruct (a_phase a); no_frame.
  - destruct (assocs s !! u) as [a|]; [|no_frame]. destruct (a_in a); no_frame.
Qed.

Lemma flow_inv_step s le s' : flow_inv s -> link_step s le = Some s' -> flow_inv s'.
Proof.
  intros I Hs. destruct le as [n e|n e].
  - pose proof (link_L _ _ _ _ Hs) as (Hl & Hr & _ & _ & Hf & _). pose proof (pipe_down_L _ _ _ _ Hs) as Hp.
    unfold connected in *. split; unfold connected; rewrite ?Hr.
    + intros id m Hin. apply (flow_result _ I id m). rewrite Hp. set_solver.
    + intros id c' Hc' Ha. destruct (opens_step _ _ _ _ _ Hl Hc') as [(c & Hc & _ & _ & Hans)|(?&?&?&_&->)]; [|done].
      destruct (Hans Ha) as [?|(m & ->)]; [by eapply (flow_answer _ I)|].
      apply (flow_result _ I id m). rewrite Hp. set_solver.
    + intros id. rewrite Hf. destruct e; try apply (flow_open _ I). destruct r as [[]|]; [|apply (flow_open _ I)].
      intros [->%elem_of_singleton|?]%elem_of_union; [|by apply (flow_open _ I)].
      destruct (call_guard _ _ _ Hl) as (c & Hc & Ha). by eapply (flow_answer _ I).
  - pose proof (link_R _ _ _ _ Hs) as (Hr & Hl & _ & _ & Hf). split; rewrite ?Hl, ?Hf.
    + intros id m Hin. eapply connected_R; [done|].
      destruct (pipe_down_R _ _ _ _ Hs) as [[_ [rest Hp]]|[_ Hp]].
      { apply (flow_result _ I id m). rewrite Hp. set_solver. }
      rewrite Hp in Hin. apply elem_of_app in Hin as [Hin|Hin]; [by eapply (flow_result _ I)|].
      destruct (writer_alive (remote s)); [|by apply elem_of_nil in Hin]. by eapply remote_emits_result.
    + intros id c Hc Ha. eapply connected_R; [done|]. by eapply (flow_answer _ I).
    + intros id Hid. eapply connected_R; [done|]. by apply (flow_open _ I).
Qed.

(** An id names one connection, and is not about to be opened again. *)
Lemma conn_unique px es s k c k' c' :
  id_inv px es s -> conns (remote s) !! k = Some c -> conns (remote s) !! k' = Some c' ->
  c_id c = c_id c' -> k = k'.
Proof.
  intros (_ & _ & Hnd)%id_nodup%NoDup_app Hc Hc' E.
  eapply NoDup_lookup; [exact Hnd| |]; rewrite list_lookup_fmap; [by rewrite Hc|by rewrite Hc', E].
Qed.

Lemma open_fresh px es s id host port p k c :
  id_inv px es s -> OpenTcp id host port p ∈ pipe_up s -> conns (remote s) !! k = Some c -> c_id c <> id.
Proof.
  intros (_ & Hd & _)%id_nodup%NoDup_app Hin Hc E. apply (Hd id).
  - apply list_elem_of_omap. by exists (OpenTcp id host port p).
  - apply list_elem_of_fmap. exists c. split; [done|]. by eapply list_elem_of_lookup_2.
Qed.

(** ** What an event adds *)

Definition sent_by (id : Z) (le : LinkEvent) : list (list byte) :=
  match le with L _ (ESendData i data) => if decide (i = id) then [data] else [] | _ => [] end.
Definition arrives (k : nat) (le : LinkEvent) : list (list byte) :=
  match le with R _ (EInRead j data) => if decide (j = k) then [data] else [] | _ => [] end.
Definition reads_up (le : LinkEvent) : list Frame :=
  match le with R _ (ERead f) => [f] | _ => [] end.
Definition reads_down (le : LinkEvent) : list Frame :=
  match le with L _ (Bridge.ERead f) => [f] | _ => [] end.

Lemma sent_snoc id es le : sent id (es ++ [le]) = sent id es ++ sent_by id le.
Proof. unfold sent. rewrite omap_app. cbn. destruct le as [n e|]; [|done]. destruct e; try done. cbn. by destruct (decide _). Qed.

Lemma arrived_snoc k es le : arrived k (es ++ [le]) = arrived k es ++ arrives k le.
Proof. unfold arrived. rewrite omap_app. cbn. destruct le as [|n e]; [done|]. destruct e; try done. cbn. by destruct (decide _). Qed.

Lemma read_up_snoc id es le : read_up id (es ++ [le]) = read_up id es ++ datas id (reads_up le).
Proof. unfold read_up. rewrite omap_app. cbn. destruct le as [|n e]; [done|]. by destruct e. Qed.

Lemma read_down_snoc id es le : read_down id (es ++ [le]) = read_down id es ++ datas id (reads_down le).
Proof. unfold read_down. rewrite omap_app. cbn. destruct le as [n e|]; [|done]. by destruct e. Qed.

Lemma datas_app id fs gs : datas id (fs ++ gs) = datas id fs ++ datas id gs.
Proof. apply omap_app. Qed.

Lemma datas_nonempty id fs : datas id fs <> [] -> exists data, Data id data ∈ fs.
Proof.
  destruct (datas id fs) as [|data l] eqn:E; [done|]. intros _. exists data.
  assert (Hin : data ∈ datas id fs) by (rewrite E; left).
  apply list_elem_of_omap in Hin as (f & Hf & Hd). destruct f; try done. cbn in Hd. case_decide; by simplify_eq.
Qed.

(** ** From a flow to its target *)

Record up_inv (es : list LinkEvent) (s : Link) : Prop := {
  up_flow : forall id data, Data id data ∈ pipe_up s -> id ∈ flows s;
  up_read : forall id, read_up id es <> [] -> id ∈ flows s;
  up_sent : forall id, (read_up id es ++ datas id (pipe_up s)) `prefix_of` sent id es
    /\ (Bridge.writer_alive (local s) = true -> read_up id es ++ datas id (pipe_up s) = sent id es);
  up_history : forall k c, conns (remote s) !! k = Some c ->
    (Remote.history k (c_id c) (remote_events es)).2 = concat (read_up (c_id c) es);
}.

Lemma local_emits_data id e s n : datas id (local_emits e s) = sent_by id (L n e).
Proof.
  destruct e; cbn; try done.
  - destruct (opens s !! id0) as [c|]; [|done]. by destruct (open_target c) as [[h p] x].
  - by destruct (decide _).
  - destruct o; try done. by destruct (Bridge.reading s) as [[]|].
Qed.

Lemma local_emits_flow e s id data : Data id data ∈ local_emits e s -> e = ESendData id data.
Proof.
  destruct e; cbn; try no_frame.
  - destruct (opens s !! id0) as [c|]; [|no_frame]. destruct (open_target c) as [[h p] x]. no_frame.
  - intros Hin%list_elem_of_singleton. by simplify_eq.
  - destruct o; try no_frame. destruct (Bridge.reading s) as [[]|]; no_frame.
Qed.

Lemma up_inv_L n e es s s' : up_inv es s -> link_step s (L n e) = Some s' -> up_inv (es ++ [L n e]) s'.
Proof.
  intros I Hs. pose proof (link_L _ _ _ _ Hs) as (Hl & Hr & _ & _ & Hf & Hg).
  assert (Hflows : flows s ⊆ flows s') by (rewrite Hf; destruct e; try done; destruct r; set_solver).
  split.
  - intros id data Hin. apply Hflows. destruct (pipe_up_L _ _ _ _ Hs) as [[_ [lost Hp]]|[_ Hp]].
    { apply (up_flow _ _ I id data). rewrite Hp. set_solver. }
    rewrite Hp in Hin. apply elem_of_app in Hin as [Hin|Hin]; [by eapply up_flow|].
    destruct (Bridge.writer_alive (local s)); [|by apply elem_of_nil in Hin].
    by apply local_emits_flow in Hin as ->.
  - intros id. rewrite read_up_snoc, app_nil_r. intros ?%(up_read _ _ I). by apply Hflows.
  - intros id. rewrite read_up_snoc, sent_snoc, app_nil_r. destruct (up_sent _ _ I id) as [Hpre Heq].
    destruct (pipe_up_L _ _ _ _ Hs) as [[Ha [lost Hp]]|[Ha Hp]].
    + split; [|congruence]. rewrite Hp, datas_app, app_assoc in Hpre.
      etrans; [by eapply prefix_app_l|]. by apply prefix_app_r.
    + rewrite Hp, Ha, datas_app, app_assoc. destruct (Bridge.writer_alive (local s)).
      * rewrite (local_emits_data id e (local s) n), (Heq eq_refl). done.
      * split; [|done]. cbn. rewrite app_nil_r. by apply prefix_app_r.
  - intros k c. rewrite Hr, remote_events_snoc, read_up_snoc, !app_nil_r. apply (up_history _ _ I).
Qed.

(** The data the link brings for a connection is what its history records. *)
Lemma up_history_step px n e es s s' k c' :
  id_inv px es s -> flow_inv s -> inbound_inv (remote_events es) (remote s) -> up_inv es s ->
  link_step s (R n e) = Some s' -> conns (remote s') !! k = Some c' ->
  (Remote.history k (c_id c') (remote_events es ++ [e])).2
  = concat (read_up (c_id c') es ++ datas (c_id c') (reads_up (R n e))).
Proof.
  intros Hid Hfl Hin I Hs Hc'. pose proof (link_R _ _ _ _ Hs) as (Hr & _).
  pose proof (pipe_up_R _ _ _ _ Hs) as Hp. destruct (conns_step _ _ _ Hr) as (l & El & Hl).
  rewrite conn_history_snoc, El in *. apply lookup_app_Some in Hc' as [Hc'|[Hk Hc']].
  - destruct (Forall2_lookup_r _ _ _ _ _ Hl Hc') as (c & Hc & -> & _ & _).
    pose proof (up_history _ _ I k c Hc) as IH.
    destruct e; cbn; rewrite ?app_nil_r; try done; [|by case_decide].
    destruct f; cbn; rewrite ?app_nil_r; try done. case_bool_decide; subst.
    + destruct (flow_open _ Hfl (c_id c)) as (k' & c0 & Hc0 & E & Hreg).
      { apply (up_flow _ _ I _ data). rewrite Hp. set_solver. }
      assert (k' = k) as -> by (by eapply conn_unique). replace c0 with c in * by congruence.
      rewrite (inv_reg _ _ Hin k c Hc Hreg), decide_True by done. cbn.
      by rewrite IH, concat_app, <-(app_nil_r data) at 1.
    + rewrite andb_false_r, decide_False by congruence. by rewrite app_nil_r.
  - apply list_elem_of_lookup_2 in Hc'. destruct e; try by apply elem_of_nil in Hc'.
    destruct f as [id h p x| | | | |]; try by apply elem_of_nil in Hc'. cbn in Hc'.
    apply list_elem_of_singleton in Hc' as ->. cbn. rewrite app_nil_r.
    rewrite conn_history_unopened.
    + destruct (read_up id es) eqn:E; [done|]. exfalso.
      destruct (flow_open _ Hfl id) as (k' & c0 & Hc0 & E' & _); [apply (up_read _ _ I); by rewrite E|].
      eapply open_fresh; [exact Hid| |exact Hc0|exact E']. rewrite Hp. left.
    + apply (inv_none _ _ Hin), lookup_ge_None. apply Forall2_length in Hl. lia.
Qed.

Lemma up_inv_R px n e es s s' :
  id_inv px es s -> flow_inv s -> inbound_inv (remote_events es) (remote s) -> up_inv es s ->
  link_step s (R n e) = Some s' -> up_inv (es ++ [R n e]) s'.
Proof.
  intros Hid Hfl Hin I Hs. pose proof (link_R _ _ _ _ Hs) as (Hr & Hl & _ & _ & Hf).
  pose proof (pipe_up_R _ _ _ _ Hs : pipe_up s = reads_up (R n e) ++ pipe_up s') as Hp.
  split.
  - intros id data Hd. rewrite Hf. apply (up_flow _ _ I id data). rewrite Hp. set_solver.
  - intros id. rewrite read_up_snoc, Hf. intros Hne. destruct (read_up id es) eqn:E.
    + apply datas_nonempty in Hne as [data Hd]. apply (up_flow _ _ I id data). rewrite Hp. set_solver.
    + apply (up_read _ _ I). by rewrite E.
  - intros id. rewrite Hl, read_up_snoc, sent_snoc, app_nil_r, <-app_assoc, <-datas_app, <-Hp. apply (up_sent _ _ I).
  - intros k c Hc. rewrite remote_events_snoc, read_up_snoc. by eapply up_history_step.
Qed.

(** ** From a target to its flow *)

(** The chunk a connection has read from its target and not queued. *)
Definition held_chunk (c : Conn) (s : Link) : list (list byte) :=
  if writer_alive (remote s) then match c_in c with Holding data => [data] | _ => [] end else [].

Definition has_conn (id : Z) (s : Link) : Prop :=
  exists k c, conns (remote s) !! k = Some c /\ c_id c = id.

Record down_inv (es : list LinkEvent) (s : Link) : Prop := {
  down_conn : forall id data, Data id data ∈ pipe_down s -> has_conn id s;
  down_read : forall id, read_down id es <> [] -> has_conn id s;
  down_history : forall id, (Bridge.history id (local_events es)).2 = read_down id es;
  down_arrived : forall k c, conns (remote s) !! k = Some c ->
    (read_down (c_id c) es ++ datas (c_id c) (pipe_down s) ++ held_chunk c s) `prefix_of` arrived k es
    /\ (writer_alive (remote s) = true -> running (c_in c) = true ->
        read_down (c_id c) es ++ datas (c_id c) (pipe_down s) ++ held_chunk c s = arrived k es);
  down_none : forall k, conns (remote s) !! k = None -> arrived k es = [];
}.

Lemma down_inv_L px n e es s s' :
  id_inv px es s -> down_inv es s -> link_step s (L n e) = Some s' -> down_inv (es ++ [L n e]) s'.
Proof.
  intros Hid I Hs. pose proof (link_L _ _ _ _ Hs) as (_ & Hr & _).
  pose proof (pipe_down_L _ _ _ _ Hs : pipe_down s = reads_down (L n e) ++ pipe_down s') as Hp.
  split; unfold has_conn, held_chunk; rewrite ?Hr.
  - intros id data Hd. apply (down_conn _ _ I id data). rewrite Hp. set_solver.
  - intros id. rewrite read_down_snoc. intros Hne. destruct (read_down id es) eqn:E.
    + apply datas_nonempty in Hne as [data Hd]. apply (down_conn _ _ I id data). rewrite Hp. set_solver.
    + apply (down_read _ _ I). by rewrite E.
  - intros id. rewrite local_events_snoc, read_down_snoc, history_snoc. pose proof (down_history _ _ I id) as IH.
    destruct e; cbn; rewrite ?app_nil_r; try done; [by case_decide|].
    destruct f; cbn; rewrite ?app_nil_r; try done. case_bool_decide; subst.
    + destruct (down_conn _ _ I id data) as (k & c & Hc & E); [rewrite Hp; left|].
      destruct (id_sent _ _ _ Hid id) as (_ & -> & _); [|cbn; by rewrite decide_True, IH].
      apply elem_of_app. right. apply list_elem_of_fmap. exists c. split; [done|]. by eapply list_elem_of_lookup_2.
    + rewrite andb_false_r, decide_False by congruence. by rewrite app_nil_r.
  - intros k c Hc. rewrite read_down_snoc, arrived_snoc, app_nil_r, <-app_assoc, (app_assoc (datas _ (reads_down _))).
    rewrite <-datas_app, <-Hp. by apply (down_arrived _ _ I).
  - intros k Hk. rewrite arrived_snoc, app_nil_r. by apply (down_none _ _ I).
Qed.

(** The pump from a target. *)
Definition pump_step (k : nat) (e : Remote.Event) (c c' : Conn) : Prop :=
  match e with
  | EInRead j data => if decide (j = k) then c_in c = Idle /\ c_in c' = Holding data else c_in c' = c_in c
  | EInSend j =>
    if decide (j = k) then (exists data, c_in c = Holding data) /\ c_in c' = Idle else c_in c' = c_in c
  | EInEnd j | EAbort j => if decide (j = k) then c_in c' = Stopped else c_in c' = c_in c
  | _ => c_in c' = c_in c
  end.

Lemma conn_step_pump j cj k e s s' c c' :
  conn_step j cj e s = Some s' -> conn_of e = Some j -> conns s !! j = Some cj ->
  conns s !! k = Some c -> conns s' !! k = Some c' -> pump_step k e c c'.
Proof.
  intros Hs Hof Hj Hc Hc'. destruct (conn_step_local _ _ _ _ _ Hs) as (f & Ec & _).
  destruct (decide (j = k)) as [->|Hne].
  - replace cj with c in * by congruence. clear f Ec Hj.
    destruct e; cbn [conn_step conn_of] in *; simplify_eq; cbn; rewrite ?decide_True by done;
      repeat (case_match; try done); try (apply when_Some in Hs as [_ ->]); simplify_eq;
      unfold upd_conn in Hc'; cbn in Hc'; rewrite list_lookup_alter_eq in Hc'; autorewrite with remote in Hc';
      cbn in Hc'; rewrite Hc in Hc'; cbn in Hc'; simplify_eq; eauto.
  - rewrite Ec, list_lookup_alter_ne, Hc in Hc' by done. simplify_eq.
    destruct e; cbn in *; simplify_eq; try done; by rewrite decide_False.
Qed.

Lemma pump_step_ok s e s' k c c' :
  Remote.step s e = Some s' -> conns s !! k = Some c -> conns s' !! k = Some c' -> pump_step k e c c'.
Proof.
  intros Hs Hc Hc'. destruct (conn_of e) as [j|] eqn:Hj.
  { rewrite (conn_of_step _ _ _ Hj) in Hs. apply bind_Some in Hs as (cj & ? & Hs). by eapply conn_step_pump. }
  destruct e as [f|o| | | | | | | | | | | | | | | |u|u m|u|u|u h p d|u|u|u| | |]; try done;
    cbn [Remote.step pump_step] in *; try (apply when_Some in Hs as [_ ->]).
  all: try (apply bind_Some in Hs as (a & _ & (_ & Ec & _)%assoc_step_local); congruence).
  all: try (cbn in Hc'; congruence).
  - destruct f as [id h p x| | id data | id reason | id h p data |]; cbn in Hc'; try congruence.
    + unfold spawn_open in Hc'. cbn in Hc'. rewrite lookup_app_l in Hc' by (by eapply lookup_lt_Some). congruence.
    + destruct (tcp_streams s !! id); cbn in Hc'; congruence.
    + unfold udp_sender in Hc'. destruct (udp_streams s !! id); cbn in Hc'; congruence.
  - destruct (reading s) as [d|]; [|done]. apply when_Some in Hs as [_ ->].
    destruct d as [id j data|id u dg], o; unfold deliver, upd_conn, upd_assoc in Hc'; cbn in Hc';
      autorewrite with remote in Hc'; cbn in Hc'; try congruence.
    destruct (decide (j = k)) as [->|].
    + rewrite list_lookup_alter_eq, Hc in Hc'. cbn in Hc'. by simplify_eq.
    + rewrite list_lookup_alter_ne in Hc' by done. congruence.
  - destruct (outbox s); [done|]. apply when_Some in Hs as [_ ->]. cbn in Hc'. congruence.
Qed.

(** The data frames the helper queues are those of [EInSend]. *)
Lemma remote_emits_data id e s data :
  Data id data ∈ remote_emits e s ->
  exists j c, e = EInSend j /\ conns s !! j = Some c /\ c_id c = id /\ c_in c = Holding data.
Proof.
  destruct e; cbn; try no_frame.
  - destruct o; try no_frame. destruct (reading s) as [[]|]; no_frame.
  - destruct (conns s !! k) as [c|]; [|no_frame]. destruct (c_phase c); no_frame.
  - destruct (conns s !! k) as [c|] eqn:Hc; [|no_frame]. destruct (c_in c) eqn:Hi; try no_frame.
    intros Hin%list_elem_of_singleton. simplify_eq. by exists k, c.
  - destruct (conns s !! k) as [c|]; no_frame.
  - destruct (assocs s !! u) as [a|]; [|no_frame]. destruct (a_phase a); no_frame.
  - destruct (assocs s !! u) as [a|]; [|no_frame]. destruct (a_in a); no_frame.
Qed.

Lemma remote_emits_other px es e s k c :
  id_inv px es s -> conns (remote s) !! k = Some c -> e <> EInSend k ->
  datas (c_id c) (remote_emits e (remote s)) = [].
Proof.
  intros Hid Hc Hne. destruct (datas _ _) as [|data l] eqn:E; [done|]. exfalso.
  destruct (datas_nonempty (c_id c) (remote_emits e (remote s))) as [d Hd]; [by rewrite E|].
  apply remote_emits_data in Hd as (j & c0 & -> & Hc0 & Ec & _). apply Hne. f_equal. by eapply conn_unique.
Qed.

(** One connection in a step of the helper while its writer runs. *)
Lemma down_arrived_step px n e es s k c c' :
  id_inv px es s -> conns (remote s) !! k = Some c -> pump_step k e c c' ->
  let emitted := datas (c_id c) (remote_emits e (remote s)) in
  let held (c : Conn) := match c_in c with Holding data => [data] | _ => [] end in
  forall before, (before ++ held c) `prefix_of` arrived k es ->
  (running (c_in c) = true -> before ++ held c = arrived k es) ->
  (before ++ emitted ++ held c') `prefix_of` (arrived k es ++ arrives k (R n e))
  /\ (running (c_in c') = true -> before ++ emitted ++ held c' = arrived k es ++ arrives k (R n e)).
Proof.
  intros Hid Hc Hp emitted held before Hpre Heq.
  assert (Hother : e <> EInSend k -> emitted = []) by (intros; by eapply remote_emits_other).
  assert (Hsame : c_in c' = c_in c -> emitted = [] -> arrives k (R n e) = [] ->
    (before ++ emitted ++ held c') `prefix_of` (arrived k es ++ arrives k (R n e))
    /\ (running (c_in c') = true -> before ++ emitted ++ held c' = arrived k es ++ arrives k (R n e))).
  { intros E -> ->. unfold held. rewrite E, app_nil_r. done. }
  assert (Hstop : c_in c' = Stopped -> emitted = [] -> arrives k (R n e) = [] ->
    (before ++ emitted ++ held c') `prefix_of` (arrived k es ++ arrives k (R n e))
    /\ (running (c_in c') = true -> before ++ emitted ++ held c' = arrived k es ++ arrives k (R n e))).
  { intros E -> ->. unfold held. rewrite E, !app_nil_r. split; [by eapply prefix_app_l|done]. }
  destruct e as [| | | | | | |j data|j|j| | | | | | |j| | | | | | | | | | |]; try (apply Hsame; [done|by apply Hother|done]);
    cbn in Hp; destruct (decide (j = k)) as [->|Hj];
    try (apply Hsame; [done|apply Hother; congruence|cbn; by rewrite ?decide_False]);
    try (apply Hstop; [done|by apply Hother|done]).
  - destruct Hp as [Hi Hi']. rewrite Hother by done. unfold held in *. cbn. rewrite Hi, Hi', decide_True in * by done.
    rewrite app_nil_r in Heq. by rewrite (Heq eq_refl).
  - destruct Hp as [[data Hi] Hi']. unfold emitted, held in *. cbn in *.
    rewrite Hc, Hi in *. cbn. rewrite decide_True, Hi', !app_nil_r by done. done.
Qed.

Lemma has_conn_R n e s s' id : link_step s (R n e) = Some s' -> has_conn id s -> has_conn id s'.
Proof.
  intros (Hr & _)%link_R (k & c & Hc & Hid). destruct (conns_step _ _ _ Hr) as (l & El & Hl).
  destruct (Forall2_lookup_l _ _ _ _ _ Hl Hc) as (c' & Hc' & Hid' & _ & _).
  exists k, c'. rewrite El, lookup_app_l by (by eapply lookup_lt_Some). split; [done|congruence].
Qed.

Lemma pipe_down_data n e s s' id data es :
  down_inv es s -> link_step s (R n e) = Some s' -> Data id data ∈ pipe_down s' -> has_conn id s.
Proof.
  intros I Hs Hin. destruct (pipe_down_R _ _ _ _ Hs) as [[_ [lost Hp]]|[_ Hp]].
  { apply (down_conn _ _ I id data). rewrite Hp. set_solver. }
  rewrite Hp in Hin. apply elem_of_app in Hin as [Hin|Hin]; [by eapply down_conn|].
  destruct (writer_alive (remote s)); [|by apply elem_of_nil in Hin].
  apply remote_emits_data in Hin as (j & c & _ & Hc & Hid & _). by exists j, c.
Qed.

(** A new connection has sent nothing yet. *)
Lemma down_fresh px n es s s' id host port p :
  id_inv px es s -> down_inv es s -> link_step s (R n (ERead (OpenTcp id host port p))) = Some s' ->
  read_down id es = [] /\ datas id (pipe_down s') = [].
Proof.
  intros Hid I Hs. pose proof (pipe_up_R _ _ _ _ Hs) as Hp.
  assert (Hno : ~ has_conn id s).
  { intros (k & c & Hc & E). eapply open_fresh; [exact Hid| |exact Hc|exact E]. rewrite Hp. left. }
  split.
  - destruct (read_down id es) eqn:E; [done|]. destruct Hno. apply (down_read _ _ I). by rewrite E.
  - destruct (datas id (pipe_down s')) eqn:E; [done|]. destruct Hno.
    destruct (datas_nonempty id (pipe_down s')) as [d Hd]; [by rewrite E|]. by eapply pipe_down_data.
Qed.

Lemma down_inv_R px n e es s s' :
  id_inv px es s -> down_inv es s -> link_step s (R n e) = Some s' -> down_inv (es ++ [R n e]) s'.
Proof.
  intros Hid I Hs. pose proof (link_R _ _ _ _ Hs) as (Hr & Hl & _).
  destruct (conns_step _ _ _ Hr) as (l & El & Hsame).
  split.
  - intros id data Hin. eapply has_conn_R; [done|]. by eapply pipe_down_data.
  - intros id. rewrite read_down_snoc, app_nil_r. intros ?%(down_read _ _ I). by eapply has_conn_R.
  - intros id. rewrite local_events_snoc, read_down_snoc, !app_nil_r. apply (down_history _ _ I).
  - intros k c' Hc'. rewrite read_down_snoc, arrived_snoc, app_nil_r. cbn [reads_down]. pose proof Hc' as Hk.
    rewrite El in Hk. apply lookup_app_Some in Hk as [Hk|[Hlen Hk]].
    + destruct (Forall2_lookup_r _ _ _ _ _ Hsame Hk) as (c & Hc & -> & _ & _).
      pose proof (pump_step_ok _ _ _ _ _ _ Hr Hc Hc') as Hpump. destruct (down_arrived _ _ I k c Hc) as [Hpre Heq].
      unfold held_chunk in *. destruct (pipe_down_R _ _ _ _ Hs) as [[-> [lost Hp]]|[-> Hp]].
      * split; [|done]. rewrite Hp, datas_app, <-app_assoc, app_assoc in Hpre. rewrite app_nil_r.
        etrans; [by eapply prefix_app_l|]. by apply prefix_app_r.
      * rewrite Hp, datas_app. destruct (writer_alive (remote s)).
        -- rewrite app_assoc in Hpre. rewrite app_assoc in Heq.
           rewrite <-(app_assoc (datas _ (pipe_down s))), app_assoc.
           destruct (down_arrived_step px n e es s k c c' Hid Hc Hpump _ Hpre (Heq eq_refl)); auto.
        -- split; [|done]. cbn. rewrite !app_nil_r. rewrite app_nil_r in Hpre. by apply prefix_app_r.
    + assert (Hnone : conns (remote s) !! k = None).
      { apply lookup_ge_None. apply Forall2_length in Hsame. lia. }
      apply list_elem_of_lookup_2 in Hk. destruct e; try by apply elem_of_nil in Hk.
      destruct f as [id h p x| | | | |]; try by apply elem_of_nil in Hk. cbn [new_conn] in Hk.
      apply list_elem_of_singleton in Hk as ->. cbn [c_id].
      destruct (down_fresh _ _ _ _ _ _ _ _ _ Hid I Hs) as [-> ->]. rewrite (down_none _ _ I k Hnone).
      unfold held_chunk. cbn. destruct (writer_alive (remote s')); done.
  - intros k Hk. assert (Hnone : conns (remote s) !! k = None).
    { apply lookup_ge_None. apply lookup_ge_None in Hk. rewrite El, length_app in Hk.
      apply Forall2_length in Hsame. lia. }
    rewrite arrived_snoc, (down_none _ _ I k Hnone). destruct e as [| | | | | | |j data| | | | | | | | | | | | | | | | | | | |]; try done.
    cbn. case_decide; [|done]. subst j. cbn [Remote.step] in Hr. by rewrite Hnone in Hr.
Qed.

(** ** Reachable links *)

Section reachable.
Context (px : option string).

Definition link_reaches (es : list LinkEvent) (s : Link) : Prop :=
  runs link_step (Link_new px) es = Some s /\ allocs (local_events es) < u_max 32.

Lemma link_reaches_snoc es le s' :
  link_reaches (es ++ [le]) s' -> exists s, link_reaches es s /\ link_step s le = Some s'.
Proof.
  intros [(s & Hr & Hs)%runs_snoc Ha]. exists s. split; [split|]; [done| |done].
  rewrite local_events_snoc in Ha. destruct le; [|by rewrite app_nil_r in Ha].
  rewrite allocs_snoc in Ha. pose proof (alloc_nonneg e). lia.
Qed.

Lemma link_streams es s : link_reaches es s -> stream_inv (local_events es) (local s).
Proof. intros [[Hl _]%link_projects Ha]. by apply stream_inv_reaches. Qed.

Lemma link_inbound es s : link_reaches es s -> inbound_inv (remote_events es) (remote s).
Proof. intros [[_ Hr]%link_projects _]. apply inbound_inv_reaches. by exists px. Qed.

Lemma link_flows es s : link_reaches es s -> flow_inv s.
Proof.
  intros [Hr _]. eapply runs_invariant; [exact flow_inv_step| |exact Hr].
  split; try done. intros id m Hin. by apply elem_of_nil in Hin.
Qed.

Lemma link_ids es s : link_reaches es s -> id_inv px es s.
Proof.
  revert s. induction es as [|le es IH] using rev_ind; intros s' Hr'.
  - destruct Hr' as [[= <-] _]. split; try done.
    + constructor.
    + by intros id ?%elem_of_nil.
    + intros id h p x Hin. by apply elem_of_nil in Hin.
  - pose proof (link_streams _ _ Hr') as B'. destruct (link_reaches_snoc _ _ _ Hr') as (s & Hr & Hs).
    destruct le as [n e|n e]; [|by eapply id_inv_R; eauto].
    rewrite local_events_snoc in B'. eapply id_inv_L; eauto using link_streams.
Qed.

Lemma link_up es s : link_reaches es s -> up_inv es s.
Proof.
  revert s. induction es as [|le es IH] using rev_ind; intros s' Hr'.
  - destruct Hr' as [[= <-] _]. split; try done. intros id data Hin. by apply elem_of_nil in Hin.
  - destruct (link_reaches_snoc _ _ _ Hr') as (s & Hr & Hs). destruct le as [n e|n e].
    + by eapply up_inv_L; eauto.
    + eapply up_inv_R; eauto using link_ids, link_flows, link_inbound.
Qed.

Lemma link_down es s : link_reaches es s -> down_inv es s.
Proof.
  revert s. induction es as [|le es IH] using rev_ind; intros s' Hr'.
  - destruct Hr' as [[= <-] _]. split; try done. intros id data Hin. by apply elem_of_nil in Hin.
  - destruct (link_reaches_snoc _ _ _ Hr') as (s & Hr & Hs).
    destruct le as [n e|n e]; [eapply down_inv_L|eapply down_inv_R]; eauto using link_ids.
Qed.

(** What a target was sent, and what waits for it, came from the flow. *)
Lemma link_total es s k c :
  link_reaches es s -> conns (remote s) !! k = Some c ->
  total k c (remote s) `prefix_of` concat (read_up (c_id c) es).
Proof.
  intros H Hc. rewrite <-(up_history _ _ (link_up _ _ H) k c Hc).
  by apply (Remote.inv_prefix _ _ (link_inbound _ _ H)).
Qed.
End reachable.

Lemma concat_prefix {A} (l1 l2 : list (list A)) : l1 `prefix_of` l2 -> concat l1 `prefix_of` concat l2.
Proof. intros [l ->]. rewrite concat_app. by apply prefix_app_r. Qed.

(** ** Properties *)

(** C1. A flow is a tunnel to the target it was opened for.  In any
    interleaving of the tasks of both ends, of timeouts, failures and
    shutdown, a flow that [open_tcp] returned has exactly one connection at
    the helper, it was registered, and it goes to the host, port and egress
    proxy of the call (the helper's default proxy when the call named none).
    What the target was sent is a prefix of the bytes the flow's sender was
    given, and what the flow received is a prefix of what arrived from the
    target: nothing is lost in the middle, duplicated, reordered or crossed
    between streams, in either direction. *)
Theorem link_tunnel (px : option string) (es : list LinkEvent) (s : Link) (id : Z) :
  runs link_step (Link_new px) es = Some s -> allocs (local_events es) < u_max 32 -> id ∈ flows s ->
  exists k c host port p,
    conns (remote s) !! k = Some c /\ c_id c = id /\ registered c = true
    /\ (forall k' c', conns (remote s) !! k' = Some c' -> c_id c' = id -> k' = k)
    /\ EOpen id host port p ∈ local_events es /\ c_target c = egress_default px (host, port, p)
    /\ c_written c `prefix_of` concat (sent id es)
    /\ received id (local_events es) `prefix_of` arrived k es.
Proof.
  intros Hr Ha Hid. pose proof (conj Hr Ha : link_reaches px es s) as H.
  pose proof (link_ids _ _ _ H) as I. pose proof (link_down _ _ _ H) as D.
  destruct (flow_open _ (link_flows _ _ _ H) id Hid) as (k & c & Hc & <- & Hreg).
  destruct (id_conn _ _ _ I k c Hc) as (host & port & p & Ho & Ht). exists k, c, host, port, p. split_and!; try done.
  - intros k' c' Hc' E. by eapply conn_unique.
  - transitivity (total k c (remote s)); [by apply prefix_app_r|]. etrans; [by apply (link_total px)|].
    apply concat_prefix. etrans; [|apply (up_sent _ _ (link_up _ _ _ H))]. by apply prefix_app_r.
  - etrans; [|apply (down_arrived _ _ D k c Hc)]. rewrite <-(down_history _ _ D).
    etrans; [|by apply prefix_app_r].
    etrans; [|apply (Bridge.inv_prefix _ _ (link_streams _ _ _ H))]. by apply prefix_app_r.
Qed.

(** A proxied request and its response, with a second flow opened and used in
    between. *)
Definition tunnel_events : list LinkEvent :=
  [L 0 (EOpen 1 "example.com" 80 None); L 0 (EOpenStream 1); L 0 (EOpenSend 1);
   L 0 (EOpen 2 "b" 81 (Some "socks5h://p:1080"%string)); L 0 (EOpenStream 2);
   L 0 Bridge.ETake; L 0 (Bridge.EWrite 0); L 0 (EOpenSend 2); L 0 Bridge.ETake; L 0 (Bridge.EWrite 0);
   R 0 (ERead (OpenTcp 1 "example.com" 80 None));
   R 0 (ERead (OpenTcp 2 "b" 81 (Some "socks5h://p:1080"%string)));
   R 0 (EConnected 1); R 0 (EConnected 0); R 0 (EResult 0); R 0 (EResult 1); R 0 ETake; R 0 ETake; R 0 EWrite;
   L 0 (Bridge.ERead (OpenTcpResult 1 true EmptyString)); L 0 (EOpenDone 1 (Ok tt));
   L 0 (ESendData 1 [x47; x45]); L 0 (Bridge.ERead (OpenTcpResult 2 true EmptyString));
   L 0 (EOpenDone 2 (Ok tt)); L 0 (ESendData 2 [x01]); L 0 (ESendData 1 [x54]);
   L 0 Bridge.ETake; L 0 Bridge.ETake; L 0 (Bridge.EWrite 2);
   R 0 (ERead (Data 1 [x47; x45])); R 0 (EDeliver Sent); R 0 (EOutRecv 0); R 0 (ERead (Data 2 [x01]));
   R 0 (EDeliver Sent); R 0 (EOutWrite 0); R 0 (EInRead 0 [x4f; x4b]); R 0 (EInSend 0);
   R 0 (EInRead 1 [x02]); R 0 ETake; R 0 EWrite; R 0 (EInRead 0 [x0a]);
   L 0 (Bridge.ERead (Data 1 [x4f; x4b])); L 0 (Bridge.EDeliver Sent); L 0 (ERecvTcp 1 [x4f; x4b])].

Definition tunnel_state : Link :=
  default (Link_new None) (runs link_step (Link_new (Some "http://default:3128"%string)) tunnel_events).

Lemma link_tunnel_witness :
  sent 1 tunnel_events = [[x47; x45]; [x54]]
  /\ received 1 (local_events tunnel_events) = [[x4f; x4b]]
  /\ exists k c host port p,
    conns (remote tunnel_state) !! k = Some c /\ c_id c = 1 /\ registered c = true
    /\ (forall k' c', conns (remote tunnel_state) !! k' = Some c' -> c_id c' = 1 -> k' = k)
    /\ EOpen 1 host port p ∈ local_events tunnel_events
    /\ c_target c = egress_default (Some "http://default:3128"%string) (host, port, p)
    /\ c_written c `prefix_of` concat (sent 1 tunnel_events)
    /\ received 1 (local_events tunnel_events) `prefix_of` arrived k tunnel_events.
Proof.
  split; [vm_compute; reflexivity|]. split; [vm_compute; reflexivity|].
  apply (link_tunnel (Some "http://default:3128"%string) tunnel_events tunnel_state 1).
  - vm_compute. reflexivity.
  - vm_compute. reflexivity.
  - apply (bool_decide_unpack (1 ∈ flows tunnel_state)). vm_compute. reflexivity.
Defined.

(** C2. Nothing a flow sends or receives gets lost while it is alive.  As long
    as the bridge's writer runs and the helper has the stream registered with
    its writing side running, the bytes written to the target, those waiting
    at the helper and those on the way make up exactly what the sender was
    given.  As long as the helper's writer runs, the bridge has the stream
    registered and the connection is being read, what the flow received, what
    waits in its channel, what is on the way and what the connection holds
    make up exactly what arrived from the target. *)
Theorem link_lossless (px : option string) (es : list LinkEvent) (s : Link) (k : nat) (c : Conn) :
  runs link_step (Link_new px) es = Some s -> allocs (local_events es) < u_max 32 ->
  conns (remote s) !! k = Some c ->
  (Bridge.writer_alive (local s) = true -> tcp_streams (remote s) !! c_id c = Some k ->
   running (c_out c) = true ->
   c_written c ++ waiting c (flight k (remote s)) ++ concat (datas (c_id c) (pipe_up s))
   = concat (sent (c_id c) es))
  /\ (writer_alive (remote s) = true -> c_id c ∈ Bridge.tcp_streams (local s) ->
      running (c_in c) = true ->
      received (c_id c) (local_events es) ++ chan_queue (c_id c) (local s)
        ++ datas (c_id c) (pipe_down s) ++ held_chunk c s = arrived k es).
Proof.
  intros Hr Ha Hc. pose proof (conj Hr Ha : link_reaches px es s) as H. split.
  - intros Hw Hs Hrun. pose proof (link_up _ _ _ H) as U.
    rewrite <-(proj2 (up_sent _ _ U (c_id c)) Hw), concat_app, <-(up_history _ _ U k c Hc), app_assoc. f_equal.
    destruct (Remote.inv_live _ _ (link_inbound _ _ _ H) _ _ Hs) as (c0 & Hc0 & _ & _ & Ht).
    replace c0 with c in * by congruence. by apply Ht.
  - intros Hw Hs Hrun. pose proof (link_down _ _ _ H) as D.
    rewrite <-(proj2 (down_arrived _ _ D k c Hc) Hw Hrun), <-(down_history _ _ D (c_id c)), app_assoc. f_equal.
    by apply (Bridge.inv_live _ _ (link_streams _ _ _ H)).
Qed.

Lemma link_lossless_witness :
  exists c, conns (remote tunnel_state) !! 0%nat = Some c
  /\ c_written c ++ waiting c (flight 0 (remote tunnel_state)) ++ concat (datas (c_id c) (pipe_up tunnel_state))
     = concat (sent (c_id c) tunnel_events)
  /\ received (c_id c) (local_events tunnel_events) ++ chan_queue (c_id c) (local tunnel_state)
       ++ datas (c_id c) (pipe_down tunnel_state) ++ held_chunk c tunnel_state = arrived 0 tunnel_events.
Proof.
  exists (default (MkConn 0 (EmptyString, 0, None) Done [] Idle Idle []) (conns (remote tunnel_state) !! 0%nat)).
  split; [vm_compute; reflexivity|]. split.
  - apply (link_lossless (Some "http://default:3128"%string) tunnel_events tunnel_state 0); vm_compute; reflexivity.
  - apply (link_lossless (Some "http://default:3128"%string) tunnel_events tunnel_state 0).
    + vm_compute. reflexivity.
    + vm_compute. reflexivity.
    + vm_compute. reflexivity.
    + vm_compute. reflexivity.
    + apply (bool_decide_unpack (1 ∈ Bridge.tcp_streams (local tunnel_state))). vm_compute. reflexivity.
    + vm_compute. reflexivity.
Defined.
