(* ===== verification/Frontend.v ===== *)
(** * The listener's side of a client

    [crates/ssh-proxy/src/socks.rs] and [socks/tunnel.rs]: what happens to a
    connection the listener accepted.  The first byte decides between SOCKS5
    and HTTP; the protocol's request names a target; the tunnel is opened
    through one of three backends (a link, an SSH channel, a QUIC stream); the
    client is told, and the relay takes over.  A route with a fixed target
    opens the tunnel at once.  A SOCKS5 UDP association forwards datagrams
    until its control connection ends.

    A handler runs on a [World]: the client's connection, the counters of the
    backend's state, and a trace of what was opened and relayed.  What a
    backend answers is part of the environment [Env]; [Bridge] and [Link]
    model the link behind the first one. *)
From S2P Require Import Prelude RustStr IpAddr Stream StreamHeader Protocol Socks5 Egress Http Mux.

(** ** Peeking *)

(** [TcpStream::peek] with a buffer of one byte: the bytes it saw. *)
Class AsyncPeek (R : Type) := peek : R -> result io_error (list byte).

Class AsyncPeekLaws (R : Type) `{AsyncReadLaws R} `{AsyncPeek R} := {
  peek_ok r b l : rest r = b :: l -> peek r = Ok [b];
  peek_end r : rest r = [] -> peek r = match fin r with AtEof => Ok [] | AtFailure => Err IoOther end;
}.

#[global] Instance segments_peek : AsyncPeek Segments := fun s =>
  match seg_bytes s, seg_end s with
  | b :: _, _ => Ok [b]
  | [], AtEof => Ok []
  | [], AtFailure => Err IoOther
  end.

#[global] Instance segments_peek_laws : AsyncPeekLaws Segments.
Proof. split; intros r; unfold peek, segments_peek; cbn; [intros b l ->|intros ->]; by destruct (seg_end r). Qed.

(** ** Backends and their counters *)

Inductive TunnelBackend := Spx | SshNative | QuicNative (k : TargetKind).
Inductive TunnelResponse := RespondNone | SocksSuccess | RespondHttpConnect.
Inductive RelayMode := Raw | HttpForwardMode.

(** The counters of [controller::SharedState], [ssh_native::State] and
    [quic_native::State] that a handler touches.  [worker_streams] are the
    open streams of each bridge of the pool. *)
Record TcpCounters := {
  active_tcp : Z;
  total_tcp : Z;
  tcp_open_attempts : Z;
  tcp_open_successes : Z;
  tcp_open_failures : Z;
  last_tcp_open_latency_ms : Z;
  last_tcp_open_error : option string;
  worker_streams : list Z;
}.

(** The link's connection counters are 32 bits wide, the others 64. *)
Definition tcp_width (b : TunnelBackend) : Z := match b with Spx => 32 | _ => 64 end.

Definition record_tcp_open (b : TunnelBackend) (c : TcpCounters) : TcpCounters :=
  Build_TcpCounters (wrap_u (tcp_width b) (active_tcp c + 1)) (wrap_u (tcp_width b) (total_tcp c + 1))
    (tcp_open_attempts c) (tcp_open_successes c) (tcp_open_failures c) (last_tcp_open_latency_ms c)
    (last_tcp_open_error c) (worker_streams c).

(** [checked_sub], except that [ssh_native] uses [fetch_sub]. *)
Definition record_tcp_close (b : TunnelBackend) (c : TcpCounters) : TcpCounters :=
  let active :=
    match b with
    | SshNative => wrap_u 64 (active_tcp c - 1)
    | _ => if active_tcp c =? 0 then 0 else active_tcp c - 1
    end in
  Build_TcpCounters active (total_tcp c)
    (tcp_open_attempts c) (tcp_open_successes c) (tcp_open_failures c) (last_tcp_open_latency_ms c)
    (last_tcp_open_error c) (worker_streams c).

Definition record_tcp_open_attempt (c : TcpCounters) : TcpCounters :=
  Build_TcpCounters (active_tcp c) (total_tcp c) (wrap_u 64 (tcp_open_attempts c + 1))
    (tcp_open_successes c) (tcp_open_failures c) (last_tcp_open_latency_ms c) (last_tcp_open_error c)
    (worker_streams c).

Definition record_tcp_open_success (c : TcpCounters) : TcpCounters :=
  Build_TcpCounters (active_tcp c) (total_tcp c) (tcp_open_attempts c)
    (wrap_u 64 (tcp_open_successes c + 1)) (tcp_open_failures c) (last_tcp_open_latency_ms c) None
    (worker_streams c).

Definition record_tcp_open_failure (e : string) (c : TcpCounters) : TcpCounters :=
  Build_TcpCounters (active_tcp c) (total_tcp c) (tcp_open_attempts c) (tcp_open_successes c)
    (wrap_u 64 (tcp_open_failures c + 1)) (last_tcp_open_latency_ms c) (Some e) (worker_streams c).

Definition record_tcp_open_latency (ms : Z) (c : TcpCounters) : TcpCounters :=
  Build_TcpCounters (active_tcp c) (total_tcp c) (tcp_open_attempts c) (tcp_open_successes c)
    (tcp_open_failures c) ms (last_tcp_open_error c) (worker_streams c).

Definition set_workers (ws : list Z) (c : TcpCounters) : TcpCounters :=
  Build_TcpCounters (active_tcp c) (total_tcp c) (tcp_open_attempts c) (tcp_open_successes c)
    (tcp_open_failures c) (last_tcp_open_latency_ms c) (last_tcp_open_error c) ws.

Definition record_worker_tcp_open (slot : nat) (c : TcpCounters) : TcpCounters :=
  set_workers (alter (fun n => wrap_u 64 (n + 1)) slot (worker_streams c)) c.

Definition record_worker_tcp_close (slot : nat) (c : TcpCounters) : TcpCounters :=
  set_workers (alter (fun n => if n =? 0 then 0 else n - 1) slot (worker_streams c)) c.

(** ** The world of a handler *)

Inductive ProxyError :=
| ClientIo (e : io_error)
| SocksFailed (e : SocksError)
| HttpFailed (e : HttpError)
| OpenFailed (e : string)
| RelayFailed (e : string)
| BindUnsupported
| OnlyTcpConnect
| UdpSocketFailed.

(** What a handler did with the backends.  The relays of the SSH and QUIC
    backends do not look at the mode. *)
Inductive Action (Flow : Type) :=
| Opened (f : Flow) (host : string) (port : Z) (egress_proxy : option string)
| RelayedSpx (f : Flow) (initial : list byte) (mode : RelayMode)
| RelayedCopy (f : Flow) (initial : list byte)
| Associated (udp : SocketAddr).
Arguments Opened {Flow}.
Arguments RelayedSpx {Flow}.
Arguments RelayedCopy {Flow}.
Arguments Associated {Flow}.

Record Env (Flow : Type) := {
  egress_proxy : option string;
  bridge : result string nat;                                     (* [state.bridge()]: a slot *)
  link_open_tcp : nat -> string -> Z -> option string -> result string Flow;
  ssh_open_stream : string -> Z -> result string Flow;
  quic_open_stream : StreamTarget -> option string -> result string Flow;
  elapsed_ms : Z;
  relay_result : result string unit;
  local_ip : result io_error IpAddr;                              (* [control.local_addr()] *)
  udp_bind : SocketAddr -> result io_error SocketAddr;
}.
Arguments egress_proxy {Flow}.
Arguments bridge {Flow}.
Arguments link_open_tcp {Flow}.
Arguments ssh_open_stream {Flow}.
Arguments quic_open_stream {Flow}.
Arguments elapsed_ms {Flow}.
Arguments relay_result {Flow}.
Arguments local_ip {Flow}.
Arguments udp_bind {Flow}.

Record World (R W Flow : Type) := MkWorld {
  conn : TcpStream R W;
  counters : TcpCounters;
  trace : list (Action Flow);
}.
Arguments MkWorld {R W Flow}.
Arguments conn {R W Flow}.
Arguments counters {R W Flow}.
Arguments trace {R W Flow}.

Section handlers.
Context {R W Flow : Type} `{AsyncRead R} `{AsyncPeek R} `{AsyncWrite W}.
Abbreviation handler := (sr (World R W Flow) ProxyError).

Definition on_conn {E A} (g : E -> ProxyError) (m : sr (TcpStream R W) E A) : handler A := fun w =>
  let '(r, s) := m (conn w) in (map_err g r, MkWorld s (counters w) (trace w)).
Definition count (f : TcpCounters -> TcpCounters) : handler unit := fun w =>
  (Ok tt, MkWorld (conn w) (f (counters w)) (trace w)).
Definition act (a : Action Flow) : handler unit := fun w =>
  (Ok tt, MkWorld (conn w) (counters w) (trace w ++ [a])).

(** The guard that is dropped when the function returns, however it does. *)
Definition conn_guard (b : TunnelBackend) (m : handler unit) : handler unit := fun w =>
  let '(r, w) := m w in (r, MkWorld (conn w) (record_tcp_close b (counters w)) (trace w)).

Definition unspecified : SocketAddr := {| sa_ip := V4 [x00; x00; x00; x00]; sa_port := 0 |}.

Definition established : list byte :=
  str_bytes "HTTP/1.1 200 Connection Established" ++ crlf ++ crlf.

Definition write_tunnel_open_error (response : TunnelResponse) : handler unit :=
  match response with
  | SocksSuccess => on_conn SocksFailed (reply HostUnreachable unspecified)
  | RespondHttpConnect | RespondNone => on_conn HttpFailed (write_http_error 502 "Bad Gateway")
  end.

(** The [match response] of the three functions. *)
Definition respond (response : TunnelResponse) : handler unit :=
  match response with
  | SocksSuccess => on_conn SocksFailed (reply Succeeded unspecified)
  | RespondHttpConnect => on_conn ClientIo (send (write_all established))
  | RespondNone => mret tt
  end.

(** The branch of an open that failed. *)
Definition open_failed (env : Env Flow) (response : TunnelResponse) (e : string) : handler unit :=
  _ ← count (record_tcp_open_latency (elapsed_ms env));
  _ ← count (record_tcp_open_failure e);
  _ ← write_tunnel_open_error response;
  sr_fail (OpenFailed e).

(** The start of the branch of an open that succeeded. *)
Definition open_succeeded (env : Env Flow) (f : Flow) (host : string) (port : Z)
    (egress_proxy : option string) : handler unit :=
  _ ← act (Opened f host port egress_proxy);
  _ ← count (record_tcp_open_latency (elapsed_ms env));
  count record_tcp_open_success.

(** [socks::open_tunnel]. *)
Definition open_tunnel_spx (env : Env Flow) (host : string) (port : Z) (response : TunnelResponse)
    (initial_remote : list byte) (mode : RelayMode) : handler unit :=
  _ ← count (record_tcp_open Spx);
  conn_guard Spx (
    _ ← count record_tcp_open_attempt;
    match bridge env with
    | Err e => open_failed env response e
    | Ok worker_slot =>
      match link_open_tcp env worker_slot host port (egress_proxy env) with
      | Err e => open_failed env response e
      | Ok remote_flow =>
        _ ← open_succeeded env remote_flow host port (egress_proxy env);
        _ ← count (record_worker_tcp_open worker_slot);
        _ ← respond response;
        _ ← act (RelayedSpx remote_flow initial_remote mode);
        _ ← count (record_worker_tcp_close worker_slot);
        sr_lift (map_err RelayFailed (relay_result env))
      end
    end).

Definition open_tunnel_ssh_native (env : Env Flow) (host : string) (port : Z)
    (response : TunnelResponse) (initial_remote : list byte) (_mode : RelayMode) : handler unit :=
  _ ← count (record_tcp_open SshNative);
  conn_guard SshNative (
    _ ← count record_tcp_open_attempt;
    match ssh_open_stream env host port with
    | Err e => open_failed env response e
    | Ok remote =>
      _ ← open_succeeded env remote host port None;
      _ ← respond response;
      _ ← act (RelayedCopy remote initial_remote);
      sr_lift (map_err RelayFailed (relay_result env))
    end).

Definition open_tunnel_quic_native (env : Env Flow) (host : string) (port : Z) (k : TargetKind)
    (response : TunnelResponse) (initial_remote : list byte) (_mode : RelayMode) : handler unit :=
  _ ← count (record_tcp_open (QuicNative k));
  conn_guard (QuicNative k) (
    _ ← count record_tcp_open_attempt;
    let target := {| StreamHeader.kind := k; StreamHeader.host := host; StreamHeader.port := port |} in
    match quic_open_stream env target (egress_proxy env) with
    | Err e => open_failed env response e
    | Ok remote =>
      _ ← open_succeeded env remote host port (egress_proxy env);
      _ ← respond response;
      _ ← act (RelayedCopy remote initial_remote);
      sr_lift (map_err RelayFailed (relay_result env))
    end).

(** [tunnel::open_tunnel]. *)
Definition open_tunnel (env : Env Flow) (host : string) (port : Z) (backend : TunnelBackend)
    (response : TunnelResponse) (initial_remote : list byte) (mode : RelayMode) : handler unit :=
  match backend with
  | Spx => open_tunnel_spx env host port response initial_remote mode
  | SshNative => open_tunnel_ssh_native env host port response initial_remote mode
  | QuicNative k => open_tunnel_quic_native env host port k response initial_remote mode
  end.

Definition handle_http_proxy (env : Env Flow) (backend : TunnelBackend) : handler unit := fun w =>
  match on_conn HttpFailed read_http_request w with
  | (Err e, w) =>
    let '(_, w) := on_conn HttpFailed (write_http_error 400 "Bad Request") w in (Err e, w)
  | (Ok (HttpConnect host port), w) =>
    open_tunnel env host port backend RespondHttpConnect [] Raw w
  | (Ok (HttpForward host port request), w) =>
    open_tunnel env host port backend RespondNone request HttpForwardMode w
  end.

(** [stream.peek(&mut first)] into a zeroed buffer. *)
Definition first_byte : handler Z := fun w =>
  match peek (inbound (conn w)) with
  | Ok (b :: _) => (Ok (byte_val b), w)
  | Ok [] => (Ok 0, w)
  | Err e => (Err (ClientIo e), w)
  end.

Definition handle_connect (env : Env Flow) (request : Request) (backend : TunnelBackend) : handler unit :=
  open_tunnel env (req_host request) (req_port request) backend SocksSuccess [] Raw.

Definition is_unspecified (ip : IpAddr) : bool :=
  match ip with V4 o | V6 o => forallb (fun b => byte_val b =? 0) o end.

(** [handle_udp_associate] up to the start of the forwarding tasks; the
    association closes when the control connection ends. *)
Definition handle_udp_associate (env : Env Flow) : handler unit :=
  match bridge env with
  | Err e => sr_fail (OpenFailed e)
  | Ok _ =>
    ip ← sr_lift (map_err ClientIo (local_ip env));
    let bind_ip := if is_unspecified ip then V4 [x7f; x00; x00; x01] else ip in
    udp_addr ← sr_lift (map_err (fun _ => UdpSocketFailed) (udp_bind env {| sa_ip := bind_ip; sa_port := 0 |}));
    _ ← on_conn SocksFailed (reply Succeeded udp_addr);
    act (Associated udp_addr)
  end.

Definition handle_client (env : Env Flow) : handler unit :=
  first ← first_byte;
  if negb (first =? SOCKS_VERSION) then handle_http_proxy env Spx
  else
    _ ← on_conn SocksFailed negotiate_no_auth;
    request ← on_conn SocksFailed read_request;
    match command request with
    | Connect => handle_connect env request Spx
    | UdpAssociate => handle_udp_associate env
    | Bind =>
      _ ← on_conn SocksFailed (reply CommandNotSupported unspecified);
      sr_fail BindUnsupported
    end.

(** [handle_client_ssh_native] and [handle_client_quic_native], which only
    take TCP connections. *)
Definition handle_client_native (env : Env Flow) (backend : TunnelBackend) : handler unit :=
  first ← first_byte;
  if negb (first =? SOCKS_VERSION) then handle_http_proxy env backend
  else
    _ ← on_conn SocksFailed negotiate_no_auth;
    request ← on_conn SocksFailed read_request;
    match command request with
    | Connect => open_tunnel env (req_host request) (req_port request) backend SocksSuccess [] Raw
    | UdpAssociate | Bind =>
      _ ← on_conn SocksFailed (reply CommandNotSupported unspecified);
      sr_fail OnlyTcpConnect
    end.
Definition handle_client_ssh_native (env : Env Flow) : handler unit := handle_client_native env SshNative.
Definition handle_client_quic_native (env : Env Flow) : handler unit :=
  handle_client_native env (QuicNative TcpConnect).

Definition handle_fixed_target (env : Env Flow) (host : string) (port : Z) : handler unit :=
  open_tunnel env host port Spx RespondNone [] Raw.
Definition handle_fixed_target_ssh_native (env : Env Flow) (host : string) (port : Z) : handler unit :=
  open_tunnel env host port SshNative RespondNone [] Raw.
Definition handle_fixed_target_quic_native (env : Env Flow) (host : string) (port : Z) : handler unit :=
  open_tunnel env host port (QuicNative FixedTcp) RespondNone [] Raw.
End handlers.

(** ** The forwarding tasks of a UDP association *)

Record UdpRelay := MkUdpRelay {
  client_addr : option SocketAddr;
  udp_to_remote : bool;                        (* whether the tasks run *)
  remote_to_udp : bool;
  to_link : list UdpDatagram;                  (* given to the link *)
  to_client : list (list byte * SocketAddr);   (* sent from the socket *)
}.

Definition udp_start (peer : SocketAddr) : UdpRelay := MkUdpRelay (Some peer) true true [] [].

Inductive UdpEvent :=
| FromUdp (from : SocketAddr) (bs : list byte) (sent : bool)   (* a datagram arrives; whether the link takes it *)
| FromUdpFailed
| FromLink (dg : UdpDatagram) (sent : bool)
| FromLinkEnded.

Definition datagram_of (p : Socks5.UdpPacket) : UdpDatagram :=
  {| dg_host := udp_host p; dg_port := udp_port p; dg_data := udp_data p |}.

(** A task that has ended takes no more events. *)
Definition udp_step (s : UdpRelay) (e : UdpEvent) : option UdpRelay :=
  match e with
  | FromUdp from bs sent =>
    when (udp_to_remote s)
      match parse_udp_packet bs with
      | Ok p =>
        if sent
        then MkUdpRelay (Some from) true (remote_to_udp s) (to_link s ++ [datagram_of p]) (to_client s)
        else MkUdpRelay (Some from) false (remote_to_udp s) (to_link s) (to_client s)
      | Err _ => MkUdpRelay (Some from) false (remote_to_udp s) (to_link s) (to_client s)
      end
  | FromUdpFailed =>
    when (udp_to_remote s) (MkUdpRelay (client_addr s) false (remote_to_udp s) (to_link s) (to_client s))
  | FromLink dg sent =>
    when (remote_to_udp s)
      match build_udp_packet (dg_host dg) (dg_port dg) (dg_data dg), client_addr s with
      | Ok response, Some addr =>
        if sent
        then MkUdpRelay (client_addr s) (udp_to_remote s) true (to_link s) (to_client s ++ [(response, addr)])
        else MkUdpRelay (client_addr s) (udp_to_remote s) false (to_link s) (to_client s)
      | Ok _, None => s
      | Err _, _ => MkUdpRelay (client_addr s) (udp_to_remote s) false (to_link s) (to_client s)
      end
  | FromLinkEnded =>
    when (remote_to_udp s) (MkUdpRelay (client_addr s) (udp_to_remote s) false (to_link s) (to_client s))
  end.

(** What a datagram from the client becomes. *)
Definition forwarded_datagram (e : UdpEvent) : option UdpDatagram :=
  match e with
  | FromUdp _ bs true => datagram_of <$> result_ok (parse_udp_packet bs)
  | _ => None
  end.

Definition is_from_udp (e : UdpEvent) : bool := match e with FromUdp _ _ _ => true | _ => false end.

(** ** What a tunnel does *)

Section specs.
Context {R W Flow : Type} `{AsyncReadLaws R} `{AsyncPeek R} `{!AsyncPeekLaws R} `{AsyncWriteLaws W}.
Abbreviation world := (World R W Flow).
Implicit Types (w : world) (env : Env Flow).

Definition open_result env (backend : TunnelBackend) (host : string) (port : Z) : result string Flow :=
  match backend with
  | Spx => slot ← bridge env; link_open_tcp env slot host port (egress_proxy env)
  | SshNative => ssh_open_stream env host port
  | QuicNative k => quic_open_stream env {| StreamHeader.kind := k; StreamHeader.host := host;
                                            StreamHeader.port := port |} (egress_proxy env)
  end.

Definition open_egress env (backend : TunnelBackend) : option string :=
  match backend with SshNative => None | _ => egress_proxy env end.

Definition relayed (backend : TunnelBackend) (f : Flow) (initial : list byte) (mode : RelayMode) : Action Flow :=
  match backend with Spx => RelayedSpx f initial mode | _ => RelayedCopy f initial end.

(** The bytes of [write_http_error]. *)
Definition http_error_bytes (status : Z) (reason : string) : list byte :=
  let body := display_uint status +:+ " " +:+ reason +:+ str_of_bytes [x0a] in
  let nl := str_of_bytes crlf in
  str_bytes ("HTTP/1.1 " +:+ display_uint status +:+ " " +:+ reason +:+ nl +:+ "content-length: "
    +:+ display_uint (str_len body) +:+ nl +:+ "connection: close" +:+ nl +:+ nl +:+ body).

(** What the client is told. *)
Definition success_bytes (response : TunnelResponse) : list byte :=
  match response with
  | SocksSuccess => reply_bytes Succeeded unspecified
  | RespondHttpConnect => established
  | RespondNone => []
  end.
Definition failure_bytes (response : TunnelResponse) : list byte :=
  match response with
  | SocksSuccess => reply_bytes HostUnreachable unspecified
  | _ => http_error_bytes 502 "Bad Gateway"
  end.

(** The counters have room for one more connection. *)
Definition counters_ok (backend : TunnelBackend) (c : TcpCounters) : Prop :=
  0 <= active_tcp c < u_max (tcp_width backend) /\ Forall (fun n => 0 <= n < u_max 64) (worker_streams c).

(** The effect of an opened and closed tunnel on them. *)
Definition counted_open (opened : result string Flow) (c c' : TcpCounters) : Prop :=
  active_tcp c' = active_tcp c /\ worker_streams c' = worker_streams c
  /\ tcp_open_attempts c' = wrap_u 64 (tcp_open_attempts c + 1)
  /\ match opened with
     | Ok _ => tcp_open_successes c' = wrap_u 64 (tcp_open_successes c + 1)
               /\ tcp_open_failures c' = tcp_open_failures c /\ last_tcp_open_error c' = None
     | Err e => tcp_open_failures c' = wrap_u 64 (tcp_open_failures c + 1)
                /\ tcp_open_successes c' = tcp_open_successes c /\ last_tcp_open_error c' = Some e
     end.

(** A client that asked for [host] and [port] is served: the target is opened
    once, the client is told, and the relay gets the rest of the connection. *)
Definition served env (backend : TunnelBackend) (host : string) (port : Z) (response : TunnelResponse)
    (initial : list byte) (mode : RelayMode) w (r : result ProxyError unit) w' : Prop :=
  rest (inbound (conn w')) = rest (inbound (conn w)) /\ fin (inbound (conn w')) = fin (inbound (conn w))
  /\ counted_open (open_result env backend host port) (counters w) (counters w')
  /\ match open_result env backend host port with
     | Ok f =>
       r = map_err RelayFailed (relay_result env)
       /\ trace w' = trace w ++ [Opened f host port (open_egress env backend); relayed backend f initial mode]
       /\ written (outbound (conn w')) = written (outbound (conn w)) ++ success_bytes response
     | Err e =>
       r = Err (OpenFailed e) /\ trace w' = trace w
       /\ written (outbound (conn w')) = written (outbound (conn w)) ++ failure_bytes response
     end.

Lemma count_bind {A} f (k : unit -> sr world ProxyError A) w :
  (count f ≫= k) w = k tt (MkWorld (conn w) (f (counters w)) (trace w)).
Proof. done. Qed.
Lemma act_bind {A} a (k : unit -> sr world ProxyError A) w :
  (act a ≫= k) w = k tt (MkWorld (conn w) (counters w) (trace w ++ [a])).
Proof. done. Qed.

Lemma open_succeeded_bind {A} env f host port egress (k : unit -> sr world ProxyError A) w :
  (open_succeeded env f host port egress ≫= k) w
  = k tt (MkWorld (conn w) (record_tcp_open_success (record_tcp_open_latency (elapsed_ms env) (counters w)))
            (trace w ++ [Opened f host port egress])).
Proof. done. Qed.

Lemma on_conn_exchange {E A} (g : E -> ProxyError) (m : sr (TcpStream R W) E A) x v o y w :
  exchange m x v o -> rest (inbound (conn w)) = x ++ y -> live (outbound (conn w)) ->
  exists s', on_conn g m w = (map_err g v, MkWorld s' (counters w) (trace w))
    /\ rest (inbound s') = y /\ fin (inbound s') = fin (inbound (conn w))
    /\ written (outbound s') = written (outbound (conn w)) ++ o /\ live (outbound s').
Proof.
  intros Hm Hr Hl. destruct (Hm (conn w) y Hr Hl) as (s' & Hs & ?). exists s'. unfold on_conn. by rewrite Hs.
Qed.

(** A handler that only writes. *)
Definition tells (m : sr world ProxyError unit) (o : list byte) : Prop :=
  forall w, live (outbound (conn w)) ->
  exists s', m w = (Ok tt, MkWorld s' (counters w) (trace w))
    /\ rest (inbound s') = rest (inbound (conn w)) /\ fin (inbound s') = fin (inbound (conn w))
    /\ written (outbound s') = written (outbound (conn w)) ++ o /\ live (outbound s').

Lemma tells_on_conn {E} (g : E -> ProxyError) (m : sr (TcpStream R W) E unit) o :
  exchange m [] (Ok tt) o -> tells (on_conn g m) o.
Proof. intros Hm w Hl. exact (on_conn_exchange g m [] (Ok tt) o _ w Hm eq_refl Hl). Qed.

Lemma write_http_error_exchange status reason :
  exchange (R := R) (W := W) (write_http_error status reason) [] (Ok tt) (http_error_bytes status reason).
Proof. apply (exchange_map_err ResponseIo _ _ (Ok tt)), exchange_write_all. Qed.

Lemma tells_respond response : tells (respond response) (success_bytes response).
Proof.
  destruct response; cbn.
  - intros w Hl. exists (conn w). rewrite app_nil_r. by destruct w.
  - apply tells_on_conn, reply_exchange.
  - apply tells_on_conn, exchange_write_all.
Qed.

Lemma tells_open_error response : tells (write_tunnel_open_error response) (failure_bytes response).
Proof.
  destruct response; cbn; apply tells_on_conn; [apply write_http_error_exchange|apply reply_exchange|
    apply write_http_error_exchange].
Qed.

Lemma active_restored b c c' :
  0 <= active_tcp c < u_max (tcp_width b) -> active_tcp c' = wrap_u (tcp_width b) (active_tcp c + 1) ->
  active_tcp (record_tcp_close b c') = active_tcp c.
Proof.
  intros Hr E. unfold record_tcp_close. cbn [active_tcp]. rewrite E, wrap_u_small by (unfold in_u, u_max in *; lia).
  destruct b; try (destruct (Z.eqb_spec (active_tcp c + 1) 0); lia).
  replace (active_tcp c + 1 - 1) with (active_tcp c) by lia. apply wrap_u_small. cbn in Hr. unfold in_u, u_max in *. lia.
Qed.

Lemma workers_restored slot ws :
  Forall (fun n => 0 <= n < u_max 64) ws ->
  alter (fun n => if n =? 0 then 0 else n - 1) slot (alter (fun n => wrap_u 64 (n + 1)) slot ws) = ws.
Proof.
  intros Hw. apply list_eq. intros i. destruct (decide (slot = i)) as [<-|].
  - rewrite !list_lookup_alter_eq. destruct (ws !! slot) as [n|] eqn:E; [|done]. cbn.
    apply (Forall_lookup_1 _ _ _ _ Hw) in E. rewrite wrap_u_small by (unfold in_u, u_max in *; lia).
    destruct (Z.eqb_spec (n + 1) 0); [lia|]. f_equal. lia.
  - by rewrite !list_lookup_alter_ne.
Qed.

(** The two ends of a tunnel, whatever the backend. *)
Lemma open_failed_spec env response e w :
  live (outbound (conn w)) ->
  exists s', open_failed env response e w
    = (Err (OpenFailed e), MkWorld s' (record_tcp_open_failure e (record_tcp_open_latency (elapsed_ms env) (counters w)))
                             (trace w))
    /\ rest (inbound s') = rest (inbound (conn w)) /\ fin (inbound s') = fin (inbound (conn w))
    /\ written (outbound s') = written (outbound (conn w)) ++ failure_bytes response.
Proof.
  intros Hl. unfold open_failed. rewrite !count_bind. cbn [conn counters trace].
  set (w1 := MkWorld _ _ _). destruct (tells_open_error response w1 Hl) as (s' & Hs & Hr & Hf & Hw & _).
  exists s'. by rewrite (sr_bind_Ok _ _ _ _ _ Hs).
Qed.

Lemma respond_spec {A} response (k : unit -> sr world ProxyError A) w :
  live (outbound (conn w)) ->
  exists s', (respond response ≫= k) w = k tt (MkWorld s' (counters w) (trace w))
    /\ rest (inbound s') = rest (inbound (conn w)) /\ fin (inbound s') = fin (inbound (conn w))
    /\ written (outbound s') = written (outbound (conn w)) ++ success_bytes response.
Proof.
  intros Hl. destruct (tells_respond response w Hl) as (s' & Hs & Hr & Hf & Hw & _).
  exists s'. by rewrite (sr_bind_Ok _ _ _ _ _ Hs).
Qed.

(** The counters inside the guard: [c0] before, [c] when the tunnel is open or
    has failed. *)
Definition inside (backend : TunnelBackend) (c0 c : TcpCounters) : Prop :=
  active_tcp c = active_tcp (record_tcp_open backend c0) /\ worker_streams c = worker_streams c0
  /\ tcp_open_attempts c = wrap_u 64 (tcp_open_attempts c0 + 1)
  /\ tcp_open_failures c = tcp_open_failures c0.

Lemma failed_served env host port backend response initial mode w c e :
  live (outbound (conn w)) -> counters_ok backend (counters w) ->
  open_result env backend host port = Err e -> inside backend (counters w) c ->
  tcp_open_successes c = tcp_open_successes (counters w) ->
  let '(r, w') := conn_guard backend (open_failed env response e) (MkWorld (conn w) c (trace w)) in
  served env backend host port response initial mode w r w'.
Proof.
  intros Hl [Ha Hws] He (Hca & Hcw & Hct & Hcf) Hcs. unfold conn_guard.
  destruct (open_failed_spec env response e (MkWorld (conn w) c (trace w)) Hl) as (s' & -> & Hr & Hf & Hw).
  unfold served, counted_open. rewrite He. cbn [conn counters trace]. split_and!; try done.
  - by apply active_restored.
  - cbn. by rewrite Hcf.
Qed.

Lemma opened_served env host port backend response initial mode w c f s' :
  counters_ok backend (counters w) ->
  open_result env backend host port = Ok f -> inside backend (counters w) c ->
  tcp_open_successes c = wrap_u 64 (tcp_open_successes (counters w) + 1) -> last_tcp_open_error c = None ->
  rest (inbound s') = rest (inbound (conn w)) -> fin (inbound s') = fin (inbound (conn w)) ->
  written (outbound s') = written (outbound (conn w)) ++ success_bytes response ->
  served env backend host port response initial mode w (map_err RelayFailed (relay_result env))
    (MkWorld s' (record_tcp_close backend c)
       ((trace w ++ [Opened f host port (open_egress env backend)]) ++ [relayed backend f initial mode])).
Proof.
  intros [Ha Hws] Ho (Hca & Hcw & Hct & Hcf) Hcs Hce Hr Hf Hw.
  unfold served, counted_open. rewrite Ho, <-app_assoc. cbn [conn counters trace]. split_and!; try done.
  by apply active_restored.
Qed.

(** The handler tells the client. *)
Ltac respond_step :=
  match goal with
  | Hl : live _ |- context [(respond ?response ≫= ?k) ?w] =>
    let s' := fresh "s'" in
    destruct (respond_spec response k w Hl) as (s' & -> & ? & ? & ?)
  end.

Lemma open_tunnel_served env host port backend response initial mode w :
  live (outbound (conn w)) -> counters_ok backend (counters w) ->
  let '(r, w') := open_tunnel env host port backend response initial mode w in
  served env backend host port response initial mode w r w'.
Proof.
  intros Hl Hc. set (c := fun b => record_tcp_open_attempt (record_tcp_open b (counters w))).
  assert (Hin : forall b, inside b (counters w) (c b)) by done.
  destruct backend as [| |k]; cbn [open_tunnel].
  - unfold open_tunnel_spx. rewrite count_bind. cbn [conn counters trace].
    destruct (bridge env) as [slot|e] eqn:Eb.
    2: { refine (failed_served env host port Spx response initial mode w (c Spx) e Hl Hc _ (Hin _) eq_refl).
         cbn. by rewrite Eb. }
    destruct (link_open_tcp env slot host port (egress_proxy env)) as [f|e] eqn:Eo.
    2: { refine (failed_served env host port Spx response initial mode w (c Spx) e Hl Hc _ (Hin _) eq_refl).
         cbn. by rewrite Eb. }
    unfold conn_guard. rewrite count_bind, open_succeeded_bind, count_bind. cbn [conn counters trace].
    respond_step.
    eapply (opened_served env host port Spx response initial mode w _ f s' Hc); cbn; try done; [by rewrite Eb|].
    split_and!; cbn; try done. apply workers_restored, Hc.
  - unfold open_tunnel_ssh_native. rewrite count_bind. cbn [conn counters trace].
    destruct (ssh_open_stream env host port) as [f|e] eqn:Eo.
    2: { exact (failed_served env host port SshNative response initial mode w (c SshNative) e Hl Hc Eo (Hin _) eq_refl). }
    unfold conn_guard. rewrite count_bind, open_succeeded_bind. cbn [conn counters trace].
    respond_step.
    by eapply (opened_served env host port SshNative response initial mode w _ f s' Hc).
  - unfold open_tunnel_quic_native. rewrite count_bind. cbn [conn counters trace].
    set (b := QuicNative k). destruct (quic_open_stream env _ (egress_proxy env)) as [f|e] eqn:Eo.
    2: { exact (failed_served env host port b response initial mode w (c b) e Hl Hc Eo (Hin _) eq_refl). }
    unfold conn_guard. rewrite count_bind, open_succeeded_bind. cbn [conn counters trace].
    respond_step.
    by eapply (opened_served env host port b response initial mode w _ f s' Hc).
Qed.

(** ** From the first byte *)

(** The handler of a listener with a backend; QUIC listeners use
    [TcpConnect]. *)
Definition client_handler env (backend : TunnelBackend) : sr world ProxyError unit :=
  match backend with
  | Spx => handle_client env
  | SshNative => handle_client_ssh_native env
  | QuicNative _ => handle_client_quic_native env
  end.

Definition listening (backend : TunnelBackend) : Prop :=
  match backend with QuicNative k => k = TcpConnect | _ => True end.

Lemma first_byte_ok b l w : rest (inbound (conn w)) = b :: l -> first_byte w = (Ok (byte_val b), w).
Proof. intros Hr. unfold first_byte. by rewrite (peek_ok _ _ _ Hr). Qed.

Lemma on_conn_bind {E A B} (g : E -> ProxyError) (m : sr (TcpStream R W) E A) (k : A -> sr world ProxyError B)
    x v o y w :
  exchange m x (Ok v) o -> rest (inbound (conn w)) = x ++ y -> live (outbound (conn w)) ->
  exists s', (on_conn g m ≫= k) w = k v (MkWorld s' (counters w) (trace w))
    /\ rest (inbound s') = y /\ written (outbound s') = written (outbound (conn w)) ++ o /\ live (outbound s').
Proof.
  intros Hm Hr Hl. destruct (on_conn_exchange g m x (Ok v) o y w Hm Hr Hl) as (s' & Hs & ? & _ & ? & ?).
  exists s'. by rewrite (sr_bind_Ok _ _ _ _ _ Hs).
Qed.

(** A client's greeting that offers no authentication. *)
Definition greeting (methods : list byte) : list byte := [byte_of 5] ++ [byte_of (len methods)] ++ methods.

Lemma greeting_exchange methods :
  len methods <= 255 -> byte_of 0 ∈ methods ->
  exchange (R := R) (W := W) negotiate_no_auth (greeting methods) (Ok tt) [byte_of 5; byte_of 0].
Proof.
  intros Hl Hin. pose proof (negotiate_exchange (R := R) (W := W) methods Hl) as Hx.
  replace (existsb _ methods) with true in Hx; [exact Hx|]. symmetry. apply existsb_exists.
  exists (byte_of 0). split; [by apply list_elem_of_In|done].
Qed.

Lemma socks_request {A} methods t port y (k : Request -> sr world ProxyError A) w :
  len methods <= 255 -> byte_of 0 ∈ methods -> target_ok t -> in_u 16 port ->
  rest (inbound (conn w)) = greeting methods ++ connect_bytes t port ++ y -> live (outbound (conn w)) ->
  exists s', (_ ← on_conn SocksFailed negotiate_no_auth; on_conn SocksFailed read_request ≫= k) w
      = k {| command := Connect; req_host := target_host t; req_port := port |} (MkWorld s' (counters w) (trace w))
    /\ rest (inbound s') = y
    /\ written (outbound s') = written (outbound (conn w)) ++ [byte_of 5; byte_of 0] /\ live (outbound s').
Proof.
  intros Hm Hin Ht Hport Hr Hl.
  destruct (on_conn_bind SocksFailed negotiate_no_auth (fun _ => on_conn SocksFailed read_request ≫= k)
              _ _ _ _ w (greeting_exchange methods Hm Hin) Hr Hl) as (s1 & -> & Hr1 & Hw1 & Hl1).
  destruct (on_conn_bind SocksFailed read_request k _ _ _ y (MkWorld s1 (counters w) (trace w))
              (connect_exchange t port Ht Hport) Hr1 Hl1) as (s2 & -> & Hr2 & Hw2 & Hl2).
  exists s2. split_and!; try done. cbn in Hw2. by rewrite Hw2, Hw1, app_nil_r.
Qed.
End specs.

(** ** The uplink of an association *)

Definition bad_datagram (e : UdpEvent) : Prop :=
  match e with FromUdp _ bs _ => exists err, parse_udp_packet bs = Err err | _ => False end.

Lemma udp_step_uplink s e s' :
  udp_step s e = Some s' ->
  to_link s' = to_link s ++ match forwarded_datagram e with Some d => [d] | None => [] end
  /\ (is_from_udp e = true -> udp_to_remote s = true)
  /\ (udp_to_remote s' = true -> udp_to_remote s = true /\ ~ bad_datagram e).
Proof.
  destruct e as [from bs sent| |dg sent|]; cbn; intros [Hg ->]%when_Some.
  - destruct (parse_udp_packet bs) as [p|err]; [destruct sent|]; cbn; rewrite ?app_nil_r; split_and!; try done.
    + intros _. split; [done|]. by intros [err ?].
    + by destruct sent; cbn; rewrite ?app_nil_r.
  - rewrite app_nil_r. by split_and!.
  - rewrite app_nil_r. split_and!; [by repeat case_match|done|]. intros Hu.
    split; [|tauto]. by repeat (case_match; try done).
  - rewrite app_nil_r. split_and!; try done. tauto.
Qed.

Lemma udp_uplink_inv peer es : forall s,
  runs udp_step (udp_start peer) es = Some s ->
  to_link s = omap forwarded_datagram es
  /\ (udp_to_remote s = true -> Forall (fun e => ~ bad_datagram e) es)
  /\ forall es1 from bs sent e es2, es = es1 ++ FromUdp from bs sent :: es2 ->
     parse_udp_packet bs = Err e -> forall ev, ev ∈ es2 -> is_from_udp ev = false.
Proof.
  induction es as [|ev es IH] using rev_ind.
  { intros s [= <-]. split_and!; [done|done|]. by intros [] ? ? ? ? ? ?. }
  intros s' (s & Hr & Hs)%runs_snoc. destruct (IH s Hr) as (Ht & Hb & Ho).
  destruct (udp_step_uplink _ _ _ Hs) as (Ht' & Hg & Hu). split_and!.
  - rewrite Ht', Ht, omap_app. cbn. by destruct (forwarded_datagram ev).
  - intros [? ?]%Hu. apply Forall_app. split; [by apply Hb|]. by constructor.
  - intros es1 from bs sent e es2 E Hp ev' Hin.
    destruct es2 as [|x es2 _] using rev_ind; [by apply elem_of_nil in Hin|].
    rewrite app_comm_cons, app_assoc in E. apply app_inj_tail in E as [E <-].
    apply elem_of_app in Hin as [Hin| ->%list_elem_of_singleton]; [by eapply Ho|].
    apply not_true_iff_false. intros Hev. specialize (Hb (Hg Hev)). rewrite E in Hb.
    apply Forall_app in Hb as [_ [Hbad _]%Forall_cons_iff]. apply Hbad. by exists e.
Qed.

Definition udp_events : list UdpEvent :=
  [FromUdp unspecified ([x00; x00; x00; x01; x7f; x00; x00; x01; x00; x35; x2a]) true;
   FromLink {| dg_host := "127.0.0.1"; dg_port := 53; dg_data := [x2b] |} true;
   FromUdp {| sa_ip := V4 [x0a; x00; x00; x09]; sa_port := 9 |} [x00; x00; x01; x01] true;
   FromLink {| dg_host := "127.0.0.1"; dg_port := 53; dg_data := [x2c] |} true].

(** ** Properties *)

(** C3. A SOCKS5 client that offers no authentication and asks to connect to a
    target, be it a name, an IPv4 or an IPv6 address, gets exactly that
    target, on every backend: the tunnel is opened once, for the requested
    host and port and the route's egress proxy; the client is told success or
    that the host is unreachable; the relay starts with the first byte after
    the request; and the connection counters are as before, with one more
    attempt and one more success or failure. *)
Theorem socks_client_served {R W Flow : Type} `{AsyncReadLaws R} `{AsyncPeek R} `{!AsyncPeekLaws R}
    `{AsyncWriteLaws W} (env : Env Flow) (backend : TunnelBackend) (methods : list byte) (target : SocksTarget)
    (port : Z) (y : list byte) (w : World R W Flow) :
  listening backend -> len methods <= 255 -> byte_of 0 ∈ methods -> target_ok target -> in_u 16 port ->
  rest (inbound (conn w)) = greeting methods ++ connect_bytes target port ++ y ->
  live (outbound (conn w)) -> counters_ok backend (counters w) ->
  exists w1 r w', client_handler env backend w = (r, w')
    /\ rest (inbound (conn w1)) = y
    /\ written (outbound (conn w1)) = written (outbound (conn w)) ++ [byte_of 5; byte_of 0]
    /\ counters w1 = counters w /\ trace w1 = trace w
    /\ served env backend (target_host target) port SocksSuccess [] Raw w1 r w'.
Proof.
  intros Hb Hm Hin Ht Hport Hr Hl Hc.
  assert (Hfirst : first_byte w = (Ok 5, w)).
  { rewrite (first_byte_ok (byte_of 5) ([byte_of (len methods)] ++ methods ++ connect_bytes target port ++ y)); [done|].
    rewrite Hr. unfold greeting. by rewrite <-!app_assoc. }
  set (k := fun request : Request =>
    match command request with
    | Connect => open_tunnel (R := R) (W := W) env (req_host request) (req_port request) backend SocksSuccess [] Raw
    | UdpAssociate =>
      match backend with
      | Spx => handle_udp_associate env
      | _ => _ ← on_conn SocksFailed (reply CommandNotSupported unspecified); sr_fail OnlyTcpConnect
      end
    | Bind =>
      _ ← on_conn SocksFailed (reply CommandNotSupported unspecified);
      sr_fail match backend with Spx => BindUnsupported | _ => OnlyTcpConnect end
    end).
  destruct (socks_request methods target port y k w) as (s' & Hs & Hr' & Hw' & Hl'); [done..|].
  assert (Hh : client_handler env backend w = (_ ← on_conn SocksFailed negotiate_no_auth;
                                              on_conn SocksFailed read_request ≫= k) w).
  { destruct backend as [| |tk]; cbn in Hb; subst; cbn [client_handler];
      unfold handle_client, handle_client_ssh_native, handle_client_quic_native, handle_client_native;
      by erewrite sr_bind_Ok by exact Hfirst. }
  rewrite Hh, Hs. unfold k. cbn [command req_host req_port].
  set (w1 := MkWorld s' (counters w) (trace w)).
  pose proof (open_tunnel_served env (target_host target) port backend SocksSuccess [] Raw w1 Hl' Hc) as Hsv.
  destruct (open_tunnel _ _ _ _ _ _ _ w1) as [r w'] eqn:E. exists w1, r, w'. by split_and!.
Qed.

Definition sample_env : Env nat :=
  {| egress_proxy := Some "socks5h://p:1080"%string; bridge := Ok 1%nat;
     link_open_tcp := fun slot host port px =>
       if bool_decide (host = "down.example"%string) then Err "connection refused"%string else Ok 7%nat;
     ssh_open_stream := fun _ _ => Err "no session"%string; quic_open_stream := fun _ _ => Ok 9%nat;
     elapsed_ms := 12; relay_result := Ok tt; local_ip := Ok (V4 [x00; x00; x00; x00]);
     udp_bind := fun a => Ok {| sa_ip := sa_ip a; sa_port := 40000 |} |}.

Definition sample_counters : TcpCounters :=
  {| active_tcp := 3; total_tcp := 10; tcp_open_attempts := 10; tcp_open_successes := 8;
     tcp_open_failures := 2; last_tcp_open_latency_ms := 0; last_tcp_open_error := None;
     worker_streams := [2; 1] |}.

Definition client_world (bs : list (list byte)) (script : list Z) : World Segments ScriptedWriter nat :=
  MkWorld (MkTcp (MkSegments bs AtEof) (MkWriter [] script 0)) sample_counters [].

Definition socks_world (target : SocksTarget) : World Segments ScriptedWriter nat :=
  client_world [[x05; x02]; [x01; x00; x05; x01]; drop 2 (connect_bytes target 443); [x16; x03]] [].

Lemma socks_client_served_witness :
  Forall (fun target =>
    exists w1 r w', client_handler sample_env Spx (socks_world target) = (r, w')
      /\ rest (inbound (conn w1)) = [x16; x03]
      /\ written (outbound (conn w1)) = written (outbound (conn (socks_world target))) ++ [byte_of 5; byte_of 0]
      /\ counters w1 = counters (socks_world target) /\ trace w1 = trace (socks_world target)
      /\ served sample_env Spx (target_host target) 443 SocksSuccess [] Raw w1 r w')
    [ByName "example.com"; ByIp (V4 [x0a; x00; x00; x09])].
Proof.
  apply Forall_cons_2; [|apply Forall_cons_2; [|apply Forall_nil_2]];
    [apply (socks_client_served sample_env Spx [x01; x00] (ByName "example.com") 443 [x16; x03])
    |apply (socks_client_served sample_env Spx [x01; x00] (ByIp (V4 [x0a; x00; x00; x09])) 443 [x16; x03])].
  1,9: exact I.
  1,8: vm_compute; congruence.
  1,7: apply (bool_decide_unpack (byte_of 0 ∈ [x01; x00])); vm_compute; exact I.
  6: vm_compute; reflexivity.
  1: split; vm_compute; [reflexivity|congruence].
  1,5: vm_compute; intuition congruence.
  1,4: vm_compute; reflexivity.
  1,3: vm_compute; reflexivity.
  all: split; [vm_compute; intuition congruence|]; repeat constructor; vm_compute; congruence.
Defined.

(** How an HTTP client is served, whose request is read as [request]. *)
Definition http_served {R W Flow : Type} `{AsyncReadLaws R} `{AsyncWriteLaws W} (env : Env Flow)
    (backend : TunnelBackend) (w w1 : World R W Flow) (request : result HttpError HttpRequestKind)
    (r : result ProxyError unit) (w' : World R W Flow) : Prop :=
  match request with
  | Ok (HttpConnect host port) => served env backend host port RespondHttpConnect [] Raw w1 r w'
  | Ok (HttpForward host port req) => served env backend host port RespondNone req HttpForwardMode w1 r w'
  | Err e => r = Err (HttpFailed e) /\ trace w' = trace w /\ counters w' = counters w
             /\ written (outbound (conn w')) = written (outbound (conn w1)) ++ http_error_bytes 400 "Bad Request"
  end.

Lemma http_client_handled {R W Flow : Type} `{AsyncReadLaws R} `{AsyncPeek R} `{!AsyncPeekLaws R}
    `{AsyncWriteLaws W} (env : Env Flow) (backend : TunnelBackend) (b : byte) (l : list byte)
    (w : World R W Flow) (request : result HttpError HttpRequestKind) (s1 : TcpStream R W) :
  listening backend -> rest (inbound (conn w)) = b :: l -> byte_val b <> SOCKS_VERSION ->
  read_http_request (conn w) = (request, s1) -> live (outbound s1) -> counters_ok backend (counters w) ->
  let '(r, w') := client_handler env backend w in
  http_served env backend w (MkWorld s1 (counters w) (trace w)) request r w'.
Proof.
  intros Hb Hr Hv Hreq Hl Hc. set (w1 := MkWorld s1 (counters w) (trace w)).
  pose proof (first_byte_ok b l w Hr) as Hfirst.
  assert (Hh : client_handler env backend w = handle_http_proxy env backend w).
  { apply Z.eqb_neq in Hv. destruct backend as [| |tk]; cbn in Hb; subst; cbn [client_handler];
      unfold handle_client, handle_client_ssh_native, handle_client_quic_native, handle_client_native;
      erewrite sr_bind_Ok by exact Hfirst; by rewrite Hv. }
  rewrite Hh. unfold handle_http_proxy, on_conn at 1. rewrite Hreq.
  unfold http_served. destruct request as [[host port|host port req]|e]; cbn [map_err]; [by apply open_tunnel_served..|].
  destruct (tells_on_conn HttpFailed _ _ (write_http_error_exchange 400 "Bad Request") w1 Hl)
    as (s' & Hs & _ & _ & Hw & _).
  fold w1. rewrite Hs. cbn. by rewrite Hw.
Qed.

(** C4. A client whose first byte is not SOCKS5's is an HTTP client.  Its
    CONNECT opens a raw tunnel and is answered with 200; its absolute-form
    request opens a tunnel that starts with the rewritten request, and its
    response is relayed; a failed open is answered with 502, a request that
    is not understood with 400, and then nothing is opened. *)
Theorem http_client_served {R W Flow : Type} `{AsyncReadLaws R} `{AsyncPeek R} `{!AsyncPeekLaws R}
    `{AsyncWriteLaws W} (env : Env Flow) (backend : TunnelBackend) (b : byte) (l : list byte)
    (w : World R W Flow) (request : result HttpError HttpRequestKind) (s1 : TcpStream R W) :
  listening backend -> rest (inbound (conn w)) = b :: l -> byte_val b <> SOCKS_VERSION ->
  read_http_request (conn w) = (request, s1) -> live (outbound s1) -> counters_ok backend (counters w) ->
  let '(r, w') := client_handler env backend w in
  http_served env backend w (MkWorld s1 (counters w) (trace w)) request r w'.
Proof. apply http_client_handled. Qed.

Definition http_world : World Segments ScriptedWriter nat :=
  client_world [str_bytes "CONNECT down.example:443 HTTP/1.1"; crlf; crlf] [].

Lemma http_client_served_witness :
  let w1 := MkWorld (read_http_request (conn http_world)).2 (counters http_world) (trace http_world) in
  let '(r, w') := client_handler sample_env Spx http_world in
  served sample_env Spx "down.example" 443 RespondHttpConnect [] Raw w1 r w'.
Proof.
  apply (http_client_served sample_env Spx x43 (tail (rest (inbound (conn http_world)))) http_world
           (Ok (HttpConnect "down.example" 443)) (read_http_request (conn http_world)).2).
  - exact I.
  - vm_compute. reflexivity.
  - vm_compute. congruence.
  - vm_compute. reflexivity.
  - vm_compute. reflexivity.
  - split; [vm_compute; intuition congruence|]. repeat constructor; vm_compute; congruence.
Defined.

(** When the client is gone before it can be told that the tunnel is open,
    the flow is left behind: it is neither relayed nor closed, and the bridge
    keeps counting the stream, which makes it less likely to be chosen. *)
Theorem failed_reply_leaks_flow {R W Flow : Type} `{AsyncRead R} `{AsyncWrite W} (env : Env Flow)
    (host : string) (port : Z) (slot : nat) (f : Flow) (e : SocksError) (s' : TcpStream R W)
    (w : World R W Flow) :
  bridge env = Ok slot -> link_open_tcp env slot host port (egress_proxy env) = Ok f ->
  reply Succeeded unspecified (conn w) = (Err e, s') ->
  exists w', open_tunnel_spx env host port SocksSuccess [] Raw w = (Err (SocksFailed e), w')
    /\ trace w' = trace w ++ [Opened f host port (egress_proxy env)]
    /\ worker_streams (counters w') = alter (fun n => wrap_u 64 (n + 1)) slot (worker_streams (counters w)).
Proof.
  intros Hb Ho Hr. unfold open_tunnel_spx. rewrite Hb, Ho, count_bind. unfold conn_guard.
  rewrite count_bind, open_succeeded_bind, count_bind.
  match goal with |- context [(respond SocksSuccess ≫= _) ?w1] =>
    assert (Hx : respond SocksSuccess w1 = (Err (SocksFailed e), MkWorld s' (counters w1) (trace w1)))
      by (cbn [respond]; unfold on_conn; cbn [conn]; by rewrite Hr) end.
  erewrite sr_bind_Err by exact Hx. by eexists.
Qed.

Lemma failed_reply_leaks_flow_witness :
  exists w', open_tunnel_spx sample_env "example.com" 443 SocksSuccess [] Raw (client_world [] [-1])
             = (Err (SocksFailed (SocksIo IoOther)), w')
    /\ trace w' = [Opened 7%nat "example.com" 443 (egress_proxy sample_env)]
    /\ worker_streams (counters w') = [2; 2].
Proof.
  apply (failed_reply_leaks_flow sample_env "example.com" 443 1 7%nat (SocksIo IoOther)
           (conn (client_world [] [-1])) (client_world [] [-1])); vm_compute; reflexivity.
Defined.

(** A client of a fixed target, whose protocol is unknown, gets an HTTP error
    page when the target cannot be opened. *)
Theorem fixed_target_error_is_http {R W Flow : Type} `{AsyncReadLaws R} `{AsyncWriteLaws W} (env : Env Flow)
    (host : string) (port : Z) (e : string) (w : World R W Flow) :
  open_result env Spx host port = Err e -> live (outbound (conn w)) -> counters_ok Spx (counters w) ->
  let '(r, w') := handle_fixed_target env host port w in
  r = Err (OpenFailed e)
  /\ written (outbound (conn w')) = written (outbound (conn w)) ++ http_error_bytes 502 "Bad Gateway".
Proof.
  intros He Hl Hc. pose proof (open_tunnel_served env host port Spx RespondNone [] Raw w Hl Hc) as Hs.
  unfold handle_fixed_target. destruct (open_tunnel _ _ _ _ _ _ _ w) as [r w'].
  destruct Hs as (_ & _ & _ & Hs). rewrite He in Hs. by destruct Hs as (? & _ & ?).
Qed.

Definition fixed_world : World Segments ScriptedWriter nat := client_world [[x00]] [].

Lemma fixed_target_error_is_http_witness :
  let '(r, w') := handle_fixed_target sample_env "down.example" 5432 fixed_world in
  r = Err (OpenFailed "connection refused")
  /\ written (outbound (conn w')) = written (outbound (conn fixed_world)) ++ http_error_bytes 502 "Bad Gateway".
Proof.
  apply (fixed_target_error_is_http sample_env "down.example" 5432 "connection refused" fixed_world).
  - vm_compute. reflexivity.
  - vm_compute. reflexivity.
  - split; [vm_compute; intuition congruence|]. repeat constructor; vm_compute; congruence.
Defined.

(** A UDP association gives the link exactly the client's datagrams, in
    order, but only up to the first one that does not parse (a fragment, or
    anything a stray sender puts on the port): that one ends the uplink for
    good, while the association stays open. *)
Theorem udp_uplink_until_bad_datagram (peer : SocketAddr) (es : list UdpEvent) (s : UdpRelay) :
  runs udp_step (udp_start peer) es = Some s ->
  to_link s = omap forwarded_datagram es
  /\ forall es1 from bs sent e es2, es = es1 ++ FromUdp from bs sent :: es2 ->
     parse_udp_packet bs = Err e -> forall ev, ev ∈ es2 -> is_from_udp ev = false.
Proof.
  intros Hr. destruct (udp_uplink_inv peer es s Hr) as (Ht & _ & Ho). by split.
Qed.

Lemma udp_uplink_until_bad_datagram_witness :
  to_link (default (udp_start unspecified) (runs udp_step (udp_start unspecified) udp_events))
  = [datagram_of {| udp_host := "127.0.0.1"; udp_port := 53; udp_data := [x2a] |}]
  /\ forall es1 from bs sent e es2, udp_events = es1 ++ FromUdp from bs sent :: es2 ->
     parse_udp_packet bs = Err e -> forall ev, ev ∈ es2 -> is_from_udp ev = false.
Proof.
  apply (udp_uplink_until_bad_datagram unspecified udp_events). vm_compute. reflexivity.
Defined.
