(* ===== verification/Controller.v ===== *)
(** * The pool of bridges

    [crates/ssh-proxy/src/controller.rs] and
    [controller/bridge_manager.rs]: one worker task per slot connects a
    bridge, publishes it, waits for its end and tries again with a growing,
    jittered delay; the listeners' handlers take the least loaded connected
    bridge, and wait for one when there is none.

    The tasks share [SharedState].  Each section of code between two points
    where the tasks can interleave is a step.  Bridges are named by numbers;
    the connection attempts themselves, their errors and the random seed come
    with the events. *)
From S2P Require Import Prelude RustStr Mux.

(** ** State *)

Record BridgeWorkerState := MkWorker {
  connected : bool;
  generation : Z;
  connect_attempts : Z;
  successful_connects : Z;
  failed_connects : Z;
  disconnects : Z;
  retry_count : Z;
  last_error : option string;
  selected_protocol : option string;
  last_successful_protocol : option string;
  last_event : option string;
}.

Definition BridgeWorkerState_new : BridgeWorkerState :=
  MkWorker false 0 0 0 0 0 0 None None None None.

(** The 64 bit counters of a worker only count its own events, so they do not
    wrap in practice; they are kept at their width all the same. *)
Definition inc64 (n : Z) : Z := wrap_u 64 (n + 1).

(** Where a worker task is: about to try, connecting, with a bridge it has not
    published yet, waiting for its end, after it, about to sleep, sleeping
    for some milliseconds, over. *)
Inductive WorkerPc :=
| WLoop | WConnecting | WConnected (h : nat) | WServing (h : nat) | WEnded | WRetry
| WSleeping (ms : Z) | WDone.

(** Where a call of [bridge()] is: about to look, past the look without a
    bridge, waiting for a notification, woken by the shutdown, or over with a
    bridge or an error. *)
Inductive CallPc := CLook | CMissed | CWaiting | CWoken | CGot (slot h : nat) | CError (e : string).

Record SharedState := MkShared {
  bridge_slots : list (option nat);
  bridge_workers : list BridgeWorkerState;
  active_streams : list Z;               (* of [bridge_worker_counters] *)
  reconnect : bool;
  shutdown : bool;
  next_bridge : Z;
  total_generation : Z;
  total_attempts : Z;
  total_successes : Z;
  total_failures : Z;
  shared_error : option string;
  worker_tasks : list (WorkerPc * Z);    (* with the base delay in ms *)
  calls : list CallPc;
}.

Record ReconnectArgs := { reconnect_delay_ms : Z; reconnect_max_delay_ms : Z }.

Definition SharedState_new (reconnect : bool) (transport_pool_size : nat) (args : ReconnectArgs) : SharedState :=
  let n := Nat.max transport_pool_size 1 in
  MkShared (replicate n None) (replicate n BridgeWorkerState_new) (replicate n 0) reconnect false 0 0 0 0 0 None
    (replicate n (WLoop, reconnect_delay_ms args)) [].

(** Field updates. *)
Definition set_slots v (s : SharedState) : SharedState :=
  MkShared v (bridge_workers s) (active_streams s) (reconnect s) (shutdown s) (next_bridge s)
    (total_generation s) (total_attempts s) (total_successes s) (total_failures s) (shared_error s)
    (worker_tasks s) (calls s).
Definition set_workers v (s : SharedState) : SharedState :=
  MkShared (bridge_slots s) v (active_streams s) (reconnect s) (shutdown s) (next_bridge s)
    (total_generation s) (total_attempts s) (total_successes s) (total_failures s) (shared_error s)
    (worker_tasks s) (calls s).
Definition set_streams v (s : SharedState) : SharedState :=
  MkShared (bridge_slots s) (bridge_workers s) v (reconnect s) (shutdown s) (next_bridge s)
    (total_generation s) (total_attempts s) (total_successes s) (total_failures s) (shared_error s)
    (worker_tasks s) (calls s).
Definition set_shutdown (s : SharedState) : SharedState :=
  MkShared (bridge_slots s) (bridge_workers s) (active_streams s) (reconnect s) true (next_bridge s)
    (total_generation s) (total_attempts s) (total_successes s) (total_failures s) (shared_error s)
    (worker_tasks s) (calls s).
Definition set_next v (s : SharedState) : SharedState :=
  MkShared (bridge_slots s) (bridge_workers s) (active_streams s) (reconnect s) (shutdown s) v
    (total_generation s) (total_attempts s) (total_successes s) (total_failures s) (shared_error s)
    (worker_tasks s) (calls s).
Definition set_totals g a c f e (s : SharedState) : SharedState :=
  MkShared (bridge_slots s) (bridge_workers s) (active_streams s) (reconnect s) (shutdown s) (next_bridge s)
    g a c f e (worker_tasks s) (calls s).
Definition set_tasks v (s : SharedState) : SharedState :=
  MkShared (bridge_slots s) (bridge_workers s) (active_streams s) (reconnect s) (shutdown s) (next_bridge s)
    (total_generation s) (total_attempts s) (total_successes s) (total_failures s) (shared_error s) v (calls s).
Definition set_calls v (s : SharedState) : SharedState :=
  MkShared (bridge_slots s) (bridge_workers s) (active_streams s) (reconnect s) (shutdown s) (next_bridge s)
    (total_generation s) (total_attempts s) (total_successes s) (total_failures s) (shared_error s)
    (worker_tasks s) v.

(** ** Publishing *)

(** [notify_waiters]: the calls that wait look again; nothing is stored for
    later ones. *)
Definition notify_waiters (cs : list CallPc) : list CallPc :=
  (fun c => match c with CWaiting => CLook | _ => c end) <$> cs.

(** [resize_with(slot + 1, || None)] and [ensure_worker_slot]. *)
Definition extend {A} (n : nat) (x : A) (l : list A) : list A := l ++ replicate (n - length l) x.

Definition set_bridge (slot : nat) (h : option nat) (s : SharedState) : SharedState :=
  set_calls (notify_waiters (calls s)) (set_slots (<[slot := h]> (extend (S slot) None (bridge_slots s))) s).

Definition upd_worker (slot : nat) (f : BridgeWorkerState -> BridgeWorkerState) (s : SharedState) : SharedState :=
  set_workers (alter f slot (extend (S slot) BridgeWorkerState_new (bridge_workers s))) s.

Definition record_bridge_attempt (slot : nat) (s : SharedState) : SharedState :=
  let s := set_totals (total_generation s) (wrap_u 32 (total_attempts s + 1)) (total_successes s)
             (total_failures s) (shared_error s) s in
  upd_worker slot (fun w =>
    MkWorker (connected w) (generation w) (inc64 (connect_attempts w)) (successful_connects w)
      (failed_connects w) (disconnects w) (retry_count w) (last_error w) (selected_protocol w)
      (last_successful_protocol w) (Some "connecting bridge"%string)) s.

Definition record_bridge_connected (slot : nat) (gen : Z) (protocol : option string) (s : SharedState) :
    SharedState :=
  let s := set_totals (total_generation s) (total_attempts s) (wrap_u 32 (total_successes s + 1))
             (total_failures s) None s in
  let s := upd_worker slot (fun w =>
    MkWorker true gen (connect_attempts w) (inc64 (successful_connects w)) (failed_connects w)
      (disconnects w) 0 None protocol protocol (Some "bridge connected"%string)) s in
  set_streams (alter (fun _ => 0) slot (active_streams s)) s.

Definition record_bridge_disconnected (slot : nat) (s : SharedState) : SharedState :=
  let s := upd_worker slot (fun w =>
    MkWorker false (generation w) (connect_attempts w) (successful_connects w) (failed_connects w)
      (inc64 (disconnects w)) (retry_count w) (last_error w) None (last_successful_protocol w)
      (Some "bridge disconnected"%string)) s in
  set_streams (alter (fun _ => 0) slot (active_streams s)) s.

Definition record_bridge_failed (slot : nat) (detail : string) (s : SharedState) : SharedState :=
  let s := set_totals (total_generation s) (total_attempts s) (total_successes s)
             (wrap_u 32 (total_failures s + 1)) (Some detail) s in
  let s := upd_worker slot (fun w =>
    MkWorker false (generation w) (connect_attempts w) (successful_connects w)
      (inc64 (failed_connects w)) (disconnects w) (inc64 (retry_count w)) (Some detail) None
      (last_successful_protocol w) (Some "bridge connect failed"%string)) s in
  set_streams (alter (fun _ => 0) slot (active_streams s)) s.

(** ** Choosing a bridge *)

(** The slots with a bridge and a connected worker, with their open streams. *)
Definition candidate (s : SharedState) (slot : nat) (h : option nat) : option (nat * Z * nat) :=
  h ← h;
  worker ← bridge_workers s !! slot;
  if connected worker then Some (slot, default 0 (active_streams s !! slot), h) else None.

Definition candidates (s : SharedState) : list (nat * Z * nat) :=
  omap id (imap (candidate s) (bridge_slots s)).

Definition load (c : nat * Z * nat) : Z := c.1.2.

Definition min_load (cs : list (nat * Z * nat)) : option Z :=
  match cs with
  | [] => None
  | c :: cs => Some (foldl (fun m c => Z.min m (load c)) (load c) cs)
  end.

(** [candidates.retain(|(_, active, _)| *active == min_active)]. *)
Definition least_loaded (s : SharedState) : list (nat * Z * nat) :=
  match min_load (candidates s) with
  | Some m => filter (fun c => load c = m) (candidates s)
  | None => candidates s
  end.

(** One turn of the loop of [bridge()], up to the wait. *)
Definition look (s : SharedState) : CallPc * SharedState :=
  match least_loaded s with
  | [] => (if reconnect s then CMissed else CError "remote bridge is not connected", s)
  | available =>
    let index := Z.to_nat (next_bridge s mod len available) in
    match available !! index with
    | Some (slot, _, h) => (CGot slot h, set_next (wrap_u 32 (next_bridge s + 1)) s)
    | None => (CMissed, s)
    end
  end.

(** ** The worker tasks *)

(** [jittered_backoff] with its random seed; all in milliseconds. *)
Definition jittered_backoff (base max_delay seed : Z) : Z :=
  let base_ms := Z.max base 1 in
  let max_ms := Z.max max_delay base_ms in
  let jitter_range_ms := Z.max (base_ms / 4) 1 in
  let offset_ms := seed mod (jitter_range_ms + 1) in
  if Z.land seed 1 =? 0 then Z.min (Z.min (base_ms + offset_ms) (u_max 64)) max_ms
  else Z.max (Z.max (base_ms - offset_ms) 0) 1.

Definition max_delay (args : ReconnectArgs) : Z :=
  Z.max (reconnect_max_delay_ms args) (reconnect_delay_ms args).

(** The delay before attempt [n + 1], when attempts 1 to [n] failed. *)
Fixpoint backoff_base (args : ReconnectArgs) (n : nat) : Z :=
  match n with
  | O => reconnect_delay_ms args
  | S n => Z.min (backoff_base args n * 2) (max_delay args)
  end.

Inductive PoolEvent :=
| EAttempt (slot : nat)
| EConnectOk (slot h : nat) (protocol : option string)
| EConnectErr (slot : nat) (detail : string)
| EPublish (slot : nat)
| EBridgeEnd (slot : nat)
| EUnpublish (slot : nat)
| ERetry (slot : nat) (seed : Z)           (* decide to sleep, or end *)
| EWakeUp (slot : nat)
| EStop (slot : nat)                       (* the shutdown is noticed *)
| ECall                                    (* a handler calls [bridge()] *)
| ELook (i : nat)
| EWaitStart (i : nat)                     (* [notified()] is created *)
| ECallStop (i : nat)                      (* a woken call takes the shutdown branch *)
| EStreamOpen (slot : nat)
| EStreamClose (slot : nat)
| EShutdown.

Definition set_task (slot : nat) (t : WorkerPc * Z) (s : SharedState) : SharedState :=
  set_tasks (<[slot := t]> (worker_tasks s)) s.
Definition set_call (i : nat) (c : CallPc) (s : SharedState) : SharedState :=
  set_calls (<[i := c]> (calls s)) s.

Section pool.
Context (args : ReconnectArgs).

(** A step of the task of [slot], with its base delay. *)
Definition worker_step (slot : nat) (t : WorkerPc * Z) (e : PoolEvent) (s : SharedState) : option SharedState :=
  let '(pc, delay) := t in
  match e, pc with
  | EAttempt _, WLoop =>
    Some (if shutdown s then set_task slot (WDone, delay) s
          else set_task slot (WConnecting, delay) (record_bridge_attempt slot s))
  | EConnectOk _ h protocol, WConnecting =>
    let gen := wrap_u 32 (total_generation s + 1) in
    let s := set_totals gen (total_attempts s) (total_successes s) (total_failures s) (shared_error s) s in
    Some (set_task slot (WConnected h, reconnect_delay_ms args) (record_bridge_connected slot gen protocol s))
  | EConnectErr _ detail, WConnecting =>
    Some (set_task slot (WEnded, delay) (record_bridge_failed slot detail s))
  | EPublish _, WConnected h => Some (set_task slot (WServing h, delay) (set_bridge slot (Some h) s))
  | EBridgeEnd _, WServing _ => Some (set_task slot (WEnded, delay) (record_bridge_disconnected slot s))
  | EUnpublish _, WEnded => Some (set_task slot (WRetry, delay) (set_bridge slot None s))
  | ERetry _ seed, WRetry =>
    Some (set_task slot (if reconnect s then WSleeping (jittered_backoff delay (max_delay args) seed) else WDone, delay) s)
  | EWakeUp _, WSleeping _ => Some (set_task slot (WLoop, Z.min (delay * 2) (max_delay args)) s)
  | EStop _, WSleeping _ => when (shutdown s) (set_task slot (WDone, delay) s)
  | _, _ => None
  end.

Definition pool_step (s : SharedState) (e : PoolEvent) : option SharedState :=
  match e with
  | EAttempt slot | EConnectOk slot _ _ | EConnectErr slot _ | EPublish slot | EBridgeEnd slot
  | EUnpublish slot | ERetry slot _ | EWakeUp slot | EStop slot =>
    t ← worker_tasks s !! slot; worker_step slot t e s
  | ECall => Some (set_calls (calls s ++ [CLook]) s)
  | ELook i =>
    match calls s !! i with
    | Some CLook | Some CWoken => let '(c, s) := look s in Some (set_call i c s)
    | _ => None
    end
  | EWaitStart i =>
    match calls s !! i with
    | Some CMissed =>
      Some (set_call i (if shutdown s then CError "proxy is shutting down" else CWaiting) s)
    | _ => None
    end
  | ECallStop i =>
    match calls s !! i with
    | Some CWoken => Some (set_call i (CError "proxy is shutting down") s)
    | _ => None
    end
  | EStreamOpen slot => Some (set_streams (alter (fun n => wrap_u 64 (n + 1)) slot (active_streams s)) s)
  | EStreamClose slot => Some (set_streams (alter (fun n => if n =? 0 then 0 else n - 1) slot (active_streams s)) s)
  | EShutdown =>
    let s := set_shutdown s in
    Some (set_calls ((fun c => match c with CWaiting => CWoken | _ => c end) <$> calls s) s)
  end.

Definition pool_reaches (reconnect : bool) (n : nat) (es : list PoolEvent) (s : SharedState) : Prop :=
  runs pool_step (SharedState_new reconnect n args) es = Some s.
End pool.

(** ** What the slots say about the tasks *)

Definition is_connected (pc : WorkerPc) : bool :=
  match pc with WConnected _ | WServing _ => true | _ => false end.

(** The slot of a task: its bridge while it serves it, and perhaps still when
    it has just ended. *)
Definition slot_agrees (pc : WorkerPc) (h : option nat) : Prop :=
  match pc with WServing b => h = Some b | WEnded => True | _ => h = None end.

Record pool_inv (args : ReconnectArgs) (s : SharedState) : Prop := {
  pool_slots : length (bridge_slots s) = length (worker_tasks s);
  pool_workers : length (bridge_workers s) = length (worker_tasks s);
  pool_slot : forall slot t h, worker_tasks s !! slot = Some t -> bridge_slots s !! slot = Some h ->
    slot_agrees t.1 h;
  pool_flag : forall slot t w, worker_tasks s !! slot = Some t -> bridge_workers s !! slot = Some w ->
    connected w = is_connected t.1;
  pool_delay : forall slot t, worker_tasks s !! slot = Some t -> exists n, t.2 = backoff_base args n;
  pool_sleep : forall slot ms d, worker_tasks s !! slot = Some (WSleeping ms, d) ->
    exists seed, ms = jittered_backoff d (max_delay args) seed;
}.

Lemma extend_enough {A} n (x : A) l : (n <= length l)%nat -> extend n x l = l.
Proof. intros Hn. unfold extend. replace (n - length l)%nat with O by lia. apply app_nil_r. Qed.

(** A step of one task. *)
Lemma pool_inv_task args s s' slot t t' :
  pool_inv args s -> worker_tasks s !! slot = Some t -> worker_tasks s' = <[slot := t']> (worker_tasks s) ->
  (bridge_slots s' = bridge_slots s /\ (forall h, slot_agrees t.1 h -> slot_agrees t'.1 h)
   \/ exists h, bridge_slots s' = <[slot := h]> (bridge_slots s) /\ slot_agrees t'.1 h) ->
  (bridge_workers s' = bridge_workers s /\ is_connected t'.1 = is_connected t.1
   \/ exists f, bridge_workers s' = alter f slot (bridge_workers s) 
      /\ forall w, connected w = is_connected t.1 -> connected (f w) = is_connected t'.1) ->
  (exists n, t'.2 = backoff_base args n) ->
  (forall ms, t'.1 = WSleeping ms -> exists seed, ms = jittered_backoff t'.2 (max_delay args) seed) ->
  pool_inv args s'.
Proof.
  intros I Ht Et Hs Hw Hd Hsl. assert (Hlt : (slot < length (worker_tasks s))%nat) by (by eapply lookup_lt_Some).
  assert (Hlen : length (worker_tasks s') = length (worker_tasks s)) by (by rewrite Et, length_insert).
  split.
  - rewrite Hlen, <-(pool_slots _ _ I). destruct Hs as [[-> _]|(h & -> & _)]; [done|by rewrite length_insert].
  - rewrite Hlen, <-(pool_workers _ _ I). destruct Hw as [[-> _]|(f & -> & _)]; [done|by rewrite length_alter].
  - intros i u h. rewrite Et. destruct (decide (slot = i)) as [<-|Hne].
    + rewrite list_lookup_insert_eq by done. intros [= <-]. destruct Hs as [[-> Hag]|(h' & -> & Hag)].
      * intros Hh. by apply Hag, (pool_slot _ _ I slot).
      * rewrite list_lookup_insert_eq by (by rewrite (pool_slots _ _ I)). by intros [= <-].
    + rewrite list_lookup_insert_ne by done. intros Hu Hh. apply (pool_slot _ _ I i u h Hu).
      destruct Hs as [[E _]|(h' & E & _)]; rewrite E in Hh; [done|by rewrite list_lookup_insert_ne in Hh].
  - intros i u w. rewrite Et. destruct (decide (slot = i)) as [<-|Hne].
    + rewrite list_lookup_insert_eq by done. intros [= <-]. destruct Hw as [[-> Hag]|(f & -> & Hag)].
      * intros Hww. rewrite Hag. by apply (pool_flag _ _ I slot).
      * rewrite list_lookup_alter_eq. intros (w0 & Hw0 & ->)%fmap_Some. by apply Hag, (pool_flag _ _ I slot).
    + rewrite list_lookup_insert_ne by done. intros Hu Hww. apply (pool_flag _ _ I i u w Hu).
      destruct Hw as [[E _]|(f & E & _)]; rewrite E in Hww; [done|by rewrite list_lookup_alter_ne in Hww].
  - intros i u. rewrite Et. intros [(<- & <- & _)|[_ Hu]]%list_lookup_insert_Some; [done|by apply (pool_delay _ _ I i)].
  - intros i ms d. rewrite Et. intros [(<- & -> & _)|[_ Hu]]%list_lookup_insert_Some; [by apply Hsl|by apply (pool_sleep _ _ I i)].
Qed.

(** A step that leaves the tasks, the slots and the workers alone. *)
Lemma pool_inv_same args s s' :
  pool_inv args s -> worker_tasks s' = worker_tasks s -> bridge_slots s' = bridge_slots s ->
  bridge_workers s' = bridge_workers s -> pool_inv args s'.
Proof.
  intros I Et Es Ew. split; rewrite ?Et, ?Es, ?Ew;
    [apply (pool_slots _ _ I)|apply (pool_workers _ _ I)|apply (pool_slot _ _ I)|apply (pool_flag _ _ I)
    |apply (pool_delay _ _ I)|apply (pool_sleep _ _ I)].
Qed.

Lemma set_bridge_slots args s slot t h :
  pool_inv args s -> worker_tasks s !! slot = Some t ->
  bridge_slots (set_bridge slot h s) = <[slot := h]> (bridge_slots s).
Proof.
  intros I Ht%lookup_lt_Some. cbn. rewrite extend_enough; [done|]. rewrite (pool_slots _ _ I). lia.
Qed.

Lemma upd_worker_workers args s0 s slot t f :
  pool_inv args s0 -> worker_tasks s0 !! slot = Some t -> bridge_workers s = bridge_workers s0 ->
  bridge_workers (upd_worker slot f s) = alter f slot (bridge_workers s0).
Proof.
  intros I Ht%lookup_lt_Some E. cbn. rewrite E, extend_enough; [done|]. rewrite (pool_workers _ _ I). lia.
Qed.

Lemma worker_step_inv args slot t e s s' :
  pool_inv args s -> worker_tasks s !! slot = Some t -> worker_step args slot t e s = Some s' -> pool_inv args s'.
Proof.
  intros I Ht Hs. destruct (pool_delay _ _ I slot t Ht) as [n Hn]. destruct t as [pc delay]. cbn in Hn.
  destruct e, pc; cbn [worker_step] in Hs; try done; try (apply when_Some in Hs as [_ ->]); simplify_eq.
  1: destruct (shutdown s).
  all: eapply (pool_inv_task args s _ slot _ _ I Ht); [reflexivity|..]; cbn [fst snd]; try done; try by eexists.
  all: try (by left).
  all: try (by right; eexists; split; [eapply set_bridge_slots; done|]).
  all: try (right; eexists; split; [by eapply (upd_worker_workers args s)|by intros w]).
  all: try (by exists O). all: try (by exists (S n)).
  all: destruct (reconnect s); try (by left). all: intros ms [= <-]; by eexists.
Qed.

Lemma pool_inv_step args s e s' : pool_inv args s -> pool_step args s e = Some s' -> pool_inv args s'.
Proof.
  intros I Hs. destruct e; cbn [pool_step] in Hs;
    try (apply bind_Some in Hs as (t & Ht & Hs); by eapply worker_step_inv); simplify_eq;
    try (by eapply pool_inv_same).
  - destruct (calls s !! i) as [[]|]; try done; destruct (look s) as [c s1] eqn:E; simplify_eq;
      (eapply pool_inv_same; [exact I|..]); unfold look in E; repeat (case_match; simplify_eq; try done).
  - destruct (calls s !! i) as [[]|]; simplify_eq. by eapply pool_inv_same.
  - destruct (calls s !! i) as [[]|]; simplify_eq. by eapply pool_inv_same.
Qed.

Lemma pool_inv_new args b n : pool_inv args (SharedState_new b n args).
Proof.
  split; cbn; rewrite ?length_replicate; try done.
  - by intros slot t h [-> _]%lookup_replicate [-> _]%lookup_replicate.
  - by intros slot t w [-> _]%lookup_replicate [-> _]%lookup_replicate.
  - intros slot t [-> _]%lookup_replicate. by exists O.
  - by intros slot ms d [? _]%lookup_replicate.
Qed.

Lemma pool_inv_reaches args b n es s : pool_reaches args b n es s -> pool_inv args s.
Proof. apply runs_invariant; [apply pool_inv_step|apply pool_inv_new]. Qed.

(** ** Choosing *)

Definition serving (s : SharedState) (slot h : nat) : Prop :=
  exists d, worker_tasks s !! slot = Some (WServing h, d).
Definition streams (s : SharedState) (slot : nat) : Z := default 0 (active_streams s !! slot).

Lemma elem_of_candidates args s slot l h :
  pool_inv args s -> (slot, l, h) ∈ candidates s <-> serving s slot h /\ l = streams s slot.
Proof.
  intros I. unfold candidates. rewrite list_elem_of_omap. split.
  - intros (o & (i & x & -> & Hx)%elem_of_lookup_imap & Ho). cbn in Ho. unfold candidate in Ho.
    apply bind_Some in Ho as (h' & -> & (w & Hw & Ho)%bind_Some). destruct (connected w) eqn:Hc; simplify_eq.
    split; [|done]. destruct (lookup_lt_is_Some_2 (worker_tasks s) slot) as [[pc d] Ht].
    { rewrite <-(pool_slots _ _ I). by eapply lookup_lt_Some. }
    pose proof (pool_flag _ _ I slot _ _ Ht Hw) as Hf. pose proof (pool_slot _ _ I slot _ _ Ht Hx) as Ha.
    rewrite Hc in Hf. exists d. rewrite Ht. by destruct pc; simplify_eq/=.
  - intros [(d & Ht) ->].
    destruct (lookup_lt_is_Some_2 (bridge_slots s) slot) as [x Hx].
    { rewrite (pool_slots _ _ I). by eapply lookup_lt_Some. }
    destruct (lookup_lt_is_Some_2 (bridge_workers s) slot) as [w Hw].
    { rewrite (pool_workers _ _ I). by eapply lookup_lt_Some. }
    pose proof (pool_flag _ _ I slot _ _ Ht Hw) as Hf. pose proof (pool_slot _ _ I slot _ _ Ht Hx) as Ha.
    cbn in Hf, Ha. subst x. exists (Some (slot, streams s slot, h)). split; [|done].
    apply elem_of_lookup_imap. exists slot, (Some h). split; [|done]. unfold candidate. cbn. rewrite Hw. cbn. by rewrite Hf.
Qed.

Lemma min_load_spec cs m :
  min_load cs = Some m -> (exists c, c ∈ cs /\ load c = m) /\ forall c, c ∈ cs -> m <= load c.
Proof.
  destruct cs as [|c0 cs]; [done|]. cbn. intros [= <-].
  assert (Hgen : forall cs m0, let m := foldl (fun m c => Z.min m (load c)) m0 cs in
    (m = m0 \/ exists c, c ∈ cs /\ load c = m) /\ m <= m0 /\ forall c, c ∈ cs -> m <= load c).
  { clear. intros cs. induction cs as [|c cs IH]; intros m0; cbn.
    - split_and!; [by left|lia|]. by intros c ?%elem_of_nil.
    - destruct (IH (Z.min m0 (load c))) as (Ha & Hb & Hc). split_and!; [|lia|].
      + destruct Ha as [Ha|(c' & Hin & Ha)]; [|right; exists c'; split; [by right|done]].
        destruct (Z.min_spec m0 (load c)) as [[_ E]|[_ E]]; [left; lia|].
        right. exists c. split; [left|lia].
      + intros c' [->|Hin]%elem_of_cons; [lia|]. by apply Hc. }
  destruct (Hgen cs (load c0)) as (Ha & Hb & Hc). split.
  - destruct Ha as [Ha|(c & Hin & Ha)]; [exists c0; split; [left|done]|exists c; split; [by right|done]].
  - intros c [->|Hin]%elem_of_cons; [done|by apply Hc].
Qed.

Lemma least_loaded_spec s c :
  c ∈ least_loaded s -> c ∈ candidates s /\ forall c', c' ∈ candidates s -> load c <= load c'.
Proof.
  unfold least_loaded. destruct (min_load (candidates s)) as [m|] eqn:E.
  - intros [Hm Hin]%list_elem_of_filter. split; [done|]. destruct (min_load_spec _ _ E) as [_ Hmin].
    intros c' Hc'. rewrite Hm. by apply Hmin.
  - destruct (candidates s); [|done]. by intros ?%elem_of_nil.
Qed.

Lemma least_loaded_nil s : least_loaded s = [] -> candidates s = [].
Proof.
  unfold least_loaded. destruct (min_load (candidates s)) as [m|] eqn:E; [|done].
  destruct (min_load_spec _ _ E) as [(c & Hin & Hm) _]. intros Hf.
  assert (Hc : c ∈ filter (fun c => load c = m) (candidates s)) by (by apply list_elem_of_filter).
  rewrite Hf in Hc. by apply elem_of_nil in Hc.
Qed.

(** ** Waiting and sleeping *)

(** The events that wake the handlers that wait. *)
Definition notifies (e : PoolEvent) : bool :=
  match e with EPublish _ | EUnpublish _ | EShutdown => true | _ => false end.

Lemma call_waiting_step args s e s' i :
  pool_step args s e = Some s' -> notifies e = false -> calls s !! i = Some CWaiting -> calls s' !! i = Some CWaiting.
Proof.
  intros Hs Hn Hi. assert (Hcall : forall j c s1, calls s !! j <> Some CWaiting -> calls s1 = calls s ->
    calls (set_call j c s1) !! i = Some CWaiting).
  { intros j c s1 Hj E. cbn. rewrite E, list_lookup_insert_ne; [done|]. intros ->. congruence. }
  destruct e; try done; cbn [pool_step] in Hs; simplify_eq; try done.
  1-7: apply bind_Some in Hs as ([pc d] & _ & Hs); destruct pc; try done; cbn in Hs; simplify_eq; try done;
    try (apply when_Some in Hs as [_ ->]; done); by destruct (shutdown s).
  - cbn. by apply lookup_app_l_Some.
  - destruct (calls s !! i0) as [[]|] eqn:E; try done; destruct (look s) as [c s1] eqn:El; simplify_eq;
      (apply Hcall; [congruence|]); unfold look in El; repeat (case_match; simplify_eq; try done).
  - destruct (calls s !! i0) as [[]|] eqn:E; simplify_eq. apply Hcall; congruence.
  - destruct (calls s !! i0) as [[]|] eqn:E; simplify_eq. apply Hcall; congruence.
Qed.

Lemma waiting_stays args es : forall s s' i,
  Forall (fun e => notifies e = false) es -> calls s !! i = Some CWaiting ->
  runs (pool_step args) s es = Some s' -> calls s' !! i = Some CWaiting.
Proof.
  induction es as [|e es IH]; intros s s' i Hn Hi; [by intros [= <-]|].
  apply Forall_cons_iff in Hn as [He Hn]. intros (s1 & H1 & Hr)%bind_Some.
  eapply IH; [done| |exact Hr]. by eapply call_waiting_step.
Qed.

Lemma backoff_base_closed args k :
  1 <= reconnect_delay_ms args ->
  backoff_base args k = Z.min (reconnect_delay_ms args * 2 ^ Z.of_nat k) (max_delay args).
Proof.
  intros Hd. assert (Hm : reconnect_delay_ms args <= max_delay args) by (unfold max_delay; lia).
  induction k as [|k IH]; [cbn; lia|]. cbn [backoff_base]. rewrite IH, Nat2Z.inj_succ, Z.pow_succ_r by lia. lia.
Qed.

(** ** Properties *)

(** A handler that looks for a bridge gets one that its worker serves at
    that moment, and with the fewest open streams among these; it gets none
    only when no worker serves one.  This holds in every state the workers,
    the handlers and the shutdown can reach. *)
Theorem bridge_least_loaded (args : ReconnectArgs) (b : bool) (n : nat) (es : list PoolEvent)
    (s s' : SharedState) (c : CallPc) :
  pool_reaches args b n es s -> look s = (c, s') ->
  match c with
  | CGot slot h => serving s slot h
      /\ forall slot' h', serving s slot' h' -> streams s slot <= streams s slot'
  | _ => forall slot h, ~ serving s slot h
  end.
Proof.
  intros I%pool_inv_reaches Hl. unfold look in Hl. destruct (least_loaded s) as [|c0 cs] eqn:E.
  - assert (Hno : forall slot h, ~ serving s slot h).
    { intros slot h Hs. assert (Hin : (slot, streams s slot, h) ∈ candidates s) by (by apply (elem_of_candidates args)).
      rewrite (least_loaded_nil _ E) in Hin. by apply elem_of_nil in Hin. }
    destruct (reconnect s); by simplify_eq.
  - rewrite <-E in Hl. assert (Hpos : 0 < len (least_loaded s)) by (rewrite E; cbn; lia).
    pose proof (Z.mod_pos_bound (next_bridge s) (len (least_loaded s)) Hpos) as Hb.
    destruct (lookup_lt_is_Some_2 (least_loaded s) (Z.to_nat (next_bridge s mod len (least_loaded s)))) as [[[slot l] h] Hx]; [lia|].
    rewrite Hx in Hl. simplify_eq. apply list_elem_of_lookup_2, least_loaded_spec in Hx as [Hc Hmin].
    apply (elem_of_candidates args) in Hc as [Hs ->]; [|done]. split; [done|].
    intros slot' h' Hs'. apply (Hmin (slot', streams s slot', h')). by apply (elem_of_candidates args).
Qed.

Definition sample_args : ReconnectArgs := {| reconnect_delay_ms := 1000; reconnect_max_delay_ms := 30000 |}.

Definition pool_events : list PoolEvent :=
  [EAttempt 0; EAttempt 1; EConnectErr 1 "refused"; EConnectOk 0 5 None; EUnpublish 1; EPublish 0; ERetry 1 7;
   EStreamOpen 0; EWakeUp 1; EAttempt 1; EConnectOk 1 6 None; EPublish 1].

Definition pool_state : SharedState :=
  default (SharedState_new true 2 sample_args)
    (runs (pool_step sample_args) (SharedState_new true 2 sample_args) pool_events).

Lemma bridge_least_loaded_witness :
  serving pool_state 1 6 /\ forall slot' h', serving pool_state slot' h' -> streams pool_state 1 <= streams pool_state slot'.
Proof.
  apply (bridge_least_loaded sample_args true 2 pool_events pool_state (look pool_state).2 (CGot 1 6));
    vm_compute; reflexivity.
Defined.

Definition sleeping_events : list PoolEvent :=
  [EAttempt 0; EConnectErr 0 "refused"; EUnpublish 0; ERetry 0 3; EWakeUp 0; EAttempt 0;
   EConnectErr 0 "refused"; EUnpublish 0; ERetry 0 748].
Definition sleeping_state : SharedState :=
  default (SharedState_new true 1 sample_args)
    (runs (pool_step sample_args) (SharedState_new true 1 sample_args) sleeping_events).

(** The delay before the next attempt of a worker doubles from the
    configured one up to its maximum, and the jitter adds or takes a quarter
    at most, never going beyond the maximum or below a millisecond. *)
Theorem reconnect_backoff_bounded (args : ReconnectArgs) (b : bool) (n : nat) (es : list PoolEvent)
    (s : SharedState) (slot : nat) (ms d : Z) :
  pool_reaches args b n es s -> worker_tasks s !! slot = Some (WSleeping ms, d) ->
  1 <= reconnect_delay_ms args -> max_delay args <= u_max 64 ->
  (exists k, d = Z.min (reconnect_delay_ms args * 2 ^ Z.of_nat k) (max_delay args))
  /\ 1 <= ms /\ d - d / 4 - 1 <= ms /\ ms <= d + d / 4 + 1 /\ ms <= max_delay args.
Proof.
  intros I%pool_inv_reaches Ht Hd Hm. destruct (pool_delay _ _ I slot _ Ht) as [k Hk]. cbn in Hk.
  pose proof (backoff_base_closed args k Hd) as Hc. rewrite <-Hk in Hc.
  destruct (pool_sleep _ _ I slot ms d Ht) as [seed Hs]. split; [by exists k|].
  assert (Hmd : reconnect_delay_ms args <= max_delay args) by (unfold max_delay; lia).
  assert (0 < 2 ^ Z.of_nat k) by (apply Z.pow_pos_nonneg; lia).
  assert (Hd1 : 1 <= d <= max_delay args) by nia. clear Hk Hc.
  unfold jittered_backoff in Hs. rewrite (Z.max_l d 1), (Z.max_l (max_delay args) d) in Hs by lia.
  pose proof (Z.mod_pos_bound seed (Z.max (d / 4) 1 + 1)) as Hb.
  assert (0 <= d / 4) by (apply Z.div_pos; lia).
  destruct (Z.land seed 1 =? 0); lia.
Qed.

Lemma reconnect_backoff_bounded_witness :
  exists ms d, worker_tasks sleeping_state !! 0%nat = Some (WSleeping ms, d)
  /\ (exists k, d = Z.min (reconnect_delay_ms sample_args * 2 ^ Z.of_nat k) (max_delay sample_args))
  /\ 1 <= ms /\ d - d / 4 - 1 <= ms /\ ms <= d + d / 4 + 1 /\ ms <= max_delay sample_args.
Proof.
  exists 2247, 2000. split; [vm_compute; reflexivity|].
  apply (reconnect_backoff_bounded sample_args true 1 sleeping_events sleeping_state 0).
  - vm_compute. reflexivity.
  - vm_compute. reflexivity.
  - vm_compute. congruence.
  - vm_compute. congruence.
Defined.

Definition lost_events : list PoolEvent :=
  [ECall; EAttempt 0; EConnectOk 0 5 None; ELook 0; EPublish 0; EWaitStart 0].
Definition lost_state (args : ReconnectArgs) : SharedState :=
  default (SharedState_new true 1 args) (runs (pool_step args) (SharedState_new true 1 args) lost_events).

(** A handler can miss its bridge: when a worker publishes its bridge
    between the handler's look and its wait, the notification is lost, and
    the handler waits, with a connected bridge in the pool, until a slot
    changes again or the proxy shuts down. *)
Theorem bridge_wakeup_lost (args : ReconnectArgs) :
  exists es s, pool_reaches args true 1 es s /\ serving s 0 5 /\ calls s !! 0%nat = Some CWaiting
  /\ forall es' s', Forall (fun e => notifies e = false) es' ->
     runs (pool_step args) s es' = Some s' -> calls s' !! 0%nat = Some CWaiting.
Proof.
  exists lost_events, (lost_state args). split; [vm_compute; reflexivity|].
  assert (Hc : calls (lost_state args) !! 0%nat = Some CWaiting) by (vm_compute; reflexivity).
  split; [exists (reconnect_delay_ms args); vm_compute; reflexivity|]. split; [exact Hc|].
  intros es' s' Hn. by apply waiting_stays.
Qed.
