(* ===== verification/Collections.v ===== *)
(** The standard collections the daemon's stores use: the order of strings,
    [BTreeMap] as a finite map whose entries are read in the order of their
    keys, the stable [sort_by_key] of slices, and [max_by_key]. *)

From Stdlib Require Import Strings.String Structures.OrdersEx.
From stdpp Require Import base gmap list strings sorting.
From S2P Require Import Prelude.

(** ** The order of strings *)

Definition str_ltb (a b : string) : bool :=
  match String.compare a b with Lt => true | _ => false end.
Definition str_lt (a b : string) : Prop := str_ltb a b = true.

#[global] Instance str_lt_dec a b : Decision (str_lt a b).
Proof. unfold str_lt. apply _. Defined.

Lemma str_lt_ot a b : str_lt a b <-> String_as_OT.lt a b.
Proof.
  unfold str_lt, str_ltb. pose proof (String_as_OT.compare_spec a b) as H.
  change (String_as_OT.compare a b) with (String.compare a b) in H.
  pose proof String_as_OT.lt_strorder as [Hi Ht].
  destruct H as [H|H|H]; split; try done.
  - intros Hl. change (a = b) in H. subst. by destruct (Hi b).
  - intros Hl. destruct (Hi a). by transitivity b.
Qed.

#[global] Instance str_lt_strict : StrictOrder str_lt.
Proof.
  pose proof String_as_OT.lt_strorder as [Hi Ht]. split.
  - intros a H%str_lt_ot. by destruct (Hi a).
  - intros a b c H1%str_lt_ot H2%str_lt_ot. apply str_lt_ot. by transitivity b.
Qed.

Lemma str_lt_total a b : a <> b -> str_lt a b \/ str_lt b a.
Proof.
  intros Hne. rewrite !str_lt_ot. pose proof (String_as_OT.compare_spec a b) as H.
  destruct H as [H|H|H]; [by destruct Hne|by left|by right].
Qed.

(** ** A stable sort *)

Lemma StronglySorted_mono {A} (R S : A -> A -> Prop) l :
  (forall x y, R x y -> S x y) -> StronglySorted R l -> StronglySorted S l.
Proof. intros H. induction 1; constructor; [done|]. eapply Forall_impl; [done|]. by intros y; apply H. Qed.

Section sort.
Context {A : Type} (le : A -> A -> bool).

Fixpoint insert_by (x : A) (l : list A) : list A :=
  match l with
  | [] => [x]
  | y :: l' => if le x y then x :: y :: l' else y :: insert_by x l'
  end.

(** [sort_by]: elements that are equal for the order keep their places. *)
Definition sort_by (l : list A) : list A := foldr insert_by [] l.

Lemma insert_by_perm x l : insert_by x l ≡ₚ x :: l.
Proof.
  induction l as [|y l IH]; [done|]. cbn. destruct (le x y); [done|].
  rewrite IH. apply Permutation_swap.
Qed.

Lemma sort_by_perm l : sort_by l ≡ₚ l.
Proof. induction l as [|x l IH]; [done|]. cbn. by rewrite insert_by_perm, IH. Qed.

Context (Htotal : forall x y, le x y = false -> le y x = true).
Context (Htrans : forall x y z, le x y = true -> le y z = true -> le x z = true).

(** In order, and in the order of [R] where the keys are equal. *)
Definition then_by (R : A -> A -> Prop) (x y : A) : Prop :=
  le x y = true /\ (le y x = true -> R x y).

Lemma insert_by_sorted (R : A -> A -> Prop) x l :
  Forall (R x) l -> StronglySorted (then_by R) l -> StronglySorted (then_by R) (insert_by x l).
Proof.
  intros HR HS. induction HS as [|y l HS IH Hy]; cbn; [by repeat constructor|].
  apply Forall_cons_iff in HR as [Hxy HR]. destruct (le x y) eqn:E.
  - constructor; [by constructor|]. constructor; [done|]. rewrite Forall_forall in Hy, HR |- *.
    intros z Hz. destruct (Hy z Hz) as [Hyz _]. split; [by eapply Htrans|]. intros _. by apply HR.
  - constructor; [by apply IH|]. rewrite insert_by_perm. constructor; [|done].
    split; [by apply Htotal|]. by rewrite E.
Qed.

Lemma sort_by_stable (R : A -> A -> Prop) l :
  StronglySorted R l -> StronglySorted (then_by R) (sort_by l).
Proof.
  induction 1 as [|x l HS IH Hx]; cbn; [constructor|].
  apply insert_by_sorted; [by rewrite sort_by_perm|done].
Qed.

Lemma sort_by_sorted l : StronglySorted (fun x y => le x y = true) (sort_by l).
Proof.
  induction l as [|x l IH]; cbn; [constructor|].
  apply (StronglySorted_mono (then_by (fun _ _ => True))); [by intros y z [? _]|].
  apply insert_by_sorted; [by apply Forall_true|]. by apply (StronglySorted_mono _ _ _ (fun y z H => conj H (fun _ => I))).
Qed.
End sort.

Lemma filter_all {A} (P : A -> Prop) `{!forall x, Decision (P x)} l : Forall P l -> filter P l = l.
Proof. induction 1; [done|]. rewrite filter_cons_True by done. by f_equal. Qed.

Lemma filter_none {A} (P : A -> Prop) `{!forall x, Decision (P x)} l :
  Forall (fun x => ~ P x) l -> filter P l = [].
Proof. induction 1; [done|]. by rewrite filter_cons_False. Qed.

Lemma length_filter_fmap {A B} (f : A -> B) (P : B -> Prop) `{!forall y, Decision (P y)} l :
  length (filter P (f <$> l)) = length (filter (fun x => P (f x)) l).
Proof.
  induction l as [|x l IH]; [done|]. rewrite fmap_cons, !filter_cons. repeat case_decide; cbn; try done; by rewrite IH.
Qed.

(** How many elements come after [x], in a list in strict order, tells where
    [x] is. *)
Lemma elem_of_drop_rank {A} `{EqDecision A} (R : A -> A -> Prop) `{!RelDecision R} `{!StrictOrder R} l n x :
  StronglySorted R l -> x ∈ l ->
  x ∈ drop n l <-> (n + length (filter (R x) l) < length l)%nat.
Proof.
  intros HS Hx. apply list_elem_of_split in Hx as (l1 & l2 & ->).
  apply StronglySorted_app in HS as (H12 & HS1 & [Hx HS2]%StronglySorted_cons).
  assert (Hn1 : x ∉ l1). { intros Hx1. apply (irreflexivity R x), H12; [done|by left]. }
  assert (Hn2 : x ∉ l2). { rewrite Forall_forall in Hx. intros Hx2. by apply (irreflexivity R x), Hx. }
  assert (Hf : filter (R x) (l1 ++ x :: l2) = l2).
  { rewrite filter_app, filter_cons_False by (apply irreflexivity, _).
    rewrite (filter_all (R x) l2) by done.
    assert (filter (R x) l1 = []) as ->; [|done].
    apply filter_none, Forall_forall. intros y Hy Hxy. apply (irreflexivity R x).
    transitivity y; [done|]. apply H12; [done|by left]. }
  rewrite Hf, length_app. cbn. split.
  - intros Hd. destruct (decide (n <= length l1)%nat); [lia|]. exfalso.
    rewrite drop_app_ge in Hd by lia. destruct (n - length l1)%nat eqn:E; [lia|]. cbn in Hd.
    apply Hn2. rewrite <-(take_drop n1 l2). set_solver.
  - intros Hlt. rewrite drop_app_le by lia. apply elem_of_app. right. by left.
Qed.

(** ** [BTreeMap] with string keys *)

Definition key_le {V} (p q : string * V) : bool := negb (str_ltb q.1 p.1).

Definition btree_entries {V} (m : gmap string V) : list (string * V) := sort_by key_le (map_to_list m).
Definition btree_values {V} (m : gmap string V) : list V := snd <$> btree_entries m.

Lemma key_le_total {V} (p q : string * V) : key_le p q = false -> key_le q p = true.
Proof.
  unfold key_le. rewrite negb_false_iff, negb_true_iff. intros H.
  destruct (str_ltb p.1 q.1) eqn:E; [|done]. by destruct (irreflexivity str_lt p.1); transitivity q.1.
Qed.

Lemma key_le_spec {V} (p q : string * V) : key_le p q = true <-> str_lt p.1 q.1 \/ p.1 = q.1.
Proof.
  unfold key_le. rewrite negb_true_iff. split.
  - intros H. destruct (decide (p.1 = q.1)) as [|Hne]; [by right|]. left.
    destruct (str_lt_total _ _ Hne) as [|Hl]; [done|]. unfold str_lt in Hl. congruence.
  - intros Hl. apply not_true_iff_false. intros Hq. destruct Hl as [Hl|Hl].
    + destruct (irreflexivity str_lt p.1). by transitivity q.1.
    + rewrite Hl in Hq. by destruct (irreflexivity str_lt q.1).
Qed.

Lemma key_le_trans {V} (p q r : string * V) : key_le p q = true -> key_le q r = true -> key_le p r = true.
Proof.
  rewrite !key_le_spec. intros [H1|H1] [H2|H2]; rewrite ?H1, <-?H2; auto.
  left. by transitivity q.1.
Qed.

Lemma btree_entries_perm {V} (m : gmap string V) : btree_entries m ≡ₚ map_to_list m.
Proof. apply sort_by_perm. Qed.

Lemma elem_of_btree_entries {V} (m : gmap string V) k v : (k, v) ∈ btree_entries m <-> m !! k = Some v.
Proof. by rewrite btree_entries_perm, elem_of_map_to_list. Qed.

Lemma NoDup_btree_keys {V} (m : gmap string V) : NoDup (btree_entries m).*1.
Proof. rewrite btree_entries_perm. apply NoDup_fst_map_to_list. Qed.

Lemma btree_entries_sorted {V} (m : gmap string V) :
  StronglySorted (fun p q => str_lt p.1 q.1) (btree_entries m).
Proof.
  pose proof (sort_by_sorted _ key_le_total key_le_trans (map_to_list m)) as HS.
  pose proof (NoDup_btree_keys m) as Hn. fold (btree_entries m) in HS. revert HS Hn.
  induction 1 as [|p l HS IH Hp]; intros Hn; [constructor|]. cbn in Hn. apply NoDup_cons in Hn as [Hni Hn].
  constructor; [by apply IH|]. rewrite Forall_forall in Hp |- *. intros q Hq.
  destruct (proj1 (key_le_spec p q) (Hp q Hq)) as [|E]; [done|].
  destruct Hni. rewrite E. by apply list_elem_of_fmap_2.
Qed.

Lemma elem_of_btree_values {V} (m : gmap string V) v : v ∈ btree_values m <-> exists k, m !! k = Some v.
Proof.
  unfold btree_values. rewrite list_elem_of_fmap. split.
  - intros ([k v'] & -> & H%elem_of_btree_entries). by exists k.
  - intros [k H%elem_of_btree_entries]. by exists (k, v).
Qed.

(** [Iterator::max_by_key]: the last of the elements with the largest key. *)
Definition max_by_key {A} (key : A -> Z) (l : list A) : option A :=
  foldl (fun best x => match best with
                       | Some b => if key x <? key b then Some b else Some x
                       | None => Some x
                       end) None l.

Lemma max_by_key_spec {A} (key : A -> Z) l :
  match max_by_key key l with
  | Some b => exists l1 l2, l = l1 ++ b :: l2 /\ Forall (fun x => key x <= key b) l1
              /\ Forall (fun x => key x < key b) l2
  | None => l = []
  end.
Proof.
  induction l as [|x l IH] using rev_ind; [done|]. unfold max_by_key in *. rewrite foldl_app. cbn.
  destruct (foldl _ None l) as [b|].
  - destruct IH as (l1 & l2 & -> & H1 & H2). destruct (Z.ltb_spec (key x) (key b)).
    + exists l1, (l2 ++ [x]). split; [by rewrite <-app_assoc|]. split; [done|].
      by apply Forall_app_2; [|repeat constructor].
    + exists (l1 ++ b :: l2), []. split; [done|]. split; [|constructor].
      apply Forall_app_2; [eapply Forall_impl; [done|cbn; lia]|].
      constructor; [done|]. eapply Forall_impl; [done|cbn; lia].
  - subst. by exists [], [].
Qed.
