(* ===== verification/Jobs.v ===== *)
(** The daemon's jobs: the record of a job and its transitions
    (crates/ssh-proxy-daemon/src/job.rs), the repair actions attached to its
    blockers (crates/ssh-proxy-core/src/repair.rs) and the job registry with
    its event ring, its pruning and its file
    (crates/ssh-proxy/src/node_daemon/jobs.rs).  The clock is an argument of
    the operations that read it. *)

From Stdlib Require Import Strings.String.
From stdpp Require Import base gmap list strings sorting.
From S2P Require Import Prelude RustStr Mux Collections.

(** ** Repair actions *)

Record RepairAction := MkAction {
  ra_id : string; ra_label : string; ra_kind : string; ra_command : option string;
  ra_interactive : bool; ra_requires_elevation : bool; ra_retry_after_ms : option Z; ra_message : option string;
}.

Definition RepairAction_new (id label kind : string) : RepairAction :=
  MkAction id label kind None false false None None.
Definition with_command (c : string) (a : RepairAction) : RepairAction :=
  MkAction (ra_id a) (ra_label a) (ra_kind a) (Some c) (ra_interactive a) (ra_requires_elevation a)
    (ra_retry_after_ms a) (ra_message a).
Definition interactive (elevation : bool) (a : RepairAction) : RepairAction :=
  MkAction (ra_id a) (ra_label a) (ra_kind a) (ra_command a) true elevation (ra_retry_after_ms a) (ra_message a).
Definition with_retry (ms : Z) (a : RepairAction) : RepairAction :=
  MkAction (ra_id a) (ra_label a) (ra_kind a) (ra_command a) (ra_interactive a) (ra_requires_elevation a)
    (Some ms) (ra_message a).
Definition with_message (t : string) (a : RepairAction) : RepairAction :=
  MkAction (ra_id a) (ra_label a) (ra_kind a) (ra_command a) (ra_interactive a) (ra_requires_elevation a)
    (ra_retry_after_ms a) (Some t).

Definition install_command : string := "ssh_proxy daemon install --scope system --elevate".

Definition action_for_blocker (blocker : string) : option RepairAction :=
  let eq s := String.eqb blocker s in
  if eq "daemon_unavailable" then Some
    (with_message "Install or start the system daemon, then retry the proxy session."
    (with_retry 1000 (interactive true (with_command install_command
    (RepairAction_new "install_daemon" "Install ssh_proxy daemon" "daemon_install")))))
  else if eq "daemon_pipe_access_denied" then Some
    (with_message "Reinstall the daemon to repair the private control endpoint ACL."
    (with_retry 1000 (interactive true (with_command install_command
    (RepairAction_new "repair_daemon_acl" "Repair daemon permissions" "daemon_reinstall")))))
  else if eq "node_control_token_required" || eq "invalid_node_control_token" then Some
    (with_message "The running daemon is using stale token-based control; reinstall to migrate it."
    (interactive true (with_command install_command
    (RepairAction_new "reinstall_stale_daemon" "Repair stale daemon configuration" "daemon_reinstall"))))
  else if eq "requires_elevation" then Some
    (with_message "This action needs an interactive elevation prompt."
    (interactive true (with_command install_command
    (RepairAction_new "run_elevated_install" "Run elevated install" "daemon_install"))))
  else if eq "cancelled_by_user" then Some
    (with_message "The elevated install was cancelled before the daemon could be repaired."
    (interactive true (with_command install_command
    (RepairAction_new "retry_daemon_install" "Retry daemon install" "daemon_install"))))
  else if eq "route_already_running_different_spec" then Some
    (with_message "Stop or adopt the existing daemon-owned route, then retry."
    (with_command "ssh_proxy down --target <target> --json"
    (RepairAction_new "restart_conflicting_route" "Restart conflicting route" "route_repair")))
  else if eq "handoff_timeout" || eq "remote_port_refused" || eq "remote_port_not_ready" then Some
    (with_message "The daemon will retry once; collect a report if the remote port stays unavailable."
    (with_retry 1000 (with_command "ssh_proxy doctor --json --report"
    (RepairAction_new "retry_remote_handoff" "Retry remote handoff" "proxy_session_retry"))))
  else if eq "ssh_auth_failed" then Some
    (with_message "Make the same identity available to the Windows OpenSSH agent/Pageant or use an unencrypted identity file."
    (with_command "ssh-add <identity-file>"
    (RepairAction_new "repair_ssh_auth" "Repair SSH authentication" "ssh_auth")))
  else if eq "ssh_config_unsupported" then Some
    (with_message "The Rust SSH path found an unsupported OpenSSH directive; external SSH must be explicitly allowed."
    (RepairAction_new "use_emergency_external_ssh" "Use explicit external SSH compatibility" "emergency_compat"))
  else if eq "remote_setup_failed" then Some
    (with_message "Rerun daemon-owned remote setup after checking the report."
    (with_command "ssh_proxy vscode apply-settings --json"
    (RepairAction_new "rerun_apply_settings" "Apply remote settings again" "remote_setup")))
  else if eq "remote_peer_install_failed" then Some
    (with_message "Collect a daemon report, then retry the daemon-owned remote peer install."
    (with_retry 1000 (with_command "ssh_proxy doctor --json --report --target <target>"
    (RepairAction_new "repair_remote_peer" "Repair remote peer" "remote_peer_repair"))))
  else None.

(** ** Job records *)

Inductive DaemonJobState := Queued | Running | WaitingRetry | Healthy | Failed | Cancelled.

#[global] Instance DaemonJobState_eq_dec : EqDecision DaemonJobState.
Proof. solve_decision. Defined.

Definition is_terminal (s : DaemonJobState) : bool :=
  match s with Healthy | Failed | Cancelled => true | _ => false end.

Inductive DaemonJobPhase :=
| PQueued | PReconciling | PResolveTarget | PValidateLocalProxy | PSelectRemotePort | PEnsureLocalProxy
| PEnsurePeer | PInspectPeerDescriptor | PDependencyCheck | PStageRemotePeer | PWritePeerConfig
| PInstallPeerService | PStartPeerService | PPeerHealthProbe | PRecordPeer | PEnsureTransport | PPlanRoute
| PStartRoute | PWaitRouteReady | PVerifyRemotePort | PApplyRemoteSettings | PHealthMonitoring | PStageUpdate
| PVerifyUpdate | PSwitchBinary | PRestartDaemon | PRollback | PHealthy | PFailed | PCancelled.

#[global] Instance DaemonJobPhase_eq_dec : EqDecision DaemonJobPhase.
Proof. solve_decision. Defined.

(** [enum_value]: the names serde gives, in snake case. *)
Definition state_value (s : DaemonJobState) : string :=
  match s with
  | Queued => "queued" | Running => "running" | WaitingRetry => "waiting_retry"
  | Healthy => "healthy" | Failed => "failed" | Cancelled => "cancelled"
  end.

Definition phase_value (p : DaemonJobPhase) : string :=
  match p with
  | PQueued => "queued" | PReconciling => "reconciling" | PResolveTarget => "resolve_target"
  | PValidateLocalProxy => "validate_local_proxy" | PSelectRemotePort => "select_remote_port"
  | PEnsureLocalProxy => "ensure_local_proxy" | PEnsurePeer => "ensure_peer"
  | PInspectPeerDescriptor => "inspect_peer_descriptor" | PDependencyCheck => "dependency_check"
  | PStageRemotePeer => "stage_remote_peer" | PWritePeerConfig => "write_peer_config"
  | PInstallPeerService => "install_peer_service" | PStartPeerService => "start_peer_service"
  | PPeerHealthProbe => "peer_health_probe" | PRecordPeer => "record_peer"
  | PEnsureTransport => "ensure_transport" | PPlanRoute => "plan_route" | PStartRoute => "start_route"
  | PWaitRouteReady => "wait_route_ready" | PVerifyRemotePort => "verify_remote_port"
  | PApplyRemoteSettings => "apply_remote_settings" | PHealthMonitoring => "health_monitoring"
  | PStageUpdate => "stage_update" | PVerifyUpdate => "verify_update" | PSwitchBinary => "switch_binary"
  | PRestartDaemon => "restart_daemon" | PRollback => "rollback" | PHealthy => "healthy"
  | PFailed => "failed" | PCancelled => "cancelled"
  end.

Record DaemonJobRecord := MkJob {
  job_id : string; job_kind : string; job_state : DaemonJobState; job_phase : DaemonJobPhase;
  job_progress : Z; job_blocker : option string; job_next_action : option string;
  job_repair_action : option RepairAction; job_last_error : option string;
  job_retry_after_ms : option Z; job_recovery_attempts : Z; job_target : option string;
  job_workspace_id : option string; job_route_id : option string; job_remote_url : option string;
  job_created_at_unix : Z; job_updated_at_unix : Z;
}.

Definition JobRecord_new (now : Z) (id kind : string) : DaemonJobRecord :=
  MkJob id kind Queued PQueued 0 None None None None None 0 None None None None now now.

Definition transition (now : Z) (state : DaemonJobState) (phase : DaemonJobPhase) (progress : Z)
    (j : DaemonJobRecord) : DaemonJobRecord :=
  MkJob (job_id j) (job_kind j) state phase (Z.min progress 100) (job_blocker j) (job_next_action j)
    (job_repair_action j) (match state with Failed => job_last_error j | _ => None end)
    (match state with WaitingRetry => job_retry_after_ms j | _ => None end) (job_recovery_attempts j)
    (job_target j) (job_workspace_id j) (job_route_id j) (job_remote_url j) (job_created_at_unix j) now.

Definition with_target (t : string) (j : DaemonJobRecord) : DaemonJobRecord :=
  MkJob (job_id j) (job_kind j) (job_state j) (job_phase j) (job_progress j) (job_blocker j) (job_next_action j)
    (job_repair_action j) (job_last_error j) (job_retry_after_ms j) (job_recovery_attempts j)
    (Some t) (job_workspace_id j) (job_route_id j) (job_remote_url j) (job_created_at_unix j) (job_updated_at_unix j).
Definition with_workspace (w : option string) (j : DaemonJobRecord) : DaemonJobRecord :=
  MkJob (job_id j) (job_kind j) (job_state j) (job_phase j) (job_progress j) (job_blocker j) (job_next_action j)
    (job_repair_action j) (job_last_error j) (job_retry_after_ms j) (job_recovery_attempts j)
    (job_target j) w (job_route_id j) (job_remote_url j) (job_created_at_unix j) (job_updated_at_unix j).
Definition with_route (r : string) (j : DaemonJobRecord) : DaemonJobRecord :=
  MkJob (job_id j) (job_kind j) (job_state j) (job_phase j) (job_progress j) (job_blocker j) (job_next_action j)
    (job_repair_action j) (job_last_error j) (job_retry_after_ms j) (job_recovery_attempts j)
    (job_target j) (job_workspace_id j) (Some r) (job_remote_url j) (job_created_at_unix j) (job_updated_at_unix j).
Definition with_remote_url (u : option string) (j : DaemonJobRecord) : DaemonJobRecord :=
  MkJob (job_id j) (job_kind j) (job_state j) (job_phase j) (job_progress j) (job_blocker j) (job_next_action j)
    (job_repair_action j) (job_last_error j) (job_retry_after_ms j) (job_recovery_attempts j)
    (job_target j) (job_workspace_id j) (job_route_id j) u (job_created_at_unix j) (job_updated_at_unix j).
Definition with_next_action (a : string) (j : DaemonJobRecord) : DaemonJobRecord :=
  MkJob (job_id j) (job_kind j) (job_state j) (job_phase j) (job_progress j) (job_blocker j) (Some a)
    (job_repair_action j) (job_last_error j) (job_retry_after_ms j) (job_recovery_attempts j)
    (job_target j) (job_workspace_id j) (job_route_id j) (job_remote_url j) (job_created_at_unix j) (job_updated_at_unix j).
Definition with_retry_after_ms (ms : Z) (j : DaemonJobRecord) : DaemonJobRecord :=
  MkJob (job_id j) (job_kind j) (job_state j) (job_phase j) (job_progress j) (job_blocker j) (job_next_action j)
    (job_repair_action j) (job_last_error j) (Some ms) (job_recovery_attempts j)
    (job_target j) (job_workspace_id j) (job_route_id j) (job_remote_url j) (job_created_at_unix j) (job_updated_at_unix j).
Definition with_recovery_attempts (n : Z) (j : DaemonJobRecord) : DaemonJobRecord :=
  MkJob (job_id j) (job_kind j) (job_state j) (job_phase j) (job_progress j) (job_blocker j) (job_next_action j)
    (job_repair_action j) (job_last_error j) (job_retry_after_ms j) n
    (job_target j) (job_workspace_id j) (job_route_id j) (job_remote_url j) (job_created_at_unix j) (job_updated_at_unix j).

(** [failed]: the record of a failure, with the repair its blocker has. *)
Definition job_failed (now : Z) (error : string) (blocker : option string) (j : DaemonJobRecord) : DaemonJobRecord :=
  MkJob (job_id j) (job_kind j) Failed PFailed 100 blocker (job_next_action j)
    (b ← blocker; action_for_blocker b) (Some error) None (job_recovery_attempts j)
    (job_target j) (job_workspace_id j) (job_route_id j) (job_remote_url j) (job_created_at_unix j) now.

Definition job_health (j : DaemonJobRecord) : string :=
  match job_state j with
  | Healthy => "healthy" | Failed => "failed" | Cancelled => "cancelled"
  | Queued | Running | WaitingRetry => "starting"
  end.

(** ** The registry *)

Record DaemonJobEvent := MkEvent {
  ev_job_id : string; ev_state : DaemonJobState; ev_phase : DaemonJobPhase; ev_message : string;
  ev_created_at_unix : Z;
}.

Definition JOB_STORE_VERSION : Z := 1.
Definition MAX_EVENTS : nat := 256.
Definition MAX_TERMINAL_JOBS : nat := 64.

Record JobStore := MkJobStore {
  js_version : Z; js_jobs : gmap string DaemonJobRecord; js_events : list DaemonJobEvent }.

Definition JobStore_default : JobStore := MkJobStore JOB_STORE_VERSION ∅ [].

Definition job_event (now : Z) (record : DaemonJobRecord) (message : string) : DaemonJobEvent :=
  MkEvent (job_id record) (job_state record) (job_phase record) message now.

(** The ring keeps the last events: the excess is drained from the front. *)
Definition push_event (now : Z) (record : DaemonJobRecord) (message : string) (s : JobStore) : JobStore :=
  let events := js_events s ++ [job_event now record message] in
  MkJobStore (js_version s) (js_jobs s)
    (if (MAX_EVENTS <? length events)%nat then drop (length events - MAX_EVENTS) events else events).

Definition terminal_jobs (s : JobStore) : list DaemonJobRecord :=
  filter (fun j => is_terminal (job_state j) = true) (btree_values (js_jobs s)).

Definition prune_store (s : JobStore) : JobStore :=
  let terminal := length (terminal_jobs s) in
  if (terminal <=? MAX_TERMINAL_JOBS)%nat then s
  else
    let terminal_ids := (fun j => (job_updated_at_unix j, job_id j)) <$> terminal_jobs s in
    let terminal_ids := sort_by (fun p q => p.1 <=? q.1) terminal_ids in
    MkJobStore (js_version s)
      (foldl (fun jobs p => delete p.2 jobs) (js_jobs s) (take (terminal - MAX_TERMINAL_JOBS) terminal_ids))
      (js_events s).

Definition insert_job (record : DaemonJobRecord) (s : JobStore) : JobStore :=
  MkJobStore (js_version s) (<[job_id record := record]> (js_jobs s)) (js_events s).

(** What [upsert] does to the store in memory, under its lock. *)
Definition upsert_store (now : Z) (record : DaemonJobRecord) (message : string) (s : JobStore) : JobStore :=
  prune_store (push_event now record message (insert_job record s)).

Definition jobs_get (id : string) (s : JobStore) : option DaemonJobRecord := js_jobs s !! id.
Definition jobs_list (s : JobStore) : list DaemonJobRecord := btree_values (js_jobs s).
Definition jobs_events (id : option string) (s : JobStore) : list DaemonJobEvent :=
  filter (fun e => match id with Some id => String.eqb (ev_job_id e) id | None => true end = true) (js_events s).

Definition latest_update_job (jobs : list DaemonJobRecord) : option DaemonJobRecord :=
  max_by_key job_updated_at_unix (filter (fun j => job_kind j = "self_update"%string) jobs).

Record JobsSummary := MkSummary {
  sum_total : Z; sum_queued : Z; sum_running : Z; sum_healthy : Z; sum_failed : Z }.

Definition count_job (c : JobsSummary) (j : DaemonJobRecord) : JobsSummary :=
  match job_state j with
  | Queued => MkSummary (sum_total c) (sum_queued c + 1) (sum_running c) (sum_healthy c) (sum_failed c)
  | Running | WaitingRetry => MkSummary (sum_total c) (sum_queued c) (sum_running c + 1) (sum_healthy c) (sum_failed c)
  | Healthy => MkSummary (sum_total c) (sum_queued c) (sum_running c) (sum_healthy c + 1) (sum_failed c)
  | Failed => MkSummary (sum_total c) (sum_queued c) (sum_running c) (sum_healthy c) (sum_failed c + 1)
  | Cancelled => c
  end.
Definition jobs_summary (jobs : list DaemonJobRecord) : JobsSummary :=
  foldl count_job (MkSummary (len jobs) 0 0 0 0) jobs.

(** ** The file *)

(** The texts are serde's: what is written is read back. *)
Class JobCodec := {
  to_string_pretty : JobStore -> result string string;
  from_str : string -> result string JobStore;
  from_to_string : forall s t, to_string_pretty s = Ok t -> from_str t = Ok s;
}.

Inductive FileState := FileMissing | FileUnreadable (e : string) | FileText (text : string).

Record JobRegistry := MkRegistry { jr_store : JobStore; jr_file : FileState }.

Section registry.
Context `{JobCodec}.

Definition jobs_load (file : FileState) : JobRegistry :=
  MkRegistry match file with
             | FileText text => match from_str text with Ok s => s | Err _ => JobStore_default end
             | FileMissing => JobStore_default
             | FileUnreadable _ => JobStore_default
             end file.

(** [save_text_file_private] replaces the file as a whole or leaves it; [saved]
    says which. *)
Definition save_store (saved : bool) (s : JobStore) (file : FileState) : result string unit * FileState :=
  match to_string_pretty s with
  | Err e => (Err e, file)
  | Ok text => if saved then (Ok tt, FileText text) else (Err "failed to save daemon job store"%string, file)
  end.

Definition upsert (now : Z) (saved : bool) (record : DaemonJobRecord) (message : string) (r : JobRegistry) :
    result string DaemonJobRecord * JobRegistry :=
  let s := upsert_store now record message (jr_store r) in
  let '(res, file) := save_store saved s (jr_file r) in
  (_ ← res; Ok record, MkRegistry s file).
End registry.

(** ** What pruning keeps *)

(** The order in which terminal jobs are given up: the oldest first, and by
    their names within a second. *)
Definition before (p q : Z * string) : Prop := p.1 < q.1 \/ p.1 = q.1 /\ str_lt p.2 q.2.

#[global] Instance before_dec : RelDecision before.
Proof. intros p q. unfold before. apply _. Defined.
#[global] Instance before_strict : StrictOrder before.
Proof.
  split.
  - intros p [?|[_ H]]; [lia|]. by apply (irreflexivity str_lt) in H.
  - intros p q r [?|[? ?]] [?|[? ?]]; [left; lia|left; lia|left; lia|right]. split; [lia|by transitivity q.2].
Qed.

Definition stamp (j : DaemonJobRecord) : Z * string := (job_updated_at_unix j, job_id j).
Definition job_before (j1 j2 : DaemonJobRecord) : Prop := before (stamp j1) (stamp j2).
#[global] Instance job_before_dec j1 j2 : Decision (job_before j1 j2).
Proof. unfold job_before. apply _. Defined.

(** Every job is stored under its own name. *)
Definition jobs_keyed (s : JobStore) : Prop := forall k j, js_jobs s !! k = Some j -> job_id j = k.

(** The jobs that are kept: those not finished, and of the finished ones those
    with fewer than [MAX_TERMINAL_JOBS] finished ones after them. *)
Definition kept (s : JobStore) (j : DaemonJobRecord) : Prop :=
  is_terminal (job_state j) = false \/ (length (filter (job_before j) (terminal_jobs s)) < MAX_TERMINAL_JOBS)%nat.

#[global] Instance kept_dec s j : Decision (kept s j).
Proof. unfold kept. apply _. Defined.

Lemma elem_of_terminal_jobs s j :
  jobs_keyed s -> j ∈ terminal_jobs s <-> js_jobs s !! job_id j = Some j /\ is_terminal (job_state j) = true.
Proof.
  intros Hk. unfold terminal_jobs. rewrite list_elem_of_filter, elem_of_btree_values. split.
  - intros [Ht [k Hj]]. split; [|done]. by rewrite (Hk k j Hj).
  - intros [Hj Ht]. split; [done|by exists (job_id j)].
Qed.

Definition sorted_stamps (s : JobStore) : list (Z * string) :=
  sort_by (fun p q => p.1 <=? q.1) (stamp <$> terminal_jobs s).

Lemma terminal_jobs_sorted s :
  jobs_keyed s -> StronglySorted (fun p q => str_lt p.2 q.2) (stamp <$> terminal_jobs s).
Proof.
  intros Hk. unfold terminal_jobs, btree_values.
  assert (Hin : Forall (fun p => job_id p.2 = p.1) (btree_entries (js_jobs s))).
  { apply Forall_forall. intros [k j] Hj%elem_of_btree_entries. by apply Hk. }
  pose proof (btree_entries_sorted (js_jobs s)) as HS.
  induction HS as [|[k j] l HS IH Hj]; [constructor|]. apply Forall_cons_iff in Hin as [Hkj Hin].
  cbn [fmap list_fmap snd] in *. destruct (decide (is_terminal (job_state j) = true)) as [Ht|Ht].
  - rewrite filter_cons_True by done. cbn. constructor; [by apply IH|].
    apply Forall_forall. intros p (j' & -> & [_ Hj']%list_elem_of_filter)%list_elem_of_fmap.
    apply list_elem_of_fmap in Hj' as ([k' j''] & -> & Hl). cbn in *. rewrite Hkj.
    rewrite Forall_forall in Hj, Hin. pose proof (Hin _ Hl) as E. cbn in E. rewrite E. exact (Hj _ Hl).
  - rewrite filter_cons_False by done. by apply IH.
Qed.

Lemma sorted_stamps_sorted s : jobs_keyed s -> StronglySorted before (sorted_stamps s).
Proof.
  intros Hk. eapply StronglySorted_mono; [|apply sort_by_stable; [..|by apply terminal_jobs_sorted]].
  - intros p q [Hle HR]. unfold before. destruct (Z.leb_spec p.1 q.1); [|done].
    destruct (decide (p.1 = q.1)) as [E|]; [right; split; [done|apply HR; lia]|left; lia].
  - intros p q. cbn. lia.
  - intros p q r. cbn. lia.
Qed.

Lemma sorted_stamps_perm s : sorted_stamps s ≡ₚ stamp <$> terminal_jobs s.
Proof. apply sort_by_perm. Qed.

Lemma length_sorted_stamps s : length (sorted_stamps s) = length (terminal_jobs s).
Proof. by rewrite sorted_stamps_perm, length_fmap. Qed.

Lemma elem_of_sorted_stamps s p :
  jobs_keyed s ->
  p ∈ sorted_stamps s <-> exists j, js_jobs s !! p.2 = Some j /\ is_terminal (job_state j) = true /\ p = stamp j.
Proof.
  intros Hk. rewrite sorted_stamps_perm, list_elem_of_fmap. split.
  - intros (j & -> & [Hj Ht]%elem_of_terminal_jobs); [|done]. by exists j.
  - intros (j & Hj & Ht & ->). exists j. split; [done|]. by apply elem_of_terminal_jobs.
Qed.

Lemma lookup_delete_all (l : list (Z * string)) (m : gmap string DaemonJobRecord) k :
  foldl (fun m p => delete p.2 m) m l !! k = if decide (k ∈ l.*2) then None else m !! k.
Proof.
  revert m. induction l as [|p l IH]; intros m; cbn.
  { rewrite decide_False; [done|]. apply not_elem_of_nil. }
  rewrite IH. destruct (decide (k = p.2)) as [->|Hne].
  - rewrite lookup_delete_eq. assert (H : p.2 ∈ p.2 :: l.*2) by (by left). rewrite (decide_True _ _ H). by case_decide.
  - rewrite lookup_delete_ne by done.
    destruct (decide (k ∈ l.*2)); [rewrite decide_True by (by right)|rewrite decide_False]; [done..|].
    by rewrite elem_of_cons; intros [|].
Qed.

(** The stamps that are given up. *)
Lemma dropped_stamp s k j :
  jobs_keyed s -> js_jobs s !! k = Some j -> is_terminal (job_state j) = true ->
  k ∈ (take (length (terminal_jobs s) - MAX_TERMINAL_JOBS) (sorted_stamps s)).*2 <-> ~ kept s j.
Proof.
  intros Hk Hj Ht. set (n := (length (terminal_jobs s) - MAX_TERMINAL_JOBS)%nat).
  pose proof (Hk k j Hj) as Ek. pose proof (sorted_stamps_sorted s Hk) as HS.
  assert (Hin : stamp j ∈ sorted_stamps s).
  { apply elem_of_sorted_stamps; [done|]. exists j. cbn. by rewrite Ek. }
  assert (Hlen : length (filter (before (stamp j)) (sorted_stamps s)) = length (filter (job_before j) (terminal_jobs s))).
  { rewrite sorted_stamps_perm. exact (length_filter_fmap stamp (before (stamp j)) (terminal_jobs s)). }
  assert (Hrank := elem_of_drop_rank before _ n _ HS Hin). rewrite Hlen, length_sorted_stamps in Hrank.
  assert (Hlt : (length (filter (job_before j) (terminal_jobs s)) < length (terminal_jobs s))%nat).
  { pose proof (elem_of_drop_rank before _ 0 _ HS Hin) as H0. rewrite Hlen, length_sorted_stamps in H0. apply H0. done. }
  assert (Hkept : stamp j ∈ drop n (sorted_stamps s) <-> kept s j).
  { rewrite Hrank. unfold kept. rewrite Ht. unfold n. split; [right; lia|intros [?|?]; [done|lia]]. }
  rewrite <-Hkept. rewrite <-(take_drop n (sorted_stamps s)) in HS. apply StronglySorted_app in HS as (Hcross & _ & _).
  split.
  - intros (p & Ep & Hp)%list_elem_of_fmap Hd.
    assert (p = stamp j) as ->.
    { assert (Hps : p ∈ sorted_stamps s) by (rewrite <-(take_drop n (sorted_stamps s)); apply elem_of_app; by left).
      apply elem_of_sorted_stamps in Hps as (j' & Hj' & _ & ->); [|done]. rewrite <-Ep in Hj'. congruence. }
    by apply (irreflexivity before (stamp j)), Hcross.
  - intros Hd. rewrite <-(take_drop n (sorted_stamps s)) in Hin. apply elem_of_app in Hin as [Hin|]; [|done].
    rewrite <-Ek. by apply (list_elem_of_fmap_2 snd) in Hin.
Qed.

Lemma prune_lookup s k :
  jobs_keyed s ->
  js_jobs (prune_store s) !! k = j ← js_jobs s !! k; if decide (kept s j) then Some j else None.
Proof.
  intros Hk. unfold prune_store. destruct (Nat.leb_spec (length (terminal_jobs s)) MAX_TERMINAL_JOBS) as [Hle|Hgt].
  - destruct (js_jobs s !! k) as [j|] eqn:Hj; [cbn|done]. rewrite decide_True; [done|].
    destruct (is_terminal (job_state j)) eqn:Ht; [|by left].
    destruct (decide (kept s j)) as [|Hn]; [done|]. apply (dropped_stamp s k j Hk Hj Ht) in Hn.
    replace (_ - _)%nat with O in Hn by lia. cbn in Hn. by apply elem_of_nil in Hn.
  - cbn [js_jobs]. fold (sorted_stamps s). rewrite lookup_delete_all.
    destruct (js_jobs s !! k) as [j|] eqn:Hj; [cbn|by case_decide].
    destruct (is_terminal (job_state j)) eqn:Ht.
    + pose proof (dropped_stamp s k j Hk Hj Ht) as Hd. do 2 case_decide; try done; tauto.
    + rewrite (decide_True (P := kept s j)) by (by left). rewrite decide_False; [done|].
      intros (p & Ep & Hp)%list_elem_of_fmap.
      assert (Hps : p ∈ sorted_stamps s).
      { rewrite <-(take_drop (length (terminal_jobs s) - MAX_TERMINAL_JOBS) (sorted_stamps s)). apply elem_of_app. by left. }
      apply elem_of_sorted_stamps in Hps as (j' & Hj' & Ht' & ->); [|done]. rewrite <-Ep in Hj'. congruence.
Qed.

Lemma prune_keyed s : jobs_keyed s -> jobs_keyed (prune_store s).
Proof.
  intros Hk k j. rewrite prune_lookup by done. intros (j' & Hj & H)%bind_Some. case_decide; simplify_eq. by apply Hk.
Qed.

Lemma prune_bound s : jobs_keyed s -> (length (terminal_jobs (prune_store s)) <= MAX_TERMINAL_JOBS)%nat.
Proof.
  intros Hk. set (n := (length (terminal_jobs s) - MAX_TERMINAL_JOBS)%nat).
  pose proof (prune_keyed s Hk) as Hk'.
  assert (Hsub : forall p, p ∈ sorted_stamps (prune_store s) -> p ∈ drop n (sorted_stamps s)).
  { intros p (j & Hj & Ht & ->)%elem_of_sorted_stamps; [|done]. rewrite prune_lookup in Hj by done.
    apply bind_Some in Hj as (j' & Hj & E). case_decide as Hkept; simplify_eq.
    assert (Hin : stamp j ∈ sorted_stamps s) by (apply elem_of_sorted_stamps; [done|by exists j]).
    rewrite <-(take_drop n (sorted_stamps s)) in Hin. apply elem_of_app in Hin as [Hin|]; [|done].
    apply (list_elem_of_fmap_2 snd) in Hin. by apply (dropped_stamp s _ j Hk Hj Ht) in Hin. }
  rewrite <-length_sorted_stamps. transitivity (length (drop n (sorted_stamps s))).
  - apply submseteq_length, NoDup_submseteq; [|done].
    pose proof (sorted_stamps_sorted _ Hk') as HS. clear -HS. induction HS as [|p l HS IH Hp]; constructor; [|done].
    intros Hin. rewrite Forall_forall in Hp. by apply (irreflexivity before p), Hp.
  - rewrite length_drop, length_sorted_stamps. unfold n. lia.
Qed.

(** ** Histories *)

Definition Upsert : Type := Z * DaemonJobRecord * string.
Definition do_upsert (s : JobStore) (u : Upsert) : JobStore := upsert_store u.1.1 u.1.2 u.2 s.
Definition do_upserts (us : list Upsert) (s : JobStore) : JobStore := foldl do_upsert s us.

(** The record last written for a job. *)
Definition last_record (id : string) (us : list Upsert) : option DaemonJobRecord :=
  last (filter (fun j => job_id j = id) ((fun u => u.1.2) <$> us)).

Definition last_n {A} (n : nat) (l : list A) : list A := drop (length l - n) l.

Lemma last_n_snoc {A} n (l : list A) x :
  (0 < n)%nat ->
  (let l' := last_n n l ++ [x] in if (n <? length l')%nat then drop (length l' - n) l' else l') = last_n n (l ++ [x]).
Proof.
  intros Hn. unfold last_n. cbn zeta. rewrite !length_app, !length_drop. cbn [length].
  destruct (Nat.ltb_spec n (length l - (length l - n) + 1)).
  - rewrite drop_app_le by (rewrite length_drop; lia). rewrite drop_drop, drop_app_le by lia. do 2 f_equal. lia.
  - rewrite drop_app_le by lia. do 2 f_equal. lia.
Qed.

Lemma push_event_jobs now r m s : js_jobs (push_event now r m s) = js_jobs s.
Proof. done. Qed.

Lemma prune_events s : js_events (prune_store s) = js_events s.
Proof. unfold prune_store. by destruct (_ <=? _)%nat. Qed.

Lemma insert_keyed r s : jobs_keyed s -> jobs_keyed (insert_job r s).
Proof. intros Hk k j. cbn. intros [[<- <-]|[_ Hj]]%lookup_insert_Some; [done|by apply Hk]. Qed.

Lemma upsert_lookup now r m s k :
  jobs_keyed s ->
  js_jobs (upsert_store now r m s) !! k
  = j ← <[job_id r := r]> (js_jobs s) !! k; if decide (kept (insert_job r s) j) then Some j else None.
Proof. intros Hk. unfold upsert_store. rewrite prune_lookup; [done|]. by apply insert_keyed. Qed.

Lemma upsert_keyed now r m s : jobs_keyed s -> jobs_keyed (upsert_store now r m s).
Proof. intros Hk. apply prune_keyed. by apply insert_keyed. Qed.

Lemma last_record_snoc id us u :
  last_record id (us ++ [u]) = if decide (job_id u.1.2 = id) then Some u.1.2 else last_record id us.
Proof.
  unfold last_record. rewrite fmap_app, filter_app, fmap_cons, fmap_nil, filter_cons, filter_nil. case_decide.
  - by rewrite last_snoc.
  - by rewrite app_nil_r.
Qed.

Lemma do_upserts_snoc us u s : do_upserts (us ++ [u]) s = do_upsert (do_upserts us s) u.
Proof. exact (foldl_app do_upsert us [u] s). Qed.

Lemma do_upserts_keyed us : jobs_keyed (do_upserts us JobStore_default).
Proof.
  induction us as [|u us IH] using rev_ind; [by intros k j|]. rewrite do_upserts_snoc. by apply upsert_keyed.
Qed.

(** ** Room for finished jobs *)

(** The finished jobs besides one. *)
Definition finished_others (id : string) (s : JobStore) : gset string :=
  dom (filter (fun p => p.1 <> id /\ is_terminal (job_state p.2) = true) (js_jobs s)).

Lemma elem_of_finished_others id s k :
  k ∈ finished_others id s <-> k <> id /\ exists j, js_jobs s !! k = Some j /\ is_terminal (job_state j) = true.
Proof.
  unfold finished_others. rewrite elem_of_dom. unfold is_Some. setoid_rewrite map_lookup_filter_Some. cbn. naive_solver.
Qed.

Lemma NoDup_terminal_ids s : jobs_keyed s -> NoDup (job_id <$> terminal_jobs s).
Proof.
  intros Hk. pose proof (terminal_jobs_sorted s Hk) as HS. remember (stamp <$> terminal_jobs s) as l eqn:E.
  assert (job_id <$> terminal_jobs s = l.*2) as -> by (subst l; by rewrite <-list_fmap_compose). clear E.
  induction HS as [|p l HS IH Hp]; constructor; [|done]. intros (q & E & Hq)%list_elem_of_fmap.
  rewrite Forall_forall in Hp. specialize (Hp _ Hq). rewrite E in Hp. by apply (irreflexivity str_lt) in Hp.
Qed.

Lemma NoDup_fmap_filter {A B} (f : A -> B) (P : A -> Prop) `{!forall x, Decision (P x)} l :
  NoDup (f <$> l) -> NoDup (f <$> filter P l).
Proof.
  induction l as [|x l IH]; [done|]. rewrite fmap_cons, NoDup_cons, filter_cons. intros [Hx Hl].
  case_decide; [|by apply IH]. rewrite fmap_cons, NoDup_cons. split; [|by apply IH].
  intros (y & E & [_ Hy]%list_elem_of_filter)%list_elem_of_fmap. apply Hx. rewrite E. by apply list_elem_of_fmap_2.
Qed.

(** With room for it, a finished job stays. *)
Lemma kept_with_room s j :
  jobs_keyed s -> (size (finished_others (job_id j) s) < MAX_TERMINAL_JOBS)%nat -> kept (insert_job j s) j.
Proof.
  intros Hk Hr. right. eapply Nat.le_lt_trans; [|exact Hr]. pose proof (insert_keyed j s Hk) as Hk'.
  rewrite <-(length_fmap job_id). unfold size, set_size.
  apply submseteq_length, NoDup_submseteq; [by apply NoDup_fmap_filter, NoDup_terminal_ids|].
  intros k (j' & -> & [Hb Hj']%list_elem_of_filter)%list_elem_of_fmap. apply elem_of_elements, elem_of_finished_others.
  apply elem_of_terminal_jobs in Hj' as [Hj' Ht]; [|done]. cbn in Hj'.
  assert (Hne : job_id j' <> job_id j).
  { intros E. rewrite E, lookup_insert_eq in Hj'. simplify_eq. by apply (irreflexivity before) in Hb. }
  rewrite lookup_insert_ne in Hj' by done. eauto.
Qed.

Lemma upsert_finished now r m s :
  jobs_keyed s -> finished_others (job_id r) (upsert_store now r m s) ⊆ finished_others (job_id r) s.
Proof.
  intros Hk k. rewrite !elem_of_finished_others, upsert_lookup by done.
  intros [Hne (j & (j' & Hj & E)%bind_Some & Ht)]. case_decide; simplify_eq. rewrite lookup_insert_ne in Hj by done. eauto.
Qed.

(** ** Properties *)

(** C34. Pruning is the reference policy: a job is kept exactly when it is not
    finished, or when fewer than 64 finished jobs come after it in the order
    of their last update (and of their names within a second). *)
Theorem prune_keeps_newest (s : JobStore) :
  jobs_keyed s -> js_jobs (prune_store s) = filter (fun p => kept s p.2) (js_jobs s).
Proof.
  intros Hk. apply map_eq. intros k. rewrite prune_lookup, map_lookup_filter by done.
  destruct (js_jobs s !! k) as [j|]; [cbn|done]. by repeat case_guard || case_decide.
Qed.

Definition done_job (n : nat) : DaemonJobRecord :=
  transition (Z.of_nat n) Healthy PHealthy 100
    (JobRecord_new 0 (String.append "job-" (display_uint (Z.of_nat n))) "test").
Definition full_store : JobStore :=
  MkJobStore 1 (list_to_map ((fun n => (job_id (done_job n), done_job n)) <$> seq 0 66)) [].

Lemma full_store_keyed : jobs_keyed full_store.
Proof.
  intros k j Hj. apply elem_of_list_to_map_2 in Hj. cbn [full_store js_jobs] in Hj.
  apply list_elem_of_fmap in Hj as (n & [= -> ->] & _). done.
Qed.

Lemma prune_keeps_newest_witness :
  js_jobs (prune_store full_store) = filter (fun p => kept full_store p.2) (js_jobs full_store)
  /\ jobs_get "job-1" (prune_store full_store) = None
  /\ jobs_get "job-2" (prune_store full_store) = Some (done_job 2).
Proof.
  split; [apply (prune_keeps_newest full_store), full_store_keyed|]. split; vm_compute; reflexivity.
Defined.

(** Whatever jobs are written in whatever order, the registry holds for
    each job only the record last written; it holds it whenever the job is
    not finished; it holds at most 64 finished jobs; and the event ring holds
    the last 256 events. *)
Theorem job_history (us : list Upsert) :
  let s := do_upserts us JobStore_default in
  (forall id j, jobs_get id s = Some j -> last_record id us = Some j)
  /\ (forall id j, last_record id us = Some j -> is_terminal (job_state j) = false -> jobs_get id s = Some j)
  /\ (length (terminal_jobs s) <= MAX_TERMINAL_JOBS)%nat
  /\ js_events s = last_n MAX_EVENTS ((fun u => job_event u.1.1 u.1.2 u.2) <$> us).
Proof.
  cbn zeta. induction us as [|u us IH] using rev_ind; [|].
  { split; [done|]. split; [done|]. split; [vm_compute; lia|done]. }
  destruct IH as (Hget & Hkeep & _ & Hev). pose proof (do_upserts_keyed us) as Hk. rewrite do_upserts_snoc.
  unfold jobs_get, do_upsert in *. repeat split.
  - intros id j. rewrite upsert_lookup, last_record_snoc by done. intros (j' & Hj & E)%bind_Some.
    case_decide; simplify_eq. apply lookup_insert_Some in Hj as [[-> ->]|[Hne Hj]].
    + by rewrite decide_True.
    + rewrite decide_False by done. by apply Hget.
  - intros id j. rewrite last_record_snoc, upsert_lookup by done. intros Hl Ht. apply bind_Some. exists j.
    split; [|by rewrite decide_True by (by left)]. apply lookup_insert_Some.
    case_decide as E; [simplify_eq; by left|]. right. split; [done|by apply Hkeep].
  - apply prune_bound. by apply insert_keyed.
  - unfold upsert_store. rewrite prune_events. cbn [js_events push_event insert_job]. rewrite Hev, fmap_app.
    apply last_n_snoc. unfold MAX_EVENTS. lia.
Qed.

(** When [upsert] returns the record, a restarted daemon loads exactly the
    store that is in memory; when it returns an error the file is as before,
    but the record is already in memory. *)
Theorem upsert_durable `{JobCodec} (now : Z) (saved : bool) (record : DaemonJobRecord) (message : string)
    (r r' : JobRegistry) (res : result string DaemonJobRecord) :
  upsert now saved record message r = (res, r') ->
  jr_store r' = upsert_store now record message (jr_store r)
  /\ match res with
     | Ok x => x = record /\ jobs_load (jr_file r') = r'
     | Err _ => jr_file r' = jr_file r
     end.
Proof.
  unfold upsert, save_store. destruct (to_string_pretty _) as [text|e] eqn:E; [|by intros [= <- <-]].
  destruct saved; intros [= <- <-]; [|done]. split; [done|]. split; [done|].
  unfold jobs_load. cbn. by rewrite (from_to_string _ _ E).
Qed.

#[global] Instance RepairAction_eq_dec : EqDecision RepairAction.
Proof. solve_decision. Defined.
#[global] Instance DaemonJobRecord_eq_dec : EqDecision DaemonJobRecord.
Proof. solve_decision. Defined.
#[global] Instance DaemonJobEvent_eq_dec : EqDecision DaemonJobEvent.
Proof. solve_decision. Defined.
#[global] Instance JobStore_eq_dec : EqDecision JobStore.
Proof. solve_decision. Defined.

Definition sample_job : DaemonJobRecord :=
  transition 7 Running PEnsurePeer 35 (JobRecord_new 5 "proxy:window-a" "ensure_proxy_session").
Definition sample_store : JobStore := upsert_store 7 sample_job "ensuring persistent remote peer" JobStore_default.

(** A codec that knows one store. *)
Definition sample_codec : JobCodec.
Proof.
  refine {| to_string_pretty := fun s => if decide (s = sample_store) then Ok "{jobs}"%string else Err "unknown"%string;
            from_str := fun _ => Ok sample_store |}.
  intros s t. destruct (decide (s = sample_store)) as [E|E]; [intros _; rewrite E; reflexivity|discriminate].
Defined.

Definition empty_registry : JobRegistry := MkRegistry JobStore_default FileMissing.
Definition sample_registry : JobRegistry := MkRegistry sample_store (FileText "{jobs}").

Lemma upsert_durable_witness :
  jr_store sample_registry = upsert_store 7 sample_job "ensuring persistent remote peer" (jr_store empty_registry)
  /\ sample_job = sample_job /\ @jobs_load sample_codec (jr_file sample_registry) = sample_registry.
Proof.
  apply (@upsert_durable sample_codec 7 true sample_job "ensuring persistent remote peer" empty_registry
           sample_registry (Ok sample_job)).
  vm_compute. reflexivity.
Defined.

(** A finished job can be pruned by the very call that writes it. *)
Definition busy_store : JobStore :=
  MkJobStore 1 (list_to_map ((fun n => (job_id (done_job n), transition 9 Healthy PHealthy 100 (done_job n))) <$> seq 0 64)) [].
Example finished_job_forgotten :
  let j := job_failed 9 "no route" None (JobRecord_new 9 "apply-settings:window-a" "apply_remote_settings") in
  (length (terminal_jobs busy_store) = 64)%nat /\ jobs_get (job_id j) (upsert_store 9 j "failed" busy_store) = None.
Proof. split; vm_compute; reflexivity. Qed.
