(* ===== verification/Sessions.v ===== *)
(** Proxy sessions: what a client asks for and the names derived from it
    (crates/ssh-proxy-daemon/src/session_spec.rs), the record of a session and
    the state of its remote setup (crates/ssh-proxy-daemon/src/session.rs,
    crates/ssh-proxy/src/node_daemon/state.rs) and the session store
    (crates/ssh-proxy/src/node_daemon/state/session_store.rs). *)

From Stdlib Require Import Strings.String Strings.Ascii.
From stdpp Require Import base gmap list strings sorting.
From S2P Require Import Prelude RustStr IpAddr Collections Jobs.

(** ** Specifications *)

Inductive RouteConnectMode := ConnectAuto | ConnectDirect | ReverseLink.

Record SshTargetSpec := MkSshTarget {
  ssh_host_name : option string; ssh_user : option string; ssh_port : option Z; ssh_identity : list string;
  ssh_config : option string; ssh_known_hosts : option string; ssh_jump : list string; ssh_accept_new : bool }.

Record RemotePortPolicy := MkPortPolicy { preferred : Z; auto_pick : bool; range_size : Z }.

Record ApplyPolicy := MkApplyPolicy {
  ap_vscode_settings : bool; ap_terminal_env : bool; ap_server_env : bool; ap_git : bool; ap_git_global : bool;
  ap_git_workspace : bool; ap_git_force_override : bool; ap_remote_status_file : bool;
  ap_verify_remote_port : bool; ap_no_proxy : string; ap_proxy_support : string; ap_server_dir : string }.

Definition ApplyPolicy_default : ApplyPolicy :=
  MkApplyPolicy true true true true true true true true true "localhost,127.0.0.1,::1" "override" ".vscode-server".

Record ProxySessionSpec := MkSpec {
  sp_target : string; sp_workspace_id : option string; sp_ssh : option SshTargetSpec;
  sp_workspace_paths : list string; sp_local_proxy : string; sp_remote_bind : IpAddr;
  sp_remote_port_policy : RemotePortPolicy; sp_connect_mode : RouteConnectMode; sp_apply_policy : ApplyPolicy }.

#[global] Instance RouteConnectMode_eq_dec : EqDecision RouteConnectMode.
Proof. solve_decision. Defined.
#[global] Instance SshTargetSpec_eq_dec : EqDecision SshTargetSpec.
Proof. solve_decision. Defined.
#[global] Instance RemotePortPolicy_eq_dec : EqDecision RemotePortPolicy.
Proof. solve_decision. Defined.
#[global] Instance ApplyPolicy_eq_dec : EqDecision ApplyPolicy.
Proof. solve_decision. Defined.
#[global] Instance ProxySessionSpec_eq_dec : EqDecision ProxySessionSpec.
Proof. solve_decision. Defined.

Definition DEFAULT_REMOTE_PORT_RANGE_SIZE : Z := 20.

Definition RemotePortPolicy_new (p : Z) : RemotePortPolicy := MkPortPolicy p true DEFAULT_REMOTE_PORT_RANGE_SIZE.
Definition RemotePortPolicy_fixed (p : Z) : RemotePortPolicy := MkPortPolicy p false 1.

(** The loop over the offsets, which stops at the last port. *)
Fixpoint candidates_from (p offset : Z) (count : nat) : list Z :=
  match count with
  | O => []
  | S count =>
    match checked_add_u 16 p offset with
    | Some port => port :: candidates_from p (offset + 1) count
    | None => []
    end
  end.

Definition candidates (p : RemotePortPolicy) : list Z :=
  let count := if auto_pick p then Z.max (range_size p) 1 else 1 in
  let candidates := candidates_from (preferred p) 0 (Z.to_nat count) in
  match candidates with [] => [preferred p] | _ => candidates end.

Definition ssh_is_empty (s : SshTargetSpec) : bool :=
  bool_decide (ssh_host_name s = None) && bool_decide (ssh_user s = None) && bool_decide (ssh_port s = None)
  && bool_decide (ssh_identity s = []) && bool_decide (ssh_config s = None)
  && bool_decide (ssh_known_hosts s = None) && bool_decide (ssh_jump s = []) && negb (ssh_accept_new s).

Definition ssh_args (s : SshTargetSpec) : list string :=
  match ssh_host_name s with
  | Some host_name => ["-o"%string; String.append "HostName=" host_name]
  | None => []
  end.

(** ** Names *)

Definition key_char (c : Z) : Z :=
  if is_ascii_alphanumeric c || (c =? 45) || (c =? 95) then char_lower c else 45.

Definition sanitize_key (key : string) : string :=
  let normalized := key_char <$> chars key in
  let trimmed := take 64 (trim_by (fun c => c =? 45) normalized) in
  match trimmed with [] => "default" | _ => string_of_chars trimmed end.

Definition spec_key (s : ProxySessionSpec) : string := default (sp_target s) (sp_workspace_id s).
Definition route_id_for_key (key : string) : string := String.append "v3-" (sanitize_key key).
Definition job_id_for_key (key : string) : string := String.append "proxy:" (sanitize_key key).
Definition session_id_for_key (key : string) : string := String.append "session:" (sanitize_key key).
Definition spec_route_id (s : ProxySessionSpec) : string := route_id_for_key (spec_key s).
Definition spec_job_id (s : ProxySessionSpec) : string := job_id_for_key (spec_key s).
Definition spec_session_id (s : ProxySessionSpec) : string := session_id_for_key (spec_key s).

Definition proxy_url_for_remote (local_proxy remote_bind : string) (remote_port : Z) : string :=
  match split_once "://" local_proxy with
  | None => String.append "http://" (String.append remote_bind (String.append ":" (display_uint remote_port)))
  | Some (scheme, rest) =>
    let '(authority, suffix) := split_at_any ["/"%char] rest in
    let userinfo := match rsplit_once "@" authority with
                    | Some (userinfo, _) => String.append userinfo "@"
                    | None => EmptyString
                    end in
    String.append scheme (String.append "://" (String.append userinfo (String.append remote_bind
      (String.append ":" (String.append (display_uint remote_port) suffix)))))
  end.

Definition remote_url_for_port (s : ProxySessionSpec) (port : Z) : string :=
  proxy_url_for_remote (sp_local_proxy s) (ip_text (sp_remote_bind s)) port.
Definition spec_remote_url (s : ProxySessionSpec) : string :=
  remote_url_for_port s (preferred (sp_remote_port_policy s)).

Definition set_policy (p : RemotePortPolicy) (s : ProxySessionSpec) : ProxySessionSpec :=
  MkSpec (sp_target s) (sp_workspace_id s) (sp_ssh s) (sp_workspace_paths s) (sp_local_proxy s) (sp_remote_bind s)
    p (sp_connect_mode s) (sp_apply_policy s).
Definition with_remote_port (port : Z) (s : ProxySessionSpec) : ProxySessionSpec :=
  let p := sp_remote_port_policy s in set_policy (MkPortPolicy port (auto_pick p) (range_size p)) s.

(** ** Records *)

Record RemoteSetupStatus := MkSetup {
  rs_state : string; rs_last_hash : option string; rs_desired_hash : option string;
  rs_applied_hash : option string; rs_drift_detected : bool; rs_remote_url : option string; rs_verified : bool;
  rs_next_action : option string; rs_last_error : option string; rs_updated_at_unix : Z }.

Definition setup_pending (now : Z) : RemoteSetupStatus :=
  MkSetup "pending" None None None false None false (Some "wait_for_proxy_session_job"%string) None now.
Definition setup_required (now : Z) : RemoteSetupStatus :=
  MkSetup "required" None None None false None false (Some "apply_remote_settings"%string) None now.
Definition setup_running (now : Z) (desired_hash remote_url : option string) : RemoteSetupStatus :=
  MkSetup "running" None desired_hash None false remote_url false (Some "wait_for_remote_setup"%string) None now.
Definition setup_applied (now : Z) (desired_hash applied_hash remote_url : string) (verified : bool) : RemoteSetupStatus :=
  MkSetup "applied" (Some applied_hash) (Some desired_hash) (Some applied_hash) false (Some remote_url) verified
    (Some "monitor_remote_setup_drift"%string) None now.
Definition setup_failed (now : Z) (error : string) (desired_hash remote_url : option string) : RemoteSetupStatus :=
  MkSetup "failed" None desired_hash None false remote_url false (Some "rerun_apply_remote_settings"%string)
    (Some error) now.

(** The values [Value] are serde's: the ones the daemon keeps without looking
    into them. *)
Record ProxySessionRecord (Value : Type) := MkSession {
  se_session_id : string; se_target : string; se_workspace_id : option string; se_ssh : option Value;
  se_workspace_paths : list string; se_job_id : string; se_route_id : string; se_local_proxy : string;
  se_remote_bind : string; se_remote_port : Z; se_remote_url : string; se_apply_policy : option Value;
  se_state : string; se_phase : string; se_health : string; se_blocker : option string;
  se_next_action : option string; se_repair_action : option RepairAction; se_last_error : option string;
  se_remote_setup : RemoteSetupStatus; se_handoff_probe : option Value; se_recovery_attempts : Z;
  se_route : option Value; se_created_at_unix : Z; se_updated_at_unix : Z }.
Arguments MkSession {_}.
Arguments se_session_id {_}. Arguments se_target {_}. Arguments se_workspace_id {_}. Arguments se_ssh {_}.
Arguments se_workspace_paths {_}. Arguments se_job_id {_}. Arguments se_route_id {_}. Arguments se_local_proxy {_}.
Arguments se_remote_bind {_}. Arguments se_remote_port {_}. Arguments se_remote_url {_}.
Arguments se_apply_policy {_}. Arguments se_state {_}. Arguments se_phase {_}. Arguments se_health {_}.
Arguments se_blocker {_}. Arguments se_next_action {_}. Arguments se_repair_action {_}. Arguments se_last_error {_}.
Arguments se_remote_setup {_}. Arguments se_handoff_probe {_}. Arguments se_recovery_attempts {_}.
Arguments se_route {_}. Arguments se_created_at_unix {_}. Arguments se_updated_at_unix {_}.

Record HandoffProbeStatus := MkProbe {
  hp_source : string; hp_state : string; hp_attempts : Z; hp_last_error : option string;
  hp_latency_ms : option Z; hp_retry_after_ms : option Z; hp_updated_at_unix : Z }.

(** serde's values: an encoding is decoded to what was encoded. *)
Class SessionCodec (Value : Type) := {
  ssh_to_value : SshTargetSpec -> option Value;
  ssh_from_value : Value -> result string SshTargetSpec;
  ssh_from_to s v : ssh_to_value s = Some v -> ssh_from_value v = Ok s;
  policy_to_value : ApplyPolicy -> option Value;
  policy_from_value : Value -> result string ApplyPolicy;
  policy_from_to p v : policy_to_value p = Some v -> policy_from_value v = Ok p;
  spec_to_value : ProxySessionSpec -> option Value;
  spec_from_value : Value -> result string ProxySessionSpec;
  spec_from_to s v : spec_to_value s = Some v -> spec_from_value v = Ok s;
  probe_to_value : HandoffProbeStatus -> Value;
}.

Section sessions.
Context {Value : Type} `{EqDecision Value} `{SessionCodec Value}.
Abbreviation Session := (ProxySessionRecord Value).

(** ** Comparing specifications *)

Definition normalize_spec (s : ProxySessionSpec) : ProxySessionSpec :=
  MkSpec (sp_target s) (sp_workspace_id s)
    ((fun t => MkSshTarget (ssh_host_name t) (ssh_user t) (ssh_port t) [] (ssh_config t) (ssh_known_hosts t)
                 (ssh_jump t) (ssh_accept_new t)) <$> sp_ssh s)
    (sp_workspace_paths s) (sp_local_proxy s) (sp_remote_bind s) (sp_remote_port_policy s) (sp_connect_mode s)
    (sp_apply_policy s).

Definition specs_match_at (existing requested : ProxySessionSpec) (selected_port : Z) : bool :=
  let existing := set_policy (RemotePortPolicy_fixed selected_port) (with_remote_port selected_port existing) in
  let requested := set_policy (RemotePortPolicy_fixed selected_port) (with_remote_port selected_port requested) in
  bool_decide (spec_to_value (normalize_spec existing) = spec_to_value (normalize_spec requested)).

Definition proxy_session_specs_match (left right : ProxySessionSpec) : bool :=
  let selected_port := preferred (sp_remote_port_policy left) in
  if selected_port =? preferred (sp_remote_port_policy right) then specs_match_at left right selected_port
  else if auto_pick (sp_remote_port_policy right)
          && bool_decide (selected_port ∈ candidates (sp_remote_port_policy right))
  then specs_match_at left right selected_port
  else false.

(** ** Records of jobs *)

Definition proxy_session_record_from_spec_and_job (now : Z) (spec : ProxySessionSpec) (job : DaemonJobRecord) : Session :=
  MkSession (spec_session_id spec) (sp_target spec) (sp_workspace_id spec)
    (s ← sp_ssh spec; ssh_to_value s) (sp_workspace_paths spec) (job_id job) (spec_route_id spec)
    (sp_local_proxy spec) (ip_text (sp_remote_bind spec)) (preferred (sp_remote_port_policy spec))
    (default (spec_remote_url spec) (job_remote_url job)) (policy_to_value (sp_apply_policy spec))
    (state_value (job_state job)) (phase_value (job_phase job)) (job_health job) (job_blocker job)
    (job_next_action job) (job_repair_action job) (job_last_error job) (setup_pending now) None
    (job_recovery_attempts job) None (job_created_at_unix job) (job_updated_at_unix job).

Definition set_setup (s : RemoteSetupStatus) (r : Session) : Session :=
  MkSession (se_session_id r) (se_target r) (se_workspace_id r) (se_ssh r) (se_workspace_paths r) (se_job_id r)
    (se_route_id r) (se_local_proxy r) (se_remote_bind r) (se_remote_port r) (se_remote_url r) (se_apply_policy r)
    (se_state r) (se_phase r) (se_health r) (se_blocker r) (se_next_action r) (se_repair_action r) (se_last_error r)
    s (se_handoff_probe r) (se_recovery_attempts r) (se_route r) (se_created_at_unix r) (se_updated_at_unix r).

Definition update_proxy_session_record_from_job (spec : ProxySessionSpec) (job : DaemonJobRecord) (r : Session) : Session :=
  let r := MkSession (se_session_id r) (sp_target spec) (sp_workspace_id spec)
    (s ← sp_ssh spec; ssh_to_value s) (sp_workspace_paths spec) (se_job_id r) (spec_route_id spec)
    (sp_local_proxy spec) (ip_text (sp_remote_bind spec)) (preferred (sp_remote_port_policy spec))
    (default (spec_remote_url spec) (job_remote_url job)) (policy_to_value (sp_apply_policy spec))
    (state_value (job_state job)) (phase_value (job_phase job)) (job_health job) (job_blocker job)
    (job_next_action job) (job_repair_action job) (job_last_error job) (se_remote_setup r) (se_handoff_probe r)
    (se_recovery_attempts r) (se_route r) (se_created_at_unix r) (job_updated_at_unix job) in
  let r := if String.eqb (se_phase r) "apply_remote_settings"
           then set_setup (setup_required (job_updated_at_unix job)) r else r in
  let r := if String.eqb (se_phase r) "healthy" && String.eqb (rs_state (se_remote_setup r)) "pending"
           then set_setup (setup_required (job_updated_at_unix job)) r else r in
  MkSession (se_session_id r) (se_target r) (se_workspace_id r) (se_ssh r) (se_workspace_paths r) (se_job_id r)
    (se_route_id r) (se_local_proxy r) (se_remote_bind r) (se_remote_port r) (se_remote_url r) (se_apply_policy r)
    (se_state r) (se_phase r) (se_health r) (se_blocker r) (se_next_action r) (se_repair_action r) (se_last_error r)
    (se_remote_setup r) (se_handoff_probe r) (job_recovery_attempts job) (se_route r) (se_created_at_unix r)
    (se_updated_at_unix r).

Definition decode_optional {A} (f : Value -> result string A) (v : option Value) : result string (option A) :=
  match v with None => Ok None | Some v => a ← f v; Ok (Some a) end.

Definition to_spec (r : Session) : result string ProxySessionSpec :=
  ssh ← decode_optional ssh_from_value (se_ssh r);
  remote_bind ← ok_or "invalid IP address syntax"%string (ip_parse (se_remote_bind r));
  policy ← decode_optional policy_from_value (se_apply_policy r);
  Ok (MkSpec (se_target r) (se_workspace_id r) ssh (se_workspace_paths r) (se_local_proxy r) remote_bind
        (RemotePortPolicy_new (se_remote_port r)) ReverseLink (default ApplyPolicy_default policy)).

(** ** The store, in memory *)

Abbreviation Store := (gmap string Session).

Definition set_route (route : option Value) (r : Session) : Session :=
  match route with
  | None => r
  | Some _ =>
    MkSession (se_session_id r) (se_target r) (se_workspace_id r) (se_ssh r) (se_workspace_paths r) (se_job_id r)
      (se_route_id r) (se_local_proxy r) (se_remote_bind r) (se_remote_port r) (se_remote_url r) (se_apply_policy r)
      (se_state r) (se_phase r) (se_health r) (se_blocker r) (se_next_action r) (se_repair_action r) (se_last_error r)
      (se_remote_setup r) (se_handoff_probe r) (se_recovery_attempts r) route (se_created_at_unix r)
      (se_updated_at_unix r)
  end.

Definition upsert_session_from_job (now : Z) (spec : ProxySessionSpec) (job : DaemonJobRecord) (route : option Value)
    (m : Store) : Session * Store :=
  let entry := default (proxy_session_record_from_spec_and_job now spec job) (m !! spec_session_id spec) in
  let record := set_route route (update_proxy_session_record_from_job spec job entry) in
  (record, <[spec_session_id spec := record]> m).

(** The loops that change the first record that matches, in the order of the
    names. *)
Definition update_first (p : Session -> bool) (f : Session -> Session) (m : Store) : option Session * Store :=
  match list_find (fun e => p e.2 = true) (btree_entries m) with
  | Some (_, (k, r)) => (Some (f r), <[k := f r]> m)
  | None => (None, m)
  end.

Definition set_cancelled (now : Z) (error : option string) (r : Session) : Session :=
  MkSession (se_session_id r) (se_target r) (se_workspace_id r) (se_ssh r) (se_workspace_paths r) (se_job_id r)
    (se_route_id r) (se_local_proxy r) (se_remote_bind r) (se_remote_port r) (se_remote_url r) (se_apply_policy r)
    "cancelled" "cancelled" "cancelled" (se_blocker r) (se_next_action r) (se_repair_action r) error
    (se_remote_setup r) (se_handoff_probe r) (se_recovery_attempts r) (se_route r) (se_created_at_unix r) now.
Definition cancel_session (now : Z) (route_id job_id : string) (error : option string) (m : Store) :
    option Session * Store :=
  update_first (fun r => String.eqb (se_route_id r) route_id || String.eqb (se_job_id r) job_id)
    (set_cancelled now error) m.

Definition set_setup_at (now : Z) (status : RemoteSetupStatus) (r : Session) : Session :=
  MkSession (se_session_id r) (se_target r) (se_workspace_id r) (se_ssh r) (se_workspace_paths r) (se_job_id r)
    (se_route_id r) (se_local_proxy r) (se_remote_bind r) (se_remote_port r) (se_remote_url r) (se_apply_policy r)
    (se_state r) (se_phase r) (se_health r) (se_blocker r) (se_next_action r) (se_repair_action r) (se_last_error r)
    status (se_handoff_probe r) (se_recovery_attempts r) (se_route r) (se_created_at_unix r) now.
Definition update_remote_setup_status (now : Z) (session_id job_id : string) (status : RemoteSetupStatus) (m : Store) :
    option Session * Store :=
  update_first (fun r => String.eqb (se_session_id r) session_id || String.eqb (se_job_id r) job_id)
    (set_setup_at now status) m.

Definition set_probe_at (now : Z) (status : HandoffProbeStatus) (r : Session) : Session :=
  MkSession (se_session_id r) (se_target r) (se_workspace_id r) (se_ssh r) (se_workspace_paths r) (se_job_id r)
    (se_route_id r) (se_local_proxy r) (se_remote_bind r) (se_remote_port r) (se_remote_url r) (se_apply_policy r)
    (se_state r) (se_phase r) (se_health r) (se_blocker r) (se_next_action r) (se_repair_action r) (se_last_error r)
    (se_remote_setup r) (Some (probe_to_value status)) (se_recovery_attempts r) (se_route r) (se_created_at_unix r) now.
Definition update_handoff_probe_status (now : Z) (session_id job_id : string) (status : HandoffProbeStatus) (m : Store) :
    option Session * Store :=
  update_first (fun r => String.eqb (se_session_id r) session_id || String.eqb (se_job_id r) job_id)
    (set_probe_at now status) m.

Definition session_by_job (job_id : string) (m : Store) : option Session :=
  snd <$> list_find (fun r => se_job_id r = job_id) (btree_values m).
Definition session_by_route (route_id : string) (m : Store) : option Session :=
  snd <$> list_find (fun r => se_route_id r = route_id) (btree_values m).
Definition sessions_list (m : Store) : list Session := btree_values m.
End sessions.

(** ** Names and ports *)

Lemma candidates_from_spec p count : forall offset, 0 <= p -> 0 <= offset ->
  candidates_from p offset count
  = (fun i => p + offset + Z.of_nat i) <$> seq 0 (Nat.min count (Z.to_nat (65536 - p - offset))).
Proof.
  induction count as [|count IH]; intros offset Hp Ho; [done|]. cbn [candidates_from]. unfold checked_add_u, u_max.
  change (2 ^ 16 - 1) with 65535. destruct (Z.leb_spec (p + offset) 65535).
  - rewrite IH by lia. replace (Z.to_nat (65536 - p - offset)) with (S (Z.to_nat (65536 - p - (offset + 1)))) by lia.
    rewrite <-Nat.succ_min_distr. cbn [seq fmap list_fmap]. f_equal; [lia|].
    rewrite <-seq_shift, <-list_fmap_compose. apply list_fmap_ext. intros i j _. cbn. lia.
  - replace (Z.to_nat (65536 - p - offset)) with O by lia. by rewrite Nat.min_0_r.
Qed.

(** The ports that are tried: the preferred one and those after it, as many as
    asked for, up to the last port there is. *)
Lemma candidates_spec p :
  in_u 16 (preferred p) ->
  candidates p = (fun i => preferred p + Z.of_nat i)
    <$> seq 0 (Nat.min (if auto_pick p then Z.to_nat (Z.max (range_size p) 1) else 1) (Z.to_nat (65536 - preferred p))).
Proof.
  intros [H0 H1]. change (2 ^ 16) with 65536 in H1. unfold candidates. rewrite candidates_from_spec by lia.
  replace (Z.to_nat (if auto_pick p then _ else _)) with
    (if auto_pick p then Z.to_nat (Z.max (range_size p) 1) else 1%nat) by (by destruct (auto_pick p)).
  rewrite Z.sub_0_r. destruct (Nat.min _ _) as [|n] eqn:E; [destruct (auto_pick p); lia|].
  rewrite (list_fmap_ext _ (fun i => preferred p + Z.of_nat i)); [done|]. intros i j _. cbn. lia.
Qed.

Lemma elem_of_port_candidates p port :
  in_u 16 (preferred p) ->
  port ∈ candidates p <->
  preferred p <= port < 65536 /\ port < preferred p + (if auto_pick p then Z.max (range_size p) 1 else 1).
Proof.
  intros Hp. rewrite candidates_spec by done. destruct Hp as [H0 H1]. change (2 ^ 16) with 65536 in H1.
  rewrite list_elem_of_fmap. split.
  - intros (i & -> & Hi%elem_of_seq). destruct (auto_pick p); lia.
  - intros Hport. exists (Z.to_nat (port - preferred p)). split; [lia|]. apply elem_of_seq. destruct (auto_pick p); lia.
Qed.

Lemma candidates_head p : exists ps, candidates p = preferred p :: ps.
Proof.
  unfold candidates. destruct (Z.to_nat (if auto_pick p then _ else _)) eqn:E; [destruct (auto_pick p); lia|].
  cbn [candidates_from]. unfold checked_add_u. rewrite Z.add_0_r. destruct (_ <=? _); eauto.
Qed.

Lemma NoDup_candidates p : in_u 16 (preferred p) -> NoDup (candidates p).
Proof. intros Hp. rewrite candidates_spec by done. apply NoDup_fmap_2_strong; [intros; lia|apply NoDup_seq]. Qed.

(** The characters a name is made of. *)
Definition name_char (c : Z) : bool := is_ascii_lowercase c || is_ascii_digit c || (c =? 45) || (c =? 95).

Lemma key_char_name c : name_char (key_char c) = true.
Proof.
  unfold key_char, name_char, char_lower, is_ascii_alphanumeric, is_ascii_uppercase, is_ascii_lowercase, is_ascii_digit.
  repeat case_match; rewrite ?orb_true_iff, ?andb_true_iff, ?orb_false_iff, ?andb_false_iff, ?Z.leb_le, ?Z.eqb_eq in *; lia.
Qed.

Section reuse.
Context {Value : Type} `{EqDecision Value} `{SessionCodec Value}.

(** Two SSH targets that differ in their identity files at most. *)
Definition same_ssh (a b : SshTargetSpec) : Prop :=
  ssh_host_name a = ssh_host_name b /\ ssh_user a = ssh_user b /\ ssh_port a = ssh_port b
  /\ ssh_config a = ssh_config b /\ ssh_known_hosts a = ssh_known_hosts b /\ ssh_jump a = ssh_jump b
  /\ ssh_accept_new a = ssh_accept_new b.

(** Nothing but the identity files, the connect mode and the port may differ,
    and the port only within the range the request allows. *)
Definition same_session (stored requested : ProxySessionSpec) : Prop :=
  sp_target requested = sp_target stored /\ sp_workspace_id requested = sp_workspace_id stored
  /\ option_Forall2 same_ssh (sp_ssh requested) (sp_ssh stored)
  /\ sp_workspace_paths requested = sp_workspace_paths stored /\ sp_local_proxy requested = sp_local_proxy stored
  /\ sp_remote_bind requested = sp_remote_bind stored /\ sp_apply_policy requested = sp_apply_policy stored
  /\ let p := preferred (sp_remote_port_policy stored) in
     preferred (sp_remote_port_policy requested) = p
     \/ auto_pick (sp_remote_port_policy requested) = true /\ p ∈ candidates (sp_remote_port_policy requested).

Lemma same_ssh_refl o : option_Forall2 same_ssh o o.
Proof. destruct o; by constructor. Qed.
Lemma same_session_refl s : same_session s s.
Proof. unfold same_session. split_and!; try done; [apply same_ssh_refl|by left]. Qed.

Context (spec_encodable : forall s : ProxySessionSpec, is_Some (spec_to_value s)).
Context (ssh_encodable : forall t : SshTargetSpec, is_Some (ssh_to_value t)).
Context (policy_encodable : forall p : ApplyPolicy, is_Some (policy_to_value p)).

Lemma spec_to_value_inj s1 s2 : spec_to_value s1 = spec_to_value s2 -> s1 = s2.
Proof.
  intros E. destruct (spec_encodable s1) as [v1 H1], (spec_encodable s2) as [v2 H2].
  pose proof (spec_from_to _ _ H1). pose proof (spec_from_to _ _ H2). rewrite H1, H2 in E. congruence.
Qed.

Lemma to_spec_update spec job (r : ProxySessionRecord Value) :
  ip_parse (ip_text (sp_remote_bind spec)) = Some (sp_remote_bind spec) ->
  to_spec (update_proxy_session_record_from_job spec job r)
  = Ok (MkSpec (sp_target spec) (sp_workspace_id spec) (sp_ssh spec) (sp_workspace_paths spec) (sp_local_proxy spec)
          (sp_remote_bind spec) (RemotePortPolicy_new (preferred (sp_remote_port_policy spec))) ReverseLink
          (sp_apply_policy spec)).
Proof.
  intros Hip. unfold update_proxy_session_record_from_job.
  set (r1 := if String.eqb (se_phase _) "apply_remote_settings" then _ else _).
  set (r2 := if _ && _ then _ else r1). unfold to_spec. cbn.
  assert (Es : se_ssh r2 = s ← sp_ssh spec; ssh_to_value s) by (unfold r2, r1; repeat case_match; done).
  assert (Ep : se_apply_policy r2 = policy_to_value (sp_apply_policy spec)) by (unfold r2, r1; repeat case_match; done).
  assert (Eb : se_remote_bind r2 = ip_text (sp_remote_bind spec)) by (unfold r2, r1; repeat case_match; done).
  assert (decode_optional ssh_from_value (se_ssh r2) = Ok (sp_ssh spec)) as ->.
  { rewrite Es. destruct (sp_ssh spec) as [t|]; [cbn|done]. destruct (ssh_encodable t) as [v Hv].
    rewrite Hv. cbn. by rewrite (ssh_from_to _ _ Hv). }
  cbn. rewrite Eb, Hip. cbn. destruct (policy_encodable (sp_apply_policy spec)) as [v Hv].
  rewrite Ep, Hv. cbn. rewrite (policy_from_to _ _ Hv). cbn. f_equal.
  unfold r2, r1; repeat case_match; done.
Qed.

Lemma normalize_ssh s q :
  sp_ssh (normalize_spec s) = sp_ssh (normalize_spec q) <-> option_Forall2 same_ssh (sp_ssh s) (sp_ssh q).
Proof.
  unfold normalize_spec, same_ssh. cbn [sp_ssh].
  destruct (sp_ssh s) as [[]|], (sp_ssh q) as [[]|]; cbn; split; intros E; try (by inversion E); try (by constructor); try done.
  - injection E as -> -> -> -> -> -> ->. constructor. by split_and!.
  - inversion E as [? ? Hs|]. destruct Hs as (E1 & E2 & E3 & E4 & E5 & E6 & E7). cbn in *. by subst.
Qed.

Lemma specs_match_at_spec s q p :
  specs_match_at s q p = true <->
  normalize_spec (set_policy (RemotePortPolicy_fixed p) s) = normalize_spec (set_policy (RemotePortPolicy_fixed p) q).
Proof.
  unfold specs_match_at. rewrite bool_decide_eq_true. split; [intros E; exact (spec_to_value_inj _ _ E)|intros E; exact (f_equal spec_to_value E)].
Qed.

Lemma match_at t w s ps lp rb pp m ap q P :
  (preferred (sp_remote_port_policy q) = preferred pp
   \/ auto_pick (sp_remote_port_policy q) = true /\ preferred pp ∈ candidates (sp_remote_port_policy q)) ->
  normalize_spec (set_policy P (MkSpec t w s ps lp rb (RemotePortPolicy_new (preferred pp)) ReverseLink ap))
  = normalize_spec (set_policy P q)
  <-> sp_connect_mode q = ReverseLink /\ same_session (MkSpec t w s ps lp rb pp m ap) q.
Proof.
  intros Hp. pose proof (normalize_ssh q (MkSpec t w s ps lp rb pp m ap)) as Hs.
  destruct q as [t' w' s' ps' lp' rb' pp' m' ap']. unfold same_session, normalize_spec in *. cbn in *. rewrite <-Hs. split.
  - intros [=]. subst. by split_and!.
  - intros (-> & -> & -> & E & -> & -> & -> & -> & _). by rewrite E.
Qed.

Lemma to_spec_route route (r : ProxySessionRecord Value) : to_spec (set_route route r) = to_spec r.
Proof. by destruct route. Qed.

(** A stored session and a request. *)
Lemma stored_matches spec requested job (r : ProxySessionRecord Value) route :
  ip_parse (ip_text (sp_remote_bind spec)) = Some (sp_remote_bind spec) ->
  exists existing, to_spec (set_route route (update_proxy_session_record_from_job spec job r)) = Ok existing
    /\ (proxy_session_specs_match existing requested = true
        <-> sp_connect_mode requested = ReverseLink /\ same_session spec requested).
Proof.
  intros Hip. eexists. split; [rewrite to_spec_route; by apply to_spec_update|].
  unfold proxy_session_specs_match. cbn [sp_remote_port_policy RemotePortPolicy_new preferred].
  destruct spec as [t w s ps lp rb pp m ap], requested as [t' w' s' ps' lp' rb' pp' m' ap'].
  cbn [sp_remote_port_policy sp_connect_mode sp_target sp_workspace_id sp_workspace_paths sp_local_proxy
       sp_remote_bind sp_apply_policy].
  destruct (Z.eqb_spec (preferred pp) (preferred pp')) as [E|E].
  - rewrite specs_match_at_spec. apply match_at. left. by symmetry.
  - destruct (auto_pick pp') eqn:Ea; cbn; [case_bool_decide as Hin|].
    + rewrite specs_match_at_spec. apply match_at. right. by split.
    + split; [done|]. unfold same_session. cbn. intros (_ & _ & _ & _ & _ & _ & _ & _ & [E'|[_ ?]]); [congruence|done].
    + split; [done|]. unfold same_session. cbn. intros (_ & _ & _ & _ & _ & _ & _ & _ & [E'|[? _]]); congruence.
Qed.

(** What is stored of a session does not say with which mode it was started:
    it is read back as one of the reverse link, and answers no other mode. *)
Lemma to_spec_mode (r : ProxySessionRecord Value) existing : to_spec r = Ok existing -> sp_connect_mode existing = ReverseLink.
Proof.
  unfold to_spec, mbind, result_bind. intros E. by repeat case_match; simplify_eq.
Qed.
Lemma match_mode existing requested :
  proxy_session_specs_match existing requested = true -> sp_connect_mode existing = sp_connect_mode requested.
Proof.
  unfold proxy_session_specs_match. repeat case_match; try done; rewrite specs_match_at_spec; intros E;
    exact (f_equal sp_connect_mode E).
Qed.
End reuse.

(** C35. A request recognises a stored session exactly when it asks for the same
    session (same target, workspace and paths, SSH target up to identity files,
    local proxy, bind address and settings, and the stored port is the one it
    prefers or one of the range it allows) and asks for the reverse link.  The
    mode the session was started with plays no part: a request that names any
    other mode recognises no stored session, not even the one it started. *)
Theorem session_reuse_exact {Value : Type} `{EqDecision Value} `{SessionCodec Value}
    (spec requested : ProxySessionSpec) (job : DaemonJobRecord) (r : ProxySessionRecord Value) :
  (forall s : ProxySessionSpec, is_Some (spec_to_value s)) ->
  (forall t : SshTargetSpec, is_Some (ssh_to_value t)) ->
  (forall p : ApplyPolicy, is_Some (policy_to_value p)) ->
  ip_parse (ip_text (sp_remote_bind spec)) = Some (sp_remote_bind spec) ->
  exists existing, to_spec (update_proxy_session_record_from_job spec job r) = Ok existing
    /\ (proxy_session_specs_match existing requested = true
        <-> sp_connect_mode requested = ReverseLink /\ same_session spec requested)
    /\ (sp_connect_mode spec <> ReverseLink -> same_session spec spec /\ proxy_session_specs_match existing spec = false).
Proof.
  intros Hspec Hssh Hpol Hip.
  destruct (stored_matches Hspec Hssh Hpol spec requested job r None Hip) as (existing & E & Hm).
  exists existing. split; [exact E|]. split; [exact Hm|]. intros Hmode. split; [apply same_session_refl|].
  destruct (proxy_session_specs_match existing spec) eqn:Es; [|done]. destruct Hmode.
  rewrite <-(match_mode Hspec _ _ Es). by apply (to_spec_mode (Value := Value) (set_route None (update_proxy_session_record_from_job spec job r))).
Qed.

Inductive SampleValue :=
| VSsh (t : SshTargetSpec) | VPolicy (p : ApplyPolicy) | VSpec (s : ProxySessionSpec) | VProbe (state : string).
#[global] Instance SampleValue_eq_dec : EqDecision SampleValue.
Proof. solve_decision. Defined.

#[refine] Instance sample_session_codec : SessionCodec SampleValue := {|
  ssh_to_value := fun t => Some (VSsh t);
  ssh_from_value := fun v => match v with VSsh t => Ok t | _ => Err "not an SSH target"%string end;
  policy_to_value := fun p => Some (VPolicy p);
  policy_from_value := fun v => match v with VPolicy p => Ok p | _ => Err "not a policy"%string end;
  spec_to_value := fun s => Some (VSpec s);
  spec_from_value := fun v => match v with VSpec s => Ok s | _ => Err "not a specification"%string end;
  probe_to_value := fun p => VProbe (hp_state p) |}.
Proof. all: intros ? ? [= <-]; reflexivity. Defined.

Definition sample_spec : ProxySessionSpec :=
  MkSpec "126" (Some "Window A"%string)
    (Some (MkSshTarget (Some "10.0.0.7"%string) None None [] None None [] true)) [] "http://127.0.0.1:10808/"
    (V4 [x7f; x00; x00; x01]) (MkPortPolicy 17891 true 20) ReverseLink ApplyPolicy_default.
Definition sample_request : ProxySessionSpec :=
  MkSpec "126" (Some "Window A"%string)
    (Some (MkSshTarget (Some "10.0.0.7"%string) None None ["id_ed25519"%string] None None [] true)) []
    "http://127.0.0.1:10808/" (V4 [x7f; x00; x00; x01]) (MkPortPolicy 17890 true 20) ReverseLink ApplyPolicy_default.
Definition sample_session : ProxySessionRecord SampleValue :=
  proxy_session_record_from_spec_and_job 5 sample_spec sample_job.

Lemma session_reuse_exact_witness :
  exists existing, to_spec (update_proxy_session_record_from_job sample_spec sample_job sample_session) = Ok existing
    /\ (proxy_session_specs_match existing sample_request = true
        <-> sp_connect_mode sample_request = ReverseLink /\ same_session sample_spec sample_request)
    /\ (sp_connect_mode sample_spec <> ReverseLink ->
        same_session sample_spec sample_spec /\ proxy_session_specs_match existing sample_spec = false).
Proof.
  apply (session_reuse_exact sample_spec sample_request sample_job sample_session).
  - intros s. eexists. reflexivity.
  - intros t. eexists. reflexivity.
  - intros p. eexists. reflexivity.
  - vm_compute. reflexivity.
Defined.

Example sample_request_matches :
  same_session sample_spec sample_request /\ spec_session_id sample_request = "session:window-a"%string
  /\ spec_remote_url sample_request = "http://127.0.0.1:17890/"%string.
Proof.
  split; [|split; vm_compute; reflexivity]. unfold same_session. split_and!; try reflexivity.
  { constructor. by split_and!. }
  right. split; [reflexivity|]. apply (bool_decide_unpack _). vm_compute. exact I.
Qed.
