(* ===== verification/Handoff.v ===== *)
(** The handoff probe (crates/ssh-proxy/src/node_daemon/handoff.rs): the daemon
    checks over an SSH channel that the remote port of a session is answered
    by the proxy itself, retrying within a time budget.  Channels and their
    times are arguments; the proxy that should answer is the one of
    [Frontend]. *)

From Stdlib Require Import Strings.String.
From S2P Require Import Prelude RustStr IpAddr Stream Http Frontend Sessions.

(** ** Constants, in milliseconds *)

Definition SOURCE : string := "rust_ssh_direct_tcpip".
Definition PROBE_TIMEOUT_text : string := "2s".
Definition CONNECT_TIMEOUT_text : string := "15s".
Definition INITIAL_DELAY : Z := 250.
Definition MAX_DELAY : Z := 1000.

Definition PROXY_FINGERPRINT_REQUEST : list byte :=
  line_bytes "GET /ssh-proxy-handoff-probe HTTP/1.1" ++ line_bytes "host: ssh-proxy.invalid"
  ++ line_bytes "connection: close" ++ crlf.
Definition PROXY_FINGERPRINT_BODY : list byte := str_bytes "400 Bad Request" ++ [x0a].

(** ** Probe states *)

Definition probe_checking (now : Z) : HandoffProbeStatus :=
  MkProbe SOURCE "checking" 0 None None (Some INITIAL_DELAY) now.
Definition probe_skipped (now : Z) : HandoffProbeStatus := MkProbe SOURCE "skipped" 0 None None None now.
Definition probe_ready (now attempts latency : Z) : HandoffProbeStatus :=
  MkProbe SOURCE "ready" attempts None (Some latency) None now.
Definition probe_failed (now attempts : Z) (error : string) (latency : option Z) : HandoffProbeStatus :=
  MkProbe SOURCE "failed" attempts (Some error) latency None now.

Record HandoffProbeFailure := MkProbeFailure {
  pf_blocker : string; pf_message : string; pf_status : HandoffProbeStatus }.

Definition probe_failure (now : Z) (blocker message : string) (attempts : Z) (latency : option Z) : HandoffProbeFailure :=
  MkProbeFailure blocker message (probe_failed now attempts message latency).

(** ** Errors *)

Definition classify_probe_error (message : string) : string :=
  let lower := to_ascii_lowercase message in
  if contains lower "refused" then "remote_port_refused"
  else if contains lower "timed out" || contains lower "timeout" then "remote_port_not_ready"
  else if contains lower "fingerprint" || contains lower "did not speak ssh_proxy" then "remote_port_conflict"
  else "ssh_direct_tcpip_failed".

Definition terminal_probe_failure (classification : string) : bool :=
  String.eqb classification "remote_port_conflict".

(** ** The fingerprint *)

Section fingerprint.
Context {R W : Type} `{AsyncRead R} `{AsyncWrite W} (io_text : io_error -> string).

(** The loop that reads the response. *)
Fixpoint read_response (fuel : nat) (response : list byte) : sr (TcpStream R W) string (list byte) :=
  match fuel with
  | O => sr_fail "out of fuel"%string
  | S fuel =>
    got ← sr_map_err (fun e => "failed to read handoff fingerprint response: " +:+ io_text e) (recv (read_some 128));
    match got with
    | [] => mret response
    | _ =>
      let response := response ++ got in
      let complete := match http_header_end response with
                      | Some header_end => len response >=? Z.of_nat header_end + len PROXY_FINGERPRINT_BODY
                      | None => false
                      end in
      if complete then mret response else if 1024 <? len response then mret response
      else read_response fuel response
    end
  end.

Definition nl : string := str_of_bytes crlf.

(** [String::from_utf8_lossy] keeps valid text; [lossy] stands for what it
    makes of the rest. *)
Context (lossy : list byte -> string).
Definition text_of (bs : list byte) : string := match from_utf8 bs with Some s => s | None => lossy bs end.

Definition is_fingerprint (response : list byte) : result string unit :=
  header_end ← ok_or "handoff fingerprint response did not include HTTP headers"%string (http_header_end response);
  let head := to_ascii_lowercase (text_of (take header_end response)) in
  let body := drop header_end response in
  if starts_with head ("http/1.1 400 bad request" +:+ nl)
     && contains head (nl +:+ "content-length: 16" +:+ nl)
     && contains head (nl +:+ "connection: close" +:+ nl)
     && bool_decide (take (length PROXY_FINGERPRINT_BODY) body = PROXY_FINGERPRINT_BODY)
  then Ok tt
  else Err "remote port accepted TCP but did not speak ssh_proxy HTTP/SOCKS handoff protocol"%string.

Definition verify_proxy_fingerprint : sr (TcpStream R W) string unit :=
  _ ← sr_map_err (fun e => "failed to write handoff fingerprint request: " +:+ io_text e)
        (send (write_all PROXY_FINGERPRINT_REQUEST));
  _ ← sr_map_err (fun e => "failed to finish handoff fingerprint request: " +:+ io_text e) (send shutdown);
  response ← read_response 1026 [];
  sr_lift (is_fingerprint response).
End fingerprint.

(** ** Waiting for the port *)

(** How one attempt ends: the channel is not opened in time, or refused, or it
    is opened and the check ends with a result or not in time.  With the time
    it takes, the time until the budget is looked at again, and the time by
    which the sleep after it is late. *)
Inductive AttemptEnd := OpenTimedOut | OpenRefused (e : string) | Checked (r : result string unit) | CheckTimedOut.
Record Attempt := MkAttempt { at_end : AttemptEnd; at_time : N; at_gap : N; at_late : N }.

Section wait.
Context (now : Z) (host : string) (port : Z) (budget : Z) (attempt : nat -> Attempt).

Definition endpoint : string := host +:+ ":" +:+ display_uint port.

Definition attempt_error (e : AttemptEnd) : option string :=
  match e with
  | Checked (Ok _) => None
  | Checked (Err e) => Some e
  | CheckTimedOut =>
    Some ("remote port " +:+ endpoint +:+ " did not return ssh_proxy proxy fingerprint within " +:+ PROBE_TIMEOUT_text)
  | OpenRefused e => Some e
  | OpenTimedOut =>
    Some ("remote port " +:+ endpoint +:+ " did not accept direct-tcpip within " +:+ PROBE_TIMEOUT_text)
  end.

(** The loop; [n] attempts have been made and [elapsed] milliseconds have
    passed.  [None] is a loop that has not ended. *)
Fixpoint wait_loop (fuel : nat) (n : nat) (delay elapsed : Z) : option (result HandoffProbeFailure HandoffProbeStatus) :=
  match fuel with
  | O => None
  | S fuel =>
    let n := S n in
    let attempts := Z.of_nat n in
    let a := attempt n in
    let latency := Z.of_N (at_time a) in
    let elapsed := elapsed + latency in
    match attempt_error (at_end a) with
    | None => Some (Ok (probe_ready now attempts latency))
    | Some last_error =>
      let classification := classify_probe_error last_error in
      if terminal_probe_failure classification then
        Some (Err (probe_failure now classification
          ("handoff probe found terminal " +:+ classification +:+ " after " +:+ display_uint attempts
           +:+ " attempts probing " +:+ endpoint +:+ ": " +:+ last_error) attempts (Some latency)))
      else if budget <=? elapsed then
        let blocker := if String.eqb classification "remote_port_not_ready" then "handoff_timeout"%string
                       else classification in
        Some (Err (probe_failure now blocker
          ("handoff timed out after " +:+ display_uint attempts +:+ " attempts probing " +:+ endpoint +:+ ": "
           +:+ last_error) attempts (Some latency)))
      else
        let elapsed := elapsed + Z.of_N (at_gap a) in
        let remaining := saturating_sub_u budget elapsed in
        wait_loop fuel n (Z.min (delay * 2) MAX_DELAY) (elapsed + Z.min delay remaining + Z.of_N (at_late a))
    end
  end.

(** As many turns as a budget can hold: every turn but the last two sleeps the
    initial delay at least. *)
Definition wait_fuel : nat := Z.to_nat (budget / INITIAL_DELAY) + 2.

(** How the SSH connection of the probe is made. *)
Inductive SshConnect := SshTargetInvalid (e : string) | SshFailed (e : string) | SshTimedOut | SshConnected.

Definition wait_remote_port_ready (target : string) (connect : SshConnect) :
    option (result HandoffProbeFailure HandoffProbeStatus) :=
  let fail message := Some (Err (probe_failure now "ssh_direct_tcpip_failed" message 0 None)) in
  match connect with
  | SshTargetInvalid e => fail ("failed to build SSH handoff target for " +:+ target +:+ ": " +:+ e)
  | SshFailed e => fail ("failed to connect SSH target for handoff probe: " +:+ e)
  | SshTimedOut => fail ("timed out connecting SSH target for handoff probe after " +:+ CONNECT_TIMEOUT_text)
  | SshConnected => wait_loop wait_fuel 0 INITIAL_DELAY 0
  end.

(** An answer to the first attempt ends the wait. *)
Lemma wait_first target :
  at_end (attempt 1) = Checked (Ok tt) ->
  wait_remote_port_ready target SshConnected = Some (Ok (probe_ready now 1 (Z.of_N (at_time (attempt 1))))).
Proof. intros Ha. cbn. unfold wait_fuel. rewrite Nat.add_comm. cbn. by rewrite Ha. Qed.
End wait.

(** ** The proxy answers the probe *)

Section recognise.
Context {R W : Type} `{AsyncReadLaws R} `{AsyncWriteLaws W}.
Implicit Types s : TcpStream R W.

(** One read of a stream that holds the end of [full] after [bs]. *)
Lemma read_piece n bs full s :
  0 < n -> bs ++ rest (inbound s) = full -> rest (inbound s) <> [] ->
  exists got s', recv (read_some n) s = (Ok got, s') /\ got <> [] /\ (bs ++ got) ++ rest (inbound s') = full
    /\ fin (inbound s') = fin (inbound s) /\ outbound s' = outbound s
    /\ (length (rest (inbound s')) < length (rest (inbound s)))%nat.
Proof.
  intros Hn Hb Hr. destruct (read_some_ok n (inbound s) Hn Hr) as (k & r' & Hk & _ & Hle & Hx & Hr' & Hf).
  exists (take (Z.to_nat k) (rest (inbound s))), (MkTcp r' (outbound s)). unfold recv. rewrite Hx. cbn.
  rewrite Hr'. split; [done|]. split.
  { intros E. apply (f_equal length) in E. rewrite length_take in E. cbn in E. lia. }
  split; [by rewrite <-app_assoc, take_drop|]. split; [done|]. split; [done|]. rewrite length_drop. lia.
Qed.

(** The end of the headers of a beginning of [full]. *)
Lemma header_end_prefix bs z n : http_header_end (bs ++ z) = Some n ->
  http_header_end bs = Some n \/ http_header_end bs = None.
Proof.
  intros Hn. destruct (http_header_end bs) as [k|] eqn:E; [left|by right].
  apply (http_header_end_app _ _ z) in E. congruence.
Qed.

Lemma read_headers_exact full fuel : forall bs s,
  http_header_end full = Some (length full) -> len full <= 64 * 1024 ->
  bs ++ rest (inbound s) = full -> rest (inbound s) <> [] -> (length (rest (inbound s)) <= fuel)%nat ->
  exists s', read_headers fuel bs s = (Ok full, s') /\ outbound s' = outbound s.
Proof.
  induction fuel as [|fuel IH]; intros bs s Hfull Hlen Hb Hr Hfuel; [destruct (rest (inbound s)); [done|cbn in *; lia]|].
  destruct (read_piece 1024 bs full s) as (got & s1 & Hx & Hg & Hb1 & _ & Ho & Hlt); [lia|done..|].
  cbn [read_headers]. rewrite (sr_bind_Ok _ _ _ got s1) by (unfold sr_map_err; by rewrite Hx).
  destruct got as [|g got]; [done|]. clear Hg. set (bs1 := bs ++ g :: got) in *.
  destruct (decide (rest (inbound s1) = [])) as [E|E].
  - rewrite E, app_nil_r in Hb1. rewrite Hb1, Hfull. by exists s1.
  - assert (Hnone : http_header_end bs1 = None).
    { rewrite <-Hb1 in Hfull. destruct (header_end_prefix _ _ _ Hfull) as [E1|]; [|done].
      apply http_header_end_le in E1. rewrite length_app in E1. destruct (rest (inbound s1)); [done|cbn in *; lia]. }
    rewrite Hnone. destruct (Z.ltb_spec (64 * 1024) (len bs1)) as [Hbig|_].
    { rewrite <-Hb1, length_app in Hlen. lia. }
    destruct (IH bs1 s1 Hfull Hlen Hb1 E) as (s' & Hs & Ho'); [lia|]. exists s'. by rewrite Ho', Ho.
Qed.

Lemma read_response_exact (io_text : io_error -> string) full h fuel : forall acc s,
  http_header_end full = Some h -> length full = (h + length PROXY_FINGERPRINT_BODY)%nat -> len full <= 1024 ->
  acc ++ rest (inbound s) = full -> rest (inbound s) <> [] -> (length (rest (inbound s)) <= fuel)%nat ->
  exists s', read_response io_text fuel acc s = (Ok full, s') /\ outbound s' = outbound s.
Proof.
  induction fuel as [|fuel IH]; intros bs s Hfull Hlen Hbound Hb Hr Hfuel;
    [destruct (rest (inbound s)); [done|cbn in *; lia]|].
  destruct (read_piece 128 bs full s) as (got & s1 & Hx & Hg & Hb1 & _ & Ho & Hlt); [lia|done..|].
  cbn [read_response]. rewrite (sr_bind_Ok _ _ _ got s1) by (unfold sr_map_err; by rewrite Hx).
  destruct got as [|g got]; [done|]. clear Hg. set (bs1 := bs ++ g :: got) in *.
  destruct (decide (rest (inbound s1) = [])) as [E|E].
  - rewrite E, app_nil_r in Hb1. rewrite Hb1, Hfull. rewrite (proj2 (Z.geb_le _ _)) by lia. by exists s1.
  - assert (Hl : (length bs1 < length full)%nat).
    { rewrite <-Hb1, length_app. destruct (rest (inbound s1)); [done|cbn; lia]. }
    assert (match http_header_end bs1 with
            | Some header_end => len bs1 >=? Z.of_nat header_end + len PROXY_FINGERPRINT_BODY
            | None => false
            end = false) as ->.
    { rewrite <-Hb1 in Hfull. destruct (header_end_prefix _ _ _ Hfull) as [-> | ->]; [|done].
      rewrite Z.geb_leb, Z.leb_gt. lia. }
    destruct (Z.ltb_spec 1024 (len bs1)); [lia|].
    destruct (IH bs1 s1 Hfull Hlen Hbound Hb1 E) as (s' & Hs & Ho'); [lia|]. exists s'. by rewrite Ho', Ho.
Qed.

Definition fingerprint : list byte := http_error_bytes 400 "Bad Request".

Lemma fingerprint_accepted lossy : is_fingerprint lossy fingerprint = Ok tt.
Proof. vm_compute. reflexivity. Qed.

Lemma verify_fingerprint (io_text : io_error -> string) (lossy : list byte -> string) s :
  rest (inbound s) = fingerprint -> live (outbound s) ->
  exists s', verify_proxy_fingerprint io_text lossy s = (Ok tt, s')
    /\ written (outbound s') = written (outbound s) ++ PROXY_FINGERPRINT_REQUEST.
Proof.
  intros Hr Hl. destruct (write_all_live PROXY_FINGERPRINT_REQUEST _ Hl) as (w1 & Hw1 & Hwr1 & Hl1).
  destruct (shutdown_live _ Hl1) as (w2 & Hw2 & Hwr2). unfold verify_proxy_fingerprint.
  rewrite (sr_bind_Ok _ _ _ tt (MkTcp (inbound s) w1)) by (unfold sr_map_err, send; by rewrite Hw1).
  rewrite (sr_bind_Ok _ _ _ tt (MkTcp (inbound s) w2)) by (unfold sr_map_err, send; cbn; by rewrite Hw2).
  destruct (read_response_exact io_text fingerprint 67 1026 [] (MkTcp (inbound s) w2)) as (s' & Hs & Ho).
  - vm_compute. reflexivity.
  - vm_compute. reflexivity.
  - vm_compute. congruence.
  - exact Hr.
  - cbn. rewrite Hr. vm_compute. congruence.
  - cbn [inbound]. rewrite Hr. apply Nat.leb_le. vm_compute. reflexivity.
  - exists s'. rewrite (sr_bind_Ok _ _ _ _ _ Hs). unfold sr_lift. rewrite fingerprint_accepted, Ho. cbn.
    by rewrite Hwr2, Hwr1.
Qed.
End recognise.

(** ** The wait ends *)

Section wait_ends.
Context (now : Z) (host : string) (port : Z) (budget : Z) (attempt : nat -> Attempt).

(** The delay and the time before attempt [k + 1], when [k] attempts failed. *)
Fixpoint clock (k : nat) : Z * Z :=
  match k with
  | O => (INITIAL_DELAY, 0)
  | S k' =>
    let '(delay, elapsed) := clock k' in
    let a := attempt k in
    let elapsed := elapsed + Z.of_N (at_time a) + Z.of_N (at_gap a) in
    (Z.min (delay * 2) MAX_DELAY, elapsed + Z.min delay (saturating_sub_u budget elapsed) + Z.of_N (at_late a))
  end.

Definition elapsed_at (k : nat) : Z := (clock k).2.

Lemma clock_grows k : INITIAL_DELAY <= (clock k).1 /\ Z.min budget (INITIAL_DELAY * Z.of_nat k) <= elapsed_at k.
Proof.
  unfold elapsed_at. induction k as [|k [IHd IHe]]; cbn [clock]; [cbn; lia|].
  destruct (clock k) as [d e]. cbn [fst snd] in *. unfold INITIAL_DELAY, MAX_DELAY, saturating_sub_u in *. lia.
Qed.

(** The error of an attempt that is tried again. *)
Definition retried (k : nat) : Prop :=
  exists e, attempt_error host port (at_end (attempt k)) = Some e /\ classify_probe_error e <> "remote_port_conflict"%string
  /\ elapsed_at (k - 1) + Z.of_N (at_time (attempt k)) < budget.

(** How the wait ends at attempt [k]. *)
Definition wait_outcome (k : nat) (r : result HandoffProbeFailure HandoffProbeStatus) : Prop :=
  let a := attempt k in
  match r with
  | Ok st => at_end a = Checked (Ok tt) /\ st = probe_ready now (Z.of_nat k) (Z.of_N (at_time a))
  | Err f => exists e, attempt_error host port (at_end a) = Some e
    /\ (classify_probe_error e = "remote_port_conflict"%string /\ pf_blocker f = "remote_port_conflict"%string
        \/ classify_probe_error e <> "remote_port_conflict"%string
           /\ budget <= elapsed_at (k - 1) + Z.of_N (at_time a)
           /\ pf_blocker f = if String.eqb (classify_probe_error e) "remote_port_not_ready" then "handoff_timeout"%string
                             else classify_probe_error e)
  end.

Lemma wait_loop_ends fuel : forall n,
  (wait_fuel budget <= n + fuel)%nat -> (n < wait_fuel budget)%nat -> 0 <= budget ->
  (forall j, (1 <= j <= n)%nat -> retried j) ->
  exists k r, (1 <= k <= wait_fuel budget)%nat
    /\ wait_loop now host port budget attempt fuel n (clock n).1 (clock n).2 = Some r
    /\ (forall j, (1 <= j < k)%nat -> retried j) /\ wait_outcome k r.
Proof.
  induction fuel as [|fuel IH]; intros n Hf Hn Hb Hprev; [lia|]. cbn [wait_loop].
  set (a := attempt (S n)). destruct (attempt_error host port (at_end a)) as [e|] eqn:Ee.
  2:{ exists (S n). eexists. split; [lia|]. split; [reflexivity|]. split; [intros j Hj; apply Hprev; lia|].
      unfold wait_outcome. fold a. split; [|done]. destruct (at_end a) as [| |[[]|]|]; try done. }
  unfold terminal_probe_failure. destruct (String.eqb_spec (classify_probe_error e) "remote_port_conflict") as [Ec|Ec].
  { exists (S n). eexists. split; [lia|]. split; [reflexivity|]. split; [intros j Hj; apply Hprev; lia|].
    exists e. split; [done|]. by left. }
  destruct (Z.leb_spec budget ((clock n).2 + Z.of_N (at_time a))) as [Ht|Ht].
  { exists (S n). eexists. split; [lia|]. split; [reflexivity|]. split; [intros j Hj; apply Hprev; lia|].
    exists e. split; [done|]. right. rewrite Nat.sub_succ, Nat.sub_0_r. by split_and!. }
  assert (Hr : retried (S n)). { exists e. rewrite Nat.sub_succ, Nat.sub_0_r. by split_and!. }
  destruct (IH (S n)) as (k & r & Hk & Hloop & Hprev' & Hout).
  - lia.
  - destruct (clock_grows n) as [_ Hg]. unfold elapsed_at in Hg. unfold wait_fuel in *.
    pose proof (Z.div_pos budget INITIAL_DELAY Hb ltac:(unfold INITIAL_DELAY; lia)).
    pose proof (Z.mod_pos_bound budget INITIAL_DELAY ltac:(unfold INITIAL_DELAY; lia)).
    pose proof (Z.div_mod budget INITIAL_DELAY ltac:(unfold INITIAL_DELAY; lia)).
    unfold INITIAL_DELAY in *. nia.
  - done.
  - intros j Hj. destruct (decide (j = S n)) as [->|]; [done|]. apply Hprev. lia.
  - exists k, r. split; [done|]. split; [|done]. cbn [clock] in Hloop. fold a in Hloop.
    by destruct (clock n) as [d el].
Qed.
End wait_ends.

(** ** Properties *)

(** C28. The probe recognises the proxy: when the proxy's own listener, on any
    backend, is sent the probe's request, it opens nothing and answers with
    bytes that the probe accepts however they arrive, having sent exactly that
    request. *)
Theorem handoff_recognises_proxy {R W R' W' Flow : Type} `{AsyncReadLaws R} `{AsyncPeek R} `{!AsyncPeekLaws R}
    `{AsyncWriteLaws W} `{AsyncReadLaws R'} `{AsyncWriteLaws W'} (env : Env Flow) (backend : TunnelBackend)
    (w : World R W Flow) (io_text : io_error -> string) (lossy : list byte -> string) :
  listening backend -> rest (inbound (conn w)) = PROXY_FINGERPRINT_REQUEST -> live (outbound (conn w)) ->
  counters_ok backend (counters w) ->
  let '(_, w') := client_handler env backend w in
  trace w' = trace w /\ counters w' = counters w
  /\ exists answer, written (outbound (conn w')) = written (outbound (conn w)) ++ answer
     /\ forall probe : TcpStream R' W', rest (inbound probe) = answer -> live (outbound probe) ->
        exists probe', verify_proxy_fingerprint io_text lossy probe = (Ok tt, probe')
          /\ written (outbound probe') = written (outbound probe) ++ PROXY_FINGERPRINT_REQUEST.
Proof.
  intros Hb Hr Hl Hc.
  destruct (read_headers_exact PROXY_FINGERPRINT_REQUEST (Z.to_nat (64 * 1024 + 2)) [] (conn w)) as (s1 & Hs1 & Ho).
  - vm_compute. reflexivity.
  - vm_compute. congruence.
  - done.
  - rewrite Hr. vm_compute. congruence.
  - rewrite Hr. apply Nat.leb_le. vm_compute. reflexivity.
  - assert (Hreq : read_http_request (conn w) = (parse_request PROXY_FINGERPRINT_REQUEST, s1)).
    { unfold read_http_request. by rewrite (sr_bind_Ok _ _ _ _ _ Hs1). }
    destruct (parse_request PROXY_FINGERPRINT_REQUEST) as [k|e] eqn:Ep; [by vm_compute in Ep|].
    pose proof (http_client_handled env backend x47 (tail PROXY_FINGERPRINT_REQUEST) w (Err e) s1 Hb) as Hh.
    specialize (Hh ltac:(by rewrite Hr) ltac:(vm_compute; congruence) Hreq ltac:(by rewrite Ho) Hc).
    destruct (client_handler env backend w) as [r w']. destruct Hh as (_ & Ht & Hcn & Hw). cbn [conn] in Hw.
    rewrite Ho in Hw. split; [done|]. split; [done|]. exists fingerprint. split; [done|].
    intros probe Hp Hlp. by apply verify_fingerprint.
Qed.

Definition probed_world : World Segments ScriptedWriter nat :=
  client_world [take 20 PROXY_FINGERPRINT_REQUEST; drop 20 PROXY_FINGERPRINT_REQUEST] [].

Lemma handoff_recognises_proxy_witness :
  let '(_, w') := client_handler sample_env Spx probed_world in
  trace w' = trace probed_world /\ counters w' = counters probed_world
  /\ exists answer, written (outbound (conn w')) = written (outbound (conn probed_world)) ++ answer
     /\ forall probe : TcpStream Segments ScriptedWriter, rest (inbound probe) = answer -> live (outbound probe) ->
        exists probe', verify_proxy_fingerprint (fun _ => "i/o error"%string) str_of_bytes probe = (Ok tt, probe')
          /\ written (outbound probe') = written (outbound probe) ++ PROXY_FINGERPRINT_REQUEST.
Proof.
  apply (handoff_recognises_proxy sample_env Spx probed_world (fun _ => "i/o error"%string) str_of_bytes).
  - exact I.
  - vm_compute. reflexivity.
  - vm_compute. reflexivity.
  - split; [vm_compute; intuition congruence|]. repeat constructor; vm_compute; congruence.
Defined.

(** The wait for the remote port ends after at most [budget / 250 ms + 2]
    attempts, whatever the attempts do and however long they take: with
    success exactly when an attempt checked the fingerprint; at once when a
    port answers with something else; and otherwise only when the budget is
    used up. *)
Theorem handoff_wait_ends (now : Z) (host : string) (port budget : Z) (attempt : nat -> Attempt) (target : string)
    (connect : SshConnect) :
  0 <= budget ->
  match connect with
  | SshConnected => exists k r, (1 <= k <= wait_fuel budget)%nat
      /\ wait_remote_port_ready now host port budget attempt target connect = Some r
      /\ (forall j, (1 <= j < k)%nat -> retried host port budget attempt j)
      /\ wait_outcome now host port budget attempt k r
  | _ => exists f, wait_remote_port_ready now host port budget attempt target connect = Some (Err f)
      /\ pf_blocker f = "ssh_direct_tcpip_failed"%string
  end.
Proof.
  intros Hb. destruct connect; cbn [wait_remote_port_ready]; try (eexists; split; reflexivity).
  apply (wait_loop_ends now host port budget attempt (wait_fuel budget) 0); [lia|unfold wait_fuel; lia|done|lia].
Qed.

(** A port that refuses twice and then answers. *)
Definition sample_attempts (k : nat) : Attempt :=
  match k with
  | 3%nat => MkAttempt (Checked (Ok tt)) 40 0 0
  | _ => MkAttempt (OpenRefused "Connection refused") 5 1 0
  end.

Lemma handoff_wait_ends_witness :
  exists k r, (1 <= k <= wait_fuel 90000)%nat
      /\ wait_remote_port_ready 7 "127.0.0.1" 17890 90000 sample_attempts "126" SshConnected = Some r
      /\ (forall j, (1 <= j < k)%nat -> retried "127.0.0.1" 17890 90000 sample_attempts j)
      /\ wait_outcome 7 "127.0.0.1" 17890 90000 sample_attempts k r.
Proof. apply (handoff_wait_ends 7 "127.0.0.1" 17890 90000 sample_attempts "126" SshConnected). lia. Defined.

(** The texts the probe makes of its own time limits are not taken for time
    limits: a slow answer counts as another program on the port, and a
    channel that is not opened in time as a failure of SSH. *)
Example probe_time_limits_misread :
  classify_probe_error (default EmptyString (attempt_error "127.0.0.1" 17890 CheckTimedOut)) = "remote_port_conflict"%string
  /\ classify_probe_error (default EmptyString (attempt_error "127.0.0.1" 17890 OpenTimedOut)) = "ssh_direct_tcpip_failed"%string.
Proof. split; vm_compute; reflexivity. Qed.
