(* ===== verification/DaemonWorld.v ===== *)
(** The state the daemon's session and peer jobs work on: the job registry, the
    session store and the peer store (crates/ssh-proxy/src/node_daemon/state.rs,
    state/peer_store.rs, crates/ssh-proxy-daemon/src/peer.rs), and the monad of
    an asynchronous task over them.

    Each operation of a task that waits for a lock, the network or the clock is
    a tick.  The environment [Env] says for every tick what the outside answers,
    how much time passes, whether a store could be written, and what the other
    tasks did to the stores in the meantime: the theorems about a task hold for
    every environment, so for every interleaving with the other tasks. *)

From Stdlib Require Import Strings.String.
From stdpp Require Import base gmap list strings sorting.
From S2P Require Import Prelude RustStr Collections Jobs Sessions Handoff.

(** ** Peers *)

Record PeerStatusRecord := MkPeer {
  pe_target : string; pe_state : string; pe_health : string; pe_version : option string;
  pe_control_endpoint : option string; pe_transport : option string; pe_transport_protocols : list string;
  pe_service_manager : option string; pe_descriptor_hash : option string; pe_update_required : bool;
  pe_blocker : option string; pe_repair_action : option RepairAction; pe_last_error : option string;
  pe_retry_after_ms : option Z; pe_recovery_attempts : Z; pe_updated_at_unix : Z }.

(** What the daemon reads of a peer's descriptor, and what an installation
    reports. *)
Record Descriptor := MkDescriptor {
  de_version : option string; de_protocols : option (list string); de_control : option string;
  de_transport : option string; de_hash : string }.
Record RemoteDescriptorResult := MkDescriptorResult {
  dr_descriptor : Descriptor; dr_remote_control : string; dr_remote_tcp : string }.
Record RemoteInstallResult := MkInstallResult {
  ir_descriptor : option Descriptor; ir_remote_control : string; ir_remote_tcp : string; ir_has_quic : bool;
  ir_has_tls : bool; ir_service_manager : string; ir_default_hash : string }.

(** ** The environment of a task *)

Record ApplyOutcome := MkOutcome {
  ao_desired_hash : string; ao_applied_hash : string; ao_remote_url : string; ao_verified : bool }.

(** A route as the status report shows it. *)
Record RouteView (Value : Type) := MkRouteView {
  rv_value : Value; rv_state : option string; rv_last_error : option string }.
Arguments MkRouteView {_}. Arguments rv_value {_}. Arguments rv_state {_}. Arguments rv_last_error {_}.

Record Daemon (Value : Type) := MkDaemon {
  d_jobs : JobStore; d_sessions : gmap string (ProxySessionRecord Value); d_peers : gmap string PeerStatusRecord }.
Arguments MkDaemon {_}. Arguments d_jobs {_}. Arguments d_sessions {_}. Arguments d_peers {_}.

Record Env (Value : Type) := MkEnv {
  env_now : nat -> Z;                                        (* seconds since the epoch *)
  env_pass : nat -> N;                                       (* milliseconds that pass *)
  env_saved : nat -> result string unit;                     (* writing a store's file *)
  env_others : nat -> Daemon Value -> Daemon Value;          (* what other tasks do *)
  env_install_args : nat -> ProxySessionSpec -> result string unit;
  env_bootstrap_args : nat -> string -> result string unit;  (* the same for a bootstrap, with its alias *)
  env_refresh : nat -> result string RemoteDescriptorResult;
  env_install : nat -> result string RemoteInstallResult;
  env_record_profile : nat -> result string unit;
  env_route_intent : nat -> ProxySessionSpec -> result string (option string);  (* the remote_url of the answer *)
  env_stop_route : nat -> string -> result string unit;
  env_route : nat -> string -> result string (option (RouteView Value));
  env_live : nat -> string -> bool;
  env_connect : nat -> SshConnect;
  env_attempt : nat -> nat -> Attempt;
  env_apply : nat -> ProxySessionSpec -> string -> result string ApplyOutcome;
  env_cleanup : nat -> ProxySessionSpec -> result string unit;
  env_missing_route : string -> string -> Value;             (* the JSON of a missing route *)
  env_version : string;
}.
Arguments MkEnv {_}. Arguments env_now {_}. Arguments env_pass {_}. Arguments env_saved {_}. Arguments env_others {_}.
Arguments env_install_args {_}. Arguments env_bootstrap_args {_}. Arguments env_refresh {_}. Arguments env_install {_}. Arguments env_record_profile {_}.
Arguments env_route_intent {_}. Arguments env_stop_route {_}. Arguments env_route {_}. Arguments env_live {_}.
Arguments env_connect {_}. Arguments env_attempt {_}. Arguments env_apply {_}. Arguments env_cleanup {_}.
Arguments env_missing_route {_}. Arguments env_version {_}.

(** What a task did outside the stores. *)
Inductive Act :=
| ARouteIntent (spec : ProxySessionSpec) (ok : bool)
| AStopRoute (id : string)
| ARouteReady (id : string) (state : string)
| AProbe (spec : ProxySessionSpec) (ok : bool)
| AApply (spec : ProxySessionSpec) (url : string) (ok : bool)
| ACleanup (spec : ProxySessionSpec).

(** The log of a task: the job records it wrote and what it did, in order. *)
Inductive Entry := Wrote (r : DaemonJobRecord) | Did (a : Act).

Record World (Value : Type) := MkTask {
  w_tick : nat; w_clock : Z; w_daemon : Daemon Value; w_log : list Entry }.
Arguments MkTask {_}. Arguments w_tick {_}. Arguments w_clock {_}. Arguments w_daemon {_}. Arguments w_log {_}.

Section task.
Context {Value : Type} `{SessionCodec Value} (env : Env Value).
Abbreviation task A := (sr (World Value) string A).

Definition now : task Z := fun w => (Ok (env_now env (w_tick w)), w).
Definition instant : task Z := fun w => (Ok (w_clock w), w).

Definition advance (more : Z) (w : World Value) : World Value :=
  MkTask (S (w_tick w)) (w_clock w + more + Z.of_N (env_pass env (w_tick w)))
    (env_others env (w_tick w) (w_daemon w)) (w_log w).

(** One wait: the world moves on, then [f] is done with the stores. *)
Definition wait {A} (f : nat -> World Value -> result string A * World Value) : task A := fun w =>
  f (w_tick w) (advance 0 w).

Definition outside {A} (f : nat -> result string A) : task A := wait (fun n w => (f n, w)).
(** A call whose error the task looks at itself. *)
Definition try_outside {A} (f : nat -> result string A) : task (result string A) := wait (fun n w => (Ok (f n), w)).
Definition act (a : Act) : task unit := fun w =>
  (Ok tt, MkTask (w_tick w) (w_clock w) (w_daemon w) (w_log w ++ [Did a])).
Definition sleep (ms : Z) : task unit := fun w => (Ok tt, advance ms w).

Definition set_jobs_of (f : JobStore -> JobStore) (r : DaemonJobRecord) (w : World Value) : World Value :=
  MkTask (w_tick w) (w_clock w)
    (MkDaemon (f (d_jobs (w_daemon w))) (d_sessions (w_daemon w)) (d_peers (w_daemon w))) (w_log w ++ [Wrote r]).
Definition set_sessions_of (m : gmap string (ProxySessionRecord Value)) (w : World Value) : World Value :=
  MkTask (w_tick w) (w_clock w) (MkDaemon (d_jobs (w_daemon w)) m (d_peers (w_daemon w))) (w_log w).
Definition set_peers_of (m : gmap string PeerStatusRecord) (w : World Value) : World Value :=
  MkTask (w_tick w) (w_clock w) (MkDaemon (d_jobs (w_daemon w)) (d_sessions (w_daemon w)) m) (w_log w).

(** [self.jobs.upsert(record, message)]. *)
Definition jobs_upsert (record : DaemonJobRecord) (message : string) : task DaemonJobRecord := wait (fun n w =>
  (_ ← env_saved env n; Ok record, set_jobs_of (upsert_store (env_now env n) record message) record w)).

Definition jobs_lookup (id : string) : task (option DaemonJobRecord) := wait (fun _ w =>
  (Ok (jobs_get id (d_jobs (w_daemon w))), w)).

(** [self.state.upsert_session_from_job(spec, job, route)]. *)
Definition state_upsert_session (spec : ProxySessionSpec) (job : DaemonJobRecord) (route : option Value) :
    task (ProxySessionRecord Value) := wait (fun n w =>
  let '(record, m) := upsert_session_from_job (env_now env n) spec job route (d_sessions (w_daemon w)) in
  (_ ← env_saved env n; Ok record, set_sessions_of m w)).

(** The other changes of the session store. *)
Definition state_sessions {A} (f : Z -> gmap string (ProxySessionRecord Value) -> A * gmap string (ProxySessionRecord Value)) :
    task A := wait (fun n w =>
  let '(a, m) := f (env_now env n) (d_sessions (w_daemon w)) in (_ ← env_saved env n; Ok a, set_sessions_of m w)).

Definition state_setup (spec : ProxySessionSpec) (job_id : string) (status : Z -> RemoteSetupStatus) :
    task (option (ProxySessionRecord Value)) :=
  state_sessions (fun now => update_remote_setup_status now (spec_session_id spec) job_id (status now)).
Definition state_probe (spec : ProxySessionSpec) (job_id : string) (status : Z -> HandoffProbeStatus) :
    task (option (ProxySessionRecord Value)) :=
  state_sessions (fun now => update_handoff_probe_status now (spec_session_id spec) job_id (status now)).

(** [upsert_peer_status] and [peer_status]. *)
Definition upsert_peer_status (record : Z -> PeerStatusRecord) : task unit := wait (fun n w =>
  let r := record (env_now env n) in
  (env_saved env n, set_peers_of (<[pe_target r := r]> (d_peers (w_daemon w))) w)).
Definition peer_status (target : string) : task (option PeerStatusRecord) := wait (fun _ w =>
  (Ok (d_peers (w_daemon w) !! target), w)).
End task.

(** ** Reasoning about logs *)

(** [logs m P]: whatever the environment does, [m] adds to the log a list for
    which, with its result, [P] holds. *)
Definition logs {Value A} (m : sr (World Value) string A) (P : result string A -> list Entry -> Prop) : Prop :=
  forall w r w', m w = (r, w') -> exists l, w_log w' = w_log w ++ l /\ P r l.

Section logs.
Context {Value : Type} `{SessionCodec Value} (env : Env Value).
Abbreviation task A := (sr (World Value) string A).

Lemma logs_mono {A} (m : task A) (P Q : result string A -> list Entry -> Prop) :
  logs m P -> (forall r l, P r l -> Q r l) -> logs m Q.
Proof. intros Hm HPQ w r w' E. destruct (Hm _ _ _ E) as (l & Hl & HP). eauto. Qed.

Lemma logs_bind {A B} (m : task A) (f : A -> task B) P Q :
  logs m P -> (forall a l1, P (Ok a) l1 -> logs (f a) (fun r l2 => Q r (l1 ++ l2))) ->
  (forall e l1, P (Err e) l1 -> Q (Err e) l1) -> logs (m ≫= f) Q.
Proof.
  intros Hm Hf Herr w r w'. unfold mbind, sr_bind. destruct (m w) as [[a|e] w1] eqn:E.
  - intros E2. destruct (Hm _ _ _ E) as (l1 & Hl1 & HP). destruct (Hf a l1 HP _ _ _ E2) as (l2 & Hl2 & HQ).
    exists (l1 ++ l2). by rewrite Hl2, Hl1, app_assoc.
  - intros [= <- <-]. destruct (Hm _ _ _ E) as (l1 & Hl1 & HP). eauto.
Qed.

Lemma logs_ret {A} (a : A) (P : result string A -> list Entry -> Prop) : P (Ok a) [] -> logs (Value := Value) (mret a) P.
Proof. intros HP w r w' [= <- <-]. exists []. by rewrite app_nil_r. Qed.

Lemma logs_fail {A} e (P : result string A -> list Entry -> Prop) : P (Err e) [] -> logs (Value := Value) (sr_fail e) P.
Proof. intros HP w r w' [= <- <-]. exists []. by rewrite app_nil_r. Qed.

(** Operations that leave the log alone. *)
Definition quiet {A} (m : task A) : Prop := logs m (fun _ l => l = []).

Lemma quiet_ret {A} (a : A) : quiet (mret a).
Proof. by apply logs_ret. Qed.
Lemma quiet_fail {A} e : quiet (A := A) (sr_fail e).
Proof. intros w r w' [= <- <-]. exists []. by rewrite app_nil_r. Qed.
Lemma quiet_lift {A} (r : result string A) : quiet (sr_lift r).
Proof. intros w r' w' [= <- <-]. exists []. by rewrite app_nil_r. Qed.
Lemma quiet_now : quiet (now env).
Proof. intros w r w' [= <- <-]. exists []. by rewrite app_nil_r. Qed.
Lemma quiet_instant : quiet instant.
Proof. intros w r w' [= <- <-]. exists []. by rewrite app_nil_r. Qed.
Lemma quiet_sleep ms : quiet (sleep env ms).
Proof. intros w r w' [= <- <-]. exists []. by rewrite app_nil_r. Qed.
Lemma quiet_outside {A} (f : nat -> result string A) : quiet (outside env f).
Proof. intros w r w' [= <- <-]. exists []. by rewrite app_nil_r. Qed.
Lemma quiet_try_outside {A} (f : nat -> result string A) : quiet (try_outside env f).
Proof. intros w r w' [= <- <-]. exists []. by rewrite app_nil_r. Qed.
Lemma quiet_jobs_lookup id : quiet (jobs_lookup env id).
Proof. intros w r w' [= <- <-]. exists []. by rewrite app_nil_r. Qed.
Lemma quiet_peer_status t : quiet (peer_status env t).
Proof. intros w r w' [= <- <-]. exists []. by rewrite app_nil_r. Qed.
Lemma quiet_upsert_session spec job route : quiet (state_upsert_session env spec job route).
Proof. intros w r w' [= <- <-]. exists []. by rewrite app_nil_r. Qed.
Lemma quiet_sessions {A} f : quiet (state_sessions (A := A) env f).
Proof.
  intros w r w'. unfold state_sessions, wait. destruct (f _ _) as [a m]. intros [= <- <-]. exists []. by rewrite app_nil_r.
Qed.
Lemma quiet_setup spec j st : quiet (state_setup env spec j st).
Proof. apply quiet_sessions. Qed.
Lemma quiet_probe spec j st : quiet (state_probe env spec j st).
Proof. apply quiet_sessions. Qed.
Lemma quiet_upsert_peer rec : quiet (upsert_peer_status env rec).
Proof. intros w r w' [= <- <-]. exists []. by rewrite app_nil_r. Qed.

Lemma logs_act a (P : result string unit -> list Entry -> Prop) : P (Ok tt) [Did a] -> logs (Value := Value) (act a) P.
Proof. intros HP w r w' [= <- <-]. by eexists. Qed.

Lemma logs_upsert job msg :
  logs (jobs_upsert env job msg) (fun r l => l = [Wrote job] /\ forall a, r = Ok a -> a = job).
Proof.
  intros w r w' [= <- <-]. exists [Wrote job]. split; [done|]. split; [done|]. intros a.
  by destruct (env_saved env (w_tick w)); [intros [= <-]|].
Qed.

(** The rules by which a task is stepped through. *)
Lemma logs_quiet {A B} (m : task A) (f : A -> task B) (Q : result string B -> list Entry -> Prop) :
  quiet m -> (forall a, logs (f a) Q) -> (forall e, Q (Err e) []) -> logs (m ≫= f) Q.
Proof.
  intros Hm Hf He. eapply logs_bind; [exact Hm|..]; cbn.
  - by intros a l ->.
  - by intros e l ->.
Qed.

Lemma quiet_bind {A B} (m : task A) (f : A -> task B) : quiet m -> (forall a, quiet (f a)) -> quiet (m ≫= f).
Proof. intros Hm Hf. by eapply logs_quiet. Qed.

Lemma logs_upsert_bind {A} job msg (f : DaemonJobRecord -> task A) (Q : result string A -> list Entry -> Prop) :
  logs (f job) (fun r l => Q r (Wrote job :: l)) -> (forall e, Q (Err e) [Wrote job]) ->
  logs (jobs_upsert env job msg ≫= f) Q.
Proof.
  intros Hf He. eapply logs_bind; [apply logs_upsert|..].
  - intros a l [-> Ha]. by rewrite (Ha a eq_refl).
  - intros e l [-> _]. done.
Qed.

Lemma logs_act_bind {A} a (f : unit -> task A) (Q : result string A -> list Entry -> Prop) :
  logs (f tt) (fun r l => Q r (Did a :: l)) -> logs (act a ≫= f) Q.
Proof.
  intros Hf. eapply (logs_bind _ _ (fun r l => r = Ok tt /\ l = [Did a])); [by apply logs_act|..].
  - by intros [] l [_ ->].
  - by intros e l [? _].
Qed.

Lemma logs_of_quiet {A} (m : task A) (Q : result string A -> list Entry -> Prop) :
  quiet m -> (forall r, Q r []) -> logs m Q.
Proof. intros Hm HQ. eapply logs_mono; [exact Hm|]. by intros r l ->. Qed.

(** A call whose answer the rest of the task may rely on. *)
Lemma logs_outside_bind {A B} (g : nat -> result string A) (f : A -> task B) (Q : result string B -> list Entry -> Prop) :
  (forall n a, g n = Ok a -> logs (f a) Q) -> (forall e, Q (Err e) []) -> logs (outside env g ≫= f) Q.
Proof.
  intros Hf He. eapply (logs_bind _ _ (fun r l => l = [] /\ exists n, r = g n)).
  - intros w r w' [= <- <-]. exists []. rewrite app_nil_r. eauto.
  - intros a l [-> [n Hn]]. by apply (Hf n).
  - by intros e l [-> _].
Qed.
Lemma logs_try_outside_bind {A B} (g : nat -> result string A) (f : result string A -> task B)
    (Q : result string B -> list Entry -> Prop) :
  (forall n, logs (f (g n)) Q) -> logs (try_outside env g ≫= f) Q.
Proof.
  intros Hf. eapply (logs_bind _ _ (fun r l => l = [] /\ exists n, r = Ok (g n))).
  - intros w r w' [= <- <-]. exists []. rewrite app_nil_r. eauto.
  - intros a l [-> [n [= ->]]]. apply Hf.
  - by intros e l [_ [n ?]].
Qed.

Lemma logs_now_bind {A} (f : Z -> task A) (Q : result string A -> list Entry -> Prop) :
  (forall t, logs (f t) Q) -> logs (now env ≫= f) Q.
Proof. intros Hf w r w' E. by apply (Hf (env_now env (w_tick w)) w r w'). Qed.

(** Two calls in a row, as one. *)
Lemma sr_assoc {A B C} (m : task A) (f : A -> task B) (g : B -> task C) w :
  ((m ≫= f) ≫= g) w = (m ≫= fun a => f a ≫= g) w.
Proof. unfold mbind, sr_bind. by destruct (m w) as [[]]. Qed.

Lemma logs_assoc {A B C} (m : task A) (f : A -> task B) (g : B -> task C) Q :
  logs (m ≫= fun a => f a ≫= g) Q -> logs ((m ≫= f) ≫= g) Q.
Proof. intros Hm w r w'. rewrite sr_assoc. apply Hm. Qed.

Lemma logs_ret_bind {A B} (a : A) (f : A -> task B) Q : logs (f a) Q -> logs (mret a ≫= f) Q.
Proof. done. Qed.
End logs.

Create HintDb quiet.
#[export] Hint Resolve quiet_ret quiet_fail quiet_lift quiet_now quiet_instant quiet_sleep quiet_outside
  quiet_try_outside quiet_jobs_lookup quiet_peer_status quiet_upsert_session quiet_sessions quiet_setup quiet_probe
  quiet_upsert_peer : quiet.

(** One step of a task: a write, an act or a call that is not logged. *)
Ltac logs_step :=
  lazymatch goal with
  | |- logs ((_ ≫= _) ≫= _) _ => apply logs_assoc
  | |- logs (mret _ ≫= _) _ => apply logs_ret_bind
  | |- logs (now _ ≫= _) _ => apply logs_now_bind; intros ?
  | |- logs (jobs_upsert _ _ _ ≫= _) _ => apply logs_upsert_bind
  | |- logs (act _ ≫= _) _ => apply logs_act_bind
  | |- logs (_ ≫= _) _ => apply logs_quiet; [solve [auto with quiet]|intros ?|]
  | |- logs (mret _) _ => apply logs_ret
  | |- logs (act _) _ => apply logs_act
  | |- logs (sr_fail _) _ => apply logs_fail
  end; cbn beta.

(** ** What a log says about a job *)

Definition job_of (e : Entry) : option DaemonJobRecord := match e with Wrote r => Some r | Did _ => None end.
Definition jobs_in (l : list Entry) : list DaemonJobRecord := omap job_of l.

(** The last record written for the job is final. *)
Definition ends (jid : string) (l : list Entry) : Prop :=
  exists j, last (jobs_in l) = Some j /\ is_terminal (job_state j) = true /\ job_id j = jid.

(** No record says that the job is healthy. *)
Definition calm_entry (e : Entry) : Prop := match e with Wrote r => job_state r <> Healthy | Did _ => True end.
Definition calm (l : list Entry) : Prop := Forall calm_entry l.

Lemma jobs_in_app l1 l2 : jobs_in (l1 ++ l2) = jobs_in l1 ++ jobs_in l2.
Proof. apply omap_app. Qed.

Lemma ends_app jid l1 l2 : ends jid l2 -> ends jid (l1 ++ l2).
Proof. intros (j & Hj & ?). exists j. rewrite jobs_in_app, last_app, Hj. done. Qed.

Lemma ends_cons jid e l : ends jid l -> ends jid (e :: l).
Proof. apply (ends_app jid [e]). Qed.

Lemma ends_one jid j : is_terminal (job_state j) = true -> job_id j = jid -> ends jid [Wrote j].
Proof. intros Ht Hj. by exists j. Qed.

Lemma calm_app l1 l2 : calm l1 -> calm l2 -> calm (l1 ++ l2).
Proof. apply Forall_app_2. Qed.

Lemma calm_nil : calm [].
Proof. constructor. Qed.
Lemma calm_cons e l : calm_entry e -> calm l -> calm (e :: l).
Proof. by constructor. Qed.

Create HintDb log.
#[export] Hint Resolve ends_app ends_cons ends_one calm_nil calm_cons calm_app : log.
#[export] Hint Extern 1 (calm_entry _) => cbn; first [done|congruence] : log.

(** Every healthy record is preceded by what [P] asks for. *)
Definition preceded (P : DaemonJobRecord -> list Entry -> Prop) (l : list Entry) : Prop :=
  forall l1 r l2, l = l1 ++ Wrote r :: l2 -> job_state r = Healthy -> P r l1.

(** More before it does no harm. *)
Definition monotone (P : DaemonJobRecord -> list Entry -> Prop) : Prop :=
  forall r l0 l1, P r l1 -> P r (l0 ++ l1).

Lemma calm_preceded P l : calm l -> preceded P l.
Proof.
  intros Hc l1 r l2 -> Hr. apply Forall_app in Hc as [_ Hc]. apply Forall_cons_iff in Hc as [Hc _]. by destruct Hc.
Qed.

(** The healthy records of a log that ends with one. *)
Lemma preceded_app P l1 l2 :
  monotone P -> preceded P l1 -> preceded (fun r l => P r (l1 ++ l)) l2 -> preceded P (l1 ++ l2).
Proof.
  intros HP H1 H2 a r b E Hr. apply app_eq_app in E as (k & [[-> E]|[-> E]]).
  - destruct k as [|e k]; cbn in E; simplify_eq.
    + specialize (H2 [] r b eq_refl Hr). cbn in H2. by rewrite !app_nil_r in *.
    + by apply (H1 a r k).
  - by apply (H2 k r b).
Qed.

Lemma preceded_impl (P Q : DaemonJobRecord -> list Entry -> Prop) l :
  (forall r l, P r l -> Q r l) -> preceded P l -> preceded Q l.
Proof. intros HPQ Hp l1 r l2 E Hr. by apply HPQ, (Hp l1 r l2). Qed.

Lemma preceded_both P l1 l2 : monotone P -> preceded P l1 -> preceded P l2 -> preceded P (l1 ++ l2).
Proof. intros HP H1 H2. apply preceded_app; [done..|]. eapply preceded_impl; [|exact H2]. intros r l. apply HP. Qed.

(** A log in which only the last record can be healthy. *)
Lemma preceded_last P l j : calm l -> (job_state j = Healthy -> P j l) -> preceded P (l ++ [Wrote j]).
Proof.
  intros Hc HP l1 r l2 E Hr. destruct l2 as [|e l2 _] using rev_ind.
  - apply app_inj_tail in E as [-> [= ->]]. by apply HP.
  - rewrite app_comm_cons, app_assoc in E. apply app_inj_tail in E as [-> _].
    by apply (calm_preceded P _ Hc l1 r l2).
Qed.
