(* ===== verification/RemotePeer.v ===== *)
(** The job that makes sure a remote host runs a peer
    (crates/ssh-proxy/src/node_daemon/remote_peer.rs, remote_peer/job.rs,
    remote_peer/job_runner.rs, remote_peer/phase_mapping.rs and the parts of
    remote_peer/report.rs that decide something; phases of
    crates/ssh-proxy-lifecycle/src/workflow/model.rs).  The lifecycle reports,
    JSON texts kept with a peer, are left out. *)

From Stdlib Require Import Strings.String.
From stdpp Require Import base gmap list strings sorting.
From S2P Require Import Prelude RustStr Collections Jobs Sessions Handoff DaemonWorld.

(** ** Phases *)

Inductive PeerLifecyclePhase :=
| LPrepare | LInspectDescriptor | LDependencyCheck | LStageBinary | LWriteConfig | LInstallService | LStartService
| LHealthProbe | LRecord | LHealthy | LRepairing | LRollback | LFailed.

#[global] Instance PeerLifecyclePhase_eq_dec : EqDecision PeerLifecyclePhase.
Proof. solve_decision. Defined.

Definition lifecycle_progress (p : PeerLifecyclePhase) : Z :=
  match p with
  | LPrepare => 5 | LInspectDescriptor => 15 | LDependencyCheck => 25 | LStageBinary => 35 | LWriteConfig => 45
  | LInstallService => 60 | LStartService => 72 | LHealthProbe => 85 | LRecord => 95 | LHealthy => 100
  | LRepairing => 50 | LRollback => 90 | LFailed => 100
  end.

Definition lifecycle_phase_from_job (p : DaemonJobPhase) : PeerLifecyclePhase :=
  match p with
  | PInspectPeerDescriptor => LInspectDescriptor | PDependencyCheck => LDependencyCheck
  | PStageRemotePeer => LStageBinary | PWritePeerConfig => LWriteConfig | PInstallPeerService => LInstallService
  | PStartPeerService => LStartService | PPeerHealthProbe => LHealthProbe | PRecordPeer => LRecord
  | PFailed => LFailed | _ => LPrepare
  end.

Definition job_phase_from_lifecycle (p : PeerLifecyclePhase) : DaemonJobPhase :=
  match p with
  | LInspectDescriptor => PInspectPeerDescriptor | LDependencyCheck => PDependencyCheck
  | LStageBinary => PStageRemotePeer | LWriteConfig => PWritePeerConfig | LInstallService => PInstallPeerService
  | LStartService => PStartPeerService | LHealthProbe => PPeerHealthProbe | LRecord => PRecordPeer
  | LFailed => PFailed | _ => PQueued
  end.

(** ** Pure parts *)

Definition remote_peer_job (now : Z) (alias job_id kind : string) (spec : option ProxySessionSpec)
    (phase : DaemonJobPhase) (progress : Z) : DaemonJobRecord :=
  let job := transition now Running phase progress (with_target alias (JobRecord_new now job_id kind)) in
  match spec with
  | Some spec => with_remote_url (Some (spec_remote_url spec)) (with_route (spec_route_id spec)
                   (with_workspace (sp_workspace_id spec) job))
  | None => job
  end.

(** [sanitize_key] of the peer jobs: runs of other characters become one dash. *)
Fixpoint peer_key_chars (out : list Z) (cs : list Z) : list Z :=
  match cs with
  | [] => out
  | c :: cs =>
    if is_ascii_alphanumeric c then peer_key_chars (out ++ [char_lower c]) cs
    else if bool_decide (last out = Some 45) then peer_key_chars out cs
    else peer_key_chars (out ++ [45]) cs
  end.
Definition peer_sanitize_key (value : string) : string :=
  string_of_chars (trim_by (fun c => c =? 45) (peer_key_chars [] (chars value))).

Definition remote_peer_blocker (error : string) : string :=
  if contains error "SSH authentication failed" then "ssh_auth_failed"
  else if contains error "ProxyCommand" || contains error "unsupported --ssh-arg" || contains error "unsupported -o"
  then "ssh_config_unsupported"
  else "remote_peer_install_failed".

Section remote_peer.
Context {Value : Type} `{SessionCodec Value} (env : Env Value).
Abbreviation task A := (sr (World Value) string A).

Definition descriptor_update_required (d : Descriptor) : bool :=
  match de_version d with Some version => negb (String.eqb version (env_version env)) | None => true end.
Definition descriptor_install_required (d : Descriptor) (force : bool) : bool := force || descriptor_update_required d.
Definition descriptor_version_message (d : Descriptor) : string :=
  "remote peer version " +:+ default "unknown"%string (de_version d) +:+ " does not match local " +:+ env_version env.

Definition peer_status_from_descriptor (now : Z) (alias : string) (d : Descriptor) (remote_control remote_tcp : string)
    (service_manager : string) (recovery_attempts : Z) : PeerStatusRecord :=
  let protocols := match de_protocols d with
                   | Some (_ :: _ as items) => items
                   | _ => ["plain-tcp"%string]
                   end in
  MkPeer alias "healthy" "healthy" (de_version d)
    (Some (default ("tcp://" +:+ remote_control) (de_control d))) (Some (default remote_tcp (de_transport d)))
    protocols (Some service_manager) (Some (de_hash d)) (descriptor_update_required d) None None None None
    recovery_attempts now.

Definition remote_transport_protocols (r : RemoteInstallResult) : list string :=
  (if ir_has_quic r then ["quic"%string] else []) ++ (if ir_has_tls r then ["tls-tcp"%string] else [])
  ++ ["plain-tcp"%string].

(** ** Steps of the job *)

(** Context of one job: the peer, the job and, for a proxy session, its
    specification. *)
Context (alias jid job_kind : string) (spec : option ProxySessionSpec).

Definition peer_job (phase : DaemonJobPhase) (progress : Z) : task DaemonJobRecord :=
  t ← now env; mret (remote_peer_job t alias jid job_kind spec phase progress).

Definition upsert_if_session (job : DaemonJobRecord) : task unit :=
  match spec with
  | Some spec => _ ← state_upsert_session env spec job None; mret tt
  | None => mret tt
  end.

(** [record_event] of the sink, for the event of [phase] with its error and
    blocker. *)
Definition record_event (phase : PeerLifecyclePhase) (last_error blocker : option string) (message : string) : task unit :=
  job ← peer_job (job_phase_from_lifecycle phase) (lifecycle_progress phase);
  t ← now env;
  let job := with_next_action "wait_for_remote_peer" job in
  let failed := bool_decide (phase = LFailed) in
  let job := if failed then job_failed t (default "remote peer lifecycle failed"%string last_error) blocker job else job in
  job ← jobs_upsert env job message;
  _ ← upsert_if_session job;
  upsert_peer_status env (fun t =>
    MkPeer alias (if failed then "failed" else "running") (if failed then "failed" else "starting") None None None []
      (Some "auto"%string) None false blocker (b ← blocker; action_for_blocker b) last_error None 0 t).

(** [emit] only logs an error of [record_event]. *)
Definition emit_event (phase : PeerLifecyclePhase) (message : string) : task unit := fun w =>
  let '(_, w) := record_event phase None None message w in (Ok tt, w).

(** [remote_peer_phase]: its own progress argument is not used. *)
Definition remote_peer_phase (phase : DaemonJobPhase) (progress : Z) (message : string) : task DaemonJobRecord :=
  _ ← emit_event (lifecycle_phase_from_job phase) message;
  job ← jobs_lookup env jid;
  sr_lift (ok_or ("remote peer lifecycle event did not record job " +:+ jid) job).

Definition record_peer_waiting (last_error : option string) (message : string) : task unit :=
  job ← peer_job PInspectPeerDescriptor 33;
  t ← now env;
  job ← jobs_upsert env (with_retry_after_ms 250 (with_next_action "bootstrap_remote_peer"
          (transition t WaitingRetry PInspectPeerDescriptor 33 job))) message;
  _ ← upsert_if_session job;
  existing ← peer_status env alias;
  match existing with
  | Some p =>
    upsert_peer_status env (fun _ =>
      MkPeer (pe_target p) (pe_state p) (pe_health p) (pe_version p) (pe_control_endpoint p) (pe_transport p)
        (pe_transport_protocols p) (pe_service_manager p) (pe_descriptor_hash p) (pe_update_required p)
        (pe_blocker p) (pe_repair_action p) last_error (Some 250) (pe_recovery_attempts p) (pe_updated_at_unix p))
  | None => mret tt
  end.

Definition finish_direct_remote_peer_job : task unit :=
  match spec with
  | Some _ => mret tt
  | None =>
    t ← now env;
    _ ← jobs_upsert env (transition t Healthy PHealthy 100 (remote_peer_job t alias jid job_kind None PHealthy 100))
          "remote peer ready";
    mret tt
  end.

Definition record_ready_peer (message : string) (status : Z -> PeerStatusRecord) : task unit :=
  _ ← outside env (env_record_profile env);
  job ← peer_job PRecordPeer 44;
  job ← jobs_upsert env (with_next_action "continue_proxy_session" job) message;
  _ ← upsert_if_session job;
  _ ← upsert_peer_status env status;
  finish_direct_remote_peer_job.

Definition record_refreshed_peer (r : RemoteDescriptorResult) : task unit :=
  record_ready_peer "persistent remote peer descriptor adopted"
    (fun t => peer_status_from_descriptor t alias (dr_descriptor r) (dr_remote_control r) (dr_remote_tcp r) "unknown" 0).

Definition record_installed_peer (r : RemoteInstallResult) : task unit :=
  let descriptor := default (MkDescriptor (Some (env_version env)) (Some (remote_transport_protocols r))
      (Some ("tcp://" +:+ ir_remote_control r)) (Some (ir_remote_tcp r)) (ir_default_hash r)) (ir_descriptor r) in
  record_ready_peer "persistent remote peer installed and recorded"
    (fun t => peer_status_from_descriptor t alias descriptor (ir_remote_control r) (ir_remote_tcp r)
                (ir_service_manager r) 0).

(** The failure of an installation. *)
Definition record_install_failure (error : string) : task unit :=
  let blocker := remote_peer_blocker error in
  job ← peer_job PFailed 100;
  t ← now env;
  job ← jobs_upsert env (with_next_action "run ssh_proxy doctor --json --report" (job_failed t error (Some blocker) job))
          "remote peer ensure failed";
  _ ← upsert_if_session job;
  upsert_peer_status env (fun t =>
    MkPeer alias "failed" "failed" None None None [] (Some "auto"%string) None false (Some blocker)
      (action_for_blocker blocker) (Some error) (Some 1000) 0 t).

Definition install_phases : list (DaemonJobPhase * Z * string) :=
  [(PDependencyCheck, 34, "checking remote peer dependencies"%string);
   (PStageRemotePeer, 36, "staging remote peer binary"%string);
   (PWritePeerConfig, 38, "writing remote peer configuration"%string);
   (PInstallPeerService, 40, "installing remote peer service"%string)].

Fixpoint run_phases (l : list (DaemonJobPhase * Z * string)) : task unit :=
  match l with
  | [] => mret tt
  | (phase, progress, message) :: l => _ ← remote_peer_phase phase progress message; run_phases l
  end.

(** The installation, when the descriptor asks for it. *)
Definition install_peer : task bool :=
  _ ← run_phases install_phases;
  result ← try_outside env (env_install env);
  match result with
  | Ok result =>
    _ ← remote_peer_phase PPeerHealthProbe 42 "remote peer service answered health probe";
    _ ← record_installed_peer result;
    mret true
  | Err error => _ ← record_install_failure error; mret false
  end.

Definition run_remote_peer_ensure_job (force_install : bool) : task bool :=
  _ ← remote_peer_phase PInspectPeerDescriptor 32 "inspecting persistent remote peer descriptor";
  result ← try_outside env (env_refresh env);
  match result with
  | Ok result =>
    if negb (descriptor_install_required (dr_descriptor result) force_install)
    then _ ← record_refreshed_peer result; mret true
    else
      let message := if force_install then "remote peer update forced by caller"%string
                     else descriptor_version_message (dr_descriptor result) in
      _ ← record_peer_waiting (Some message) "remote descriptor is stale; bootstrapping persistent peer";
      install_peer
  | Err err =>
    _ ← record_peer_waiting (Some err) "remote descriptor unavailable; bootstrapping persistent peer";
    install_peer
  end.
End remote_peer.

(** ** What the job writes *)

Section peer_logs.
Context {Value : Type} `{SessionCodec Value} (env : Env Value) (alias jid kind : string)
  (sp : option ProxySessionSpec).

Lemma peer_job_id t phase progress : job_id (remote_peer_job t alias jid kind sp phase progress) = jid.
Proof. by destruct sp. Qed.
Lemma peer_job_state t phase progress : job_state (remote_peer_job t alias jid kind sp phase progress) = Running.
Proof. by destruct sp. Qed.
Local Hint Extern 1 (calm_entry (Wrote _)) => cbn; rewrite ?peer_job_state; done : log.
Local Hint Extern 1 (job_id _ = _) => cbn; rewrite ?peer_job_id; done : log.

Lemma quiet_if_session (s : option ProxySessionSpec) job : quiet (upsert_if_session env s job).
Proof. destruct s; [|apply quiet_ret]. apply quiet_bind; auto with quiet. Qed.
Hint Resolve quiet_if_session : quiet.

(** An event writes one record, whether or not it can be stored. *)
Lemma logs_emit phase msg :
  phase <> LFailed ->
  logs (emit_event env alias jid kind sp phase msg) (fun r l => exists j, l = [Wrote j] /\ job_state j = Running /\ r = Ok tt).
Proof.
  intros Hp w r w'. unfold emit_event.
  assert (Hr : logs (record_event env alias jid kind sp phase None None msg)
                 (fun _ l => exists j, l = [Wrote j] /\ job_state j = Running)).
  { unfold record_event, peer_job. rewrite (bool_decide_eq_false_2 _ Hp).
    repeat logs_step; try (intros; eexists; split; [done|]; apply peer_job_state).
    apply logs_of_quiet; [auto with quiet|]. intros; eexists; split; [done|]; apply peer_job_state. }
  destruct (record_event _ _ _ _ _ _ _ _ _ w) as [r1 w1] eqn:E. intros [= <- <-].
  destruct (Hr _ _ _ E) as (l & Hl & j & -> & Hj). eauto 6.
Qed.

Lemma logs_phase phase progress msg :
  lifecycle_phase_from_job phase <> LFailed ->
  logs (remote_peer_phase env alias jid kind sp phase progress msg) (fun _ l => calm l).
Proof.
  intros Hp. unfold remote_peer_phase. eapply logs_bind; [by apply logs_emit|..]; cbn.
  - intros _ l (j & -> & Hj & _). logs_step.
    + apply logs_of_quiet; [auto with quiet|]. intros _. repeat constructor. cbn. congruence.
    + intros e. repeat constructor. cbn. congruence.
  - intros e l (j & -> & Hj & _). repeat constructor. cbn. congruence.
Qed.

Lemma logs_phases l :
  Forall (fun p => lifecycle_phase_from_job p.1.1 <> LFailed) l ->
  logs (run_phases env alias jid kind sp l) (fun _ l => calm l).
Proof.
  induction 1 as [|[[phase progress] msg] l Hp Hl IH]; [apply logs_ret; constructor|]. cbn [run_phases].
  eapply logs_bind; [by apply logs_phase|..]; cbn; [|done].
  intros _ l1 H1. eapply logs_mono; [exact IH|]. cbn. auto with log.
Qed.

Lemma logs_waiting err msg : logs (record_peer_waiting env alias jid kind sp err msg) (fun _ l => calm l).
Proof.
  unfold record_peer_waiting, peer_job. repeat (logs_step; auto with log).
  apply logs_of_quiet; [destruct a0; auto with quiet|]. auto with log.
Qed.

(** A peer that is ready: nothing healthy is recorded for a session, and for a
    request of its own the job ends. *)
Definition peer_ready {A} (r : result string A) (l : list Entry) : Prop :=
  (is_Some sp -> calm l) /\ (sp = None -> is_ok r = true -> ends jid l).

Lemma logs_ready msg st : logs (record_ready_peer env alias jid kind sp msg st) peer_ready.
Proof.
  unfold record_ready_peer, peer_job, peer_ready, finish_direct_remote_peer_job.
  repeat logs_step; try (intros; split; [auto with log|done]).
  destruct sp as [spec|]; repeat logs_step; intros; (split; [|try done]); auto with log; by intros [].
Qed.

Lemma logs_install_failure error :
  logs (record_install_failure env alias jid kind sp error) (fun r l => calm l /\ ends jid l).
Proof.
  unfold record_install_failure, peer_job. repeat logs_step; try (intros; split; auto with log).
  apply logs_of_quiet; [auto with quiet|]. intros; split; auto with log.
Qed.

(** How the ensure job ends: [false] after a final record, and for a request
    of its own always with one. *)
Definition peer_done (r : result string bool) (l : list Entry) : Prop :=
  (r = Ok false -> ends jid l) /\ peer_ready r l.

Lemma peer_done_err e l : calm l -> peer_done (Err e) l.
Proof. intros Hc. split; [done|]. by split. Qed.

Lemma peer_done_app r l1 l2 : calm l1 -> peer_done r l2 -> peer_done r (l1 ++ l2).
Proof. intros Hc (H1 & H2 & H3). split; [auto with log|]. split; auto with log. Qed.

Lemma peer_ready_true l : peer_ready (Ok tt) l -> peer_done (Ok true) l.
Proof. intros [H1 H2]. split; [done|]. split; [done|]. intros E _. by apply H2. Qed.

Lemma logs_ready_true msg st : logs (_ ← record_ready_peer env alias jid kind sp msg st; mret true) peer_done.
Proof.
  eapply logs_bind; [apply logs_ready|..]; cbn.
  - intros [] l Hl. logs_step. rewrite app_nil_r. by apply peer_ready_true.
  - intros e l [Hl _]. split; [done|]. by split.
Qed.

Lemma logs_install_peer : logs (install_peer env alias jid kind sp) peer_done.
Proof.
  unfold install_peer. eapply logs_bind; [apply logs_phases; repeat constructor; done|..]; cbn; [|by intros; apply peer_done_err].
  intros _ l1 H1. logs_step; [|intros; apply peer_done_err; by rewrite app_nil_r]. destruct a as [result|error].
  - eapply logs_bind; [by apply logs_phase|..]; cbn; [|intros; apply peer_done_err; auto with log].
    intros _ l2 H2. eapply logs_mono; [apply logs_ready_true|]. intros r l3 H3. by apply peer_done_app, peer_done_app.
  - eapply logs_bind; [apply logs_install_failure|..]; cbn; [|intros e l2 [? ?]; apply peer_done_err; auto with log].
    intros _ l2 [H2 He]. logs_step. rewrite app_nil_r. apply peer_done_app; [done|]. split; [done|]. by split.
Qed.

Lemma logs_peer_job force : logs (run_remote_peer_ensure_job env alias jid kind sp force) peer_done.
Proof.
  unfold run_remote_peer_ensure_job. eapply logs_bind; [by apply logs_phase|..]; cbn; [|by intros; apply peer_done_err].
  intros _ l1 H1. logs_step; [|intros; apply peer_done_err; by rewrite app_nil_r].
  assert (Hi : forall err msg, logs (_ ← record_peer_waiting env alias jid kind sp err msg; install_peer env alias jid kind sp)
    (fun r l2 => peer_done r (l1 ++ l2))).
  { intros err msg. eapply logs_bind; [apply logs_waiting|..]; cbn; [|intros; apply peer_done_err; auto with log].
    intros _ l2 H2. eapply logs_mono; [apply logs_install_peer|]. cbn. intros r l3 H3. by apply peer_done_app, peer_done_app. }
  destruct a as [result|err]; [|apply Hi]. destruct (negb _); [|apply Hi].
  eapply logs_mono; [apply logs_ready_true|]. intros r l2 H2. by apply peer_done_app.
Qed.
End peer_logs.
