(* ===== verification/ProxySession.v ===== *)
(** The job of a proxy session: from a request to a route that is checked from
    the remote side and the remote settings applied
    (crates/ssh-proxy/src/node_daemon/proxy_session/state_machine.rs,
    job_runner.rs and route_ready.rs). *)

From Stdlib Require Import Strings.String Strings.Ascii.
From stdpp Require Import base gmap list strings sorting.
From S2P Require Import Prelude RustStr IpAddr Collections Jobs Sessions Handoff DaemonWorld RemotePeer.

(** ** Decisions *)

Record ProxySessionStep := MkStep { step_phase : DaemonJobPhase; step_progress : Z; step_message : string }.

Definition resolve_target_step := MkStep PResolveTarget 10 "resolved proxy session target".
Definition validate_local_proxy_step := MkStep PValidateLocalProxy 18 "validated local proxy URL".
Definition select_remote_port_step := MkStep PSelectRemotePort 24 "selected preferred remote port".
Definition ensure_peer_step := MkStep PEnsurePeer 35 "ensuring persistent remote peer".
Definition ensure_transport_step := MkStep PEnsureTransport 45 "selected Rust transport strategy".
Definition plan_route_step := MkStep PPlanRoute 50 "planned daemon-owned route".

Definition route_start_conflict_is_repairable (error : string) : bool :=
  contains error "is already running with a different spec".

Definition route_start_blocker (error : string) : string :=
  if route_start_conflict_is_repairable error then "route_already_running_different_spec"
  else if contains error "SSH authentication failed" then "ssh_auth_failed"
  else if contains error "ProxyCommand" || contains error "unsupported --ssh-arg" || contains error "unsupported -o"
  then "ssh_config_unsupported"
  else "route_start_failed".

Definition remote_port_failure_is_retryable (blocker message : string) : bool :=
  if String.eqb blocker "remote_port_conflict" then true
  else if negb (String.eqb blocker "route_failed") then false
  else
    let lower := to_ascii_lowercase message in
    contains lower "address already in use" || contains lower "already in use"
    || contains lower "cannot assign requested address" || contains lower "bind".

Definition reusable_proxy_session_job (job : DaemonJobRecord) (live_route : bool) : bool :=
  match job_state job with
  | WaitingRetry => if bool_decide (job_blocker job = Some "route_not_running"%string) then false else true
  | Queued | Running => true
  | Healthy => live_route
  | Failed | Cancelled => false
  end.

Definition job_for_phase (now : Z) (spec : ProxySessionSpec) (jid : string) (phase : DaemonJobPhase) (progress : Z) :
    DaemonJobRecord :=
  transition now Running phase progress
    (with_remote_url (Some (spec_remote_url spec)) (with_route (spec_route_id spec)
    (with_workspace (sp_workspace_id spec) (with_target (sp_target spec)
    (JobRecord_new now jid "ensure_proxy_session"))))).

(** The port of an authority, if it has one: after a bracketed host, or after
    the only colon. *)
Definition authority_port (authority : string) : option string :=
  match (rest ← strip_prefix "[" authority; '(_, tail) ← split_once "]" rest; strip_prefix ":" tail) with
  | Some port => Some port
  | None => '(host, port) ← rsplit_once ":" authority; if contains_char ":" host then None else Some port
  end.

(** The debug text of a scheme, without the escapes of special characters. *)
Definition quoted (s : string) : string := String (ascii_of_nat 34) (s +:+ String (ascii_of_nat 34) EmptyString).

Definition validate_proxy_session_spec (spec : ProxySessionSpec) : result string unit :=
  '(scheme, rest) ← ok_or "local proxy URL must include a scheme"%string (split_once "://" (sp_local_proxy spec));
  _ ← guard_or (String.eqb scheme "http" || String.eqb scheme "socks5" || String.eqb scheme "socks5h")
        ("unsupported local proxy scheme " +:+ quoted scheme +:+ "; use http:// or socks5h://");
  let authority := (split_at_any ["/"; "?"; "#"]%char rest).1 in
  let authority := match rsplit_once "@" authority with Some (_, endpoint) => endpoint | None => authority end in
  _ ← guard_or (negb (String.eqb authority EmptyString)) "local proxy URL is missing a host"%string;
  match authority_port authority with
  | Some port => _ ← ok_or "local proxy URL has an invalid port"%string (parse_uint 16 port); Ok tt
  | None => Ok tt
  end.

Inductive RouteReadyOutcome :=
| OutcomeHealthy
| OutcomeFailed (blocker message : string) (remote_url : option string).

(** The settings of the wait for a route, in milliseconds. *)
Definition READY_BUDGET : Z := 90000.
Definition READY_POLL : Z := 250.
Definition HANDOFF_BUDGET : Z := 90000.

Section runner.
Context {Value : Type} `{SessionCodec Value} (env : Env Value).
Abbreviation task A := (sr (World Value) string A).

(** A job is written and shown in its session. *)
Definition record_job (spec : ProxySessionSpec) (job : DaemonJobRecord) (message : string) (route : option Value) :
    task DaemonJobRecord :=
  job ← jobs_upsert env job message;
  _ ← state_upsert_session env spec job route;
  mret job.

Definition phase_job (spec : ProxySessionSpec) (jid : string) (phase : DaemonJobPhase) (progress : Z) : task DaemonJobRecord :=
  t ← now env; mret (job_for_phase t spec jid phase progress).
Definition fail_job (error : string) (blocker : option string) (job : DaemonJobRecord) : task DaemonJobRecord :=
  t ← now env; mret (job_failed t error blocker job).
Definition retry_job (phase : DaemonJobPhase) (progress : Z) (action : string) (job : DaemonJobRecord) : task DaemonJobRecord :=
  t ← now env;
  mret (with_retry_after_ms 250 (with_next_action action (transition t WaitingRetry phase progress job))).

(** ** Waiting for the route *)

(** The route was reported as failed. *)
Definition route_failed (spec : ProxySessionSpec) (jid : string) (remote_url : option string) (route : RouteView Value) :
    task RouteReadyOutcome :=
  let error := default "route failed"%string (rv_last_error route) in
  job ← phase_job spec jid PFailed 100;
  job ← fail_job error (Some "route_failed"%string) (with_remote_url remote_url job);
  _ ← record_job spec job "route failed" (Some (rv_value route));
  mret (OutcomeFailed "route_failed" error remote_url).

Definition ready_timeout_text : string := "route readiness timed out before remote handoff could start".

Definition route_timed_out (spec : ProxySessionSpec) (jid : string) (remote_url : option string) : task RouteReadyOutcome :=
  job ← phase_job spec jid PFailed 100;
  job ← fail_job ready_timeout_text (Some "route_ready_timeout"%string) (with_remote_url remote_url job);
  _ ← record_job spec (with_next_action "rerun_ensure_proxy_session" job) "route readiness timed out" None;
  mret (OutcomeFailed "route_ready_timeout" ready_timeout_text remote_url).

(** The check from the remote side; the answer says whether the port was
    verified, or why the session failed. *)
Definition check_handoff (spec : ProxySessionSpec) (jid : string) (remote_url : option string) (url : string)
    (route : RouteView Value) : task (result RouteReadyOutcome bool) :=
  if ap_verify_remote_port (sp_apply_policy spec) then
    _ ← state_probe env spec jid probe_checking;
    job ← phase_job spec jid PVerifyRemotePort 85;
    job ← retry_job PVerifyRemotePort 85 "wait_for_remote_handoff" (with_remote_url remote_url job);
    _ ← record_job spec job "waiting for remote handoff probe" (Some (rv_value route));
    t ← now env;
    probe ← try_outside env (fun n =>
      ok_or "out of fuel"%string (wait_remote_port_ready t (ip_text (sp_remote_bind spec))
        (preferred (sp_remote_port_policy spec)) HANDOFF_BUDGET (env_attempt env n) (sp_target spec) (env_connect env n)));
    match probe with
    | Ok (Ok status) =>
      _ ← act (AProbe spec true);
      _ ← state_probe env spec jid (fun _ => status);
      mret (Ok true)
    | Ok (Err failure) =>
      _ ← act (AProbe spec false);
      _ ← state_probe env spec jid (fun _ => pf_status failure);
      job ← phase_job spec jid PFailed 100;
      job ← fail_job (pf_message failure) (Some (pf_blocker failure)) (with_remote_url (Some url) job);
      _ ← record_job spec (with_next_action "run ssh_proxy doctor --json" job) "remote handoff probe failed"
            (Some (rv_value route));
      mret (Err (OutcomeFailed (pf_blocker failure) (pf_message failure) (Some url)))
    | Err e => sr_fail e
    end
  else
    _ ← state_probe env spec jid probe_skipped;
    mret (Ok false).

(** The remote settings are applied. *)
Definition apply_settings_step (spec : ProxySessionSpec) (jid : string) (remote_url : option string) (url : string)
    (route : RouteView Value) (handoff_verified : bool) : task (result RouteReadyOutcome unit) :=
  job ← phase_job spec jid PApplyRemoteSettings 92;
  _ ← record_job spec (with_remote_url remote_url job) "remote settings application required" (Some (rv_value route));
  _ ← state_setup env spec jid (fun t => setup_running t None (Some url));
  outcome ← try_outside env (fun n => env_apply env n spec url);
  match outcome with
  | Ok o =>
    _ ← act (AApply spec url true);
    _ ← state_setup env spec jid (fun t =>
          setup_applied t (ao_desired_hash o) (ao_applied_hash o) (ao_remote_url o) (handoff_verified || ao_verified o));
    mret (Ok tt)
  | Err error =>
    _ ← act (AApply spec url false);
    job ← phase_job spec jid PFailed 100;
    job ← fail_job error (Some "remote_setup_failed"%string) (with_remote_url (Some url) job);
    _ ← record_job spec (with_next_action "rerun_apply_remote_settings" job) "remote settings failed" (Some (rv_value route));
    _ ← state_setup env spec jid (fun t => setup_failed t error None (Some url));
    mret (Err (OutcomeFailed "remote_setup_failed" error (Some url)))
  end.

Definition session_healthy (spec : ProxySessionSpec) (jid : string) (url : string) (route : RouteView Value) :
    task RouteReadyOutcome :=
  job ← phase_job spec jid PHealthMonitoring 98;
  _ ← record_job spec (with_remote_url (Some url) job) "proxy session entered health monitoring" (Some (rv_value route));
  job ← phase_job spec jid PHealthy 100;
  t ← now env;
  _ ← record_job spec (with_remote_url (Some url) (transition t Healthy PHealthy 100 job)) "proxy session healthy"
        (Some (rv_value route));
  mret OutcomeHealthy.

(** The route runs. *)
Definition route_ready (spec : ProxySessionSpec) (jid : string) (remote_url : option string) (route : RouteView Value)
    (state : string) : task RouteReadyOutcome :=
  _ ← act (ARouteReady (spec_route_id spec) state);
  let url := default (spec_remote_url spec) remote_url in
  job ← phase_job spec jid PVerifyRemotePort 85;
  _ ← record_job spec (with_remote_url remote_url job) "route is ready for remote verification" (Some (rv_value route));
  verified ← check_handoff spec jid remote_url url route;
  match verified with
  | Err outcome => mret outcome
  | Ok handoff_verified =>
    applied ← apply_settings_step spec jid remote_url url route handoff_verified;
    match applied with
    | Err outcome => mret outcome
    | Ok _ => session_healthy spec jid url route
    end
  end.

(** The polls of the route's status. *)
Fixpoint ready_loop (fuel : nat) (spec : ProxySessionSpec) (jid : string) (remote_url : option string) (deadline : Z) :
    task RouteReadyOutcome :=
  match fuel with
  | O => sr_fail "out of fuel"%string
  | S fuel =>
    let again : task RouteReadyOutcome :=
      t ← instant;
      if deadline <=? t then route_timed_out spec jid remote_url
      else _ ← sleep env READY_POLL; ready_loop fuel spec jid remote_url deadline in
    route ← outside env (fun n => env_route env n (spec_route_id spec));
    match route with
    | Some route =>
      match rv_state route with
      | Some state =>
        if String.eqb state "error" || String.eqb state "failed" then route_failed spec jid remote_url route
        else if String.eqb state "running" || String.eqb state "ready" || String.eqb state "restarting"
        then route_ready spec jid remote_url route state
        else again
      | None => again
      end
    | None => again
    end
  end.

(** Every poll that does not end the loop sleeps, so the deadline is met within
    as many polls as sleeps fit the budget, and one. *)
Definition ready_fuel : nat := Z.to_nat (READY_BUDGET / READY_POLL) + 1.

Definition wait_for_proxy_route_ready (spec : ProxySessionSpec) (jid : string) (remote_url : option string) :
    task RouteReadyOutcome :=
  t ← instant;
  ready_loop ready_fuel spec jid remote_url (t + READY_BUDGET).

(** ** One attempt *)

Definition record_route_intent_accepted (spec : ProxySessionSpec) (jid : string) (response : option string)
    (recovery_attempts : Z) : task RouteReadyOutcome :=
  let remote_url := Some (default (spec_remote_url spec) response) in
  job ← phase_job spec jid PStartRoute 70;
  _ ← jobs_upsert env (with_recovery_attempts recovery_attempts (with_remote_url remote_url job)) "route intent accepted";
  job ← jobs_lookup env jid;
  _ ← match job with
      | Some job => _ ← state_upsert_session env spec job None; mret tt
      | None => mret tt
      end;
  wait_for_proxy_route_ready spec jid remote_url.

Definition handle_route_intent (spec : ProxySessionSpec) : task (result string (option string)) :=
  response ← try_outside env (fun n => env_route_intent env n spec);
  _ ← act (ARouteIntent spec (is_ok response));
  mret response.

(** [let _ = self.stop_route(...)]: the answer is not looked at. *)
Definition stop_route_anyway (id : string) : task unit :=
  _ ← try_outside env (fun n => env_stop_route env n id);
  act (AStopRoute id).

Definition run_proxy_session_route_attempt (spec : ProxySessionSpec) (jid : string) (recovery_attempts : Z) :
    task RouteReadyOutcome :=
  response ← handle_route_intent spec;
  match response with
  | Ok response => record_route_intent_accepted spec jid response recovery_attempts
  | Err error =>
    if route_start_conflict_is_repairable error then
      job ← phase_job spec jid PStartRoute 68;
      job ← retry_job PStartRoute 68 "restart_conflicting_route" job;
      _ ← record_job spec (with_recovery_attempts (recovery_attempts + 1) job)
            "route conflict detected; restarting daemon-owned route" None;
      _ ← stop_route_anyway (spec_route_id spec);
      _ ← sleep env 250;
      response ← handle_route_intent spec;
      match response with
      | Ok response => record_route_intent_accepted spec jid response (recovery_attempts + 1)
      | Err message =>
        let blocker := "route_already_running_different_spec"%string in
        job ← phase_job spec jid PFailed 100;
        job ← fail_job message (Some blocker) (with_recovery_attempts (recovery_attempts + 1) job);
        _ ← record_job spec (with_next_action "ssh_proxy down --target <target> --json" job)
              "route conflict repair failed" None;
        mret (OutcomeFailed blocker message (Some (spec_remote_url spec)))
      end
    else
      let blocker := route_start_blocker error in
      job ← phase_job spec jid PFailed 100;
      job ← fail_job error (Some blocker) (with_recovery_attempts recovery_attempts job);
      _ ← record_job spec job "route intent failed" None;
      mret (OutcomeFailed blocker error (Some (spec_remote_url spec)))
  end.

(** ** The job *)

Record PortAttemptFailure := MkPortFailure {
  paf_port : Z; paf_blocker : string; paf_message : string; paf_remote_url : option string }.

Definition record_remote_port_range_exhausted (spec : ProxySessionSpec) (jid : string) (failure : PortAttemptFailure)
    (candidate_count : Z) : task unit :=
  let cs := candidates (sp_remote_port_policy spec) in
  let first := default (preferred (sp_remote_port_policy spec)) (head cs) in
  let last := default first (last cs) in
  let selected_spec := with_remote_port (paf_port failure) spec in
  let message :=
    if first =? last
    then "remote port " +:+ display_uint first +:+ " is unavailable: " +:+ paf_message failure
    else "remote port range " +:+ display_uint first +:+ "-" +:+ display_uint last +:+ " exhausted after "
         +:+ display_uint candidate_count +:+ " attempts; last failure on " +:+ display_uint (paf_port failure)
         +:+ ": " +:+ paf_message failure in
  job ← phase_job selected_spec jid PFailed 100;
  job ← fail_job message (Some "remote_port_range_exhausted"%string)
          (with_recovery_attempts (saturating_sub_u candidate_count 1)
            (with_remote_url (Some (default (spec_remote_url selected_spec) (paf_remote_url failure))) job));
  _ ← record_job selected_spec
        (with_next_action "choose another remote port or increase remote port range size" job)
        "remote port range exhausted" None;
  mret tt.

Definition proxy_job_phase (spec : ProxySessionSpec) (jid : string) (step : ProxySessionStep) : task unit :=
  job ← phase_job spec jid (step_phase step) (step_progress step);
  _ ← record_job spec job (step_message step) None;
  mret tt.

(** The loop over the ports, from candidate [index] on. *)
Fixpoint try_ports (spec : ProxySessionSpec) (jid : string) (candidate_count : Z) (index : Z) (ports : list Z)
    (last_retryable_failure : option PortAttemptFailure) : task unit :=
  match ports with
  | [] =>
    match last_retryable_failure with
    | Some failure => record_remote_port_range_exhausted spec jid failure candidate_count
    | None => mret tt
    end
  | port :: ports =>
    let attempt_spec := with_remote_port port spec in
    _ ← (if 0 <? index then
           job ← phase_job attempt_spec jid PSelectRemotePort 24;
           job ← retry_job PSelectRemotePort 24 "try_next_remote_port" job;
           _ ← record_job attempt_spec (with_recovery_attempts (wrap_u 32 index) job)
                 "remote port conflict detected; trying next candidate" None;
           mret tt
         else mret tt);
    outcome ← run_proxy_session_route_attempt attempt_spec jid (wrap_u 32 index);
    match outcome with
    | OutcomeHealthy => mret tt
    | OutcomeFailed blocker message remote_url =>
      let retryable := remote_port_failure_is_retryable blocker message in
      let auto := auto_pick (sp_remote_port_policy spec) in
      if retryable && (index + 1 <? candidate_count) && auto then
        _ ← stop_route_anyway (spec_route_id attempt_spec);
        _ ← sleep env 250;
        try_ports spec jid candidate_count (index + 1) ports (Some (MkPortFailure port blocker message remote_url))
      else if retryable && auto then
        record_remote_port_range_exhausted spec jid (MkPortFailure port blocker message remote_url) candidate_count
      else mret tt
    end
  end.

Definition ensure_remote_peer_for_proxy_session (spec : ProxySessionSpec) (jid : string) : task bool :=
  _ ← outside env (fun n => env_install_args env n spec);
  run_remote_peer_ensure_job env (sp_target spec) jid "ensure_proxy_session" (Some spec) false.

Definition run_proxy_session_job (spec : ProxySessionSpec) (jid : string) : task unit :=
  _ ← proxy_job_phase spec jid resolve_target_step;
  match validate_proxy_session_spec spec with
  | Err e =>
    job ← phase_job spec jid PFailed 100;
    job ← fail_job e (Some "invalid_local_proxy"%string) job;
    _ ← record_job spec (with_next_action "set remoteProxy.localProxy.url to http:// or socks5h://" job)
          "proxy session validation failed" None;
    mret tt
  | Ok _ =>
    _ ← proxy_job_phase spec jid validate_local_proxy_step;
    _ ← proxy_job_phase spec jid select_remote_port_step;
    _ ← proxy_job_phase spec jid ensure_peer_step;
    peer ← ensure_remote_peer_for_proxy_session spec jid;
    if negb peer then mret tt
    else
      _ ← proxy_job_phase spec jid ensure_transport_step;
      _ ← proxy_job_phase spec jid plan_route_step;
      let cs := candidates (sp_remote_port_policy spec) in
      try_ports spec jid (len cs) 0 cs None
  end.

(** The spawned task: an error of the job is recorded as its failure. *)
Definition proxy_session_task (spec : ProxySessionSpec) (jid : string) (w : World Value) : World Value :=
  match run_proxy_session_job spec jid w with
  | (Ok _, w) => w
  | (Err e, w) =>
    ((job ← phase_job spec jid PFailed 100;
      job ← fail_job e (Some "job_task_failed"%string) job;
      jobs_upsert env job "proxy session job task failed") w).2
  end.
End runner.

(** ** What a session's job writes *)

Section session_logs.
Context {Value : Type} `{SessionCodec Value} (env : Env Value) (jid : string).
Implicit Types spec : ProxySessionSpec.

Local Ltac steps := unfold record_job, phase_job, fail_job, retry_job; repeat logs_step.
(** The same up to the next call whose answer matters. *)
Local Ltac steps_to_call :=
  unfold record_job, phase_job, fail_job, retry_job;
  repeat lazymatch goal with |- logs (try_outside _ _ ≫= _) _ => fail | _ => logs_step end.

(** What the environment answered when the task did something: the route was
    accepted, its status was one that counts as ready, the remote port
    answered the probe, the settings were applied. *)
Definition answered (a : Act) : Prop :=
  match a with
  | ARouteIntent spec true => exists n response, env_route_intent env n spec = Ok response
  | ARouteReady id state =>
    state ∈ ["running"; "ready"; "restarting"]%string
    /\ exists n route, env_route env n id = Ok (Some route) /\ rv_state route = Some state
  | AProbe spec true =>
    exists n t status, wait_remote_port_ready t (ip_text (sp_remote_bind spec))
      (preferred (sp_remote_port_policy spec)) HANDOFF_BUDGET (env_attempt env n) (sp_target spec) (env_connect env n)
      = Some (Ok status)
  | AApply spec url true => exists n o, env_apply env n spec url = Ok o
  | _ => True
  end.

Definition saw (a : Act) (l : list Entry) : Prop := answered a /\ Did a ∈ l.

Lemma saw_app a l0 l1 : saw a l0 \/ saw a l1 -> saw a (l0 ++ l1).
Proof. intros [[? ?] | [? ?]]; (split; [done|]); set_solver. Qed.

Lemma logs_route_failed spec url route :
  logs (route_failed env spec jid url route) (fun r l => calm l /\ ends jid l).
Proof. unfold route_failed. steps; intros; split; auto with log. Qed.

Lemma logs_timed_out spec url : logs (route_timed_out env spec jid url) (fun r l => calm l /\ ends jid l).
Proof. unfold route_timed_out. steps; intros; split; auto with log. Qed.

(** A verified port was probed. *)
Definition probed spec (r : result string (result RouteReadyOutcome bool)) (l : list Entry) : Prop :=
  calm l /\ match r with
            | Ok (Ok _) => ap_verify_remote_port (sp_apply_policy spec) = true -> saw (AProbe spec true) l
            | Ok (Err _) => ends jid l
            | Err _ => True
            end.

Lemma logs_check_handoff spec remote_url url route :
  logs (check_handoff env spec jid remote_url url route) (probed spec).
Proof.
  unfold check_handoff. destruct (ap_verify_remote_port _) eqn:Ev.
  - steps_to_call; try (intros; split; by auto with log). apply logs_try_outside_bind. intros n.
    destruct (wait_remote_port_ready _ _ _ _ _ _ _) as [[status|f]|] eqn:Ep; cbn [ok_or].
    + steps; intros; split; auto with log; try done. intros _. split; [by eexists _, _, _|set_solver].
    + steps; intros; split; auto with log.
    + steps. split; auto with log.
  - steps; intros; split; auto with log. by rewrite Ev.
Qed.

Definition applied spec url (r : result string (result RouteReadyOutcome unit)) (l : list Entry) : Prop :=
  calm l /\ match r with
            | Ok (Ok _) => saw (AApply spec url true) l
            | Ok (Err _) => ends jid l
            | Err _ => True
            end.

Lemma logs_apply_settings spec remote_url url route v :
  logs (apply_settings_step env spec jid remote_url url route v) (applied spec url).
Proof.
  unfold apply_settings_step. steps_to_call; try (intros; split; by auto with log).
  apply logs_try_outside_bind. intros n. destruct (env_apply env n spec url) as [o|e] eqn:Ea.
  - steps; intros; split; auto with log; try done. split; [by eexists _, _|set_solver].
  - steps; intros; split; auto with log.
Qed.

(** What comes before a healthy record: the status of the route was one that
    counts as ready, its port answered the probe where the policy asks for it,
    and the settings were applied. *)
Definition checked spec (r : DaemonJobRecord) (l : list Entry) : Prop :=
  (exists st, saw (ARouteReady (spec_route_id spec) st) l)
  /\ (ap_verify_remote_port (sp_apply_policy spec) = true -> saw (AProbe spec true) l)
  /\ exists url, saw (AApply spec url true) l /\ job_remote_url r = Some url.

Lemma checked_monotone spec : monotone (checked spec).
Proof.
  intros r l0 l1 ((st & ?) & Hp & url & ? & ?).
  split_and!; [exists st|intros Hv; specialize (Hp Hv)|exists url; split; [|done]]; apply saw_app; auto.
Qed.

Definition session_done (r : result string RouteReadyOutcome) (l : list Entry) : Prop :=
  match r with Ok _ => ends jid l | Err _ => True end.

(** The last records: health monitoring, then healthy. *)
Definition healthy_log (url : string) (l : list Entry) : Prop :=
  exists j1, job_state j1 <> Healthy
    /\ (l = [Wrote j1] \/ exists j2, l = [Wrote j1; Wrote j2] /\ job_remote_url j2 = Some url).

Lemma logs_healthy spec url route :
  logs (session_healthy env spec jid url route) (fun r l => session_done r l /\ healthy_log url l).
Proof.
  unfold session_healthy, session_done. steps; intros; (split; [by auto with log|]); eexists; split; eauto; done.
Qed.

Lemma checked_healthy spec pre url l :
  calm pre -> healthy_log url l -> (forall j, job_remote_url j = Some url -> checked spec j pre) ->
  preceded (checked spec) (pre ++ l).
Proof.
  intros Hc (j1 & H1 & Hl) H2. assert (Hc1 : calm (pre ++ [Wrote j1])) by auto with log.
  destruct Hl as [->|(j2 & -> & Hu)]; [by apply calm_preceded|].
  change [Wrote j1; Wrote j2] with ([Wrote j1] ++ [Wrote j2]). rewrite app_assoc.
  apply preceded_app; [apply checked_monotone|by apply calm_preceded|].
  intros [|e l1] r l2 E Hr; [|by destruct l1]. cbn in E. simplify_eq.
  rewrite app_nil_r. destruct (H2 r Hu) as ((st & ?) & Hp & u & ? & ?).
  split_and!; [exists st|intros Hv; specialize (Hp Hv)|exists u; split; [|done]]; apply saw_app; auto.
Qed.

Lemma logs_route_ready spec remote_url route state :
  answered (ARouteReady (spec_route_id spec) state) ->
  logs (route_ready env spec jid remote_url route state)
    (fun r l => session_done r l /\ preceded (checked spec) l).
Proof.
  intros Hst. unfold route_ready. set (url := default (spec_remote_url spec) remote_url).
  steps; [|by intros; split; [|apply calm_preceded; auto with log]..].
  match goal with |- context [Did ?a :: Wrote ?j :: _] => set (pre := [Did a; Wrote j]) end.
  assert (Hpre : calm pre) by (unfold pre; auto with log).
  assert (Hready : saw (ARouteReady (spec_route_id spec) state) pre) by (split; [done|set_solver]).
  change (logs (v ← check_handoff env spec jid remote_url url route;
                match v with
                | Ok hv => a ← apply_settings_step env spec jid remote_url url route hv;
                           match a with Ok _ => session_healthy env spec jid url route | Err o => mret o end
                | Err o => mret o
                end) (fun r l => session_done r (pre ++ l) /\ preceded (checked spec) (pre ++ l))).
  clearbody pre. eapply logs_bind; [apply logs_check_handoff|..].
  2:{ intros e l [Hl _]. split; [done|]. apply calm_preceded; auto with log. }
  intros [hv|o] l1 [Hl1 Hv]; cbn beta iota.
  2:{ logs_step. rewrite app_nil_r. split; [by apply ends_app|]. apply calm_preceded; auto with log. }
  eapply logs_bind; [apply logs_apply_settings|..].
  2:{ intros e l [Hl _]. split; [done|]. apply calm_preceded; auto with log. }
  intros [[]|o] l2 [Hl2 Ha]; cbn beta iota.
  2:{ logs_step. rewrite app_nil_r. split; [by apply ends_app, ends_app|]. apply calm_preceded; auto with log. }
  eapply logs_mono; [apply logs_healthy|]. intros r l3 [Hd Hh]. rewrite !app_assoc. split.
  - destruct r; [|done]. by apply ends_app.
  - apply (checked_healthy spec _ url); [auto with log|done|]. intros j Hj.
    split_and!; [exists state|intros E; specialize (Hv E)|exists url; split; [|done]]; auto using saw_app.
Qed.

Definition attempt_ok (P : DaemonJobRecord -> list Entry -> Prop) (r : result string RouteReadyOutcome) (l : list Entry) : Prop :=
  session_done r l /\ preceded P l.

Lemma attempt_ok_calm P r l : calm l -> session_done r l -> attempt_ok P r l.
Proof. intros Hc Hd. split; [done|by apply calm_preceded]. Qed.

Lemma attempt_ok_app P pre r l : monotone P -> calm pre -> attempt_ok P r l -> attempt_ok P r (pre ++ l).
Proof.
  intros HP Hc [Hd Hp]. split; [destruct r; [by apply ends_app|done]|].
  apply preceded_both; [done|by apply calm_preceded|done].
Qed.

Lemma logs_ready_loop fuel : forall spec url deadline,
  logs (ready_loop env fuel spec jid url deadline) (attempt_ok (checked spec)).
Proof.
  induction fuel as [|fuel IH]; intros spec url deadline; cbn [ready_loop].
  { logs_step. apply attempt_ok_calm; auto with log. done. }
  set (again := instant ≫= _).
  assert (Hagain : logs again (attempt_ok (checked spec))).
  { unfold again. logs_step; [|by intros; apply attempt_ok_calm; auto with log]. destruct (_ <=? _).
    - eapply logs_mono; [apply logs_timed_out|]. intros r l [Hc He]. apply attempt_ok_calm; [done|by destruct r].
    - logs_step; [apply IH|by intros; apply attempt_ok_calm; auto with log]. }
  clearbody again. apply logs_outside_bind; [|by intros; apply attempt_ok_calm; auto with log].
  intros n [route|] Hn; [|done]. destruct (rv_state route) as [state|] eqn:Hst; [|done].
  destruct (_ || _).
  { eapply logs_mono; [apply logs_route_failed|]. intros r l [Hc He]. apply attempt_ok_calm; [done|by destruct r]. }
  destruct (_ || _) eqn:Hs; [|done]. apply logs_route_ready. split; [|by exists n, route].
  rewrite !orb_true_iff, !String.eqb_eq in Hs. set_solver.
Qed.

Lemma logs_intent_accepted spec response n :
  logs (record_route_intent_accepted env spec jid response n) (attempt_ok (checked spec)).
Proof.
  unfold record_route_intent_accepted, wait_for_proxy_route_ready.
  steps; [|by intros; apply attempt_ok_calm; auto with log..].
  apply logs_quiet; [destruct a; [apply quiet_bind|]; auto with quiet|intros _|by intros; apply attempt_ok_calm; auto with log].
  logs_step; [|by intros; apply attempt_ok_calm; auto with log].
  eapply logs_mono; [apply logs_ready_loop|]. intros r l Hl.
  apply (attempt_ok_app _ [_] r l); [apply checked_monotone|auto with log|done].
Qed.

(** The route was asked for, at this port, and accepted. *)
Definition accepted spec (r : DaemonJobRecord) (l : list Entry) : Prop :=
  saw (ARouteIntent spec true) l /\ checked spec r l.

Lemma accepted_monotone spec : monotone (accepted spec).
Proof. intros r l0 l1 [Hi Hc]. split; [auto using saw_app|by apply checked_monotone]. Qed.

Lemma accepted_after spec pre r l :
  calm pre -> saw (ARouteIntent spec true) pre -> attempt_ok (checked spec) r l ->
  attempt_ok (accepted spec) r (pre ++ l).
Proof.
  intros Hc Hi [Hd Hp]. split; [destruct r; [by apply ends_app|done]|].
  apply preceded_app; [apply accepted_monotone|by apply calm_preceded|].
  eapply preceded_impl; [|exact Hp]. intros r' l' Hch. split; [auto using saw_app|by apply checked_monotone].
Qed.

Lemma logs_attempt spec n :
  logs (run_proxy_session_route_attempt env spec jid n) (attempt_ok (accepted spec)).
Proof.
  unfold run_proxy_session_route_attempt, handle_route_intent. apply logs_assoc, logs_try_outside_bind. intros k.
  destruct (env_route_intent env k spec) as [response|error] eqn:Ek; cbn [is_ok].
  { steps. eapply logs_mono; [apply logs_intent_accepted|]. intros r l Hl.
    apply (accepted_after spec [_] r l); [auto with log|split; [by exists k, response|set_solver]|done]. }
  apply logs_assoc. steps_to_call. destruct (route_start_conflict_is_repairable error).
  - unfold stop_route_anyway. steps_to_call; try (by intros; apply attempt_ok_calm; auto with log).
    logs_step; [|by intros; apply attempt_ok_calm; auto with log].
    steps_to_call; try (by intros; apply attempt_ok_calm; auto with log).
    apply logs_try_outside_bind. intros k2.
    destruct (env_route_intent env k2 spec) as [response|message] eqn:Ek2; cbn [is_ok].
    + steps. eapply logs_mono; [apply logs_intent_accepted|]. intros r l Hl.
      apply (accepted_after spec [_; _; _; _] r l); [auto with log|split; [by exists k2, response|set_solver]|done].
    + steps; intros; apply attempt_ok_calm; auto 8 with log; try done; cbn; auto 8 with log.
  - steps; intros; apply attempt_ok_calm; auto with log; try done; cbn; auto with log.
Qed.

Lemma logs_exhausted spec failure n :
  logs (record_remote_port_range_exhausted env spec jid failure n) (fun _ l => calm l /\ ends jid l).
Proof. unfold record_remote_port_range_exhausted. steps; intros; split; auto with log. Qed.

Lemma logs_stop id : logs (stop_route_anyway env id) (fun _ l => calm l).
Proof. unfold stop_route_anyway. steps; auto with log. Qed.

(** At one of the ports the request allows. *)
Definition at_some_port spec (r : DaemonJobRecord) (l : list Entry) : Prop :=
  exists port, port ∈ candidates (sp_remote_port_policy spec) /\ accepted (with_remote_port port spec) r l.

Lemma at_some_port_monotone spec : monotone (at_some_port spec).
Proof. intros r l0 l1 (port & Hp & Ha). exists port. split; [done|by apply accepted_monotone]. Qed.

Definition job_done spec (r : result string unit) (l : list Entry) : Prop :=
  match r with Ok _ => ends jid l | Err _ => True end /\ preceded (at_some_port spec) l.

Lemma job_done_calm spec r l : calm l -> match r with Ok _ => ends jid l | Err _ => True end -> job_done spec r l.
Proof. intros Hc Hd. split; [done|by apply calm_preceded]. Qed.

Lemma job_done_app spec pre r l :
  preceded (at_some_port spec) pre -> job_done spec r l -> job_done spec r (pre ++ l).
Proof.
  intros Hc [Hd Hp]. split; [destruct r; [by apply ends_app|done]|].
  apply preceded_both; [apply at_some_port_monotone|done..].
Qed.

Lemma logs_try_ports spec count ports : forall index failure,
  (forall p, p ∈ ports -> p ∈ candidates (sp_remote_port_policy spec)) ->
  (ports <> [] \/ failure <> None) ->
  logs (try_ports env spec jid count index ports failure) (job_done spec).
Proof.
  induction ports as [|port ports IH]; intros index failure Hports Hne; cbn [try_ports].
  { destruct failure as [f|]; [|by destruct Hne].
    eapply logs_mono; [apply logs_exhausted|]. intros r l [Hc He]. apply job_done_calm; [done|by destruct r]. }
  set (aspec := with_remote_port port spec). set (select := if 0 <? index then _ else _).
  assert (Hsel : logs select (fun _ l => calm l)).
  { unfold select. destruct (0 <? index); steps; intros; auto with log. }
  clearbody select. eapply logs_bind; [exact Hsel|..]; cbn beta.
  2:{ intros e l Hc. by apply job_done_calm. }
  intros _ l1 H1. cbn beta. eapply logs_bind; [apply logs_attempt|..].
  2:{ intros e l [_ Hp]. split; [done|]. apply preceded_both; [apply at_some_port_monotone|by apply calm_preceded|].
      eapply preceded_impl; [|exact Hp]. intros r l' Ha. exists port. split; [apply Hports; by left|done]. }
  intros outcome l2 [Hd Hp]. cbn in Hd.
  assert (Hpre : preceded (at_some_port spec) (l1 ++ l2)).
  { apply preceded_both; [apply at_some_port_monotone|by apply calm_preceded|].
    eapply preceded_impl; [|exact Hp]. intros r l' Ha. exists port. split; [apply Hports; by left|done]. }
  assert (Hret : job_done spec (Ok tt) (l1 ++ l2)) by (split; [by apply ends_app|done]).
  destruct outcome as [|blocker message url]; [logs_step; by rewrite app_nil_r|]. cbn zeta.
  destruct (_ && _ && _).
  - eapply logs_bind; [apply logs_stop|..]; cbn beta.
    2:{ intros e l Hc. rewrite app_assoc. apply job_done_app; [done|by apply job_done_calm]. }
    intros _ l3 H3. logs_step.
    2:{ intros e. rewrite app_nil_r, app_assoc. apply job_done_app; [done|by apply job_done_calm]. }
    eapply logs_mono; [apply IH; [intros p Hin; apply Hports; by right|by right]|].
    intros r l4 H4. rewrite !app_assoc. apply job_done_app; [|done].
    apply preceded_both; [apply at_some_port_monotone|done|by apply calm_preceded].
  - destruct (_ && _); [|logs_step; by rewrite app_nil_r].
    eapply logs_mono; [apply logs_exhausted|]. intros r l [Hc He]. rewrite app_assoc.
    apply job_done_app; [done|]. apply job_done_calm; [done|by destruct r].
Qed.

Lemma logs_proxy_phase spec st : logs (proxy_job_phase env spec jid st) (fun _ l => calm l).
Proof. unfold proxy_job_phase. steps; intros; auto with log. Qed.

Lemma logs_calm_bind {A} spec (m : sr (World Value) string A) (f : A -> sr (World Value) string unit) :
  logs m (fun _ l => calm l) -> (forall a, logs (f a) (job_done spec)) -> logs (m ≫= f) (job_done spec).
Proof.
  intros Hm Hf. eapply logs_bind; [exact Hm|..]; cbn beta.
  - intros a l Hc. eapply logs_mono; [apply Hf|]. intros r l2 Hl. apply job_done_app; [by apply calm_preceded|done].
  - intros e l Hc. by apply job_done_calm.
Qed.

Lemma logs_job spec : logs (run_proxy_session_job env spec jid) (job_done spec).
Proof.
  unfold run_proxy_session_job. apply logs_calm_bind; [apply logs_proxy_phase|intros _].
  destruct (validate_proxy_session_spec spec) as [_|e].
  2:{ steps; intros; apply job_done_calm; auto with log. }
  do 3 (apply logs_calm_bind; [apply logs_proxy_phase|intros _]).
  unfold ensure_remote_peer_for_proxy_session. apply logs_assoc. logs_step; [|by intros; apply job_done_calm; auto with log].
  eapply logs_bind; [apply logs_peer_job|..]; cbn beta.
  2:{ intros e l (_ & Hc & _). apply job_done_calm; [by apply Hc|done]. }
  intros [] l (He & Hc & _); cbn [negb]; (assert (Hcl : calm l) by by apply Hc).
  - eapply logs_mono; [|intros r l2 Hl; apply job_done_app; [by apply calm_preceded|exact Hl]].
    do 2 (apply logs_calm_bind; [apply logs_proxy_phase|intros _]).
    apply logs_try_ports; [done|]. left. by destruct (candidates_head (sp_remote_port_policy spec)) as [ps ->].
  - logs_step. rewrite app_nil_r. apply job_done_calm; [done|by apply He].
Qed.
End session_logs.

(** ** The wait for a route ends *)

Section fuel.
Context {Value : Type} `{SessionCodec Value} (env : Env Value).

Lemma ready_loop_same f1 f2 spec jid url deadline w :
  let w1 := advance env 0 w in
  (deadline <= w_clock w1 \/
   ready_loop env f1 spec jid url deadline (advance env READY_POLL w1)
   = ready_loop env f2 spec jid url deadline (advance env READY_POLL w1)) ->
  ready_loop env (S f1) spec jid url deadline w = ready_loop env (S f2) spec jid url deadline w.
Proof.
  intros w1 Hw. cbn [ready_loop]. unfold mbind, sr_bind, outside, wait, instant, sleep. fold w1.
  destruct (env_route env (w_tick w) (spec_route_id spec)) as [[route|]|e]; [destruct (rv_state route) as [st|]| |done].
  1: destruct (_ || _); [done|]; destruct (_ || _); [done|].
  all: destruct (Z.leb_spec deadline (w_clock w1)); [done|destruct Hw as [|Hw]; [lia|exact Hw]].
Qed.

Lemma ready_loop_fuel n : forall k spec jid url deadline w,
  deadline <= w_clock w + READY_POLL * Z.of_nat n ->
  ready_loop env (S n + k) spec jid url deadline w = ready_loop env (S n) spec jid url deadline w.
Proof.
  induction n as [|n IH]; intros k spec jid url deadline w Hd.
  - apply (ready_loop_same k 0). left. unfold advance. cbn. lia.
  - apply (ready_loop_same (S n + k) (S n)). right. apply IH. unfold advance. cbn [w_clock w_tick].
    unfold READY_POLL in *. lia.
Qed.
End fuel.

(** ** A session becomes healthy *)

Section live.
Context {Value : Type} `{SessionCodec Value} (env : Env Value) (spec : ProxySessionSpec) (jid : string).
Abbreviation task A := (sr (World Value) string A).

(** An environment in which everything works: the stores are written, the
    peer runs this version, the route starts and is seen to run, the probe
    gets its answer and the settings are applied; other tasks stay away. *)
Record works : Prop := {
  works_saved n : env_saved env n = Ok tt;
  works_others n d : env_others env n d = d;
  works_args n s : env_install_args env n s = Ok tt;
  works_peer n : exists r, env_refresh env n = Ok r /\ de_version (dr_descriptor r) = Some (env_version env);
  works_profile n : env_record_profile env n = Ok tt;
  works_intent n s : exists u, env_route_intent env n s = Ok u;
  works_route n : exists route st, env_route env n (spec_route_id spec) = Ok (Some route) /\ rv_state route = Some st
    /\ (st = "running" \/ st = "ready" \/ st = "restarting")%string;
  works_ssh n : env_connect env n = SshConnected;
  works_probe n : at_end (env_attempt env n 1) = Checked (Ok tt);
  works_apply n s u : exists o, env_apply env n s u = Ok o;
}.
Context (W : works).

(** [goes P m Q]: from [P], [m] returns, and then [Q] holds. *)
Definition goes {A} (P : World Value -> Prop) (m : task A) (Q : A -> World Value -> Prop) : Prop :=
  forall w, P w -> exists a w', m w = (Ok a, w') /\ Q a w'.

Lemma goes_bind {A B} P (m : task A) R (f : A -> task B) Q :
  goes P m R -> (forall a, goes (R a) (f a) Q) -> goes P (m ≫= f) Q.
Proof.
  intros Hm Hf w Hw. destruct (Hm w Hw) as (a & w1 & E & HR). destruct (Hf a w1 HR) as (b & w2 & E2 & HQ).
  exists b, w2. by rewrite (sr_bind_Ok _ _ _ _ _ E).
Qed.

Lemma goes_pre {A} P P' (m : task A) Q : (forall w, P' w -> P w) -> goes P m Q -> goes P' m Q.
Proof. intros HP Hm w Hw. by apply Hm, HP. Qed.

Lemma goes_ret {A} (P : World Value -> Prop) (a : A) (Q : A -> World Value -> Prop) : (forall w, P w -> Q a w) -> goes P (mret a) Q.
Proof. intros HQ w Hw. exists a, w. split; [done|by apply HQ]. Qed.

Definition keyed (w : World Value) : Prop := jobs_keyed (d_jobs (w_daemon w)).
(** The job is in the registry. *)
Definition known (w : World Value) : Prop := keyed w /\ is_Some (jobs_get jid (d_jobs (w_daemon w))).
Abbreviation keeps m := (goes known m (fun _ => known)).

Lemma known_same w w' : d_jobs (w_daemon w') = d_jobs (w_daemon w) -> known w -> known w'.
Proof. unfold known, keyed. by intros ->. Qed.

Lemma keeps_quietly {A} (m : task A) :
  (forall w, exists a, (m w).1 = Ok a) -> (forall w, d_jobs (w_daemon (m w).2) = d_jobs (w_daemon w)) -> keeps m.
Proof.
  intros Hok Hj w Hw. destruct (Hok w) as [a Ha]. exists a, (m w).2. split; [by rewrite <-Ha; destruct (m w)|].
  eapply known_same; [apply Hj|done].
Qed.

Lemma advance_jobs more w : d_jobs (w_daemon (advance env more w)) = d_jobs (w_daemon w).
Proof. unfold advance. cbn. by rewrite (works_others W). Qed.

Lemma goes_upsert job msg :
  job_id job = jid -> is_terminal (job_state job) = false ->
  goes keyed (jobs_upsert env job msg) (fun a w => a = job /\ known w).
Proof.
  intros Hid Ht w Hk. unfold jobs_upsert, wait. rewrite (works_saved W). do 2 eexists. split; [reflexivity|].
  split; [done|]. unfold known, keyed, set_jobs_of. cbn [w_daemon d_jobs]. rewrite advance_jobs.
  split; [by apply upsert_keyed|]. unfold jobs_get. rewrite upsert_lookup by done.
  rewrite <-Hid, lookup_insert_eq. cbn. rewrite decide_True by (by left). by eexists.
Qed.

Lemma goes_known_upsert job msg :
  job_id job = jid -> is_terminal (job_state job) = false -> goes known (jobs_upsert env job msg) (fun a w => a = job /\ known w).
Proof. intros Hid Ht w [Hk _]. by apply goes_upsert. Qed.

Lemma keeps_now : keeps (now env).
Proof. apply keeps_quietly; [by eexists|done]. Qed.
Lemma keeps_instant : keeps instant.
Proof. apply keeps_quietly; [by eexists|done]. Qed.
Lemma keeps_act a : keeps (act a).
Proof. apply keeps_quietly; [by eexists|done]. Qed.
Lemma keeps_sleep ms : keeps (sleep env ms).
Proof. apply keeps_quietly; [by eexists|intros w; apply advance_jobs]. Qed.
Lemma keeps_session s job route : keeps (state_upsert_session env s job route).
Proof.
  apply keeps_quietly; intros w; unfold state_upsert_session, wait; rewrite (works_saved W);
    destruct (upsert_session_from_job _ _ _ _ _) as [rec m]; [by eexists|apply (advance_jobs 0)].
Qed.
Lemma keeps_sessions {A} f : keeps (state_sessions (A := A) env f).
Proof.
  apply keeps_quietly; intros w; unfold state_sessions, wait; rewrite (works_saved W); destruct (f _ _) as [a m]; [by eexists|].
  apply (advance_jobs 0).
Qed.
Lemma keeps_peer r : keeps (upsert_peer_status env r).
Proof.
  apply keeps_quietly; intros w; unfold upsert_peer_status, wait; rewrite (works_saved W); [by eexists|].
  apply (advance_jobs 0).
Qed.
Lemma goes_outside {A} (f : nat -> result string A) (P : A -> Prop) :
  (forall n, exists a, f n = Ok a /\ P a) -> goes known (outside env f) (fun a w => P a /\ known w).
Proof.
  intros Hf w Hw. destruct (Hf (w_tick w)) as (a & E & Ha). exists a, (advance env 0 w). unfold outside, wait. rewrite E.
  split; [done|]. split; [done|]. by eapply known_same; [apply advance_jobs|].
Qed.
Lemma goes_try {A} (f : nat -> result string A) (P : A -> Prop) :
  (forall n, exists a, f n = Ok a /\ P a) -> goes known (try_outside env f) (fun r w => (exists a, r = Ok a /\ P a) /\ known w).
Proof.
  intros Hf w Hw. destruct (Hf (w_tick w)) as (a & E & Ha). exists (Ok a), (advance env 0 w). unfold try_outside, wait.
  rewrite E. split; [done|]. split; [by exists a|]. by eapply known_same; [apply advance_jobs|].
Qed.
Lemma goes_lookup : goes known (jobs_lookup env jid) (fun j w => is_Some j /\ known w).
Proof.
  intros w Hw. do 2 eexists. split; [reflexivity|]. assert (Hk : known (advance env 0 w)).
  { by eapply known_same; [apply advance_jobs|]. }
  split; [apply Hk|done].
Qed.

Lemma keeps_bind {A B} (m : task A) (f : A -> task B) Q : keeps m -> (forall a, goes known (f a) Q) -> goes known (m ≫= f) Q.
Proof. intros Hm Hf. by eapply goes_bind. Qed.

Lemma goes_bind_pure {A B} P (m : task A) (R : A -> Prop) P' (f : A -> task B) Q :
  goes P m (fun a w => R a /\ P' w) -> (forall a, R a -> goes P' (f a) Q) -> goes P (m ≫= f) Q.
Proof. intros Hm Hf. eapply goes_bind; [exact Hm|]. intros a w [Ha Hw]. by apply Hf. Qed.
Lemma goes_assoc {A B C} P (m : task A) (f : A -> task B) (g : B -> task C) Q :
  goes P (m ≫= fun a => f a ≫= g) Q -> goes P ((m ≫= f) ≫= g) Q.
Proof. intros Hm w Hw. rewrite sr_assoc. by apply Hm. Qed.
Lemma goes_ret_bind {A B} P (a : A) (f : A -> task B) Q : goes P (f a) Q -> goes P (mret a ≫= f) Q.
Proof. done. Qed.
Lemma goes_now_bind {A} P (f : Z -> task A) Q : (forall t, goes P (f t) Q) -> goes P (now env ≫= f) Q.
Proof. intros Hf w Hw. by apply (Hf (env_now env (w_tick w)) w). Qed.
Lemma goes_upsert_bind {A} P job msg (f : DaemonJobRecord -> task A) Q :
  (forall w, P w -> keyed w) -> job_id job = jid -> is_terminal (job_state job) = false -> goes known (f job) Q ->
  goes P (jobs_upsert env job msg ≫= f) Q.
Proof.
  intros HP Hid Ht Hf. eapply goes_bind; [intros w Hw; apply (goes_upsert job msg Hid Ht w), HP, Hw|].
  intros a w [-> Hw]. by apply Hf.
Qed.
Lemma known_keyed w : known w -> keyed w.
Proof. by intros [? _]. Qed.
Lemma keeps_ret {A} (a : A) : keeps (mret a).
Proof. by apply goes_ret. Qed.

Local Ltac goes_step :=
  lazymatch goal with
  | |- goes _ ((_ ≫= _) ≫= _) _ => apply goes_assoc
  | |- goes _ (mret _ ≫= _) _ => apply goes_ret_bind
  | |- goes _ (now _ ≫= _) _ => apply goes_now_bind; intros ?
  | |- goes _ (jobs_upsert _ _ _ ≫= _) _ => apply goes_upsert_bind; [by auto using known_keyed|done|done|]
  | |- goes _ (state_upsert_session _ _ _ _ ≫= _) _ => apply keeps_bind; [apply keeps_session|intros ?]
  | |- goes _ (state_setup _ _ _ _ ≫= _) _ => apply keeps_bind; [apply keeps_sessions|intros ?]
  | |- goes _ (state_probe _ _ _ _ ≫= _) _ => apply keeps_bind; [apply keeps_sessions|intros ?]
  | |- goes _ (act _ ≫= _) _ => apply keeps_bind; [apply keeps_act|intros ?]
  | |- goes _ (upsert_peer_status _ _ ≫= _) _ => apply keeps_bind; [apply keeps_peer|intros ?]
  end; cbn beta.
Local Ltac goes_on := unfold record_job, phase_job, fail_job, retry_job, peer_job, upsert_if_session; repeat goes_step.

(** The first phase makes the job known, the others keep it so. *)
Lemma goes_phase P st :
  (forall w, P w -> keyed w) -> goes P (proxy_job_phase env spec jid st) (fun _ => known).
Proof. intros HP. unfold proxy_job_phase. goes_on. apply keeps_ret. Qed.

Lemma keeps_peer_phase phase progress msg :
  lifecycle_phase_from_job phase <> LFailed ->
  keeps (remote_peer_phase env (sp_target spec) jid "ensure_proxy_session" (Some spec) phase progress msg).
Proof.
  intros Hp. unfold remote_peer_phase. apply keeps_bind.
  - assert (Hr : keeps (record_event env (sp_target spec) jid "ensure_proxy_session" (Some spec)
                          (lifecycle_phase_from_job phase) None None msg)).
    { unfold record_event. rewrite (bool_decide_eq_false_2 _ Hp). goes_on. apply keeps_peer. }
    intros w Hw. unfold emit_event. destruct (Hr w Hw) as (a & w' & E & Hk). exists tt, w'. by rewrite E.
  - intros _. eapply goes_bind; [apply goes_lookup|]. intros j w [[x ->] Hk]. by exists x, w.
Qed.

(** The peer's record says that it runs this version. *)
Definition peer_current (w : World Value) : Prop :=
  exists p, d_peers (w_daemon w) !! sp_target spec = Some p /\ pe_update_required p = false.

Lemma goes_ready_peer msg st :
  (forall t, pe_target (st t) = sp_target spec /\ pe_update_required (st t) = false) ->
  goes known (record_ready_peer env (sp_target spec) jid "ensure_proxy_session" (Some spec) msg st)
    (fun _ w => known w /\ peer_current w).
Proof.
  intros Hst. unfold record_ready_peer, peer_job, upsert_if_session, finish_direct_remote_peer_job.
  eapply goes_bind_pure; [apply (goes_outside _ (fun _ => True)); intros n; exists tt; by rewrite (works_profile W)|].
  intros _ _. repeat lazymatch goal with |- goes _ (upsert_peer_status _ _ ≫= _) _ => fail | _ => goes_step end.
  intros w Hw. unfold upsert_peer_status, wait, mbind, sr_bind. rewrite (works_saved W). do 2 eexists.
  split; [reflexivity|]. split; [by eapply known_same; [apply (advance_jobs 0)|]|].
  unfold peer_current. cbn. destruct (Hst (env_now env (w_tick w))) as [-> Hu]. eexists. by rewrite lookup_insert_eq.
Qed.

Lemma goes_ensure_peer :
  goes known (ensure_remote_peer_for_proxy_session env spec jid) (fun b w => b = true /\ (known w /\ peer_current w)).
Proof.
  unfold ensure_remote_peer_for_proxy_session, run_remote_peer_ensure_job.
  eapply goes_bind_pure; [apply (goes_outside _ (fun _ => True)); intros n; exists tt; by rewrite (works_args W)|].
  intros _ _. apply keeps_bind; [by apply keeps_peer_phase|intros _].
  eapply goes_bind_pure.
  { apply (goes_try _ (fun r => de_version (dr_descriptor r) = Some (env_version env))), (works_peer W). }
  intros _ (r & -> & Hv). cbn beta iota. unfold descriptor_install_required, descriptor_update_required. rewrite Hv.
  rewrite String.eqb_refl. cbn [negb orb]. unfold record_refreshed_peer.
  eapply goes_bind; [apply goes_ready_peer|intros ?; cbn beta; by apply goes_ret].
  intros t. split; [done|]. cbn. unfold descriptor_update_required. by rewrite Hv, String.eqb_refl.
Qed.

Lemma goes_handoff s remote_url url route :
  goes known (check_handoff env s jid remote_url url route) (fun v w => (exists b, v = Ok b) /\ known w).
Proof.
  unfold check_handoff. destruct (ap_verify_remote_port _).
  - goes_on. eapply goes_bind_pure.
    { apply (goes_try _ (fun r => exists st, r = Ok st)). intros n. rewrite (works_ssh W).
      rewrite wait_first by apply (works_probe W). eexists; split; [reflexivity|by eexists]. }
    intros _ (r & -> & st & ->). cbn beta iota. goes_on. apply goes_ret. eauto.
  - goes_on. apply goes_ret. eauto.
Qed.

Lemma goes_apply s remote_url url route v :
  goes known (apply_settings_step env s jid remote_url url route v) (fun v w => v = Ok tt /\ known w).
Proof.
  unfold apply_settings_step. goes_on. eapply goes_bind_pure.
  { apply (goes_try _ (fun _ => True)). intros n. destruct (works_apply W n s url) as [o ->]. by eexists. }
  intros _ (o & -> & _). cbn beta iota. goes_on. by apply goes_ret.
Qed.

(** The last record of the job is healthy. *)
Definition ends_healthy (w : World Value) : Prop :=
  exists j, last (jobs_in (w_log w)) = Some j /\ job_state j = Healthy /\ job_id j = jid.

Lemma goes_healthy s url route :
  goes known (session_healthy env s jid url route) (fun o w => o = OutcomeHealthy /\ ends_healthy w).
Proof.
  unfold session_healthy. goes_on. eapply goes_bind.
  { intros w Hw. unfold jobs_upsert, wait. rewrite (works_saved W). do 2 eexists. split; [reflexivity|].
    instantiate (1 := fun _ => ends_healthy). unfold ends_healthy, set_jobs_of. cbn [w_log].
    rewrite jobs_in_app, last_app. cbn. by eexists. }
  intros j. cbn beta. goes_step. eapply goes_bind.
  { intros w Hw. unfold state_upsert_session, wait. rewrite (works_saved W).
    destruct (upsert_session_from_job _ _ _ _ _) as [rec m]. do 2 eexists. split; [reflexivity|].
    instantiate (1 := fun _ => ends_healthy). exact Hw. }
  intros rec. cbn beta. goes_step. by apply goes_ret.
Qed.

Lemma goes_route_ready s remote_url route state :
  goes known (route_ready env s jid remote_url route state) (fun o w => o = OutcomeHealthy /\ ends_healthy w).
Proof.
  unfold route_ready. goes_on. eapply goes_bind_pure; [apply goes_handoff|]. intros _ [b ->]. cbn beta iota.
  eapply goes_bind_pure; [apply goes_apply|]. intros _ ->. apply goes_healthy.
Qed.

Lemma goes_ready_loop s fuel remote_url deadline :
  spec_route_id s = spec_route_id spec ->
  goes known (ready_loop env (S fuel) s jid remote_url deadline) (fun o w => o = OutcomeHealthy /\ ends_healthy w).
Proof.
  intros Hid. cbn [ready_loop]. eapply goes_bind_pure.
  { apply (goes_outside _ (fun r => exists route st, r = Some route /\ rv_state route = Some st
             /\ (st = "running" \/ st = "ready" \/ st = "restarting")%string)).
    intros n. destruct (works_route W n) as (route & st & E & Hst). rewrite Hid, E. eauto 8. }
  intros _ (route & st & -> & -> & Hst). destruct Hst as [-> |[-> | ->]]; apply goes_route_ready.
Qed.

Lemma goes_attempt s n :
  spec_route_id s = spec_route_id spec ->
  goes known (run_proxy_session_route_attempt env s jid n) (fun o w => o = OutcomeHealthy /\ ends_healthy w).
Proof.
  intros Hid. unfold run_proxy_session_route_attempt, handle_route_intent, record_route_intent_accepted.
  apply goes_assoc. eapply goes_bind_pure.
  { apply (goes_try _ (fun _ => True)). intros k. destruct (works_intent W k s) as [u ->]. by eexists. }
  intros _ (u & -> & _). cbn [is_ok]. goes_on.
  eapply goes_bind_pure; [apply goes_lookup|]. intros _ [j ->]. goes_on.
  unfold wait_for_proxy_route_ready. apply keeps_bind; [apply keeps_instant|intros t0].
  unfold ready_fuel. rewrite Nat.add_comm. by apply goes_ready_loop.
Qed.

Lemma goes_ports :
  goes known (_ ← proxy_job_phase env spec jid ensure_transport_step;
              _ ← proxy_job_phase env spec jid plan_route_step;
              let cs := candidates (sp_remote_port_policy spec) in try_ports env spec jid (len cs) 0 cs None)
    (fun _ => ends_healthy).
Proof.
  do 2 (apply keeps_bind; [by apply goes_phase, known_keyed|intros _]).
  destruct (candidates_head (sp_remote_port_policy spec)) as [ps ->]. cbn [try_ports Z.ltb Z.compare].
  goes_on. eapply goes_bind_pure; [by apply goes_attempt|]. intros _ ->. by apply goes_ret.
Qed.

(** The job gets through, and what its last part keeps holds besides. *)
Lemma goes_job (I : World Value -> Prop) :
  validate_proxy_session_spec spec = Ok tt ->
  (forall w, known w -> peer_current w -> I w) ->
  (forall w, I w -> I ((_ ← proxy_job_phase env spec jid ensure_transport_step;
              _ ← proxy_job_phase env spec jid plan_route_step;
              let cs := candidates (sp_remote_port_policy spec) in try_ports env spec jid (len cs) 0 cs None) w).2) ->
  goes keyed (run_proxy_session_job env spec jid) (fun _ w => ends_healthy w /\ I w).
Proof.
  intros Hv HI Hstay. unfold run_proxy_session_job. eapply goes_bind; [by apply goes_phase|intros ?]; cbn beta. rewrite Hv.
  do 3 (apply keeps_bind; [by apply goes_phase, known_keyed|intros _]).
  eapply goes_bind_pure; [apply goes_ensure_peer|]. intros _ ->. cbn [negb]. intros w [Hk Hp].
  destruct (goes_ports w Hk) as (u & w' & E & He). exists u, w'. split; [exact E|]. split; [done|].
  specialize (Hstay w (HI w Hk Hp)). by rewrite E in Hstay.
Qed.
End live.

(** ** Properties *)

(** C6. The task of a proxy session ends with a verdict: whatever the
    environment answers, whatever the other tasks do to the stores and
    whichever writes fail, the wait for the route ends within its polls, and
    the last record the task writes for its job is final. *)
Theorem proxy_session_task_ends {Value : Type} `{SessionCodec Value} (env : Env Value) (spec : ProxySessionSpec)
    (jid : string) (w : World Value) :
  (forall k s url w0, ready_loop env (ready_fuel + k) s jid url (w_clock w0 + READY_BUDGET) w0
                      = ready_loop env ready_fuel s jid url (w_clock w0 + READY_BUDGET) w0)
  /\ exists l, w_log (proxy_session_task env spec jid w) = w_log w ++ l /\ ends jid l.
Proof.
  split; [intros k s url w0; apply (ready_loop_fuel env 360); unfold READY_BUDGET, READY_POLL; lia|].
  unfold proxy_session_task. destruct (run_proxy_session_job env spec jid w) as [[u|e] w1] eqn:E;
    destruct (logs_job env jid spec _ _ _ E) as (l & Hl & Hd & _); [by exists l|].
  set (m := (phase_job env spec jid PFailed 100 ≫= _)).
  assert (Hm : logs m (fun _ l => ends jid l)).
  { unfold m, phase_job, fail_job. do 6 logs_step. eapply logs_mono; [apply logs_upsert|]. intros r l2 [-> _].
    auto with log. }
  destruct (m w1) as [r w2] eqn:E2. destruct (Hm _ _ _ E2) as (l2 & Hl2 & He). exists (l ++ l2). cbn.
  rewrite Hl2, Hl, app_assoc. split; [done|by apply ends_app].
Qed.


(** C12. When everything the session needs works (the stores, the peer, the
    route, the probe and the settings), the task makes the session healthy. *)
Theorem proxy_session_becomes_healthy {Value : Type} `{SessionCodec Value} (env : Env Value) (spec : ProxySessionSpec)
    (jid : string) (w : World Value) :
  works env spec -> validate_proxy_session_spec spec = Ok tt -> jobs_keyed (d_jobs (w_daemon w)) ->
  ends_healthy jid (proxy_session_task env spec jid w).
Proof.
  intros HW Hv Hk. destruct (goes_job env spec jid HW (fun _ => True) Hv) with w as (u & w' & E & He & _); [done..|].
  unfold proxy_session_task. by rewrite E.
Qed.

(** ** Examples *)

Definition sample_env : Env SampleValue :=
  MkEnv (fun n => 1700000000 + Z.of_nat n) (fun _ => 3%N) (fun _ => Ok tt) (fun _ d => d) (fun _ _ => Ok tt)
    (fun _ _ => Ok tt)
    (fun _ => Ok (MkDescriptorResult (MkDescriptor (Some "1.0.0"%string) None None None "h1") "127.0.0.1:1" "127.0.0.1:2"))
    (fun _ => Err "no install"%string) (fun _ => Ok tt) (fun _ _ => Ok None) (fun _ _ => Ok tt)
    (fun _ _ => Ok (Some (MkRouteView (VSpec sample_spec) (Some "running"%string) None)))
    (fun _ _ => true) (fun _ => SshConnected) (fun _ _ => MkAttempt (Checked (Ok tt)) 12 0 0)
    (fun _ _ u => Ok (MkOutcome "d" "a" u true)) (fun _ _ => Ok tt) (fun _ _ => VSpec sample_spec) "1.0.0".

(** The same, but the route is never seen and every write of a store fails
    after a while. *)
Definition failing_env : Env SampleValue :=
  MkEnv (env_now sample_env) (env_pass sample_env) (fun n => if (n <? 30)%nat then Ok tt else Err "disk full"%string)
    (env_others sample_env) (env_install_args sample_env) (env_bootstrap_args sample_env) (env_refresh sample_env) (env_install sample_env)
    (env_record_profile sample_env) (env_route_intent sample_env) (env_stop_route sample_env) (fun _ _ => Ok None)
    (env_live sample_env) (env_connect sample_env) (env_attempt sample_env) (env_apply sample_env)
    (env_cleanup sample_env) (env_missing_route sample_env) (env_version sample_env).

Definition sample_world : World SampleValue := MkTask 0 0 (MkDaemon JobStore_default ∅ ∅) [].

Lemma proxy_session_task_ends_witness :
  exists l, w_log (proxy_session_task failing_env sample_spec "job-1" sample_world) = [] ++ l /\ ends "job-1" l.
Proof. exact (proj2 (proxy_session_task_ends failing_env sample_spec "job-1" sample_world)). Defined.


Lemma proxy_session_becomes_healthy_witness :
  ends_healthy "job-1" (proxy_session_task sample_env sample_spec "job-1" sample_world).
Proof.
  apply proxy_session_becomes_healthy; [|vm_compute; reflexivity|].
  - split; try reflexivity; intros; try (by eexists). do 2 eexists. split; [reflexivity|].
    split; [reflexivity|]. by left.
  - intros k r. cbn. by rewrite lookup_empty.
Defined.
