(* ===== verification/SessionRequests.v ===== *)
(** The requests around a proxy session: ensuring it, asking for its status,
    taking it down, reconciling the stored sessions when the daemon starts,
    applying the remote settings on their own, and ensuring a peer
    (crates/ssh-proxy/src/node_daemon/proxy_session.rs,
    proxy_session/apply_settings.rs, spec.rs, status.rs and remote_peer.rs). *)

From Stdlib Require Import Strings.String Strings.Ascii.
From stdpp Require Import base gmap list strings sorting.
From S2P Require Import Prelude RustStr IpAddr Collections Jobs Sessions Handoff DaemonWorld RemotePeer ProxySession.

(** ** Requests *)

(** What the handlers below read of a bootstrap and of a [NodeRequest]. *)
Record PeerBootstrap := MkBootstrap { bo_target : string; bo_alias : option string; bo_force : bool }.

Record NodeRequest := MkRequest {
  rq_id : option string; rq_alias : option string; rq_proxy_session : option ProxySessionSpec;
  rq_bootstrap : option PeerBootstrap; rq_remote_url : option string }.

(** The arguments of [ssh_proxy up]. *)
Record UpArgs := MkUpArgs {
  up_target : string; up_local_proxy : string; up_workspace : option string; up_remote_bind : IpAddr;
  up_remote_port : Z; up_no_remote_auto_pick : bool; up_remote_port_range_size : Z;
  up_connect_mode : RouteConnectMode; up_ssh_host_name : option string; up_ssh_user : option string;
  up_ssh_port : option Z; up_ssh_identity : list string; up_ssh_config : option string;
  up_ssh_known_hosts : option string; up_ssh_jump : list string; up_ssh_accept_new : bool;
  up_workspace_paths : list string; up_server_dir : string; up_no_proxy : string; up_proxy_support : string;
  up_no_remote_machine_settings : bool; up_no_terminal_env : bool; up_no_server_env : bool; up_no_git : bool;
  up_no_git_global : bool; up_no_git_workspace : bool; up_no_git_force_override : bool;
  up_no_remote_status_file : bool; up_no_verify_remote_port : bool }.

Definition non_empty (s : option string) : option string :=
  v ← s; if String.eqb v EmptyString then None else Some v.

Definition ssh_target_spec_from_up_args (a : UpArgs) : option SshTargetSpec :=
  let spec := MkSshTarget (non_empty (up_ssh_host_name a)) (non_empty (up_ssh_user a)) (up_ssh_port a)
                (up_ssh_identity a) (up_ssh_config a) (up_ssh_known_hosts a) (up_ssh_jump a) (up_ssh_accept_new a) in
  if negb (ssh_is_empty spec) then Some spec else None.

Definition proxy_session_spec_from_up_args (a : UpArgs) : ProxySessionSpec :=
  MkSpec (up_target a) (up_workspace a) (ssh_target_spec_from_up_args a) (up_workspace_paths a) (up_local_proxy a)
    (up_remote_bind a)
    (MkPortPolicy (up_remote_port a) (negb (up_no_remote_auto_pick a)) (up_remote_port_range_size a))
    (up_connect_mode a)
    (MkApplyPolicy (negb (up_no_remote_machine_settings a)) (negb (up_no_terminal_env a)) (negb (up_no_server_env a))
       (negb (up_no_git a)) (negb (up_no_git_global a)) (negb (up_no_git_workspace a))
       (negb (up_no_git_force_override a)) (negb (up_no_remote_status_file a)) (negb (up_no_verify_remote_port a))
       (up_no_proxy a) (up_proxy_support a) (up_server_dir a)).

(** ** Addresses in URLs *)

Definition url_authority (rest : string) : string :=
  let authority := (split_at_any ["/"; "?"; "#"]%char rest).1 in
  match rsplit_once "@" authority with Some (_, endpoint) => endpoint | None => authority end.

Definition remote_endpoint_from_url (url : string) : result string (IpAddr * Z) :=
  '(_, rest) ← ok_or "remote proxy URL must include a scheme"%string (split_once "://" url);
  let authority := url_authority rest in
  '(host, port) ←
    match strip_prefix "[" authority with
    | Some stripped =>
      '(host, tail) ← ok_or "remote proxy URL has an invalid IPv6 host"%string (split_once "]" stripped);
      port ← ok_or "remote proxy URL is missing a port"%string (strip_prefix ":" tail);
      Ok (host, port)
    | None => ok_or "remote proxy URL is missing a port"%string (rsplit_once ":" authority)
    end;
  bind ← ok_or "remote proxy URL host must be an IP address"%string (ip_parse host);
  port ← ok_or "remote proxy URL port is invalid"%string (parse_uint 16 port);
  Ok (bind, port).

Definition spec_from_apply_request (request : NodeRequest) : result string ProxySessionSpec :=
  target ← ok_or "apply_remote_settings requires target"%string (rq_alias request);
  workspace ← ok_or "apply_remote_settings requires workspace"%string (rq_id request);
  remote_url ← ok_or "apply_remote_settings requires remote_url"%string (rq_remote_url request);
  '(remote_bind, remote_port) ← remote_endpoint_from_url remote_url;
  Ok (MkSpec target (Some workspace) None [] remote_url remote_bind (RemotePortPolicy_new remote_port) ReverseLink
        ApplyPolicy_default).

(** ** Handlers *)

Definition peer_status_allows_proxy_session_reuse (peer : PeerStatusRecord) : bool := negb (pe_update_required peer).

(** A blocker and an error, set on a job without failing it. *)
Definition set_blocked (blocker error : string) (j : DaemonJobRecord) : DaemonJobRecord :=
  MkJob (job_id j) (job_kind j) (job_state j) (job_phase j) (job_progress j) (Some blocker) (job_next_action j)
    (job_repair_action j) (Some error) (job_retry_after_ms j) (job_recovery_attempts j) (job_target j)
    (job_workspace_id j) (job_route_id j) (job_remote_url j) (job_created_at_unix j) (job_updated_at_unix j).

Definition with_bind (ip : IpAddr) (s : ProxySessionSpec) : ProxySessionSpec :=
  MkSpec (sp_target s) (sp_workspace_id s) (sp_ssh s) (sp_workspace_paths s) (sp_local_proxy s) ip
    (sp_remote_port_policy s) (sp_connect_mode s) (sp_apply_policy s).

(** The route of a status report. *)
Inductive RouteReport (Value : Type) :=
| LiveRoute (route : Value)
| MissingRoute (route_id remote_url : option string)
| JobRoute (route_id remote_url : option string) (health : string)
| StoredRoute (route : Value)
| NoRoute.
Arguments LiveRoute {_}. Arguments MissingRoute {_}. Arguments JobRoute {_}. Arguments StoredRoute {_}.
Arguments NoRoute {_}.

Definition is_some {A} (a : option A) : bool := match a with Some _ => true | None => false end.
Definition or_else {A} (a b : option A) : option A := match a with Some _ => a | None => b end.

Section handlers.
Context {Value : Type} `{EqDecision Value} `{SessionCodec Value} (env : Env Value).
Abbreviation task A := (sr (World Value) string A).

(** *** Ensuring a session *)

Definition live_route (route_id : string) : task bool := outside env (fun n => Ok (env_live env n route_id)).

Definition session_of_job (jid : string) : task (option (ProxySessionRecord Value)) :=
  wait env (fun _ w => (Ok (session_by_job jid (d_sessions (w_daemon w))), w)).
Definition session_of_route (rid : string) : task (option (ProxySessionRecord Value)) :=
  wait env (fun _ w => (Ok (session_by_route rid (d_sessions (w_daemon w))), w)).

Definition proxy_session_matches_existing (jid : string) (spec : ProxySessionSpec) : task bool :=
  session ← session_of_job jid;
  mret match session with
       | None => false
       | Some session => match to_spec session with Ok existing => proxy_session_specs_match existing spec | Err _ => false end
       end.

Definition proxy_session_peer_allows_reuse (spec : ProxySessionSpec) : task bool :=
  peer ← peer_status env (sp_target spec);
  mret match peer with None => true | Some peer => peer_status_allows_proxy_session_reuse peer end.

(** The job of a request that is answered by a session there is. *)
Definition reusable_job (spec : ProxySessionSpec) : task (option DaemonJobRecord) :=
  existing ← jobs_lookup env (spec_job_id spec);
  match existing with
  | None => mret None
  | Some existing =>
    live ← live_route (spec_route_id spec);
    if reusable_proxy_session_job existing live then
      same ← proxy_session_matches_existing (spec_job_id spec) spec;
      if (same : bool) then
        allowed ← proxy_session_peer_allows_reuse spec;
        mret (if (allowed : bool) then Some existing else None)
      else mret None
    else mret None
  end.

Record EnsureResponse := MkEnsure {
  er_reused : bool; er_job : DaemonJobRecord; er_session : ProxySessionRecord Value;
  er_spawned : option (ProxySessionSpec * string) }.   (* the task that is started *)

Definition ensure_proxy_session (request : NodeRequest) : task EnsureResponse :=
  spec ← sr_lift (ok_or "ensure_proxy_session requires proxy_session spec"%string (rq_proxy_session request));
  reuse ← reusable_job spec;
  match reuse with
  | Some existing =>
    session ← state_upsert_session env spec existing None;
    mret (MkEnsure true existing session None)
  | None =>
    t ← now env;
    job ← jobs_upsert env
      (transition t Queued PQueued 0 (with_remote_url (Some (spec_remote_url spec)) (with_route (spec_route_id spec)
        (with_workspace (sp_workspace_id spec) (with_target (sp_target spec)
        (JobRecord_new t (spec_job_id spec) "ensure_proxy_session")))))) "proxy session accepted";
    session ← state_upsert_session env spec job None;
    mret (MkEnsure false job session (Some (spec, job_id job)))
  end.

(** *** The status of a session *)

Record SessionStatus := MkStatus {
  st_ok : bool; st_job : option DaemonJobRecord; st_session : option (ProxySessionRecord Value);
  st_route : RouteReport Value; st_remote_url : option string; st_health : string }.

Definition proxy_session_status (request : NodeRequest) : task SessionStatus :=
  let id := or_else (rq_id request) (spec_job_id <$> rq_proxy_session request) in
  job ← match id with Some id => jobs_lookup env id | None => mret None end;
  session ← match id with Some id => session_of_job id | None => mret None end;
  let route_id := or_else (job ≫= job_route_id) (se_route_id <$> session) in
  live ← match route_id with Some rid => outside env (fun n => env_route env n rid) | None => mret None end;
  let missing_healthy_route :=
    bool_decide (job_state <$> job = Some Healthy) && negb (is_some live) && is_some route_id in
  let remote_url := or_else (job ≫= job_remote_url) (se_remote_url <$> session) in
  let route :=
    match live with
    | Some route => LiveRoute (rv_value route)
    | None =>
      if missing_healthy_route then MissingRoute route_id remote_url
      else match job with
           | Some job => JobRoute (job_route_id job) (job_remote_url job) (job_health job)
           | None => match session ≫= se_route with Some route => StoredRoute route | None => NoRoute end
           end
    end in
  let health :=
    if missing_healthy_route then "starting"%string
    else match job with
         | Some job => job_health job
         | None => match session with Some session => se_health session | None => "unknown"%string end
         end in
  mret (MkStatus (is_some job || is_some session) job session route remote_url health).

(** *** Taking a session down *)

Record DownResponse := MkDown {
  dn_route_stop : result string unit; dn_route_id : string; dn_job : DaemonJobRecord;
  dn_session : option (ProxySessionRecord Value); dn_cleanup : option (result string unit) }.

Definition proxy_session_down (request : NodeRequest) : task DownResponse :=
  let request_spec := rq_proxy_session request in
  id ← sr_lift (ok_or "proxy_session_down requires id or proxy_session spec"%string
                  (or_else (rq_id request) (spec_route_id <$> request_spec)));
  by_route ← session_of_route id;
  stored ← match by_route with Some session => mret (Some session) | None => session_of_job id end;
  let cleanup_spec :=
    or_else (record ← stored; match to_spec record with Ok spec => Some spec | Err _ => None end) request_spec in
  let route_id := default id (or_else (se_route_id <$> stored) (spec_route_id <$> request_spec)) in
  stopped ← try_outside env (fun n => env_stop_route env n route_id);
  _ ← act (AStopRoute route_id);
  cleanup ← match cleanup_spec with
            | Some spec =>
              r ← try_outside env (fun n => env_cleanup env n spec);
              _ ← act (ACleanup spec);
              mret (Some r)
            | None => mret None
            end;
  let jid := default ("proxy:" +:+ id)
               (or_else (spec_job_id <$> request_spec) (or_else (se_job_id <$> stored) (spec_job_id <$> cleanup_spec))) in
  t ← now env;
  job ← jobs_upsert env (transition t Cancelled PCancelled 100 (with_route route_id
          (JobRecord_new t jid "ensure_proxy_session"))) "proxy session stopped";
  session ← state_sessions env (fun now =>
    cancel_session now route_id (job_id job) match stopped with Ok _ => None | Err e => Some e end);
  mret (MkDown stopped route_id job session cleanup).

(** *** Reconciliation *)

Definition reconcile_session (session : ProxySessionRecord Value) : task unit :=
  let state := se_state session in
  let unfinished := negb (String.eqb state "healthy" || String.eqb state "failed" || String.eqb state "cancelled") in
  missing_live_route ←
    (if String.eqb state "healthy" then live ← live_route (se_route_id session); mret (negb live) else mret false);
  if negb unfinished && negb missing_live_route then mret tt
  else
    t ← now env;
    let job := with_next_action "rerun_ensure_proxy_session" (transition t WaitingRetry PReconciling 5
      (with_remote_url (Some (se_remote_url session)) (with_route (se_route_id session)
      (with_workspace (se_workspace_id session) (with_target (se_target session)
      (JobRecord_new t (se_job_id session) "ensure_proxy_session")))))) in
    let job := if (missing_live_route : bool) then
                 set_blocked "route_not_running" "daemon has no live route task for this proxy session" job
               else job in
    let route := if (missing_live_route : bool)
                 then Some (env_missing_route env (se_route_id session) (se_remote_url session)) else None in
    _ ← jobs_upsert env job (if (missing_live_route : bool)
                             then "healthy proxy session lost its live route after daemon restart"
                             else "proxy session requires reconciliation after daemon restart");
    match to_spec session with
    | Err _ => mret tt
    | Ok spec =>
      job ← jobs_lookup env (se_job_id session);
      match job with
      | Some job => _ ← state_upsert_session env spec job route; mret tt
      | None => mret tt
      end
    end.

Fixpoint reconcile_all (sessions : list (ProxySessionRecord Value)) : task unit :=
  match sessions with
  | [] => mret tt
  | session :: sessions => _ ← reconcile_session session; reconcile_all sessions
  end.

Definition reconcile_proxy_sessions : task unit :=
  sessions ← wait env (fun _ w => (Ok (sessions_list (d_sessions (w_daemon w))), w));
  reconcile_all sessions.

(** *** Applying the settings *)

Definition apply_job (t : Z) (spec : ProxySessionSpec) (jid url : string) : DaemonJobRecord :=
  with_remote_url (Some url) (with_route (spec_route_id spec) (with_workspace (sp_workspace_id spec)
    (with_target (sp_target spec) (JobRecord_new t jid "apply_remote_settings")))).

Record ApplyResponse := MkApply {
  ar_ok : bool; ar_job : DaemonJobRecord; ar_session : option (ProxySessionRecord Value); ar_setup : RemoteSetupStatus }.

(** The port is probed where the policy asks for it; the answer is the
    response when that fails, and whether the port was verified otherwise. *)
Definition apply_handoff (spec : ProxySessionSpec) (jid url : string) (route : option Value) :
    task (ApplyResponse + bool) :=
  if ap_verify_remote_port (sp_apply_policy spec) then
    _ ← state_probe env spec jid probe_checking;
    t ← now env;
    job ← jobs_upsert env (with_retry_after_ms 250 (with_next_action "wait_for_remote_handoff"
            (transition t WaitingRetry PVerifyRemotePort 45 (apply_job t spec jid url))))
            "waiting for remote handoff before applying settings";
    _ ← state_upsert_session env spec job route;
    t ← now env;
    probe ← try_outside env (fun n =>
      ok_or "out of fuel"%string (wait_remote_port_ready t (ip_text (sp_remote_bind spec))
        (preferred (sp_remote_port_policy spec)) HANDOFF_BUDGET (env_attempt env n) (sp_target spec) (env_connect env n)));
    match probe with
    | Ok (Ok status) =>
      _ ← act (AProbe spec true);
      _ ← state_probe env spec jid (fun _ => status);
      mret (inr true)
    | Ok (Err failure) =>
      _ ← act (AProbe spec false);
      _ ← state_probe env spec jid (fun _ => pf_status failure);
      t ← now env;
      let setup := setup_failed t (pf_message failure) None (Some url) in
      session ← state_setup env spec jid (fun _ => setup);
      t ← now env;
      job ← jobs_upsert env (with_next_action "run ssh_proxy doctor --json"
              (job_failed t (pf_message failure) (Some (pf_blocker failure)) (apply_job t spec jid url)))
              "remote handoff probe failed before applying settings";
      mret (inl (MkApply false job session setup))
    | Err e => sr_fail e
    end
  else
    _ ← state_probe env spec jid probe_skipped;
    mret (inr false).

Definition apply_remote_settings (request : NodeRequest) : task ApplyResponse :=
  session ← match rq_id request with Some key => session_of_job (job_id_for_key key) | None => mret None end;
  spec ← sr_lift match rq_proxy_session request with
                 | Some spec => Ok spec
                 | None => match session with Some session => to_spec session | None => spec_from_apply_request request end
                 end;
  let url := default (spec_remote_url spec) (or_else (rq_remote_url request) (se_remote_url <$> session)) in
  let spec := match remote_endpoint_from_url url with
              | Ok (remote_bind, remote_port) => with_bind remote_bind (with_remote_port remote_port spec)
              | Err _ => spec
              end in
  let jid := "apply-settings:" +:+ sanitize_key (spec_key spec) in
  let route := session ≫= se_route in
  t ← now env;
  job ← jobs_upsert env (with_next_action "wait_for_remote_setup"
          (transition t Running PApplyRemoteSettings 50 (apply_job t spec jid url))) "remote settings apply started";
  _ ← state_upsert_session env spec job route;
  _ ← state_setup env spec jid (fun t => setup_running t None (Some url));
  handoff ← apply_handoff spec jid url route;
  match handoff with
  | inl response => mret response
  | inr handoff_verified =>
    outcome ← try_outside env (fun n => env_apply env n spec url);
    _ ← act (AApply spec url match outcome with Ok _ => true | Err _ => false end);
    t ← now env;
    match outcome with
    | Ok outcome =>
      let setup := setup_applied t (ao_desired_hash outcome) (ao_applied_hash outcome) (ao_remote_url outcome)
                     (handoff_verified || ao_verified outcome) in
      session ← state_setup env spec jid (fun _ => setup);
      t ← now env;
      job ← jobs_upsert env (with_next_action "monitor_remote_setup_drift"
              (transition t Healthy PHealthy 100 (apply_job t spec jid url))) "remote settings apply healthy";
      mret (MkApply true job session setup)
    | Err error =>
      let setup := setup_failed t error None (Some url) in
      session ← state_setup env spec jid (fun _ => setup);
      t ← now env;
      job ← jobs_upsert env (with_next_action "rerun_vscode_apply_settings"
              (job_failed t error (Some "remote_setup_failed"%string) (apply_job t spec jid url)))
              "remote settings apply failed";
      mret (MkApply false job session setup)
    end
  end.

(** *** Ensuring a peer *)

Record PeerResponse := MkPeerResponse {
  pr_alias : string; pr_job_id : string; pr_job : option DaemonJobRecord; pr_peer : option PeerStatusRecord }.

Definition accept_remote_peer_job (request : NodeRequest) (kind accepted_message : string) : task PeerResponse :=
  alias ← match rq_proxy_session request with
          | Some spec => _ ← outside env (fun n => env_install_args env n spec); mret (sp_target spec)
          | None =>
            bootstrap ← sr_lift (ok_or "remote_peer_ensure requires bootstrap or proxy_session"%string (rq_bootstrap request));
            let alias := default (bo_target bootstrap) (bo_alias bootstrap) in
            _ ← outside env (fun n => env_bootstrap_args env n alias);
            mret alias
          end;
  let jid := "remote-peer:" +:+ peer_sanitize_key alias in
  t ← now env;
  _ ← jobs_upsert env (transition t Queued PQueued 0 (with_target alias (JobRecord_new t jid kind))) accepted_message;
  job ← jobs_lookup env jid;
  peer ← peer_status env alias;
  mret (MkPeerResponse alias jid job peer).

Definition remote_peer_ensure (request : NodeRequest) : task PeerResponse :=
  accept_remote_peer_job request "ensure_remote_peer" "remote peer ensure accepted".

(** The task an accepted request starts. *)
Definition remote_peer_task (request : NodeRequest) (alias kind : string) (w : World Value) : World Value :=
  let jid := "remote-peer:" +:+ peer_sanitize_key alias in
  let force := match rq_bootstrap request with Some b => bo_force b | None => false end in
  match run_remote_peer_ensure_job env alias jid kind (rq_proxy_session request) force w with
  | (Ok _, w) => w
  | (Err e, w) =>
    ((t ← now env;
      jobs_upsert env (with_next_action "run ssh_proxy doctor --json --report"
        (job_failed t e (Some "job_task_failed"%string)
           (remote_peer_job t alias jid kind (rq_proxy_session request) PFailed 100))) "remote peer job task failed") w).2
  end.

(** The peer that is asked for, or all of them. *)
Inductive PeerReport := OnePeer (target : string) (peer : option PeerStatusRecord) | AllPeers (peers : list PeerStatusRecord).

Definition remote_peer_status (request : NodeRequest) : task PeerReport :=
  let target := or_else (rq_alias request) (or_else (rq_id request)
    (or_else (sp_target <$> rq_proxy_session request) (bo_target <$> rq_bootstrap request))) in
  match target with
  | Some target => peer ← peer_status env target; mret (OnePeer target peer)
  | None => peers ← wait env (fun _ w => (Ok (btree_values (d_peers (w_daemon w))), w)); mret (AllPeers peers)
  end.
End handlers.

(** ** The address of a session in its URL *)

Section remote_url.
Context (ip : IpAddr) (port : Z).
Context (ip_known : ip_parse (ip_text ip) = Some ip) (port_ok : in_u 16 port).

Definition endpoint_of : string := ip_text ip +:+ ":" +:+ display_uint port.

Lemma endpoint_all (p : ascii -> bool) : forallb p ip_chars = true -> str_all p endpoint_of = true.
Proof.
  intros Hp. assert (Hd := Hp). cbn [forallb ip_chars] in Hd. repeat (apply andb_true_iff in Hd as [? Hd]).
  assert (Hn : str_all p (display_uint port) = true).
  { apply display_uint_all; [by destruct port_ok|]. cbn [forallb]. by repeat (apply andb_true_iff; split). }
  unfold endpoint_of. rewrite !str_all_append, ip_text_all, Hn by done. cbn [str_all]. by rewrite !andb_true_r.
Qed.

(** The URLs that carry the address: with user information or without, and a
    path or nothing after it. *)
Definition user_text (user : option string) : string := match user with Some u => u +:+ "@" | None => EmptyString end.
Definition path_text (suffix : string) : Prop :=
  match suffix with EmptyString => True | String c _ => c = "/"%char end.

Lemma url_authority_endpoint user suffix :
  str_all (not_in ["/"; "?"; "#"]%char) (user_text user) = true -> path_text suffix ->
  url_authority (user_text user +:+ endpoint_of +:+ suffix) = endpoint_of.
Proof.
  intros Hu Hs. unfold url_authority. rewrite <-str_append_assoc, split_at_any_append.
  - cbn [fst]. destruct user as [u|]; cbn [user_text].
    + rewrite str_append_assoc. change ("@" +:+ endpoint_of) with (String "@" endpoint_of).
      by rewrite rsplit_once_append by by apply endpoint_all.
    + change (EmptyString +:+ endpoint_of) with endpoint_of. by rewrite rsplit_once_None by by apply endpoint_all.
  - by rewrite str_all_append, Hu, endpoint_all.
  - destruct suffix as [|c suffix]; [done|]. by rewrite Hs.
Qed.

Lemma endpoint_read scheme s rest user suffix :
  split_once "://" s = Some (scheme, rest) ->
  str_all (not_in ["/"; "?"; "#"]%char) (user_text user) = true -> path_text suffix ->
  remote_endpoint_from_url (scheme +:+ "://" +:+ user_text user +:+ endpoint_of +:+ suffix) = Ok (ip, port).
Proof.
  intros Hs Hu Hp. unfold remote_endpoint_from_url. rewrite (split_once_again _ _ _ _ _ Hs). cbn [ok_or mbind result_bind].
  rewrite url_authority_endpoint by done.
  assert (strip_prefix "[" endpoint_of = None) as ->.
  { destruct (strip_prefix "[" endpoint_of) as [r|] eqn:E; [|done]. apply strip_prefix_Some in E.
    pose proof (endpoint_all (not_in ["["]%char) eq_refl) as Ha. rewrite E in Ha. by rewrite str_all_append in Ha. }
  unfold endpoint_of. change (":" +:+ display_uint port) with (String ":" (display_uint port)).
  rewrite rsplit_once_append by (apply display_uint_all; [by destruct port_ok|done]). cbn [ok_or mbind result_bind].
  rewrite ip_known. cbn [ok_or mbind result_bind]. rewrite parse_uint_display; [done|].
  destruct port_ok. unfold u_max. lia.
Qed.
End remote_url.

Lemma plain_user u :
  str_all (not_in ["/"]%char) u = true -> str_all (not_in ["?"; "#"]%char) u = true ->
  str_all (not_in ["/"; "?"; "#"]%char) u = true.
Proof.
  induction u as [|c u IH]; [done|]. cbn [str_all]. intros [H1 Hu1]%andb_true_iff [H2 Hu2]%andb_true_iff.
  rewrite IH by done. unfold not_in in *. cbn [existsb] in *.
  destruct (Ascii.eqb c "/"); [discriminate|]. cbn [orb]. by rewrite H2.
Qed.

(** The address of a session is read back from its URL: whatever the form
    of the local proxy's URL, user information and path included, the URL the
    session is given on the remote side names exactly its bind address and
    port. *)
Theorem remote_url_round_trip (spec : ProxySessionSpec) :
  ip_parse (ip_text (sp_remote_bind spec)) = Some (sp_remote_bind spec) ->
  in_u 16 (preferred (sp_remote_port_policy spec)) ->
  (forall scheme rest, split_once "://" (sp_local_proxy spec) = Some (scheme, rest) ->
     str_all (not_in ["?"; "#"]%char) (split_at_any ["/"%char] rest).1 = true) ->
  remote_endpoint_from_url (spec_remote_url spec) = Ok (sp_remote_bind spec, preferred (sp_remote_port_policy spec)).
Proof.
  intros Hip Hport Hplain. unfold spec_remote_url, remote_url_for_port, proxy_url_for_remote.
  set (ip := sp_remote_bind spec) in *. set (port := preferred _) in *.
  destruct (split_once "://" (sp_local_proxy spec)) as [[scheme rest]|] eqn:E.
  - specialize (Hplain _ _ eq_refl). destruct (split_at_any _ rest) as [authority suffix] eqn:Ea. cbn [fst] in Hplain.
    destruct (split_at_any_parts ["/"%char] rest) as [Hf Hsn]. rewrite Ea in Hf, Hsn. cbn [fst snd] in Hf, Hsn.
    pose (user := fst <$> rsplit_once "@" authority).
    transitivity (remote_endpoint_from_url (scheme +:+ "://" +:+ user_text user +:+ endpoint_of ip port +:+ suffix)).
    { f_equal. unfold user, endpoint_of. destruct (rsplit_once "@" authority) as [[u v]|]; cbn; by rewrite !str_append_assoc. }
    eapply endpoint_read; [done..| |].
    + unfold user. destruct (rsplit_once "@" authority) as [[u v]|] eqn:Eu; [cbn|done].
      pose proof (rsplit_once_eq _ _ _ _ Eu) as ->. rewrite str_all_append in Hf, Hplain.
      apply andb_true_iff in Hf as [Hf _], Hplain as [Hplain _].
      rewrite str_all_append, andb_true_r. by apply plain_user.
    + destruct suffix as [|c suffix]; [done|]. cbn in Hsn |- *. destruct (Ascii.eqb_spec c "/"); [done|]. discriminate.
  - pose proof (endpoint_read ip port Hip Hport "http" "http://" EmptyString None EmptyString eq_refl eq_refl I) as Hr.
    by rewrite str_append_nil_r in Hr.
Qed.

Lemma remote_url_round_trip_witness :
  remote_endpoint_from_url (spec_remote_url sample_spec) = Ok (V4 [x7f; x00; x00; x01], 17891).
Proof.
  apply (remote_url_round_trip sample_spec); [vm_compute; reflexivity|cbn; unfold in_u; lia|].
  intros scheme rest E. vm_compute in E. injection E as <- <-. vm_compute. reflexivity.
Defined.

(** ** What the handlers write *)

Section handler_logs.
Context {Value : Type} `{EqDecision Value} `{SessionCodec Value} (env : Env Value).
Abbreviation task A := (sr (World Value) string A).

Lemma quiet_wait {A} (f : nat -> World Value -> A) : quiet (wait env (fun n w => (Ok (f n w), w))).
Proof. intros w r w' [= <- <-]. exists []. by rewrite app_nil_r. Qed.
Lemma quiet_session_of_job j : quiet (session_of_job env j).
Proof. apply (quiet_wait (fun _ w => session_by_job j (d_sessions (w_daemon w)))). Qed.
Lemma quiet_session_of_route r : quiet (session_of_route env r).
Proof. apply (quiet_wait (fun _ w => session_by_route r (d_sessions (w_daemon w)))). Qed.
Local Hint Resolve quiet_session_of_job quiet_session_of_route : quiet.

Definition apply_handoff_done (spec : ProxySessionSpec) (jid : string)
    (r : result string (ApplyResponse (Value := Value) + bool)) (l : list Entry) : Prop :=
  calm l /\ match r with
            | Ok (inl response) => ends jid l /\ ar_ok response = false /\ job_state (ar_job response) = Failed
                                   /\ job_id (ar_job response) = jid
            | Ok (inr verified) => verified = ap_verify_remote_port (sp_apply_policy spec)
                                   /\ (verified = true -> Did (AProbe spec true) ∈ l)
            | Err _ => True
            end.

Lemma logs_apply_handoff spec jid url route :
  logs (apply_handoff env spec jid url route) (apply_handoff_done spec jid).
Proof.
  unfold apply_handoff, apply_handoff_done. destruct (ap_verify_remote_port _).
  - repeat logs_step; try (by intros; split; [auto with log|]).
    destruct a1 as [[status|failure]|e]; repeat logs_step; try (by intros; split; [auto with log|]).
    + split; [auto with log|]. split; [done|]. intros _. set_solver.
    + split; [auto with log|]. split; [|done]. auto 10 with log.
  - repeat logs_step; intros; split; auto with log; by split.
Qed.

(** Before a healthy record the port was probed where the policy asks for it,
    and the settings were applied for the recorded address. *)
Definition settings_checked (r : DaemonJobRecord) (l : list Entry) : Prop :=
  exists spec url, job_remote_url r = Some url /\ Did (AApply spec url true) ∈ l
    /\ (ap_verify_remote_port (sp_apply_policy spec) = true -> Did (AProbe spec true) ∈ l).

Definition apply_done (r : result string (ApplyResponse (Value := Value))) (l : list Entry) : Prop :=
  preceded settings_checked l
  /\ forall response, r = Ok response ->
       ends (job_id (ar_job response)) l /\ ar_ok response = bool_decide (job_state (ar_job response) = Healthy).

Lemma apply_done_calm e l : calm l -> apply_done (Err e) l.
Proof. intros Hc. split; [by apply calm_preceded|done]. Qed.

Lemma app_two {A} (l : list A) a b : l ++ [a; b] = (l ++ [a]) ++ [b].
Proof. by rewrite <-app_assoc. Qed.

Lemma apply_done_healthy r l j :
  calm l -> settings_checked j l -> job_state j = Healthy ->
  (forall response, r = Ok response -> ar_job response = j /\ ar_ok response = true) -> apply_done r (l ++ [Wrote j]).
Proof.
  intros Hc Hs Hj Hr. split; [by apply preceded_last|]. intros response [-> ->]%Hr. rewrite Hj.
  split; [|done]. apply ends_app, ends_one; by rewrite ?Hj.
Qed.

Lemma logs_apply request : logs (apply_remote_settings env request) apply_done.
Proof.
  unfold apply_remote_settings.
  apply logs_quiet; [destruct (rq_id request); auto with quiet| |by intros; apply apply_done_calm; auto with log].
  intros session. apply logs_quiet; [auto with quiet| |by intros; apply apply_done_calm; auto with log].
  intros spec0. cbn zeta. set (url := default _ _). set (spec := match remote_endpoint_from_url url with Ok _ => _ | Err _ => _ end).
  set (jid := "apply-settings:" +:+ _). clearbody url spec. clearbody jid.
  repeat logs_step; try (by intros; apply apply_done_calm; auto with log).
  eapply logs_bind; [apply logs_apply_handoff|..]; cbn beta.
  2:{ intros e l [Hc _]. apply apply_done_calm. auto with log. }
  intros [response|v] l1 [Hc Hr]; cbn beta iota.
  { destruct Hr as (He & Hok & Hs & Hid). logs_step. rewrite app_nil_r.
    split; [apply calm_preceded; auto with log|]. intros ? [= <-]. rewrite Hid, Hok, Hs. split; auto with log. }
  destruct Hr as [-> Hp]. logs_step; [|by intros; apply apply_done_calm; auto with log].
  logs_step. logs_step. set (first := Wrote _). assert (Hf : calm_entry first) by done. clearbody first.
  destruct a1 as [outcome|error]; repeat logs_step; try (by intros; apply apply_done_calm; auto with log).
  1,2: intros; rewrite app_comm_cons, app_two; apply apply_done_healthy;
    [auto with log| |done|by try intros ? [= <-]].
  1,2: exists spec, url; split; [done|]; split; [set_solver|]; intros Hv; specialize (Hp Hv); set_solver.
  split; [apply calm_preceded; auto 10 with log|]. intros ? [= <-]. split; [auto 10 with log|done].
Qed.
End handler_logs.

(** Applying the settings on their own is as careful as the session's job:
    whatever the environment and the other tasks do, a healthy record is
    written only after the port was probed where the policy asks for it and
    the settings were applied for the recorded address; and a response that
    is given is the final record of the job, with [ok] exactly when healthy. *)
Theorem apply_settings_checked {Value : Type} `{SessionCodec Value} (env : Env Value)
    (request : NodeRequest) (w : World Value) :
  let '(r, w') := apply_remote_settings env request w in
  exists l, w_log w' = w_log w ++ l /\ preceded settings_checked l
    /\ forall response, r = Ok response ->
         ends (job_id (ar_job response)) l /\ ar_ok response = bool_decide (job_state (ar_job response) = Healthy).
Proof.
  destruct (apply_remote_settings env request w) as [r w'] eqn:E.
  destruct (logs_apply env request _ _ _ E) as (l & Hl & Hp & Hr). by exists l.
Qed.

Definition sample_apply : NodeRequest :=
  MkRequest (Some "Window A"%string) (Some "126"%string) None None (Some "http://127.0.0.1:17890/"%string).

Lemma apply_settings_checked_witness :
  let '(r, w') := apply_remote_settings sample_env sample_apply sample_world in
  exists l, w_log w' = w_log sample_world ++ l /\ preceded settings_checked l
    /\ forall response, r = Ok response ->
         ends (job_id (ar_job response)) l /\ ar_ok response = bool_decide (job_state (ar_job response) = Healthy).
Proof. pose proof (apply_settings_checked sample_env sample_apply sample_world) as Hc. exact Hc. Defined.

(** The task of a request for a peer ends with a final record, unless the
    request came with a session: then the last record is left to the session's
    own job. *)
Lemma remote_peer_task_ends {Value : Type} `{SessionCodec Value} (env : Env Value) (request : NodeRequest)
    (alias kind : string) (w : World Value) :
  rq_proxy_session request = None ->
  exists l, w_log (remote_peer_task env request alias kind w) = w_log w ++ l
    /\ ends ("remote-peer:" +:+ peer_sanitize_key alias) l.
Proof.
  intros Hs. unfold remote_peer_task. rewrite Hs. set (jid := "remote-peer:" +:+ _). set (force := match rq_bootstrap _ with Some _ => _ | None => _ end).
  destruct (run_remote_peer_ensure_job env alias jid kind None force w) as [[b|e] w1] eqn:E;
    destruct (logs_peer_job env alias jid kind None force _ _ _ E) as (l & Hl & Hd & _ & Hn); [by eauto|].
  set (m := now env ≫= _).
  assert (Hm : logs m (fun _ l => ends jid l)).
  { unfold m. logs_step. eapply logs_mono; [apply logs_upsert|]. intros r l2 [-> _]. by apply ends_one. }
  destruct (m w1) as [r w2] eqn:E2. destruct (Hm _ _ _ E2) as (l2 & Hl2 & He). exists (l ++ l2). cbn [snd].
  rewrite Hl2, Hl, app_assoc. split; [done|by apply ends_app].
Qed.

(** With a session it stays at the record of the ready peer. *)
Example remote_peer_job_left_running :
  let w := remote_peer_task sample_env (MkRequest None None (Some sample_spec) None None) "126" "ensure_remote_peer" sample_world in
  option_map job_state (last (jobs_in (w_log w))) = Some Running.
Proof. vm_compute. reflexivity. Qed.
