(* ===== verification/SessionLife.v ===== *)
(** The life of a session: a request that starts a job, the job, and the
    requests after it.  What the job's task does to the daemon's stores is
    followed through all its branches, as invariants of the stores and the log
    that its operations keep. *)

From Stdlib Require Import Strings.String.
From stdpp Require Import base gmap list strings sorting.
From S2P Require Import Prelude RustStr IpAddr Collections Jobs Sessions Handoff DaemonWorld RemotePeer ProxySession.
From S2P Require Import SessionRequests.

(** ** Invariants of a task *)

Definition stays {Value A} (I : World Value -> Prop) (m : sr (World Value) string A) : Prop :=
  forall w, I w -> I (m w).2.

Section stays.
Context {Value : Type} (I : World Value -> Prop).
Abbreviation task A := (sr (World Value) string A).

Lemma stays_bind {A B} (m : task A) (f : A -> task B) : stays I m -> (forall a, stays I (f a)) -> stays I (m ≫= f).
Proof.
  intros Hm Hf w Hw. specialize (Hm w Hw). unfold mbind, sr_bind. destruct (m w) as [[a|e] w1]; [|done]. by apply Hf.
Qed.
Lemma stays_assoc {A B C} (m : task A) (f : A -> task B) (g : B -> task C) :
  stays I (m ≫= fun a => f a ≫= g) -> stays I ((m ≫= f) ≫= g).
Proof. intros Hm w Hw. rewrite sr_assoc. by apply Hm. Qed.
Lemma stays_ret {A} (a : A) : stays I (mret a).
Proof. by intros w. Qed.
Lemma stays_fail {A} e : stays I (sr_fail (A := A) e).
Proof. by intros w. Qed.
Lemma stays_lift {A} (r : result string A) : stays I (sr_lift r).
Proof. by intros w. Qed.
Lemma stays_ret_bind {A B} (a : A) (f : A -> task B) : stays I (f a) -> stays I (mret a ≫= f).
Proof. done. Qed.
Lemma stays_now_bind {A} env (f : Z -> task A) : (forall t, stays I (f t)) -> stays I (now env ≫= f).
Proof. intros Hf w Hw. by apply (Hf (env_now env (w_tick w)) w). Qed.
Lemma stays_instant : stays I instant.
Proof. by intros w. Qed.
End stays.

(** ** The operations of the job *)

Section job_invariant.
Context {Value : Type} `{SessionCodec Value} (env : Env Value) (spec : ProxySessionSpec) (jid : string).
Abbreviation task A := (sr (World Value) string A).

(** The specifications the job works with: the request at one of its ports. *)
Definition at_port (s : ProxySessionSpec) : Prop :=
  exists p, p ∈ candidates (sp_remote_port_policy spec) /\ s = with_remote_port p spec.

Lemma at_port_self : at_port spec.
Proof.
  exists (preferred (sp_remote_port_policy spec)).
  destruct (candidates_head (sp_remote_port_policy spec)) as [ps ->]. split; [apply elem_of_cons; by left|].
  by destruct spec as [? ? ? ? ? ? []].
Qed.

(** An invariant that the operations of the job keep; [peers] says whether
    those of the peer store are among them. *)
Record kept_by_job (peers : bool) (I : World Value -> Prop) : Prop := {
  kept_advance more w : I w -> I (advance env more w);
  kept_act a w : I w -> I (MkTask (w_tick w) (w_clock w) (w_daemon w) (w_log w ++ [Did a]));
  kept_upsert t j msg w : job_id j = jid -> I w -> I (set_jobs_of (upsert_store t j msg) j w);
  kept_session t s job route w : at_port s -> I w ->
    I (set_sessions_of (upsert_session_from_job t s job route (d_sessions (w_daemon w))).2 w);
  kept_setup t st w : I w ->
    I (set_sessions_of (update_remote_setup_status t (spec_session_id spec) jid st (d_sessions (w_daemon w))).2 w);
  kept_probe t st w : I w ->
    I (set_sessions_of (update_handoff_probe_status t (spec_session_id spec) jid st (d_sessions (w_daemon w))).2 w);
  kept_peers m w : peers = true -> I w -> I (set_peers_of m w);
}.

Context (peers : bool) (I : World Value -> Prop) (K : kept_by_job peers I).

Lemma stays_outside {A} (f : nat -> result string A) : stays I (outside env f).
Proof. intros w Hw. by apply (kept_advance _ _ K). Qed.
Lemma stays_try {A} (f : nat -> result string A) : stays I (try_outside env f).
Proof. intros w Hw. by apply (kept_advance _ _ K). Qed.
Lemma stays_sleep ms : stays I (sleep env ms).
Proof. intros w Hw. by apply (kept_advance _ _ K). Qed.
Lemma stays_act a : stays I (act a).
Proof. intros w Hw. by apply (kept_act _ _ K). Qed.
Lemma stays_lookup id : stays I (jobs_lookup env id).
Proof. intros w Hw. by apply (kept_advance _ _ K). Qed.
Lemma stays_peer_status t : stays I (peer_status env t).
Proof. intros w Hw. by apply (kept_advance _ _ K). Qed.
Lemma stays_upsert j msg : job_id j = jid -> stays I (jobs_upsert env j msg).
Proof. intros Hj w Hw. apply (kept_upsert _ _ K); [done|]. by apply (kept_advance _ _ K). Qed.
Lemma stays_upsert_bind {A} j msg (f : DaemonJobRecord -> task A) :
  job_id j = jid -> stays I (f j) -> stays I (jobs_upsert env j msg ≫= f).
Proof.
  intros Hj Hf w Hw. pose proof (stays_upsert j msg Hj w Hw) as H1. unfold mbind, sr_bind, jobs_upsert, wait in *.
  destruct (env_saved env (w_tick w)); [by apply Hf|done].
Qed.
Lemma stays_session s job route : at_port s -> stays I (state_upsert_session env s job route).
Proof.
  intros Hs w Hw. unfold state_upsert_session, wait.
  pose proof (kept_session _ _ K (env_now env (w_tick w)) s job route (advance env 0 w) Hs (kept_advance _ _ K 0 w Hw)) as HI.
  by destruct (upsert_session_from_job _ _ _ _ _).
Qed.
Lemma stays_setup s st : at_port s -> stays I (state_setup env s jid st).
Proof.
  intros (p & _ & ->) w Hw. unfold state_setup, state_sessions, wait.
  pose proof (kept_setup _ _ K (env_now env (w_tick w)) (st (env_now env (w_tick w))) (advance env 0 w)
                (kept_advance _ _ K 0 w Hw)) as HI.
  change (spec_session_id (with_remote_port p spec)) with (spec_session_id spec).
  by destruct (update_remote_setup_status _ _ _ _ _).
Qed.
Lemma stays_probe s st : at_port s -> stays I (state_probe env s jid st).
Proof.
  intros (p & _ & ->) w Hw. unfold state_probe, state_sessions, wait.
  pose proof (kept_probe _ _ K (env_now env (w_tick w)) (st (env_now env (w_tick w))) (advance env 0 w)
                (kept_advance _ _ K 0 w Hw)) as HI.
  change (spec_session_id (with_remote_port p spec)) with (spec_session_id spec).
  by destruct (update_handoff_probe_status _ _ _ _ _).
Qed.
Lemma stays_peer r : peers = true -> stays I (upsert_peer_status env r).
Proof. intros Hp w Hw. apply (kept_peers _ _ K); [done|]. by apply (kept_advance _ _ K). Qed.

(** One step through a task. *)
Local Ltac stays_step :=
  lazymatch goal with
  | |- stays _ ((_ ≫= _) ≫= _) => apply stays_assoc
  | |- stays _ (mret _ ≫= _) => apply stays_ret_bind
  | |- stays _ (now _ ≫= _) => apply stays_now_bind; intros ?
  | |- stays _ (jobs_upsert _ _ _ ≫= _) => apply stays_upsert_bind; [done|]
  | |- stays _ (_ ≫= _) => apply stays_bind; [|intros ?]
  | |- stays _ (mret _) => apply stays_ret
  | |- stays _ (sr_fail _) => apply stays_fail
  | |- stays _ (sr_lift _) => apply stays_lift
  | |- stays _ instant => apply stays_instant
  | |- stays _ (outside _ _) => apply stays_outside
  | |- stays _ (try_outside _ _) => apply stays_try
  | |- stays _ (sleep _ _) => apply stays_sleep
  | |- stays _ (act _) => apply stays_act
  | |- stays _ (jobs_lookup _ _) => apply stays_lookup
  | |- stays _ (peer_status _ _) => apply stays_peer_status
  | |- stays _ (jobs_upsert _ _ _) => apply stays_upsert; done
  | |- stays _ (state_upsert_session _ _ _ _) => apply stays_session; done
  | |- stays _ (state_setup _ _ _ _) => apply stays_setup; done
  | |- stays _ (state_probe _ _ _ _) => apply stays_probe; done
  | |- stays _ (upsert_peer_status _ _) => apply stays_peer; done
  | |- stays _ (match ?x with _ => _ end) => destruct x
  end; cbn beta.
Local Ltac stays_on := unfold record_job, phase_job, fail_job, retry_job, peer_job, upsert_if_session; repeat stays_step.

Lemma stays_phase st s : at_port s -> stays I (proxy_job_phase env s jid st).
Proof. intros Hs. unfold proxy_job_phase. stays_on. Qed.
Lemma stays_route_failed s url route : at_port s -> stays I (route_failed env s jid url route).
Proof. intros Hs. unfold route_failed. stays_on. Qed.
Lemma stays_route_timed_out s url : at_port s -> stays I (route_timed_out env s jid url).
Proof. intros Hs. unfold route_timed_out. stays_on. Qed.
Lemma stays_handoff s remote_url url route : at_port s -> stays I (check_handoff env s jid remote_url url route).
Proof. intros Hs. unfold check_handoff. stays_on. Qed.
Lemma stays_apply s remote_url url route v : at_port s -> stays I (apply_settings_step env s jid remote_url url route v).
Proof. intros Hs. unfold apply_settings_step. stays_on. Qed.
Lemma stays_healthy s url route : at_port s -> stays I (session_healthy env s jid url route).
Proof. intros Hs. unfold session_healthy. stays_on. Qed.
Lemma stays_route_ready s remote_url route st : at_port s -> stays I (route_ready env s jid remote_url route st).
Proof.
  intros Hs. unfold route_ready. stays_on; [by apply stays_handoff|by apply stays_apply|by apply stays_healthy].
Qed.
Lemma stays_ready_loop fuel s remote_url deadline : at_port s -> stays I (ready_loop env fuel s jid remote_url deadline).
Proof.
  intros Hs. induction fuel as [|fuel IH]; cbn [ready_loop]; stays_on;
    eauto using stays_route_failed, stays_route_timed_out, stays_route_ready.
Qed.
Lemma stays_accepted s response n : at_port s -> stays I (record_route_intent_accepted env s jid response n).
Proof.
  intros Hs. unfold record_route_intent_accepted, wait_for_proxy_route_ready. stays_on. by apply stays_ready_loop.
Qed.
Lemma stays_intent s : stays I (handle_route_intent env s).
Proof. unfold handle_route_intent. stays_on. Qed.
Lemma stays_stop id : stays I (stop_route_anyway env id).
Proof. unfold stop_route_anyway. stays_on. Qed.
Lemma stays_attempt s n : at_port s -> stays I (run_proxy_session_route_attempt env s jid n).
Proof.
  intros Hs. unfold run_proxy_session_route_attempt.
  apply stays_bind; [apply stays_intent|intros [response|error]]; [by apply stays_accepted|].
  destruct (route_start_conflict_is_repairable error); stays_on; auto using stays_stop, stays_intent, stays_accepted.
Qed.
Lemma stays_exhausted failure count :
  paf_port failure ∈ candidates (sp_remote_port_policy spec) ->
  stays I (record_remote_port_range_exhausted env spec jid failure count).
Proof.
  intros Hp. assert (at_port (with_remote_port (paf_port failure) spec)) by (by eexists).
  unfold record_remote_port_range_exhausted. stays_on.
Qed.
Lemma stays_try_ports count ports : forall index last,
  ports ⊆ candidates (sp_remote_port_policy spec) ->
  match last with Some f => paf_port f ∈ candidates (sp_remote_port_policy spec) | None => True end ->
  stays I (try_ports env spec jid count index ports last).
Proof.
  induction ports as [|port ports IH]; intros index last Hp Hl; cbn [try_ports].
  - destruct last; [by apply stays_exhausted|apply stays_ret].
  - assert (Hport : port ∈ candidates (sp_remote_port_policy spec)) by set_solver.
    assert (at_port (with_remote_port port spec)) by (by eexists).
    stays_on; auto using stays_attempt, stays_stop, stays_exhausted. apply IH; set_solver.
Qed.

(** The peer of the session; here the peer store is written. *)
Section peer.
Context (Hpeers : peers = true) (alias kind : string).

Lemma stays_record_event phase err blocker msg : stays I (record_event env alias jid kind (Some spec) phase err blocker msg).
Proof. pose proof at_port_self. unfold record_event. destruct (bool_decide (phase = LFailed)); stays_on. Qed.
Lemma stays_peer_phase phase progress msg : stays I (remote_peer_phase env alias jid kind (Some spec) phase progress msg).
Proof.
  unfold remote_peer_phase. stays_on. intros w Hw. unfold emit_event.
  pose proof (stays_record_event (lifecycle_phase_from_job phase) None None msg w Hw) as Hr.
  by destruct (record_event _ _ _ _ _ _ _ _ _ w).
Qed.
Lemma stays_phases l : stays I (run_phases env alias jid kind (Some spec) l).
Proof. induction l as [|[[phase progress] msg] l IH]; cbn [run_phases]; stays_on; auto using stays_peer_phase. Qed.
Lemma stays_waiting err msg : stays I (record_peer_waiting env alias jid kind (Some spec) err msg).
Proof. pose proof at_port_self. unfold record_peer_waiting. stays_on. Qed.
Lemma stays_ready msg st : stays I (record_ready_peer env alias jid kind (Some spec) msg st).
Proof. pose proof at_port_self. unfold record_ready_peer, finish_direct_remote_peer_job. stays_on. Qed.
Lemma stays_install_failure error : stays I (record_install_failure env alias jid kind (Some spec) error).
Proof. pose proof at_port_self. unfold record_install_failure. stays_on. Qed.
Lemma stays_install : stays I (install_peer env alias jid kind (Some spec)).
Proof.
  unfold install_peer. stays_on; auto using stays_phases, stays_peer_phase, stays_install_failure. apply stays_ready.
Qed.
Lemma stays_peer_job force : stays I (run_remote_peer_ensure_job env alias jid kind (Some spec) force).
Proof.
  unfold run_remote_peer_ensure_job. stays_on; auto using stays_peer_phase, stays_waiting, stays_install. apply stays_ready.
Qed.
End peer.

Lemma stays_job : peers = true -> stays I (run_proxy_session_job env spec jid).
Proof.
  intros Hp. pose proof at_port_self. unfold run_proxy_session_job, ensure_remote_peer_for_proxy_session.
  stays_on; auto using stays_phase, stays_peer_job. by apply stays_try_ports.
Qed.

Lemma stays_task w : peers = true -> I w -> I (proxy_session_task env spec jid w).
Proof.
  intros Hp Hw. pose proof (stays_job Hp w Hw) as Hj. unfold proxy_session_task.
  destruct (run_proxy_session_job env spec jid w) as [[u|e] w1]; [done|]. cbn [snd] in Hj.
  assert (Hm : stays I (job ← phase_job env spec jid PFailed 100;
                        job ← fail_job env e (Some "job_task_failed"%string) job;
                        jobs_upsert env job "proxy session job task failed")) by stays_on.
  by apply Hm.
Qed.
End job_invariant.

(** ** What the job does to the stores *)

Section stores.
Context {Value : Type} `{EqDecision Value} `{SessionCodec Value} (env : Env Value) (spec : ProxySessionSpec) (jid : string).
Context (alone : forall n d, env_others env n d = d).

Lemma daemon_advance more w : w_daemon (advance env more w) = w_daemon w.
Proof. unfold advance. cbn. by rewrite alone. Qed.

(** *** The registry *)

(** The registry has room, and holds the record the log ends with. *)
Definition registered (w : World Value) : Prop :=
  jobs_keyed (d_jobs (w_daemon w)) /\ (size (finished_others jid (d_jobs (w_daemon w))) < MAX_TERMINAL_JOBS)%nat
  /\ forall j, last (jobs_in (w_log w)) = Some j -> job_id j = jid -> jobs_get jid (d_jobs (w_daemon w)) = Some j.

Lemma registered_upsert t j msg w :
  job_id j = jid -> jobs_keyed (d_jobs (w_daemon w)) ->
  (size (finished_others jid (d_jobs (w_daemon w))) < MAX_TERMINAL_JOBS)%nat ->
  registered (set_jobs_of (upsert_store t j msg) j w).
Proof.
  intros Hj Hk Hr. unfold registered, set_jobs_of. cbn [w_daemon d_jobs w_log]. subst jid. split_and!.
  - by apply upsert_keyed.
  - eapply Nat.le_lt_trans; [|exact Hr]. by apply subseteq_size, upsert_finished.
  - intros j' Hl _. rewrite jobs_in_app in Hl. change (jobs_in [Wrote j]) with [j] in Hl.
    rewrite last_snoc in Hl. injection Hl as <-.
    unfold jobs_get. rewrite upsert_lookup, lookup_insert_eq by done. cbn. rewrite decide_True; [done|].
    by apply kept_with_room.
Qed.

Lemma registered_kept : kept_by_job env spec jid true registered.
Proof.
  split.
  - intros more w. unfold registered. by rewrite daemon_advance.
  - intros a w. unfold registered. cbn. by rewrite jobs_in_app, app_nil_r.
  - intros t j msg w Hj (Hk & Hr & _). by apply registered_upsert.
  - by intros.
  - by intros.
  - by intros.
  - by intros.
Qed.

(** *** The sessions *)

(** Sessions are stored under the name of their job. *)
Definition sessions_keyed (m : gmap string (ProxySessionRecord Value)) : Prop :=
  forall sid r, m !! sid = Some r -> exists k, sid = "session:" +:+ k /\ se_job_id r = "proxy:" +:+ k.

Lemma session_by_job_keyed m r :
  sessions_keyed m -> m !! spec_session_id spec = Some r -> session_by_job (spec_job_id spec) m = Some r.
Proof.
  intros Hk Hr. unfold session_by_job.
  assert (Hid : forall sid r', m !! sid = Some r' -> se_job_id r' = spec_job_id spec -> r' = r).
  { intros sid r' Hr' E. destruct (Hk _ _ Hr') as (k & -> & E'). rewrite E in E'.
    unfold spec_job_id, job_id_for_key in E'. assert (sanitize_key (spec_key spec) = k) as <- by (by injection E').
    unfold spec_session_id, session_id_for_key in Hr. change (String.append ?a ?b) with (a +:+ b) in Hr. congruence. }
  assert (Hj : se_job_id r = spec_job_id spec).
  { destruct (Hk _ _ Hr) as (k & E & ->). unfold spec_session_id, session_id_for_key in E.
    assert (sanitize_key (spec_key spec) = k) as <- by (by injection E). done. }
  destruct (list_find (fun r => se_job_id r = spec_job_id spec) (btree_values m)) as [[i r']|] eqn:E; cbn.
  - apply list_find_Some in E as (Hi & Hr' & _). apply list_elem_of_lookup_2, elem_of_btree_values in Hi as [sid Hi].
    f_equal. by apply (Hid sid).
  - apply list_find_None in E. rewrite Forall_forall in E. destruct (E r); [|done].
    apply elem_of_btree_values. by exists (spec_session_id spec).
Qed.

(** The stored session answers the request. *)
Definition recognised (r : ProxySessionRecord Value) : Prop :=
  exists existing, to_spec r = Ok existing /\ proxy_session_specs_match existing spec = true.

Definition listed (w : World Value) : Prop :=
  let m := d_sessions (w_daemon w) in
  sessions_keyed m /\ exists r, m !! spec_session_id spec = Some r /\ recognised r.

Lemma update_first_lookup (p : ProxySessionRecord Value -> bool) f m k :
  (update_first p f m).2 !! k = m !! k \/ exists r, m !! k = Some r /\ (update_first p f m).2 !! k = Some (f r).
Proof.
  unfold update_first. destruct (list_find _ (btree_entries m)) as [[i [k' r]]|] eqn:E; [|by left]. cbn [snd].
  apply list_find_Some in E as (Hi & _). apply list_elem_of_lookup_2, elem_of_btree_entries in Hi.
  destruct (decide (k = k')) as [-> |Hne]; [right; exists r; by rewrite lookup_insert_eq|left].
  by rewrite lookup_insert_ne.
Qed.

(** A change of the setup or the probe changes neither the name of the job nor
    the specification. *)
Lemma listed_first p f w :
  (forall r, se_job_id (f r) = se_job_id r) -> (forall r, to_spec (f r) = to_spec r) ->
  listed w -> listed (set_sessions_of (update_first p f (d_sessions (w_daemon w))).2 w).
Proof.
  intros Hf Hs (Hk & r & Hr & Hm). set (m := d_sessions (w_daemon w)) in *. unfold listed. cbn. split.
  - intros sid r' Hr'. destruct (update_first_lookup p f m sid) as [E|(r0 & E0 & E)]; rewrite E in Hr'; [by apply Hk|].
    injection Hr' as <-. rewrite Hf. by apply Hk.
  - destruct (update_first_lookup p f m (spec_session_id spec)) as [E|(r0 & E0 & E)]; [exists r; by rewrite E|].
    exists (f r0). split; [done|]. assert (r0 = r) as -> by congruence. unfold recognised. by rewrite Hs.
Qed.

Section recognise.
Context (spec_encodable : forall s : ProxySessionSpec, is_Some (spec_to_value s)).
Context (ssh_encodable : forall t : SshTargetSpec, is_Some (ssh_to_value t)).
Context (policy_encodable : forall p : ApplyPolicy, is_Some (policy_to_value p)).
Context (ip_known : ip_parse (ip_text (sp_remote_bind spec)) = Some (sp_remote_bind spec)).
Context (reverse : sp_connect_mode spec = ReverseLink).

Lemma at_port_same s : at_port spec s -> same_session s spec.
Proof.
  intros (p & Hp & ->). unfold same_session. cbn. split_and!; try done; [apply same_ssh_refl|].
  destruct (auto_pick (sp_remote_port_policy spec)) eqn:E; [by right|left].
  unfold candidates in Hp. rewrite E in Hp. change (Z.to_nat 1) with 1%nat in Hp. cbn [candidates_from] in Hp.
  unfold checked_add_u in Hp. rewrite Z.add_0_r in Hp.
  destruct (_ <=? _); set_solver.
Qed.

Lemma recognised_update s job route r : at_port spec s -> recognised (set_route route (update_proxy_session_record_from_job s job r)).
Proof.
  intros Hs. destruct (stored_matches spec_encodable ssh_encodable policy_encodable s spec job r route) as (ex & E & Hm).
  - destruct Hs as (p & _ & ->). done.
  - exists ex. split; [done|]. apply Hm. split; [exact reverse|]. by apply at_port_same.
Qed.

Lemma update_job_id s job (r : ProxySessionRecord Value) route :
  se_job_id (set_route route (update_proxy_session_record_from_job s job r)) = se_job_id r.
Proof. unfold update_proxy_session_record_from_job. destruct route; cbn; repeat case_match; done. Qed.

(** A session is listed once its job was shown in it. *)
Lemma listed_upsert t s job route w :
  at_port spec s -> sessions_keyed (d_sessions (w_daemon w)) -> job_id job = spec_job_id spec ->
  listed (set_sessions_of (upsert_session_from_job t s job route (d_sessions (w_daemon w))).2 w).
Proof.
  intros Hs Hk Hj. unfold listed, upsert_session_from_job. cbn.
  assert (Hsid : spec_session_id s = spec_session_id spec) by (destruct Hs as (p & _ & ->); done). rewrite Hsid. split.
  - intros sid r' [[<- <-]|[Hne Hr']]%lookup_insert_Some; [|by apply Hk]. rewrite update_job_id.
    destruct (d_sessions (w_daemon w) !! spec_session_id spec) as [r|] eqn:Hr; cbn; [by apply Hk|].
    exists (sanitize_key (spec_key spec)). split; [done|]. by rewrite Hj.
  - eexists. rewrite lookup_insert_eq. split; [done|]. by apply recognised_update.
Qed.

Lemma listed_kept : kept_by_job env spec jid true listed.
Proof.
  split.
  - intros more w. unfold listed. by rewrite daemon_advance.
  - by intros.
  - by intros.
  - intros t s job route w Hs (Hk & r & Hr & Hm). unfold listed, upsert_session_from_job. cbn.
    assert (Hsid : spec_session_id s = spec_session_id spec) by (destruct Hs as (p & _ & ->); done). rewrite Hsid, Hr. cbn. split.
    + intros sid r' [[<- <-]|[Hne Hr']]%lookup_insert_Some; [|by apply Hk]. rewrite update_job_id. by apply Hk.
    + eexists. rewrite lookup_insert_eq. split; [done|]. by apply recognised_update.
  - intros t st w. by apply listed_first.
  - intros t st w. by apply listed_first.
  - by intros.
Qed.
End recognise.

(** *** The peer *)

Lemma peer_current_kept : kept_by_job env spec jid false (peer_current spec).
Proof.
  split; try (by intros). intros more w. unfold peer_current. by rewrite daemon_advance.
Qed.
End stores.

(** ** Ensuring a session twice *)

Definition request_for (spec : ProxySessionSpec) : NodeRequest := MkRequest None None (Some spec) None None.

Section twice.
Context {Value : Type} `{EqDecision Value} `{SessionCodec Value} (env : Env Value) (spec : ProxySessionSpec).
Abbreviation jid := (spec_job_id spec).
Context (alone : forall n d, env_others env n d = d) (saved : forall n, env_saved env n = Ok tt).
Context (alive : bool) (live : forall n, env_live env n (spec_route_id spec) = alive).

(** The same daemon and log, later. *)
Definition same_state (w w' : World Value) : Prop := w_daemon w' = w_daemon w /\ w_log w' = w_log w.

Lemma same_advance more w w' : same_state w w' -> same_state w (advance env more w').
Proof. intros [E1 E2]. unfold same_state, advance. cbn. by rewrite alone, E1, E2. Qed.

(** A call that only reads the stores. *)
Definition reads {A} (m : sr (World Value) string A) (v : Daemon Value -> A) : Prop :=
  forall w, exists w', m w = (Ok (v (w_daemon w)), w') /\ same_state w w'.

Lemma reads_ret {A} (a : A) : reads (mret a) (fun _ => a).
Proof. intros w. by exists w. Qed.
Lemma reads_bind {A B} (m : sr (World Value) string A) (f : A -> sr (World Value) string B) v g :
  reads m v -> (forall a, reads (f a) (g a)) -> reads (m ≫= f) (fun d => g (v d) d).
Proof.
  intros Hm Hf w. destruct (Hm w) as (w1 & E1 & D1 & L1). destruct (Hf (v (w_daemon w)) w1) as (w2 & E2 & D2 & L2).
  exists w2. rewrite (sr_bind_Ok _ _ _ _ _ E1), E2, D1. split; [done|]. split; congruence.
Qed.
Lemma reads_wait {A} (v : Daemon Value -> A) : reads (wait env (fun _ w => (Ok (v (w_daemon w)), w))) v.
Proof.
  intros w. exists (advance env 0 w). unfold wait. split; [|by apply same_advance].
  unfold advance. cbn. by rewrite alone.
Qed.
Lemma reads_live : reads (live_route env (spec_route_id spec)) (fun _ => alive).
Proof. intros w. exists (advance env 0 w). unfold live_route, outside, wait. rewrite live. split; [done|]. by apply same_advance. Qed.

(** The job that answers the request. *)
Definition session_recognised (d : Daemon Value) : bool :=
  match session_by_job jid (d_sessions d) with
  | None => false
  | Some session => match to_spec session with Ok existing => proxy_session_specs_match existing spec | Err _ => false end
  end.
Definition peer_allows (d : Daemon Value) : bool :=
  match d_peers d !! sp_target spec with None => true | Some peer => peer_status_allows_proxy_session_reuse peer end.
Definition answer (d : Daemon Value) : option DaemonJobRecord :=
  match jobs_get jid (d_jobs d) with
  | None => None
  | Some j => if reusable_proxy_session_job j alive
              then if session_recognised d then if peer_allows d then Some j else None else None else None
  end.

Lemma reads_reusable_job : reads (reusable_job env spec) answer.
Proof.
  assert (Hs : reads (proxy_session_matches_existing env jid spec) session_recognised).
  { apply (reads_bind _ _ _ (fun o _ => match o with
      | None => false
      | Some session => match to_spec session with Ok existing => proxy_session_specs_match existing spec | Err _ => false end
      end) (reads_wait (fun d => session_by_job jid (d_sessions d)))). intros a. apply reads_ret. }
  assert (Hp : reads (proxy_session_peer_allows_reuse env spec) peer_allows).
  { apply (reads_bind _ _ _ (fun o _ => match o with
      | None => true
      | Some peer => peer_status_allows_proxy_session_reuse peer
      end) (reads_wait (fun d => d_peers d !! sp_target spec))). intros a. apply reads_ret. }
  unfold reusable_job, answer.
  apply (reads_bind _ _ (fun d => jobs_get jid (d_jobs d)) (fun o d =>
    match o with
    | None => None
    | Some j => if reusable_proxy_session_job j alive
                then if session_recognised d then if peer_allows d then Some j else None else None else None
    end)); [apply (reads_wait (fun d => jobs_get jid (d_jobs d)))|].
  intros [j|]; [|apply reads_ret].
  apply (reads_bind _ _ (fun _ => alive) (fun l d => if reusable_proxy_session_job j l
                then if session_recognised d then if peer_allows d then Some j else None else None else None)); [apply reads_live|].
  intros l. destruct (reusable_proxy_session_job j l); [|apply reads_ret].
  apply (reads_bind _ _ _ (fun (s : bool) d => if s then if peer_allows d then Some j else None else None) Hs).
  intros []; [|apply reads_ret].
  apply (reads_bind _ _ _ (fun (p : bool) _ => if p then Some j else None) Hp). intros p. apply reads_ret.
Qed.

(** A session shown for its job, when the job is there and may be reused. *)
Lemma ensure_answered w j :
  answer (w_daemon w) = Some j ->
  exists s w', ensure_proxy_session env (request_for spec) w = (Ok (MkEnsure true j s None), w')
    /\ w_log w' = w_log w /\ d_jobs (w_daemon w') = d_jobs (w_daemon w) /\ d_peers (w_daemon w') = d_peers (w_daemon w)
    /\ exists t, d_sessions (w_daemon w') = (upsert_session_from_job t spec j None (d_sessions (w_daemon w))).2.
Proof.
  intros Ha. destruct (reads_reusable_job w) as (w1 & E1 & D1 & L1). rewrite Ha in E1.
  unfold ensure_proxy_session, request_for. cbn [rq_proxy_session ok_or sr_lift].
  change (sr_lift (Ok spec) ≫= ?f) with (f spec). cbn beta.
  rewrite (sr_bind_Ok _ _ _ _ _ E1). unfold state_upsert_session, wait, mbind, sr_bind.
  rewrite saved. destruct (upsert_session_from_job _ _ _ _ _) as [rec m] eqn:Eu.
  do 2 eexists. split; [reflexivity|].
  cbn [set_sessions_of advance w_log w_daemon d_jobs d_peers d_sessions] in *. rewrite alone, D1 in *.
  split_and!; [done..|]. exists (env_now env (w_tick w1)). by rewrite Eu.
Qed.

Context (spec_encodable : forall s : ProxySessionSpec, is_Some (spec_to_value s)).
Context (ssh_encodable : forall t : SshTargetSpec, is_Some (ssh_to_value t)).
Context (policy_encodable : forall p : ApplyPolicy, is_Some (policy_to_value p)).

(** A request that does not ask for the reverse link finds no session. *)
Lemma other_mode_no_answer d : sp_connect_mode spec <> ReverseLink -> answer d = None.
Proof.
  intros Hmode. assert (session_recognised d = false) as E.
  { unfold session_recognised. destruct (session_by_job _ _) as [r|]; [|done].
    destruct (to_spec r) as [existing|] eqn:Er; [|done].
    destruct (proxy_session_specs_match existing spec) eqn:Em; [|done]. destruct Hmode.
    rewrite <-(match_mode spec_encodable _ _ Em). by eapply to_spec_mode. }
  unfold answer. rewrite E. by repeat case_match.
Qed.

Context (ip_known : ip_parse (ip_text (sp_remote_bind spec)) = Some (sp_remote_bind spec)).
Context (reverse : sp_connect_mode spec = ReverseLink).

Lemma ensure_accepted w :
  answer (w_daemon w) = None -> jobs_keyed (d_jobs (w_daemon w)) ->
  (size (finished_others jid (d_jobs (w_daemon w))) < MAX_TERMINAL_JOBS)%nat ->
  sessions_keyed (d_sessions (w_daemon w)) ->
  exists j s w', ensure_proxy_session env (request_for spec) w = (Ok (MkEnsure false j s (Some (spec, jid))), w')
    /\ registered jid w' /\ listed spec w'.
Proof.
  intros Ha Hk Hr Hs. destruct (reads_reusable_job w) as (w1 & E1 & D1 & L1). rewrite Ha in E1. rewrite <-D1 in Hk, Hr, Hs.
  unfold ensure_proxy_session, request_for. cbn [rq_proxy_session ok_or sr_lift].
  change (sr_lift (Ok spec) ≫= ?f) with (f spec). cbn beta.
  rewrite (sr_bind_Ok _ _ _ _ _ E1). unfold now, jobs_upsert, state_upsert_session, wait, mbind, sr_bind.
  rewrite !saved. set (job := transition (env_now env (w_tick w1)) Queued PQueued 0 _).
  set (w2 := set_jobs_of _ job (advance env 0 w1)).
  assert (R2 : registered jid w2).
  { apply registered_upsert; [done|..]; by rewrite (daemon_advance env alone). }
  assert (S2 : d_sessions (w_daemon w2) = d_sessions (w_daemon w1)).
  { unfold w2. cbn. by rewrite alone. }
  clearbody w2. unfold result_bind.
  destruct (upsert_session_from_job _ spec job None _) as [rec m] eqn:Eu. do 3 eexists. split; [reflexivity|].
  change m with (rec, m).2. rewrite <-Eu. split.
  - exact (kept_advance _ _ _ _ _ (registered_kept env spec jid alone) 0 w2 R2).
  - apply (listed_upsert env spec alone); try done; [apply at_port_self|]. by rewrite (daemon_advance env alone), S2.
Qed.

Lemma answer_ready w j :
  listed spec w -> jobs_get jid (d_jobs (w_daemon w)) = Some j -> reusable_proxy_session_job j alive = true -> peer_allows (w_daemon w) = true -> answer (w_daemon w) = Some j.
Proof.
  intros (Hk & r & Hr & ex & Hex & Hm) Hj Hu Hp. unfold answer. rewrite Hj, Hu, Hp. unfold session_recognised.
  by rewrite (session_by_job_keyed spec _ r Hk Hr), Hex, Hm.
Qed.

(** *** Taking it down *)

(** Sessions are stored under the name of their job and route. *)
Definition sessions_named (m : gmap string (ProxySessionRecord Value)) : Prop :=
  forall sid r, m !! sid = Some r ->
    exists k, sid = "session:" +:+ k /\ se_job_id r = "proxy:" +:+ k /\ se_route_id r = "v3-" +:+ k.

Lemma update_first_only (p : ProxySessionRecord Value -> bool) f m k :
  (forall k' r, m !! k' = Some r -> p r = true <-> k' = k) ->
  update_first p f m = (f <$> m !! k, alter f k m).
Proof.
  intros Hp. unfold update_first. destruct (list_find _ (btree_entries m)) as [[i [k' r]]|] eqn:E.
  - apply list_find_Some in E as (Hi & Hr & _). apply list_elem_of_lookup_2, elem_of_btree_entries in Hi as Hk.
    apply (Hp k' r Hk) in Hr as ->. rewrite Hk. cbn. f_equal. apply map_eq. intros k2.
    destruct (decide (k2 = k)) as [-> |]; [by rewrite lookup_insert_eq, lookup_alter_eq, Hk|].
    by rewrite lookup_insert_ne, lookup_alter_ne.
  - apply list_find_None in E. rewrite Forall_forall in E. destruct (m !! k) as [r|] eqn:Hk; cbn.
    + destruct (E (k, r)); [by apply elem_of_btree_entries|]. by apply (Hp k r Hk).
    + f_equal. symmetry. apply map_eq. intros k2. destruct (decide (k2 = k)) as [-> |]; [by rewrite lookup_alter_eq, Hk|].
      by rewrite lookup_alter_ne.
Qed.

Lemma session_key k : spec_session_id spec = "session:" +:+ k -> k = sanitize_key (spec_key spec).
Proof. intros E. by injection E. Qed.

(** In such a store the session is the only one with its route or its job. *)
Lemma named_only m sid r :
  sessions_named m -> m !! sid = Some r ->
  (String.eqb (se_route_id r) (spec_route_id spec) || String.eqb (se_job_id r) jid) = true <-> sid = spec_session_id spec.
Proof.
  intros Hm Hr. destruct (Hm _ _ Hr) as (k & -> & -> & ->). rewrite orb_true_iff, !String.eqb_eq. split.
  - intros [E|E]; by assert (k = sanitize_key (spec_key spec)) as -> by (by injection E).
  - intros E. rewrite (session_key k) by done. by left.
Qed.

(** From the stores, through calls that leave them alone, to what is written. *)
Section down.
Context (J : JobStore) (M : gmap string (ProxySessionRecord Value)) (named : sessions_named M).
Definition at_stores (l : list Entry) (w : World Value) : Prop :=
  d_jobs (w_daemon w) = J /\ d_sessions (w_daemon w) = M /\ w_log w = l.

Lemma goes_read {A} l (f : nat -> World Value -> A) (Q : A -> Prop) :
  (forall n w, at_stores l w -> Q (f n w)) ->
  goes (at_stores l) (wait env (fun n w => (Ok (f n w), w))) (fun a w => Q a /\ at_stores l w).
Proof.
  intros HQ w Hw. do 2 eexists. split; [reflexivity|].
  assert (at_stores l (advance env 0 w)) by (unfold at_stores, advance in *; cbn; by rewrite alone). auto.
Qed.
Lemma goes_act l a : goes (at_stores l) (act a) (fun _ => at_stores (l ++ [Did a])).
Proof. intros w (H1 & H2 & H3). do 2 eexists. split; [reflexivity|]. unfold at_stores. cbn. by rewrite H3. Qed.

(** The session is found by its route, and no job has the name of a route. *)
Lemma by_route_named : session_by_route (spec_route_id spec) M = M !! spec_session_id spec.
Proof.
  unfold session_by_route. destruct (list_find _ _) as [[i r]|] eqn:E; cbn.
  - apply list_find_Some in E as (Hi & Hr & _). apply list_elem_of_lookup_2, elem_of_btree_values in Hi as [sid Hsid].
    rewrite <-Hsid. f_equal. apply (proj1 (named_only _ _ _ named Hsid)). by rewrite Hr, String.eqb_refl.
  - destruct (M !! spec_session_id spec) as [r|] eqn:Hr; [|done]. apply list_find_None in E. rewrite Forall_forall in E.
    destruct (E r); [apply elem_of_btree_values; by eexists|].
    by destruct (named _ _ Hr) as (k & ->%session_key & _ & ->).
Qed.
Lemma by_job_none : session_by_job (spec_route_id spec) M = None.
Proof.
  unfold session_by_job. destruct (list_find _ _) as [[i r]|] eqn:E; [|done]. apply list_find_Some in E as (Hi & Hr & _).
  apply list_elem_of_lookup_2, elem_of_btree_values in Hi as [sid Hsid].
  destruct (named _ _ Hsid) as (k & _ & E2 & _). by rewrite E2 in Hr.
Qed.

(** The specification by which the settings on the target are removed: that of
    the stored session, when it can be read. *)
Definition removal : ProxySessionSpec :=
  default spec (r ← M !! spec_session_id spec; match to_spec r with Ok existing => Some existing | Err _ => None end).

(** The stores and the log when the session was taken down. *)
Definition taken_down (l : list Entry) (r : DownResponse (Value := Value)) (w : World Value) : Prop :=
  (job_id (dn_job r) = jid /\ job_state (dn_job r) = Cancelled)
  /\ (exists t, d_jobs (w_daemon w) = upsert_store t (dn_job r) "proxy session stopped" J)
  /\ (exists t, d_sessions (w_daemon w)
        = alter (set_cancelled t match dn_route_stop r with Ok _ => None | Err e => Some e end) (spec_session_id spec) M)
  /\ dn_session r = d_sessions (w_daemon w) !! spec_session_id spec
  /\ w_log w = l ++ [Did (AStopRoute (spec_route_id spec)); Did (ACleanup removal); Wrote (dn_job r)].

Lemma goes_cancelled_job l j :
  goes (at_stores l) (jobs_upsert env j "proxy session stopped") (fun a w => a = j
    /\ ((exists t, d_jobs (w_daemon w) = upsert_store t j "proxy session stopped" J)
        /\ d_sessions (w_daemon w) = M /\ w_log w = l ++ [Wrote j])).
Proof.
  intros w (H1 & H2 & H3). unfold jobs_upsert, wait. rewrite saved. do 2 eexists. split; [reflexivity|].
  split; [done|]. cbn. rewrite alone, H1, H2, H3. split_and!; [by eexists|done..].
Qed.

Lemma goes_down l : goes (at_stores l) (proxy_session_down env (request_for spec)) (taken_down l).
Proof.
  unfold proxy_session_down, request_for. cbn [rq_proxy_session rq_id or_else fmap option_fmap option_map ok_or].
  change (sr_lift (Ok ?x) ≫= ?f) with (f x). cbn beta.
  eapply (goes_bind_pure _ _ (fun a => a = M !! spec_session_id spec)).
  { apply goes_read. intros _ w (_ & -> & _). apply by_route_named. }
  intros _ ->. eapply (goes_bind_pure _ _ (fun a => a = M !! spec_session_id spec) (at_stores l)).
  { destruct (M !! spec_session_id spec) eqn:Es; [by apply goes_ret|].
    apply goes_read. intros _ w (_ & -> & _). apply by_job_none. }
  intros _ ->. cbn beta zeta.
  assert (default (spec_route_id spec) (or_else (se_route_id <$> M !! spec_session_id spec) (Some (spec_route_id spec)))
          = spec_route_id spec) as ->.
  { destruct (M !! spec_session_id spec) as [r|] eqn:Hr; [|done]. cbn.
    by destruct (named _ _ Hr) as (k & ->%session_key & _ & ->). }
  assert (or_else (r ← M !! spec_session_id spec; match to_spec r with Ok existing => Some existing | Err _ => None end)
            (Some spec) = Some removal) as ->.
  { unfold removal. by destruct (_ ≫= _). }
  eapply (goes_bind_pure _ _ (fun _ => True)); [by apply goes_read|]. intros stopped _.
  eapply goes_bind; [apply goes_act|]. intros ?. cbn beta. apply goes_assoc.
  eapply (goes_bind_pure _ _ (fun _ => True)); [by apply goes_read|]. intros cleanup _. apply goes_assoc.
  eapply goes_bind; [apply goes_act|]. intros ?. cbn beta. apply goes_ret_bind. apply goes_now_bind. intros t.
  eapply goes_bind_pure; [apply goes_cancelled_job|]. intros _ ->. cbn [job_id].
  intros w ((t1 & H1) & H2 & H3). unfold state_sessions, wait, mbind, sr_bind. rewrite saved. cbn [w_daemon advance].
  unfold cancel_session. rewrite alone, H2.
  rewrite (update_first_only _ _ _ (spec_session_id spec)) by (intros; by apply (named_only M)).
  do 2 eexists. split; [reflexivity|]. unfold taken_down. cbn [dn_job dn_session dn_route_stop w_daemon d_jobs d_sessions w_log set_sessions_of].
  split_and!; [done..|exists t1; by rewrite (daemon_advance env alone)|by eexists|by rewrite lookup_alter_eq|].
  cbn. by rewrite H3, <-!app_assoc.
Qed.
End down.

Lemma cancelled_no_answer J M l r w : jobs_keyed J -> taken_down J M l r w -> answer (w_daemon w) = None.
Proof.
  intros Hk ((Hj & Hst) & (t & E) & _). unfold answer. rewrite E. unfold jobs_get. rewrite upsert_lookup by done.
  rewrite <-Hj, lookup_insert_eq. cbn. case_decide; [|done]. unfold reusable_proxy_session_job. by rewrite Hst.
Qed.

Lemma ensure_starts w :
  answer (w_daemon w) = None ->
  exists r w', ensure_proxy_session env (request_for spec) w = (Ok r, w') /\ er_reused r = false
    /\ er_spawned r = Some (spec, jid).
Proof.
  intros Ha. destruct (reads_reusable_job w) as (w1 & E1 & _). rewrite Ha in E1.
  unfold ensure_proxy_session, request_for. cbn [rq_proxy_session ok_or sr_lift].
  change (sr_lift (Ok spec) ≫= ?f) with (f spec). cbn beta.
  rewrite (sr_bind_Ok _ _ _ _ _ E1). unfold now, jobs_upsert, state_upsert_session, wait, mbind, sr_bind.
  rewrite !saved. unfold result_bind. destruct (upsert_session_from_job _ _ _ _ _) as [rec m].
  do 2 eexists. split; [reflexivity|]. done.
Qed.
End twice.

(** The task makes the session healthy, with a peer of this version. *)
Lemma task_healthy {Value : Type} `{SessionCodec Value} (env : Env Value) (spec : ProxySessionSpec) :
  works env spec -> validate_proxy_session_spec spec = Ok tt -> forall jid w, jobs_keyed (d_jobs (w_daemon w)) ->
  let w' := proxy_session_task env spec jid w in
  exists j, last (jobs_in (w_log w')) = Some j /\ job_id j = jid /\ job_state j = Healthy /\ peer_current spec w'.
Proof.
  intros W Hv jid w Hk.
  pose proof (peer_current_kept env spec jid (works_others _ _ W)) as Kp.
  destruct (goes_job env spec jid W (peer_current spec) Hv) with w as (u & w' & E & (j & Hj & Hst & Hid) & Hp).
  - done.
  - apply (stays_bind (peer_current spec)); [by eapply stays_phase; [|apply at_port_self]|intros _].
    apply (stays_bind (peer_current spec)); [by eapply stays_phase; [|apply at_port_self]|intros _].
    by eapply stays_try_ports.
  - done.
  - unfold proxy_session_task. rewrite E. by exists j.
Qed.

(** The task an accepted request starts, run to its end. *)
Definition run_spawned {Value : Type} `{SessionCodec Value} (env : Env Value) (r : EnsureResponse (Value := Value))
    (w : World Value) : World Value :=
  match er_spawned r with Some (spec, jid) => proxy_session_task env spec jid w | None => w end.

(** The second request is answered with the job there is, and does nothing. *)
Lemma ensured_once {Value : Type} `{EqDecision Value} `{SessionCodec Value} (env : Env Value) (spec : ProxySessionSpec)
    (w : World Value) :
  works env spec -> (forall n, env_live env n (spec_route_id spec) = true) ->
  validate_proxy_session_spec spec = Ok tt -> sp_connect_mode spec = ReverseLink ->
  (forall s : ProxySessionSpec, is_Some (spec_to_value s)) -> (forall t : SshTargetSpec, is_Some (ssh_to_value t)) ->
  (forall p : ApplyPolicy, is_Some (policy_to_value p)) ->
  ip_parse (ip_text (sp_remote_bind spec)) = Some (sp_remote_bind spec) ->
  jobs_keyed (d_jobs (w_daemon w)) -> sessions_keyed (d_sessions (w_daemon w)) ->
  (size (finished_others (spec_job_id spec) (d_jobs (w_daemon w))) < MAX_TERMINAL_JOBS)%nat ->
  exists first w1 second w3,
    ensure_proxy_session env (request_for spec) w = (Ok first, w1)
    /\ ensure_proxy_session env (request_for spec) (run_spawned env first w1) = (Ok second, w3)
    /\ er_reused second = true /\ er_spawned second = None /\ w_log w3 = w_log (run_spawned env first w1)
    /\ (er_reused first = true /\ er_job second = er_job first
        \/ er_spawned first = Some (spec, spec_job_id spec) /\ job_state (er_job second) = Healthy).
Proof.
  intros W Hlive Hv Hrev He1 He2 He3 Hip Hk Hs Hr.
  destruct (answer spec true (w_daemon w)) as [j|] eqn:Ha.
  - destruct (ensure_answered env spec (works_others _ _ W) (works_saved _ _ W) true Hlive w j Ha) as (s & w1 & E1 & L1 & J1 & P1 & t & S1).
    unfold answer in Ha. destruct (jobs_get _ _) as [j'|] eqn:Ej; [|done].
    destruct (reusable_proxy_session_job j' true) eqn:Hu; [|done]. destruct (session_recognised _ _); [|done].
    destruct (peer_allows spec _) eqn:Hp; [|done]. injection Ha as ->.
    assert (Hl : listed spec w1).
    { pose proof (listed_upsert env spec (works_others _ _ W) He1 He2 He3 Hip Hrev t spec j None w (at_port_self spec) Hs (Hk _ _ Ej)) as Hl.
      unfold listed in *. cbn [set_sessions_of w_daemon d_sessions] in Hl. by rewrite S1. }
    assert (Ha1 : answer spec true (w_daemon w1) = Some j).
    { apply answer_ready; [done|by rewrite J1|done|]. unfold peer_allows. by rewrite P1. }
    destruct (ensure_answered env spec (works_others _ _ W) (works_saved _ _ W) true Hlive w1 j Ha1) as (s' & w3 & E3 & L3 & _).
    exists (MkEnsure true j s None), w1, (MkEnsure true j s' None), w3. split_and!; try done. by left.
  - destruct (ensure_accepted env spec (works_others _ _ W) (works_saved _ _ W) true Hlive He1 He2 He3 Hip Hrev w Ha Hk Hr Hs) as (j & s & w1 & E1 & R1 & L1).
    destruct (task_healthy env spec W Hv (spec_job_id spec) w1 (proj1 R1)) as (j' & Hj & Hid & Hst & Hp).
    set (w2 := proxy_session_task env spec (spec_job_id spec) w1) in *.
    assert (R2 : registered (spec_job_id spec) w2).
    { by apply (stays_task env spec _ true _ (registered_kept env spec _ (works_others _ _ W))). }
    assert (L2 : listed spec w2).
    { by apply (stays_task env spec _ true _ (listed_kept env spec _ (works_others _ _ W) He1 He2 He3 Hip Hrev)). }
    assert (Ha2 : answer spec true (w_daemon w2) = Some j').
    { apply answer_ready; [done|by apply R2|unfold reusable_proxy_session_job; by rewrite Hst|].
      destruct Hp as (p & Hp & Hu). unfold peer_allows. rewrite Hp. unfold peer_status_allows_proxy_session_reuse. by rewrite Hu. }
    destruct (ensure_answered env spec (works_others _ _ W) (works_saved _ _ W) true Hlive w2 j' Ha2) as (s' & w3 & E3 & L3 & _).
    exists (MkEnsure false j s (Some (spec, spec_job_id spec))), w1, (MkEnsure true j' s' None), w3. split_and!; try done. by right.
Qed.



Lemma sample_works : works sample_env sample_spec.
Proof.
  split; try reflexivity; intros; try (by eexists). do 2 eexists. split; [reflexivity|]. split; [reflexivity|]. by left.
Qed.


(** A daemon with the session in its store, and one of another workspace. *)
Definition other_spec : ProxySessionSpec :=
  MkSpec "127" None None [] "http://127.0.0.1:10808/" (V4 [x7f; x00; x00; x01]) (MkPortPolicy 17899 true 20) ReverseLink
    ApplyPolicy_default.
Definition stored_sessions : gmap string (ProxySessionRecord SampleValue) :=
  <[spec_session_id sample_spec := (upsert_session_from_job 9 sample_spec
      (transition 9 Healthy PHealthy 100 (JobRecord_new 5 (spec_job_id sample_spec) "ensure_proxy_session")) None ∅).1]>
  (<[spec_session_id other_spec := (upsert_session_from_job 9 other_spec
      (transition 9 Healthy PHealthy 100 (JobRecord_new 5 (spec_job_id other_spec) "ensure_proxy_session")) None ∅).1]> ∅).
Definition stored_world : World SampleValue := MkTask 0 0 (MkDaemon JobStore_default stored_sessions ∅) [].

Lemma stored_named : sessions_named stored_sessions.
Proof.
  intros sid r Hr. unfold stored_sessions in Hr.
  apply lookup_insert_Some in Hr as [[<- <-]|[_ [[<- <-]|[_ Hr]]%lookup_insert_Some]]; [..|by rewrite lookup_empty in Hr].
  - exists (sanitize_key (spec_key sample_spec)). split_and!; vm_compute; reflexivity.
  - exists (sanitize_key (spec_key other_spec)). split_and!; vm_compute; reflexivity.
Qed.


(** ** Reconciliation *)

Section reconcile.
Context {Value : Type} `{SessionCodec Value} (env : Env Value) (live : string -> bool).
Context (alone : forall n d, env_others env n d = d) (saved : forall n, env_saved env n = Ok tt).
Context (lives : forall n rid, env_live env n rid = live rid).
Abbreviation Sessions := (gmap string (ProxySessionRecord Value)).

(** A session that says it is healthy has a route that runs. *)
Definition truthful (r : ProxySessionRecord Value) : Prop :=
  se_state r = "healthy"%string -> live (se_route_id r) = true.

(** A stored session can be read, and is stored under its own name. *)
Definition readable (sid : string) (r : ProxySessionRecord Value) : Prop :=
  exists spec, to_spec r = Ok spec /\ spec_session_id spec = sid.

Definition has_sessions (m : Sessions) (w : World Value) : Prop :=
  jobs_keyed (d_jobs (w_daemon w)) /\ d_sessions (w_daemon w) = m.

Lemma has_sessions_advance m w : has_sessions m w -> has_sessions m (advance env 0 w).
Proof. unfold has_sessions, advance. cbn. by rewrite alone. Qed.

Lemma goes_missing m (r : ProxySessionRecord Value) :
  goes (has_sessions m)
    (if String.eqb (se_state r) "healthy" then live ← live_route env (se_route_id r); mret (negb live) else mret false)
    (fun b w => b = String.eqb (se_state r) "healthy" && negb (live (se_route_id r)) /\ has_sessions m w).
Proof.
  destruct (String.eqb (se_state r) "healthy"); [|by apply goes_ret].
  intros w Hw. unfold live_route, outside, wait, mbind, sr_bind. rewrite lives. do 2 eexists. split; [reflexivity|].
  split; [done|by apply has_sessions_advance].
Qed.

Lemma goes_reconcile_job m j msg :
  is_terminal (job_state j) = false ->
  goes (has_sessions m) (jobs_upsert env j msg)
    (fun _ w => has_sessions m w /\ jobs_get (job_id j) (d_jobs (w_daemon w)) = Some j).
Proof.
  intros Ht w Hw. apply has_sessions_advance in Hw. unfold jobs_upsert, wait. rewrite saved. do 2 eexists.
  split; [reflexivity|]. destruct Hw as [Hk Hm]. unfold has_sessions, set_jobs_of.
  cbn [w_daemon d_jobs d_sessions]. split_and!; [by apply upsert_keyed|done|].
  unfold jobs_get. rewrite upsert_lookup, lookup_insert_eq by done. cbn. by rewrite decide_True by (by left).
Qed.

Lemma update_state s job (r : ProxySessionRecord Value) route :
  se_state (set_route route (update_proxy_session_record_from_job s job r)) = state_value (job_state job).
Proof. unfold update_proxy_session_record_from_job. destruct route; cbn; repeat case_match; done. Qed.

Lemma goes_reconcile_session m sid (r : ProxySessionRecord Value) :
  readable sid r -> m !! sid = Some r ->
  goes (has_sessions m) (reconcile_session env r) (fun _ w => exists r', truthful r' /\ has_sessions (<[sid := r']> m) w).
Proof.
  intros (spec & Hspec & Hsid) Hr. unfold reconcile_session.
  eapply goes_bind_pure; [apply goes_missing|]. intros _ ->. set (missing := _ && negb (live _)).
  set (unfinished := negb (String.eqb (se_state r) "healthy" || String.eqb (se_state r) "failed"
                           || String.eqb (se_state r) "cancelled")).
  rewrite <-negb_orb. destruct (unfinished || missing) eqn:E; cbn [negb].
  - apply goes_now_bind. intros t. set (route := if missing then Some _ else None).
    set (job := if missing then _ else _).
    assert (Hid : job_id job = se_job_id r) by (unfold job; by destruct missing).
    assert (Hst : job_state job = WaitingRetry) by (unfold job; by destruct missing). clearbody job route.
    eapply goes_bind; [apply goes_reconcile_job; by rewrite Hst|]. intros ?. cbn beta. rewrite Hspec.
    intros w [Hw Hg]. apply has_sessions_advance in Hw as Hw1. rewrite Hid in Hg.
    unfold jobs_lookup, wait at 1, mbind, sr_bind. cbn [w_daemon advance]. rewrite alone, Hg.
    unfold state_upsert_session, wait. rewrite saved. destruct (upsert_session_from_job _ spec job route _) as [rec m'] eqn:Eu.
    do 2 eexists. split; [reflexivity|]. apply has_sessions_advance in Hw1 as [Hk2 Hm2].
    unfold upsert_session_from_job in Eu. rewrite Hm2, Hsid, Hr in Eu. injection Eu as <- <-.
    eexists. split; [|split; [exact Hk2|reflexivity]]. unfold truthful. rewrite update_state, Hst. done.
  - apply orb_false_iff in E as [_ E2]. apply goes_ret. intros w Hw. exists r. rewrite insert_id by done.
    split; [|done]. intros Hh. unfold missing in E2. rewrite Hh in E2. by apply negb_false_iff.
Qed.

Lemma goes_reconcile_all es : forall m,
  NoDup es.*1 -> (forall k r, (k, r) ∈ es -> m !! k = Some r /\ readable k r) ->
  (forall k r, m !! k = Some r -> truthful r \/ (k, r) ∈ es) ->
  goes (has_sessions m) (reconcile_all env es.*2) (fun _ w => forall k r, d_sessions (w_daemon w) !! k = Some r -> truthful r).
Proof.
  induction es as [|[k r] es IH]; intros m Hnd Hes Hm; cbn [fmap list_fmap reconcile_all].
  { apply goes_ret. intros w [_ Hw] k r Hr. rewrite Hw in Hr. destruct (Hm _ _ Hr) as [|?%elem_of_nil]; done. }
  cbn in Hnd. apply NoDup_cons in Hnd as [Hk Hnd]. destruct (Hes k r) as [Hr Hread]; [by left|].
  eapply goes_bind; [by apply goes_reconcile_session|]. intros ?. cbn beta. intros w (r' & Ht & Hw). revert w Hw.
  apply IH; [done|..].
  - intros k2 r2 H2. destruct (Hes k2 r2) as [Hl Hr2]; [by right|]. split; [|done]. rewrite lookup_insert_ne; [done|].
    intros ->. apply Hk. by apply (list_elem_of_fmap_2 fst) in H2.
  - intros k2 r2 [[<- <-]|[Hne Hl]]%lookup_insert_Some; [by left|].
    destruct (Hm _ _ Hl) as [|[[= -> ->]|]%elem_of_cons]; [by left|done|by right].
Qed.
End reconcile.

(** C26. After a restart no session claims to be healthy that is not: when the
    stored sessions can be read, reconciliation leaves only sessions that say
    healthy whose route runs; the others wait for a new request. *)
Theorem reconcile_leaves_truth {Value : Type} `{SessionCodec Value} (env : Env Value) (live : string -> bool)
    (w : World Value) :
  (forall n d, env_others env n d = d) -> (forall n, env_saved env n = Ok tt) ->
  (forall n rid, env_live env n rid = live rid) -> jobs_keyed (d_jobs (w_daemon w)) ->
  (forall sid r, d_sessions (w_daemon w) !! sid = Some r -> readable sid r) ->
  exists w', reconcile_proxy_sessions env w = (Ok tt, w')
    /\ forall sid r, d_sessions (w_daemon w') !! sid = Some r -> se_state r = "healthy"%string ->
         live (se_route_id r) = true.
Proof.
  intros Hothers Hsaved Hlives Hk Hread. set (m := d_sessions (w_daemon w)) in *.
  assert (Hw : has_sessions m (advance env 0 w)) by (by apply has_sessions_advance).
  destruct (goes_reconcile_all env live Hothers Hsaved Hlives (btree_entries m) m) with (advance env 0 w)
    as ([] & w' & E & Ht); [apply NoDup_btree_keys|..|done|].
  - intros k r Hr%elem_of_btree_entries. auto.
  - intros k r Hr. right. by apply elem_of_btree_entries.
  - exists w'. split; [|exact Ht]. unfold reconcile_proxy_sessions, wait, mbind, sr_bind.
    rewrite (daemon_advance env Hothers). exact E.
Qed.

(** A session that was healthy before the restart; its route does not run. *)
Definition restarted_world : World SampleValue :=
  MkTask 0 0 (MkDaemon JobStore_default
    (<[spec_session_id sample_spec := (upsert_session_from_job 9 sample_spec
        (transition 9 Healthy PHealthy 100 sample_job) None ∅).1]> ∅) ∅) [].

Definition restarted_env : Env SampleValue :=
  MkEnv (env_now sample_env) (env_pass sample_env) (env_saved sample_env) (env_others sample_env)
    (env_install_args sample_env) (env_bootstrap_args sample_env) (env_refresh sample_env) (env_install sample_env)
    (env_record_profile sample_env) (env_route_intent sample_env) (env_stop_route sample_env) (env_route sample_env)
    (fun _ _ => false) (env_connect sample_env) (env_attempt sample_env) (env_apply sample_env) (env_cleanup sample_env)
    (env_missing_route sample_env) (env_version sample_env).

Lemma reconcile_leaves_truth_witness :
  exists w', reconcile_proxy_sessions restarted_env restarted_world = (Ok tt, w')
    /\ forall sid r, d_sessions (w_daemon w') !! sid = Some r -> se_state r = "healthy"%string -> false = true.
Proof.
  apply (reconcile_leaves_truth restarted_env (fun _ => false) restarted_world); [reflexivity..| |].
  - intros k j. cbn. by rewrite lookup_empty.
  - intros sid r Hr. change (d_sessions _) with
      (<[spec_session_id sample_spec := (upsert_session_from_job 9 sample_spec
        (transition 9 Healthy PHealthy 100 sample_job) None ∅).1]> (∅ : gmap string (ProxySessionRecord SampleValue))) in Hr.
    apply lookup_insert_Some in Hr as [[<- <-]|[_ Hr]]; [|by rewrite lookup_empty in Hr].
    eexists. split; [vm_compute; reflexivity|]. vm_compute. reflexivity.
Defined.

(** A session whose job was interrupted by the restart. *)
Definition interrupted_world : World SampleValue :=
  MkTask 0 0 (MkDaemon JobStore_default
    (<[spec_session_id sample_spec := (upsert_session_from_job 9 sample_spec sample_job None ∅).1]> ∅) ∅) [].

(** Reconciliation leaves its job waiting, without a blocker; the next request
    takes that for a job that is on its way: it is answered with the job, and
    no task is started. *)
Example interrupted_session_stranded :
  let w := (reconcile_proxy_sessions restarted_env interrupted_world).2 in
  match ensure_proxy_session restarted_env (request_for sample_spec) w with
  | (Ok r, _) => er_reused r = true /\ er_spawned r = None /\ job_state (er_job r) = WaitingRetry
  | (Err _, _) => False
  end.
Proof. vm_compute. auto. Qed.
