(* ===== verification/Atomic.v ===== *)
(** * Tasks over shared memory

    The runtimes of the native transports ([ssh_native.rs],
    [quic_native/runtime.rs]) are tasks that share atomics and mutexes.  A
    task is a [Prog]: a tree with one node per atomic operation on the shared
    memory ([Atomic], which may have to wait) and one per answer it awaits
    from outside ([Ask]: the network, the clock).  A pool runs any number of
    tasks under any schedule, one node at a time, so that every interleaving
    of the atomic operations is an execution.

    [wp] is the proof rule: every task owns a ghost, and an invariant relates
    the memory to the ghosts of all tasks.  Each task is verified alone;
    [pool_wp] puts them together. *)
From S2P Require Import Prelude Mux.
From Stdlib Require Import Wellfounded.Inclusion Wellfounded.Inverse_Image.

(** The pieces of a task that an invariant does not see. *)
Create HintDb atomics.

Section programs.
Context {M : Type} {Q : Type -> Type}.

Inductive Prog (A : Type) : Type :=
| Ret (a : A)
| Atomic {X : Type} (f : M -> option (X * M)) (k : X -> Prog A)
| Ask {X : Type} (q : Q X) (k : X -> Prog A).
#[global] Arguments Ret {A} a.
#[global] Arguments Atomic {A X} f k.
#[global] Arguments Ask {A X} q k.

#[global] Instance Prog_ret : MRet Prog := fun A a => Ret a.
#[global] Instance Prog_bind : MBind Prog := fun A B f =>
  fix go (p : Prog A) : Prog B :=
    match p with
    | Ret a => f a
    | Atomic g k => Atomic g (fun x => go (k x))
    | Ask q k => Ask q (fun x => go (k x))
    end.

(** One atomic operation, one that may block, and one answer from outside. *)
Definition atomically {X} (f : M -> X * M) : Prog X := Atomic (fun m => Some (f m)) Ret.
Definition waiting {X} (f : M -> option (X * M)) : Prog X := Atomic f Ret.
Definition ask {X} (q : Q X) : Prog X := Ask q Ret.

(** ** Pools *)

Record Pool (A : Type) := MkPool { mem : M; tasks : list (Prog A); clock : nat }.
#[global] Arguments MkPool {A}.
#[global] Arguments mem {A}.
#[global] Arguments tasks {A}.
#[global] Arguments clock {A}.

(** What the outside answers, at each moment. *)
Definition Oracle := nat -> forall X : Type, Q X -> X.

(** One node of a task; [None] when the task is finished or has to wait. *)
Definition task_step {A} (env : Oracle) (s : Pool A) (i : nat) : option (Pool A) :=
  match tasks s !! i with
  | Some (Atomic f k) =>
    match f (mem s) with
    | Some (x, m) => Some (MkPool m (<[i := k x]> (tasks s)) (S (clock s)))
    | None => None
    end
  | Some (Ask q k) => Some (MkPool (mem s) (<[i := k (env (clock s) _ q)]> (tasks s)) (S (clock s)))
  | _ => None
  end.

Definition finished {A} (p : Prog A) : bool := match p with Ret _ => true | _ => false end.

(** ** Termination

    A program has no loops, so a pool of programs cannot run for ever. *)

Definition child {A} (p' p : Prog A) : Prop :=
  match p with
  | Ret _ => False
  | Atomic _ k => exists x, p' = k x
  | Ask _ k => exists x, p' = k x
  end.

Lemma child_wf {A} (p : Prog A) : Acc child p.
Proof. induction p as [a|X f k IH|X q k IH]; constructor; [done| |]; intros p' [x ->]; apply IH. Qed.

Definition one_child {A} (l' l : list (Prog A)) : Prop :=
  exists i p p', l !! i = Some p /\ child p' p /\ l' = <[i := p']> l.

Lemma one_child_wf {A} (l : list (Prog A)) : Acc one_child l.
Proof.
  induction l as [|p l IHl]; [constructor; by intros l' (i & p & p' & ? & _)|].
  revert l IHl. induction (child_wf p) as [p _ IHp]. intros l Hl.
  induction Hl as [l Hl IHl]. constructor. intros l' ([|i] & q & q' & Hq & Hc & ->).
  - cbn in Hq. simplify_eq. apply IHp; [done|by constructor].
  - apply IHl. exists i, q, q'. done.
Qed.

Lemma task_step_child {A} env (s s' : Pool A) i : task_step env s i = Some s' -> one_child (tasks s') (tasks s).
Proof.
  unfold task_step. intros Hs. destruct (tasks s !! i) as [[|X f k|X q k]|] eqn:Hp; try done.
  - destruct (f (mem s)) as [[x m]|]; simplify_eq. exists i, (Atomic f k), (k x). cbn. eauto.
  - simplify_eq. exists i, (Ask q k). eexists. cbn. eauto.
Qed.

Lemma pool_terminates {A} env (s : Pool A) : Acc (fun s' s => exists i, task_step env s i = Some s') s.
Proof.
  apply (Acc_incl _ _ (fun s' s => one_child (tasks s') (tasks s))).
  { intros s1 s2 [i Hi]. by eapply task_step_child. }
  apply (Acc_inverse_image _ _ one_child tasks), one_child_wf.
Qed.

(** ** The proof rule *)

Section ghosts.
Context {G : Type} (Inv : M -> list G -> Prop).
(** What a task owns while it awaits an answer, and when it may wait for
    the memory. *)
Context (owns : forall X, Q X -> G -> Prop) (may_wait : M -> nat -> G -> Prop).

Fixpoint wp {A} (i : nat) (p : Prog A) (g : G) (Post : A -> G -> Prop) : Prop :=
  match p with
  | Ret a => Post a g
  | Atomic f k => forall m gs, Inv m gs -> gs !! i = Some g ->
      match f m with
      | None => may_wait m i g
      | Some (x, m') => exists g', Inv m' (<[i := g']> gs) /\ wp i (k x) g' Post
      end
  | Ask q k => owns _ q g /\ forall x, wp i (k x) g Post
  end.

Lemma wp_bind {A B} i (p : Prog A) (f : A -> Prog B) g Post :
  wp i p g (fun a g => wp i (f a) g Post) -> wp i (p ≫= f) g Post.
Proof.
  revert g. induction p as [a|X h k IH|X q k IH]; intros g; cbn; [done| |].
  - intros Hp m gs Hi Hg. specialize (Hp m gs Hi Hg). destruct (h m) as [[x m']|]; [|done].
    destruct Hp as (g' & ? & ?). exists g'. auto.
  - intros [? Hp]. split; [done|]. intros x. apply IH, Hp.
Qed.

Lemma wp_mono {A} i (p : Prog A) g (Post Post' : A -> G -> Prop) :
  (forall a g, Post a g -> Post' a g) -> wp i p g Post -> wp i p g Post'.
Proof.
  intros Hpost. revert g. induction p as [a|X h k IH|X q k IH]; intros g; cbn; [auto| |].
  - intros Hp m gs Hi Hg. specialize (Hp m gs Hi Hg). destruct (h m) as [[x m']|]; [|done].
    destruct Hp as (g' & ? & ?). exists g'. auto.
  - intros [? Hp]. split; [done|]. intros x. apply IH, Hp.
Qed.

Lemma wp_atomically {X} i (f : M -> X * M) g Post :
  (forall m gs, Inv m gs -> gs !! i = Some g ->
     exists g', Inv (f m).2 (<[i := g']> gs) /\ Post (f m).1 g') ->
  wp i (atomically f) g Post.
Proof. intros Hf m gs Hi Hg. destruct (Hf m gs Hi Hg) as (g' & ? & ?). destruct (f m). eauto. Qed.

(** An operation that changes nothing the invariant speaks of. *)
Lemma wp_atomically_same {X} i (f : M -> X * M) g (Post : X -> G -> Prop) :
  (forall m gs, Inv m gs -> gs !! i = Some g -> Inv (f m).2 gs /\ Post (f m).1 g) ->
  wp i (atomically f) g Post.
Proof.
  intros Hf. apply wp_atomically. intros m gs Hi Hg. exists g.
  rewrite list_insert_id by done. by apply Hf.
Qed.

Lemma wp_ask {X} i (q : Q X) g Post :
  owns _ q g -> (forall x, Post x g) -> wp i (ask q) g Post.
Proof. done. Qed.

(** A piece of a task that the invariant does not see. *)
Definition quiet {A} (p : Prog A) : Prop := forall i g (Post : A -> G -> Prop), (forall a, Post a g) -> wp i p g Post.

Lemma quiet_value {A} (a : A) : quiet (mret a).
Proof. intros i g Post HP. apply HP. Qed.

Lemma quiet_then {A B} (p : Prog A) (f : A -> Prog B) : quiet p -> (forall a, quiet (f a)) -> quiet (p ≫= f).
Proof. intros Hp Hf i g Post HP. apply wp_bind, Hp. intros a. by apply Hf. Qed.

Lemma quiet_atomically {X} (f : M -> X * M) : (forall m gs, Inv m gs -> Inv (f m).2 gs) -> quiet (atomically f).
Proof. intros Hf i g Post HP. apply wp_atomically_same. auto. Qed.

Lemma quiet_ask {X} (q : Q X) : (forall g, owns _ q g) -> quiet (ask q).
Proof. intros Hq i g Post HP. by apply wp_ask. Qed.

Lemma quiet_mapM {A B} (f : A -> Prog B) l : (forall a, quiet (f a)) -> quiet (mapM f l).
Proof.
  intros Hf. induction l as [|a l IH]; [apply quiet_value|]. apply quiet_then; [done|]. intros b.
  apply quiet_then; [done|]. intros bs. apply quiet_value.
Qed.

Lemma wp_quiet {A B} i (p : Prog A) (f : A -> Prog B) g Post :
  quiet p -> (forall a, wp i (f a) g Post) -> wp i (p ≫= f) g Post.
Proof. intros Hp Hf. apply wp_bind, Hp, Hf. Qed.

(** Every task keeps its proof, whatever the schedule and the answers. *)
Definition pool_ok {A} (Post : nat -> A -> G -> Prop) (s : Pool A) (gs : list G) : Prop :=
  Inv (mem s) gs /\ length gs = length (tasks s) /\
  forall i p g, tasks s !! i = Some p -> gs !! i = Some g -> wp i p g (Post i).

Lemma pool_ok_step {A} Post env (s s' : Pool A) i gs :
  pool_ok Post s gs -> task_step env s i = Some s' -> exists gs', pool_ok Post s' gs'.
Proof.
  intros (Hi & Hl & Hw) Hs. unfold task_step in Hs.
  destruct (tasks s !! i) as [p|] eqn:Hp; [|done].
  destruct (lookup_lt_is_Some_2 gs i) as [g Hg]; [rewrite Hl; by eapply lookup_lt_Some|].
  pose proof (Hw _ _ _ Hp Hg) as Hpg.
  destruct p as [a|X f k|X q k]; [done| |].
  - cbn in Hpg. specialize (Hpg _ _ Hi Hg). destruct (f (mem s)) as [[x m']|]; [|done].
    destruct Hpg as (g' & Hi' & Hk). simplify_eq. exists (<[i := g']> gs).
    split; [done|]. cbn. rewrite !length_insert. split; [done|].
    intros j p' h Hj Hh. destruct (decide (i = j)) as [->|Hne].
    + rewrite list_lookup_insert_eq in Hj by (by eapply lookup_lt_Some).
      rewrite list_lookup_insert_eq in Hh by (by eapply lookup_lt_Some). by simplify_eq.
    + rewrite list_lookup_insert_ne in Hj by done. rewrite list_lookup_insert_ne in Hh by done. eauto.
  - cbn in Hpg. destruct Hpg as [_ Hk]. simplify_eq. exists gs. split; [done|].
    cbn. rewrite length_insert. split; [done|].
    intros j p' h Hj Hh. destruct (decide (i = j)) as [->|Hne].
    + rewrite list_lookup_insert_eq in Hj by (by eapply lookup_lt_Some). by simplify_eq.
    + rewrite list_lookup_insert_ne in Hj by done. eauto.
Qed.

Lemma pool_wp {A} Post env (s s' : Pool A) sched gs :
  pool_ok Post s gs -> runs (task_step env) s sched = Some s' -> exists gs', pool_ok Post s' gs'.
Proof.
  intros Hs Hr.
  apply (runs_invariant (task_step env) (fun s => exists gs, pool_ok Post s gs) s sched s'); eauto.
  intros s1 e s2 [gs1 H1] Hstep. by eapply pool_ok_step.
Qed.

(** A task that cannot run is finished or may wait. *)
Lemma stuck_waits {A} Post env (s : Pool A) gs i p g :
  pool_ok Post s gs -> tasks s !! i = Some p -> gs !! i = Some g ->
  task_step env s i = None -> (exists a, p = Ret a /\ Post i a g) \/ may_wait (mem s) i g.
Proof.
  intros (Hi & Hl & Hw) Hp Hg Hs. pose proof (Hw _ _ _ Hp Hg) as Hpg.
  unfold task_step in Hs. rewrite Hp in Hs. destruct p as [a|X f k|X q k]; [left; eauto| |done].
  cbn in Hpg. specialize (Hpg _ _ Hi Hg). destruct (f (mem s)) as [[]|]; [done|auto].
Qed.

End ghosts.
End programs.
Arguments Prog : clear implicits.
Arguments Pool : clear implicits.
Arguments Oracle : clear implicits.

(** ** Counting ghosts *)

Section counting.
Context {G : Type} (P : G -> bool).

(** How many tasks own something. *)
Definition owners (gs : list G) : Z := len (filter (fun g => P g = true) gs).

Lemma owners_nonneg gs : 0 <= owners gs.
Proof. unfold owners. lia. Qed.

Lemma owners_le gs : owners gs <= len gs.
Proof. unfold owners. pose proof (length_filter (fun g => P g = true) gs). lia. Qed.

Lemma owners_insert gs i g g' :
  gs !! i = Some g -> owners (<[i := g']> gs) = owners gs - Z.b2z (P g) + Z.b2z (P g').
Proof.
  unfold owners. intros Hg. rewrite insert_take_drop by (by eapply lookup_lt_Some).
  rewrite <-(take_drop_middle gs i g Hg) at 3.
  rewrite !filter_app, !length_app, !filter_cons.
  destruct (P g) eqn:?, (P g') eqn:?; repeat case_decide; cbn [length Z.b2z]; try congruence; lia.
Qed.

Lemma owners_wrap w gs : len gs < 2 ^ w -> wrap_u w (owners gs) = owners gs.
Proof. intros. apply wrap_u_small. unfold in_u. pose proof (owners_nonneg gs). pose proof (owners_le gs). lia. Qed.

Lemma owners_pos gs i g : gs !! i = Some g -> P g = true -> 1 <= owners gs.
Proof.
  intros Hg HP. unfold owners. rewrite <-(take_drop_middle gs i g Hg), filter_app, filter_cons, length_app.
  case_decide; [cbn; lia|congruence].
Qed.

Lemma owners_none gs : (forall g, g ∈ gs -> P g = false) -> owners gs = 0.
Proof.
  intros Hall. unfold owners. induction gs as [|g gs IH]; [done|].
  rewrite filter_cons, decide_False; [apply IH; intros; apply Hall; by right|].
  rewrite Hall by (by left). done.
Qed.

(** Counted through another list, element by element. *)
Lemma owners_as {T} (count : T -> bool) gs (ts : list T) :
  length gs = length ts ->
  (forall i g t, gs !! i = Some g -> ts !! i = Some t -> P g = count t) ->
  owners gs = len (filter (fun t => count t = true) ts).
Proof.
  unfold owners. revert ts. induction gs as [|g gs IH]; intros [|t ts] Hl Hall; try done.
  injection Hl as Hl.
  assert (Hh : P g = count t) by (by apply (Hall 0%nat)).
  assert (IH' := IH ts Hl (fun i g t => Hall (S i) g t)).
  rewrite !filter_cons, <-Hh. case_decide; cbn [length]; lia.
Qed.

End counting.

(** ** Atomics and small mutexes

    The memory of a runtime: atomics by name, the mutexes that hold a text
    and are released at once, and the rest of its state. *)

Record Shared (K N S : Type) := MkShared { cells : K -> Z; notes : N -> option string; guarded : S }.
Arguments MkShared {K N S}.
Arguments cells {K N S}.
Arguments notes {K N S}.
Arguments guarded {K N S}.

Section atomics.
Context {K N S : Type} `{EqDecision K} `{EqDecision N} {Q : Type -> Type}.
Abbreviation shared := (Shared K N S).
Abbreviation prog := (Prog shared Q).

Definition put (k : K) (v : Z) (m : shared) : shared :=
  MkShared (fun k' => if decide (k' = k) then v else cells m k') (notes m) (guarded m).

Definition load (k : K) : prog Z := atomically (fun m => (cells m k, m)).
Definition store (k : K) (v : Z) : prog unit := atomically (fun m => (tt, put k v m)).
Definition swap (k : K) (v : Z) : prog Z := atomically (fun m => (cells m k, put k v m)).

(** [fetch_add] and [fetch_sub] of a [w]-bit atomic. *)
Definition fetch_add (w : Z) (k : K) (n : Z) : prog Z :=
  atomically (fun m => (cells m k, put k (wrap_u w (cells m k + n)) m)).
Definition fetch_sub (w : Z) (k : K) (n : Z) : prog Z :=
  atomically (fun m => (cells m k, put k (wrap_u w (cells m k - n)) m)).

(** [fetch_update(.., |value| value.checked_sub(1)).ok()]. *)
Definition fetch_checked_sub (k : K) : prog unit :=
  atomically (fun m => (tt, if cells m k =? 0 then m else put k (cells m k - 1) m)).

(** An atomic maximum. *)
Definition fetch_max (k : K) (v : Z) : prog unit :=
  atomically (fun m => (tt, put k (Z.max (cells m k) v) m)).

(** [*mutex.lock() = v] and [mutex.lock().clone()]. *)
Definition note (n : N) (v : option string) : prog unit := atomically (fun m =>
  (tt, MkShared (cells m) (fun n' => if decide (n' = n) then v else notes m n') (guarded m))).
Definition read_note (n : N) : prog (option string) := atomically (fun m => (notes m n, m)).

Lemma put_eq k v m : cells (put k v m) k = v.
Proof. cbn. by rewrite decide_True. Qed.
Lemma put_ne k k' v m : k' <> k -> cells (put k v m) k' = cells m k'.
Proof. intros. cbn. by rewrite decide_False. Qed.

(** ** A task that runs alone *)

Fixpoint alone {A} (env : Oracle Q) (p : prog A) (t : nat) (m : shared) : option (A * nat * shared) :=
  match p with
  | Ret a => Some (a, t, m)
  | Atomic f k => match f m with Some (x, m) => alone env (k x) (Datatypes.S t) m | None => None end
  | Ask q k => alone env (k (env t _ q)) (Datatypes.S t) m
  end.

Lemma alone_bind {A B} env (p : prog A) (f : A -> prog B) t m :
  alone env (p ≫= f) t m = '(a, t, m) ← alone env p t m; alone env (f a) t m.
Proof.
  revert t m. induction p as [a|X g k IH|X q k IH]; intros t m; [done| |apply IH].
  cbn. destruct (g m) as [[x m']|]; [apply IH|done].
Qed.

Lemma alone_then {A B} env (p : prog A) (f : A -> prog B) t m a t' m' :
  alone env p t m = Some (a, t', m') -> alone env (p ≫= f) t m = alone env (f a) t' m'.
Proof. intros Hp. by rewrite alone_bind, Hp. Qed.

(** A program that only reads. *)
Definition reads {A} (p : prog A) (f : shared -> A) : Prop :=
  forall env t m, exists t', alone env p t m = Some (f m, t', m).

Lemma reads_load k : reads (load k) (fun m => cells m k).
Proof. intros env t m. by eexists. Qed.

Lemma reads_value {A} (a : A) : reads (mret a) (fun _ => a).
Proof. intros env t m. by eexists. Qed.

Lemma reads_then {A B} (p : prog A) (k : A -> prog B) f g :
  reads p f -> (forall a, reads (k a) (g a)) -> reads (p ≫= k) (fun m => g (f m) m).
Proof.
  intros Hp Hk env t m. rewrite alone_bind. destruct (Hp env t m) as [t1 ->]. apply Hk.
Qed.

Lemma reads_mapM {A B} (p : A -> prog B) f l :
  (forall a, reads (p a) (f a)) -> reads (mapM p l) (fun m => (fun a => f a m) <$> l).
Proof.
  intros Hp env t m. revert t. induction l as [|a l IH]; intros t; [by eexists|].
  cbn [mapM]. rewrite alone_bind. destruct (Hp a env t m) as [t1 ->].
  cbn [mbind option_bind]. rewrite alone_bind. destruct (IH t1) as [t2 ->]. by eexists.
Qed.

End atomics.
