(* ===== verification/Metrics.v ===== *)
(** * Latency metrics

    The counters both native transports keep of their flows
    ([ssh_native.rs], [ssh_native/metrics_guard.rs], [quic_native/metrics.rs]):
    samples with their last, largest and total value, a histogram, and the
    percentiles read from it. *)
From S2P Require Import Prelude Mux Atomic.

(** [Duration::as_millis] is 128 bits wide; [try_into] fails above [u64]. *)
Definition duration_millis (millis : N) : Z := Z.min (Z.of_N millis) (u_max 64).

Definition last_sampled_u64 (sample_count value : Z) : option Z :=
  if sample_count >? 0 then Some value else None.

Definition average_sampled_u64 (sample_count total : Z) : option Z :=
  if sample_count =? 0 then None else Some (total / sample_count).

(** ** The loop of [update_atomic_max]

    [current] is what the loop read last; [obs] are the values the atomic has
    at the following exchanges, with a flag for the failures a weak exchange
    may have without cause.  The result is what is written, [None] when
    nothing is; no result means that the loop is still running. *)
Fixpoint update_atomic_max (candidate current : Z) (obs : list (Z * bool)) : option (option Z) :=
  if candidate >? current then
    match obs with
    | [] => None
    | (v, spurious) :: obs =>
      if (v =? current) && negb spurious then Some (Some candidate) else update_atomic_max candidate v obs
    end
  else Some None.

(** The loop is an atomic maximum, taken at the moment of its last reading. *)
Lemma update_atomic_max_atomic candidate current obs w :
  update_atomic_max candidate current obs = Some w ->
  exists v, v ∈ current :: obs.*1 /\ default v w = Z.max v candidate.
Proof.
  revert current. induction obs as [|[v b] obs IH]; intros current; cbn.
  - destruct (Z.gtb_spec candidate current); [done|]. intros [= <-].
    exists current. split; [by left|]. cbn. lia.
  - destruct (Z.gtb_spec candidate current) as [Hgt|Hle].
    + destruct ((v =? current) && negb b) eqn:Hv.
      * intros [= <-]. apply andb_true_iff in Hv as [Hv _]. exists current.
        split; [by left|]. cbn. lia.
      * intros (u & Hu & ?)%IH. exists u. split; [by right|done].
    + intros [= <-]. exists current. split; [by left|]. cbn. lia.
Qed.

(** It ends at the first exchange that finds the value it has just seen. *)
Lemma update_atomic_max_ends candidate current v obs :
  update_atomic_max candidate current ((v, false) :: (v, false) :: obs) <> None.
Proof.
  cbn. destruct (Z.gtb_spec candidate current); [|done].
  rewrite !andb_true_r. destruct (v =? current); [done|].
  destruct (Z.gtb_spec candidate v); [|done]. by rewrite Z.eqb_refl.
Qed.

(** ** Histograms *)

Definition FIRST_BYTE_LATENCY_BUCKETS : list Z := [10; 25; 50; 100; 250; 500; 1000; 5000].
Definition FIRST_BYTE_LATENCY_BUCKET_COUNT : nat := length FIRST_BYTE_LATENCY_BUCKETS + 1.

(** [iter().position(|limit| latency_ms <= *limit)] with its default. *)
Fixpoint position_le (limits : list Z) (latency_ms : Z) : nat :=
  match limits with
  | [] => O
  | limit :: limits => if latency_ms <=? limit then O else S (position_le limits latency_ms)
  end.

Definition bucket_of (latency_ms : Z) : nat := position_le FIRST_BYTE_LATENCY_BUCKETS latency_ms.

Fixpoint percentile_loop (index : nat) (buckets : list Z) (seen target : Z) : option Z :=
  match buckets with
  | [] => Some (u_max 64)
  | bucket :: buckets =>
    let seen := saturating_add_u 64 seen bucket in
    if seen >=? target then Some (default (u_max 64) (FIRST_BYTE_LATENCY_BUCKETS !! index))
    else percentile_loop (S index) buckets seen target
  end.

Definition latency_percentile (buckets : list Z) (sample_count percentile : Z) : option Z :=
  if sample_count =? 0 then None
  else
    let product := saturating_mul_u 64 sample_count percentile in
    let target := (product + 99) / 100 in                             (* [div_ceil(100)] *)
    percentile_loop 0 buckets 0 target.

(** The atomics of one series of samples. *)
Inductive LatencyCell := Samples | TotalMs | LastMs | MaxMs | Bucket (i : nat).

#[global] Instance LatencyCell_eq_dec : EqDecision LatencyCell.
Proof. solve_decision. Defined.

Section recording.
Context {K T S : Type} `{EqDecision K} `{EqDecision T} {Q : Type -> Type}.
Context (at_cell : LatencyCell -> K).
Abbreviation shared := (Shared K T S).
Abbreviation prog := (Prog shared Q).

(** [ssh_native::record_latency_sample]. *)
Definition record_latency_sample (latency_ms : Z) : prog unit :=
  _ ← fetch_add 64 (at_cell Samples) 1;
  _ ← fetch_add 64 (at_cell TotalMs) latency_ms;
  _ ← store (at_cell LastMs) latency_ms;
  _ ← fetch_max (at_cell MaxMs) latency_ms;
  _ ← fetch_add 64 (at_cell (Bucket (bucket_of latency_ms))) 1;
  mret tt.

(** [quic_native::metrics::record_latency_sample]: no total, no histogram. *)
Definition record_latency_sample_quic (duration : N) : prog unit :=
  let millis := duration_millis duration in
  _ ← fetch_add 64 (at_cell Samples) 1;
  _ ← store (at_cell LastMs) millis;
  fetch_max (at_cell MaxMs) millis.

(** The histogram the status reads. *)
Definition read_buckets (m : shared) : list Z :=
  (fun i => cells m (at_cell (Bucket i))) <$> seq 0 FIRST_BYTE_LATENCY_BUCKET_COUNT.

(** The samples of flows that end one after the other. *)
Definition record_all (env : Oracle Q) (latencies : list Z) (m : shared) : option shared :=
  foldl (fun m latency_ms => m ← m; snd <$> alone env (record_latency_sample latency_ms) 0 m)
    (Some m) latencies.

End recording.

(** ** What a percentile is *)

(** The limits a percentile can be; the last stands for every longer time. *)
Definition percentile_limits : list Z := FIRST_BYTE_LATENCY_BUCKETS ++ [u_max 64].

(** At least [percentile] per cent of the samples are within [limit]. *)
Definition covers (latencies : list Z) (percentile limit : Z) : Prop :=
  percentile * len latencies <= 100 * len (filter (fun l => l <= limit) latencies).

Lemma filter_same {A} (P : A -> Prop) `{forall x, Decision (P x)} l : Forall P l -> filter P l = l.
Proof. induction 1 as [|x l Hx _ IH]; [done|]. by rewrite filter_cons, decide_True, IH. Qed.

Section percentiles.
Context (ls : list Z).

Definition in_bucket (i : nat) : Z := len (filter (fun l => bucket_of l = i) ls).
Definition below (i : nat) : Z := len (filter (fun l => (bucket_of l < i)%nat) ls).
Definition histogram : list Z := in_bucket <$> seq 0 FIRST_BYTE_LATENCY_BUCKET_COUNT.

Lemma below_S i : below (S i) = below i + in_bucket i.
Proof.
  unfold below, in_bucket. induction ls as [|l k IH]; [done|].
  rewrite !filter_cons. repeat case_decide; cbn [length]; lia.
Qed.

Lemma bucket_of_small l : (bucket_of l < FIRST_BYTE_LATENCY_BUCKET_COUNT)%nat.
Proof. unfold bucket_of. cbn. repeat case_match; lia. Qed.

Lemma bucket_of_lt l i limit :
  percentile_limits !! i = Some limit -> l <= u_max 64 -> (bucket_of l < S i)%nat <-> l <= limit.
Proof.
  intros Hi Hl. pose proof (bucket_of_small l).
  do 9 (destruct i as [|i]; [cbn in Hi; injection Hi as <-; unfold bucket_of in *; cbn in *;
    repeat case_match; rewrite ?Z.leb_le, ?Z.leb_gt in *; lia|]).
  done.
Qed.

Lemma below_limit i limit :
  Forall (in_u 64) ls -> percentile_limits !! i = Some limit ->
  below (S i) = len (filter (fun l => l <= limit) ls).
Proof.
  intros Hls Hi. unfold below. do 2 f_equal. induction Hls as [|l k Hl Hk IH]; [done|].
  rewrite !filter_cons, IH. unfold in_u in Hl.
  pose proof (bucket_of_lt l i limit Hi ltac:(unfold u_max; lia)).
  repeat case_decide; tauto || done.
Qed.

Lemma below_0 : below 0 = 0.
Proof. unfold below. induction ls as [|l k IH]; [done|]. rewrite filter_cons, decide_False by lia. done. Qed.

Lemma below_le i : below i <= len ls.
Proof. unfold below. pose proof (length_filter (fun l => (bucket_of l < i)%nat) ls). lia. Qed.

(** The loop stops at the first bucket that reaches the target. *)
Lemma percentile_loop_spec target k i :
  (i + k = FIRST_BYTE_LATENCY_BUCKET_COUNT)%nat -> len ls <= u_max 64 -> target <= len ls ->
  (forall j, (j < i)%nat -> below (S j) < target) ->
  Forall (in_u 64) ls -> (0 < k)%nat ->
  exists j limit, percentile_loop i (in_bucket <$> seq i k) (below i) target = Some limit /\
    percentile_limits !! j = Some limit /\ target <= below (S j) /\
    (forall j', (j' < j)%nat -> below (S j') < target).
Proof.
  intros Hk Hn Ht Hlow Hls. revert i Hk Hlow.
  induction k as [|k IH]; intros i Hk Hlow Hpos; [lia|].
  pose proof (below_le (S i)). cbn [seq fmap list_fmap percentile_loop].
  assert (Hsat : saturating_add_u 64 (below i) (in_bucket i) = below (S i)).
  { rewrite below_S in *. unfold saturating_add_u. lia. }
  rewrite Hsat. destruct (Z.geb_spec (below (S i)) target) as [Hge|Hlt].
  - exists i, (default (u_max 64) (FIRST_BYTE_LATENCY_BUCKETS !! i)).
    split_and!; [done| |done|done].
    unfold FIRST_BYTE_LATENCY_BUCKET_COUNT in Hk. cbn in Hk.
    do 9 (destruct i as [|i]; [done|]). lia.
  - assert (Hk' : (0 < k)%nat).
    { destruct k; [|lia]. exfalso.
      assert (Hi : i = 8%nat) by (unfold FIRST_BYTE_LATENCY_BUCKET_COUNT in Hk; cbn in Hk; lia).
      rewrite Hi, (below_limit 8 (u_max 64) Hls eq_refl) in Hlt.
      rewrite filter_same in Hlt; [lia|].
      eapply Forall_impl; [exact Hls|]. unfold in_u, u_max. intros; lia. }
    apply IH; [lia| |done]. intros j Hj. destruct (decide (j = i)) as [->|]; [lia|]. apply Hlow. lia.
Qed.
End percentiles.

Lemma div_ceil_le a n : (a + 99) / 100 <= n <-> a <= 100 * n.
Proof.
  split; intros H.
  - pose proof (Z.mod_pos_bound (a + 99) 100 ltac:(lia)). pose proof (Z.div_mod (a + 99) 100 ltac:(lia)). lia.
  - apply Z.lt_succ_r, Z.div_lt_upper_bound; lia.
Qed.

Lemma latency_percentile_histogram ls p :
  Forall (in_u 64) ls -> ls <> [] -> 0 <= p <= 100 -> 100 * len ls <= u_max 64 ->
  exists limit, latency_percentile (histogram ls) (len ls) p = Some limit /\
    limit ∈ percentile_limits /\ covers ls p limit /\
    (forall limit', limit' ∈ percentile_limits -> covers ls p limit' -> limit <= limit').
Proof.
  intros Hls Hne Hp Hn. unfold latency_percentile.
  assert (Hlen : 0 < len ls) by (destruct ls; [done|cbn; lia]).
  destruct (Z.eqb_spec (len ls) 0); [lia|].
  assert (Hprod : saturating_mul_u 64 (len ls) p = p * len ls).
  { unfold saturating_mul_u. nia. }
  rewrite Hprod.
  destruct (percentile_loop_spec ls ((p * len ls + 99) / 100) FIRST_BYTE_LATENCY_BUCKET_COUNT 0)
    as (j & limit & Hloop & Hj & Hge & Hlow); try done; try lia.
  { apply div_ceil_le. nia. }
  { cbn. lia. }
  rewrite below_0 in Hloop. exists limit. split; [exact Hloop|].
  assert (Hcov : forall j' l', percentile_limits !! j' = Some l' ->
    covers ls p l' <-> (p * len ls + 99) / 100 <= below ls (S j')).
  { intros j' l' Hj'. unfold covers. rewrite (below_limit ls j' l' Hls Hj'). symmetry. apply div_ceil_le. }
  split_and!; [by eapply list_elem_of_lookup_2|by eapply Hcov|].
  intros l' (j' & Hj')%list_elem_of_lookup Hc. apply (Hcov _ _ Hj') in Hc.
  assert (Hjj : (j <= j')%nat).
  { destruct (decide (j' < j)%nat); [|lia]. specialize (Hlow j' ltac:(lia)). lia. }
  pose proof (lookup_lt_Some _ _ _ Hj') as Hlt. cbn in Hlt.
  do 9 (destruct j' as [|j']; [do 9 (destruct j as [|j]; [cbn in *; simplify_eq; unfold u_max; lia|]); lia|]). lia.
Qed.

(** ** The metrics of a series *)

Section series.
Context {K T S : Type} `{EqDecision K} `{EqDecision T} {Q : Type -> Type}.
Context (at_cell : LatencyCell -> K) `{!Inj (=) (=) at_cell}.

(** What the atomics hold after the samples [ls]. *)
Record recorded (ls : list Z) (m : Shared K T S) : Prop := {
  rec_samples : cells m (at_cell Samples) = wrap_u 64 (len ls);
  rec_total : cells m (at_cell TotalMs) = wrap_u 64 (foldl Z.add 0 ls);
  rec_last : cells m (at_cell LastMs) = default 0 (last ls);
  rec_max : cells m (at_cell MaxMs) = foldl Z.max 0 ls;
  rec_buckets i : cells m (at_cell (Bucket i)) = wrap_u 64 (in_bucket ls i);
}.

Lemma wrap_u_add_l w a b : wrap_u w (wrap_u w a + b) = wrap_u w (a + b).
Proof. unfold wrap_u. apply Zplus_mod_idemp_l. Qed.

Lemma in_bucket_snoc ls l i : in_bucket (ls ++ [l]) i = in_bucket ls i + (if decide (bucket_of l = i) then 1 else 0).
Proof.
  unfold in_bucket. rewrite filter_app, length_app, filter_cons.
  case_decide; cbn [length filter list_filter]; lia.
Qed.

Lemma record_latency_sample_spec (env : Oracle Q) t ls l m :
  recorded ls m ->
  exists t' m', alone env (record_latency_sample at_cell l) t m = Some (tt, t', m') /\ recorded (ls ++ [l]) m' /\
    (forall k, (forall c, k <> at_cell c) -> cells m' k = cells m k).
Proof.
  intros [Hs Ht Hl Hm Hb]. eexists _, _. split; [reflexivity|].
  assert (Hne : forall c c', c <> c' -> at_cell c <> at_cell c') by (intros c c' Hc Heq%(inj at_cell); done).
  split; [split|].
  1-5: intros; repeat first [rewrite put_eq|rewrite put_ne by (by apply Hne)].
  - rewrite Hs, wrap_u_add_l, length_app. f_equal. cbn. lia.
  - by rewrite Ht, wrap_u_add_l, foldl_app.
  - by rewrite last_snoc.
  - by rewrite Hm, foldl_app.
  - rewrite in_bucket_snoc. destruct (decide (bucket_of l = i)) as [<-|Hi].
    + rewrite put_eq. repeat rewrite put_ne by (by apply Hne). by rewrite Hb, wrap_u_add_l.
    + rewrite put_ne by (apply Hne; congruence). repeat rewrite put_ne by (by apply Hne).
      by rewrite Hb, Z.add_0_r.
  - intros k Hk. by rewrite !put_ne by done.
Qed.

Lemma record_all_spec (env : Oracle Q) ls pre m :
  recorded pre m -> exists m', record_all at_cell env ls m = Some m' /\ recorded (pre ++ ls) m'.
Proof.
  unfold record_all. revert pre m. induction ls as [|l ls IH]; intros pre m Hm.
  - exists m. by rewrite app_nil_r.
  - destruct (record_latency_sample_spec env 0 pre l m Hm) as (t1 & m1 & Ha & Hm1 & _).
    cbn [foldl mbind option_bind]. rewrite Ha. cbn [fmap option_fmap option_map snd].
    destruct (IH _ _ Hm1) as (m' & Hf & Hm'). exists m'. split; [exact Hf|].
    by rewrite cons_middle, (assoc_L (++)).
Qed.

Lemma recorded_zero m : (forall c, cells m (at_cell c) = 0) -> recorded [] m.
Proof. intros H0. split; intros; by rewrite H0. Qed.

Lemma read_buckets_histogram ls m : recorded ls m -> len ls <= u_max 64 -> read_buckets at_cell m = histogram ls.
Proof.
  intros Hm Hn. unfold read_buckets, histogram. apply list_fmap_ext. intros _ i _.
  rewrite (rec_buckets _ _ Hm). apply wrap_u_small. unfold in_u, in_bucket.
  pose proof (length_filter (fun l => bucket_of l = i) ls). unfold u_max in Hn. lia.
Qed.

End series.

(** The percentiles of the first byte latencies: after any latencies have
    been recorded, the [p]-th percentile that the status reports is the least
    limit of the histogram that at least [p] per cent of them do not exceed. *)
Theorem latency_percentile_exact {K T S : Type} `{EqDecision K} `{EqDecision T} {Q : Type -> Type}
    (at_cell : LatencyCell -> K) `{!Inj (=) (=) at_cell} (env : Oracle Q)
    (m : Shared K T S) (ls : list Z) (p : Z) :
  (forall c, cells m (at_cell c) = 0) ->
  Forall (in_u 64) ls -> ls <> [] -> 0 <= p <= 100 -> 100 * len ls <= u_max 64 ->
  exists m' limit, record_all at_cell env ls m = Some m' /\
    latency_percentile (read_buckets at_cell m') (cells m' (at_cell Samples)) p = Some limit /\
    limit ∈ percentile_limits /\ covers ls p limit /\
    (forall limit', limit' ∈ percentile_limits -> covers ls p limit' -> limit <= limit').
Proof.
  intros H0 Hls Hne Hp Hn.
  destruct (record_all_spec at_cell env ls [] m (recorded_zero _ _ H0)) as (m' & Hr & Hm').
  destruct (latency_percentile_histogram ls p Hls Hne Hp Hn) as (limit & Hl & Hrest).
  exists m', limit. split; [done|]. split; [|done].
  rewrite (read_buckets_histogram at_cell ls m' Hm') by lia.
  rewrite (rec_samples _ _ _ Hm'), wrap_u_small; [done|]. unfold in_u, u_max in *. cbn in *. lia.
Qed.

Definition no_answer : Oracle (fun X => X) := fun _ _ q => q.
Definition fresh_series : Shared LatencyCell unit unit := MkShared (fun _ => 0) (fun _ => None) tt.

Lemma latency_percentile_exact_witness :
  exists m' limit, record_all id no_answer [7; 180; 12; 9000; 40; 33; 41; 90; 22; 18] fresh_series = Some m' /\
    latency_percentile (read_buckets id m') (cells m' Samples) 95 = Some limit /\
    limit ∈ percentile_limits /\ covers [7; 180; 12; 9000; 40; 33; 41; 90; 22; 18] 95 limit /\
    (forall limit', limit' ∈ percentile_limits ->
      covers [7; 180; 12; 9000; 40; 33; 41; 90; 22; 18] 95 limit' -> limit <= limit').
Proof.
  apply (latency_percentile_exact id no_answer fresh_series [7; 180; 12; 9000; 40; 33; 41; 90; 22; 18] 95);
    [done| |done|lia|cbn; unfold u_max; lia].
  repeat constructor; vm_compute; congruence.
Defined.
