(* ===== verification/SshNative.v ===== *)
(** * The SSH-native data plane

    [crates/ssh-proxy/src/ssh_native.rs] with [ssh_native/scheduler.rs],
    [ssh_native/metrics_guard.rs], the tunnel of [socks.rs] and the relay of
    [socks/relay.rs] that use it.  A route keeps a pool of SSH sessions; every
    client gets a channel on one of them.  The pool grows while its sessions
    are busy; otherwise the session with the lowest score is taken.  Counters
    of sessions and of the route are atomics that all clients update.

    Each client is a task over the shared memory of [Atomic]; the environment
    answers for the network, the clock and russh. *)
From S2P Require Import Prelude RustStr Mux Frontend Atomic Metrics.

(** ** The scheduler *)

Definition RECENT_FAILURE_WINDOW_MS : Z := 30000.
Definition SSH_SESSION_GROWTH_MIN_ACTIVE_CHANNELS : Z := 2.

Record SessionScoreComponents := MkScore {
  active_channels : Z;
  open_failures : Z;
  last_open_latency_ms : Z;
  first_byte_latency_ms : Z;
  bytes_in_flight : Z;
  recent_failure_penalty : Z;
  error_closes : Z;
}.

Definition should_open_new_session (existing_sessions pool_size min_active_channels : Z) : bool :=
  (existing_sessions =? 0)
  || ((existing_sessions <? pool_size)
      && (min_active_channels >=? SSH_SESSION_GROWTH_MIN_ACTIVE_CHANNELS)).

Definition calculate_session_score (c : SessionScoreComponents) : Z :=
  let add := saturating_add_u 64 in
  let mul := saturating_mul_u 64 in
  add (add (add (add (add (add (mul (active_channels c) 10000)
    (mul (open_failures c) 1000))
    (mul (error_closes c) 750))
    (Z.min (last_open_latency_ms c) 5000))
    (Z.min (first_byte_latency_ms c) 5000))
    (bytes_in_flight c / (1024 * 1024)))
    (recent_failure_penalty c).

(** [Session::failure_age_ms]; 0 means that no open has failed. *)
Definition failure_age_ms (failed_at now_ms : Z) : option Z :=
  if failed_at >? 0 then Some (saturating_sub_u now_ms (saturating_sub_u failed_at 1)) else None.

Definition failure_penalty (failed_at now_ms : Z) : Z :=
  match failure_age_ms failed_at now_ms with
  | Some age =>
    if age <? RECENT_FAILURE_WINDOW_MS
    then saturating_add_u 64 (saturating_sub_u RECENT_FAILURE_WINDOW_MS age) 10000 else 0
  | None => 0
  end.

(** [iter().min_by_key(..)]: the first of the elements with the least key. *)
Fixpoint min_by_key {A} (l : list (Z * A)) : option (Z * A) :=
  match l with
  | [] => None
  | x :: l =>
    match min_by_key l with
    | Some y => if x.1 <=? y.1 then Some x else Some y
    | None => Some x
    end
  end.

(** ** The shared state *)

Inductive StateCounter :=
| NextSessionId | TcpOpenAttempts | TcpOpenSuccesses | TcpOpenFailures | LastTcpOpenLatencyMs
| SshSessionConnectAttempts | SshSessionConnectFailures
| SshChannelOpenAttempts | SshChannelOpenFailures | ActiveSshChannels
| TotalTcp | ActiveTcp | BytesClientToRemote | BytesRemoteToClient
| GracefulCloses | ErrorCloses
| SessionGrowthEvents | SessionGrowthSuppressed | LastChannelQueueDepth | MaxChannelQueueDepth.

Inductive SessionCounter :=
| ActiveChannels | OpenedChannels | OpenFailures | LastOpenLatencyMs | LastFailureElapsedMs
| SessionBytesClientToRemote | SessionBytesRemoteToClient
| SessionGracefulCloses | SessionErrorCloses
| SessionLastQueueDepth | SessionMaxQueueDepth.

(** The atomics of [State] and of each [Session]; a session is named by its
    place in the vector, from which none is removed.  A series has an atomic
    for each [LatencyCell]. *)
Inductive Cell :=
| St (f : StateCounter)
| StFirstByte (c : LatencyCell)
| Se (session : nat) (f : SessionCounter)
| SeFirstByte (session : nat) (c : LatencyCell).

Inductive Note := LastError | LastCloseReason | SessionLastCloseReason (session : nat).

#[global] Instance StateCounter_eq_dec : EqDecision StateCounter.
Proof. solve_decision. Defined.
#[global] Instance SessionCounter_eq_dec : EqDecision SessionCounter.
Proof. solve_decision. Defined.
#[global] Instance Cell_eq_dec : EqDecision Cell.
Proof. solve_decision. Defined.
#[global] Instance Note_eq_dec : EqDecision Note.
Proof. solve_decision. Defined.

Section runtime.
Context {Client : Type}.

Record Session := MkSession { session_id : Z; client : Client }.

(** The vector of sessions and its mutex, which is held across an await. *)
Record Sessions := MkSessions { sessions : list Session; locked_by : option nat }.

Abbreviation shared := (Shared Cell Note Sessions).

(** What the runtime awaits. *)
Inductive Question : Type -> Type :=
| ConnectProxyArgs : Question (result string Client)
| DirectTcpip (c : Client) (host : string) (port : Z) : Question (option (result string unit))  (* [None]: timed out *)
| Elapsed : Question BinNums.N                                                  (* an [Instant] in ms *)
| Respond (response : TunnelResponse) : Question (result string unit)
| RespondError (response : TunnelResponse) : Question (result string unit)
| WriteInitial (bs : list byte) : Question (result string unit)
| FirstByte (session : nat) : Question bool           (* does the relay read anything from the remote *)
| Copied (session : nat) : Question (result string (Z * Z))
| ShutdownRemote : Question unit.

Abbreviation prog := (Prog shared Question).

Record NativeArgs := {
  tcp_target : option (string * Z);
  ssh_session_pool_size : option Z;
  connect_timeout_secs : Z;
}.

(** The pool size of [State::new]. *)
Definition pool_size (args : NativeArgs) : Z :=
  Z.max (default (if tcp_target args is Some _ then 1 else 2) (ssh_session_pool_size args)) 1.

Definition State_new : shared :=
  MkShared (fun c => match c with St NextSessionId => 1 | _ => 0 end) (fun _ => None) (MkSessions [] None).

(** ** Sessions *)

Definition lock_sessions (i : nat) : prog unit := waiting (fun m =>
  match locked_by (guarded m) with
  | None => Some (tt, MkShared (cells m) (notes m) (MkSessions (sessions (guarded m)) (Some i)))
  | Some _ => None
  end).

Definition unlock_sessions : prog unit := atomically (fun m =>
  (tt, MkShared (cells m) (notes m) (MkSessions (sessions (guarded m)) None))).

Definition read_sessions : prog (list Session) := atomically (fun m => (sessions (guarded m), m)).

(** The atomics of a new session start at 0, which is what they hold here
    before it exists. *)
Definition push_session (s : Session) : prog unit := atomically (fun m =>
  (tt, MkShared (cells m) (notes m) (MkSessions (sessions (guarded m) ++ [s]) (locked_by (guarded m))))).

Definition session_score_components (s : nat) (now_ms : Z) : prog SessionScoreComponents :=
  active ← load (Se s ActiveChannels);
  failures ← load (Se s OpenFailures);
  latency ← load (Se s LastOpenLatencyMs);
  samples ← load (SeFirstByte s Samples);
  last ← load (SeFirstByte s LastMs);
  error_closes ← load (Se s SessionErrorCloses);
  sent ← load (Se s SessionBytesClientToRemote);
  received ← load (Se s SessionBytesRemoteToClient);
  failed_at ← load (Se s LastFailureElapsedMs);
  mret (MkScore active failures latency (default 0 (last_sampled_u64 samples last))
    (saturating_add_u 64 sent received) (failure_penalty failed_at now_ms) error_closes).

Definition session_score (s : nat) (now_ms : Z) : prog Z :=
  components ← session_score_components s now_ms;
  mret (calculate_session_score components).

Definition acquire_session_channel (s : nat) : prog unit :=
  queue_depth ← fetch_add 32 (Se s ActiveChannels) 1;
  _ ← fetch_add 64 (St ActiveSshChannels) 1;
  _ ← fetch_add 64 (St SshChannelOpenAttempts) 1;
  _ ← store (Se s SessionLastQueueDepth) queue_depth;
  _ ← fetch_max (Se s SessionMaxQueueDepth) queue_depth;
  _ ← store (St LastChannelQueueDepth) queue_depth;
  fetch_max (St MaxChannelQueueDepth) queue_depth.

(** [iter().min().unwrap_or(0)]. *)
Definition least (counts : list Z) : Z :=
  match counts with [] => 0 | c :: cs => foldl Z.min c cs end.

Definition session_empty_pool : string := "ssh-native session pool is empty".

Definition open_session (s : nat) : prog (result string (nat * Session)) :=
  _ ← fetch_add 64 (St SshSessionConnectAttempts) 1;
  id ← fetch_add 32 (St NextSessionId) 1;
  connected ← ask ConnectProxyArgs;
  match connected with
  | Err e =>
    _ ← fetch_add 64 (St SshSessionConnectFailures) 1;
    _ ← note LastError (Some e);
    _ ← unlock_sessions;
    mret (Err e)
  | Ok c =>
    let session := MkSession id c in
    _ ← push_session session;
    _ ← fetch_add 64 (St SessionGrowthEvents) 1;
    _ ← acquire_session_channel s;
    _ ← unlock_sessions;
    mret (Ok (s, session))
  end.

Definition score_session (now_ms : Z) (held : nat * Session) : prog (Z * (nat * Session)) :=
  score ← session_score held.1 now_ms;
  mret (score, held).

Definition choose_session (all : list Session) : prog (result string (nat * Session)) :=
  elapsed ← ask Elapsed;
  scored ← mapM (score_session (duration_millis elapsed)) (imap pair all);
  match min_by_key scored with
  | None => _ ← unlock_sessions; mret (Err session_empty_pool)
  | Some (_, held) => _ ← acquire_session_channel held.1; _ ← unlock_sessions; mret (Ok held)
  end.

(** [State::session]: the mutex is released when the function returns. *)
Definition session (args : NativeArgs) (i : nat) : prog (result string (nat * Session)) :=
  _ ← lock_sessions i;
  all ← read_sessions;
  let n := length all in
  counts ← mapM (fun s => load (Se s ActiveChannels)) (seq 0 n);
  let min_active_channels := least counts in
  let all_sessions_busy := negb (Nat.eqb n 0) && (min_active_channels >? 0) in
  _ ← (if (Z.of_nat n >? 0) && (Z.of_nat n <? pool_size args) && all_sessions_busy
          && (min_active_channels <? SSH_SESSION_GROWTH_MIN_ACTIVE_CHANNELS)
       then _ ← fetch_add 64 (St SessionGrowthSuppressed) 1; mret tt else mret tt);
  if should_open_new_session (Z.of_nat n) (pool_size args) min_active_channels
  then open_session n
  else choose_session all.

(** ** Streams *)

(** A stream: its session and what its owner has recorded of it. *)
Record Stream := MkStream { stream_session : nat; close_recorded : bool }.

(** [RuntimeCounterGuard::drop] of an armed guard, and the end of
    [Stream::drop]. *)
Definition release_channel (s : nat) : prog unit :=
  _ ← fetch_sub 32 (Se s ActiveChannels) 1;
  _ ← fetch_sub 64 (St ActiveSshChannels) 1;
  mret tt.

Definition direct_tcpip_timeout (args : NativeArgs) (host : string) (port : Z) : string :=
  "ssh-native direct-tcpip to " +:+ host +:+ ":" +:+ display_uint port +:+ " timed out after "
  +:+ display_uint (Z.max (connect_timeout_secs args) 1) +:+ "s".

Definition open_stream (args : NativeArgs) (i : nat) (host : string) (port : Z) : prog (result string Stream) :=
  chosen ← session args i;
  match chosen with
  | Err e => mret (Err e)
  | Ok (s, session) =>
    opened ← ask (DirectTcpip (client session) host port);
    match default (Err (direct_tcpip_timeout args host port)) opened with
    | Ok _ =>
      _ ← fetch_add 64 (Se s OpenedChannels) 1;
      elapsed ← ask Elapsed;
      _ ← store (Se s LastOpenLatencyMs) (duration_millis elapsed);
      _ ← note LastError None;
      mret (Ok (MkStream s false))
    | Err e =>
      _ ← fetch_add 64 (St SshChannelOpenFailures) 1;
      _ ← fetch_add 64 (Se s OpenFailures) 1;
      elapsed ← ask Elapsed;
      _ ← store (Se s LastFailureElapsedMs) (saturating_add_u 64 (duration_millis elapsed) 1);
      _ ← note LastError (Some e);
      _ ← release_channel s;
      mret (Err e)
    end
  end.

Inductive CloseKind := Graceful | ErrorClose.

Definition record_close (kind : CloseKind) (reason : string) (r : Stream) : prog Stream :=
  if close_recorded r then mret r
  else
    let s := stream_session r in
    _ ← match kind with
        | Graceful =>
          _ ← fetch_add 64 (St GracefulCloses) 1; fetch_add 64 (Se s SessionGracefulCloses) 1
        | ErrorClose =>
          _ ← fetch_add 64 (St ErrorCloses) 1; fetch_add 64 (Se s SessionErrorCloses) 1
        end;
    _ ← note LastCloseReason (Some reason);
    _ ← note (SessionLastCloseReason s) (Some reason);
    mret (MkStream s true).

(** [Stream::drop]. *)
Definition drop_stream (r : Stream) : prog unit :=
  r ← (if close_recorded r then mret r
       else record_close ErrorClose "dropped before relay recorded close" r);
  release_channel (stream_session r).

Definition record_client_to_remote_bytes (r : Stream) (bytes : Z) : prog unit :=
  _ ← fetch_add 64 (St BytesClientToRemote) bytes;
  _ ← fetch_add 64 (Se (stream_session r) SessionBytesClientToRemote) bytes;
  mret tt.

Definition record_remote_to_client_bytes (r : Stream) (bytes : Z) : prog unit :=
  _ ← fetch_add 64 (St BytesRemoteToClient) bytes;
  _ ← fetch_add 64 (Se (stream_session r) SessionBytesRemoteToClient) bytes;
  mret tt.

Definition record_first_byte_latency (r : Stream) (latency : BinNums.N) : prog unit :=
  let latency_ms := duration_millis latency in
  _ ← record_latency_sample StFirstByte latency_ms;
  record_latency_sample (SeFirstByte (stream_session r)) latency_ms.

(** [copy_bidirectional_with_sizes] on a stream whose [poll_read] records the
    latency of the first bytes it returns. *)
Definition copy_bidirectional (r : Stream) : prog (result string (Z * Z)) :=
  first ← ask (FirstByte (stream_session r));
  _ ← (if first : bool
       then elapsed ← ask Elapsed; record_first_byte_latency r elapsed
       else mret tt);
  ask (Copied (stream_session r)).

(** [relay_ssh_native_tcp]; the stream is dropped when it returns. *)
Definition relay_copy (r : Stream) : prog (result string unit) :=
  result ← copy_bidirectional r;
  match result with
  | Err e =>
    r ← record_close ErrorClose ("tcp relay copy failed: " +:+ e) r;
    _ ← drop_stream r;
    mret (Err e)
  | Ok (client_to_remote, remote_to_client) =>
    _ ← record_client_to_remote_bytes r client_to_remote;
    _ ← record_remote_to_client_bytes r remote_to_client;
    r ← record_close Graceful "tcp relay completed" r;
    _ ← ask ShutdownRemote;
    _ ← drop_stream r;
    mret (Ok tt)
  end.

Definition relay_ssh_native_tcp (r : Stream) (initial_remote : list byte) : prog (result string unit) :=
  match initial_remote with
  | [] => relay_copy r
  | _ =>
    written ← ask (WriteInitial initial_remote);
    match written with
    | Err e =>
      r ← record_close ErrorClose ("initial client bytes write failed: " +:+ e) r;
      _ ← drop_stream r;
      mret (Err e)
    | Ok _ =>
      _ ← record_client_to_remote_bytes r (len initial_remote);
      relay_copy r
    end
  end.

(** ** A client of the route ([socks::open_tunnel_ssh_native]) *)

Record Tunnel := MkTunnel {
  tunnel_host : string; tunnel_port : Z; tunnel_response : TunnelResponse; tunnel_initial : list byte }.

Definition record_tcp_open : prog unit :=
  _ ← fetch_add 64 (St TotalTcp) 1; _ ← fetch_add 64 (St ActiveTcp) 1; mret tt.
Definition record_tcp_close : prog unit := _ ← fetch_sub 64 (St ActiveTcp) 1; mret tt.

Definition tunnel_body (args : NativeArgs) (i : nat) (t : Tunnel) : prog (result string unit) :=
  _ ← fetch_add 64 (St TcpOpenAttempts) 1;
  opened ← open_stream args i (tunnel_host t) (tunnel_port t);
  match opened with
  | Err e =>
    elapsed ← ask Elapsed;
    _ ← store (St LastTcpOpenLatencyMs) (duration_millis elapsed);
    _ ← fetch_add 64 (St TcpOpenFailures) 1;
    _ ← note LastError (Some e);
    told ← ask (RespondError (tunnel_response t));
    mret match told with Ok _ => Err e | Err e' => Err e' end
  | Ok r =>
    elapsed ← ask Elapsed;
    _ ← store (St LastTcpOpenLatencyMs) (duration_millis elapsed);
    _ ← fetch_add 64 (St TcpOpenSuccesses) 1;
    _ ← note LastError None;
    told ← ask (Respond (tunnel_response t));
    match told with
    | Err e => _ ← drop_stream r; mret (Err e)
    | Ok _ => relay_ssh_native_tcp r (tunnel_initial t)
    end
  end.

(** The guard closes the connection's count whatever the outcome. *)
Definition open_tunnel_ssh_native (args : NativeArgs) (i : nat) (t : Tunnel) : prog (result string unit) :=
  _ ← record_tcp_open;
  outcome ← tunnel_body args i t;
  _ ← record_tcp_close;
  mret outcome.

(** The route with any number of clients, none of which has run. *)
Definition route_start (args : NativeArgs) (clients : list Tunnel) : Pool shared Question (result string unit) :=
  MkPool State_new (imap (open_tunnel_ssh_native args) clients) 0.

End runtime.

(** ** What the counters count *)

Section counters.
Context {Client : Type} (args : NativeArgs).
Abbreviation shared := (Shared Cell Note (@Sessions Client)).
Abbreviation prog := (Prog shared (@Question Client)).

(** What a client owns: the mutex, with the number of sessions once it has
    seen them, its place in the counter of a session and in those of the
    route. *)
Record Ghost := MkGhost {
  g_lock : bool; g_len : option nat; g_session : option nat; g_channel : bool; g_tcp : bool }.

Definition idle : Ghost := MkGhost false None None false false.
Definition accepted : Ghost := MkGhost false None None false true.
Definition served (s : nat) : Ghost := MkGhost false None (Some s) true true.

(** The counters of clients, with their widths. *)
Inductive Counter := OnSession (s : nat) | OnRoute | OfClients.

Definition cell_of (k : Counter) : Cell :=
  match k with OnSession s => Se s ActiveChannels | OnRoute => St ActiveSshChannels | OfClients => St ActiveTcp end.
Definition width_of (k : Counter) : Z := match k with OnSession _ => 32 | _ => 64 end.
Definition counted (k : Counter) (g : Ghost) : bool :=
  match k with OnSession s => bool_decide (g_session g = Some s) | OnRoute => g_channel g | OfClients => g_tcp g end.

#[global] Instance Counter_eq_dec : EqDecision Counter.
Proof. solve_decision. Defined.

#[local] Instance cell_of_inj : Inj (=) (=) cell_of.
Proof. intros [] []; cbn; congruence. Qed.

Record route_inv (m : shared) (gs : list Ghost) : Prop := {
  inv_counter k : cells m (cell_of k) = owners (counted k) gs;
  inv_small : len gs < 2 ^ 32;
  inv_pool : len (sessions (guarded m)) <= pool_size args;
  inv_locked : match locked_by (guarded m) with
               | Some i => exists g, gs !! i = Some g /\ g_lock g = true
               | None => True
               end;
  inv_lock i g : gs !! i = Some g -> g_lock g = true -> locked_by (guarded m) = Some i;
  inv_len i g n : gs !! i = Some g -> g_len g = Some n ->
    g_lock g = true /\ length (sessions (guarded m)) = n;
  inv_place i g s : gs !! i = Some g -> g_session g = Some s -> (s < length (sessions (guarded m)))%nat;
}.

Definition owns X (q : @Question Client X) (g : Ghost) : Prop :=
  match q with
  | FirstByte s | Copied s => g = served s
  | _ => True
  end.

Definition may_wait (m : shared) (i : nat) (g : Ghost) : Prop := g_lock g = false /\ locked_by (guarded m) <> None.

Abbreviation wp := (wp route_inv owns may_wait).
Abbreviation quiet := (quiet route_inv owns may_wait).

(** The atomics the invariant does not speak of. *)
Definition tracked (c : Cell) : bool :=
  match c with
  | Se _ ActiveChannels | St ActiveSshChannels | St ActiveTcp => true
  | _ => false
  end.

Lemma tracked_cell k : tracked (cell_of k) = true.
Proof. by destruct k. Qed.

Lemma route_inv_same m m' gs :
  guarded m' = guarded m -> (forall k, cells m' (cell_of k) = cells m (cell_of k)) ->
  route_inv m gs -> route_inv m' gs.
Proof. intros Hg Hc []. split; rewrite ?Hg; intros; rewrite ?Hc by done; eauto. Qed.

Lemma put_untracked k v (m : shared) gs : tracked k = false -> route_inv m gs -> route_inv (put k v m) gs.
Proof.
  intros Hk. apply route_inv_same; [done|]. intros c. apply put_ne. intros Heq.
  pose proof (tracked_cell c). congruence.
Qed.

Lemma quiet_load k : quiet (load k).
Proof. by apply quiet_atomically. Qed.
Lemma quiet_store k v : tracked k = false -> quiet (store k v).
Proof. intros. apply quiet_atomically. intros. by apply put_untracked. Qed.
Lemma quiet_fetch_add w k n : tracked k = false -> quiet (fetch_add w k n).
Proof. intros. apply quiet_atomically. intros. by apply put_untracked. Qed.
Lemma quiet_fetch_max k v : tracked k = false -> quiet (fetch_max k v).
Proof. intros. apply quiet_atomically. intros. by apply put_untracked. Qed.
Lemma quiet_note n v : quiet (note n v).
Proof. apply quiet_atomically. intros m gs. by apply route_inv_same. Qed.

#[local] Hint Resolve quiet_value quiet_load quiet_note : atomics.
#[local] Hint Extern 2 (Atomic.quiet _ _ _ (store _ _)) => apply quiet_store : atomics.
#[local] Hint Extern 2 (Atomic.quiet _ _ _ (fetch_add _ _ _)) => apply quiet_fetch_add : atomics.
#[local] Hint Extern 2 (Atomic.quiet _ _ _ (fetch_max _ _)) => apply quiet_fetch_max : atomics.
#[local] Hint Extern 2 (Atomic.quiet _ _ _ (ask _)) => apply quiet_ask; done : atomics.
#[local] Hint Extern 3 (Atomic.quiet _ _ _ (_ ≫= _)) => apply quiet_then; [|intros] : atomics.
#[local] Hint Extern 3 (Atomic.quiet _ _ _ (mapM _ _)) => apply quiet_mapM; intros : atomics.
#[local] Hint Extern 4 (Atomic.quiet _ _ _ (match ?x with _ => _ end)) => destruct x : atomics.
#[local] Hint Extern 5 (tracked _ = false) => reflexivity : atomics.

Ltac quietly := typeclasses eauto with atomics nocore.

(** *** Taking and giving back a place in a counter *)

Lemma inv_update (m m' : shared) gs i g g' :
  route_inv m gs -> gs !! i = Some g ->
  guarded m' = guarded m -> g_lock g' = g_lock g -> g_len g' = g_len g ->
  (forall s, g_session g' = Some s -> (s < length (sessions (guarded m)))%nat) ->
  (forall k, cells m' (cell_of k) = owners (counted k) (<[i := g']> gs)) ->
  route_inv m' (<[i := g']> gs).
Proof.
  intros [Hc Hn Hp Hld Hl Hlen Hpl] Hi Hg Hlock Hlen' Hs Hc'.
  pose proof (lookup_lt_Some _ _ _ Hi) as Hlt.
  split; rewrite ?Hg; try done.
  - by rewrite length_insert.
  - destruct (locked_by (guarded m)) as [j|]; [|done]. destruct Hld as (h & Hh & Hlh).
    destruct (decide (i = j)) as [<-|Hne].
    + exists g'. rewrite list_lookup_insert_eq by done. simplify_eq. split; congruence.
    + exists h. by rewrite list_lookup_insert_ne.
  - intros j h [(-> & <- & _)|[Hne Hj]]%list_lookup_insert_Some ?; [|eauto].
    apply (Hl _ _ Hi). congruence.
  - intros j h n [(-> & <- & _)|[Hne Hj]]%list_lookup_insert_Some Hgh; [|eauto].
    rewrite Hlock. apply (Hlen _ _ _ Hi). congruence.
  - intros j h s [(-> & <- & _)|[Hne Hj]]%list_lookup_insert_Some Hgh; eauto.
Qed.

(** A place in the counter of session [s] is taken by who has the mutex. *)
Definition may_enter (g g' : Ghost) : Prop := forall s, g_session g' = Some s ->
  g_session g = Some s \/ exists n, g_len g = Some n /\ (s < n)%nat.

Lemma wp_count i k d g g' (Post : Z -> Ghost -> Prop) :
  g_lock g' = g_lock g -> g_len g' = g_len g -> may_enter g g' ->
  (forall k', k' <> k -> counted k' g' = counted k' g) ->
  Z.b2z (counted k g') = Z.b2z (counted k g) + d -> (forall n, Post n g') ->
  wp i (atomically (fun m => (cells m (cell_of k),
          put (cell_of k) (wrap_u (width_of k) (cells m (cell_of k) + d)) m))) g Post.
Proof.
  intros Hl Hgr Hent Hother Hd HP. apply wp_atomically. intros m gs Hm Hi.
  exists g'. split; [|apply HP]. cbn [snd]. eapply inv_update; try done.
  { intros s [Hs|(n & Hn & Hs)]%Hent; [by eapply (inv_place _ _ Hm)|].
    destruct (inv_len _ _ Hm _ _ _ Hi Hn) as [_ <-]. done. }
  intros k'. pose proof (owners_insert (counted k') _ _ _ g' Hi) as Hins.
  destruct (decide (k' = k)) as [->|Hne].
  - rewrite put_eq, (inv_counter _ _ Hm), <-(owners_wrap _ (width_of k) (<[i:=g']> gs)).
    + f_equal. lia.
    + rewrite length_insert. pose proof (inv_small _ _ Hm). destruct k; cbn; lia.
  - rewrite put_ne by (intros ?%(inj cell_of); done). rewrite (inv_counter _ _ Hm), Hins, Hother by done. lia.
Qed.

Lemma wp_enter_session i s l k c t (Post : Z -> Ghost -> Prop) :
  (s < k)%nat -> (forall n, Post n (MkGhost l (Some k) (Some s) c t)) ->
  wp i (fetch_add 32 (Se s ActiveChannels) 1) (MkGhost l (Some k) None c t) Post.
Proof.
  intros Hs HP. apply (wp_count i (OnSession s) 1 _ (MkGhost l (Some k) (Some s) c t)); try done.
  - intros s' [= <-]. right. by exists k.
  - intros [] Hne; try done. cbn. rewrite !bool_decide_false; congruence.
  - cbn. by rewrite (bool_decide_true (Some s = Some s)), (bool_decide_false (None = Some s)) by done.
Qed.

Lemma wp_leave_session i s l gr c t (Post : Z -> Ghost -> Prop) :
  (forall n, Post n (MkGhost l gr None c t)) ->
  wp i (fetch_sub 32 (Se s ActiveChannels) 1) (MkGhost l gr (Some s) c t) Post.
Proof.
  intros HP. apply (wp_count i (OnSession s) (-1) _ (MkGhost l gr None c t)); try done.
  - intros [] Hne; try done. cbn. rewrite !bool_decide_false; congruence.
  - cbn. by rewrite (bool_decide_true (Some s = Some s)), (bool_decide_false (None = Some s)) by done.
Qed.

Lemma wp_enter_route i l gr s t (Post : Z -> Ghost -> Prop) :
  (forall n, Post n (MkGhost l gr s true t)) ->
  wp i (fetch_add 64 (St ActiveSshChannels) 1) (MkGhost l gr s false t) Post.
Proof. intros HP. apply (wp_count i OnRoute 1 _ (MkGhost l gr s true t)); try done; [by left|by intros []]. Qed.

Lemma wp_leave_route i l gr s t (Post : Z -> Ghost -> Prop) :
  (forall n, Post n (MkGhost l gr s false t)) ->
  wp i (fetch_sub 64 (St ActiveSshChannels) 1) (MkGhost l gr s true t) Post.
Proof. intros HP. apply (wp_count i OnRoute (-1) _ (MkGhost l gr s false t)); try done; [by left|by intros []]. Qed.

Lemma wp_enter_clients i l gr s c (Post : Z -> Ghost -> Prop) :
  (forall n, Post n (MkGhost l gr s c true)) ->
  wp i (fetch_add 64 (St ActiveTcp) 1) (MkGhost l gr s c false) Post.
Proof. intros HP. apply (wp_count i OfClients 1 _ (MkGhost l gr s c true)); try done; [by left|by intros []]. Qed.

Lemma wp_leave_clients i l gr s c (Post : Z -> Ghost -> Prop) :
  (forall n, Post n (MkGhost l gr s c false)) ->
  wp i (fetch_sub 64 (St ActiveTcp) 1) (MkGhost l gr s c true) Post.
Proof. intros HP. apply (wp_count i OfClients (-1) _ (MkGhost l gr s c false)); try done; [by left|by intros []]. Qed.

(** *** The mutex and the vector *)

Lemma wp_lock i t (Post : unit -> Ghost -> Prop) :
  Post tt (MkGhost true None None false t) ->
  wp i (lock_sessions i) (MkGhost false None None false t) Post.
Proof.
  intros HP m gs Hm Hi. destruct (locked_by (guarded m)) as [j|] eqn:Hlock.
  { split; [done|]. by rewrite Hlock. }
  eexists. split; [|exact HP]. pose proof (lookup_lt_Some _ _ _ Hi) as Hlt.
  destruct Hm as [Hc Hn Hp Hld Hl Hlen Hpl]. split; cbn.
  - intros k. rewrite (owners_insert _ _ _ _ _ Hi), Hc. destruct k; cbn; lia.
  - by rewrite length_insert.
  - done.
  - eexists. by rewrite list_lookup_insert_eq.
  - intros j h [(-> & <- & _)|[Hne Hj]]%list_lookup_insert_Some Hh; [done|].
    pose proof (Hl _ _ Hj Hh). congruence.
  - intros j h n [(-> & <- & _)|[Hne Hj]]%list_lookup_insert_Some Hh; [done|eauto].
  - intros j h s [(-> & <- & _)|[Hne Hj]]%list_lookup_insert_Some Hh; [done|eauto].
Qed.

Lemma wp_unlock i l s c t (Post : unit -> Ghost -> Prop) :
  Post tt (MkGhost false None s c t) -> wp i unlock_sessions (MkGhost true l s c t) Post.
Proof.
  intros HP m gs Hm Hi. eexists. split; [|exact HP]. pose proof (lookup_lt_Some _ _ _ Hi) as Hlt.
  destruct Hm as [Hc Hn Hp Hld Hl Hlen Hpl]. pose proof (Hl _ _ Hi eq_refl) as Hown. split; cbn.
  - intros k. rewrite (owners_insert _ _ _ _ _ Hi), Hc. destruct k; cbn; lia.
  - by rewrite length_insert.
  - done.
  - done.
  - intros j h [(-> & <- & _)|[Hne Hj]]%list_lookup_insert_Some Hh; [done|].
    pose proof (Hl _ _ Hj Hh). congruence.
  - intros j h n [(-> & <- & _)|[Hne Hj]]%list_lookup_insert_Some Hh; [done|].
    destruct (Hlen _ _ _ Hj Hh) as [Hh' _]. pose proof (Hl _ _ Hj Hh'). congruence.
  - intros j h s' [(-> & <- & _)|[Hne Hj]]%list_lookup_insert_Some Hh; [|eauto].
    by apply (Hpl _ _ _ Hi).
Qed.

Lemma wp_read_sessions i s c t (Post : list Session -> Ghost -> Prop) :
  (forall l, Post l (MkGhost true (Some (length l)) s c t)) ->
  wp i read_sessions (MkGhost true None s c t) Post.
Proof.
  intros HP. apply wp_atomically. intros m gs Hm Hi. eexists. split; [|apply HP].
  pose proof (lookup_lt_Some _ _ _ Hi) as Hlt. cbn [fst snd].
  destruct Hm as [Hc Hn Hp Hld Hl Hlen Hpl]. split; cbn.
  - intros k. rewrite (owners_insert _ _ _ _ _ Hi), Hc. destruct k; cbn; lia.
  - by rewrite length_insert.
  - done.
  - rewrite (Hl _ _ Hi eq_refl). eexists. by rewrite list_lookup_insert_eq.
  - intros j h [(-> & <- & _)|[Hne Hj]]%list_lookup_insert_Some Hh; [|eauto]. by apply (Hl _ _ Hi).
  - intros j h n [(-> & <- & _)|[Hne Hj]]%list_lookup_insert_Some Hh; [|eauto]. cbn in Hh. by simplify_eq.
  - intros j h s' [(-> & <- & _)|[Hne Hj]]%list_lookup_insert_Some Hh; [|eauto]. by apply (Hpl _ _ _ Hi).
Qed.

Lemma wp_push_session i x n s c t (Post : unit -> Ghost -> Prop) :
  Z.of_nat n < pool_size args -> Post tt (MkGhost true (Some (S n)) s c t) ->
  wp i (push_session x) (MkGhost true (Some n) s c t) Post.
Proof.
  intros Hroom HP. apply wp_atomically. intros m gs Hm Hi. eexists. split; [|exact HP].
  pose proof (lookup_lt_Some _ _ _ Hi) as Hlt. cbn [fst snd].
  destruct Hm as [Hc Hn Hp Hld Hl Hlen Hpl]. destruct (Hlen _ _ _ Hi eq_refl) as [_ Hlen0].
  split; cbn; rewrite ?length_app, ?length_insert; cbn [length].
  - intros k. rewrite (owners_insert _ _ _ _ _ Hi), Hc. destruct k; cbn; lia.
  - done.
  - lia.
  - rewrite (Hl _ _ Hi eq_refl). eexists. by rewrite list_lookup_insert_eq.
  - intros j h [(-> & <- & _)|[Hne Hj]]%list_lookup_insert_Some Hh; [|eauto]. by apply (Hl _ _ Hi).
  - intros j h k [(-> & <- & _)|[Hne Hj]]%list_lookup_insert_Some Hh.
    { cbn in Hh. simplify_eq. split; [done|lia]. }
    destruct (Hlen _ _ _ Hj Hh) as [Hh' _]. pose proof (Hl _ _ Hj Hh'). pose proof (Hl _ _ Hi eq_refl). congruence.
  - intros j h s' [(-> & <- & _)|[Hne Hj]]%list_lookup_insert_Some Hh.
    + pose proof (Hpl _ _ _ Hi Hh). lia.
    + pose proof (Hpl _ _ _ Hj Hh). lia.
Qed.

(** *** The procedures *)

Ltac wp_step := apply wp_quiet; [quietly|intros ?].

Lemma quiet_session_score s now : quiet (session_score s now).
Proof. unfold session_score, session_score_components. quietly. Qed.

Lemma quiet_record_latency at_cell l :
  (forall c, tracked (at_cell c) = false) -> quiet (record_latency_sample at_cell l).
Proof.
  intros Hc. unfold record_latency_sample.
  repeat (apply quiet_then; [|intros ?]); auto using quiet_fetch_add, quiet_store, quiet_fetch_max, quiet_value.
Qed.

Lemma quiet_record_close kind reason r : quiet (record_close kind reason r).
Proof. unfold record_close. quietly. Qed.

Lemma record_close_session kind reason r i g (Post : Stream -> Ghost -> Prop) :
  (forall b, Post (MkStream (stream_session r) b) g) -> wp i (record_close kind reason r) g Post.
Proof.
  intros HP. unfold record_close. destruct r as [s []]; cbn [close_recorded stream_session]; [apply (HP true)|].
  do 3 wp_step. apply HP.
Qed.

Lemma quiet_record_bytes r n : quiet (record_client_to_remote_bytes r n) /\ quiet (record_remote_to_client_bytes r n).
Proof. unfold record_client_to_remote_bytes, record_remote_to_client_bytes. split; quietly. Qed.

Lemma wp_acquire i s n t (Post : unit -> Ghost -> Prop) :
  (s < n)%nat -> Post tt (MkGhost true (Some n) (Some s) true t) ->
  wp i (acquire_session_channel s) (MkGhost true (Some n) None false t) Post.
Proof.
  intros Hs HP. unfold acquire_session_channel.
  apply wp_bind, wp_enter_session; [done|]. intros depth.
  apply wp_bind, wp_enter_route. intros _. repeat wp_step.
  apply quiet_fetch_max; [done|]. intros []. exact HP.
Qed.

Lemma wp_release i s t (Post : unit -> Ghost -> Prop) :
  Post tt (MkGhost false None None false t) ->
  wp i (release_channel s) (MkGhost false None (Some s) true t) Post.
Proof.
  intros HP. unfold release_channel. apply wp_bind, wp_leave_session. intros _.
  apply wp_bind, wp_leave_route. intros _. exact HP.
Qed.

(** What [session] gives its caller. *)
Definition session_post (t : bool) (r : result string (nat * @Session Client)) (g : Ghost) : Prop :=
  match r with
  | Ok (s, _) => g = MkGhost false None (Some s) true t
  | Err _ => g = MkGhost false None None false t
  end.

Lemma wp_open_session i n t :
  Z.of_nat n < pool_size args -> wp i (open_session n) (MkGhost true (Some n) None false t) (session_post t).
Proof.
  intros Hn. unfold open_session. do 3 wp_step. destruct a1 as [c|e].
  - apply wp_bind, wp_push_session; [done|]. wp_step.
    apply wp_bind, wp_acquire; [lia|]. apply wp_bind, wp_unlock. done.
  - do 2 wp_step. apply wp_bind, wp_unlock. done.
Qed.

Lemma min_by_key_elem {A} (l : list (Z * A)) x : min_by_key l = Some x -> x ∈ l.
Proof.
  revert x. induction l as [|y l IH]; intros x; cbn; [done|].
  destruct (min_by_key l) as [z|]; [case_match|]; intros [= <-]; (by left) || right; auto.
Qed.

Lemma wp_choose_session i (all : list (@Session Client)) t :
  wp i (choose_session all) (MkGhost true (Some (length all)) None false t) (session_post t).
Proof.
  unfold choose_session. wp_step. apply wp_bind.
  assert (Hsc : forall l g, wp i (mapM (score_session (Client := Client) (duration_millis a)) l) g
    (fun scored g' => g' = g /\ scored.*2 = l)).
  { induction l as [|x l IH]; intros g; [done|]. apply wp_bind, wp_quiet; [apply quiet_session_score|].
    intros score. apply wp_bind. eapply wp_mono; [|apply IH]. intros scored g' [-> <-]. done. }
  eapply wp_mono; [|apply Hsc]. intros scored g' [-> Hall].
  destruct (min_by_key scored) as [[z [s x]]|] eqn:Hmin.
  - apply min_by_key_elem in Hmin. apply (list_elem_of_fmap_2 snd) in Hmin. rewrite Hall in Hmin.
    apply elem_of_lookup_imap in Hmin as (s' & x' & [= -> ->] & Hs%lookup_lt_Some).
    apply wp_bind, wp_acquire; [done|]. by apply wp_bind, wp_unlock.
  - by apply wp_bind, wp_unlock.
Qed.

Lemma pool_size_pos : 1 <= pool_size args.
Proof. unfold pool_size. lia. Qed.

Lemma wp_session i t : wp i (session args i) (MkGhost false None None false t) (session_post t).
Proof.
  unfold session. apply wp_bind, wp_lock. apply wp_bind, wp_read_sessions. intros all.
  do 2 wp_step. destruct (should_open_new_session _ _ _) eqn:Hnew; [|apply wp_choose_session].
  apply wp_open_session. unfold should_open_new_session in Hnew. pose proof pool_size_pos.
  apply orb_true_iff in Hnew as [?%Z.eqb_eq|[?%Z.ltb_lt _]%andb_true_iff]; lia.
Qed.

Lemma wp_open_stream i host port :
  wp i (open_stream args i host port) accepted (fun r g =>
    match r with Ok r => g = served (stream_session r) | Err _ => g = accepted end).
Proof.
  unfold open_stream. apply wp_bind. eapply wp_mono; [|apply wp_session].
  intros [[s x]|e] g; cbn [session_post]; intros ->; [|done]. wp_step.
  destruct (default _ a) as [u|e].
  - do 4 wp_step. done.
  - do 5 wp_step. apply wp_bind, wp_release. done.
Qed.

Lemma wp_drop_stream i r s (Post : unit -> Ghost -> Prop) :
  stream_session r = s -> Post tt accepted -> wp i (drop_stream r) (served s) Post.
Proof.
  intros <- HP. unfold drop_stream. apply wp_bind.
  destruct (close_recorded r); [by apply wp_release|]. apply record_close_session. intros b.
  by apply wp_release.
Qed.

Lemma wp_relay_copy i r : wp i (relay_copy r) (served (stream_session r)) (fun _ g => g = accepted).
Proof.
  unfold relay_copy, copy_bidirectional. apply wp_bind, wp_bind. split; [done|]. intros first.
  apply wp_quiet.
  { destruct first; [|quietly]. apply quiet_then; [quietly|]. intros ms.
    apply quiet_then; intros; apply quiet_record_latency; done. }
  intros _. split; [done|]. intros [[sent received]|e].
  - apply wp_quiet; [apply quiet_record_bytes|]. intros _.
    apply wp_quiet; [apply quiet_record_bytes|]. intros _.
    apply wp_bind, record_close_session. intros b. wp_step. by apply wp_bind, wp_drop_stream.
  - apply wp_bind, record_close_session. intros b. by apply wp_bind, wp_drop_stream.
Qed.

Lemma wp_relay i r initial : wp i (relay_ssh_native_tcp r initial) (served (stream_session r)) (fun _ g => g = accepted).
Proof.
  unfold relay_ssh_native_tcp. destruct initial; [apply wp_relay_copy|]. wp_step. destruct a as [u|e].
  - apply wp_quiet; [apply quiet_record_bytes|]. intros _. apply wp_relay_copy.
  - apply wp_bind, record_close_session. intros bb. by apply wp_bind, wp_drop_stream.
Qed.

Lemma wp_tunnel i t : wp i (open_tunnel_ssh_native args i t) idle (fun _ g => g = idle).
Proof.
  unfold open_tunnel_ssh_native, record_tcp_open. apply wp_bind. wp_step.
  apply wp_bind, wp_enter_clients. intros _. apply wp_bind.
  apply (wp_mono _ _ _ _ _ _ (fun _ g => g = accepted)).
  { intros a1 g ->. apply wp_bind. unfold record_tcp_close. apply wp_bind, wp_leave_clients. done. }
  unfold tunnel_body. wp_step. apply wp_bind. eapply wp_mono; [|apply wp_open_stream].
  intros [r|e] g ->.
  - do 5 wp_step. destruct a5; [apply wp_relay|by apply wp_bind, wp_drop_stream].
  - do 5 wp_step. done.
Qed.

(** *** The pool of clients *)

Lemma route_start_ok (clients : list Tunnel) :
  len clients < 2 ^ 32 ->
  pool_ok route_inv owns may_wait (fun _ _ g => g = idle) (route_start args clients)
    (replicate (length clients) idle).
Proof.
  intros Hn. split; [|split].
  - assert (H0 : forall k, owners (counted k) (replicate (length clients) idle) = 0).
    { intros k. apply owners_none. intros g [-> _]%elem_of_replicate. by destruct k. }
    split; try done.
    + intros k. rewrite H0. by destruct k.
    + by rewrite length_replicate.
    + cbn. pose proof pool_size_pos. lia.
    + by intros i g [-> _]%lookup_replicate.
    + by intros i g n [-> _]%lookup_replicate.
    + by intros i g s [-> _]%lookup_replicate.
  - cbn. by rewrite length_replicate, length_imap.
  - intros i p g Hp [-> _]%lookup_replicate. cbn in Hp. rewrite list_lookup_imap in Hp.
    destruct (clients !! i) as [t|]; cbn in Hp; simplify_eq. apply wp_tunnel.
Qed.

Lemma route_reaches env (clients : list Tunnel) sched s :
  len clients < 2 ^ 32 -> runs (task_step env) (route_start args clients) sched = Some s ->
  exists gs, pool_ok route_inv owns may_wait (fun _ _ g => g = idle) s gs.
Proof. intros Hn Hr. eapply pool_wp; [by apply route_start_ok|done]. Qed.

(** A task that relays, and on which session. *)
Definition relaying {A} (p : prog A) : option nat :=
  match p with Ask q _ => match q with Copied s => Some s | _ => None end | _ => None end.

Definition relays (p : prog (result string unit)) : bool := bool_decide (is_Some (relaying p)).
Definition relays_on (k : nat) (p : prog (result string unit)) : bool := bool_decide (relaying p = Some k).

(** How many tasks satisfy a test. *)
Definition tally (f : prog (result string unit) -> bool) (s : Pool shared (@Question Client) (result string unit)) : Z :=
  len (filter (fun p => f p = true) (tasks s)).

Lemma relaying_wp i (p : prog (result string unit)) g Post s :
  wp i p g Post -> relaying p = Some s -> g = served s.
Proof.
  intros Hp Hr. destruct p as [a|X f k|X q k]; try done. destruct Hp as [Ho _].
  destruct q; cbn in Hr; simplify_eq. exact Ho.
Qed.

Lemma rest_ghost i (p : prog (result string unit)) g :
  wp i p g (fun _ g => g = idle) -> finished p = true \/ is_Some (relaying p) ->
  g = match relaying p with Some s => served s | None => idle end.
Proof.
  intros Hp [Hf|[s Hs]].
  - destruct p; try done.
  - rewrite Hs. by eapply relaying_wp.
Qed.

End counters.

(** Every client is finished or relays. *)
Definition at_rest {Client} (s : Pool _ (@Question Client) (result string unit)) : Prop :=
  forall p, p ∈ tasks s -> finished p = true \/ is_Some (relaying p).

(** C13. The counters of an SSH-native route: whatever the clients, the order
    in which their atomic operations interleave and what the network answers,
    the pool never has more sessions than its size; a client relays on a
    session of the pool; and when every client is finished or relays, the
    active channels of the route and of each session and the active
    connections are exactly the clients that relay. *)
Theorem ssh_channels_counted {Client : Type} (args : NativeArgs) (env : Oracle (@Question Client))
    (clients : list Tunnel) (sched : list nat) (s : Pool _ (@Question Client) (result string unit)) :
  len clients < 2 ^ 32 ->
  runs (task_step env) (route_start args clients) sched = Some s ->
  len (sessions (guarded (mem s))) <= pool_size args /\
  (forall p k, p ∈ tasks s -> relaying p = Some k -> (k < length (sessions (guarded (mem s))))%nat) /\
  (at_rest s ->
     cells (mem s) (St ActiveSshChannels) = tally relays s /\
     cells (mem s) (St ActiveTcp) = tally relays s /\
     forall k, cells (mem s) (Se k ActiveChannels) = tally (relays_on k) s).
Proof.
  intros Hn Hr. destruct (route_reaches args env clients sched s Hn Hr) as (gs & Hm & Hl & Hw).
  split_and!.
  - apply (inv_pool _ _ _ Hm).
  - intros p k [i Hp]%list_elem_of_lookup Hk.
    destruct (lookup_lt_is_Some_2 gs i) as [g Hg]; [rewrite Hl; by eapply lookup_lt_Some|].
    apply (inv_place _ _ _ Hm i g k Hg). by rewrite (relaying_wp _ _ _ _ _ _ (Hw _ _ _ Hp Hg) Hk).
  - intros Hrest.
    assert (Hcount : forall k f, (forall p, counted k match relaying p with Some s => served s | None => idle end = f p) ->
      cells (mem s) (cell_of k) = tally f s).
    { intros k f Hf. rewrite (inv_counter _ _ _ Hm). apply owners_as; [done|].
      intros i g p Hg Hp. rewrite <-Hf.
      rewrite (rest_ghost args i p g (Hw _ _ _ Hp Hg) (Hrest p (list_elem_of_lookup_2 _ _ _ Hp))). done. }
    split_and!.
    + apply (Hcount OnRoute). intros p. unfold relays. by destruct (relaying p).
    + apply (Hcount OfClients). intros p. unfold relays. by destruct (relaying p).
    + intros k. apply (Hcount (OnSession k)). intros p. unfold relays_on. by destruct (relaying p).
Qed.

Definition sample_native : NativeArgs :=
  {| tcp_target := None; ssh_session_pool_size := None; connect_timeout_secs := 30 |}.

Definition sample_tunnels : list Tunnel :=
  [MkTunnel "a" 80 SocksSuccess []; MkTunnel "b" 81 RespondHttpConnect [x00]; MkTunnel "c" 82 SocksSuccess [];
   MkTunnel "d" 83 SocksSuccess []].

(** A network that answers everything; sessions are numbered by the moment
    they were opened. *)
Definition sample_answers : Oracle (@Question nat) := fun t X q =>
  match q in Question X return X with
  | ConnectProxyArgs => Ok t
  | DirectTcpip c host port => Some (if Z.eqb port 82 then Err "refused"%string else Ok tt)
  | Elapsed => N.of_nat t
  | Respond _ => Ok tt
  | RespondError _ => Ok tt
  | WriteInitial _ => Ok tt
  | FirstByte _ => true
  | Copied _ => Ok (10, 20)
  | ShutdownRemote => tt
  end.

(** Two clients relay on the first session; the third opens a second one and
    is refused; the fourth relays. *)
Definition sample_schedule : list nat :=
  concat [replicate 40 0%nat; replicate 50 1%nat; replicate 33 2%nat; replicate 56 3%nat].

Definition sample_route : Pool _ (@Question nat) (result string unit) := route_start sample_native sample_tunnels.

Definition resting {A} (p : Prog _ (@Question nat) A) : bool := finished p || bool_decide (is_Some (relaying p)).

Lemma sample_schedule_runs :
  exists s, runs (task_step sample_answers) sample_route sample_schedule = Some s /\
    forallb resting (tasks s) = true /\ tally relays s = 3 /\ tally (relays_on 0) s = 3 /\
    len (sessions (guarded (mem s))) = 2.
Proof.
  assert (Hc : (fun s => (forallb resting (tasks s), tally relays s, tally (relays_on 0) s,
    len (sessions (guarded (mem s))))) <$> runs (task_step sample_answers) sample_route sample_schedule
    = Some (true, 3, 3, 2)) by (vm_compute; reflexivity).
  destruct (runs (task_step sample_answers) sample_route sample_schedule) as [s|]; [|discriminate Hc].
  cbn [fmap option_fmap option_map] in Hc. injection Hc as ????. by exists s.
Qed.

Lemma ssh_channels_counted_witness :
  exists s, runs (task_step sample_answers) sample_route sample_schedule = Some s /\
    cells (mem s) (St ActiveSshChannels) = 3 /\ cells (mem s) (St ActiveTcp) = 3 /\
    cells (mem s) (Se 0 ActiveChannels) = 3.
Proof.
  destruct sample_schedule_runs as (s & Hs & Hrest & Hall & H0 & _). exists s. split; [exact Hs|].
  destruct (ssh_channels_counted sample_native sample_answers sample_tunnels sample_schedule s
    ltac:(cbn; lia) Hs) as (_ & _ & Hcounts).
  destruct Hcounts as (Hc & Ht & Hk).
  - intros p Hp. rewrite forallb_forall in Hrest. apply list_elem_of_In, Hrest in Hp.
    apply orb_true_iff in Hp as [?|?%bool_decide_eq_true]; auto.
  - rewrite Hc, Ht, Hk, Hall, H0. repeat split; reflexivity.
Defined.

(** C15. Every client of an SSH-native route is served to the end: the tasks
    cannot run for ever, and a state of the route in which none of them can
    run is one where all are finished, the mutex of the sessions is free and
    the active channels and connections are back to 0. *)
Theorem ssh_clients_end {Client : Type} (args : NativeArgs) (env : Oracle (@Question Client))
    (clients : list Tunnel) (sched : list nat) (s : Pool _ (@Question Client) (result string unit)) :
  len clients < 2 ^ 32 ->
  runs (task_step env) (route_start args clients) sched = Some s ->
  Acc (fun s' s => exists i, task_step env s i = Some s') s /\
  ((forall i, task_step env s i = None) ->
     (forall p, p ∈ tasks s -> finished p = true) /\ locked_by (guarded (mem s)) = None /\
     cells (mem s) (St ActiveSshChannels) = 0 /\ cells (mem s) (St ActiveTcp) = 0 /\
     forall k, cells (mem s) (Se k ActiveChannels) = 0).
Proof.
  intros Hn Hr. split; [apply pool_terminates|]. intros Hstuck.
  destruct (route_reaches args env clients sched s Hn Hr) as (gs & Hok).
  pose proof Hok as (Hm & Hl & Hw).
  assert (Hany : forall i g, gs !! i = Some g -> (exists p, tasks s !! i = Some p /\ finished p = true) /\ g = idle
      \/ may_wait (mem s) i g).
  { intros i g Hg. destruct (lookup_lt_is_Some_2 (tasks s) i) as [p Hp]; [rewrite <-Hl; by eapply lookup_lt_Some|].
    destruct (stuck_waits _ _ _ _ env s gs i p g Hok Hp Hg (Hstuck i)) as [(a & -> & ->)|]; [left|by right].
    split; [by exists (Ret a)|done]. }
  assert (Hfree : locked_by (guarded (mem s)) = None).
  { pose proof (inv_locked _ _ _ Hm) as Hlock. destruct (locked_by (guarded (mem s))) as [j|] eqn:Hj; [|done].
    destruct Hlock as (g & Hg & Hlg). destruct (Hany j g Hg) as [[_ ->]|[? _]]; [done|congruence]. }
  assert (Hidle : forall i g, gs !! i = Some g -> (exists p, tasks s !! i = Some p /\ finished p = true) /\ g = idle).
  { intros i g Hg. destruct (Hany i g Hg) as [?|[_ ?]]; [done|congruence]. }
  assert (H0 : forall k, cells (mem s) (cell_of k) = 0).
  { intros k. rewrite (inv_counter _ _ _ Hm). apply owners_none.
    intros g [i Hg]%list_elem_of_lookup. destruct (Hidle i g Hg) as [_ ->]. by destruct k. }
  split_and!; [|done|apply (H0 OnRoute)|apply (H0 OfClients)|intros k; apply (H0 (OnSession k))].
  intros p [i Hp]%list_elem_of_lookup.
  destruct (lookup_lt_is_Some_2 gs i) as [g Hg]; [rewrite Hl; by eapply lookup_lt_Some|].
  destruct (Hidle i g Hg) as [(p' & Hp' & ?) _]. by simplify_eq.
Qed.

Lemma ssh_clients_end_witness :
  exists s, runs (task_step sample_answers) sample_route sample_schedule = Some s /\
    Acc (fun s' s => exists i, task_step sample_answers s i = Some s') s.
Proof.
  destruct sample_schedule_runs as (s & Hs & _). exists s. split; [exact Hs|].
  apply (ssh_clients_end sample_native sample_answers sample_tunnels sample_schedule s ltac:(cbn; lia) Hs).
Defined.

(** ** How a session is chosen *)

Section choice.
Context {Client : Type}.
Abbreviation shared := (Shared Cell Note (@Sessions Client)).
Abbreviation prog := (Prog shared (@Question Client)).

(** The score of a session in a state of the memory. *)
Definition components_of (m : shared) (now_ms : Z) (s : nat) : SessionScoreComponents :=
  MkScore (cells m (Se s ActiveChannels)) (cells m (Se s OpenFailures))
    (cells m (Se s LastOpenLatencyMs))
    (default 0 (last_sampled_u64 (cells m (SeFirstByte s Samples)) (cells m (SeFirstByte s LastMs))))
    (saturating_add_u 64 (cells m (Se s SessionBytesClientToRemote)) (cells m (Se s SessionBytesRemoteToClient)))
    (failure_penalty (cells m (Se s LastFailureElapsedMs)) now_ms) (cells m (Se s SessionErrorCloses)).

Definition score_of (m : shared) (now_ms : Z) (s : nat) : Z := calculate_session_score (components_of m now_ms s).

Lemma reads_components s now : reads (session_score_components s now) (fun m => components_of m now s).
Proof. intros env t m. by eexists. Qed.

Lemma reads_score s now : reads (session_score s now) (fun m => score_of m now s).
Proof.
  exact (reads_then _ _ _ (fun c _ => calculate_session_score c) (reads_components s now)
    (fun c => reads_value (calculate_session_score c))).
Qed.

(** Saturation does not disturb the sum below [u64::MAX]. *)
Lemma calculate_session_score_sum c :
  0 <= active_channels c -> 0 <= open_failures c -> 0 <= last_open_latency_ms c -> 0 <= first_byte_latency_ms c ->
  0 <= bytes_in_flight c -> 0 <= recent_failure_penalty c -> 0 <= error_closes c ->
  calculate_session_score c =
    Z.min (active_channels c * 10000 + open_failures c * 1000 + error_closes c * 750
           + Z.min (last_open_latency_ms c) 5000 + Z.min (first_byte_latency_ms c) 5000
           + bytes_in_flight c / (1024 * 1024) + recent_failure_penalty c) (u_max 64).
Proof.
  intros. unfold calculate_session_score, saturating_mul_u.
  pose proof (Z.div_pos (bytes_in_flight c) (1024 * 1024) ltac:(done) ltac:(lia)).
  assert (Hmax : 0 <= u_max 64) by done.
  assert (Hadd : forall a b, 0 <= b -> saturating_add_u 64 (Z.min a (u_max 64)) b = Z.min (a + b) (u_max 64)).
  { intros. unfold saturating_add_u. lia. }
  assert (Hmul : forall a b, 0 <= a -> 0 <= b ->
    saturating_add_u 64 (Z.min a (u_max 64)) (Z.min b (u_max 64)) = Z.min (a + b) (u_max 64)).
  { intros. unfold saturating_add_u. lia. }
  rewrite !Hmul, !Hadd by lia. done.
Qed.

Lemma min_by_key_None {A} (l : list (Z * A)) : min_by_key l = None -> l = [].
Proof. destruct l as [|x l]; cbn; [done|]. destruct (min_by_key l); [case_match|]; done. Qed.

Lemma min_by_key_least {A} (l : list (Z * A)) x :
  min_by_key l = Some x ->
  exists i, l !! i = Some x /\ forall j y, l !! j = Some y -> x.1 <= y.1 /\ ((j < i)%nat -> x.1 < y.1).
Proof.
  revert x. induction l as [|y l IH]; intros x; cbn; [done|].
  destruct (min_by_key l) as [z|] eqn:Hz.
  - destruct (IH z eq_refl) as (i & Hi & Hall).
    destruct (Z.leb_spec y.1 z.1); intros [= <-].
    + exists 0%nat. split; [done|]. intros [|j] w Hw; [cbn in Hw; simplify_eq; lia|].
      destruct (Hall j w Hw). lia.
    + exists (S i). split; [done|]. intros [|j] w Hw; [cbn in Hw; simplify_eq; lia|].
      destruct (Hall j w Hw) as [? Hlt]. split; [done|]. intros. apply Hlt. lia.
  - apply min_by_key_None in Hz as ->. intros [= <-]. exists 0%nat. split; [done|].
    intros [|j] w Hw; cbn in Hw; simplify_eq; lia.
Qed.

Lemma least_le counts c : c ∈ counts -> least counts <= c.
Proof.
  destruct counts as [|x l]; [by intros ?%not_elem_of_nil|]. cbn.
  assert (Hf : forall y l, foldl Z.min y l <= y /\ forall z, z ∈ l -> foldl Z.min y l <= z).
  { intros y k. revert y. induction k as [|w k IH]; intros y; cbn; [split; [lia|by intros ? ?%not_elem_of_nil]|].
    destruct (IH (Z.min y w)) as [H1 H2]. split; [lia|]. intros z [->|?]%elem_of_cons; [lia|auto]. }
  destruct (Hf x l) as [H1 H2]. intros [->|?]%elem_of_cons; auto.
Qed.

Lemma least_in counts : counts <> [] -> least counts ∈ counts.
Proof.
  destruct counts as [|x l]; [done|]. intros _. cbn.
  assert (Hf : forall y l, foldl Z.min y l ∈ y :: l).
  { intros y k. revert y. induction k as [|w k IH]; intros y; cbn; [by left|].
    specialize (IH (Z.min y w)). apply elem_of_cons in IH as [->|?]; [|by do 2 right].
    destruct (Z.min_spec y w) as [[_ ->]|[_ ->]]; [by left|by right; left]. }
  apply Hf.
Qed.

(** A new session is due: there is none, or there is room and all are busy. *)
Definition room (args : NativeArgs) (m : shared) : Prop :=
  let l := sessions (guarded m) in
  l = [] \/ (len l < pool_size args /\
    forall s, (s < length l)%nat -> SSH_SESSION_GROWTH_MIN_ACTIVE_CHANNELS <= cells m (Se s ActiveChannels)).

Lemma should_open_room args m :
  should_open_new_session (len (sessions (guarded m))) (pool_size args)
    (least ((fun s => cells m (Se s ActiveChannels)) <$> seq 0 (length (sessions (guarded m))))) = true
  <-> room args m.
Proof.
  set (l := sessions (guarded m)). set (counts := _ <$> seq _ _).
  unfold should_open_new_session, room. fold l.
  rewrite orb_true_iff, andb_true_iff, Z.eqb_eq, Z.ltb_lt, Z.geb_le.
  assert (H0 : len l = 0 <-> l = []) by (destruct l; cbn; split; (done || lia)).
  rewrite H0. destruct (decide (l = [])) as [|Hne]; [tauto|].
  assert (Hc : counts <> []).
  { unfold counts. destruct l as [|x k]; [done|]. by cbn. }
  enough ((SSH_SESSION_GROWTH_MIN_ACTIVE_CHANNELS <= least counts) <->
    (forall s, (s < length l)%nat -> SSH_SESSION_GROWTH_MIN_ACTIVE_CHANNELS <= cells m (Se s ActiveChannels))) by tauto.
  split.
  - intros Hmin s Hs. etrans; [exact Hmin|]. apply least_le. unfold counts.
    apply list_elem_of_fmap. exists s. split; [done|]. apply elem_of_seq. lia.
  - intros Hall. pose proof (least_in counts Hc) as Hin. unfold counts in Hin at 2.
    apply list_elem_of_fmap in Hin as (s & -> & Hs%elem_of_seq). apply Hall. lia.
Qed.

Lemma alone_acquire env t s (m : shared) :
  exists t' m', alone env (acquire_session_channel s) t m = Some (tt, t', m') /\ guarded m' = guarded m /\
    cells m' (Se s ActiveChannels) = wrap_u 32 (cells m (Se s ActiveChannels) + 1) /\
    (forall s', s' <> s -> cells m' (Se s' ActiveChannels) = cells m (Se s' ActiveChannels)).
Proof.
  eexists _, _. split; [reflexivity|]. split; [done|]. split.
  - repeat rewrite put_ne by done. by rewrite put_eq.
  - intros s' Hs'. repeat rewrite put_ne by congruence. done.
Qed.

(** What follows the choice of a session. *)
Lemma alone_take env t (held : nat * @Session Client) (m : shared) :
  exists t' m', alone env (_ ← acquire_session_channel held.1; _ ← unlock_sessions;
                           mret (M := prog) (Ok (E := string) held)) t m = Some (Ok held, t', m') /\
    guarded m' = MkSessions (sessions (guarded m)) None /\
    cells m' (Se held.1 ActiveChannels) = wrap_u 32 (cells m (Se held.1 ActiveChannels) + 1) /\
    (forall s', s' <> held.1 -> cells m' (Se s' ActiveChannels) = cells m (Se s' ActiveChannels)).
Proof.
  rewrite alone_bind. destruct (alone_acquire env t held.1 m) as (t1 & m1 & -> & Hg & Hc & Ho).
  eexists _, _. split; [reflexivity|]. cbn. by rewrite Hg.
Qed.

Lemma least_scored {A} (l : list A) (f : nat -> Z) :
  l <> [] ->
  exists s x, min_by_key ((fun h => (f h.1, h)) <$> imap pair l) = Some (f s, (s, x)) /\ l !! s = Some x /\
    forall s', (s' < length l)%nat -> f s <= f s' /\ ((s' < s)%nat -> f s < f s').
Proof.
  intros Hne. set (scored := _ <$> imap pair l).
  assert (Hlook : forall j y, scored !! j = Some y <-> exists x, l !! j = Some x /\ y = (f j, (j, x))).
  { intros j y. unfold scored. rewrite list_lookup_fmap, list_lookup_imap.
    destruct (l !! j) as [x|]; cbn; split; [intros [= <-]; eauto|by intros (x' & [= ->] & ->)|done|by intros (? & ? & _)]. }
  destruct (min_by_key scored) as [[z h]|] eqn:Hmin.
  - destruct (min_by_key_least _ _ Hmin) as (s & Hs & Hall).
    apply Hlook in Hs as (x & Hx & [= -> ->]). exists s, x. split_and!; [done..|].
    intros s' [x' Hx']%lookup_lt_is_Some_2. apply (Hall s' (f s', (s', x'))), Hlook. eauto.
  - apply min_by_key_None in Hmin. exfalso. apply Hne. unfold scored in Hmin. by destruct l.
Qed.

Lemma alone_choose env t (m : shared) :
  sessions (guarded m) <> [] ->
  exists s x now t' m', alone env (choose_session (sessions (guarded m))) t m = Some (Ok (s, x), t', m') /\
    sessions (guarded m) !! s = Some x /\ guarded m' = MkSessions (sessions (guarded m)) None /\
    cells m' (Se s ActiveChannels) = wrap_u 32 (cells m (Se s ActiveChannels) + 1) /\
    (forall s', s' <> s -> cells m' (Se s' ActiveChannels) = cells m (Se s' ActiveChannels)) /\
    forall s', (s' < length (sessions (guarded m)))%nat ->
      score_of m now s <= score_of m now s' /\ ((s' < s)%nat -> score_of m now s < score_of m now s').
Proof.
  intros Hne. unfold choose_session. set (l := sessions (guarded m)) in *.
  set (now := duration_millis (env t _ Elapsed)).
  rewrite (alone_then env (ask Elapsed) _ t m (env t _ Elapsed) (S t) m) by reflexivity. fold now.
  assert (Hreads : reads (mapM (score_session now) (imap pair l))
    (fun m => (fun h => (score_of m now h.1, h)) <$> imap pair l)).
  { apply reads_mapM. intros h. apply (reads_then _ _ _ _ (reads_score h.1 now) (fun a => reads_value (a, h))). }
  destruct (Hreads env (S t) m) as [t1 Ht1]. rewrite (alone_then _ _ _ _ _ _ _ _ Ht1).
  destruct (least_scored l (score_of m now) Hne) as (s & x & -> & Hx & Hall).
  destruct (alone_take env t1 (s, x) m) as (t2 & m2 & Ht & Hg & Hc & Ho).
  exists s, x, now, t2, m2. split; [exact Ht|]. auto.
Qed.

Lemma alone_open env t (m : shared) :
  exists r t' m', alone env (open_session (length (sessions (guarded m)))) t m = Some (r, t', m') /\
    locked_by (guarded m') = None /\
    match r with
    | Ok (s, x) => s = length (sessions (guarded m)) /\ sessions (guarded m') = sessions (guarded m) ++ [x] /\
        cells m' (Se s ActiveChannels) = wrap_u 32 (cells m (Se s ActiveChannels) + 1) /\
        (forall s', s' <> s -> cells m' (Se s' ActiveChannels) = cells m (Se s' ActiveChannels))
    | Err _ => sessions (guarded m') = sessions (guarded m) /\
        forall s, cells m' (Se s ActiveChannels) = cells m (Se s ActiveChannels)
    end.
Proof.
  unfold open_session. do 3 (erewrite alone_then by reflexivity).
  destruct (env _ _ ConnectProxyArgs) as [c|e].
  - cbv zeta. do 2 (erewrite alone_then by reflexivity).
    match goal with |- context [alone env (_ ← _; _ ← _; mret (Ok ?h)) ?t ?m] =>
      destruct (alone_take env t h m) as (t2 & m2 & Ht & Hg & Hc & Ho) end.
    eexists _, t2, m2. split; [exact Ht|]. rewrite Hg. cbn [sessions locked_by guarded put fst] in *.
    split_and!; [done|done|done| |].
    + rewrite Hc. repeat rewrite put_ne by done. done.
    + intros s' Hs'. rewrite (Ho s' Hs'). repeat rewrite put_ne by done. done.
  - eexists _, _, _. split; [reflexivity|]. done.
Qed.

(** [session] up to its decision. *)
Definition due (args : NativeArgs) (m : shared) : bool :=
  should_open_new_session (len (sessions (guarded m))) (pool_size args)
    (least ((fun s => cells m (Se s ActiveChannels)) <$> seq 0 (length (sessions (guarded m))))).

Lemma alone_session args env i t (m : shared) :
  locked_by (guarded m) = None ->
  exists t' m', sessions (guarded m') = sessions (guarded m) /\
    (forall s f, cells m' (Se s f) = cells m (Se s f)) /\
    (forall s c, cells m' (SeFirstByte s c) = cells m (SeFirstByte s c)) /\
    alone env (session args i) t m =
      alone env (if due args m then open_session (length (sessions (guarded m')))
                 else choose_session (sessions (guarded m'))) t' m'.
Proof.
  intros Hfree. unfold session.
  set (m1 := MkShared (cells m) (notes m) (MkSessions (sessions (guarded m)) (Some i)) : shared).
  rewrite (alone_then env (lock_sessions i) _ t m tt (S t) m1)
    by (unfold lock_sessions, waiting; cbn [alone]; by rewrite Hfree).
  rewrite (alone_then env read_sessions _ (S t) m1 (sessions (guarded m)) (S (S t)) m1) by reflexivity.
  destruct (reads_mapM (fun s => load (Se s ActiveChannels)) (fun s m => cells m (Se s ActiveChannels))
    (seq 0 (length (sessions (guarded m)))) (fun s => reads_load (Se s ActiveChannels)) env (S (S t)) m1) as [t1 Ht1].
  cbv zeta. rewrite (alone_then _ _ _ _ _ _ _ _ Ht1). unfold due.
  destruct (_ && _ && _ && _).
  - set (m2 := put (St SessionGrowthSuppressed) (wrap_u 64 (cells m1 (St SessionGrowthSuppressed) + 1)) m1).
    exists (S t1), m2. split_and!; [done|intros; unfold m2; by rewrite put_ne|intros; unfold m2; by rewrite put_ne|].
    by rewrite (alone_then env _ _ t1 m1 tt (S t1) m2) by reflexivity.
  - exists t1, m1. split_and!; [done..|].
    by rewrite (alone_then env (mret tt) _ t1 m1 tt t1 m1) by reflexivity.
Qed.

End choice.

(** How a client gets its session, when the mutex is free and no other
    client runs meanwhile.  A session is opened exactly when there is none or
    there is room and every session carries two channels or more; otherwise
    the client takes the first of the sessions with the lowest score.  Its
    channel is counted, no other counter of channels changes and the mutex is
    free again; if the new session cannot be opened, the pool is as it was. *)
Theorem ssh_session_choice {Client : Type} (args : NativeArgs) (env : Oracle (@Question Client)) (i t : nat)
    (m : Shared Cell Note Sessions) :
  locked_by (guarded m) = None ->
  exists r t' m', alone env (session args i) t m = Some (r, t', m') /\ locked_by (guarded m') = None /\
    match r with
    | Ok (s, x) =>
        cells m' (Se s ActiveChannels) = wrap_u 32 (cells m (Se s ActiveChannels) + 1) /\
        (forall s', s' <> s -> cells m' (Se s' ActiveChannels) = cells m (Se s' ActiveChannels)) /\
        ((room args m /\ s = length (sessions (guarded m)) /\ sessions (guarded m') = sessions (guarded m) ++ [x]) \/
         (~ room args m /\ sessions (guarded m) !! s = Some x /\ sessions (guarded m') = sessions (guarded m) /\
          exists now, forall s', (s' < length (sessions (guarded m)))%nat ->
            score_of m now s <= score_of m now s' /\ ((s' < s)%nat -> score_of m now s < score_of m now s')))
    | Err _ =>
        room args m /\ sessions (guarded m') = sessions (guarded m) /\
        forall s, cells m' (Se s ActiveChannels) = cells m (Se s ActiveChannels)
    end.
Proof.
  intros Hfree. destruct (alone_session args env i t m Hfree) as (t1 & m1 & Hl & Hc & Hb & ->).
  assert (Hroom : due args m = true <-> room args m) by apply should_open_room.
  destruct (due args m) eqn:Hd.
  - destruct (alone_open env t1 m1) as (r & t2 & m2 & -> & Hfree2 & Hr). exists r, t2, m2.
    split; [done|]. split; [done|]. rewrite Hl in Hr. destruct r as [[s x]|e].
    + destruct Hr as (-> & Hs & Hcs & Ho). rewrite Hc in Hcs. split; [done|].
      split; [intros s' Hs'; by rewrite Ho, Hc|]. left. tauto.
    + destruct Hr as (Hs & Hcs). split; [tauto|]. split; [done|]. intros s. by rewrite Hcs, Hc.
  - assert (Hne : sessions (guarded m1) <> []).
    { rewrite Hl. intros He. assert (room args m) by (by left). intuition congruence. }
    destruct (alone_choose env t1 m1 Hne) as (s & x & now & t2 & m2 & -> & Hx & Hg & Hcs & Ho & Hall).
    exists (Ok (s, x)), t2, m2. rewrite Hg, Hl, Hc in *. cbn [sessions locked_by].
    split; [done|]. split; [done|]. split; [done|]. split; [intros s' Hs'; by rewrite Ho, Hc|]. right.
    split; [intros Hr; apply Hroom in Hr; congruence|]. split; [done|]. split; [done|]. exists now.
    assert (Hsc : forall s, score_of m1 now s = score_of m now s).
    { intros k. unfold score_of, components_of. by rewrite !Hc, !Hb. }
    intros s' Hs'. rewrite <-!Hsc. auto.
Qed.

(** Three sessions; the second has fewer channels, but it has just failed. *)
Definition busy_sessions : Shared Cell Note (@Sessions nat) :=
  MkShared (fun c => match c with
    | Se 0 ActiveChannels => 3 | Se 1 ActiveChannels => 1 | Se 2 ActiveChannels => 2
    | Se 1 LastFailureElapsedMs => 21 | Se 1 OpenFailures => 1
    | St NextSessionId => 4 | _ => 0 end)
    (fun _ => None) (MkSessions [MkSession 1 10%nat; MkSession 2 11%nat; MkSession 3 12%nat] None).

Lemma ssh_session_choice_witness :
  exists t' m', alone sample_answers (session sample_native 5) 30 busy_sessions
      = Some (Ok (2%nat, MkSession 3 12%nat), t', m') /\
    locked_by (guarded m') = None /\ cells m' (Se 2 ActiveChannels) = 3.
Proof.
  assert (Hc : (fun x => x.1.1) <$> alone sample_answers (session sample_native 5) 30 busy_sessions
    = Some (Ok (2%nat, MkSession 3 12%nat))) by (vm_compute; reflexivity).
  destruct (ssh_session_choice sample_native sample_answers 5 30 busy_sessions eq_refl)
    as (r & t' & m' & Hr & Hl & Hm).
  rewrite Hr in Hc. cbn in Hc. injection Hc as ->. exists t', m'. split; [exact Hr|]. split; [exact Hl|].
  destruct Hm as [Hm _]. exact Hm.
Defined.
