(* ===== verification/QuicNative.v ===== *)
(** * The QUIC-native data plane

    [crates/ssh-proxy/src/quic_native/runtime.rs] with [runtime/stream.rs],
    [runtime/worker_metrics.rs], [pool.rs], the tunnel of [socks.rs] and the
    relay of [socks/relay.rs] that use it.  A route connects a fixed pool of
    QUIC connections; every client gets a stream on the one with the lowest
    score.  A relay has a watchdog that ends it when the remote stays silent.

    As in [SshNative], a client is a task over shared memory.  The watchdog of
    a client is a task of its own; it is in the pool from the start and waits
    until its client starts it or ends. *)
From S2P Require Import Prelude RustStr Mux StreamHeader Frontend Atomic Metrics.

(** ** Pool *)

Inductive RouteWorkloadHint := HintLarge | HintConcurrent | HintMixed.

Definition workload_hint_name (hint : RouteWorkloadHint) : string :=
  match hint with HintLarge => "large" | HintConcurrent => "concurrent" | HintMixed => "mixed" end.

Record QuicArgs := {
  quic_tcp_target : option (string * Z);
  transport_pool_size : Z;
  pool_policy : option string;
  workload_hint : option RouteWorkloadHint;
  transport_pool_reason : option string;
  args_egress_proxy : option string;
}.

Definition quic_connection_pool_policy (args : QuicArgs) : string := default "explicit"%string (pool_policy args).

Definition quic_connection_pool_workload_hint (args : QuicArgs) : option string :=
  match workload_hint args with
  | Some hint => Some (workload_hint_name hint)
  | None =>
    if quic_tcp_target args is Some _ then Some "large"%string
    else if Z.max (transport_pool_size args) 1 >? 1 then Some "concurrent"%string else None
  end.

Definition quic_connection_pool_reason (args : QuicArgs) : string :=
  match transport_pool_reason args with
  | Some reason => reason
  | None =>
    let single := "QUIC-native route uses a single connection"%string in
    match bool_decide (is_Some (quic_tcp_target args)), quic_connection_pool_workload_hint args with
    | true, Some h =>
      if (h =? "large")%string
      then "fixed --tcp-target route keeps one QUIC connection unless explicitly configured"%string else single
    | false, Some h =>
      if (h =? "large")%string then "single-flow route keeps one QUIC connection"%string
      else if (h =? "concurrent")%string
      then "multi-flow proxy route uses a workload-aware QUIC connection pool"%string
      else if (h =? "mixed")%string
      then "mixed-workload proxy route uses a workload-aware QUIC connection pool"%string
      else single
    | _, None => single
    end
  end.

Definition quic_connection_pool_mode (pool_size : Z) : string :=
  if pool_size >? 1 then "workload-aware-pool" else "single-connection".

Definition quic_profile_next_bottleneck (control_degraded : bool)
    (quic_backpressure_timeouts quic_copy_failures quic_copy_duration_samples
     quic_stream_open_failures quic_header_write_failures : Z) : string :=
  if control_degraded then "control_stream"
  else if quic_backpressure_timeouts >? 0 then "slow_consumers"
  else if (quic_copy_failures >? 0) || (quic_copy_duration_samples >? 0) then "application_copy"
  else if (quic_stream_open_failures >? 0) || (quic_header_write_failures >? 0) then "window_sizing"
  else "udp_path_or_congestion".

Definition quic_worker_score (active_flows stream_open_failures last_open_latency_ms
    backpressure_timeouts resets : Z) (control_degraded : bool) : Z :=
  let add := saturating_add_u 64 in
  let mul := saturating_mul_u 64 in
  add (add (add (add (add (mul active_flows 10000)
    (mul stream_open_failures 1000))
    (mul backpressure_timeouts 2000))
    (mul resets 1500))
    (Z.min last_open_latency_ms 5000))
    (if control_degraded then 1000000 else 0).

(** ** Connecting the pool ([State::connect])

    [connect_worker id] is the outcome of the connection attempt [id]: the
    route id the remote negotiated.  The first failure ends the loop, and
    fails the whole when nothing is connected yet. *)
Fixpoint connect_workers (connect_worker : nat -> result string string) (ids : list nat)
    (connected : list string) : result string (list string * option string) :=
  match ids with
  | [] => Ok (connected, None)
  | id :: ids =>
    match connect_worker id with
    | Ok route => connect_workers connect_worker ids (connected ++ [route])
    | Err e => match connected with [] => Err e | _ => Ok (connected, Some e) end
    end
  end.

Record Connected := MkConnected { conn_workers : nat; conn_route_id : string; conn_last_error : option string }.

Definition connect (route : string) (args : QuicArgs) (connect_worker : nat -> result string string) :
    result string Connected :=
  let pool_size := Z.to_nat (Z.max (transport_pool_size args) 1) in
  '(connected, last_error) ← connect_workers connect_worker (seq 0 pool_size) [];
  mret (MkConnected (length connected) (default route (last connected)) last_error).

(** ** The shared state *)

Inductive StateCounter :=
| NextWorker | NextStreamId | TcpOpenAttempts | TcpOpenSuccesses | TcpOpenFailures | LastTcpOpenLatencyMs
| ActiveQuicFlows | QuicStreamOpenFailures | QuicHeaderWriteFailures | QuicBackpressureTimeouts
| QuicFlowGracefulCloses | QuicFlowResets | QuicCopyFailures
| LastCopyClientToRemote | LastCopyRemoteToClient | MaxCopyClientToRemote | MaxCopyRemoteToClient
| ActiveTcp | TotalTcp | BytesClientToRemote | BytesRemoteToClient.

Inductive Series := StreamOpen | HeaderWrite | FlowFirstByte | CopyDuration.

Inductive WorkerCounter :=
| WorkerActiveFlows | WorkerOpenedFlows | WorkerOpenFailures | WorkerLastOpenLatencyMs
| WorkerBytesClientToRemote | WorkerBytesRemoteToClient
| WorkerGracefulCloses | WorkerResets | WorkerBackpressureTimeouts | WorkerControlDegraded.

(** The flags of one client's flow: [closed] and [first_byte_recorded] of its
    [Stream], its watch channel (0: nothing yet, 1: a value was sent, 2: the
    sender is gone), and its watchdog (0: not spawned, 1: spawned, 2: never
    will be; whether it was aborted). *)
Inductive FlowFlag := Closed | FirstByteRecorded | CancelChannel | WatchdogSpawned | WatchdogAborted.

Inductive Cell :=
| St (f : StateCounter)
| Lat (s : Series) (c : LatencyCell)
| Wk (worker : nat) (f : WorkerCounter)
| Fl (client : nat) (f : FlowFlag).

Inductive Note := LastError | LastFlowCloseReason.

#[global] Instance StateCounter_eq_dec : EqDecision StateCounter.
Proof. solve_decision. Defined.
#[global] Instance Series_eq_dec : EqDecision Series.
Proof. solve_decision. Defined.
#[global] Instance WorkerCounter_eq_dec : EqDecision WorkerCounter.
Proof. solve_decision. Defined.
#[global] Instance FlowFlag_eq_dec : EqDecision FlowFlag.
Proof. solve_decision. Defined.
#[global] Instance Cell_eq_dec : EqDecision Cell.
Proof. solve_decision. Defined.
#[global] Instance Note_eq_dec : EqDecision Note.
Proof. solve_decision. Defined.

(** What the runtime awaits.  [None] stands for a timeout. *)
Inductive CopyEvent :=
| ReadFirstByte                       (* the relay read from the remote for the first time *)
| CopyEnded (r : result string (Z * Z))
| StillCopying.                       (* until the watch channel reports a change *)

Inductive Question : Type -> Type :=
| OpenBi (worker : nat) : Question (result string unit)
| WriteFlowHeader (h : StreamHeader) : Question (option (result string unit))
| Elapsed : Question BinNums.N
| Respond (response : TunnelResponse) : Question (result string unit)
| RespondError (response : TunnelResponse) : Question (result string unit)
| WriteInitial (bs : list byte) : Question (option (result string unit))
| FirstEvent (worker : nat) : Question CopyEvent
| NextEvent (worker : nat) : Question (option (result string (Z * Z)))
| Moved (worker : nat) : Question (Z * Z)         (* bytes the relay wrote to and read from the stream *)
| FirstByteTimer : Question unit.

Abbreviation shared := (Shared Cell Note unit).
Abbreviation prog := (Prog shared Question).

Definition QUIC_NATIVE_BACKPRESSURE_TIMEOUT_SECS : Z := 120.
Definition QUIC_NATIVE_FIRST_BYTE_TIMEOUT_SECS : Z := 15.

(** The route: its arguments, id and number of connected workers. *)
Record Route := MkRoute { route_args : QuicArgs; quic_route_id : string; workers : nat }.

Definition State_new : shared :=
  MkShared (fun c => match c with St NextStreamId => 1 | _ => 0 end) (fun _ => None) tt.

(** ** Workers *)

Definition worker_score (w : nat) : prog Z :=
  active ← load (Wk w WorkerActiveFlows);
  failures ← load (Wk w WorkerOpenFailures);
  latency ← load (Wk w WorkerLastOpenLatencyMs);
  timeouts ← load (Wk w WorkerBackpressureTimeouts);
  resets ← load (Wk w WorkerResets);
  degraded ← load (Wk w WorkerControlDegraded);
  mret (quic_worker_score active failures latency timeouts resets (degraded =? 1)).

(** The loop of [select_worker]: a candidate replaces the best so far when
    its score is lower. *)
Fixpoint best_worker (candidates : list nat) (best : option (Z * nat)) : prog (option (Z * nat)) :=
  match candidates with
  | [] => mret best
  | w :: candidates =>
    score ← worker_score w;
    best_worker candidates
      match best with
      | Some (best_score, b) => if best_score <=? score then Some (best_score, b) else Some (score, w)
      | None => Some (score, w)
      end
  end.

(** [(next + offset) % len] for each offset; the addition wraps. *)
Definition rotation (next : Z) (n : nat) : list nat :=
  (fun offset : nat => Z.to_nat (wrap_u 64 (next + Z.of_nat offset) mod Z.of_nat n)) <$> seq 0 n.

Definition pool_is_empty : string := "quic-native connection pool is empty".

Definition select_worker (n : nat) : prog (result string nat) :=
  match n with
  | O => mret (Err pool_is_empty)
  | 1%nat => mret (Ok 0%nat)
  | _ =>
    next ← fetch_add 64 (St NextWorker) 1;
    best ← best_worker (rotation next n) None;
    mret (Ok (default 0%nat (snd <$> best)))
  end.

Definition record_open_success (w : nat) (latency : BinNums.N) : prog unit :=
  _ ← fetch_add 64 (Wk w WorkerOpenedFlows) 1;
  store (Wk w WorkerLastOpenLatencyMs) (duration_millis latency).

(** [ConnectionWorker::record_flow_closed]. *)
Definition record_flow_closed (w : nat) (reset : bool) : prog unit :=
  _ ← fetch_checked_sub (Wk w WorkerActiveFlows);
  _ ← fetch_add 64 (Wk w (if reset then WorkerResets else WorkerGracefulCloses)) 1;
  mret tt.

(** [State::record_quic_flow_close]. *)
Definition record_quic_flow_close (reason : string) (reset : bool) : prog unit :=
  _ ← fetch_add 64 (St (if reset then QuicFlowResets else QuicFlowGracefulCloses)) 1;
  note LastFlowCloseReason (Some reason).

(** ** Opening a stream *)

Definition header_timeout : string :=
  "QUIC-native flow header write timed out after " +:+ display_uint QUIC_NATIVE_BACKPRESSURE_TIMEOUT_SECS +:+ "s".

Definition open_stream (route : Route) (target : StreamTarget) (egress_proxy : option string) :
    prog (result string nat) :=
  selected ← select_worker (workers route);
  match selected with
  | Err e => mret (Err e)
  | Ok w =>
    opened ← ask (OpenBi w);
    match opened with
    | Err e =>
      _ ← fetch_add 64 (Wk w WorkerOpenFailures) 1;
      _ ← fetch_add 64 (St QuicStreamOpenFailures) 1;
      _ ← note LastError (Some e);
      mret (Err e)
    | Ok _ =>
      open_latency ← ask Elapsed;
      _ ← record_open_success w open_latency;
      _ ← record_latency_sample_quic (Lat StreamOpen) open_latency;
      _ ← fetch_add 64 (Wk w WorkerActiveFlows) 1;
      _ ← fetch_add 64 (St ActiveQuicFlows) 1;
      stream_id ← fetch_add 64 (St NextStreamId) 1;
      header_write ← ask (WriteFlowHeader
        {| route_id := quic_route_id route; stream_id := stream_id; target := target;
           StreamHeader.egress_proxy := egress_proxy; flags := 0 |});
      written ← match header_write with
                | Some r => mret r
                | None =>
                  _ ← fetch_add 64 (Wk w WorkerBackpressureTimeouts) 1;
                  _ ← fetch_add 64 (St QuicBackpressureTimeouts) 1;
                  mret (Err header_timeout)
                end;
      match written with
      | Err e =>
        _ ← record_flow_closed w true;
        _ ← fetch_sub 64 (St ActiveQuicFlows) 1;
        _ ← fetch_add 64 (St QuicHeaderWriteFailures) 1;
        _ ← note LastError (Some e);
        mret (Err e)
      | Ok _ =>
        header_write_latency ← ask Elapsed;
        _ ← record_latency_sample_quic (Lat HeaderWrite) header_write_latency;
        _ ← note LastError None;
        mret (Ok w)
      end
    end
  end.

(** ** Streams

    A stream is the client it belongs to, whose flags it uses, and its
    worker. *)
Record Stream := MkStream { owner : nat; worker : nat }.

(** The end of [Stream::drop], and all of it. *)
Definition leave_route : prog unit := fetch_checked_sub (St ActiveQuicFlows).

Definition drop_stream (r : Stream) : prog unit :=
  closed ← swap (Fl (owner r) Closed) 1;
  _ ← (if closed =? 0 then
         _ ← fetch_add 64 (St QuicFlowResets) 1; record_flow_closed (worker r) true
       else mret tt);
  leave_route.

(** [Stream::finish] takes the stream, which is dropped at its end. *)
Definition finish (r : Stream) (reason : string) : prog unit :=
  closed ← swap (Fl (owner r) Closed) 1;
  _ ← (if closed =? 0 then
         _ ← record_flow_closed (worker r) false; record_quic_flow_close reason false
       else mret tt);
  drop_stream r.

Definition reset (r : Stream) (reason : string) : prog unit :=
  closed ← swap (Fl (owner r) Closed) 1;
  if closed =? 0 then
    _ ← record_flow_closed (worker r) true; record_quic_flow_close reason true
  else mret tt.

(** What [poll_read] and [poll_write] add to the worker's counters. *)
Definition record_moved (r : Stream) (moved : Z * Z) : prog unit :=
  _ ← fetch_add 64 (Wk (worker r) WorkerBytesClientToRemote) moved.1;
  _ ← fetch_add 64 (Wk (worker r) WorkerBytesRemoteToClient) moved.2;
  mret tt.

(** The first bytes [poll_read] returns. *)
Definition record_first_byte (r : Stream) : prog unit :=
  seen ← swap (Fl (owner r) FirstByteRecorded) 1;
  if seen =? 0 then
    latency ← ask Elapsed; record_latency_sample_quic (Lat FlowFirstByte) latency
  else mret tt.

(** ** The relay *)

Inductive QuicNativeRelayOutcome := Completed (counts : Z * Z) | FirstByteTimeout | CopyFailed (e : string).

Definition copy_outcome (r : result string (Z * Z)) : QuicNativeRelayOutcome :=
  match r with Ok counts => Completed counts | Err e => CopyFailed e end.

Definition first_byte_timeout : string :=
  "QUIC-native first byte timed out after " +:+ display_uint QUIC_NATIVE_FIRST_BYTE_TIMEOUT_SECS +:+ "s".

(** The branch [_ = cancel_rx.changed()]: it is ready when a value was sent
    or the sender is gone. *)
Definition cancelled (r : Stream) : prog QuicNativeRelayOutcome :=
  _ ← waiting (fun m : shared => if cells m (Fl (owner r) CancelChannel) =? 0 then None else Some (tt, m));
  _ ← reset r first_byte_timeout;
  mret FirstByteTimeout.

(** The [select!] between the copy and the watch channel. *)
Definition select_copy (r : Stream) : prog QuicNativeRelayOutcome :=
  event ← ask (FirstEvent (worker r));
  match event with
  | CopyEnded result => moved ← ask (Moved (worker r)); _ ← record_moved r moved; mret (copy_outcome result)
  | StillCopying => moved ← ask (Moved (worker r)); _ ← record_moved r moved; cancelled r
  | ReadFirstByte =>
    _ ← record_first_byte r;
    event ← ask (NextEvent (worker r));
    moved ← ask (Moved (worker r));
    _ ← record_moved r moved;
    match event with
    | Some result => mret (copy_outcome result)
    | None => cancelled r
    end
  end.

(** The watchdog: it waits to be spawned, sleeps, and drops its sender when it
    returns.  It can be aborted while it sleeps. *)
Definition watchdog (i : nat) : prog (result string unit) :=
  spawned ← waiting (fun m : shared =>
    let v := cells m (Fl i WatchdogSpawned) in if v =? 0 then None else Some (v =? 1, m));
  if spawned : bool then
    _ ← ask FirstByteTimer;
    aborted ← load (Fl i WatchdogAborted);
    _ ← (if aborted =? 1 then mret tt
         else
           recorded ← load (Fl i FirstByteRecorded);
           if recorded =? 0 then
             _ ← store (Fl i CancelChannel) 1;
             _ ← fetch_add 64 (St QuicCopyFailures) 1;
             mret tt
           else mret tt);
    _ ← store (Fl i CancelChannel) 2;
    mret (Ok tt)
  else mret (Ok tt).

Definition initial_timeout : string :=
  "initial client bytes write timed out after " +:+ display_uint QUIC_NATIVE_BACKPRESSURE_TIMEOUT_SECS +:+ "s".

Definition record_quic_copy (duration : BinNums.N) (client_to_remote remote_to_client : Z) : prog unit :=
  _ ← record_latency_sample_quic (Lat CopyDuration) duration;
  _ ← store (St LastCopyClientToRemote) client_to_remote;
  _ ← store (St LastCopyRemoteToClient) remote_to_client;
  _ ← fetch_max (St MaxCopyClientToRemote) client_to_remote;
  fetch_max (St MaxCopyRemoteToClient) remote_to_client.

(** The relay from the watchdog on. *)
Definition relay_copy (r : Stream) (initial_len : Z) : prog (result string unit) :=
  _ ← store (Fl (owner r) WatchdogSpawned) 1;
  outcome ← select_copy r;
  _ ← store (Fl (owner r) WatchdogAborted) 1;
  match outcome with
  | Completed (client_to_remote, remote_to_client) =>
    _ ← fetch_add 64 (St BytesClientToRemote) client_to_remote;
    _ ← fetch_add 64 (St BytesRemoteToClient) remote_to_client;
    elapsed ← ask Elapsed;
    _ ← record_quic_copy elapsed (saturating_add_u 64 initial_len client_to_remote) remote_to_client;
    _ ← finish r "tcp relay completed";
    mret (Ok tt)
  | FirstByteTimeout => _ ← drop_stream r; mret (Err first_byte_timeout)
  | CopyFailed e =>
    _ ← fetch_add 64 (St QuicCopyFailures) 1;
    _ ← reset r ("copy failed: " +:+ e);
    _ ← drop_stream r;
    mret (Err e)
  end.

Definition relay_quic_native_tcp (r : Stream) (initial_remote : list byte) : prog (result string unit) :=
  match initial_remote with
  | [] => relay_copy r 0
  | _ =>
    written ← ask (WriteInitial initial_remote);
    match written with
    | Some (Ok _) =>
      _ ← fetch_add 64 (St BytesClientToRemote) (len initial_remote);
      relay_copy r (len initial_remote)
    | Some (Err e) =>
      _ ← fetch_add 64 (St QuicCopyFailures) 1;
      _ ← reset r ("initial client bytes write failed: " +:+ e);
      _ ← drop_stream r;
      mret (Err e)
    | None =>
      _ ← fetch_add 64 (St QuicCopyFailures) 1;
      _ ← fetch_add 64 (St QuicBackpressureTimeouts) 1;
      _ ← fetch_add 64 (Wk (worker r) WorkerBackpressureTimeouts) 1;
      _ ← reset r initial_timeout;
      _ ← drop_stream r;
      mret (Err initial_timeout)
    end
  end.

(** ** A client of the route ([socks::open_tunnel_quic_native]) *)

Record Tunnel := MkTunnel {
  tunnel_kind : TargetKind; tunnel_host : string; tunnel_port : Z;
  tunnel_response : TunnelResponse; tunnel_initial : list byte }.

Definition tunnel_target (t : Tunnel) : StreamTarget :=
  {| kind := tunnel_kind t; host := tunnel_host t; port := tunnel_port t |}.

Definition tunnel_body (route : Route) (i : nat) (t : Tunnel) : prog (result string unit) :=
  _ ← fetch_add 64 (St TcpOpenAttempts) 1;
  opened ← open_stream route (tunnel_target t) (args_egress_proxy (route_args route));
  match opened with
  | Err e =>
    elapsed ← ask Elapsed;
    _ ← store (St LastTcpOpenLatencyMs) (duration_millis elapsed);
    _ ← fetch_add 64 (St TcpOpenFailures) 1;
    _ ← note LastError (Some e);
    told ← ask (RespondError (tunnel_response t));
    mret match told with Ok _ => Err e | Err e' => Err e' end
  | Ok w =>
    elapsed ← ask Elapsed;
    _ ← store (St LastTcpOpenLatencyMs) (duration_millis elapsed);
    _ ← fetch_add 64 (St TcpOpenSuccesses) 1;
    _ ← note LastError None;
    told ← ask (Respond (tunnel_response t));
    match told with
    | Err e => _ ← drop_stream (MkStream i w); mret (Err e)
    | Ok _ => relay_quic_native_tcp (MkStream i w) (tunnel_initial t)
    end
  end.

(** A client that ends without a relay never spawns its watchdog. *)
Definition retire_watchdog (i : nat) : prog unit := atomically (fun m =>
  (tt, if cells m (Fl i WatchdogSpawned) =? 0 then put (Fl i WatchdogSpawned) 2 m else m)).

Definition open_tunnel_quic_native (route : Route) (i : nat) (t : Tunnel) : prog (result string unit) :=
  _ ← fetch_add 64 (St TotalTcp) 1;
  _ ← fetch_add 64 (St ActiveTcp) 1;
  outcome ← tunnel_body route i t;
  _ ← fetch_checked_sub (St ActiveTcp);
  _ ← retire_watchdog i;
  mret outcome.

(** The route with any number of clients and their watchdogs. *)
Definition route_start (route : Route) (clients : list Tunnel) : Pool shared Question (result string unit) :=
  MkPool State_new
    (imap (open_tunnel_quic_native route) clients ++ (watchdog <$> seq 0 (length clients))) 0.

(** ** What the counters count *)

Section counters.
Context (n : nat).

(** What a task owns.  Of a client: its place in the counters, whether its
    stream is closed, whether it has spawned its watchdog or never will.  Of
    a watchdog: whether it has been spawned and whether it is over. *)
Record Ghost := MkGhost {
  g_worker : option nat; g_flow : bool; g_tcp : bool; g_closed : bool; g_spawned : bool; g_over : bool }.

Definition unborn : Ghost := MkGhost None false false false false false.

Inductive Counter := OnWorker (w : nat) | OnRoute | OfClients.

Definition cell_of (k : Counter) : Cell :=
  match k with
  | OnWorker w => Wk w WorkerActiveFlows
  | OnRoute => St ActiveQuicFlows
  | OfClients => St ActiveTcp
  end.
Definition counted (k : Counter) (g : Ghost) : bool :=
  match k with OnWorker w => bool_decide (g_worker g = Some w) | OnRoute => g_flow g | OfClients => g_tcp g end.

#[global] Instance QuicCounter_eq_dec : EqDecision Counter.
Proof. solve_decision. Defined.

#[local] Instance quic_cell_of_inj : Inj (=) (=) cell_of.
Proof. intros [] []; cbn; congruence. Qed.

Definition spawn_value (g : Ghost) : Z := if g_spawned g then 1 else if g_over g then 2 else 0.

Record route_inv (m : shared) (gs : list Ghost) : Prop := {
  inv_counter k : cells m (cell_of k) = owners (counted k) gs;
  inv_small : len gs < 2 ^ 64;
  inv_length : length gs = (n + n)%nat;
  inv_dog i d k : gs !! (n + i)%nat = Some d -> counted k d = false;
  inv_closed i g : (i < n)%nat -> gs !! i = Some g -> cells m (Fl i Closed) = Z.b2z (g_closed g);
  inv_spawned i g : (i < n)%nat -> gs !! i = Some g -> cells m (Fl i WatchdogSpawned) = spawn_value g;
  inv_over i g d : (i < n)%nat -> gs !! i = Some g -> gs !! (n + i)%nat = Some d ->
    g_over d = true -> g_spawned g || g_over g = true;
  inv_seen i g d : (i < n)%nat -> gs !! i = Some g -> gs !! (n + i)%nat = Some d ->
    g_spawned d = true -> g_spawned g = true;
  inv_cancel i g d : (i < n)%nat -> gs !! i = Some g -> gs !! (n + i)%nat = Some d ->
    g_spawned g = true -> g_over d = true -> cells m (Fl i CancelChannel) <> 0;
}.

(** While it relays, a client has its place in every counter. *)
Definition relay_on (w : nat) (g : Ghost) : Prop :=
  g_worker g = Some w /\ g_flow g = true /\ g_tcp g = true /\ g_spawned g = true.

Definition owns X (q : Question X) (g : Ghost) : Prop :=
  match q with
  | FirstEvent w | NextEvent w => relay_on w g
  | _ => True
  end.

(** A client waits for its watchdog, a watchdog for its client. *)
Definition may_wait (m : shared) (i : nat) (g : Ghost) : Prop :=
  if decide (i < n)%nat then g_spawned g = true /\ cells m (Fl i CancelChannel) = 0
  else g_over g = false /\ cells m (Fl (i - n) WatchdogSpawned) = 0.

Abbreviation wp := (wp route_inv owns may_wait).
Abbreviation quiet := (quiet route_inv owns may_wait).

Definition tracked (c : Cell) : bool :=
  match c with
  | Wk _ WorkerActiveFlows | St ActiveQuicFlows | St ActiveTcp
  | Fl _ Closed | Fl _ WatchdogSpawned | Fl _ CancelChannel => true
  | _ => false
  end.

Lemma quic_tracked_cell k : tracked (cell_of k) = true.
Proof. by destruct k. Qed.

Lemma quic_route_inv_same (m m' : shared) gs :
  (forall c, tracked c = true -> cells m' c = cells m c) -> route_inv m gs -> route_inv m' gs.
Proof.
  intros Hc [H1 H2 H3 H4 H5 H6 Ho Hs H7]. split; auto.
  - intros k. by rewrite Hc by apply quic_tracked_cell.
  - intros. rewrite Hc by done. auto.
  - intros. rewrite Hc by done. auto.
  - intros. rewrite Hc by done. eauto.
Qed.

Lemma quic_put_untracked k v (m : shared) gs : tracked k = false -> route_inv m gs -> route_inv (put k v m) gs.
Proof. intros Hk. apply quic_route_inv_same. intros c Hc. apply put_ne. congruence. Qed.

Lemma quic_quiet_load k : quiet (load k).
Proof. by apply quiet_atomically. Qed.
Lemma quic_quiet_store k v : tracked k = false -> quiet (store k v).
Proof. intros. apply quiet_atomically. intros. by apply quic_put_untracked. Qed.
Lemma quiet_swap k v : tracked k = false -> quiet (swap k v).
Proof. intros. apply quiet_atomically. intros. by apply quic_put_untracked. Qed.
Lemma quic_quiet_fetch_add w k z : tracked k = false -> quiet (fetch_add w k z).
Proof. intros. apply quiet_atomically. intros. by apply quic_put_untracked. Qed.
Lemma quic_quiet_fetch_max k v : tracked k = false -> quiet (fetch_max k v).
Proof. intros. apply quiet_atomically. intros. by apply quic_put_untracked. Qed.
Lemma quic_quiet_note a v : quiet (note a v).
Proof. apply quiet_atomically. intros m gs. by apply quic_route_inv_same. Qed.

#[local] Hint Resolve quiet_value quic_quiet_load quic_quiet_note : atomics.
#[local] Hint Extern 2 (Atomic.quiet _ _ _ (store _ _)) => apply quic_quiet_store : atomics.
#[local] Hint Extern 2 (Atomic.quiet _ _ _ (swap _ _)) => apply quiet_swap : atomics.
#[local] Hint Extern 2 (Atomic.quiet _ _ _ (fetch_add _ _ _)) => apply quic_quiet_fetch_add : atomics.
#[local] Hint Extern 2 (Atomic.quiet _ _ _ (fetch_max _ _)) => apply quic_quiet_fetch_max : atomics.
#[local] Hint Extern 2 (Atomic.quiet _ _ _ (ask _)) => apply quiet_ask; done : atomics.
#[local] Hint Extern 3 (Atomic.quiet _ _ _ (_ ≫= _)) => apply quiet_then; [|intros] : atomics.
#[local] Hint Extern 4 (Atomic.quiet _ _ _ (match ?x with _ => _ end)) => destruct x : atomics.
#[local] Hint Extern 5 (tracked _ = false) => reflexivity : atomics.

Ltac quietly := typeclasses eauto with atomics nocore.
Ltac wp_step := apply wp_quiet; [quietly|intros ?].

(** *** What a client does to the state *)

Section client.
Context (i : nat) (Hi : (i < n)%nat).

Lemma inv_client (m m' : shared) gs g g' :
  route_inv m gs -> gs !! i = Some g ->
  (forall k, cells m' (cell_of k) = owners (counted k) (<[i := g']> gs)) ->
  (forall j f, tracked (Fl j f) = true -> j <> i \/ f = CancelChannel -> cells m' (Fl j f) = cells m (Fl j f)) ->
  cells m' (Fl i Closed) = Z.b2z (g_closed g') -> cells m' (Fl i WatchdogSpawned) = spawn_value g' ->
  (g_spawned g || g_over g = true -> g_spawned g' || g_over g' = true) ->
  (g_spawned g = true -> g_spawned g' = true) ->
  (g_spawned g' = true -> g_spawned g = true \/ g_spawned g || g_over g = false) ->
  route_inv m' (<[i := g']> gs).
Proof.
  intros [Hc Hn Hl Hd Hcl Hsp Hov Hse Hca] Hg Hc' Hsame Hclosed Hspawned Hmono Hkeep Hnew.
  pose proof (lookup_lt_Some _ _ _ Hg) as Hlt.
  assert (Hdog : forall j d, <[i := g']> gs !! (n + j)%nat = Some d <-> gs !! (n + j)%nat = Some d).
  { intros j d. rewrite list_lookup_insert_ne by lia. done. }
  split.
  - done.
  - by rewrite length_insert.
  - by rewrite length_insert.
  - intros j d k Hj. apply Hdog in Hj. eauto.
  - intros j h Hj [(<- & <- & _)|[Hne Hh]]%list_lookup_insert_Some; [done|]. rewrite Hsame by auto. eauto.
  - intros j h Hj [(<- & <- & _)|[Hne Hh]]%list_lookup_insert_Some; [done|]. rewrite Hsame by auto. eauto.
  - intros j h d Hj [(<- & <- & _)|[Hne Hh]]%list_lookup_insert_Some Hdj%Hdog Hover; [|eauto].
    apply Hmono. eauto.
  - intros j h d Hj [(<- & <- & _)|[Hne Hh]]%list_lookup_insert_Some Hdj%Hdog Hd'; eauto.
  - intros j h d Hj [(<- & <- & _)|[Hne Hh]]%list_lookup_insert_Some Hdj%Hdog Hsp' Hover.
    + rewrite Hsame by auto. destruct (Hnew Hsp') as [?|Hno]; [eauto|].
      pose proof (Hov _ _ _ Hi Hg Hdj Hover). congruence.
    + rewrite Hsame by auto. eauto.
Qed.

(** Two ghosts with the same flags. *)
Definition same_flags (g g' : Ghost) : Prop :=
  g_closed g' = g_closed g /\ g_spawned g' = g_spawned g /\ g_over g' = g_over g.

Lemma inv_count_step (m : shared) gs k v g g' :
  route_inv m gs -> gs !! i = Some g -> same_flags g g' ->
  (forall k', k' <> k -> counted k' g' = counted k' g) ->
  v = owners (counted k) gs - Z.b2z (counted k g) + Z.b2z (counted k g') ->
  route_inv (put (cell_of k) v m) (<[i := g']> gs).
Proof.
  intros Hm Hg (Hcl & Hsp & Hov) Hother Hv.
  eapply inv_client; try done.
  - intros k'. rewrite (owners_insert _ _ _ _ _ Hg). destruct (decide (k' = k)) as [->|Hne].
    + rewrite put_eq. lia.
    + rewrite put_ne by (by intros ?%(inj cell_of)). rewrite (inv_counter _ _ Hm), Hother by done. lia.
  - intros j f _ _. rewrite put_ne by (by destruct k). done.
  - rewrite put_ne by (by destruct k). rewrite Hcl. by apply (inv_closed _ _ Hm).
  - rewrite put_ne by (by destruct k). rewrite (inv_spawned _ _ Hm i g Hi Hg). unfold spawn_value. by rewrite Hsp, Hov.
  - by rewrite Hsp, Hov.
  - by rewrite Hsp.
  - rewrite Hsp. by left.
Qed.

Lemma owners_insert_small P (gs : list Ghost) g g' :
  len gs < 2 ^ 64 -> gs !! i = Some g ->
  wrap_u 64 (owners P gs - Z.b2z (P g) + Z.b2z (P g')) = owners P gs - Z.b2z (P g) + Z.b2z (P g').
Proof.
  intros Hn Hg. rewrite <-(owners_insert _ _ _ _ _ Hg). apply owners_wrap. by rewrite length_insert.
Qed.

Lemma wp_enter k g g' (Post : Z -> Ghost -> Prop) :
  same_flags g g' -> (forall k', k' <> k -> counted k' g' = counted k' g) ->
  counted k g = false -> counted k g' = true -> (forall z, Post z g') ->
  wp i (fetch_add 64 (cell_of k) 1) g Post.
Proof.
  intros Hf Hother H0 H1 HP. apply wp_atomically. intros m gs Hm Hg. exists g'. split; [|apply HP].
  eapply inv_count_step; try done. rewrite (inv_counter _ _ Hm).
  rewrite <-owners_insert_small by (by try apply (inv_small _ _ Hm)). f_equal. rewrite H0, H1. cbn. lia.
Qed.

Lemma wp_leave_sub k g g' (Post : Z -> Ghost -> Prop) :
  same_flags g g' -> (forall k', k' <> k -> counted k' g' = counted k' g) ->
  counted k g = true -> counted k g' = false -> (forall z, Post z g') ->
  wp i (fetch_sub 64 (cell_of k) 1) g Post.
Proof.
  intros Hf Hother H0 H1 HP. apply wp_atomically. intros m gs Hm Hg. exists g'. split; [|apply HP].
  eapply inv_count_step; try done. rewrite (inv_counter _ _ Hm).
  rewrite <-owners_insert_small by (by try apply (inv_small _ _ Hm)). f_equal. rewrite H0, H1. cbn. lia.
Qed.

Lemma wp_leave k g g' (Post : unit -> Ghost -> Prop) :
  same_flags g g' -> (forall k', k' <> k -> counted k' g' = counted k' g) ->
  counted k g = true -> counted k g' = false -> Post tt g' ->
  wp i (fetch_checked_sub (cell_of k)) g Post.
Proof.
  intros Hf Hother H0 H1 HP. apply wp_atomically. intros m gs Hm Hg. exists g'. split; [|apply HP].
  cbn [snd]. pose proof (owners_pos _ _ _ _ Hg H0). rewrite (inv_counter _ _ Hm).
  destruct (Z.eqb_spec (owners (counted k) gs) 0); [lia|].
  eapply inv_count_step; try done. rewrite H0, H1. cbn. lia.
Qed.

(** A flag of the flow changes, and nothing else. *)
Lemma inv_flag (m : shared) gs f v g g' :
  route_inv m gs -> gs !! i = Some g ->
  g_worker g' = g_worker g -> g_flow g' = g_flow g -> g_tcp g' = g_tcp g ->
  f <> CancelChannel ->
  (if decide (f = Closed) then v else Z.b2z (g_closed g)) = Z.b2z (g_closed g') ->
  (if decide (f = WatchdogSpawned) then v else spawn_value g) = spawn_value g' ->
  (g_spawned g || g_over g = true -> g_spawned g' || g_over g' = true) ->
  (g_spawned g = true -> g_spawned g' = true) ->
  (g_spawned g' = true -> g_spawned g = true \/ g_spawned g || g_over g = false) ->
  route_inv (put (Fl i f) v m) (<[i := g']> gs).
Proof.
  intros Hm Hg Hw Hfl Ht Hf Hclosed Hspawned Hmono Hkeep Hnew.
  eapply inv_client; try done.
  - intros k. rewrite put_ne by (by destruct k). rewrite (owners_insert _ _ _ _ _ Hg), (inv_counter _ _ Hm).
    destruct k; cbn; rewrite ?Hw, ?Hfl, ?Ht; lia.
  - intros j f' _ Hj. apply put_ne. naive_solver.
  - rewrite <-Hclosed. destruct (decide (f = Closed)) as [->|Hd]; [by rewrite put_eq|].
    rewrite put_ne by congruence. by apply (inv_closed _ _ Hm).
  - rewrite <-Hspawned. destruct (decide (f = WatchdogSpawned)) as [->|Hd]; [by rewrite put_eq|].
    rewrite put_ne by congruence. by apply (inv_spawned _ _ Hm).
Qed.

(** *** The steps of a client *)

Lemma wp_enter_worker w f t c s o (Post : Z -> Ghost -> Prop) :
  (forall z, Post z (MkGhost (Some w) f t c s o)) ->
  wp i (fetch_add 64 (Wk w WorkerActiveFlows) 1) (MkGhost None f t c s o) Post.
Proof.
  intros HP. apply (wp_enter (OnWorker w) _ (MkGhost (Some w) f t c s o)); try done.
  - intros [] Hne; try done. cbn. rewrite !bool_decide_false; congruence.
  - cbn. by rewrite bool_decide_true.
Qed.

Lemma wp_leave_worker w f t c s o (Post : unit -> Ghost -> Prop) :
  Post tt (MkGhost None f t c s o) ->
  wp i (fetch_checked_sub (Wk w WorkerActiveFlows)) (MkGhost (Some w) f t c s o) Post.
Proof.
  intros HP. apply (wp_leave (OnWorker w) _ (MkGhost None f t c s o)); try done.
  - intros [] Hne; try done. cbn. rewrite !bool_decide_false; congruence.
  - cbn. by rewrite bool_decide_true.
Qed.

Lemma wp_enter_flow w t c s o (Post : Z -> Ghost -> Prop) :
  (forall z, Post z (MkGhost w true t c s o)) ->
  wp i (fetch_add 64 (St ActiveQuicFlows) 1) (MkGhost w false t c s o) Post.
Proof. intros HP. apply (wp_enter OnRoute _ (MkGhost w true t c s o)); try done. by intros []. Qed.

Lemma wp_drop_flow w t c s o (Post : Z -> Ghost -> Prop) :
  (forall z, Post z (MkGhost w false t c s o)) ->
  wp i (fetch_sub 64 (St ActiveQuicFlows) 1) (MkGhost w true t c s o) Post.
Proof. intros HP. apply (wp_leave_sub OnRoute _ (MkGhost w false t c s o)); try done. by intros []. Qed.

Lemma wp_leave_flow w t c s o (Post : unit -> Ghost -> Prop) :
  Post tt (MkGhost w false t c s o) ->
  wp i (fetch_checked_sub (St ActiveQuicFlows)) (MkGhost w true t c s o) Post.
Proof. intros HP. apply (wp_leave OnRoute _ (MkGhost w false t c s o)); try done. by intros []. Qed.

Lemma wp_enter_tcp w f c s o (Post : Z -> Ghost -> Prop) :
  (forall z, Post z (MkGhost w f true c s o)) ->
  wp i (fetch_add 64 (St ActiveTcp) 1) (MkGhost w f false c s o) Post.
Proof. intros HP. apply (wp_enter OfClients _ (MkGhost w f true c s o)); try done. by intros []. Qed.

Lemma wp_leave_tcp w f c s o (Post : unit -> Ghost -> Prop) :
  Post tt (MkGhost w f false c s o) ->
  wp i (fetch_checked_sub (St ActiveTcp)) (MkGhost w f true c s o) Post.
Proof. intros HP. apply (wp_leave OfClients _ (MkGhost w f false c s o)); try done. by intros []. Qed.

Lemma wp_swap_closed w f t c s o (Post : Z -> Ghost -> Prop) :
  Post (Z.b2z c) (MkGhost w f t true s o) ->
  wp i (swap (Fl i Closed) 1) (MkGhost w f t c s o) Post.
Proof.
  intros HP. apply wp_atomically. intros m gs Hm Hg. exists (MkGhost w f t true s o). cbn [fst snd].
  rewrite (inv_closed _ _ Hm i _ Hi Hg). split; [|done].
  eapply inv_flag; try done. by left.
Qed.

Lemma wp_spawn w f t c (Post : unit -> Ghost -> Prop) :
  Post tt (MkGhost w f t c true false) ->
  wp i (store (Fl i WatchdogSpawned) 1) (MkGhost w f t c false false) Post.
Proof.
  intros HP. apply wp_atomically. intros m gs Hm Hg. eexists. split; [|exact HP].
  eapply inv_flag; try done. by right.
Qed.

Lemma wp_retire w f t c s (Post : unit -> Ghost -> Prop) :
  Post tt (MkGhost w f t c s (negb s)) ->
  wp i (retire_watchdog i) (MkGhost w f t c s false) Post.
Proof.
  intros HP. apply wp_atomically. intros m gs Hm Hg. eexists. split; [|exact HP]. cbn [snd].
  rewrite (inv_spawned _ _ Hm i _ Hi Hg). destruct s; cbn.
  - by rewrite list_insert_id.
  - eapply inv_flag; try done.
Qed.

(** *** The procedures of a client *)

Lemma quiet_latency s l : quiet (record_latency_sample_quic (Lat s) l).
Proof. unfold record_latency_sample_quic. cbv zeta. quietly. Qed.
#[local] Hint Resolve quiet_latency : atomics.

Lemma quiet_best_worker l b : quiet (best_worker l b).
Proof.
  revert b. induction l as [|w l IH]; intros b; cbn [best_worker]; [quietly|].
  apply quiet_then; [unfold worker_score; quietly|]. intros score. apply IH.
Qed.
#[local] Hint Resolve quiet_best_worker : atomics.

Lemma quiet_select_worker k : quiet (select_worker k).
Proof. unfold select_worker. destruct k as [|[|k]]; quietly. Qed.
#[local] Hint Resolve quiet_select_worker : atomics.

Lemma quiet_flow_close reason reset : quiet (record_quic_flow_close reason reset).
Proof. unfold record_quic_flow_close. destruct reset; quietly. Qed.
#[local] Hint Resolve quiet_flow_close : atomics.

Lemma quiet_moved r mv : quiet (record_moved r mv).
Proof. unfold record_moved. quietly. Qed.
#[local] Hint Resolve quiet_moved : atomics.

Lemma quiet_first_byte r : quiet (record_first_byte r).
Proof. unfold record_first_byte. quietly. Qed.
#[local] Hint Resolve quiet_first_byte : atomics.

Lemma quiet_open_success w l : quiet (record_open_success w l).
Proof. unfold record_open_success. quietly. Qed.
#[local] Hint Resolve quiet_open_success : atomics.

Lemma quiet_quic_copy d a b : quiet (record_quic_copy d a b).
Proof. unfold record_quic_copy. quietly. Qed.
#[local] Hint Resolve quiet_quic_copy : atomics.

Lemma wp_flow_closed w reset f t c s o (Post : unit -> Ghost -> Prop) :
  Post tt (MkGhost None f t c s o) -> wp i (record_flow_closed w reset) (MkGhost (Some w) f t c s o) Post.
Proof.
  intros HP. unfold record_flow_closed. apply wp_bind, wp_leave_worker.
  apply wp_quiet; [destruct reset; quietly|]. intros _. exact HP.
Qed.

(** A client between streams, and one with a stream, closed or not. *)
Definition accepted : Ghost := MkGhost None false true false false false.
Definition holding (w : nat) (closed spawned : bool) : Ghost :=
  MkGhost (if closed then None else Some w) true true closed spawned false.

Lemma wp_quic_open_stream route tgt egress :
  wp i (open_stream route tgt egress) accepted (fun r g =>
    match r with Ok w => g = holding w false false | Err _ => g = accepted end).
Proof.
  unfold open_stream. wp_step. destruct a as [w|e]; [|done]. wp_step. destruct a as [u|e].
  - do 3 wp_step. apply wp_bind, wp_enter_worker. intros _. apply wp_bind, wp_enter_flow. intros _.
    do 3 wp_step. destruct a4 as [u'|e].
    + do 3 wp_step. done.
    + apply wp_bind, wp_flow_closed. apply wp_bind, wp_drop_flow. intros _. do 2 wp_step. done.
  - do 3 wp_step. done.
Qed.

Lemma wp_quic_drop_stream w c s (Post : unit -> Ghost -> Prop) :
  Post tt (MkGhost None false true true s false) -> wp i (drop_stream (MkStream i w)) (holding w c s) Post.
Proof.
  intros HP. unfold drop_stream, leave_route. cbn [owner worker]. apply wp_bind, wp_swap_closed. destruct c; cbn [Z.b2z Z.eqb].
  - apply wp_quiet; [quietly|]. intros _. by apply wp_leave_flow.
  - apply wp_bind. apply wp_quiet; [quietly|]. intros _. apply wp_flow_closed. by apply wp_leave_flow.
Qed.

Lemma wp_finish w reason c s (Post : unit -> Ghost -> Prop) :
  Post tt (MkGhost None false true true s false) -> wp i (finish (MkStream i w) reason) (holding w c s) Post.
Proof.
  intros HP. unfold finish. cbn [owner worker]. apply wp_bind, wp_swap_closed. destruct c; cbn [Z.b2z Z.eqb].
  - apply wp_quiet; [quietly|]. intros _. by apply (wp_quic_drop_stream w true).
  - apply wp_bind, wp_bind, wp_flow_closed. apply quiet_flow_close. intros []. by apply (wp_quic_drop_stream w true).
Qed.

Lemma wp_reset w reason c s (Post : unit -> Ghost -> Prop) :
  Post tt (holding w true s) -> wp i (reset (MkStream i w) reason) (holding w c s) Post.
Proof.
  intros HP. unfold reset. cbn [owner worker]. apply wp_bind, wp_swap_closed. destruct c; cbn [Z.b2z Z.eqb].
  - exact HP.
  - apply wp_bind, wp_flow_closed. apply quiet_flow_close. intros []. exact HP.
Qed.

(** What is left of a client's stream, and whether it was relayed. *)
Definition after_stream (s : bool) : Ghost := MkGhost None false true true s false.

Lemma wp_cancelled w (Post : QuicNativeRelayOutcome -> Ghost -> Prop) :
  Post FirstByteTimeout (holding w true true) -> wp i (cancelled (MkStream i w)) (holding w false true) Post.
Proof.
  intros HP. unfold cancelled. cbn [owner worker]. apply wp_bind. intros m gs Hm Hg.
  destruct (Z.eqb_spec (cells m (Fl i CancelChannel)) 0) as [H0|].
  - unfold may_wait. by rewrite decide_True.
  - exists (holding w false true). rewrite list_insert_id by done. split; [done|]. by apply wp_bind, wp_reset.
Qed.

Lemma wp_select_copy w (Post : QuicNativeRelayOutcome -> Ghost -> Prop) :
  (forall o c, Post o (holding w c true)) -> wp i (select_copy (MkStream i w)) (holding w false true) Post.
Proof.
  intros HP. unfold select_copy. cbn [owner worker]. apply wp_bind. split; [done|]. intros [|r|].
  - apply wp_quiet; [quietly|]. intros _. apply wp_bind. split; [done|]. intros e. do 2 wp_step.
    destruct e; [apply (HP _ false)|apply wp_cancelled, HP].
  - do 2 wp_step. apply (HP _ false).
  - do 2 wp_step. apply wp_cancelled, HP.
Qed.

Lemma wp_quic_relay_copy w l (Post : result string unit -> Ghost -> Prop) :
  (forall r, Post r (after_stream true)) -> wp i (relay_copy (MkStream i w) l) (holding w false false) Post.
Proof.
  intros HP. unfold relay_copy. cbn [owner]. apply wp_bind, wp_spawn. apply wp_bind, wp_select_copy. intros o c.
  wp_step. destruct o as [[up down]| |e].
  - do 4 wp_step. apply wp_bind, wp_finish. apply HP.
  - apply wp_bind, wp_quic_drop_stream. apply HP.
  - wp_step. apply wp_bind, wp_reset. apply wp_bind, wp_quic_drop_stream. apply HP.
Qed.

Lemma wp_quic_relay w initial (Post : result string unit -> Ghost -> Prop) :
  (forall r s, Post r (after_stream s)) ->
  wp i (relay_quic_native_tcp (MkStream i w) initial) (holding w false false) Post.
Proof.
  intros HP. unfold relay_quic_native_tcp. cbn [owner worker].
  destruct initial as [|b initial]; [by apply wp_quic_relay_copy|]. wp_step. destruct a as [[u|e]|].
  - wp_step. by apply wp_quic_relay_copy.
  - wp_step. apply wp_bind, wp_reset. apply wp_bind, wp_quic_drop_stream. apply HP.
  - do 3 wp_step. apply wp_bind, wp_reset. apply wp_bind, wp_quic_drop_stream. apply HP.
Qed.

(** A client at its end. *)
Definition client_over (g : Ghost) : Prop :=
  g_worker g = None /\ g_flow g = false /\ g_tcp g = false /\ g_spawned g || g_over g = true.

Lemma wp_quic_tunnel route t : wp i (open_tunnel_quic_native route i t) unborn (fun _ => client_over).
Proof.
  unfold open_tunnel_quic_native. wp_step. apply wp_bind, wp_enter_tcp. intros _. apply wp_bind.
  apply (wp_mono _ _ _ _ _ _ (fun _ g => exists c s, g = MkGhost None false true c s false)).
  { intros r g (c & s & ->). apply wp_bind, wp_leave_tcp. apply wp_bind, wp_retire. by destruct s. }
  unfold tunnel_body. wp_step. apply wp_bind. eapply wp_mono; [|apply wp_quic_open_stream].
  intros [w|e] g ->.
  - do 5 wp_step. destruct a5 as [u|e].
    + apply wp_quic_relay. intros r s. by exists true, s.
    + apply wp_bind, wp_quic_drop_stream. by exists true, false.
  - do 5 wp_step. by exists false, false.
Qed.

End client.

(** *** The watchdog *)

Section dog.
Context (i : nat) (Hi : (i < n)%nat).

(** The ghost of a watchdog. *)
Definition dog (seen over : bool) : Ghost := MkGhost None false false false seen over.

Lemma inv_dog_step (m m' : shared) gs seen over seen' over' :
  route_inv m gs -> gs !! (n + i)%nat = Some (dog seen over) ->
  (forall c, tracked c = true -> c <> Fl i CancelChannel -> cells m' c = cells m c) ->
  (forall g, gs !! i = Some g -> seen' = true -> g_spawned g = true) ->
  (forall g, gs !! i = Some g -> over' = true ->
     g_spawned g || g_over g = true /\ (g_spawned g = true -> cells m' (Fl i CancelChannel) <> 0)) ->
  route_inv m' (<[(n + i)%nat := dog seen' over']> gs).
Proof.
  intros [Hc Hn Hl Hd Hcl Hsp Hov Hse Hca] Hg Hsame Hseen Hover.
  assert (Hcl' : forall j g, (j < n)%nat -> <[(n + i)%nat := dog seen' over']> gs !! j = Some g -> gs !! j = Some g).
  { intros j g Hj. rewrite list_lookup_insert_ne by lia. done. }
  split.
  - intros k. rewrite Hsame by (apply quic_tracked_cell || by destruct k).
    rewrite (owners_insert _ _ _ _ _ Hg), Hc. destruct k; cbn; lia.
  - by rewrite length_insert.
  - by rewrite length_insert.
  - intros j d k [(? & <- & _)|[Hne Hj]]%list_lookup_insert_Some; [by destruct k|eauto].
  - intros j g Hj Hgj%(Hcl' j g Hj). rewrite Hsame by done. auto.
  - intros j g Hj Hgj%(Hcl' j g Hj). rewrite Hsame by done. auto.
  - intros j g d Hj Hgj%(Hcl' j g Hj) [(? & <- & _)|[Hne Hdj]]%list_lookup_insert_Some Ho; [|by eauto].
    assert (j = i) as -> by lia. by apply (Hover g).
  - intros j g d Hj Hgj%(Hcl' j g Hj) [(? & <- & _)|[Hne Hdj]]%list_lookup_insert_Some Ho; [|by eauto].
    assert (j = i) as -> by lia. by apply (Hseen g).
  - intros j g d Hj Hgj%(Hcl' j g Hj) [(? & <- & _)|[Hne Hdj]]%list_lookup_insert_Some Hs Ho.
    + assert (j = i) as -> by lia. by apply (Hover g).
    + rewrite Hsame by (done || (intros [= ->]; lia)). eauto.
Qed.

Lemma wp_close_channel v :
  wp (n + i) (store (Fl i CancelChannel) v) (dog true false) (fun _ g => g = dog true false) /\
  (v <> 0 -> wp (n + i) (store (Fl i CancelChannel) v) (dog true false) (fun _ g => g = dog true true)).
Proof.
  split; [|intros Hv]; apply wp_atomically; intros m gs Hm Hg.
  - exists (dog true false). split; [|done]. eapply inv_dog_step; try done.
    + intros c _ Hc. by apply put_ne.
    + intros g Hgi _. by apply (inv_seen _ _ Hm i g _ Hi Hgi Hg).
  - exists (dog true true). split; [|done]. pose proof (inv_seen _ _ Hm i) as Hseen.
    eapply inv_dog_step; try done.
    + intros c _ Hc. by apply put_ne.
    + intros g Hgi _. by apply (Hseen g _ Hi Hgi Hg).
    + intros g Hgi _. cbn [snd]. rewrite put_eq, (Hseen g _ Hi Hgi Hg) by done. by split.
Qed.

Lemma wp_watchdog : wp (n + i) (watchdog i) (dog false false) (fun _ g => g_over g = true).
Proof.
  unfold watchdog. apply wp_bind. intros m gs Hm Hg.
  destruct (lookup_lt_is_Some_2 gs i) as [g Hgi]; [rewrite (inv_length _ _ Hm); lia|].
  pose proof (inv_spawned _ _ Hm i g Hi Hgi) as Hsp. unfold spawn_value in Hsp.
  destruct (Z.eqb_spec (cells m (Fl i WatchdogSpawned)) 0) as [H0|Hne].
  { unfold may_wait. rewrite decide_False by lia. by replace (n + i - n)%nat with i by lia. }
  destruct (Z.eqb_spec (cells m (Fl i WatchdogSpawned)) 1) as [H1|H1].
  - exists (dog true false). split.
    { eapply inv_dog_step; try done. intros g' Hg' _. simplify_eq. destruct (g_spawned g); [done|].
      destruct (g_over g); congruence. }
    do 2 wp_step. apply wp_bind.
    apply (wp_mono _ _ _ _ _ _ (fun _ g => g = dog true false)).
    { intros _ ? ->. apply wp_bind. eapply wp_mono; [|by apply wp_close_channel]. by intros _ ? ->. }
    destruct (a0 =? 1); [done|]. wp_step. destruct (a1 =? 0); [|done].
    apply wp_bind. eapply wp_mono; [|apply (proj1 (wp_close_channel 1))]. intros _ ? ->. wp_step. done.
  - exists (dog false true). split; [|done]. eapply inv_dog_step; try done.
    intros g' Hg' _. simplify_eq. destruct (g_spawned g); [done|]. by destruct (g_over g).
Qed.
End dog.

(** *** The pool *)

Lemma quic_route_start_ok route (clients : list Tunnel) :
  length clients = n -> 2 * len clients < 2 ^ 64 ->
  pool_ok route_inv owns may_wait
    (fun i _ g => if decide (i < n)%nat then client_over g else g_over g = true) (route_start route clients)
    (replicate (n + n) unborn).
Proof.
  intros Hlen Hn. split; [|split].
  - assert (H0 : forall k, owners (counted k) (replicate (n + n) unborn) = 0).
    { intros k. apply owners_none. intros g [-> _]%elem_of_replicate. by destruct k. }
    split; try done.
    + intros k. rewrite H0. by destruct k.
    + rewrite length_replicate. lia.
    + by rewrite length_replicate.
    + intros i g k [-> _]%lookup_replicate. by destruct k.
    + by intros i g _ [-> _]%lookup_replicate.
    + by intros i g _ [-> _]%lookup_replicate.
    + by intros i g d _ _ [-> _]%lookup_replicate.
    + by intros i g d _ _ [-> _]%lookup_replicate.
    + by intros i g d _ _ [-> _]%lookup_replicate.
  - cbn. rewrite length_replicate, length_app, length_imap, length_fmap, length_seq. lia.
  - intros i p g Hp [-> Hi]%lookup_replicate. cbn in Hp. apply lookup_app_Some in Hp as [Hp|[Hge Hp]].
    + rewrite list_lookup_imap in Hp. destruct (clients !! i) as [t|] eqn:Ht; cbn in Hp; simplify_eq.
      assert (Hin : (i < length clients)%nat) by (by eapply lookup_lt_Some).
      apply (wp_mono _ _ _ _ _ _ (fun _ => client_over)); [|apply wp_quic_tunnel; lia].
      intros _ g Hg. by rewrite decide_True by lia.
    + rewrite length_imap in Hge, Hp. rewrite list_lookup_fmap in Hp.
      destruct (seq 0 (length clients) !! (i - length clients)%nat) as [j|] eqn:Hj; cbn in Hp; simplify_eq.
      apply lookup_seq in Hj as [-> Hlt].
      assert (Hdog := wp_watchdog (i - n) ltac:(lia)).
      replace (n + (i - n))%nat with i in Hdog by lia. rewrite Hlen.
      apply (wp_mono _ _ _ _ _ _ (fun _ g => g_over g = true)); [|exact Hdog].
      intros _ g Hg. by rewrite decide_False by lia.
Qed.

End counters.

Definition pool := Pool shared Question (result string unit).

(** A client that relays, and on which worker. *)
Definition relaying {A} (p : prog A) : option nat :=
  match p with
  | Ask q _ => match q with FirstEvent w | NextEvent w => Some w | _ => None end
  | _ => None
  end.

Definition relays (p : prog (result string unit)) : bool := bool_decide (is_Some (relaying p)).
Definition relays_on (k : nat) (p : prog (result string unit)) : bool := bool_decide (relaying p = Some k).

(** How many of the first [n] tasks, the clients, satisfy a test. *)
Definition tally (n : nat) (f : prog (result string unit) -> bool) (s : pool) : Z :=
  len (filter (fun p => f p = true) (take n (tasks s))).

(** Every client is finished or relays. *)
Definition at_rest (n : nat) (s : pool) : Prop :=
  forall p, p ∈ take n (tasks s) -> finished p = true \/ is_Some (relaying p).

Definition task_post (n i : nat) (_ : result string unit) (g : Ghost) : Prop :=
  if decide (i < n)%nat then client_over g else g_over g = true.

Lemma quic_route_reaches route env (clients : list Tunnel) sched s :
  2 * len clients < 2 ^ 64 -> runs (task_step env) (route_start route clients) sched = Some s ->
  exists gs, pool_ok (route_inv (length clients)) owns (may_wait (length clients)) (task_post (length clients)) s gs.
Proof. intros Hn Hr. eapply pool_wp; [by apply quic_route_start_ok|done]. Qed.

Lemma quic_relaying_wp n i (p : prog (result string unit)) g Post w :
  wp (route_inv n) owns (may_wait n) i p g Post -> relaying p = Some w -> relay_on w g.
Proof.
  intros Hp Hr. destruct p as [a|X f k|X q k]; try done. destruct Hp as [Ho _].
  destruct q; cbn in Hr; simplify_eq; exact Ho.
Qed.

(** The ghosts of the watchdogs are in no count. *)
Lemma owners_clients n m gs k :
  route_inv n m gs -> owners (counted k) gs = owners (counted k) (take n gs).
Proof.
  intros Hm. rewrite <-(take_drop n gs) at 1. unfold owners. rewrite filter_app, length_app.
  change (len (filter _ (drop n gs))) with (owners (counted k) (drop n gs)).
  enough (owners (counted k) (drop n gs) = 0) by (unfold owners in *; lia).
  apply owners_none. intros g [j Hj]%list_elem_of_lookup. rewrite lookup_drop in Hj.
  by apply (inv_dog _ _ _ Hm j).
Qed.

Lemma lookup_take_inv {A} (l : list A) n i x : take n l !! i = Some x -> (i < n)%nat /\ l !! i = Some x.
Proof.
  intros Hi. assert (Hlt : (i < n)%nat) by (apply lookup_lt_Some in Hi; rewrite length_take in Hi; lia).
  by rewrite lookup_take_lt in Hi.
Qed.

Lemma counters_at_rest n s gs k f :
  pool_ok (route_inv n) owns (may_wait n) (task_post n) s gs -> at_rest n s ->
  (forall i p g, tasks s !! i = Some p -> gs !! i = Some g -> (i < n)%nat ->
     match relaying p with Some w => relay_on w g | None => client_over g end -> counted k g = f p) ->
  cells (mem s) (cell_of k) = tally n f s.
Proof.
  intros (Hm & Hl & Hw) Hrest Hf. rewrite (inv_counter _ _ _ Hm), (owners_clients n (mem s)) by done.
  apply owners_as; [by rewrite !length_take, Hl|].
  intros i g p [Hi Hg]%lookup_take_inv Hp'. pose proof (lookup_take_inv _ _ _ _ Hp') as [_ Hp].
  apply (Hf i p g Hp Hg Hi). pose proof (Hw _ _ _ Hp Hg) as Hpg.
  destruct (relaying p) as [w|] eqn:Hr; [by eapply quic_relaying_wp|].
  destruct (Hrest p (list_elem_of_lookup_2 _ _ _ Hp')) as [Hfin|[w Hw']]; [|congruence].
  destruct p; try done. unfold task_post in Hpg. cbn in Hpg. by rewrite decide_True in Hpg.
Qed.

(** C14. The counters of a QUIC-native route: whatever the clients, the order
    in which the atomic operations of the clients and of their watchdogs
    interleave and what the network answers, when every client is finished or
    relays, the active flows of the route and of each worker and the active
    connections are exactly the clients that relay. *)
Theorem quic_flows_counted (route : Route) (env : Oracle Question) (clients : list Tunnel)
    (sched : list nat) (s : pool) :
  2 * len clients < 2 ^ 64 ->
  runs (task_step env) (route_start route clients) sched = Some s ->
  at_rest (length clients) s ->
  cells (mem s) (St ActiveQuicFlows) = tally (length clients) relays s /\
  cells (mem s) (St ActiveTcp) = tally (length clients) relays s /\
  forall w, cells (mem s) (Wk w WorkerActiveFlows) = tally (length clients) (relays_on w) s.
Proof.
  intros Hn Hr Hrest. destruct (quic_route_reaches route env clients sched s Hn Hr) as (gs & Hok).
  split_and!; [apply (counters_at_rest _ _ _ OnRoute _ Hok Hrest)
              |apply (counters_at_rest _ _ _ OfClients _ Hok Hrest)
              |intros w; apply (counters_at_rest _ _ _ (OnWorker w) _ Hok Hrest)];
    intros i p g _ _ _ Hg; unfold relays, relays_on; destruct (relaying p) as [w'|];
    destruct Hg as (Hgw & Hgf & Hgt & _); cbn; rewrite ?Hgw, ?Hgf, ?Hgt; done.
Qed.

(** When nothing can run, nobody waits for anybody. *)
Lemma stuck_over n env s gs i p g :
  pool_ok (route_inv n) owns (may_wait n) (task_post n) s gs -> (forall i, task_step env s i = None) ->
  tasks s !! i = Some p -> gs !! i = Some g -> exists a, p = Ret a /\ task_post n i a g.
Proof.
  intros Hok Hstuck. pose proof Hok as (Hm & Hl & Hw).
  assert (Hget : forall j, (j < n + n)%nat -> exists p g, tasks s !! j = Some p /\ gs !! j = Some g).
  { intros j Hj. destruct (lookup_lt_is_Some_2 gs j) as [h Hh]; [rewrite (inv_length _ _ _ Hm); lia|].
    destruct (lookup_lt_is_Some_2 (tasks s) j) as [q Hq]; [rewrite <-Hl, (inv_length _ _ _ Hm); lia|]. eauto. }
  assert (Hclient : forall j q h, (j < n)%nat -> tasks s !! j = Some q -> gs !! j = Some h ->
    exists a, q = Ret a /\ task_post n j a h).
  { intros j q h Hj Hq Hh.
    destruct (stuck_waits _ _ _ _ env s gs j q h Hok Hq Hh (Hstuck j)) as [?|Hwait]; [done|].
    unfold may_wait in Hwait. rewrite decide_True in Hwait by done. destruct Hwait as [Hsp Hca]. exfalso.
    destruct (Hget (n + j)%nat) as (qd & d & Hqd & Hd); [lia|].
    destruct (stuck_waits _ _ _ _ env s gs _ qd d Hok Hqd Hd (Hstuck _)) as [(a & -> & Hpost)|Hwait].
    - unfold task_post in Hpost. rewrite decide_False in Hpost by lia. by eapply (inv_cancel _ _ _ Hm j h d).
    - unfold may_wait in Hwait. rewrite decide_False in Hwait by lia.
      replace (n + j - n)%nat with j in Hwait by lia. destruct Hwait as [_ H0].
      rewrite (inv_spawned _ _ _ Hm j h Hj Hh) in H0. unfold spawn_value in H0. by rewrite Hsp in H0. }
  intros Hp Hg. destruct (decide (i < n)%nat) as [Hi|Hi]; [by apply Hclient|].
  destruct (stuck_waits _ _ _ _ env s gs i p g Hok Hp Hg (Hstuck i)) as [?|Hwait]; [done|].
  unfold may_wait in Hwait. rewrite decide_False in Hwait by done. destruct Hwait as [_ H0]. exfalso.
  pose proof (lookup_lt_Some _ _ _ Hg) as Hlt. rewrite (inv_length _ _ _ Hm) in Hlt.
  destruct (Hget (i - n)%nat) as (q & h & Hq & Hh); [lia|].
  destruct (Hclient (i - n)%nat q h ltac:(lia) Hq Hh) as (a & _ & Hpost).
  unfold task_post in Hpost. rewrite decide_True in Hpost by lia. destruct Hpost as (_ & _ & _ & Hov).
  rewrite (inv_spawned _ _ _ Hm (i - n)%nat h ltac:(lia) Hh) in H0. unfold spawn_value in H0.
  destruct (g_spawned h), (g_over h); done.
Qed.

(** C16. Every client of a QUIC-native route is served to the end: clients and
    watchdogs cannot run for ever nor wait for each other for ever; when none
    of them can run, all are finished and the counters of active flows and
    connections are back to 0. *)
Theorem quic_clients_end (route : Route) (env : Oracle Question) (clients : list Tunnel)
    (sched : list nat) (s : pool) :
  2 * len clients < 2 ^ 64 ->
  runs (task_step env) (route_start route clients) sched = Some s ->
  Acc (fun s' s => exists i, task_step env s i = Some s') s /\
  ((forall i, task_step env s i = None) ->
     (forall p, p ∈ tasks s -> finished p = true) /\
     cells (mem s) (St ActiveQuicFlows) = 0 /\ cells (mem s) (St ActiveTcp) = 0 /\
     forall w, cells (mem s) (Wk w WorkerActiveFlows) = 0).
Proof.
  intros Hn Hr. split; [apply pool_terminates|]. intros Hstuck.
  destruct (quic_route_reaches route env clients sched s Hn Hr) as (gs & Hok).
  pose proof Hok as (Hm & Hl & Hw).
  assert (Hover : forall i p, tasks s !! i = Some p -> exists a, p = Ret a).
  { intros i p Hp. destruct (lookup_lt_is_Some_2 gs i) as [g Hg]; [rewrite Hl; by eapply lookup_lt_Some|].
    destruct (stuck_over _ env s gs i p g Hok Hstuck Hp Hg) as (a & -> & _). eauto. }
  assert (Hfin : forall p, p ∈ tasks s -> finished p = true).
  { intros p [i Hp]%list_elem_of_lookup. by destruct (Hover i p Hp) as [a ->]. }
  assert (Hrest : at_rest (length clients) s).
  { intros p Hp. left. apply elem_of_take in Hp as (i & Hp & _). apply Hfin. by eapply list_elem_of_lookup_2. }
  assert (H0 : forall k, cells (mem s) (cell_of k) = 0).
  { intros k. rewrite (counters_at_rest _ _ _ k (fun _ => false) Hok Hrest).
    - unfold tally. induction (take _ _) as [|p l IH]; [done|]. by rewrite filter_cons, decide_False.
    - intros i p g Hp Hg Hi Hpg. destruct (Hover i p Hp) as [a ->]. cbn in Hpg.
      destruct Hpg as (Hgw & Hgf & Hgt & _). destruct k; cbn; rewrite ?Hgw, ?Hgf, ?Hgt; done. }
  split_and!; [done|apply (H0 OnRoute)|apply (H0 OfClients)|intros w; apply (H0 (OnWorker w))].
Qed.

Definition sample_quic_args : QuicArgs :=
  {| quic_tcp_target := None; transport_pool_size := 2; pool_policy := None; workload_hint := None;
     transport_pool_reason := None; args_egress_proxy := None |}.
Definition sample_quic_route : Route := MkRoute sample_quic_args "quic-native:127.0.0.1:1080:peer" 2.

Definition sample_quic_tunnels : list Tunnel :=
  [MkTunnel TcpConnect "a" 80 SocksSuccess []; MkTunnel TcpConnect "b" 81 RespondHttpConnect [x00];
   MkTunnel TcpConnect "c" 82 SocksSuccess []].

(** A network where the header of the stream to port 82 times out and no copy
    ends by itself. *)
Definition sample_quic_answers : Oracle Question := fun t X q =>
  match q in Question X return X with
  | OpenBi _ => Ok tt
  | WriteFlowHeader h => if port (target h) =? 82 then None else Some (Ok tt)
  | Elapsed => N.of_nat t
  | Respond _ => Ok tt
  | RespondError _ => Ok tt
  | WriteInitial _ => Some (Ok tt)
  | FirstEvent _ => ReadFirstByte
  | NextEvent _ => None
  | Moved _ => (100, 2000)
  | FirstByteTimer => tt
  end.

Definition sample_quic_start : pool := route_start sample_quic_route sample_quic_tunnels.

Definition resting (p : prog (result string unit)) : bool := finished p || relays p.

(** Two clients relay, the third was refused. *)
Definition sample_quic_schedule : list nat := replicate 38 0%nat ++ replicate 40 1%nat ++ replicate 41 2%nat.

Lemma sample_quic_schedule_runs :
  exists s, runs (task_step sample_quic_answers) sample_quic_start sample_quic_schedule = Some s /\
    forallb resting (take 3 (tasks s)) = true /\ tally 3 relays s = 2 /\ tally 3 (relays_on 1) s = 1.
Proof.
  assert (Hc : (fun s => (forallb resting (take 3 (tasks s)), tally 3 relays s, tally 3 (relays_on 1) s))
    <$> runs (task_step sample_quic_answers) sample_quic_start sample_quic_schedule
    = Some (true, 2, 1)) by (vm_compute; reflexivity).
  destruct (runs (task_step sample_quic_answers) sample_quic_start sample_quic_schedule) as [s|]; [|discriminate Hc].
  cbn [fmap option_fmap option_map] in Hc. injection Hc as ???. by exists s.
Qed.

Lemma quic_flows_counted_witness :
  exists s, runs (task_step sample_quic_answers) sample_quic_start sample_quic_schedule = Some s /\
    cells (mem s) (St ActiveQuicFlows) = 2 /\ cells (mem s) (St ActiveTcp) = 2 /\
    cells (mem s) (Wk 1 WorkerActiveFlows) = 1.
Proof.
  destruct sample_quic_schedule_runs as (s & Hs & Hrest & Hall & H1). exists s. split; [exact Hs|].
  destruct (quic_flows_counted sample_quic_route sample_quic_answers sample_quic_tunnels sample_quic_schedule s
    ltac:(cbn; lia) Hs) as (Hc & Ht & Hk).
  - intros p Hp. rewrite forallb_forall in Hrest. apply list_elem_of_In, Hrest in Hp.
    apply orb_true_iff in Hp as [?|?%bool_decide_eq_true]; auto.
  - rewrite Hc, Ht, Hk. cbn [sample_quic_tunnels length]. rewrite Hall, H1. repeat split; reflexivity.
Defined.

Lemma quic_clients_end_witness :
  exists s, runs (task_step sample_quic_answers) sample_quic_start sample_quic_schedule = Some s /\
    Acc (fun s' s => exists i, task_step sample_quic_answers s i = Some s') s.
Proof.
  destruct sample_quic_schedule_runs as (s & Hs & _). exists s. split; [exact Hs|].
  apply (quic_clients_end sample_quic_route sample_quic_answers sample_quic_tunnels sample_quic_schedule s
    ltac:(cbn; lia) Hs).
Defined.

(** ** How a worker is chosen *)

Definition score_of (m : shared) (w : nat) : Z :=
  quic_worker_score (cells m (Wk w WorkerActiveFlows)) (cells m (Wk w WorkerOpenFailures))
    (cells m (Wk w WorkerLastOpenLatencyMs)) (cells m (Wk w WorkerBackpressureTimeouts))
    (cells m (Wk w WorkerResets)) (cells m (Wk w WorkerControlDegraded) =? 1).

(** The loop of [select_worker] over scores that stay as they are. *)
Fixpoint best_of (f : nat -> Z) (l : list nat) (best : option (Z * nat)) : option (Z * nat) :=
  match l with
  | [] => best
  | w :: l =>
    best_of f l
      match best with
      | Some (z, b) => if z <=? f w then Some (z, b) else Some (f w, w)
      | None => Some (f w, w)
      end
  end.

Lemma reads_worker_score w : reads (Q := Question) (worker_score w) (fun m => score_of m w).
Proof.
  intros env t m. unfold worker_score. repeat (erewrite alone_then by reflexivity).
  eexists. cbn [alone mret Prog_ret]. reflexivity.
Qed.

Lemma reads_best_worker l b : reads (Q := Question) (best_worker l b) (fun m => best_of (score_of m) l b).
Proof.
  intros env t m. revert t b. induction l as [|w l IH]; intros t b; cbn [best_worker best_of]; [by eexists|].
  destruct (reads_worker_score w env t m) as [t1 Ht1]. rewrite (alone_then _ _ _ _ _ _ _ _ Ht1). apply IH.
Qed.

Lemma best_of_spec f l z b :
  (best_of f l (Some (z, b)) = Some (z, b) /\ (forall w, w ∈ l -> z <= f w)) \/
  exists j w, best_of f l (Some (z, b)) = Some (f w, w) /\ l !! j = Some w /\ f w < z /\
    forall j' w', l !! j' = Some w' -> f w <= f w' /\ ((j' < j)%nat -> f w < f w').
Proof.
  revert z b. induction l as [|x l IH]; intros z b; cbn [best_of].
  { left. split; [done|]. by intros w ?%not_elem_of_nil. }
  destruct (Z.leb_spec z (f x)) as [Hle|Hlt].
  - destruct (IH z b) as [[-> Hall]|(j & w & -> & Hj & Hz & Hall)].
    + left. split; [done|]. intros w [->|?]%elem_of_cons; auto.
    + right. exists (S j), w. split_and!; try done. intros [|j'] w' Hw'; [cbn in Hw'; simplify_eq; lia|].
      destruct (Hall j' w' Hw') as [? Hl]. split; [done|]. intros. apply Hl. lia.
  - right. destruct (IH (f x) x) as [[-> Hall]|(j & w & -> & Hj & Hz & Hall)].
    + exists 0%nat, x. split_and!; try done. intros [|j'] w' Hw'; [cbn in Hw'; simplify_eq; lia|].
      split; [|lia]. apply Hall. by eapply list_elem_of_lookup_2.
    + exists (S j), w. split_and!; try done; [lia|]. intros [|j'] w' Hw'; [cbn in Hw'; simplify_eq; lia|].
      destruct (Hall j' w' Hw') as [? Hl]. split; [done|]. intros. apply Hl. lia.
Qed.

Lemma best_of_none f l :
  l <> [] -> exists j w, best_of f l None = Some (f w, w) /\ l !! j = Some w /\
    forall j' w', l !! j' = Some w' -> f w <= f w' /\ ((j' < j)%nat -> f w < f w').
Proof.
  destruct l as [|x l]; [done|]. intros _. cbn [best_of].
  destruct (best_of_spec f l (f x) x) as [[-> Hall]|(j & w & -> & Hj & Hz & Hall)].
  - exists 0%nat, x. split_and!; try done. intros [|j'] w' Hw'; [cbn in Hw'; simplify_eq; lia|].
    split; [|lia]. apply Hall. by eapply list_elem_of_lookup_2.
  - exists (S j), w. split_and!; try done. intros [|j'] w' Hw'; [cbn in Hw'; simplify_eq; lia|].
    destruct (Hall j' w' Hw') as [? Hl]. split; [done|]. intros. apply Hl. lia.
Qed.

Lemma lookup_rotation next n j w :
  0 <= next -> next + Z.of_nat n <= 2 ^ 64 -> (j < n)%nat ->
  rotation next n !! j = Some w <-> Z.of_nat w = (next + Z.of_nat j) mod Z.of_nat n.
Proof.
  intros Hnext Hn Hj. unfold rotation. rewrite list_lookup_fmap, lookup_seq_lt by done. cbn [fmap option_fmap option_map].
  rewrite wrap_u_small by (unfold in_u; lia).
  pose proof (Z.mod_pos_bound (next + Z.of_nat j) (Z.of_nat n) ltac:(lia)).
  split; [intros [= <-]; lia|]. intros Hw. f_equal.
  change (0 + j)%nat with j. rewrite <-Hw. lia.
Qed.

(** How a client gets its connection, when no other client runs meanwhile:
    of the workers with the lowest score it takes the first one counted from
    the place the pool has reached, which moves on by one for each client. *)
Theorem quic_worker_choice (env : Oracle Question) (t n : nat) (m : shared) :
  let next := cells m (St NextWorker) in
  (2 <= n)%nat -> 0 <= next -> next + Z.of_nat n <= 2 ^ 64 ->
  exists j w t' m', alone env (select_worker n) t m = Some (Ok w, t', m') /\
    (j < n)%nat /\ Z.of_nat w = (next + Z.of_nat j) mod Z.of_nat n /\
    (forall w', (w' < n)%nat -> score_of m w <= score_of m w') /\
    (forall j' w', (j' < j)%nat -> Z.of_nat w' = (next + Z.of_nat j') mod Z.of_nat n -> score_of m w < score_of m w') /\
    cells m' (St NextWorker) = wrap_u 64 (next + 1).
Proof.
  intros next Hn Hnext Hsmall. unfold select_worker. destruct n as [|[|n]]; [lia|lia|]. set (k := S (S n)) in *.
  set (m1 := put (St NextWorker) (wrap_u 64 (cells m (St NextWorker) + 1)) m).
  rewrite (alone_then env (fetch_add 64 (St NextWorker) 1) _ t m next (S t) m1) by reflexivity.
  destruct (reads_best_worker (rotation next k) None env (S t) m1) as [t1 Ht1].
  rewrite (alone_then _ _ _ _ _ _ _ _ Ht1).
  destruct (best_of_none (score_of m1) (rotation next k)) as (j & w & Hb & Hj & Hall).
  { unfold rotation, k. by cbn. }
  assert (Hjk : (j < k)%nat).
  { apply lookup_lt_Some in Hj. unfold rotation in Hj. by rewrite length_fmap, length_seq in Hj. }
  assert (Hsc : forall x, score_of m1 x = score_of m x).
  { intros x. unfold score_of, m1. by rewrite !put_ne by done. }
  rewrite Hb. exists j, w, t1, m1. split; [reflexivity|]. split; [done|].
  split; [by apply lookup_rotation|]. split; [|split].
  - intros w' Hw'. rewrite <-!Hsc.
    set (j' := Z.to_nat ((Z.of_nat w' - next) mod Z.of_nat k)).
    pose proof (Z.mod_pos_bound (Z.of_nat w' - next) (Z.of_nat k) ltac:(lia)).
    apply (Hall j' w'), lookup_rotation; [done|done|lia|].
    unfold j'. rewrite Z2Nat.id, Zplus_mod_idemp_r by lia.
    replace (next + (Z.of_nat w' - next)) with (Z.of_nat w') by lia. symmetry. apply Z.mod_small. lia.
  - intros j' w' Hj' Hw'. rewrite <-!Hsc. apply (Hall j' w'); [|done]. apply lookup_rotation; try done. lia.
  - apply put_eq.
Qed.

Definition busy_workers : shared :=
  MkShared (fun c => match c with
    | Wk 0 WorkerActiveFlows => 1 | Wk 1 WorkerActiveFlows => 4 | Wk 2 WorkerActiveFlows => 1
    | St NextWorker => 7 | _ => 0 end) (fun _ => None) tt.

Lemma quic_worker_choice_witness :
  exists j w t' m', alone sample_quic_answers (select_worker 3) 0 busy_workers = Some (Ok w, t', m') /\
    (j < 3)%nat /\ Z.of_nat w = (7 + Z.of_nat j) mod 3 /\ cells m' (St NextWorker) = 8.
Proof.
  destruct (quic_worker_choice sample_quic_answers 0 3 busy_workers) as (j & w & t' & m' & Ha & Hj & Hw & _ & _ & Hn).
  - lia.
  - cbn. lia.
  - cbn. lia.
  - exists j, w, t', m'. split; [exact Ha|]. split; [exact Hj|]. split; [exact Hw|exact Hn].
Defined.

(** ** The watchdog *)

Lemma alone_reset env t (r : Stream) reason (m : shared) :
  cells m (Fl (owner r) Closed) = 0 ->
  exists t' m', alone env (reset r reason) t m = Some (tt, t', m') /\
    cells m' (Fl (owner r) Closed) = 1 /\
    cells m' (St QuicFlowResets) = wrap_u 64 (cells m (St QuicFlowResets) + 1) /\
    notes m' LastFlowCloseReason = Some reason /\
    (forall j f, f <> Closed -> cells m' (Fl j f) = cells m (Fl j f)).
Proof.
  intros Hcl. unfold reset. set (m1 := put (Fl (owner r) Closed) 1 m).
  rewrite (alone_then env (swap _ 1) _ t m 0 (S t) m1) by (cbn; by rewrite Hcl).
  cbn [Z.eqb]. eexists _, _. split; [reflexivity|]. cbn [cells notes].
  set (m2 := if cells m1 (Wk (worker r) WorkerActiveFlows) =? 0 then m1 else _).
  assert (Hm2 : forall c, c <> Wk (worker r) WorkerActiveFlows -> cells m2 c = cells m1 c).
  { intros c Hc. unfold m2. destruct (_ =? 0); [done|]. by apply put_ne. }
  split_and!.
  - rewrite !put_ne, Hm2 by done. apply put_eq.
  - rewrite put_eq, put_ne, Hm2 by done. unfold m1. by rewrite put_ne.
  - done.
  - intros j f Hf. rewrite !put_ne, Hm2 by done. unfold m1. rewrite put_ne by congruence. done.
Qed.

(** C25. The watchdog ends relays that are alive: when its time is over it
    drops its end of the watch channel even though the remote has already
    sent something, and the relay takes the change for the timeout.  A flow
    that lives longer than 15 seconds is reset and reported as one whose first
    byte did not arrive. *)
Theorem watchdog_resets_live_flow (env : Oracle Question) (t i w : nat) (m : shared) :
  cells m (Fl i WatchdogSpawned) = 1 -> cells m (Fl i WatchdogAborted) = 0 ->
  cells m (Fl i FirstByteRecorded) = 1 -> cells m (Fl i Closed) = 0 ->
  exists t1 m1 t2 m2, alone env (watchdog i) t m = Some (Ok tt, t1, m1) /\
    alone env (cancelled (MkStream i w)) t1 m1 = Some (FirstByteTimeout, t2, m2) /\
    cells m2 (Fl i FirstByteRecorded) = 1 /\ cells m2 (Fl i Closed) = 1 /\
    cells m2 (St QuicFlowResets) = wrap_u 64 (cells m (St QuicFlowResets) + 1) /\
    notes m2 LastFlowCloseReason = Some first_byte_timeout.
Proof.
  intros Hsp Hab Hfb Hcl. set (m1 := put (Fl i CancelChannel) 2 m).
  assert (Hdog : exists t1, alone env (watchdog i) t m = Some (Ok tt, t1, m1)).
  { unfold watchdog. rewrite (alone_then env _ _ t m true (S t) m) by (cbn; by rewrite Hsp).
    erewrite (alone_then env (ask FirstByteTimer)) by reflexivity.
    rewrite (alone_then env (load _) _ _ m 0 (S (S (S t))) m) by (cbn; by rewrite Hab).
    rewrite (alone_then env _ _ _ m tt (S (S (S (S t)))) m); [by eexists|]. cbn [Z.eqb].
    by rewrite (alone_then env (load _) _ _ m 1 (S (S (S (S t)))) m) by (cbn; by rewrite Hfb). }
  destruct Hdog as [t1 Hdog]. unfold cancelled.
  destruct (alone_reset env (S t1) (MkStream i w) first_byte_timeout m1) as (t2 & m2 & Hr & Hc2 & Hre & Hn & Hfl).
  { unfold m1. by rewrite put_ne. }
  exists t1, m1, t2, m2. split; [exact Hdog|]. split.
  { rewrite (alone_then env _ _ t1 m1 tt (S t1) m1) by (unfold waiting; cbn [alone owner]; unfold m1; by rewrite put_eq).
    by rewrite (alone_then _ _ _ _ _ _ _ _ Hr). }
  rewrite Hfl, Hre by done. unfold m1. rewrite !put_ne by done. done.
Qed.

(** A relay on the second worker that has heard from the remote. *)
Definition live_relay : shared :=
  MkShared (fun c => match c with
    | Fl 0 WatchdogSpawned | Fl 0 FirstByteRecorded => 1
    | Wk 1 WorkerActiveFlows | St ActiveQuicFlows | St ActiveTcp => 1 | _ => 0 end) (fun _ => None) tt.

Lemma watchdog_resets_live_flow_witness :
  exists t1 m1 t2 m2, alone sample_quic_answers (watchdog 0) 20 live_relay = Some (Ok tt, t1, m1) /\
    alone sample_quic_answers (cancelled (MkStream 0 1)) t1 m1 = Some (FirstByteTimeout, t2, m2) /\
    cells m2 (Fl 0 FirstByteRecorded) = 1 /\ cells m2 (St QuicFlowResets) = 1 /\
    notes m2 LastFlowCloseReason = Some "QUIC-native first byte timed out after 15s"%string.
Proof.
  destruct (watchdog_resets_live_flow sample_quic_answers 20 0 1 live_relay eq_refl eq_refl eq_refl eq_refl)
    as (t1 & m1 & t2 & m2 & Hd & Hc & Hf & _ & Hr & Hn).
  exists t1, m1, t2, m2. split; [exact Hd|]. split; [exact Hc|]. split; [exact Hf|]. split; [exact Hr|exact Hn].
Defined.

Definition outcome {A} (p : prog A) : option A := match p with Ret a => Some a | _ => None end.

(** The first two clients of the sample run have heard from their targets;
    after the watchdogs' time both have failed. *)
Example live_flows_fail :
  (fun s => (outcome <$> take 2 (tasks s), cells (mem s) (Fl 0 FirstByteRecorded),
             cells (mem s) (Fl 1 FirstByteRecorded), cells (mem s) (St QuicFlowResets)))
    <$> runs (task_step sample_quic_answers) sample_quic_start
      (sample_quic_schedule ++ replicate 5 0%nat ++ replicate 5 1%nat ++ replicate 5 3%nat ++ replicate 5 4%nat
       ++ replicate 16 0%nat ++ replicate 16 1%nat)
  = Some ([Some (Err first_byte_timeout); Some (Err first_byte_timeout)], 1, 1, 2).
Proof. vm_compute. reflexivity. Qed.
