(* ===== verification/Json.v ===== *)
(** * JSON values and their redaction

    [serde_json::Value] with the maps it uses ([BTreeMap], read in the order of
    the keys), and [crates/ssh-proxy-core/src/redaction.rs], which reports and
    diagnostics go through before they are shown.  Paths are those of Unix. *)
From stdpp Require Import base list strings sorting.
From S2P Require Import Prelude RustStr Collections.

Import Strings.Ascii.

(** [serde_json::Number]; a float is its 64 bits. *)
Inductive Number := PosInt (n : Z) | NegInt (n : Z) | Float (bits : Z).

#[warnings="-register-all"] Inductive Value :=
| Null
| Bool (b : bool)
| Num (n : Number)
| Str (s : string)
| Array (values : list Value)
| Object (fields : list (string * Value)).

(** [Map::insert] and [Map::get]. *)
Fixpoint map_insert {V} (k : string) (v : V) (m : list (string * V)) : list (string * V) :=
  match m with
  | [] => [(k, v)]
  | (k', v') :: m' =>
    if String.eqb k k' then (k, v) :: m'
    else if str_ltb k k' then (k, v) :: m
    else (k', v') :: map_insert k v m'
  end.

Fixpoint map_get {V} (k : string) (m : list (string * V)) : option V :=
  match m with
  | [] => None
  | (k', v) :: m => if String.eqb k k' then Some v else map_get k m
  end.

(** [FromIterator for Map]. *)
Definition map_of {V} (l : list (string * V)) : list (string * V) :=
  foldl (fun m kv => map_insert kv.1 kv.2 m) [] l.

(** ** Redaction *)

(** [Path::file_name]: the last component, unless it is [..] or the path has
    none; [.] counts only at the start of a relative path. *)
Definition components (path : string) : list string :=
  match split_char "/"%char path with
  | first :: others =>
    (if String.eqb first EmptyString then [] else [first])
    ++ filter (fun c => c <> EmptyString /\ c <> ".") others
  | [] => []
  end.

Definition file_name (path : string) : option string :=
  c ← last (components path);
  if String.eqb c ".." || String.eqb c "." then None else Some c.

Definition redacted_path (path : string) : string :=
  "<redacted>/" +:+ default "<path>" (file_name path).

Definition secret_key (key : string) : bool :=
  let lower := to_ascii_lowercase key in
  contains lower "token" || contains lower "password" || contains lower "passphrase"
  || contains lower "secret" || contains lower "credential".

Definition path_key (key : string) : bool :=
  let lower := to_ascii_lowercase key in
  contains lower "identity" || contains lower "known_hosts".

(** The body of the loop of [redact_object]. *)
Definition redact_field (redact : bool -> Value -> Value) (key : string) (value : Value) : Value :=
  if secret_key key then Str "<redacted>"
  else if path_key key then redact true value
  else redact false value.

(** [redact_value] and [redact_pathish] call each other; they differ on
    strings only, and which one runs is the argument [pathish]. *)
Fixpoint redact (pathish : bool) (value : Value) : Value :=
  match value with
  | Object object =>
    Object (foldl (fun redacted kv => map_insert kv.1 (redact_field redact kv.1 kv.2) redacted) [] object)
  | Array values => Array (redact pathish <$> values)
  | Str path => if pathish then Str (redacted_path path) else value
  | other => other
  end.

Definition redact_value : Value -> Value := redact false.
Definition redact_pathish : Value -> Value := redact true.

(** ** Well-formed values *)

(** Induction over a value with the values inside arrays and objects. *)
Section induction.
Context (P : Value -> Prop).
Context (P_null : P Null) (P_bool : forall b, P (Bool b)) (P_num : forall n, P (Num n)) (P_str : forall s, P (Str s)).
Context (P_array : forall values, Forall P values -> P (Array values)).
Context (P_object : forall fields, Forall (fun kv => P kv.2) fields -> P (Object fields)).

Fixpoint value_ind (v : Value) : P v :=
  match v with
  | Null => P_null
  | Bool b => P_bool b
  | Num n => P_num n
  | Str s => P_str s
  | Array values => P_array values
      ((fix go l := match l return Forall P l with
        | [] => Forall_nil_2 P
        | x :: l => Forall_cons_2 P x l (value_ind x) (go l)
        end) values)
  | Object fields => P_object fields
      ((fix go l := match l return Forall (fun kv => P kv.2) l with
        | [] => Forall_nil_2 _
        | x :: l => Forall_cons_2 _ x l (value_ind x.2) (go l)
        end) fields)
  end.
End induction.

(** The keys of every object are in order, each once: what a [BTreeMap] keeps. *)
Definition keys_ordered {V} (m : list (string * V)) : Prop := StronglySorted str_lt m.*1.

#[warnings="-register-all"] Inductive value_ok : Value -> Prop :=
| null_ok : value_ok Null
| bool_ok b : value_ok (Bool b)
| num_ok n : value_ok (Num n)
| str_value_ok s : value_ok (Str s)
| array_ok values : Forall value_ok values -> value_ok (Array values)
| object_ok fields :
    keys_ordered fields -> Forall (fun kv => value_ok kv.2) fields -> value_ok (Object fields).

Lemma map_insert_after {V} (k : string) (v : V) m :
  Forall (fun k' => str_lt k' k) m.*1 -> map_insert k v m = m ++ [(k, v)].
Proof.
  induction m as [|[k' v'] m IH]; [done|]. intros [Hk Hm]%Forall_cons. cbn.
  destruct (String.eqb_spec k k') as [->|].
  { by apply (irreflexivity str_lt) in Hk. }
  destruct (str_ltb k k') eqn:E; [by destruct (asymmetry (R := str_lt) E Hk)|]. by rewrite IH.
Qed.

(** A map built in the order of its keys lists them in this order. *)
Lemma foldl_map_insert {V W} (f : string * V -> W) l : forall m,
  StronglySorted str_lt (m.*1 ++ l.*1) ->
  foldl (fun m kv => map_insert kv.1 (f kv) m) m l = m ++ ((fun kv => (kv.1, f kv)) <$> l).
Proof.
  induction l as [|[k v] l IH]; intros m Hs; cbn; [by rewrite app_nil_r|].
  rewrite map_insert_after, IH.
  - by rewrite <-app_assoc.
  - by rewrite fmap_app, <-app_assoc.
  - apply Forall_forall. intros k' Hk'. cbn in Hs.
    eapply StronglySorted_app_1_elem_of; [done..|apply list_elem_of_here].
Qed.

(** ** What a redacted value shows *)

(** The fields of [redact_object]. *)
Lemma redact_object_eq pathish fields :
  keys_ordered fields ->
  redact pathish (Object fields) = Object ((fun kv => (kv.1, redact_field redact kv.1 kv.2)) <$> fields).
Proof.
  intros Hk. cbn. f_equal. apply (foldl_map_insert (fun kv => redact_field redact kv.1 kv.2) fields []). done.
Qed.

(** [redact_pathish] as the source writes it. *)
Lemma redact_pathish_eq v :
  redact_pathish v = match v with
                     | Str path => Str (redacted_path path)
                     | Array values => Array (redact_pathish <$> values)
                     | _ => redact_value v
                     end.
Proof. by destruct v. Qed.

(** The label of a path that survives. *)
Definition path_label (path : string) : string := default "<path>" (file_name path).

(** A key names one of the words, in any case. *)
Definition names (words : list string) (key : string) : Prop :=
  exists w a b, w ∈ words /\ to_ascii_lowercase key = a +:+ w +:+ b.

Lemma names_spec words key : existsb (contains (to_ascii_lowercase key)) words = true <-> names words key.
Proof.
  unfold names. rewrite List.existsb_exists. setoid_rewrite contains_spec. setoid_rewrite list_elem_of_In.
  naive_solver.
Qed.

Lemma secret_key_spec key :
  secret_key key = true <-> names ["token"; "password"; "passphrase"; "secret"; "credential"] key.
Proof. rewrite <-names_spec. unfold secret_key. cbn [existsb]. by rewrite orb_false_r, !orb_assoc. Qed.

Lemma path_key_spec key : path_key key = true <-> names ["identity"; "known_hosts"] key.
Proof. rewrite <-names_spec. unfold path_key. cbn [existsb]. by rewrite orb_false_r. Qed.

(** [same_public pathish v w]: [v] and [w] are equal but for the values stored
    under secret keys and the directories of paths stored under path keys. *)
#[warnings="-register-all"] Inductive same_public : bool -> Value -> Value -> Prop :=
| same_null p : same_public p Null Null
| same_bool p b : same_public p (Bool b) (Bool b)
| same_num p n : same_public p (Num n) (Num n)
| same_str s : same_public false (Str s) (Str s)
| same_path s t : path_label s = path_label t -> same_public true (Str s) (Str t)
| same_array p l k : Forall2 (same_public p) l k -> same_public p (Array l) (Array k)
| same_object p f g : Forall2 same_field f g -> same_public p (Object f) (Object g)
with same_field : string * Value -> string * Value -> Prop :=
| same_secret k v w : secret_key k = true -> same_field (k, v) (k, w)
| same_shown k v w :
    secret_key k = false -> same_public (path_key k) v w -> same_field (k, v) (k, w).

Lemma redact_field_shown k v : secret_key k = false -> redact_field redact k v = redact (path_key k) v.
Proof. unfold redact_field. intros ->. by destruct (path_key k). Qed.

Lemma fmap_eq_Forall2 {A B} (f g : A -> B) l k :
  f <$> l = g <$> k <-> Forall2 (fun x y => f x = g y) l k.
Proof.
  split.
  - revert k. induction l as [|x l IH]; intros [|y k]; cbn; intros; simplify_eq; eauto.
  - by induction 1; cbn; f_equal.
Qed.

Ltac redact_inside :=
  match goal with H : forall pathish w, value_ok ?x -> value_ok w -> _ |- _ => apply H end.

Lemma redact_same v : forall pathish w, value_ok v -> value_ok w ->
  redact pathish v = redact pathish w <-> same_public pathish v w.
Proof.
  induction v as [|b|n|s|l IH|f IH] using value_ind; intros p w Hv Hw.
  1-3: split; [destruct w, p; cbn; intros; simplify_eq; constructor|by inversion 1].
  - split.
    + destruct p, w; cbn; intros Heq; simplify_eq; try constructor.
      unfold redacted_path in Heq. by simplify_eq.
    + inversion 1; subst; [done|]. cbn. unfold redacted_path, path_label in *. by f_equal; f_equal.
  - inversion Hv as [| | | |? Hl|]; subst. split.
    + destruct w as [| | |t|k|g]; [destruct p; done..| |destruct p; done].
      inversion Hw as [| | | |? Hk|]; subst. cbn. intros [= Heq]. constructor.
      rewrite fmap_eq_Forall2 in Heq. clear Hv Hw. induction Heq as [|x y l k Heq _ IHl]; [done|].
      decompose_Forall_hyps. constructor; [by redact_inside|by auto].
    + inversion 1 as [| | | | |? ? k Hs|]; subst. inversion Hw as [| | | |? Hk|]; subst. cbn. f_equal.
      apply fmap_eq_Forall2. clear H Hv Hw. induction Hs as [|x y l k Hs _ IHl]; [done|].
      decompose_Forall_hyps. constructor; [by redact_inside|by auto].
  - inversion Hv as [| | | | |? Hf1 Hf]; subst. split.
    + destruct w as [| | |t|k|g]; [destruct p; done..|].
      inversion Hw as [| | | | |? Hg1 Hg]; subst. rewrite !redact_object_eq by done. intros [= Heq]. constructor.
      rewrite fmap_eq_Forall2 in Heq. clear Hv Hw Hf1 Hg1. induction Heq as [|[a x] [b y] f g Heq _ IHf]; [done|].
      decompose_Forall_hyps. constructor; [|by auto]. cbn in *. simplify_eq.
      match goal with H : redact_field _ _ _ = _ |- _ => rename H into Hx end.
      destruct (secret_key b) eqn:E; [by constructor|]. apply same_shown; [done|].
      rewrite !redact_field_shown in Hx by done. by redact_inside.
    + inversion 1 as [| | | | | |? ? g Hs]; subst. inversion Hw as [| | | | |? Hg1 Hg]; subst.
      rewrite !redact_object_eq by done. f_equal. apply fmap_eq_Forall2. clear H Hv Hw Hf1 Hg1.
      induction Hs as [|[a x] [b y] f g Hs _ IHf]; [done|]. decompose_Forall_hyps. constructor; [|by auto]. cbn in *.
      inversion Hs as [k v w Hk|k v w Hk Hs']; subst; f_equal.
      * unfold redact_field. by rewrite Hk.
      * rewrite !redact_field_shown by done. by redact_inside.
Qed.

Lemma split_char_parts a s : Forall (fun p => str_all (not_in [a]) p = true) (split_char a s).
Proof.
  induction s as [|c s IH]; cbn; [by repeat constructor|].
  destruct (Ascii.eqb c a) eqn:E; [by constructor|].
  destruct IH as [|h t Hh Ht]; constructor; try done; cbn; unfold not_in; cbn; by rewrite E.
Qed.

Lemma split_char_none a s : str_all (not_in [a]) s = true -> split_char a s = [s].
Proof.
  induction s as [|c s IH]; [done|]. cbn. unfold not_in at 1. cbn. intros H.
  destruct (Ascii.eqb c a); [done|]. by rewrite IH.
Qed.

Lemma split_char_app a p s :
  str_all (not_in [a]) p = true -> split_char a (p +:+ String a s) = p :: split_char a s.
Proof.
  induction p as [|c p IH].
  { intros _. change (EmptyString +:+ String a s) with (String a s). cbn [split_char]. by rewrite Ascii.eqb_refl. }
  change (String c p +:+ String a s) with (String c (p +:+ String a s)). cbn [split_char str_all].
  unfold not_in at 1. cbn [existsb]. destruct (Ascii.eqb c a); [done|]. cbn. intros H. by rewrite IH.
Qed.

(** A name with a directory in front of it is its own file name. *)
Lemma file_name_in c :
  str_all (not_in ["/"]%char) c = true -> c <> EmptyString -> c <> "." -> c <> ".." ->
  file_name ("<redacted>/" +:+ c) = Some c.
Proof.
  intros Hc H1 H2 H3. unfold file_name, components.
  change ("<redacted>/" +:+ c) with ("<redacted>" +:+ String "/" c).
  rewrite split_char_app, split_char_none by done. cbn [app]. rewrite filter_cons_True by done. cbn.
  destruct (String.eqb_spec c ".."); [done|]. by destruct (String.eqb_spec c ".").
Qed.

Lemma file_name_inv s c :
  file_name s = Some c ->
  str_all (not_in ["/"]%char) c = true /\ c <> EmptyString /\ c <> "." /\ c <> "..".
Proof.
  unfold file_name. intros (d & Hd & Hc)%bind_Some.
  destruct (String.eqb_spec d ".."), (String.eqb_spec d "."); simplify_eq/=.
  apply last_Some_elem_of in Hd. unfold components in Hd. pose proof (split_char_parts "/" s) as Hp.
  destruct (split_char "/" s) as [|first others]; [by apply not_elem_of_nil in Hd|].
  rewrite Forall_cons, Forall_forall in Hp. destruct Hp as [Hf Ho].
  apply elem_of_app in Hd as [Hd|[[??] Hd]%list_elem_of_filter]; [|by split_and!; auto].
  destruct (String.eqb_spec first EmptyString); [by apply not_elem_of_nil in Hd|].
  apply list_elem_of_singleton in Hd as ->. by split_and!.
Qed.

Lemma redacted_path_again s : redacted_path (redacted_path s) = redacted_path s.
Proof.
  unfold redacted_path at 1 3. f_equal. unfold redacted_path.
  destruct (file_name s) as [c|] eqn:E; cbn [default]; [|by vm_compute].
  apply file_name_inv in E as (?&?&?&?). by rewrite file_name_in.
Qed.

Lemma redact_again v : forall pathish, value_ok v -> redact pathish (redact pathish v) = redact pathish v.
Proof.
  induction v as [|b|n|s|l IH|f IH] using value_ind; intros p Hv; [done..| | |].
  - destruct p; cbn; [|done]. by rewrite redacted_path_again.
  - inversion Hv as [| | | |? Hl|]; subst. cbn. f_equal. rewrite <-list_fmap_compose.
    apply list_fmap_ext. intros i x Hx. rewrite Forall_lookup in IH, Hl. by eapply IH; eauto.
  - inversion Hv as [| | | | |? Hf1 Hf]; subst. rewrite redact_object_eq by done.
    rewrite redact_object_eq by (unfold keys_ordered; by rewrite <-list_fmap_compose).
    f_equal. rewrite <-list_fmap_compose. apply list_fmap_ext. intros i [k x] Hx. cbn. f_equal.
    rewrite Forall_lookup in IH, Hf. specialize (IH i _ Hx). specialize (Hf i _ Hx). cbn in *.
    unfold redact_field. by destruct (secret_key k), (path_key k); auto.
Qed.

(** C21. Redaction goes by the names of the keys: two values have the same
    redaction if and only if they differ at most in what they store, at any
    depth, under secret keys, and in the directories of paths under path keys.
    The secret keys are exactly those that name a token, password, passphrase,
    secret or credential, in any case, and the path keys those that name
    identities or known hosts.  Redacting again changes nothing.  What a text
    says is not looked at: the proxy URLs of a session are shown as they are,
    with the credentials they may contain. *)
Theorem redaction_exact (v w : Value) :
  value_ok v -> value_ok w ->
  (redact_value v = redact_value w <-> same_public false v w)
  /\ redact_value (redact_value v) = redact_value v
  /\ (forall key, secret_key key = true
        <-> names ["token"; "password"; "passphrase"; "secret"; "credential"] key)
  /\ (forall key, path_key key = true <-> names ["identity"; "known_hosts"] key)
  /\ (forall local remote, let urls := Object [("local_proxy", Str local); ("remote_url", Str remote)] in
        redact_value urls = urls).
Proof.
  intros Hv Hw. split_and!; [by apply redact_same|by apply redact_again|apply secret_key_spec|apply path_key_spec|done].
Qed.

(** Two reports of a profile that differ in a token and in the home directory. *)
Definition sample_report (token home : string) : Value :=
  Object [("auth", Object [("Control_Token", Str token)]);
          ("identity_file", Array [Str (home +:+ "/.ssh/id_rsa")]);
          ("port", Num (PosInt 22))].

Lemma sample_report_ok token home : value_ok (sample_report token home).
Proof. repeat constructor; done. Qed.

Lemma redaction_exact_witness :
  redact_value (sample_report "abc" "/home/a") = redact_value (sample_report "xyz" "/root")
  /\ redact_value (sample_report "abc" "/home/a")
     = Object [("auth", Object [("Control_Token", Str "<redacted>")]);
               ("identity_file", Array [Str "<redacted>/id_rsa"]);
               ("port", Num (PosInt 22))].
Proof.
  split; [|by vm_compute].
  apply (proj2 (proj1 (redaction_exact _ _ (sample_report_ok _ _) (sample_report_ok _ _)))).
  constructor. constructor; [|constructor; [|constructor; [|constructor]]].
  - apply same_shown; [reflexivity|]. constructor. constructor; [|constructor]. by apply same_secret.
  - apply same_shown; [reflexivity|]. constructor. constructor; [|constructor]. by apply same_path.
  - apply same_shown; [reflexivity|]. constructor.
Defined.
