(* ===== verification/Serde.v ===== *)
(** * Values on the wire

    serde_json turns a document into text and back; the [Serialize] and
    [Deserialize] implementations that serde derives for the types of the
    repository turn the values of these types into documents and back.  The
    text is a parameter with the documented round trip; what the derived
    implementations do is written out: one combinator per attribute and field
    type.  A document keeps the order and repetitions of an object's fields. *)
From stdpp Require Import base list strings sorting countable gmap.
From S2P Require Import Prelude RustStr Collections Json.

(** ** Text *)

Class SerdeJson := {
  (** [serde_json::to_vec]. *)
  json_text : Value -> list byte;
  (** [serde_json::from_slice], up to the document. *)
  json_parse : list byte -> option Value;
}.

(** What the parser reads back exactly: integers of 64 bits, strings that are
    UTF-8, and at most 127 levels.  (Floats may lose their last bit.) *)
Definition number_plain (n : Number) : Prop :=
  match n with
  | PosInt n => in_u 64 n
  | NegInt n => - 2 ^ 63 <= n < 0
  | Float _ => False
  end.

Fixpoint plain (depth : nat) (v : Value) : Prop :=
  match v with
  | Null | Bool _ => True
  | Num n => number_plain n
  | Str s => str_ok s
  | Array l => match depth with O => False | S d => Forall (plain d) l end
  | Object f => match depth with O => False | S d => Forall (fun kv => str_ok kv.1 /\ plain d kv.2) f end
  end.

Class SerdeJsonLaws `{SerdeJson} := {
  json_round_trip v : plain 127 v -> json_parse (json_text v) = Some v;
}.

(** [to_string] writes UTF-8 on one line, an object between braces. *)
Class SerdeJsonLine `{SerdeJson} := {
  json_line v : plain 127 v -> x0a ∉ json_text v;
  json_utf8 v : plain 127 v -> Utf8.valid (json_text v) = true;
  json_braces f : plain 127 (Object f) -> exists inner, json_text (Object f) = x7b :: inner ++ [x7d];
}.

(** ** Deserialize *)

Definition de_bool (v : Value) : option bool := match v with Bool b => Some b | _ => None end.
Definition de_string (v : Value) : option string := match v with Str s => Some s | _ => None end.
(** [u16] and [u64]: an integer in range; floats are refused. *)
Definition de_uint (w : Z) (v : Value) : option Z :=
  match v with Num (PosInt n) => if in_ub w n then Some n else None | _ => None end.
Definition de_vec {A} (de : Value -> option A) (v : Value) : option (list A) :=
  match v with Array l => mapM de l | _ => None end.
Definition de_option {A} (de : Value -> option A) (v : Value) : option (option A) :=
  match v with Null => Some None | _ => Some <$> de v end.

(** A unit variant of an enum: its name, or an object with this one field. *)
Definition de_enum {A} (variants : list (string * A)) (v : Value) : option A :=
  match v with
  | Str s => map_get s variants
  | Object [(s, Null)] => map_get s variants
  | _ => None
  end.

(** [Value] itself: a repeated field keeps its last value. *)
Fixpoint de_value (v : Value) : Value :=
  match v with
  | Array l => Array (de_value <$> l)
  | Object f => Object (foldl (fun m kv => map_insert kv.1 (de_value kv.2) m) [] f)
  | v => v
  end.

Definition de_map (v : Value) : option (list (string * Value)) :=
  match de_value v with Object f => Some f | _ => None end.

(** A struct: from an object by the names of the fields, each at most once, or
    from an array by their positions.  A field that is missing has the value
    [absent], in an array [absent_at]. *)
Definition de_shape (fields : nat) (v : Value) : option unit :=
  match v with
  | Object _ => Some tt
  | Array l => if decide (length l <= fields)%nat then Some tt else None
  | _ => None
  end.

Definition occurrences (k : string) (f : list (string * Value)) : list Value :=
  snd <$> filter (fun kv => kv.1 = k) f.

Definition de_field {A} (index : nat) (k : string) (de : Value -> option A) (absent absent_at : option A)
    (v : Value) : option A :=
  match v with
  | Object f => match occurrences k f with [] => absent | [x] => de x | _ => None end
  | Array l => match l !! index with Some x => de x | None => absent_at end
  | _ => None
  end.

(** A field without attributes, an [Option] without and with
    [#[serde(default)]], and a field with [#[serde(default)]]. *)
Definition de_required {A} index k (de : Value -> option A) : Value -> option A :=
  de_field index k de None None.
Definition de_optional {A} index k (de : Value -> option A) : Value -> option (option A) :=
  de_field index k (de_option de) (Some None) None.
Definition de_optional_default {A} index k (de : Value -> option A) : Value -> option (option A) :=
  de_field index k (de_option de) (Some None) (Some None).
Definition de_default {A} index k (de : Value -> option A) (d : A) : Value -> option A :=
  de_field index k de (Some d) (Some d).

(** ** Serialize *)

Definition ser_uint (n : Z) : Value := Num (PosInt n).
Definition ser_option {A} (ser : A -> Value) (o : option A) : Value := from_option ser Null o.
(** [skip_serializing_if = "Option::is_none"] and ["Map::is_empty"]. *)
Definition ser_some {A} (k : string) (ser : A -> Value) (o : option A) : list (string * Value) :=
  match o with Some a => [(k, ser a)] | None => [] end.
Definition ser_map (k : string) (m : list (string * Value)) : list (string * Value) :=
  match m with [] => [] | _ => [(k, Object m)] end.

(** ** Reading back *)

Lemma de_uint_ser w n : in_u w n -> de_uint w (ser_uint n) = Some n.
Proof. intros H%in_ub_spec. cbn. by rewrite H. Qed.

Lemma de_vec_ser {A} (de : Value -> option A) (ser : A -> Value) l :
  (forall x, x ∈ l -> de (ser x) = Some x) -> de_vec de (Array (ser <$> l)) = Some l.
Proof.
  intros H. cbn. induction l as [|x l IH]; [done|]. cbn. rewrite H by apply list_elem_of_here. cbn.
  rewrite IH; [done|]. intros y Hy. by apply H, list_elem_of_further.
Qed.

Lemma de_value_ok v : value_ok v -> de_value v = v.
Proof.
  induction v as [|b|n|s|l IH|f IH] using value_ind; intros Hv; [done..| |].
  - inversion Hv as [| | | |? Hl|]; subst. cbn. f_equal. rewrite Forall_forall in IH, Hl.
    rewrite <-(list_fmap_id l) at 2. apply list_fmap_ext. intros i x Hx%list_elem_of_lookup_2. by apply IH; auto.
  - inversion Hv as [| | | | |? Hf1 Hf]; subst. cbn. f_equal.
    rewrite (foldl_map_insert (fun kv => de_value kv.2) f []) by done. cbn. rewrite Forall_forall in IH, Hf.
    rewrite <-(list_fmap_id f) at 2. apply list_fmap_ext. intros i [k x] Hx%list_elem_of_lookup_2. cbn.
    specialize (IH _ Hx). specialize (Hf _ Hx). cbn in *. by rewrite IH.
Qed.

Lemma de_map_ok m : value_ok (Object m) -> de_map (Object m) = Some m.
Proof. intros Hm. unfold de_map. by rewrite de_value_ok. Qed.

(** ** A text that satisfies the law

    Any injective encoding does: here the documents are counted, and the bits
    of the count, between braces, are the text. *)
Module CountedText.

Abbreviation leaf := (option bool + (Z * Z + string))%type.

Fixpoint to_tree (v : Value) : gen_tree leaf :=
  match v with
  | Null => GenLeaf (inl None)
  | Bool b => GenLeaf (inl (Some b))
  | Num (PosInt n) => GenLeaf (inr (inl (0, n)))
  | Num (NegInt n) => GenLeaf (inr (inl (1, n)))
  | Num (Float n) => GenLeaf (inr (inl (2, n)))
  | Str s => GenLeaf (inr (inr s))
  | Array l => GenNode 0 (to_tree <$> l)
  | Object f => GenNode 1 ((fun kv => GenNode 2 [GenLeaf (inr (inr kv.1)); to_tree kv.2]) <$> f)
  end.

Fixpoint of_tree (t : gen_tree leaf) : Value :=
  match t with
  | GenLeaf (inl None) => Null
  | GenLeaf (inl (Some b)) => Bool b
  | GenLeaf (inr (inl (0, n))) => Num (PosInt n)
  | GenLeaf (inr (inl (1, n))) => Num (NegInt n)
  | GenLeaf (inr (inl (_, n))) => Num (Float n)
  | GenLeaf (inr (inr s)) => Str s
  | GenNode O l => Array (of_tree <$> l)
  | GenNode _ l =>
    Object ((fun t => match t with
                      | GenNode _ [GenLeaf (inr (inr k)); t] => (k, of_tree t)
                      | _ => (EmptyString, Null)
                      end) <$> l)
  end.

Lemma of_to_tree v : of_tree (to_tree v) = v.
Proof.
  induction v as [|b|n|s|l IH|f IH] using value_ind; [done|done|by destruct n|done| |]; cbn; f_equal.
  - induction IH as [|x l Hx _ IHl]; [done|]. cbn. by rewrite Hx, IHl.
  - induction IH as [|[k x] f Hx _ IHf]; [done|]. cbn in *. by rewrite Hx, IHf.
Qed.

Fixpoint bits (p : positive) : list byte :=
  match p with
  | xH => []
  | xO p => x00 :: bits p
  | xI p => x01 :: bits p
  end.

Fixpoint count (l : list byte) : positive :=
  match l with
  | [] => xH
  | b :: l => if decide (b = x00) then xO (count l) else xI (count l)
  end.

Lemma count_bits p : count (bits p) = p.
Proof. induction p as [p IH|p IH|]; [| |done]; cbn [bits count]; rewrite IH; [by rewrite decide_False|by rewrite decide_True]. Qed.

Definition counted_json : SerdeJson :=
  {| json_text v := x7b :: bits (encode (to_tree v)) ++ [x7d];
     json_parse l := of_tree <$> decode (count (take (length l - 2) (drop 1 l))) |}.

Lemma between_braces (a b : byte) l : take (length (a :: l ++ [b]) - 2) (drop 1 (a :: l ++ [b])) = l.
Proof.
  cbn [length drop]. rewrite length_app. cbn [length].
  replace (S (length l + 1) - 2)%nat with (length l) by lia. apply take_app_length.
Qed.

Lemma counted_json_laws : @SerdeJsonLaws counted_json.
Proof.
  constructor. intros v _. cbn [json_text json_parse counted_json].
  rewrite between_braces, count_bits, decode_encode. cbn. by rewrite of_to_tree.
Qed.

Lemma bits_small p : Forall (fun b => b = x00 \/ b = x01) (bits p).
Proof. induction p; cbn; auto. Qed.

Lemma counted_json_line : @SerdeJsonLine counted_json.
Proof.
  assert (Hb : forall v, Forall (fun b => b = x7b \/ b = x7d \/ b = x00 \/ b = x01)
                           (@json_text counted_json v)).
  { intros v. cbn. constructor; [auto|]. apply Forall_app. split; [|auto].
    eapply Forall_impl; [apply bits_small|]. cbn. tauto. }
  split; [| |by eexists].
  - intros v _ Hin. specialize (Hb v). rewrite Forall_forall in Hb. specialize (Hb _ Hin). by naive_solver.
  - intros v _. apply Utf8.valid_ascii. unfold Utf8.is_ascii. apply forallb_forall. intros b Hin.
    specialize (Hb v). rewrite Forall_forall in Hb. apply list_elem_of_In in Hin.
    destruct (Hb _ Hin) as [-> |[-> |[-> | ->]]]; done.
Qed.
End CountedText.
