(* ===== verification/ControlFrame.v ===== *)
(** * JSON control frames and route sessions

    [ssh-proxy-protocol/src/protocol_core/codec.rs] (the framing of JSON
    control messages), [quic_native/control.rs] (the messages of a QUIC-native
    route), [quic_native/session.rs] (the negotiation of a route session),
    [quic_native/flow.rs] (the header in front of a flow) and the server's
    half of the keepalive in [node_daemon/quic_transport.rs]. *)
From stdpp Require Import base list strings sorting.
From S2P Require Import Prelude RustStr Stream StreamHeader Json Serde.

(** ** Types that cross the wire *)

(** [Serialize] and [Deserialize] of one type. *)
Class Wire (T : Type) := {
  to_value : T -> Value;
  from_value : Value -> option T;
}.

Class WireLaws (T : Type) `{Wire T} := {
  wire_ok : T -> Prop;
  wire_plain v : wire_ok v -> plain 127 (to_value v);
  wire_back v : wire_ok v -> from_value (to_value v) = Some v;
}.

Inductive FrameError :=
| FrameIo (e : io_error)
| FrameMagic
| FrameVersion (version : Z)
| FrameTooLarge (n : Z)
| FrameDecode
| ExpectedFrame (what : string)
| RouteMismatch (expected got : string)
| SessionRejected (message : string)
| FlowHeader (e : HeaderError)
| FlowTooLarge (n : Z)
| FlowConsumed (consumed total : Z).

(** ** Frames *)

Section frames.
Context {R W : Type} `{AsyncRead R} `{AsyncWrite W} `{SerdeJson}.

Definition frame_io {A} (m : sr (TcpStream R W) io_error A) : sr (TcpStream R W) FrameError A :=
  sr_map_err FrameIo m.

Definition write_json_control_frame {T} `{Wire T} (magic : list byte) (version max_len : Z) (value : T) :
    sr (TcpStream R W) FrameError unit :=
  let payload := json_text (to_value value) in
  _ ← sr_guard (len payload <=? max_len) (FrameTooLarge (len payload));
  _ ← frame_io (send (write_all magic));
  _ ← frame_io (send (write_all (be_bytes 2 version)));
  _ ← frame_io (send (write_all (be_bytes 4 (len payload))));
  _ ← frame_io (send (write_all payload));
  frame_io (send flush).

Definition read_json_control_frame {T} `{Wire T} (magic : list byte) (expected_version max_len : Z) :
    sr (TcpStream R W) FrameError T :=
  actual_magic ← frame_io (recv (read_exact 4));
  _ ← sr_guard (bool_decide (actual_magic = magic)) FrameMagic;
  version ← frame_io (recv (read_exact 2));
  let version := be_value version in
  _ ← sr_guard (version =? expected_version) (FrameVersion version);
  n ← frame_io (recv (read_exact 4));
  let n := be_value n in
  _ ← sr_guard (n <=? max_len) (FrameTooLarge n);
  payload ← frame_io (recv (read_exact n));
  sr_lift (ok_or FrameDecode (json_parse payload ≫= from_value)).
End frames.

(** ** The messages of a QUIC-native route *)

Definition CONTROL_FRAME_MAGIC : list byte := str_bytes "QNC1".
Definition CONTROL_FRAME_VERSION : Z := 1.
Definition MAX_CONTROL_FRAME : Z := 64 * 1024.

Record RouteControlHello := MkRouteHello {
  rh_version : Z;
  rh_route_id : string;
  rh_node : string;
  rh_features : list string;
  rh_preferred_protocols : list string;
}.

Record RouteControlWelcome := MkRouteWelcome {
  rw_version : Z;
  rw_route_id : string;
  rw_accepted : bool;
  rw_selected_protocol : option string;
  rw_message : string;
}.

Inductive RouteControlFrame :=
| RHello (hello : RouteControlHello)
| RWelcome (welcome : RouteControlWelcome)
| RPing (seq : Z)
| RPong (seq : Z).

Definition hello_fields (h : RouteControlHello) : list (string * Value) :=
  [("version", ser_uint (rh_version h)); ("route_id", Str (rh_route_id h)); ("node", Str (rh_node h));
   ("features", Array (Str <$> rh_features h));
   ("preferred_protocols", Array (Str <$> rh_preferred_protocols h))].

Definition de_hello (v : Value) : option RouteControlHello :=
  _ ← de_shape 5 v;
  version ← de_required 0 "version" (de_uint 16) v;
  route_id ← de_required 1 "route_id" de_string v;
  node ← de_required 2 "node" de_string v;
  features ← de_default 3 "features" (de_vec de_string) [] v;
  preferred_protocols ← de_default 4 "preferred_protocols" (de_vec de_string) [] v;
  Some (MkRouteHello version route_id node features preferred_protocols).

Definition welcome_fields (w : RouteControlWelcome) : list (string * Value) :=
  [("version", ser_uint (rw_version w)); ("route_id", Str (rw_route_id w));
   ("accepted", Bool (rw_accepted w));
   ("selected_protocol", ser_option Str (rw_selected_protocol w)); ("message", Str (rw_message w))].

Definition de_welcome (v : Value) : option RouteControlWelcome :=
  _ ← de_shape 5 v;
  version ← de_required 0 "version" (de_uint 16) v;
  route_id ← de_required 1 "route_id" de_string v;
  accepted ← de_required 2 "accepted" de_bool v;
  selected_protocol ← de_optional 3 "selected_protocol" de_string v;
  message ← de_required 4 "message" de_string v;
  Some (MkRouteWelcome version route_id accepted selected_protocol message).

Definition de_seq (v : Value) : option Z :=
  _ ← de_shape 1 v; de_required 0 "seq" (de_uint 64) v.

(** [#[serde(tag = "kind", rename_all = "snake_case")]]: the tag is one more
    field, or the first element. *)
Definition frame_value (f : RouteControlFrame) : Value :=
  match f with
  | RHello h => Object (("kind", Str "hello") :: hello_fields h)
  | RWelcome w => Object (("kind", Str "welcome") :: welcome_fields w)
  | RPing seq => Object [("kind", Str "ping"); ("seq", ser_uint seq)]
  | RPong seq => Object [("kind", Str "pong"); ("seq", ser_uint seq)]
  end.

Definition de_tagged (v : Value) : option (string * Value) :=
  match v with
  | Object f =>
    match occurrences "kind" f with
    | [Str tag] => Some (tag, Object (filter (fun kv => kv.1 <> "kind") f))
    | _ => None
    end
  | Array (Str tag :: l) => Some (tag, Array l)
  | _ => None
  end.

Definition de_frame (v : Value) : option RouteControlFrame :=
  '(tag, content) ← de_tagged v;
  if String.eqb tag "hello" then RHello <$> de_hello content
  else if String.eqb tag "welcome" then RWelcome <$> de_welcome content
  else if String.eqb tag "ping" then RPing <$> de_seq content
  else if String.eqb tag "pong" then RPong <$> de_seq content
  else None.

#[global] Instance route_frame_wire : Wire RouteControlFrame :=
  {| to_value := frame_value; from_value := de_frame |}.

(** ** Sessions and flows *)

Section sessions.
Context {R W : Type} `{AsyncRead R} `{AsyncWrite W} `{SerdeJson}.
Abbreviation conn := (sr (TcpStream R W) FrameError).

Definition write_to (f : RouteControlFrame) : conn unit :=
  write_json_control_frame CONTROL_FRAME_MAGIC CONTROL_FRAME_VERSION MAX_CONTROL_FRAME f.
Definition read_from : conn RouteControlFrame :=
  read_json_control_frame CONTROL_FRAME_MAGIC CONTROL_FRAME_VERSION MAX_CONTROL_FRAME.

Record RouteSessionSpec := MkSessionSpec {
  spec_route_id : string;
  spec_node : string;
  spec_features : list string;
  spec_preferred_protocols : list string;
}.

Definition into_hello (spec : RouteSessionSpec) : RouteControlHello :=
  MkRouteHello CONTROL_FRAME_VERSION (spec_route_id spec) (spec_node spec) (spec_features spec)
    (spec_preferred_protocols spec).

Definition client_negotiate (spec : RouteSessionSpec) : conn (RouteControlHello * RouteControlWelcome) :=
  let hello := into_hello spec in
  _ ← write_to (RHello hello);
  frame ← read_from;
  match frame with
  | RWelcome welcome =>
    _ ← sr_guard (String.eqb (rw_route_id welcome) (rh_route_id hello))
          (RouteMismatch (rh_route_id hello) (rw_route_id welcome));
    _ ← sr_guard (rw_accepted welcome) (SessionRejected (rw_message welcome));
    mret (hello, welcome)
  | _ => sr_fail (ExpectedFrame "welcome")
  end.

Definition server_accept (respond : RouteControlHello -> RouteControlWelcome) : conn RouteControlHello :=
  frame ← read_from;
  match frame with
  | RHello hello =>
    let welcome := respond hello in
    _ ← sr_guard (String.eqb (rw_route_id welcome) (rh_route_id hello))
          (RouteMismatch (rh_route_id hello) (rw_route_id welcome));
    _ ← write_to (RWelcome welcome);
    mret hello
  | _ => sr_fail (ExpectedFrame "hello")
  end.

(** The answer of [run_native_quic]. *)
Definition node_welcome (hello : RouteControlHello) : RouteControlWelcome :=
  MkRouteWelcome CONTROL_FRAME_VERSION (rh_route_id hello) true (Some "quic-native")
    "quic-native control session ready".

(** [run_native_quic_control_loop]; the loop ends with an error only.  Every
    turn reads the ten bytes of a frame's head. *)
Fixpoint native_control_loop (fuel : nat) : conn unit :=
  match fuel with
  | O => mret tt
  | S fuel =>
    frame ← read_from;
    _ ← match frame with
        | RPing seq => write_to (RPong seq)
        | RPong _ | RHello _ | RWelcome _ => mret tt
        end;
    native_control_loop fuel
  end.

(** [write_flow_header_with_buffer] and [read_flow_header]. *)
Definition STREAM_HEADER_PREFIX_LEN : Z := 8.

Definition write_flow_header (header : StreamHeader) : conn unit :=
  encoded ← sr_lift (map_err FlowHeader (encode header));
  _ ← frame_io (send (write_all encoded));
  frame_io (send flush).

Definition read_flow_header : conn StreamHeader :=
  prefix ← frame_io (recv (read_exact STREAM_HEADER_PREFIX_LEN));
  let body_len := be_value (take 2 (drop 6 prefix)) in
  _ ← sr_guard (body_len <=? MAX_STREAM_HEADER) (FlowTooLarge body_len);
  body ← frame_io (recv (read_exact body_len));
  let encoded := prefix ++ body in
  '(header, consumed) ← sr_lift (map_err FlowHeader (decode encoded));
  _ ← sr_guard (consumed =? len encoded) (FlowConsumed consumed (len encoded));
  mret header.
End sessions.

(** ** One step at a time *)

Definition frame_bytes (magic : list byte) (version : Z) (payload : list byte) : list byte :=
  magic ++ be_bytes 2 version ++ be_bytes 4 (len payload) ++ payload.

Section frame_laws.
Context {R W : Type} `{AsyncReadLaws R} `{AsyncWriteLaws W} `{SerdeJsonLaws} {T : Type} `{Wire T}.
Context (magic : list byte) (version max_len : Z).
Context (Hmagic : length magic = 4%nat) (Hversion : in_u 16 version) (Hmax : 0 <= max_len <= u_max 32).
Abbreviation exchange := (exchange (R := R) (W := W)).

Lemma write_frame_exchange (v : T) :
  len (json_text (to_value v)) <= max_len ->
  exchange (write_json_control_frame magic version max_len v) [] (Ok tt)
    (frame_bytes magic version (json_text (to_value v))).
Proof.
  intros Hl. unfold write_json_control_frame, frame_bytes. apply exchange_guard; [by apply Z.leb_le|].
  do 3 apply exchange_write_then.
  rewrite <-(app_nil_r (json_text (to_value v))) at 2. apply exchange_write_then, exchange_flush.
Qed.

Lemma write_frame_refused (v : T) (s : TcpStream R W) :
  max_len < len (json_text (to_value v)) ->
  write_json_control_frame magic version max_len v s = (Err (FrameTooLarge (len (json_text (to_value v)))), s).
Proof.
  intros Hl. unfold write_json_control_frame. apply Z.leb_gt in Hl. by rewrite Hl.
Qed.

Lemma read_frame_exchange payload :
  len payload <= max_len ->
  exchange (read_json_control_frame (T := T) magic version max_len) (frame_bytes magic version payload)
    (ok_or FrameDecode (json_parse payload ≫= from_value)) [].
Proof.
  intros Hl. unfold read_json_control_frame, frame_bytes.
  apply exchange_read_then; [by rewrite Hmagic|]. apply exchange_guard; [by apply bool_decide_eq_true|].
  apply exchange_read_then; [by rewrite length_be_bytes|]. rewrite be_value_u by done.
  apply exchange_guard; [apply Z.eqb_refl|].
  apply exchange_read_then; [by rewrite length_be_bytes|]. rewrite be_value_u by (unfold in_u, u_max in *; lia).
  apply exchange_guard; [by apply Z.leb_le|]. apply exchange_read_last; [done|].
  intros s y Hr Hlive. exists s. unfold sr_lift. by rewrite app_nil_r.
Qed.

Lemma read_frame_inv (s s' : TcpStream R W) (v : T) :
  read_json_control_frame magic version max_len s = (Ok v, s') ->
  exists payload,
    rest (inbound s) = frame_bytes magic version payload ++ rest (inbound s') /\ len payload <= max_len
    /\ (json_parse payload ≫= from_value) = Some v /\ outbound s' = outbound s.
Proof.
  unfold read_json_control_frame. intros Hrun.
  apply sr_bind_inv in Hrun as (m & s1 & Hm & Hrun). apply recv_exact_inv in Hm as (_ & E1 & O1 & _); [|lia].
  apply sr_guard_inv in Hrun as [->%bool_decide_eq_true Hrun].
  apply sr_bind_inv in Hrun as (b2 & s2 & Hm & Hrun). apply recv_exact_inv in Hm as (L2 & E2 & O2 & _); [|lia].
  apply sr_guard_inv in Hrun as [<-%Z.eqb_eq Hrun].
  apply sr_bind_inv in Hrun as (b4 & s3 & Hm & Hrun). apply recv_exact_inv in Hm as (L4 & E4 & O4 & _); [|lia].
  apply sr_guard_inv in Hrun as [Hn%Z.leb_le Hrun].
  pose proof (be_value_range b4) as Hr. unfold in_u in Hr.
  apply sr_bind_inv in Hrun as (payload & s4 & Hm & Hrun). apply recv_exact_inv in Hm as (L5 & E5 & O5 & _); [|lia].
  unfold sr_lift in Hrun. injection Hrun as Hv%ok_or_Ok <-.
  exists payload. split_and!; [|lia|done|congruence]. unfold frame_bytes.
  rewrite E1, E2, E4, E5, L5, (be_bytes_value 2 b2), (be_bytes_value 4 b4) by lia. by rewrite <-!app_assoc.
Qed.
End frame_laws.

(** ** The frames of a route are read back *)

Definition hello_ok (h : RouteControlHello) : Prop :=
  in_u 16 (rh_version h) /\ str_ok (rh_route_id h) /\ str_ok (rh_node h)
  /\ Forall str_ok (rh_features h) /\ Forall str_ok (rh_preferred_protocols h).

Definition welcome_ok (w : RouteControlWelcome) : Prop :=
  in_u 16 (rw_version w) /\ str_ok (rw_route_id w) /\ str_ok (rw_message w)
  /\ from_option str_ok True (rw_selected_protocol w).

Definition frame_ok (f : RouteControlFrame) : Prop :=
  match f with
  | RHello h => hello_ok h
  | RWelcome w => welcome_ok w
  | RPing seq | RPong seq => in_u 64 seq
  end.

Lemma plain_strings d l : Forall str_ok l -> plain (S d) (Array (Str <$> l)).
Proof. intros Hl. cbn. apply Forall_fmap. eapply Forall_impl; [done|]. intros x Hx. by destruct d. Qed.

Lemma plain_object d f : Forall (fun kv => str_ok kv.1 /\ plain d kv.2) f -> plain (S d) (Object f).
Proof. done. Qed.

Lemma plain_str d s : str_ok s -> plain d (Str s).
Proof. by destruct d. Qed.

Lemma plain_uint d w n : in_u w n -> w <= 64 -> plain d (ser_uint n).
Proof. intros Hn Hw. apply (in_u_mono w 64) in Hn; [|done]. by destruct d. Qed.

Lemma plain_bool d b : plain d (Bool b).
Proof. by destruct d. Qed.

Lemma plain_option d o : from_option str_ok True o -> plain d (ser_option Str o).
Proof. by destruct o, d. Qed.

Create HintDb wire.
#[export] Hint Resolve plain_str plain_bool plain_option plain_strings : wire.
#[export] Hint Opaque plain : wire.

(** One field of an object at a time; the names of the fields are constants. *)
Ltac plain_fields :=
  apply plain_object; repeat (apply Forall_cons; split; [split; [reflexivity|cbn [snd]]|]);
  try apply Forall_nil_2; try (apply plain_str; reflexivity); try (eapply plain_uint; [eassumption|lia]);
  eauto with wire.

Lemma frame_plain f : frame_ok f -> plain 127 (frame_value f).
Proof.
  destruct f as [h|w|seq|seq]; intros Hf; change 127%nat with (S (S 125)); generalize 125%nat as d; intros d; unfold frame_value.
  - destruct Hf as (?&?&?&?&?). unfold hello_fields. plain_fields.
  - destruct Hf as (?&?&?&?). unfold welcome_fields. plain_fields.
  - plain_fields.
  - plain_fields.
Qed.

(** The field a reader finds in an object; the names are constants. *)
Lemma de_field_found {A} i k (de : Value -> option A) a b f x :
  occurrences k f = [x] -> de_field i k de a b (Object f) = de x.
Proof. intros H. cbn. by rewrite H. Qed.

(** The value itself is not looked at. *)
Ltac read_field :=
  match goal with
  | |- context [de_field _ ?k _ _ _ (Object ?f)] =>
      let f' := eval cbv [hello_fields welcome_fields] in f in
      lazymatch f' with
      | context [(k, ?x)] => rewrite (de_field_found _ k _ _ _ f x) by reflexivity
      end
  end.

Lemma de_strings l : de_vec de_string (Array (Str <$> l)) = Some l.
Proof. by apply de_vec_ser. Qed.

Lemma hello_back h : in_u 16 (rh_version h) -> de_hello (Object (hello_fields h)) = Some h.
Proof.
  intros Hv. unfold de_hello, de_required, de_default. cbn [de_shape]. do 5 read_field.
  rewrite de_uint_ser, !de_strings by done. by destruct h.
Qed.

Lemma welcome_back w : in_u 16 (rw_version w) -> de_welcome (Object (welcome_fields w)) = Some w.
Proof.
  intros Hv. unfold de_welcome, de_required, de_optional. cbn [de_shape]. do 5 read_field.
  rewrite de_uint_ser by done. by destruct w as [v r a [sp|] m].
Qed.

Lemma seq_back seq : in_u 64 seq -> de_seq (Object [("seq", ser_uint seq)]) = Some seq.
Proof. intros Hs. unfold de_seq, de_required. cbn [de_shape]. read_field. by apply de_uint_ser. Qed.

Lemma frame_back f : frame_ok f -> de_frame (frame_value f) = Some f.
Proof.
  destruct f as [h|w|seq|seq]; intros Hf; unfold de_frame.
  - change (de_tagged (frame_value (RHello h))) with (Some ("hello", Object (hello_fields h))).
    cbn -[de_hello hello_fields]. by rewrite hello_back by apply Hf.
  - change (de_tagged (frame_value (RWelcome w))) with (Some ("welcome", Object (welcome_fields w))).
    cbn -[de_welcome welcome_fields]. by rewrite welcome_back by apply Hf.
  - change (de_tagged (frame_value (RPing seq))) with (Some ("ping", Object [("seq", ser_uint seq)])).
    cbn -[de_seq]. by rewrite seq_back.
  - change (de_tagged (frame_value (RPong seq))) with (Some ("pong", Object [("seq", ser_uint seq)])).
    cbn -[de_seq]. by rewrite seq_back.
Qed.

#[global] Instance route_frame_laws : WireLaws RouteControlFrame :=
  {| wire_ok := frame_ok; wire_plain := frame_plain; wire_back := frame_back |}.

(** ** Sessions *)

Section session_laws.
Context {R W : Type} `{AsyncReadLaws R} `{AsyncWriteLaws W} `{SerdeJsonLaws}.
Abbreviation exchange := (exchange (R := R) (W := W)).

(** The bytes of a frame, and that it is not too large to be sent. *)
Definition route_frame_bytes (f : RouteControlFrame) : list byte :=
  frame_bytes CONTROL_FRAME_MAGIC CONTROL_FRAME_VERSION (json_text (to_value f)).
Definition frame_fits (f : RouteControlFrame) : Prop :=
  frame_ok f /\ len (json_text (to_value f)) <= MAX_CONTROL_FRAME.

Lemma write_to_exchange f : frame_fits f -> exchange (write_to f) [] (Ok tt) (route_frame_bytes f).
Proof. intros [_ Hl]. by apply write_frame_exchange. Qed.

Lemma read_from_exchange f : frame_fits f -> exchange read_from (route_frame_bytes f) (Ok f) [].
Proof.
  intros [Hok Hl]. unfold read_from, route_frame_bytes.
  pose proof (read_frame_exchange (R := R) (W := W) (T := RouteControlFrame)
    CONTROL_FRAME_MAGIC CONTROL_FRAME_VERSION MAX_CONTROL_FRAME) as Hx.
  specialize (Hx eq_refl ltac:(done) ltac:(done) (json_text (to_value f)) Hl).
  rewrite json_round_trip in Hx by (by apply wire_plain). cbn [mbind option_bind] in Hx.
  by rewrite wire_back in Hx.
Qed.

Lemma write_to_then {A} f (k : unit -> sr (TcpStream R W) FrameError A) x v o :
  frame_fits f -> exchange (k tt) x v o -> exchange (write_to f ≫= k) x v (route_frame_bytes f ++ o).
Proof. intros Hf. apply exchange_bind_w. by apply write_to_exchange. Qed.

Lemma read_from_then {A} f (k : RouteControlFrame -> sr (TcpStream R W) FrameError A) x v o :
  frame_fits f -> exchange (k f) x v o -> exchange (read_from ≫= k) (route_frame_bytes f ++ x) v o.
Proof. intros Hf. apply exchange_bind_r. by apply read_from_exchange. Qed.

Lemma read_from_last {A} f (k : RouteControlFrame -> sr (TcpStream R W) FrameError A) v o :
  frame_fits f -> exchange (k f) [] v o -> exchange (read_from ≫= k) (route_frame_bytes f) v o.
Proof. intros Hf Hk. pose proof (read_from_then f k [] v o Hf Hk) as Hx. by rewrite app_nil_r in Hx. Qed.

Lemma negotiate_exchange_client spec welcome :
  frame_fits (RHello (into_hello spec)) -> frame_fits (RWelcome welcome) ->
  rw_route_id welcome = spec_route_id spec ->
  exchange (client_negotiate spec) (route_frame_bytes (RWelcome welcome))
    (if rw_accepted welcome then Ok (into_hello spec, welcome) else Err (SessionRejected (rw_message welcome)))
    (route_frame_bytes (RHello (into_hello spec))).
Proof.
  intros Hh Hw Hid. unfold client_negotiate. rewrite <-(app_nil_r (route_frame_bytes (RHello _))).
  apply write_to_then; [done|]. apply read_from_last; [done|].
  apply exchange_guard; [rewrite Hid; apply String.eqb_refl|]. destruct (rw_accepted welcome); [apply exchange_ret|].
  apply exchange_fail.
Qed.

Lemma accept_exchange_server respond hello :
  frame_fits (RHello hello) -> frame_fits (RWelcome (respond hello)) ->
  rw_route_id (respond hello) = rh_route_id hello ->
  exchange (server_accept respond) (route_frame_bytes (RHello hello)) (Ok hello)
    (route_frame_bytes (RWelcome (respond hello))).
Proof.
  intros Hh Hw Hid. unfold server_accept. apply read_from_last; [done|].
  apply exchange_guard; [rewrite Hid; apply String.eqb_refl|].
  rewrite <-(app_nil_r (route_frame_bytes (RWelcome _))). apply write_to_then; [done|]. apply exchange_ret.
Qed.

(** What the server's half of the keepalive answers. *)
Fixpoint pongs (fs : list RouteControlFrame) : list byte :=
  match fs with
  | [] => []
  | RPing seq :: fs => route_frame_bytes (RPong seq) ++ pongs fs
  | _ :: fs => pongs fs
  end.

Definition frames_bytes (fs : list RouteControlFrame) : list byte := concat (route_frame_bytes <$> fs).

Lemma read_from_end (s : TcpStream R W) :
  rest (inbound s) = [] -> (read_from s).1 = Err (FrameIo (end_error (fin (inbound s))))
  /\ outbound (read_from s).2 = outbound s.
Proof.
  intros Hr. destruct (read_exact_short 4 (inbound s)) as (r & E); [by rewrite Hr|].
  unfold read_from, read_json_control_frame.
  erewrite sr_bind_Err by (unfold frame_io, sr_map_err, recv; by rewrite E). done.
Qed.

Lemma control_loop_run fs : forall fuel (s : TcpStream R W),
  Forall (fun f => frame_fits f /\ forall seq, f = RPing seq -> frame_fits (RPong seq)) fs ->
  (length fs < fuel)%nat -> rest (inbound s) = frames_bytes fs -> live (outbound s) ->
  (native_control_loop fuel s).1 = Err (FrameIo (end_error (fin (inbound s))))
  /\ written (outbound (native_control_loop fuel s).2) = written (outbound s) ++ pongs fs.
Proof.
  induction fs as [|f fs IH]; intros [|fuel] s Hfs Hn Hr Hl; cbn in Hn; try lia; cbn [native_control_loop].
  - destruct (read_from_end s) as [E1 E2]; [done|]. destruct (read_from s) as [v s'] eqn:E. cbn in E1, E2. subst v.
    erewrite sr_bind_Err by done. cbn. by rewrite E2, app_nil_r.
  - apply Forall_cons in Hfs as [[Hf Hp] Hfs]. cbn in Hr.
    destruct (read_from_exchange f Hf s _ Hr Hl) as (s1 & E1 & Hr1 & Hf1 & Hw1 & Hl1). rewrite app_nil_r in Hw1.
    erewrite sr_bind_Ok by done.
    assert (Hstep : exists s2,
      match f with RPing seq => write_to (RPong seq) | _ => mret tt end s1 = (Ok tt, s2)
      /\ rest (inbound s2) = frames_bytes fs /\ fin (inbound s2) = fin (inbound s1)
      /\ written (outbound s2) ++ pongs fs = written (outbound s1) ++ pongs (f :: fs) /\ live (outbound s2)).
    { destruct f as [h|w|seq|seq]; try (by exists s1).
      destruct (write_to_exchange (RPong seq) (Hp seq eq_refl) s1 _ Hr1 Hl1) as (s2 & E2 & ? & ? & Hw2 & ?).
      exists s2. cbn [pongs]. by rewrite Hw2, app_assoc. }
    destruct Hstep as (s2 & E2 & Hr2 & Hf2 & Hw2 & Hl2). erewrite sr_bind_Ok by done.
    destruct (IH fuel s2 Hfs ltac:(lia) Hr2 Hl2) as [IH1 IH2]. rewrite IH1, IH2, Hf2, Hf1, <-Hw1. by split.
Qed.
End session_laws.

(** ** Flow headers *)

Section flow_laws.
Context {R W : Type} `{AsyncReadLaws R} `{AsyncWriteLaws W}.
Abbreviation exchange := (exchange (R := R) (W := W)).

Lemma exchange_lift_then {E A B} (r : result E A) a (k : A -> sr (TcpStream R W) E B) x v o :
  r = Ok a -> exchange (k a) x v o -> exchange (sr_lift r ≫= k) x v o.
Proof. intros ->. done. Qed.

Lemma write_flow_exchange h out :
  encode h = Ok out -> exchange (write_flow_header h) [] (Ok tt) out.
Proof.
  intros He. unfold write_flow_header. apply (exchange_lift_then _ out); [by rewrite He|].
  rewrite <-(app_nil_r out) at 2. apply exchange_write_then, exchange_flush.
Qed.

Lemma read_flow_exchange h out :
  header_ok h -> encode h = Ok out -> len out <= 8 + u_max 16 -> exchange read_flow_header out (Ok h) [].
Proof.
  intros Hok He Hl. pose proof (stream_header_round_trip h out [] Hok He Hl) as Hd. rewrite app_nil_r in Hd.
  apply encode_Ok in He as (Hf & Hb & ->). pose proof (length_wire_header h) as Hw. pose proof (length_wire_body h) as Hwb.
  set (p := STREAM_HEADER_MAGIC ++ be_bytes 2 STREAM_HEADER_VERSION ++ be_bytes 2 (len (wire_body h))).
  assert (Hp : wire_header h = p ++ wire_body h).
  { unfold wire_header, p. rewrite wrap_u_small by (unfold in_u, u_max in *; lia). by rewrite <-!app_assoc. }
  unfold read_flow_header. rewrite Hp. apply exchange_read_then; [done|].
  change (take 2 (drop 6 p)) with (be_bytes 2 (len (wire_body h))).
  rewrite be_value_u by (unfold in_u, u_max in *; lia).
  apply exchange_guard; [apply Z.leb_le; done|].
  apply exchange_read_last; [done|]. rewrite <-Hp.
  apply (exchange_lift_then _ (h, len (wire_header h))); [by rewrite Hd|].
  apply exchange_guard; [apply Z.eqb_refl|]. apply exchange_ret.
Qed.

Lemma read_flow_inv h (s s' : TcpStream R W) :
  read_flow_header s = (Ok h, s') ->
  header_ok h /\ exists out, encode h = Ok out /\ rest (inbound s) = out ++ rest (inbound s')
                             /\ outbound s' = outbound s.
Proof.
  unfold read_flow_header. intros Hrun.
  apply sr_bind_inv in Hrun as (p & s1 & Hm & Hrun). apply recv_exact_inv in Hm as (L1 & E1 & O1 & _); [|done].
  apply sr_guard_inv in Hrun as [Hn Hrun].
  apply sr_bind_inv in Hrun as (b & s2 & Hm & Hrun).
  apply recv_exact_inv in Hm as (L2 & E2 & O2 & _); [|apply be_value_range].
  apply sr_bind_inv in Hrun as ([h' consumed] & s3 & Hm & Hrun). unfold sr_lift in Hm. injection Hm as Hm <-.
  apply map_err_Ok in Hm. apply sr_guard_inv in Hrun as [Hc%Z.eqb_eq Hrun]. inv_sr.
  apply stream_header_decode_canonical in Hm as (Hok & _ & He). split; [done|]. exists (p ++ b).
  rewrite Nat2Z.id, firstn_all in He. rewrite E1, E2, O2, O1, app_assoc. done.
Qed.
End flow_laws.

(** ** Properties *)

(** JSON control frames are exact in both directions: a value that fits is
    sent as one frame which the reader turns back into it, however the bytes
    are cut into pieces, leaving what follows; a value that does not fit is
    refused before anything is sent; and whatever a peer sends, a reader
    accepts nothing but a frame with the magic, the version, a length within
    the limit and a payload that decodes. *)
Theorem control_frame_exact {R W T} `{AsyncReadLaws R} `{AsyncWriteLaws W} `{SerdeJsonLaws} `{WireLaws T}
    (magic : list byte) (version max_len : Z) :
  length magic = 4%nat -> in_u 16 version -> 0 <= max_len <= u_max 32 ->
  (forall v : T, wire_ok v -> len (json_text (to_value v)) <= max_len ->
     exists x, exchange (R := R) (W := W) (write_json_control_frame magic version max_len v) [] (Ok tt) x
               /\ exchange (R := R) (W := W) (read_json_control_frame magic version max_len) x (Ok v) [])
  /\ (forall (v : T) (s : TcpStream R W), max_len < len (json_text (to_value v)) ->
        write_json_control_frame magic version max_len v s
        = (Err (FrameTooLarge (len (json_text (to_value v)))), s))
  /\ (forall (v : T) (s s' : TcpStream R W), read_json_control_frame magic version max_len s = (Ok v, s') ->
        exists payload,
          rest (inbound s) = frame_bytes magic version payload ++ rest (inbound s') /\ len payload <= max_len
          /\ (json_parse payload ≫= from_value) = Some v /\ outbound s' = outbound s).
Proof.
  intros Hmagic Hversion Hmax. split_and!.
  - intros v Hok Hl. exists (frame_bytes magic version (json_text (to_value v))).
    split; [by apply write_frame_exchange|].
    pose proof (read_frame_exchange (R := R) (W := W) (T := T) magic version max_len Hmagic Hversion Hmax _ Hl) as Hx.
    rewrite json_round_trip in Hx by (by apply wire_plain). cbn [mbind option_bind] in Hx.
    by rewrite wire_back in Hx.
  - intros v s. by apply write_frame_refused.
  - intros v s s'. by apply read_frame_inv.
Qed.

Lemma control_frame_exact_witness :
  let _ := CountedText.counted_json in
  exists x,
    exchange (R := Segments) (W := ScriptedWriter) (write_to (RPing 7)) [] (Ok tt) x
    /\ exchange (R := Segments) (W := ScriptedWriter) read_from x (Ok (RPing 7)) [].
Proof.
  intros j. pose proof (CountedText.counted_json_laws : @SerdeJsonLaws j) as Hj.
  apply (control_frame_exact (R := Segments) (W := ScriptedWriter) (T := RouteControlFrame)
    CONTROL_FRAME_MAGIC CONTROL_FRAME_VERSION MAX_CONTROL_FRAME); done.
Defined.

(** C23. Both ends of a route session agree: when the responder answers for the
    client's route, the client gets exactly this answer, or the refusal with
    its message when it was not accepted, and the server the client's hello;
    the node's own responder always answers so and accepts.  Whatever the peer
    sends, a client that succeeds has an accepted welcome for its own route. *)
Theorem route_session_agrees {R W} `{AsyncReadLaws R} `{AsyncWriteLaws W} `{SerdeJsonLaws}
    (spec : RouteSessionSpec) (respond : RouteControlHello -> RouteControlWelcome) :
  let hello := into_hello spec in
  let welcome := respond hello in
  frame_fits (RHello hello) -> frame_fits (RWelcome welcome) -> rw_route_id welcome = spec_route_id spec ->
  (exists c s,
     exchange (R := R) (W := W) (client_negotiate spec) s
       (if rw_accepted welcome then Ok (hello, welcome) else Err (SessionRejected (rw_message welcome))) c
     /\ exchange (R := R) (W := W) (server_accept respond) c (Ok hello) s)
  /\ rw_route_id (node_welcome hello) = spec_route_id spec /\ rw_accepted (node_welcome hello) = true
  /\ (forall (s s' : TcpStream R W) h w, client_negotiate spec s = (Ok (h, w), s') ->
        h = hello /\ rw_route_id w = spec_route_id spec /\ rw_accepted w = true).
Proof.
  intros hello welcome Hh Hw Hid. split_and!; [|done|done|].
  - exists (route_frame_bytes (RHello hello)), (route_frame_bytes (RWelcome welcome)).
    split; [by apply negotiate_exchange_client|by apply accept_exchange_server].
  - intros s s' h w Hrun. unfold client_negotiate in Hrun.
    apply sr_bind_inv in Hrun as ([] & s1 & _ & Hrun). apply sr_bind_inv in Hrun as (f & s2 & _ & Hrun).
    destruct f as [|w'| |]; [done| |done..].
    apply sr_guard_inv in Hrun as [Hr%String.eqb_eq Hrun]. apply sr_guard_inv in Hrun as [Ha Hrun]. by inv_sr.
Qed.

Definition sample_spec : RouteSessionSpec :=
  MkSessionSpec "local-via-remote:peer-a:18080" "laptop" ["frames-v1"] ["quic-native"].

Lemma route_session_agrees_witness :
  let _ := CountedText.counted_json in
  exists c s,
    exchange (R := Segments) (W := ScriptedWriter) (client_negotiate sample_spec) s
      (Ok (into_hello sample_spec, node_welcome (into_hello sample_spec))) c
    /\ exchange (R := Segments) (W := ScriptedWriter) (server_accept node_welcome) c
         (Ok (into_hello sample_spec)) s.
Proof.
  intros j. pose proof (CountedText.counted_json_laws : @SerdeJsonLaws j) as Hj.
  refine (proj1 (route_session_agrees sample_spec node_welcome _ _ eq_refl)).
  - split; [repeat constructor; vm_compute; congruence|vm_compute; congruence].
  - split; [repeat constructor; vm_compute; congruence|vm_compute; congruence].
Defined.

(** The header in front of a flow is exact over the stream: what the writer
    sends for a header is read back as this header, leaving the flow's own
    bytes, however it arrives; and a reader accepts only bytes that the writer
    sends for the header it returns. *)
Theorem flow_header_exact {R W} `{AsyncReadLaws R} `{AsyncWriteLaws W} (h : StreamHeader) (out : list byte) :
  header_ok h -> encode h = Ok out -> len out <= 8 + u_max 16 ->
  exchange (R := R) (W := W) (write_flow_header h) [] (Ok tt) out
  /\ exchange (R := R) (W := W) read_flow_header out (Ok h) []
  /\ (forall (h' : StreamHeader) (s s' : TcpStream R W), read_flow_header s = (Ok h', s') ->
        header_ok h' /\ exists out', encode h' = Ok out' /\ rest (inbound s) = out' ++ rest (inbound s')
                                    /\ outbound s' = outbound s).
Proof.
  intros Hok He Hl. split_and!; [by apply write_flow_exchange|by apply read_flow_exchange|].
  intros h' s s'. apply read_flow_inv.
Qed.

Lemma flow_header_exact_witness :
  exchange (R := Segments) (W := ScriptedWriter) (write_flow_header sample_header) []
    (Ok tt) (wire_header sample_header)
  /\ exchange (R := Segments) (W := ScriptedWriter) read_flow_header (wire_header sample_header)
       (Ok sample_header) [].
Proof.
  destruct (flow_header_exact (R := Segments) (W := ScriptedWriter) sample_header (wire_header sample_header))
    as (H1 & H2 & _); [vm_compute; intuition congruence|reflexivity|vm_compute; congruence|by split].
Defined.
