(* ===== verification/QuicControl.v ===== *)
(** * The keepalive of a QUIC-native connection

    [quic_native/runtime/control_loop.rs]: the client's half of the keepalive
    on the control stream.  A [select!] waits for a frame and for the timer.
    Reading a frame takes several reads, so the reading future holds bytes it
    has already taken from the stream; when the timer wins, this future is
    dropped.  The state keeps the bytes that have arrived ([unread]) and those
    the current future holds ([held]); an event is what happens next to the
    task. *)
From stdpp Require Import base list strings sorting.
From S2P Require Import Prelude RustStr Stream Mux Metrics Json Serde ControlFrame.

Definition CONTROL_KEEPALIVE_TIMEOUT_SECS : Z := 45.

Inductive LoopError :=
| LoopFrame (e : FrameError)
| PongTimeout (seq : Z).

Record Loop := MkLoop {
  unread : list byte;
  stream_end : option io_error;
  held : list byte;
  next_ping : Z;
  pending_ping : option (Z * Z);
  pings_sent : Z;
  pongs_received : Z;
  last_pong_latency_ms : Z;
  sent_frames : list RouteControlFrame;
  control_degraded : bool;
  last_control_error : option LoopError;
  ended : option LoopError;
}.

(** ** Reading a frame piece by piece *)

Section loop.
Context `{SerdeJson}.

(** What a future of [read_from] that holds these bytes waits for. *)
Inductive Progress := NeedMore | Complete (r : result FrameError RouteControlFrame).

Definition frame_progress (got : list byte) : Progress :=
  if len got <? 4 then NeedMore
  else if negb (bool_decide (take 4 got = CONTROL_FRAME_MAGIC)) then Complete (Err FrameMagic)
  else if len got <? 6 then NeedMore
  else
    let version := be_value (take 2 (drop 4 got)) in
    if negb (version =? CONTROL_FRAME_VERSION) then Complete (Err (FrameVersion version))
    else if len got <? 10 then NeedMore
    else
      let n := be_value (take 4 (drop 6 got)) in
      if negb (n <=? MAX_CONTROL_FRAME) then Complete (Err (FrameTooLarge n))
      else if len got <? 10 + n then NeedMore
      else Complete (ok_or FrameDecode (json_parse (drop 10 got) ≫= from_value)).

(** A poll of this future: it takes what has arrived, as far as it needs it. *)
Fixpoint poll_read (got unread : list byte) : list byte * list byte * Progress :=
  match frame_progress got, unread with
  | NeedMore, b :: unread => poll_read (got ++ [b]) unread
  | p, unread => (got, unread, p)
  end.

(** ** The loop *)

(** [return Err(err)] after [mark_control_degraded] and the error fields. *)
Definition stop (e : LoopError) (s : Loop) : Loop :=
  MkLoop (unread s) (stream_end s) [] (next_ping s) (pending_ping s) (pings_sent s) (pongs_received s)
    (last_pong_latency_ms s) (sent_frames s) true (Some e) (Some e).

Definition write_frame (f : RouteControlFrame) (s : Loop) : Loop :=
  MkLoop (unread s) (stream_end s) (held s) (next_ping s) (pending_ping s) (pings_sent s) (pongs_received s)
    (last_pong_latency_ms s) (sent_frames s ++ [f]) (control_degraded s) (last_control_error s) (ended s).

Definition set_read (got unread : list byte) (s : Loop) : Loop :=
  MkLoop unread (stream_end s) got (next_ping s) (pending_ping s) (pings_sent s) (pongs_received s)
    (last_pong_latency_ms s) (sent_frames s) (control_degraded s) (last_control_error s) (ended s).

(** Instants are in nanoseconds. *)
Definition elapsed_millis (now sent_at : Z) : BinNums.N := Z.to_N ((now - sent_at) / 10 ^ 6).

(** The frame branch; [written] is the outcome of a write. *)
Definition on_frame (now : Z) (written : result FrameError unit) (f : RouteControlFrame) (s : Loop) : Loop :=
  match f with
  | RPing seq =>
    match written with
    | Ok _ => write_frame (RPong seq) s
    | Err e => stop (LoopFrame e) s
    end
  | RPong seq =>
    match pending_ping s with
    | Some (pending_seq, sent_at) =>
      if pending_seq =? seq then
        MkLoop (unread s) (stream_end s) (held s) (next_ping s) None (pings_sent s)
          (wrap_u 64 (pongs_received s + 1)) (duration_millis (elapsed_millis now sent_at)) (sent_frames s)
          (control_degraded s) (last_control_error s) (ended s)
      else s
    | None => s
    end
  | RHello _ | RWelcome _ => s
  end.

(** The timer branch. *)
Definition on_tick (now : Z) (written : result FrameError unit) (s : Loop) : Loop :=
  let expired :=
    match pending_ping s with
    | Some (seq, sent_at) => if CONTROL_KEEPALIVE_TIMEOUT_SECS * 10 ^ 9 <=? now - sent_at then Some seq else None
    | None => None
    end in
  match expired with
  | Some seq => stop (PongTimeout seq) s
  | None =>
    match pending_ping s with
    | Some _ => s
    | None =>
      let seq := next_ping s in
      let s := MkLoop (unread s) (stream_end s) (held s) (saturating_add_u 64 (next_ping s) 1) None (pings_sent s)
                 (pongs_received s) (last_pong_latency_ms s) (sent_frames s) (control_degraded s)
                 (last_control_error s) (ended s) in
      match written with
      | Err e => stop (LoopFrame e) s
      | Ok _ =>
        let s := write_frame (RPing seq) s in
        MkLoop (unread s) (stream_end s) (held s) (next_ping s) (Some (seq, now)) (wrap_u 64 (pings_sent s + 1))
          (pongs_received s) (last_pong_latency_ms s) (sent_frames s) (control_degraded s)
          (last_control_error s) (ended s)
      end
    end
  end.

(** [Arrive] and [End] are what the network does to the stream; [Poll] polls
    the reading branch, which the loop leaves when the frame is complete or
    fails; [Tick] is the timer branch winning the [select!]: the reading future
    and the bytes it holds are gone. *)
Inductive Event :=
| Arrive (bs : list byte)
| End (e : io_error)
| Poll (now : Z) (written : result FrameError unit)
| Tick (now : Z) (written : result FrameError unit).

Definition running_loop (s : Loop) : bool := match ended s with None => true | Some _ => false end.

Definition loop_step (s : Loop) (e : Event) : option Loop :=
  match e with
  | Arrive bs =>
    match stream_end s with
    | None => Some (MkLoop (unread s ++ bs) None (held s) (next_ping s) (pending_ping s) (pings_sent s)
                      (pongs_received s) (last_pong_latency_ms s) (sent_frames s) (control_degraded s)
                      (last_control_error s) (ended s))
    | Some _ => None
    end
  | End e =>
    match stream_end s with
    | None => Some (MkLoop (unread s) (Some e) (held s) (next_ping s) (pending_ping s) (pings_sent s)
                      (pongs_received s) (last_pong_latency_ms s) (sent_frames s) (control_degraded s)
                      (last_control_error s) (ended s))
    | Some _ => None
    end
  | Poll now written =>
    if negb (running_loop s) then None
    else
      match poll_read (held s) (unread s) with
      | (got, rest, Complete (Ok f)) => Some (on_frame now written f (set_read [] rest s))
      | (got, rest, Complete (Err e)) => Some (stop (LoopFrame e) (set_read [] rest s))
      | (got, rest, NeedMore) =>
        match stream_end s with
        | Some e => Some (stop (LoopFrame (FrameIo e)) (set_read got rest s))
        | None => Some (set_read got rest s)
        end
      end
  | Tick now written =>
    if negb (running_loop s) then None else Some (on_tick now written (set_read [] (unread s) s))
  end.

Definition loop_start : Loop := MkLoop [] None [] 1 None 0 0 0 [] false None None.

(** ** A frame that arrives in pieces *)

Lemma progress_complete f : SerdeJsonLaws -> frame_fits f -> frame_progress (route_frame_bytes f) = Complete (Ok f).
Proof.
  intros ? [Hok Hl]. unfold frame_progress, route_frame_bytes, frame_bytes.
  set (p := json_text (to_value f)) in *.
  assert (Hlen : len (CONTROL_FRAME_MAGIC ++ be_bytes 2 CONTROL_FRAME_VERSION ++ be_bytes 4 (len p) ++ p) = 10 + len p).
  { autorewrite with len. cbn. lia. }
  assert (Hn : be_value (be_bytes 4 (len p)) = len p).
  { apply be_value_u. unfold in_u, MAX_CONTROL_FRAME in *. lia. }
  rewrite !Hlen. destruct (Z.ltb_spec (10 + len p) 4); [lia|].
  change (take 4 (CONTROL_FRAME_MAGIC ++ be_bytes 2 CONTROL_FRAME_VERSION ++ be_bytes 4 (len p) ++ p)) with CONTROL_FRAME_MAGIC.
  rewrite bool_decide_true by done. cbn [negb]. destruct (Z.ltb_spec (10 + len p) 6); [lia|].
  change (be_value (take 2 (drop 4 (CONTROL_FRAME_MAGIC ++ be_bytes 2 CONTROL_FRAME_VERSION ++ be_bytes 4 (len p) ++ p)))) with 1.
  cbn [Z.eqb negb CONTROL_FRAME_VERSION]. destruct (Z.ltb_spec (10 + len p) 10); [lia|].
  change (take 4 (drop 6 (CONTROL_FRAME_MAGIC ++ be_bytes 2 CONTROL_FRAME_VERSION ++ be_bytes 4 (len p) ++ p))) with (be_bytes 4 (len p)).
  change (drop 10 (CONTROL_FRAME_MAGIC ++ be_bytes 2 CONTROL_FRAME_VERSION ++ be_bytes 4 (len p) ++ p)) with p.
  rewrite Hn, (proj2 (Z.leb_le _ _) Hl), Z.ltb_irrefl. cbn [negb].
  unfold p. rewrite json_round_trip by (by apply wire_plain). cbn [mbind option_bind]. by rewrite wire_back.
Qed.
Lemma take_drop_prefix {A} (n m : nat) (got more : list A) :
  (n + m <= length got)%nat -> take m (drop n got) = take m (drop n (got ++ more)).
Proof. intros Hl. rewrite drop_app_le by lia. rewrite take_app_le; [done|]. rewrite length_drop. lia. Qed.

Lemma progress_partial f got more :
  frame_fits f -> got ++ more = route_frame_bytes f -> more <> [] -> frame_progress got = NeedMore.
Proof.
  intros [Hok Hl] Hx Hne. unfold frame_progress. set (p := json_text (to_value f)) in *.
  assert (Hlen : len got + len more = 10 + len p).
  { rewrite <-Nat2Z.inj_add, <-length_app, Hx. unfold route_frame_bytes, frame_bytes. fold p.
    autorewrite with len. cbn. lia. }
  assert (0 < len more) by (destruct more; [done|cbn; lia]).
  destruct (Z.ltb_spec (len got) 4); [done|].
  assert (Hm : take 4 got = CONTROL_FRAME_MAGIC).
  { rewrite <-(drop_0 got) at 1. by rewrite (take_drop_prefix 0 4 got more), Hx by lia. }
  rewrite bool_decide_true by done. cbn [negb]. destruct (Z.ltb_spec (len got) 6); [done|].
  rewrite (take_drop_prefix 4 2 got more), Hx by lia.
  change (be_value (take 2 (drop 4 (route_frame_bytes f)))) with 1. cbn [Z.eqb negb CONTROL_FRAME_VERSION].
  destruct (Z.ltb_spec (len got) 10); [done|]. rewrite (take_drop_prefix 6 4 got more), Hx by lia.
  change (take 4 (drop 6 (route_frame_bytes f))) with (be_bytes 4 (len p)).
  rewrite be_value_u by (unfold in_u, MAX_CONTROL_FRAME in *; lia).
  rewrite (proj2 (Z.leb_le _ _) Hl). cbn [negb]. by destruct (Z.ltb_spec (len got) (10 + len p)); [|lia].
Qed.

(** A poll in the middle of a stream of frames: it completes the current frame
    or takes all there is. *)
Lemma poll_read_frame f `{!SerdeJsonLaws} : frame_fits f -> forall bs got more,
  got ++ more = route_frame_bytes f -> more <> [] ->
  (exists rest, bs = more ++ rest
     /\ poll_read got bs = (route_frame_bytes f, rest, Complete (Ok f)))
  \/ (exists more', more = bs ++ more' /\ more' <> []
      /\ poll_read got bs = (got ++ bs, [], NeedMore))
  \/ ~ (bs `prefix_of` more \/ more `prefix_of` bs).
Proof.
  intros Hf. induction bs as [|b bs IH]; intros got more Hx Hne; cbn [poll_read];
    rewrite (progress_partial f got more Hf Hx Hne).
  - right; left. exists more. by rewrite app_nil_r.
  - destruct more as [|b' more]; [done|]. destruct (decide (b = b')) as [<-|Hb].
    2: { right; right. intros [[? [= ->]]|[? [= ->]]]; done. }
    assert (Hx' : (got ++ [b]) ++ more = route_frame_bytes f) by (by rewrite <-app_assoc).
    destruct more as [|c more].
    { left. exists bs. split; [done|]. rewrite app_nil_r in Hx'. rewrite Hx'.
      destruct bs; cbn [poll_read]; by rewrite progress_complete. }
    destruct (IH (got ++ [b]) (c :: more) Hx' ltac:(done)) as [(r & -> & E)|[(m & Hm & Hne' & E)|Hn]].
    + left. exists r. by rewrite E.
    + right; left. exists m. rewrite Hm, E, <-app_assoc. done.
    + right; right. intros [[k [= Hk]]|[k [= Hk]]]; apply Hn; [left|right]; by exists k.
Qed.

(** ** Counting pings *)

Definition is_ping (f : RouteControlFrame) : bool := match f with RPing _ => true | _ => false end.
Definition is_pong (f : RouteControlFrame) : bool := match f with RPong _ => true | _ => false end.
Definition outstanding (s : Loop) : Z := match pending_ping s with Some _ => 1 | None => 0 end.

Record counted (s : Loop) : Prop := {
  counted_pings : pings_sent s = pongs_received s + outstanding s;
  counted_pongs : 0 <= pongs_received s;
  counted_next : ended s = None -> next_ping s = pings_sent s + 1;
  counted_pending seq t : pending_ping s = Some (seq, t) -> seq = pings_sent s;
  counted_sent : filter is_ping (sent_frames s) = RPing <$> seqZ 1 (pings_sent s);
  counted_end : ended s = last_control_error s;
  counted_degraded : control_degraded s = bool_decide (is_Some (ended s));
}.

Lemma counted_start : counted loop_start.
Proof. by split. Qed.

Lemma counted_read got bs s : counted s -> counted (set_read got bs s).
Proof. by intros []; split. Qed.

Lemma counted_stop e s : counted s -> counted (stop e s).
Proof. by intros []; split. Qed.

Lemma counted_write f s : is_ping f = false -> counted s -> counted (write_frame f s).
Proof. intros Hf []; split; try done. cbn. rewrite filter_app, filter_cons_False, filter_nil, app_nil_r; [done|].
  rewrite Hf. by intros []. Qed.

Lemma counted_frame now w f s :
  counted s -> pings_sent s < 2 ^ 64 - 1 -> counted (on_frame now w f s).
Proof.
  intros Hs Hb. destruct f as [| |seq|seq]; cbn; [done|done| |].
  - destruct w; [by apply counted_write|by apply counted_stop].
  - destruct Hs as [Hp Hq Hn Hpd Hse He Hd]. unfold outstanding in Hp.
    destruct (pending_ping s) as [[ps t]|] eqn:E; [|by split; unfold outstanding; rewrite ?E].
    destruct (ps =? seq); [|by split; unfold outstanding; rewrite ?E].
    rewrite wrap_u_small by (unfold in_u; lia). split; cbn; try done; unfold outstanding; cbn; lia.
Qed.

Lemma counted_tick now w s :
  counted s -> ended s = None -> pings_sent s < 2 ^ 64 - 2 ->
  counted (on_tick now w s) /\ pings_sent (on_tick now w s) <= pings_sent s + 1.
Proof.
  intros Hs Hrun Hb. pose proof Hs as [Hp Hq Hn Hpd Hse He Hd]. unfold outstanding in Hp. unfold on_tick.
  destruct (pending_ping s) as [[ps t]|] eqn:E.
  - case_match; [split; [by apply counted_stop|cbn; lia]|]. split; [done|lia].
  - rewrite (Hn Hrun). unfold saturating_add_u. rewrite Z.min_l by (unfold u_max; lia). destruct w as [[]|e].
    + cbn. rewrite wrap_u_small by (unfold in_u; lia). split; [|lia]. split; cbn; unfold outstanding; cbn; try done; try lia.
      * by intros ?? [= <- <-].
      * rewrite filter_app, filter_cons_True, filter_nil, Hse by done.
        rewrite seqZ_app, fmap_app by lia. f_equal. change (seqZ (1 + pings_sent s) 1) with [0 + (1 + pings_sent s)].
        cbn. do 2 f_equal. lia.
    + split; [|cbn; lia]. split; cbn; unfold outstanding; cbn; try done; lia.
Qed.

Lemma counted_reaches es : forall s,
  runs loop_step loop_start es = Some s -> len es < 2 ^ 64 - 2 -> counted s /\ pings_sent s <= len es.
Proof.
  induction es as [|e es IH] using rev_ind; intros s.
  { intros [= <-] _. split; [apply counted_start|done]. }
  intros (s1 & H1 & Hstep)%runs_snoc Hl. rewrite length_app in *. cbn in Hl |- *.
  destruct (IH s1 H1 ltac:(lia)) as [Hs Hb]. unfold loop_step in Hstep. destruct e as [bs|e|now w|now w].
  - destruct (stream_end s1); simplify_eq. split; [by destruct Hs; split|cbn; lia].
  - destruct (stream_end s1); simplify_eq. split; [by destruct Hs; split|cbn; lia].
  - destruct (running_loop s1) eqn:Er; [|done]. cbn in Hstep.
    destruct (poll_read (held s1) (unread s1)) as [[got rest] [|[f|e]]].
    + destruct (stream_end s1); simplify_eq; (split; [|cbn; lia]); [apply counted_stop|]; by apply counted_read.
    + simplify_eq. split; [apply counted_frame; [by apply counted_read|cbn; lia]|].
      destruct f as [| |seq|seq]; cbn; [lia|lia|destruct w; cbn; lia|].
      destruct (pending_ping s1) as [[]|]; [|cbn; lia]. case_match; cbn; lia.
    + simplify_eq. split; [by apply counted_stop, counted_read|cbn; lia].
  - unfold running_loop in Hstep. destruct (ended s1) eqn:Er; [done|]. cbn in Hstep. simplify_eq.
    destruct (counted_tick now w (set_read [] (unread s1) s1)) as [H2 H3]; [by apply counted_read|done|cbn; lia|].
    cbn in H3. split; [done|lia].
Qed.

(** ** Ticks between frames *)

(** The bytes the peer has sent. *)
Definition arrived (es : list Event) : list byte :=
  concat ((fun e => match e with Arrive bs => bs | _ => [] end) <$> es).

(** The pongs a list of frames is answered with. *)
Definition replies (fs : list RouteControlFrame) : list RouteControlFrame :=
  omap (fun f => match f with RPing seq => Some (RPong seq) | _ => None end) fs.

(** Executions in which the timer never wins while a frame has partly arrived,
    and writes fail only with errors of the stream. *)
Definition write_error (w : result FrameError unit) : bool :=
  match w with Err (FrameIo _) | Ok _ => true | Err _ => false end.

Definition in_step (s : Loop) (e : Event) : option Loop :=
  match e with
  | Tick _ w => when (write_error w && bool_decide (held s = [])) s ≫= (fun s => loop_step s e)
  | Poll _ w => when (write_error w) s ≫= (fun s => loop_step s e)
  | _ => loop_step s e
  end.

(** An end that is not the reader's mistake. *)
Definition innocent (e : LoopError) : Prop :=
  match e with PongTimeout _ | LoopFrame (FrameIo _) => True | _ => False end.

Definition partly (s : Loop) (todo : list RouteControlFrame) : Prop :=
  held s = [] \/ exists f todo' more, todo = f :: todo' /\ held s ++ more = route_frame_bytes f /\ more <> [].

Definition synced (fs : list RouteControlFrame) (es : list Event) (s : Loop) : Prop :=
  exists read todo, fs = read ++ todo /\ filter is_pong (sent_frames s) = replies read
    /\ match ended s with
       | None => arrived es = frames_bytes read ++ held s ++ unread s /\ partly s todo
       | Some e => innocent e
       end.

Lemma frame_not_empty f : route_frame_bytes f <> [].
Proof. done. Qed.

Lemma frames_bytes_app l k : frames_bytes (l ++ k) = frames_bytes l ++ frames_bytes k.
Proof. unfold frames_bytes. by rewrite fmap_app, concat_app. Qed.

Lemma replies_snoc l f : replies (l ++ [f]) = replies l ++ replies [f].
Proof. apply omap_app. Qed.

(** What a poll does in a stream of frames. *)
Lemma poll_synced `{!SerdeJsonLaws} fs read todo bs s :
  Forall frame_fits fs -> fs = read ++ todo -> (frames_bytes read ++ held s ++ unread s) ++ bs = frames_bytes fs ->
  partly s todo ->
  (exists f todo' rest, todo = f :: todo' /\ held s ++ unread s = route_frame_bytes f ++ rest
     /\ poll_read (held s) (unread s) = (route_frame_bytes f, rest, Complete (Ok f)))
  \/ (poll_read (held s) (unread s) = (held s ++ unread s, [], NeedMore)
      /\ partly (set_read (held s ++ unread s) [] s) todo).
Proof.
  intros Hfs -> Hall Hp. rewrite frames_bytes_app, <-app_assoc in Hall. apply app_inv_head in Hall.
  destruct todo as [|f todo].
  { cbn in Hall. apply app_eq_nil in Hall as [Hall _]. apply app_eq_nil in Hall as [-> ->]. right. split; [done|by left]. }
  assert (Hmore : exists more, held s ++ more = route_frame_bytes f /\ more <> []).
  { destruct Hp as [->|(f' & todo' & more & [= <- <-] & Hx & Hne)]; [|by exists more].
    exists (route_frame_bytes f). split; [done|apply frame_not_empty]. }
  destruct Hmore as (more & Hx & Hne).
  change (frames_bytes (f :: todo)) with (route_frame_bytes f ++ frames_bytes todo) in Hall. rewrite <-Hx, <-!app_assoc in Hall. apply app_inv_head in Hall.
  apply Forall_app in Hfs as [_ [Hf _]%Forall_cons].
  destruct (poll_read_frame f Hf (unread s) (held s) more Hx Hne) as [(rest & Hu & E)|[(m & Hm & Hne' & E)|Hno]].
  - left. exists f, todo, rest. split_and!; [done| |done]. by rewrite Hu, app_assoc, Hx.
  - right. split; [done|]. right. exists f, todo, m. cbn. by rewrite <-app_assoc, <-Hm.
  - destruct Hno. apply (prefix_weak_total _ _ (unread s ++ bs)); [by exists bs|]. rewrite Hall. by eexists.
Qed.

Lemma control_arrived_snoc es e : arrived (es ++ [e]) = arrived es ++ match e with Arrive bs => bs | _ => [] end.
Proof. unfold arrived. rewrite fmap_app, concat_app. cbn. by rewrite app_nil_r. Qed.

(** The frame that was read next. *)
Lemma synced_frame fs read f todo es e now w s bs :
  write_error w = true -> fs = read ++ f :: todo -> filter is_pong (sent_frames s) = replies read ->
  ended s = None -> arrived (es ++ [e]) = frames_bytes read ++ route_frame_bytes f ++ bs ->
  synced fs (es ++ [e]) (on_frame now w f (set_read [] bs s)).
Proof.
  intros Hw Hfs Hp He Ha.
  assert (Ha' : arrived (es ++ [e]) = frames_bytes (read ++ [f]) ++ [] ++ bs).
  { rewrite frames_bytes_app, Ha, <-app_assoc. unfold frames_bytes. cbn. by rewrite app_nil_r. }
  assert (Hfs' : fs = (read ++ [f]) ++ todo) by (by rewrite <-app_assoc).
  destruct f as [h|h|seq|seq]; cbn [on_frame].
  - exists (read ++ [RHello h]), todo. rewrite replies_snoc. cbn. rewrite app_nil_r, He. split_and!; [done..|by left].
  - exists (read ++ [RWelcome h]), todo. rewrite replies_snoc. cbn. rewrite app_nil_r, He. split_and!; [done..|by left].
  - destruct w as [[]|err].
    + exists (read ++ [RPing seq]), todo. rewrite replies_snoc. cbn. rewrite filter_app, Hp, He. split_and!; [done..|by left].
    + exists read, (RPing seq :: todo). cbn. split_and!; [done..|]. by destruct err.
  - exists (read ++ [RPong seq]), todo. rewrite replies_snoc. cbn [pending_ping set_read].
    destruct (pending_ping s) as [[q t]|]; [destruct (q =? seq)|]; cbn; rewrite app_nil_r, He;
      (split_and!; [done..|by left]).
Qed.

Lemma synced_step `{!SerdeJsonLaws} fs es s e s' :
  Forall frame_fits fs -> arrived (es ++ [e]) `prefix_of` frames_bytes fs ->
  synced fs es s -> in_step s e = Some s' -> synced fs (es ++ [e]) s'.
Proof.
  intros Hfs [future Hall] (read & todo & Hsplit & Hp & Hst) Hstep.
  pose proof (control_arrived_snoc es e) as Ha. destruct e as [bs|err|now w|now w]; cbn [in_step] in Hstep.
  - cbn in Hstep. destruct (stream_end s); simplify_eq. exists read, todo. cbn. split_and!; [done..|].
    destruct (ended s); [done|]. destruct Hst as [Ha' Hpart]. rewrite Ha, Ha', <-!app_assoc. by split.
  - cbn in Hstep. destruct (stream_end s); simplify_eq. exists read, todo. cbn. split_and!; [done..|].
    destruct (ended s); [done|]. by rewrite Ha, app_nil_r.
  - apply bind_Some in Hstep as (s1 & [Hw ->]%when_Some & Hstep). cbn in Hstep. unfold running_loop in Hstep.
    destruct (ended s) eqn:He; [done|]. destruct Hst as [Ha' Hpart]. rewrite app_nil_r in Ha.
    rewrite Ha, Ha' in Hall. cbn [negb] in Hstep.
    destruct (poll_synced fs read todo future s Hfs Hsplit (eq_sym Hall) Hpart)
      as [(f & todo' & rest & -> & Hu & E)|[E Hpart']]; rewrite E in Hstep.
    + injection Hstep as <-. eapply synced_frame; eauto. by rewrite Ha, Ha', Hu.
    + destruct (stream_end s); injection Hstep as <-; exists read, todo; cbn; rewrite ?He; split_and!; try done.
      by rewrite Ha, Ha', app_nil_r.
  - apply bind_Some in Hstep as (s1 & [Hw ->]%when_Some & Hstep). apply andb_true_iff in Hw as [Hw Hh%bool_decide_eq_true].
    cbn in Hstep. unfold running_loop in Hstep. destruct (ended s) eqn:He; [done|]. cbn in Hstep.
    injection Hstep as <-. destruct Hst as [Ha' _]. rewrite Hh in Ha'. rewrite app_nil_r in Ha. exists read, todo.
    unfold on_tick. cbn. destruct (pending_ping s) as [[q t]|].
    + case_match; cbn; [by split_and!|]. rewrite He, Ha, Ha'. split_and!; [done..|by left].
    + destruct w as [[]|err]; cbn; [|by split_and!; [..|destruct err]].
      rewrite filter_app, Hp, He, Ha, Ha'. cbn. rewrite app_nil_r. split_and!; [done..|by left].
Qed.

Lemma synced_reaches `{!SerdeJsonLaws} fs es s :
  Forall frame_fits fs -> runs in_step loop_start es = Some s -> arrived es `prefix_of` frames_bytes fs ->
  synced fs es s.
Proof.
  intros Hfs. revert s. induction es as [|e es IH] using rev_ind; intros s.
  { intros [= <-] _. exists [], fs. cbn. split_and!; [done..|by left]. }
  intros (s1 & H1 & Hstep)%runs_snoc Ha. eapply synced_step; eauto. apply IH; [done|].
  rewrite control_arrived_snoc in Ha. by eapply prefix_app_l.
Qed.
Lemma poll_read_step got b bs : frame_progress got = NeedMore -> poll_read got (b :: bs) = poll_read (got ++ [b]) bs.
Proof. intros H0. cbn [poll_read]. by rewrite H0. Qed.

(** A read that starts in the middle of a frame. *)
Lemma poll_wrong_magic b :
  4 <= len b -> take 4 b <> CONTROL_FRAME_MAGIC ->
  poll_read [] b = (take 4 b, drop 4 b, Complete (Err FrameMagic)).
Proof.
  destruct b as [|b0 [|b1 [|b2 [|b3 b]]]]; cbn [length]; [lia..|]. intros _ Hne.
  assert (Hp : frame_progress [b0; b1; b2; b3] = Complete (Err FrameMagic)).
  { unfold frame_progress. cbn [length Z.of_nat Z.ltb]. rewrite bool_decide_false; done. }
  do 4 (rewrite poll_read_step by done). cbn [app]. by destruct b; cbn [poll_read]; rewrite Hp.
Qed.

(** ** Answers in time *)

(** The pings that are on the wire without an answer, with the instant they
    were sent at: one is added when a tick writes it, and leaves when a pong
    with its number is read. *)
Definition ledger_step (s s' : Loop) (e : Event) (l : list (Z * Z)) : list (Z * Z) :=
  match e with
  | Tick now _ => match drop (length (sent_frames s)) (sent_frames s') with [RPing q] => l ++ [(q, now)] | _ => l end
  | Poll _ _ =>
    match poll_read (held s) (unread s) with (_, _, Complete (Ok (RPong q))) => filter (fun p => p.1 <> q) l | _ => l end
  | _ => l
  end.

Definition book_step (b : Loop * list (Z * Z)) (e : Event) : option (Loop * list (Z * Z)) :=
  s ← loop_step b.1 e; Some (s, ledger_step b.1 s e b.2).

(** Executions in step in which, whenever the timer fires, every ping sent 45
    seconds ago or earlier has been answered. *)
Definition in_time (e : Event) (l : list (Z * Z)) : bool :=
  match e with Tick now _ => forallb (fun p => now - p.2 <? 45 * 10 ^ 9) l | _ => true end.
Definition prompt_step (b : Loop * list (Z * Z)) (e : Event) : option (Loop * list (Z * Z)) :=
  s ← in_step b.1 e; b ← when (in_time e b.2) b; Some (s, ledger_step b.1 s e b.2).

(** A stream that does not fail. *)
Definition quiet (e : Event) : Prop :=
  match e with Arrive _ => True | End _ => False | Poll _ w | Tick _ w => w = Ok tt end.

(** The ledger is what the loop has noted. *)
Lemma ledger_pending b e b' :
  b.2 = option_list (pending_ping b.1) -> book_step b e = Some b' -> b'.2 = option_list (pending_ping b'.1).
Proof.
  destruct b as [s l]. cbn. intros -> (s' & Hs & [= <-])%bind_Some. cbn. destruct e as [bs|e|now w|now w]; cbn in *.
  - by destruct (stream_end s); simplify_eq.
  - by destruct (stream_end s); simplify_eq.
  - destruct (running_loop s); [|done]. cbn in Hs.
    destruct (poll_read (held s) (unread s)) as [[got rest] [|[f|e]]]; [by destruct (stream_end s); simplify_eq| |by simplify_eq].
    injection Hs as <-. destruct f as [| |q|q]; [done|done|by destruct w|]. cbn.
    destruct (pending_ping s) as [[p t]|] eqn:Ep; cbn; [|by rewrite Ep]. destruct (Z.eqb_spec p q) as [->|Hne].
    + by case_decide.
    + case_decide; cbn; by rewrite ?Ep.
  - destruct (running_loop s); [|done]. cbn in Hs. injection Hs as <-. unfold on_tick. cbn.
    destruct (pending_ping s) as [[p t]|] eqn:Ep; [destruct (_ <=? _)|destruct w]; cbn; by rewrite ?drop_all, ?drop_app_length, ?Ep.
Qed.

Lemma ledger_reaches es : forall b, runs book_step (loop_start, []) es = Some b -> b.2 = option_list (pending_ping b.1).
Proof.
  induction es as [|e es IH] using rev_ind; intros b; [by intros [= <-]|].
  intros (b1 & H1 & Hstep)%runs_snoc. by eapply ledger_pending; [apply IH|].
Qed.

(** When a tick gives up. *)
Lemma tick_gives_up s l now w s' q :
  l = option_list (pending_ping s) -> loop_step s (Tick now w) = Some s' ->
  ended s' = Some (PongTimeout q) <-> exists t, (q, t) ∈ l /\ 45 * 10 ^ 9 <= now - t.
Proof.
  intros -> Hs. cbn in Hs. unfold running_loop in Hs. destruct (ended s) eqn:Ed; [done|]. cbn in Hs. injection Hs as <-.
  unfold on_tick. cbn. destruct (pending_ping s) as [[p t]|] eqn:Ep; cbn.
  - unfold CONTROL_KEEPALIVE_TIMEOUT_SECS. destruct (Z.leb_spec (45 * 10 ^ 9) (now - t)) as [Hle|Hlt]; cbn.
    + split; [intros [= ->]; exists t; by rewrite list_elem_of_singleton|]. by intros (t' & [= -> ->]%list_elem_of_singleton & _).
    + rewrite Ed. split; [done|]. intros (t' & [= -> ->]%list_elem_of_singleton & Ht). lia.
  - split; [|by intros (t' & ?%elem_of_nil & _)]. destruct w; cbn; by rewrite ?Ed.
Qed.

Lemma progress_no_io got e : frame_progress got <> Complete (Err (FrameIo e)).
Proof. unfold frame_progress. repeat case_match; try done. by destruct (_ ≫= _). Qed.
Lemma poll_no_io bs : forall got got' rest e, poll_read got bs <> (got', rest, Complete (Err (FrameIo e))).
Proof.
  induction bs as [|b bs IH]; intros got got' rest e; cbn; destruct (frame_progress got) eqn:E; try done; try apply IH;
    intros [= _ _ ->]; by eapply progress_no_io.
Qed.

Lemma book_runs es : forall b, runs prompt_step (loop_start, []) es = Some b ->
  runs in_step loop_start es = Some b.1 /\ runs book_step (loop_start, []) es = Some b.
Proof.
  induction es as [|e es IH] using rev_ind; intros b; [by intros [= <-]|].
  intros (b1 & H1 & Hstep)%runs_snoc. destruct (IH b1 H1) as [H2 H3].
  apply bind_Some in Hstep as (s & Hs & (b2 & [_ ->]%when_Some & [= <-])%bind_Some).
  split; apply runs_snoc; eexists; (split; [done|]); [done|].
  assert (loop_step b1.1 e = Some s) as E.
  { unfold in_step in Hs. destruct e; try done; by apply bind_Some in Hs as (? & [_ ->]%when_Some & Hs). }
  unfold book_step. by rewrite E.
Qed.

(** A prompt peer is not given up. *)
Lemma prompt_reaches es : forall b, runs prompt_step (loop_start, []) es = Some b ->
  (forall q, ended b.1 <> Some (PongTimeout q))
  /\ (Forall quiet es -> stream_end b.1 = None /\ forall e, ended b.1 <> Some (LoopFrame (FrameIo e))).
Proof.
  induction es as [|e es IH] using rev_ind; intros b; [by intros [= <-]|].
  intros (b1 & H1 & Hstep)%runs_snoc. destruct (IH b1 H1) as [Hno Hq].
  pose proof (ledger_reaches es b1 (proj2 (book_runs es b1 H1))) as Hl. destruct b1 as [s l]. cbn in Hl, Hno, Hq.
  apply bind_Some in Hstep as (s' & Hs & (b2 & [Ht ->]%when_Some & [= <-])%bind_Some). cbn in Hs, Ht |- *.
  rewrite Forall_app, Forall_singleton. assert (loop_step s e = Some s') as E.
  { unfold in_step in Hs. destruct e; try done; by apply bind_Some in Hs as (? & [_ ->]%when_Some & Hs). }
  clear Hs. destruct e as [bs|e|now w|now w]; cbn in E.
  - destruct (stream_end s) eqn:Es; simplify_eq. cbn. split; [done|]. intros [Hes _]. split; [done|]. by apply Hq.
  - destruct (stream_end s); simplify_eq. cbn. split; [done|]. by intros [_ []].
  - destruct (running_loop s) eqn:Er; [|done]. unfold running_loop in Er. destruct (ended s) eqn:Ed; [done|]. cbn in E.
    destruct (poll_read (held s) (unread s)) as [[got rest] [|[f|err]]] eqn:Ep.
    + destruct (stream_end s) as [err|] eqn:Es; injection E as <-; cbn; (split; [by rewrite ?Ed|]).
      * intros [Hes _]. by destruct (Hq Hes).
      * intros _. by rewrite Es, Ed.
    + injection E as <-. split.
      * intros q. destruct f as [| |?|?]; cbn; try (by rewrite ?Ed); [by destruct w; cbn; rewrite ?Ed|].
        destruct (pending_ping s) as [[]|]; [case_match|]; cbn; by rewrite ?Ed.
      * intros [Hes Hw]. cbn in Hw. subst w. destruct (Hq Hes) as [Es _].
        destruct f as [| |?|?]; cbn; try (by rewrite ?Ed); destruct (pending_ping s) as [[]|]; [case_match|]; cbn; by rewrite ?Ed.
    + injection E as <-. cbn. split; [done|]. intros [Hes _]. destruct (Hq Hes) as [Es _]. split; [done|].
      intros e [= ->]. by eapply poll_no_io.
  - destruct (running_loop s) eqn:Er; [|done]. unfold running_loop in Er. destruct (ended s) eqn:Ed; [done|]. cbn in E.
    injection E as <-. unfold on_tick. cbn. subst l. destruct (pending_ping s) as [[p t]|] eqn:Ep; cbn in Ht.
    + rewrite andb_true_r in Ht. apply Z.ltb_lt in Ht. unfold CONTROL_KEEPALIVE_TIMEOUT_SECS.
      rewrite (proj2 (Z.leb_gt _ _)) by lia. cbn. rewrite Ed. split; [done|]. intros [Hes _]. split; [by apply Hq|done].
    + destruct w; cbn; rewrite ?Ed; (split; [done|]); intros [Hes Hw]; [|done]. split; [by apply Hq|done].
Qed.
End loop.

(** ** Properties *)

(** C20. The keepalive keeps its books, answers the peer, stays up with a peer
    that answers in time and gives up one that does not.  Whatever happens, at
    most one ping is unanswered, the pings carry the numbers 1, 2, ... in the
    order they are sent, and the connection is marked degraded exactly when the
    loop has ended, with its error; a tick that finds a ping unanswered for 45
    seconds ends the loop for this ping, and no other tick ends it for a ping.
    If the peer's bytes are those of well-formed frames, in whatever pieces, and
    no tick comes while a frame has partly arrived, then the pongs sent answer
    exactly the pings read so far, and the loop ends only for a missing pong or
    an error of the stream; if moreover every ping is answered, and the answer
    read, before a tick that comes 45 seconds after it, the loop ends only for
    an error of the stream, and does not end at all while the stream works. *)
Theorem keepalive_sound `{SerdeJsonLaws} (es : list Event) :
  len es < 2 ^ 64 - 2 ->
  (forall s, runs loop_step loop_start es = Some s ->
     pings_sent s = pongs_received s + outstanding s
     /\ filter is_ping (sent_frames s) = RPing <$> seqZ 1 (pings_sent s)
     /\ ended s = last_control_error s /\ control_degraded s = bool_decide (is_Some (ended s)))
  /\ (forall s unanswered now w s' q, runs book_step (loop_start, []) es = Some (s, unanswered) ->
       loop_step s (Tick now w) = Some s' ->
       ended s' = Some (PongTimeout q) <-> exists t, (q, t) ∈ unanswered /\ 45 * 10 ^ 9 <= now - t)
  /\ (forall fs, Forall frame_fits fs -> arrived es `prefix_of` frames_bytes fs ->
       (forall s, runs in_step loop_start es = Some s ->
         (exists read, read `prefix_of` fs /\ filter is_pong (sent_frames s) = replies read)
         /\ from_option innocent True (ended s))
       /\ (forall s unanswered, runs prompt_step (loop_start, []) es = Some (s, unanswered) ->
         (ended s = None \/ exists e, ended s = Some (LoopFrame (FrameIo e)))
         /\ (Forall quiet es -> ended s = None))).
Proof.
  intros Hl. split_and!.
  - intros s Hr. destruct (counted_reaches es s Hr Hl) as [[] _]. done.
  - intros s l now w s' q Hb Hs. apply (tick_gives_up s l now w s' q); [|done]. exact (ledger_reaches es (s, l) Hb).
  - intros fs Hfs Ha. split.
    + intros s Hr. destruct (synced_reaches fs es s Hfs Hr Ha) as (read & todo & -> & Hp & Hst). split.
      * exists read. split; [by exists todo|done].
      * by destruct (ended s).
    + intros s l Hr. destruct (prompt_reaches es (s, l) Hr) as [Hno Hq]. cbn in Hno, Hq.
      destruct (synced_reaches fs es s Hfs (proj1 (book_runs es (s, l) Hr)) Ha) as (read & todo & _ & _ & Hst).
      destruct (ended s) as [[[]|q]|]; try done; try (by destruct (Hno q)); [|by auto].
      split; [right; by eexists|]. intros Hes. by destruct (proj2 (Hq Hes) e).
Qed.

(** A ping of the client, its pong in two pieces, and a ping of the peer. *)
Definition keepalive_events `{SerdeJson} : list Event :=
  let pong := route_frame_bytes (RPong 1) in
  [Tick 0 (Ok tt); Arrive (take 7 pong); Poll 5 (Ok tt); Arrive (drop 7 pong ++ route_frame_bytes (RPing 9));
   Poll (3 * 10 ^ 6) (Ok tt); Poll (3 * 10 ^ 6) (Ok tt)].

Lemma keepalive_sound_witness :
  let _ := CountedText.counted_json in
  exists s, runs prompt_step (loop_start, []) keepalive_events = Some (s, [])
    /\ pings_sent s = 1 /\ pongs_received s = 1
    /\ (exists read, read `prefix_of` [RPong 1; RPing 9] /\ filter is_pong (sent_frames s) = replies read)
    /\ pings_sent s = pongs_received s + outstanding s /\ ended s = None.
Proof.
  intros j. pose proof (CountedText.counted_json_laws : @SerdeJsonLaws j) as Hj.
  destruct (runs prompt_step (loop_start, []) keepalive_events) as [[s l]|] eqn:E; [|by vm_compute in E].
  exists s. destruct (keepalive_sound keepalive_events) as (H1 & _ & H2); [done|].
  assert (E' : runs loop_step loop_start keepalive_events = Some s) by (vm_compute in E |- *; by injection E as <-).
  assert (Ei : runs in_step loop_start keepalive_events = Some s) by (vm_compute in E |- *; by injection E as <-).
  destruct (H2 [RPong 1; RPing 9]) as [H3 H4]; [repeat constructor; vm_compute; congruence|by exists []; vm_compute|].
  split_and!; [| | |apply (H3 s Ei)|apply (proj1 (H1 s E'))|].
  - vm_compute in E |- *. by injection E as <- <-.
  - vm_compute in E. by injection E as <-.
  - vm_compute in E. by injection E as <-.
  - apply (H4 s l E). repeat constructor.
Defined.

Ltac run_loop :=
  cbn [runs loop_step stream_end mbind option_bind running_loop ended negb held unread app set_read pending_ping
       write_frame control_degraded next_ping pings_sent pongs_received last_pong_latency_ms sent_frames
       last_control_error].

(** C24. The timer interrupts a frame that has partly arrived and loses the part
    that was read: whenever a frame of a well-behaved peer arrives in two
    pieces with a tick between them, and its second piece does not by chance
    begin with the magic, the loop takes the rest for a new frame, fails, and
    marks the connection as degraded for good. *)
Theorem keepalive_tick_loses_bytes `{SerdeJsonLaws} (s : Loop) (f : RouteControlFrame) (a b : list byte)
    (t1 t2 t3 : Z) :
  ended s = None -> stream_end s = None -> held s = [] -> unread s = [] ->
  from_option (fun p => t2 - p.2 < CONTROL_KEEPALIVE_TIMEOUT_SECS * 10 ^ 9) True (pending_ping s) ->
  frame_fits f -> route_frame_bytes f = a ++ b -> 4 <= len b -> take 4 b <> CONTROL_FRAME_MAGIC ->
  exists s', runs loop_step s [Arrive a; Poll t1 (Ok tt); Tick t2 (Ok tt); Arrive b; Poll t3 (Ok tt)] = Some s'
    /\ ended s' = Some (LoopFrame FrameMagic) /\ control_degraded s' = true.
Proof.
  intros He Hend Hh Hu Hpd Hf Hx Hb Hm.
  assert (Hne : b <> []) by (by intros ->; cbn in Hb).
  assert (E1 : poll_read [] a = (a, [], NeedMore)).
  { destruct (poll_read_frame f Hf a [] (route_frame_bytes f) eq_refl ltac:(done)) as [(r & Hr & _)|[(m & _ & _ & E)|Hno]].
    - rewrite Hr in Hx. apply (f_equal length) in Hx. rewrite !length_app in Hx. destruct b; cbn in *; [done|lia].
    - done.
    - destruct Hno. left. by exists b. }
  destruct s as [u en h np pp ps pr lat sf cd le ed]. cbn [ended stream_end held unread pending_ping] in *. subst.
  run_loop. rewrite E1. run_loop. unfold on_tick. run_loop. destruct pp as [[q t]|]; cbn in Hpd.
  - destruct (Z.leb_spec (CONTROL_KEEPALIVE_TIMEOUT_SECS * 10 ^ 9) (t2 - t)); [lia|]. run_loop.
    rewrite poll_wrong_magic by done. run_loop. by eexists.
  - run_loop. rewrite poll_wrong_magic by done. run_loop. by eexists.
Qed.

Lemma keepalive_tick_loses_bytes_witness :
  let _ := CountedText.counted_json in
  let pong := route_frame_bytes (RPong 1) in
  exists s', runs loop_step loop_start
      [Arrive (take 7 pong); Poll 1 (Ok tt); Tick 2 (Ok tt); Arrive (drop 7 pong); Poll 3 (Ok tt)] = Some s'
    /\ ended s' = Some (LoopFrame FrameMagic) /\ control_degraded s' = true.
Proof.
  intros j pong. pose proof (CountedText.counted_json_laws : @SerdeJsonLaws j) as Hj.
  apply (keepalive_tick_loses_bytes loop_start (RPong 1)); try done.
Defined.
