(* ===== verification/PeerHandshake.v ===== *)
(** * Handshakes between peers

    [ssh-proxy-protocol/src/protocol_core/peer.rs] (the messages),
    [ssh-proxy-transport/src/peer_transport.rs] (the handshake, the candidates
    of automatic transport and the limits of QUIC options),
    [ssh-proxy-transport/src/server.rs] (what the listeners do with a
    connection) and [ssh-proxy-transport/src/remote_helper.rs] with
    [remote_helper/client.rs] (how a client opens a link).  The links
    themselves start where these functions return the stream. *)
From stdpp Require Import base list strings sorting.
From S2P Require Import Prelude RustStr IpAddr Stream Remote RouteDecision Collections Json Serde ControlFrame.

(** ** Messages *)

Inductive PeerProtocol := PSshNative | PQuicNative | PQuic | PTlsTcp | PTcp | PSshDirect | PSshExec.

#[global] Instance peer_protocol_eq_dec : EqDecision PeerProtocol.
Proof. solve_decision. Defined.

Definition peer_protocol_name (p : PeerProtocol) : string :=
  match p with
  | PSshNative => "ssh-native"
  | PQuicNative => "quic-native"
  | PQuic => "quic"
  | PTlsTcp => "tls-tcp"
  | PTcp => "tcp"
  | PSshDirect => "ssh-direct"
  | PSshExec => "ssh-exec"
  end.

Definition data_plane_label (p : PeerProtocol) : string :=
  match p with
  | PSshNative => "ssh-native"
  | PQuicNative => "quic-native"
  | PQuic => "quic-framed"
  | PTlsTcp => "tls-spx-framed"
  | PTcp => "plain-spx-framed"
  | PSshDirect => "ssh-direct-spx"
  | PSshExec => "ssh-exec-spx"
  end.

Definition peer_protocol_aliases : list (string * PeerProtocol) :=
  [("quic", PQuic);
   ("quic-native", PQuicNative); ("quic_native", PQuicNative); ("native-quic", PQuicNative); ("native_quic", PQuicNative);
   ("ssh-native", PSshNative); ("ssh_native", PSshNative); ("native-ssh", PSshNative); ("native_ssh", PSshNative);
   ("tls-tcp", PTlsTcp); ("tls_tcp", PTlsTcp); ("tls", PTlsTcp);
   ("tcp", PTcp); ("plain-tcp", PTcp); ("plain_tcp", PTcp); ("direct-tcp", PTcp); ("direct_tcp", PTcp);
   ("ssh-direct", PSshDirect); ("ssh_direct", PSshDirect); ("ssh-tcp", PSshDirect); ("ssh_tcp", PSshDirect);
   ("ssh-exec", PSshExec); ("ssh_exec", PSshExec); ("exec", PSshExec)].

(** [FromStr for PeerProtocol]. *)
Definition parse_peer_protocol (value : string) : option PeerProtocol :=
  map_get (to_ascii_lowercase value) peer_protocol_aliases.

(** The names serde derives with [rename_all = "kebab-case"]. *)
Definition peer_protocol_variants : list (string * PeerProtocol) :=
  [("ssh-native", PSshNative); ("quic-native", PQuicNative); ("quic", PQuic); ("tls-tcp", PTlsTcp); ("tcp", PTcp);
   ("ssh-direct", PSshDirect); ("ssh-exec", PSshExec)].

Record PeerHello := MkPeerHello {
  ph_version : Z;
  ph_node : string;
  ph_protocols : list PeerProtocol;
  ph_features : list string;
  ph_feature_bits : list (string * Value);
  ph_binary_version : option string;
  ph_os : option string;
  ph_arch : option string;
}.

Record PeerWelcome := MkPeerWelcome {
  pw_version : Z;
  pw_node : string;
  pw_accepted : option PeerProtocol;
  pw_features : list string;
  pw_feature_bits : list (string * Value);
  pw_binary_version : option string;
  pw_os : option string;
  pw_arch : option string;
  pw_message : string;
}.

Definition ser_protocol (p : PeerProtocol) : Value := Str (peer_protocol_name p).

Definition peer_hello_value (h : PeerHello) : Value :=
  Object ([("version", ser_uint (ph_version h)); ("node", Str (ph_node h));
           ("protocols", Array (ser_protocol <$> ph_protocols h)); ("features", Array (Str <$> ph_features h))]
          ++ ser_map "feature_bits" (ph_feature_bits h)
          ++ ser_some "binary_version" Str (ph_binary_version h)
          ++ ser_some "os" Str (ph_os h) ++ ser_some "arch" Str (ph_arch h)).

Definition de_peer_hello (v : Value) : option PeerHello :=
  _ ← de_shape 8 v;
  version ← de_required 0 "version" (de_uint 16) v;
  node ← de_required 1 "node" de_string v;
  protocols ← de_required 2 "protocols" (de_vec (de_enum peer_protocol_variants)) v;
  features ← de_required 3 "features" (de_vec de_string) v;
  feature_bits ← de_default 4 "feature_bits" de_map [] v;
  binary_version ← de_optional_default 5 "binary_version" de_string v;
  os ← de_optional_default 6 "os" de_string v;
  arch ← de_optional_default 7 "arch" de_string v;
  Some (MkPeerHello version node protocols features feature_bits binary_version os arch).

Definition peer_welcome_value (w : PeerWelcome) : Value :=
  Object ([("version", ser_uint (pw_version w)); ("node", Str (pw_node w));
           ("accepted", ser_option ser_protocol (pw_accepted w)); ("features", Array (Str <$> pw_features w))]
          ++ ser_map "feature_bits" (pw_feature_bits w)
          ++ ser_some "binary_version" Str (pw_binary_version w)
          ++ ser_some "os" Str (pw_os w) ++ ser_some "arch" Str (pw_arch w)
          ++ [("message", Str (pw_message w))]).

Definition de_peer_welcome (v : Value) : option PeerWelcome :=
  _ ← de_shape 9 v;
  version ← de_required 0 "version" (de_uint 16) v;
  node ← de_required 1 "node" de_string v;
  accepted ← de_optional 2 "accepted" (de_enum peer_protocol_variants) v;
  features ← de_required 3 "features" (de_vec de_string) v;
  feature_bits ← de_default 4 "feature_bits" de_map [] v;
  binary_version ← de_optional_default 5 "binary_version" de_string v;
  os ← de_optional_default 6 "os" de_string v;
  arch ← de_optional_default 7 "arch" de_string v;
  message ← de_required 8 "message" de_string v;
  Some (MkPeerWelcome version node accepted features feature_bits binary_version os arch message).

#[global] Instance peer_hello_wire : Wire PeerHello :=
  {| to_value := peer_hello_value; from_value := de_peer_hello |}.
#[global] Instance peer_welcome_wire : Wire PeerWelcome :=
  {| to_value := peer_welcome_value; from_value := de_peer_welcome |}.

Definition PEER_VERSION : Z := 1.

Definition default_features : list string :=
  ["frames-v1"; "socks5h"; "tcp-connect"; "udp-associate"; "ssh-native-direct-tcpip"; "quic-native-streams-v1"].
Definition default_feature_bits : list (string * Value) := map_of ((fun f => (f, Bool true)) <$> default_features).

Definition select_supported_protocol (requested supported : list PeerProtocol) : option PeerProtocol :=
  List.find (fun p => bool_decide (p ∈ supported)) requested.

(** ** The handshake *)

Definition HANDSHAKE_MAGIC : list byte := str_bytes "SPX1".
Definition MAX_HANDSHAKE : Z := 64 * 1024.

Inductive HandshakeError :=
| HsIo (e : io_error)
| HsMagic
| HsTooLarge (n : Z)
| HsDecode
| HsTimeout (label : string)
| HsVersion (remote : Z)
| HsUnexpected (accepted : PeerProtocol)
| HsRejected (message : string)
| HsToken
| HsMissing.

Section handshake.
Context {R W : Type} `{AsyncRead R} `{AsyncWrite W} `{SerdeJson}.
(** What was compiled in: [CARGO_PKG_VERSION], [consts::OS] and [consts::ARCH]. *)
Context (pkg_version os arch : string).
(** Whether the timer of an operation expires before it is done, and what the
    stream is like then. *)
Context (timer : string -> option (TcpStream R W -> TcpStream R W)).
Abbreviation peer := (sr (TcpStream R W) HandshakeError).

Definition hs_io {A} (m : sr (TcpStream R W) io_error A) : peer A := sr_map_err HsIo m.

Definition write_handshake {T} `{Wire T} (value : T) : peer unit :=
  let payload := json_text (to_value value) in
  _ ← sr_guard (len payload <=? MAX_HANDSHAKE) (HsTooLarge (len payload));
  _ ← hs_io (send (write_all HANDSHAKE_MAGIC));
  _ ← hs_io (send (write_all (be_bytes 4 (len payload))));
  _ ← hs_io (send (write_all payload));
  hs_io (send flush).

Definition read_handshake {T} `{Wire T} : peer T :=
  magic ← hs_io (recv (read_exact 4));
  _ ← sr_guard (bool_decide (magic = HANDSHAKE_MAGIC)) HsMagic;
  n ← hs_io (recv (read_exact 4));
  let n := be_value n in
  _ ← sr_guard (n <=? MAX_HANDSHAKE) (HsTooLarge n);
  payload ← hs_io (recv (read_exact n));
  sr_lift (ok_or HsDecode (json_parse payload ≫= from_value)).

Definition with_handshake_timeout {A} (operation : peer A) (label : string) : peer A := fun s =>
  match timer label with
  | Some interrupted => (Err (HsTimeout label), interrupted s)
  | None => operation s
  end.

Definition client_hello (node : string) (protocol : PeerProtocol) : PeerHello :=
  MkPeerHello PEER_VERSION node [protocol] default_features default_feature_bits (Some pkg_version) (Some os) (Some arch).

Definition client_handshake (node : string) (protocol : PeerProtocol) : peer PeerWelcome :=
  _ ← with_handshake_timeout (write_handshake (client_hello node protocol)) "write peer hello";
  welcome ← with_handshake_timeout (read_handshake (T := PeerWelcome)) "read peer welcome";
  _ ← sr_guard (pw_version welcome =? PEER_VERSION) (HsVersion (pw_version welcome));
  match pw_accepted welcome with
  | Some accepted => if decide (accepted = protocol) then mret welcome else sr_fail (HsUnexpected accepted)
  | None => sr_fail (HsRejected (pw_message welcome))
  end.

(** The server's decision on a hello. *)
Definition accepted_protocol (hello : PeerHello) (supported : list PeerProtocol) : option PeerProtocol :=
  if ph_version hello =? PEER_VERSION then select_supported_protocol (ph_protocols hello) supported else None.

Definition welcome_message (hello : PeerHello) (accepted : option PeerProtocol) : string :=
  if negb (ph_version hello =? PEER_VERSION) then
    "unsupported peer version " +:+ display_uint (ph_version hello) +:+ "; expected " +:+ display_uint PEER_VERSION
  else match accepted with None => "no mutually supported peer protocol" | Some _ => "ok" end.

Definition server_welcome (node : string) (hello : PeerHello) (supported : list PeerProtocol) : PeerWelcome :=
  let accepted := accepted_protocol hello supported in
  MkPeerWelcome PEER_VERSION node accepted default_features default_feature_bits (Some pkg_version) (Some os) (Some arch)
    (welcome_message hello accepted).

Definition server_handshake (node : string) (supported : list PeerProtocol) : peer PeerHello :=
  hello ← with_handshake_timeout (read_handshake (T := PeerHello)) "read peer hello";
  let welcome := server_welcome node hello supported in
  _ ← with_handshake_timeout (write_handshake welcome) "write peer welcome";
  match pw_accepted welcome with
  | None => sr_fail (HsRejected (pw_message welcome))
  | Some _ => mret hello
  end.

(** ** Listeners *)

(** [verify_token] of [server.rs]. *)
Definition verify_transport_token (expected : option string) : peer unit :=
  match expected with
  | Some expected =>
    n ← hs_io (recv (read_exact 2));
    token ← hs_io (recv (read_exact (be_value n)));
    if decide (token = str_bytes expected) then mret tt else sr_fail HsToken
  | None => mret tt
  end.

(** The task of a connection of the plain listener and of the TLS listener (on
    the stream that TLS has accepted): with which protocol the stream is handed
    to the framed transport. *)
Definition serve_plain (expected : option string) (node : string) : peer PeerProtocol :=
  _ ← verify_transport_token expected;
  _ ← server_handshake node [PSshDirect; PTcp];
  mret PTcp.

Definition serve_tls (node : string) : peer PeerProtocol :=
  _ ← server_handshake node [PTlsTcp];
  mret PTlsTcp.

(** [accept_quic_peer_control]. *)
Definition SUPPORTED_QUIC_PROTOCOLS : list PeerProtocol := [PQuicNative; PQuic].

Definition accept_quic_peer_control (node : string) : peer (PeerProtocol * PeerHello) :=
  hello ← server_handshake node SUPPORTED_QUIC_PROTOCOLS;
  match select_supported_protocol (ph_protocols hello) SUPPORTED_QUIC_PROTOCOLS with
  | Some accepted => mret (accepted, hello)
  | None => sr_fail HsMissing
  end.

(** ** Opening a link *)

Definition send_transport_token (token : option string) : peer unit :=
  match token with
  | Some token =>
    let bytes := str_bytes token in
    _ ← sr_guard (len bytes <=? u_max 16) HsToken;
    _ ← hs_io (send (write_all (be_bytes 2 (len bytes))));
    _ ← hs_io (send (write_all bytes));
    hs_io (send flush)
  | None => mret tt
  end.

(** The part of [open_ssh_direct_transport] and [open_plain_tcp_transport], and
    of [open_quic_transport] and [open_tls_transport], after the connection. *)
Definition open_with_token (token : option string) (node : string) (p : PeerProtocol) : peer unit :=
  _ ← send_transport_token token;
  _ ← client_handshake node p;
  mret tt.

Definition open_without_token (node : string) (p : PeerProtocol) : peer unit :=
  _ ← client_handshake node p;
  mret tt.
End handshake.

(** ** The messages are read back *)

Definition bits_ok (m : list (string * Value)) : Prop :=
  value_ok (Object m) /\ Forall (fun kv => str_ok kv.1 /\ plain 125 kv.2) m.

Definition peer_hello_ok (h : PeerHello) : Prop :=
  in_u 16 (ph_version h) /\ str_ok (ph_node h) /\ Forall str_ok (ph_features h) /\ bits_ok (ph_feature_bits h)
  /\ from_option str_ok True (ph_binary_version h) /\ from_option str_ok True (ph_os h)
  /\ from_option str_ok True (ph_arch h).

Definition peer_welcome_ok (w : PeerWelcome) : Prop :=
  in_u 16 (pw_version w) /\ str_ok (pw_node w) /\ Forall str_ok (pw_features w) /\ bits_ok (pw_feature_bits w)
  /\ from_option str_ok True (pw_binary_version w) /\ from_option str_ok True (pw_os w)
  /\ from_option str_ok True (pw_arch w) /\ str_ok (pw_message w).

Lemma protocol_ok p : str_ok (peer_protocol_name p).
Proof. by destruct p. Qed.

Lemma de_protocol p : de_enum peer_protocol_variants (ser_protocol p) = Some p.
Proof. by destruct p. Qed.

Lemma de_protocols l : de_vec (de_enum peer_protocol_variants) (Array (ser_protocol <$> l)) = Some l.
Proof. apply de_vec_ser. intros p _. apply de_protocol. Qed.

Lemma plain_protocols d l : plain (S d) (Array (ser_protocol <$> l)).
Proof. cbn. apply Forall_fmap, Forall_forall. intros p _. apply plain_str, protocol_ok. Qed.

Lemma plain_accepted d o : plain d (ser_option ser_protocol o).
Proof. destruct o as [p|]; [apply plain_str, protocol_ok|by destruct d]. Qed.

#[local] Opaque plain.

Definition field_plain d (kv : string * Value) : Prop := str_ok kv.1 /\ plain d kv.2.

Lemma plain_some d k (o : option string) :
  str_ok k -> from_option str_ok True o -> Forall (field_plain d) (ser_some k Str o).
Proof. intros Hk Ho. destruct o; [|done]. apply Forall_singleton. split; [done|]. by apply plain_str. Qed.

Lemma plain_bits k m : str_ok k -> bits_ok m -> Forall (field_plain 126) (ser_map k m).
Proof.
  intros Hk [_ Hm]. destruct m as [|x m]; [apply Forall_nil_2|]. apply Forall_singleton.
  split; [exact Hk|exact (plain_object 125 (x :: m) Hm)].
Qed.

Lemma peer_hello_plain h : peer_hello_ok h -> plain 127 (peer_hello_value h).
Proof.
  intros (?&?&?&?&?&?&?). apply (plain_object 126). fold (field_plain 126).
  rewrite !Forall_app. split_and!; [|by apply plain_bits|by apply plain_some..].
  repeat (apply Forall_cons; split); try apply Forall_nil_2; split; try reflexivity; cbn [snd].
  - by eapply plain_uint.
  - by apply plain_str.
  - apply (plain_protocols 125).
  - by apply (plain_strings 125).
Qed.

Lemma peer_welcome_plain w : peer_welcome_ok w -> plain 127 (peer_welcome_value w).
Proof.
  intros (?&?&?&?&?&?&?&?). apply (plain_object 126). fold (field_plain 126).
  rewrite !Forall_app. split_and!; [|by apply plain_bits|by apply plain_some..|].
  2: { apply Forall_singleton. split; [done|]. by apply plain_str. }
  repeat (apply Forall_cons; split); try apply Forall_nil_2; split; try reflexivity; cbn [snd].
  - by eapply plain_uint.
  - by apply plain_str.
  - apply plain_accepted.
  - by apply (plain_strings 125).
Qed.

Lemma de_field_missing {A} i k (de : Value -> option A) a b f :
  occurrences k f = [] -> de_field i k de a b (Object f) = a.
Proof. intros H. cbn. by rewrite H. Qed.

Lemma occurrences_app k f g : occurrences k (f ++ g) = occurrences k f ++ occurrences k g.
Proof. unfold occurrences. by rewrite filter_app, fmap_app. Qed.

Lemma occurrences_some k k' (o : option string) :
  occurrences k (ser_some k' Str o) = if decide (k' = k) then option_list (Str <$> o) else [].
Proof.
  unfold occurrences. destruct o as [s|]; cbn [ser_some]; [|by case_decide].
  case_decide; [by rewrite filter_cons_True|by rewrite filter_cons_False].
Qed.

Lemma occurrences_map k k' m :
  occurrences k (ser_map k' m) = if decide (k' = k) then match m with [] => [] | _ => [Object m] end else [].
Proof.
  unfold occurrences. destruct m as [|x m]; cbn [ser_map]; [by case_decide|].
  case_decide; [by rewrite filter_cons_True|by rewrite filter_cons_False].
Qed.

Lemma de_required_found {A} i k (de : Value -> option A) f x :
  occurrences k f = [x] -> de_required i k de (Object f) = de x.
Proof. apply de_field_found. Qed.

(** The fields with [skip_serializing_if]. *)
Lemma de_optional_found i k f (o : option string) :
  occurrences k f = option_list (Str <$> o) -> de_optional_default i k de_string (Object f) = Some o.
Proof. intros Hf. unfold de_optional_default. cbn. rewrite Hf. by destruct o. Qed.

Lemma de_bits_found i k f m :
  bits_ok m -> occurrences k f = match m with [] => [] | _ => [Object m] end ->
  de_default i k de_map [] (Object f) = Some m.
Proof.
  intros [Hm _] Hf. unfold de_default. cbn. rewrite Hf. destruct m as [|x m]; [done|]. by apply de_map_ok.
Qed.

(** The occurrences of a constant name in the fields of a message. *)
Ltac occurs :=
  rewrite ?occurrences_app, ?occurrences_some, ?occurrences_map;
  repeat first [rewrite decide_True by done | rewrite decide_False by done];
  rewrite ?app_nil_r; reflexivity.

Lemma peer_hello_back h : peer_hello_ok h -> de_peer_hello (peer_hello_value h) = Some h.
Proof.
  intros (Hv&_&_&Hb&_). unfold de_peer_hello, peer_hello_value. cbn [de_shape mbind option_bind].
  rewrite (de_required_found _ "version" _ _ (ser_uint (ph_version h))) by occurs.
  rewrite de_uint_ser by done. cbn [mbind option_bind].
  rewrite (de_required_found _ "node" _ _ (Str (ph_node h))) by occurs. cbn [mbind option_bind de_string].
  rewrite (de_required_found _ "protocols" _ _ (Array (ser_protocol <$> ph_protocols h))) by occurs.
  rewrite de_protocols. cbn [mbind option_bind].
  rewrite (de_required_found _ "features" _ _ (Array (Str <$> ph_features h))) by occurs.
  rewrite de_strings. cbn [mbind option_bind].
  rewrite (de_bits_found _ "feature_bits" _ (ph_feature_bits h)) by (done || occurs). cbn [mbind option_bind].
  rewrite (de_optional_found _ "binary_version" _ (ph_binary_version h)) by occurs. cbn [mbind option_bind].
  rewrite (de_optional_found _ "os" _ (ph_os h)) by occurs. cbn [mbind option_bind].
  rewrite (de_optional_found _ "arch" _ (ph_arch h)) by occurs. by destruct h.
Qed.

Lemma peer_welcome_back w : peer_welcome_ok w -> de_peer_welcome (peer_welcome_value w) = Some w.
Proof.
  intros (Hv&_&_&Hb&_). unfold de_peer_welcome, peer_welcome_value. cbn [de_shape mbind option_bind].
  rewrite (de_required_found _ "version" _ _ (ser_uint (pw_version w))) by occurs.
  rewrite de_uint_ser by done. cbn [mbind option_bind].
  rewrite (de_required_found _ "node" _ _ (Str (pw_node w))) by occurs. cbn [mbind option_bind de_string].
  unfold de_optional at 1. rewrite (de_field_found _ "accepted" _ _ _ _ (ser_option ser_protocol (pw_accepted w))) by occurs.
  assert (Ha : de_option (de_enum peer_protocol_variants) (ser_option ser_protocol (pw_accepted w)) = Some (pw_accepted w)).
  { by destruct (pw_accepted w) as [[]|]. }
  rewrite Ha. cbn [mbind option_bind].
  rewrite (de_required_found _ "features" _ _ (Array (Str <$> pw_features w))) by occurs.
  rewrite de_strings. cbn [mbind option_bind].
  rewrite (de_bits_found _ "feature_bits" _ (pw_feature_bits w)) by (done || occurs). cbn [mbind option_bind].
  rewrite (de_optional_found _ "binary_version" _ (pw_binary_version w)) by occurs. cbn [mbind option_bind].
  rewrite (de_optional_found _ "os" _ (pw_os w)) by occurs. cbn [mbind option_bind].
  rewrite (de_optional_found _ "arch" _ (pw_arch w)) by occurs. cbn [mbind option_bind].
  rewrite (de_required_found _ "message" _ _ (Str (pw_message w))) by occurs. by destruct w.
Qed.

#[global] Instance peer_hello_laws : WireLaws PeerHello :=
  {| wire_ok := peer_hello_ok; wire_plain := peer_hello_plain; wire_back := peer_hello_back |}.
#[global] Instance peer_welcome_laws : WireLaws PeerWelcome :=
  {| wire_ok := peer_welcome_ok; wire_plain := peer_welcome_plain; wire_back := peer_welcome_back |}.

(** ** Handshakes over a stream *)

Section handshake_laws.
Context {R W : Type} `{AsyncReadLaws R} `{AsyncWriteLaws W} `{SerdeJsonLaws}.
Abbreviation exchange := (exchange (R := R) (W := W)).

Definition handshake_bytes {T} `{Wire T} (v : T) : list byte :=
  HANDSHAKE_MAGIC ++ be_bytes 4 (len (json_text (to_value v))) ++ json_text (to_value v).

Definition handshake_fits {T} `{WireLaws T} (v : T) : Prop :=
  wire_ok v /\ len (json_text (to_value v)) <= MAX_HANDSHAKE.

Lemma write_handshake_exchange {T} `{WireLaws T} (v : T) :
  handshake_fits v -> exchange (write_handshake v) [] (Ok tt) (handshake_bytes v).
Proof.
  intros [_ Hl]. unfold write_handshake, handshake_bytes. apply exchange_guard; [by apply Z.leb_le|].
  do 2 apply exchange_write_then. rewrite <-(app_nil_r (json_text (to_value v))) at 2.
  apply exchange_write_then, exchange_flush.
Qed.

Lemma read_handshake_exchange {T} `{WireLaws T} (v : T) :
  handshake_fits v -> exchange (read_handshake (T := T)) (handshake_bytes v) (Ok v) [].
Proof.
  intros [Hok Hl]. unfold read_handshake, handshake_bytes.
  apply exchange_read_then; [done|]. apply exchange_guard; [by apply bool_decide_eq_true|].
  apply exchange_read_then; [by rewrite length_be_bytes|].
  rewrite be_value_u by (unfold in_u, MAX_HANDSHAKE in *; lia). apply exchange_guard; [by apply Z.leb_le|].
  apply exchange_read_last; [done|]. rewrite json_round_trip by (by apply wire_plain). cbn [mbind option_bind].
  rewrite wire_back by done. intros s y Hr Hlive. exists s. by rewrite app_nil_r.
Qed.

Lemma read_handshake_inv {T} `{WireLaws T} (v : T) (s s' : TcpStream R W) :
  read_handshake s = (Ok v, s') ->
  exists payload,
    rest (inbound s) = (HANDSHAKE_MAGIC ++ be_bytes 4 (len payload) ++ payload) ++ rest (inbound s')
    /\ len payload <= MAX_HANDSHAKE /\ (json_parse payload ≫= from_value) = Some v /\ outbound s' = outbound s.
Proof.
  unfold read_handshake. intros Hrun.
  apply sr_bind_inv in Hrun as (m & s1 & Hm & Hrun). apply recv_exact_inv in Hm as (_ & E1 & O1 & _); [|lia].
  apply sr_guard_inv in Hrun as [->%bool_decide_eq_true Hrun].
  apply sr_bind_inv in Hrun as (b4 & s2 & Hm & Hrun). apply recv_exact_inv in Hm as (L2 & E2 & O2 & _); [|lia].
  apply sr_guard_inv in Hrun as [Hn%Z.leb_le Hrun]. pose proof (be_value_range b4) as Hr. unfold in_u in Hr.
  apply sr_bind_inv in Hrun as (payload & s3 & Hm & Hrun). apply recv_exact_inv in Hm as (L3 & E3 & O3 & _); [|lia].
  unfold sr_lift in Hrun. injection Hrun as Hv%ok_or_Ok <-.
  exists payload. split_and!; [|lia|done|congruence].
  rewrite E1, E2, E3, L3, (be_bytes_value 4 b4) by lia. by rewrite <-!app_assoc.
Qed.

Context (pkg_version os arch : string).
Context (Hver : str_ok pkg_version) (Hos : str_ok os) (Harch : str_ok arch).
(** No timer expires. *)
Definition in_time : string -> option (TcpStream R W -> TcpStream R W) := fun _ => None.

Lemma timeout_exchange {A} (m : sr (TcpStream R W) HandshakeError A) label x v o :
  exchange m x v o -> exchange (with_handshake_timeout in_time m label) x v o.
Proof. done. Qed.

(** What a client makes of a welcome. *)
Definition client_result (p : PeerProtocol) (w : PeerWelcome) : result HandshakeError PeerWelcome :=
  if pw_version w =? PEER_VERSION then
    match pw_accepted w with
    | Some a => if decide (a = p) then Ok w else Err (HsUnexpected a)
    | None => Err (HsRejected (pw_message w))
    end
  else Err (HsVersion (pw_version w)).

Lemma client_handshake_exchange node p w :
  handshake_fits (client_hello pkg_version os arch node p) -> handshake_fits w ->
  exchange (client_handshake pkg_version os arch in_time node p) (handshake_bytes w) (client_result p w)
    (handshake_bytes (client_hello pkg_version os arch node p)).
Proof.
  intros Hh Hw. unfold client_handshake, client_result.
  rewrite <-(app_nil_r (handshake_bytes (client_hello _ _ _ _ _))). eapply exchange_bind_w.
  { by apply timeout_exchange, write_handshake_exchange. }
  rewrite <-(app_nil_r (handshake_bytes w)). eapply exchange_bind_r.
  { by apply timeout_exchange, read_handshake_exchange. }
  destruct (pw_version w =? PEER_VERSION); [|apply exchange_fail]. cbn.
  destruct (pw_accepted w) as [a|]; [|apply exchange_fail]. case_decide; [apply exchange_ret|apply exchange_fail].
Qed.

Lemma server_handshake_exchange node supported h :
  handshake_fits h -> handshake_fits (server_welcome pkg_version os arch node h supported) ->
  exchange (server_handshake pkg_version os arch in_time node supported) (handshake_bytes h)
    (match accepted_protocol h supported with
     | Some _ => Ok h
     | None => Err (HsRejected (welcome_message h None))
     end)
    (handshake_bytes (server_welcome pkg_version os arch node h supported)).
Proof.
  intros Hh Hw. unfold server_handshake.
  rewrite <-(app_nil_r (handshake_bytes h)), <-(app_nil_r (handshake_bytes (server_welcome _ _ _ _ _ _))).
  eapply exchange_bind_r; [by apply timeout_exchange, read_handshake_exchange|].
  eapply exchange_bind_w; [by apply timeout_exchange, write_handshake_exchange|].
  unfold server_welcome. cbn [pw_accepted pw_message].
  destruct (accepted_protocol h supported); [apply exchange_ret|apply exchange_fail].
Qed.

(** The decision for the hello of [client_handshake]. *)
Lemma accepted_client_hello node p supported :
  accepted_protocol (client_hello pkg_version os arch node p) supported = if decide (p ∈ supported) then Some p else None.
Proof. unfold accepted_protocol, select_supported_protocol. cbn. by repeat case_match; case_bool_decide; case_decide. Qed.
End handshake_laws.

(** ** The token *)

Section token_laws.
Context {R W : Type} `{AsyncReadLaws R} `{AsyncWriteLaws W} `{SerdeJsonLaws}.
Abbreviation exchange := (exchange (R := R) (W := W)).

Definition token_bytes (token : string) : list byte := be_bytes 2 (str_len token) ++ str_bytes token.

Lemma send_token_exchange token :
  str_len token <= u_max 16 -> exchange (send_transport_token (Some token)) [] (Ok tt) (token_bytes token).
Proof.
  intros Hl. cbn. apply exchange_guard; [by apply Z.leb_le|]. unfold token_bytes. apply exchange_write_then.
  rewrite <-(app_nil_r (str_bytes token)) at 2. apply exchange_write_then, exchange_flush.
Qed.

Lemma verify_token_exchange token :
  str_len token <= u_max 16 -> exchange (verify_transport_token (Some token)) (token_bytes token) (Ok tt) [].
Proof.
  intros Hl. cbn. unfold token_bytes. apply exchange_read_then; [done|].
  rewrite be_value_u by (unfold in_u, u_max, str_len in *; lia).
  apply exchange_read_last; [done|]. rewrite decide_True by done. apply exchange_ret.
Qed.

(** Without the token in front nothing is sent. *)
Lemma verify_token_refuses token (s : TcpStream R W) :
  ~ token_bytes token `prefix_of` rest (inbound s) ->
  (exists e, (verify_transport_token (Some token) s).1 = Err e)
  /\ outbound (verify_transport_token (Some token) s).2 = outbound s.
Proof.
  intros Hno. cbn [verify_transport_token].
  assert (Hkeep : forall n (t : TcpStream R W), outbound (hs_io (recv (read_exact n)) t).2 = outbound t).
  { intros n t. unfold hs_io, sr_map_err, recv. by destruct (read_exact n (inbound t)) as [[?|?] ?]. }
  pose proof (Hkeep 2 s) as K1. destruct (hs_io (recv (read_exact 2)) s) as [[n|e] s1] eqn:E1; cbn in K1.
  2: { rewrite !(sr_bind_Err _ _ _ _ _ E1). by split; [eexists|]. }
  rewrite !(sr_bind_Ok _ _ _ _ _ E1). apply recv_exact_inv in E1 as (L1 & R1 & O1 & _); [|lia].
  pose proof (Hkeep (be_value n) s1) as K2.
  destruct (hs_io (recv (read_exact (be_value n))) s1) as [[t|e] s2] eqn:E2; cbn in K2.
  2: { rewrite !(sr_bind_Err _ _ _ _ _ E2). cbn. rewrite K2. by split; [eexists|]. }
  rewrite !(sr_bind_Ok _ _ _ _ _ E2). apply recv_exact_inv in E2 as (L2 & R2 & O2 & _); [|apply be_value_range].
  case_decide as Ht; [|cbn; rewrite K2; by split; [eexists|]].
  destruct Hno. exists (rest (inbound s2)). unfold token_bytes, str_len. rewrite R1, R2, <-Ht, L2.
  rewrite (be_bytes_value 2 n) by lia. by rewrite <-app_assoc.
Qed.
End token_laws.

(** The program's own messages are well formed. *)
Lemma default_bits_ok : bits_ok default_feature_bits.
Proof.
  split; [by repeat constructor|].
  change default_feature_bits with ((fun f => (f, Bool true)) <$> (default_feature_bits.*1)).
  apply Forall_fmap, Forall_forall. intros f Hf. split; [|apply plain_bool]. cbn.
  repeat (apply elem_of_cons in Hf as [->|Hf]; [reflexivity|]). by apply not_elem_of_nil in Hf.
Qed.

Lemma default_features_ok : Forall str_ok default_features.
Proof. by repeat constructor. Qed.

Lemma client_hello_ok pkg_version os arch node p :
  str_ok pkg_version -> str_ok os -> str_ok arch -> str_ok node ->
  peer_hello_ok (client_hello pkg_version os arch node p).
Proof. intros. split_and!; try done; [apply default_features_ok|apply default_bits_ok]. Qed.

(** With a protocol the server supports, both sides complete. *)
Section agreed.
Context {R W : Type} `{AsyncReadLaws R} `{AsyncWriteLaws W} `{SerdeJsonLaws}.
Context (pkg_version os arch node server : string) (p : PeerProtocol) (supported : list PeerProtocol).
Abbreviation hello := (client_hello pkg_version os arch node p).
Abbreviation welcome := (server_welcome pkg_version os arch server hello supported).

Lemma client_agrees :
  p ∈ supported -> handshake_fits hello -> handshake_fits welcome ->
  exchange (R := R) (W := W) (client_handshake pkg_version os arch in_time node p) (handshake_bytes welcome)
    (Ok welcome) (handshake_bytes hello).
Proof.
  intros Hp Hh Hw. assert (Hres : client_result p welcome = Ok welcome).
  { unfold client_result, server_welcome. cbn [pw_version pw_accepted pw_message].
    rewrite accepted_client_hello. destruct (decide (p ∈ supported)); [|done]. by rewrite decide_True. }
  rewrite <-Hres. by apply client_handshake_exchange.
Qed.

Lemma server_agrees :
  p ∈ supported -> handshake_fits hello -> handshake_fits welcome ->
  exchange (R := R) (W := W) (server_handshake pkg_version os arch in_time server supported) (handshake_bytes hello)
    (Ok hello) (handshake_bytes welcome).
Proof.
  intros Hp Hh Hw.
  pose proof (server_handshake_exchange (R := R) (W := W) pkg_version os arch server supported hello Hh Hw) as Hx.
  rewrite accepted_client_hello in Hx. by destruct (decide (p ∈ supported)).
Qed.
End agreed.

(** ** Properties *)

(** C19. Client and server of the peer handshake agree: when the server supports
    the client's protocol, both succeed, the server with exactly the client's
    hello and the client with the server's welcome; otherwise both fail, the
    client with the server's message.  Whatever the peer sends and whichever
    timers expire, a server that succeeds was offered a protocol it supports
    by a peer of its version, and a client that succeeds was accepted with the
    protocol it asked for. *)
Theorem peer_handshake_agrees {R W} `{AsyncReadLaws R} `{AsyncWriteLaws W} `{SerdeJsonLaws}
    (pkg_version os arch client server : string) (p : PeerProtocol) (supported : list PeerProtocol) :
  let hello := client_hello pkg_version os arch client p in
  let welcome := server_welcome pkg_version os arch server hello supported in
  let refusal := HsRejected "no mutually supported peer protocol" in
  handshake_fits hello -> handshake_fits welcome ->
  (exists c s,
     exchange (R := R) (W := W) (client_handshake pkg_version os arch in_time client p) s
       (if decide (p ∈ supported) then Ok welcome else Err refusal) c
     /\ exchange (R := R) (W := W) (server_handshake pkg_version os arch in_time server supported) c
          (if decide (p ∈ supported) then Ok hello else Err refusal) s)
  /\ (forall timer (s s' : TcpStream R W) h,
        server_handshake pkg_version os arch timer server supported s = (Ok h, s') ->
        ph_version h = PEER_VERSION /\ exists q, q ∈ ph_protocols h /\ q ∈ supported)
  /\ (forall timer (s s' : TcpStream R W) w,
        client_handshake pkg_version os arch timer client p s = (Ok w, s') ->
        pw_version w = PEER_VERSION /\ pw_accepted w = Some p).
Proof.
  intros hello welcome refusal Hh Hw. split_and!.
  - exists (handshake_bytes hello), (handshake_bytes welcome). split.
    + replace (if decide (p ∈ supported) then Ok welcome else Err refusal) with (client_result p welcome);
        [by apply client_handshake_exchange|].
      unfold client_result, welcome, server_welcome, hello. cbn [pw_version pw_accepted pw_message].
      rewrite accepted_client_hello. case_decide; [|done]. by rewrite decide_True.
    + pose proof (server_handshake_exchange (R := R) (W := W) pkg_version os arch server supported hello Hh Hw) as Hx.
      unfold hello at 2 in Hx. rewrite accepted_client_hello in Hx. by case_decide.
  - intros timer s s' h Hrun. unfold server_handshake in Hrun.
    apply sr_bind_inv in Hrun as (h' & s1 & _ & Hrun). apply sr_bind_inv in Hrun as ([] & s2 & _ & Hrun).
    cbn in Hrun. destruct (accepted_protocol h' supported) as [q|] eqn:E; [|done]. inv_sr.
    unfold accepted_protocol in E. destruct (Z.eqb_spec (ph_version h) PEER_VERSION); [|done]. split; [done|].
    unfold select_supported_protocol in E. apply List.find_some in E as [Hin Hs%bool_decide_eq_true].
    exists q. by rewrite list_elem_of_In.
  - intros timer s s' w Hrun. unfold client_handshake in Hrun.
    apply sr_bind_inv in Hrun as ([] & s1 & _ & Hrun). apply sr_bind_inv in Hrun as (w' & s2 & _ & Hrun).
    apply sr_guard_inv in Hrun as [Hv%Z.eqb_eq Hrun]. destruct (pw_accepted w') as [a|] eqn:E; [|done].
    case_decide; subst; [|done]. by inv_sr.
Qed.

Definition sample_hello : PeerHello := client_hello "0.1.8" "linux" "x86_64" "laptop" PSshDirect.
Definition sample_welcome : PeerWelcome :=
  server_welcome "0.1.8" "linux" "x86_64" "server-a" sample_hello [PSshDirect; PTcp].

Lemma sample_hello_fits : @handshake_fits CountedText.counted_json _ _ _ sample_hello.
Proof. split; [by apply client_hello_ok|by vm_compute]. Qed.

Lemma sample_welcome_fits : @handshake_fits CountedText.counted_json _ _ _ sample_welcome.
Proof.
  split; [|by vm_compute]. split_and!; try done; [apply default_features_ok|apply default_bits_ok].
Qed.

Lemma peer_handshake_agrees_witness :
  let _ := CountedText.counted_json in
  exists c s,
    exchange (R := Segments) (W := ScriptedWriter)
      (client_handshake "0.1.8" "linux" "x86_64" in_time "laptop" PSshDirect) s (Ok sample_welcome) c
    /\ exchange (R := Segments) (W := ScriptedWriter)
         (server_handshake "0.1.8" "linux" "x86_64" in_time "server-a" [PSshDirect; PTcp]) c (Ok sample_hello) s.
Proof.
  intros j. pose proof (CountedText.counted_json_laws : @SerdeJsonLaws j) as Hj.
  exact (proj1 (peer_handshake_agrees "0.1.8" "linux" "x86_64" "laptop" "server-a" PSshDirect [PSshDirect; PTcp]
    sample_hello_fits sample_welcome_fits)).
Defined.

(** C17. A link over SSH or plain TCP opens with the token and only with it: a
    client with the node's token and the plain listener complete the token and
    the handshake, and the link's own bytes come next in both directions; on a
    connection that does not begin with the node's token the listener fails
    without having sent a byte. *)
Theorem link_opens_with_token {R W} `{AsyncReadLaws R} `{AsyncWriteLaws W} `{SerdeJsonLaws}
    (pkg_version os arch client server token : string) (p : PeerProtocol) :
  let hello := client_hello pkg_version os arch client p in
  let welcome := server_welcome pkg_version os arch server hello [PSshDirect; PTcp] in
  str_len token <= u_max 16 -> p = PSshDirect \/ p = PTcp -> handshake_fits hello -> handshake_fits welcome ->
  (exists c s,
     exchange (R := R) (W := W) (open_with_token pkg_version os arch in_time (Some token) client p) s (Ok tt) c
     /\ exchange (R := R) (W := W) (serve_plain pkg_version os arch in_time (Some token) server) c (Ok PTcp) s)
  /\ (forall timer (s : TcpStream R W), ~ token_bytes token `prefix_of` rest (inbound s) ->
        exists e s', serve_plain pkg_version os arch timer (Some token) server s = (Err e, s')
                     /\ outbound s' = outbound s).
Proof.
  intros hello welcome Ht Hp Hh Hw. assert (Hin : p ∈ [PSshDirect; PTcp]) by (destruct Hp as [-> | ->]; set_solver).
  split.
  - exists (token_bytes token ++ handshake_bytes hello), (handshake_bytes welcome). split.
    + unfold open_with_token. eapply exchange_bind_w; [by apply send_token_exchange|].
      eapply exchange_finish; [by apply client_agrees|apply exchange_ret].
    + unfold serve_plain. eapply exchange_bind_r; [by apply verify_token_exchange|].
      eapply exchange_finish; [by apply server_agrees|apply exchange_ret].
  - intros timer s Hno. destruct (verify_token_refuses token s Hno) as [[e He] Ho].
    destruct (verify_transport_token (Some token) s) as [v s'] eqn:E. cbn in He, Ho. subst v.
    exists e, s'. split; [|done]. unfold serve_plain. by erewrite sr_bind_Err.
Qed.

Lemma link_opens_with_token_witness :
  let _ := CountedText.counted_json in
  exists c s,
    exchange (R := Segments) (W := ScriptedWriter)
      (open_with_token "0.1.8" "linux" "x86_64" in_time (Some "s3cret") "laptop" PSshDirect) s (Ok tt) c
    /\ exchange (R := Segments) (W := ScriptedWriter)
         (serve_plain "0.1.8" "linux" "x86_64" in_time (Some "s3cret") "server-a") c (Ok PTcp) s.
Proof.
  intros j. pose proof (CountedText.counted_json_laws : @SerdeJsonLaws j) as Hj.
  refine (proj1 (link_opens_with_token "0.1.8" "linux" "x86_64" "laptop" "server-a" "s3cret" PSshDirect
    _ (or_introl eq_refl) sample_hello_fits sample_welcome_fits)).
  by vm_compute.
Defined.
