(* ===== verification/RemoteHelper.v ===== *)
(** * Opening the link to a remote helper

    [ssh-proxy-transport/src/remote_helper.rs] and [remote_helper/client.rs]
    (which transports are tried, in which order, with which arguments), and
    the options and candidates of [peer_transport.rs].  Sockets, TLS, QUIC and
    SSH channels are the environment; the handshakes are those of
    [PeerHandshake]. *)
From stdpp Require Import base list strings sorting.
From S2P Require Import Prelude RustStr IpAddr Stream RouteDecision Json Serde ControlFrame PeerHandshake.

(** ** QUIC options *)

Definition QUIC_MAX_BIDI_STREAMS : Z := 256.
Definition QUIC_STREAM_RECEIVE_WINDOW : Z := 2 * 1024 * 1024.
Definition QUIC_RECEIVE_WINDOW : Z := 16 * 1024 * 1024.
Definition QUIC_KEEP_ALIVE_INTERVAL_SECS : Z := 10.
Definition QUIC_IDLE_TIMEOUT_SECS : Z := 60.
Definition MAX_QUIC_MAX_BIDI_STREAMS : Z := 4096.
Definition MAX_QUIC_STREAM_RECEIVE_WINDOW : Z := 64 * 1024 * 1024.
Definition MAX_QUIC_RECEIVE_WINDOW : Z := 256 * 1024 * 1024.
Definition MAX_QUIC_KEEP_ALIVE_INTERVAL_SECS : Z := 300.
Definition MAX_QUIC_IDLE_TIMEOUT_SECS : Z := 3600.

Record QuicTransportOptions := MkQuicOptions {
  max_bidi_streams : Z;
  stream_receive_window : Z;
  receive_window : Z;
  keep_alive_interval_secs : Z;
  idle_timeout_secs : Z;
}.

Definition default_quic_options : QuicTransportOptions :=
  MkQuicOptions QUIC_MAX_BIDI_STREAMS QUIC_STREAM_RECEIVE_WINDOW QUIC_RECEIVE_WINDOW QUIC_KEEP_ALIVE_INTERVAL_SECS
    QUIC_IDLE_TIMEOUT_SECS.

Definition must_be_positive (name : string) : string := name +:+ " must be greater than zero".

Definition validate (o : QuicTransportOptions) : result string QuicTransportOptions :=
  _ ← guard_or (negb (max_bidi_streams o =? 0)) (must_be_positive "quic_max_bidi_streams");
  _ ← guard_or (negb (stream_receive_window o =? 0)) (must_be_positive "quic_stream_receive_window");
  _ ← guard_or (negb (receive_window o =? 0)) (must_be_positive "quic_receive_window");
  _ ← guard_or (negb (keep_alive_interval_secs o =? 0)) (must_be_positive "quic_keep_alive_interval_secs");
  _ ← guard_or (negb (idle_timeout_secs o =? 0)) (must_be_positive "quic_idle_timeout_secs");
  Ok (MkQuicOptions (Z.min (max_bidi_streams o) MAX_QUIC_MAX_BIDI_STREAMS)
        (Z.min (stream_receive_window o) MAX_QUIC_STREAM_RECEIVE_WINDOW)
        (Z.min (receive_window o) MAX_QUIC_RECEIVE_WINDOW)
        (Z.min (keep_alive_interval_secs o) MAX_QUIC_KEEP_ALIVE_INTERVAL_SECS)
        (Z.min (idle_timeout_secs o) MAX_QUIC_IDLE_TIMEOUT_SECS)).

(** ** Candidates *)

Record NetworkHints := MkHints {
  peer_addr : option SocketAddr;
  ssh_available : bool;
  hint_allow_plain_tcp : bool;
  prefer_low_latency : bool;
}.

Record PeerEndpoint := MkEndpoint { protocol : PeerProtocol; addr : option SocketAddr }.

Definition auto_candidates (hints : NetworkHints) : list PeerEndpoint :=
  match peer_addr hints with
  | Some a =>
    (if prefer_low_latency hints then [MkEndpoint PQuic (Some a)] else [])
    ++ [MkEndpoint PTlsTcp (Some a)]
    ++ (if hint_allow_plain_tcp hints then [MkEndpoint PTcp (Some a)] else [])
  | None => []
  end
  ++ (if ssh_available hints then [MkEndpoint PSshDirect (peer_addr hints)] else []).

Definition implemented (p : PeerProtocol) : bool :=
  match p with PQuic | PTlsTcp | PTcp | PSshDirect => true | _ => false end.

Definition implemented_auto_candidates (hints : NetworkHints) : list PeerEndpoint :=
  filter (fun c => implemented (protocol c)) (auto_candidates hints).

(** [RemotePlatform] of [ssh-proxy-core/src/model.rs]. *)
Inductive RemotePlatform := PlatformAuto | PlatformUnix | PlatformWindows.

Record OpenIntent := MkIntent {
  transport : TransportMode;
  remote_platform : RemotePlatform;
  remote_tcp : SocketAddr;
  remote_quic : option SocketAddr;
  remote_tls : option SocketAddr;
  remote_name : string;
  remote_ca : option string;
  remote_client_cert : option string;
  remote_client_key : option string;
  remote_token : option string;
  allow_plain_tcp : bool;
  connect_timeout_secs : Z;
  quic : QuicTransportOptions;
}.

Definition network_hints (i : OpenIntent) : NetworkHints :=
  MkHints (option_or (option_or (remote_quic i) (remote_tls i)) (Some (remote_tcp i))) true (allow_plain_tcp i) true.

Definition candidate_protocols (i : OpenIntent) : list PeerProtocol :=
  match transport i with
  | Auto => protocol <$> implemented_auto_candidates (network_hints i)
  | SshNative => [PSshNative]
  | QuicNative => [PQuicNative]
  | Quic => [PQuic]
  | TlsTcp => [PTlsTcp]
  | PlainTcp => [PTcp]
  | Exec => [PSshExec]
  | Tcp => [PSshDirect]
  end.

(** ** Opening *)

#[warnings="-register-all"] Inductive OpenError :=
| NotAHelperTransport (mode : TransportMode)
| Missing (argument : string)
| QuicMtls
| CertAndKeyTogether
| InvalidOptions (e : string)
| Outside (e : string)
| Shake (e : HandshakeError)
| AllFailed (failures : list (string * OpenError)).

Section opening.
Context {R W : Type} `{AsyncRead R} `{AsyncWrite W} `{SerdeJson}.
Context (pkg_version os arch : string) (timer : string -> option (TcpStream R W -> TcpStream R W)).

(** What the environment answers: files of certificates and keys, connections
    (with their timeout of [max 1 connect_timeout_secs] seconds), and channels
    and helpers of the SSH connection. *)
Record OpenEnv := {
  load_cert_chain : string -> result string unit;
  load_private_key : string -> result string unit;
  connect_tcp : SocketAddr -> Z -> result string (TcpStream R W);
  connect_tls : SocketAddr -> string -> bool -> Z -> result string (TcpStream R W);
  connect_quic : SocketAddr -> string -> QuicTransportOptions -> Z -> result string (TcpStream R W);
  direct_tcpip : SocketAddr -> Z -> result string (TcpStream R W);
  exec_helper : result string (TcpStream R W);
}.

Context (env : OpenEnv) (i : OpenIntent) (node : string).
Abbreviation opened := (result OpenError (PeerProtocol * TcpStream R W)).

Definition outside {A} (r : result string A) : result OpenError A := map_err Outside r.

(** A handshake on a connected stream. *)
Definition handshake_on (m : sr (TcpStream R W) HandshakeError unit) (p : PeerProtocol) (s : TcpStream R W) : opened :=
  match m s with
  | (Ok _, s) => Ok (p, s)
  | (Err e, _) => Err (Shake e)
  end.

Definition timeout_secs : Z := Z.max (connect_timeout_secs i) 1.

Definition open_ssh_direct_transport : opened :=
  stream ← outside (direct_tcpip env (remote_tcp i) timeout_secs);
  handshake_on (open_with_token pkg_version os arch timer (remote_token i) node PSshDirect) PSshDirect stream.

Definition open_exec_helper : opened :=
  stream ← outside (exec_helper env);
  Ok (PSshExec, stream).

Definition open_plain_tcp_transport : opened :=
  stream ← outside (connect_tcp env (remote_tcp i) timeout_secs);
  handshake_on (open_with_token pkg_version os arch timer (remote_token i) node PTcp) PTcp stream.

Definition is_some {A} (o : option A) : bool := match o with Some _ => true | None => false end.

Definition open_quic_transport : opened :=
  addr ← ok_or (Missing "--remote-quic") (remote_quic i);
  ca ← ok_or (Missing "--remote-ca") (remote_ca i);
  _ ← guard_or (negb (is_some (remote_client_cert i) || is_some (remote_client_key i))) QuicMtls;
  _ ← outside (load_cert_chain env ca);
  options ← map_err InvalidOptions (validate (quic i));
  stream ← outside (connect_quic env addr (remote_name i) options timeout_secs);
  handshake_on (open_without_token pkg_version os arch timer node PQuic) PQuic stream.

Definition open_tls_transport : opened :=
  addr ← ok_or (Missing "--remote-tls") (remote_tls i);
  ca ← ok_or (Missing "--remote-ca") (remote_ca i);
  _ ← outside (load_cert_chain env ca);
  client_auth ← match remote_client_cert i, remote_client_key i with
                | Some cert, Some key =>
                  _ ← outside (load_cert_chain env cert); _ ← outside (load_private_key env key); Ok true
                | None, None => Ok false
                | _, _ => Err CertAndKeyTogether
                end;
  stream ← outside (connect_tls env addr (remote_name i) client_auth timeout_secs);
  handshake_on (open_without_token pkg_version os arch timer node PTlsTcp) PTlsTcp stream.

(** One candidate of the loop; [None] is [continue]. *)
Definition try_candidate (p : PeerProtocol) : option opened :=
  match p with
  | PSshNative | PQuicNative => None
  | PQuic => if is_some (remote_quic i) then Some open_quic_transport else None
  | PTlsTcp => if is_some (remote_tls i) then Some open_tls_transport else None
  | PTcp => if allow_plain_tcp i then Some open_plain_tcp_transport else None
  | PSshDirect => Some open_ssh_direct_transport
  | PSshExec => Some open_exec_helper
  end.

Fixpoint auto_loop (candidates : list PeerProtocol) (failures : list (string * OpenError)) : opened :=
  match candidates with
  | [] => Err (AllFailed failures)
  | p :: candidates =>
    match try_candidate p with
    | None => auto_loop candidates failures
    | Some (Ok o) => Ok o
    | Some (Err e) => auto_loop candidates (failures ++ [(peer_protocol_name p, e)])
    end
  end.

Definition open_auto_transport : opened := auto_loop (candidate_protocols i) [].

Definition open_remote_helper : opened :=
  match transport i with
  | SshNative => Err (NotAHelperTransport SshNative)
  | QuicNative => Err (NotAHelperTransport QuicNative)
  | Quic => open_quic_transport
  | TlsTcp => open_tls_transport
  | PlainTcp => open_plain_tcp_transport
  | Tcp => open_ssh_direct_transport
  | Exec => open_exec_helper
  | Auto => open_auto_transport
  end.
End opening.

(** ** What automatic transport does *)

(** The options that reach QUIC: at least 1, at most the limit, and validating
    them again changes nothing. *)
Lemma validate_bounds o o' :
  0 <= max_bidi_streams o -> 0 <= stream_receive_window o -> 0 <= receive_window o ->
  0 <= keep_alive_interval_secs o -> 0 <= idle_timeout_secs o ->
  validate o = Ok o' ->
  1 <= max_bidi_streams o' <= MAX_QUIC_MAX_BIDI_STREAMS
  /\ 1 <= stream_receive_window o' <= MAX_QUIC_STREAM_RECEIVE_WINDOW
  /\ 1 <= receive_window o' <= MAX_QUIC_RECEIVE_WINDOW
  /\ 1 <= keep_alive_interval_secs o' <= MAX_QUIC_KEEP_ALIVE_INTERVAL_SECS
  /\ 1 <= idle_timeout_secs o' <= MAX_QUIC_IDLE_TIMEOUT_SECS /\ validate o' = Ok o'.
Proof.
  intros ?????. unfold validate. destruct o as [a b c d e]; cbn in *.
  destruct (Z.eqb_spec a 0), (Z.eqb_spec b 0), (Z.eqb_spec c 0), (Z.eqb_spec d 0), (Z.eqb_spec e 0); cbn; try done.
  intros [= <-]. cbn. unfold MAX_QUIC_MAX_BIDI_STREAMS, MAX_QUIC_STREAM_RECEIVE_WINDOW, MAX_QUIC_RECEIVE_WINDOW,
    MAX_QUIC_KEEP_ALIVE_INTERVAL_SECS, MAX_QUIC_IDLE_TIMEOUT_SECS.
  split_and!; try lia. rewrite !(proj2 (Z.eqb_neq _ _)) by lia. cbn. do 2 f_equal; lia.
Qed.

Section auto.
Context {R W : Type} `{AsyncRead R} `{AsyncWrite W} `{SerdeJson}.
Context (pkg_version os arch : string) (timer : string -> option (TcpStream R W -> TcpStream R W)).
Context (env : OpenEnv (R := R) (W := W)) (i : OpenIntent) (node : string).

(** The transports an automatic opening tries. *)
Definition tried : list PeerProtocol :=
  (if is_some (remote_quic i) then [PQuic] else []) ++ (if is_some (remote_tls i) then [PTlsTcp] else [])
  ++ (if allow_plain_tcp i then [PTcp] else []) ++ [PSshDirect].

(** The opening of one transport. *)
Definition open_one (p : PeerProtocol) : result OpenError (PeerProtocol * TcpStream R W) :=
  match p with
  | PQuic => open_quic_transport pkg_version os arch timer env i node
  | PTlsTcp => open_tls_transport pkg_version os arch timer env i node
  | PTcp => open_plain_tcp_transport pkg_version os arch timer env i node
  | PSshExec => open_exec_helper env
  | _ => open_ssh_direct_transport pkg_version os arch timer env i node
  end.

Fixpoint first_success (ps : list PeerProtocol) (failures : list (string * OpenError)) :
    result OpenError (PeerProtocol * TcpStream R W) :=
  match ps with
  | [] => Err (AllFailed failures)
  | p :: ps =>
    match open_one p with
    | Ok o => Ok o
    | Err e => first_success ps (failures ++ [(peer_protocol_name p, e)])
    end
  end.

Lemma open_auto_first_success :
  transport i = Auto -> open_auto_transport pkg_version os arch timer env i node = first_success tried [].
Proof.
  intros Hauto. unfold open_auto_transport, candidate_protocols. rewrite Hauto.
  assert (Hc : protocol <$> implemented_auto_candidates (network_hints i)
               = [PQuic; PTlsTcp] ++ (if allow_plain_tcp i then [PTcp] else []) ++ [PSshDirect]).
  { unfold implemented_auto_candidates, auto_candidates, network_hints. cbn.
    destruct (remote_quic i), (remote_tls i), (allow_plain_tcp i); done. }
  rewrite Hc. unfold tried. destruct (remote_quic i) as [q|] eqn:Eq, (remote_tls i) as [t|] eqn:Et, (allow_plain_tcp i) eqn:Ep;
    cbn [app auto_loop try_candidate is_some first_success open_one]; rewrite ?Eq, ?Et, ?Ep; cbn [is_some];
    repeat case_match; done.
Qed.

Lemma first_success_spec ps : forall failures,
  (exists pre p post o, ps = pre ++ p :: post /\ Forall (fun q => is_ok (open_one q) = false) pre
     /\ open_one p = Ok o /\ first_success ps failures = Ok o)
  \/ (exists errors, Forall2 (fun p e => open_one p = Err e) ps errors
      /\ first_success ps failures = Err (AllFailed (failures ++ zip (peer_protocol_name <$> ps) errors))).
Proof.
  induction ps as [|p ps IH]; intros failures.
  { right. exists []. cbn. by rewrite app_nil_r. }
  cbn [first_success]. destruct (open_one p) as [o|e] eqn:E.
  { left. exists [], p, ps, o. done. }
  destruct (IH (failures ++ [(peer_protocol_name p, e)])) as [(pre & q & post & o & -> & Hpre & Hq & Hr)|(errors & He & Hr)].
  - left. exists (p :: pre), q, post, o. split_and!; try done. constructor; [by rewrite E|done].
  - right. exists (e :: errors). split; [by constructor|]. rewrite Hr. cbn. by rewrite <-app_assoc.
Qed.
End auto.

Lemma open_one_protocol {R W} `{AsyncRead R} `{AsyncWrite W} `{SerdeJson} pkg_version os arch timer env i node p
    (o : PeerProtocol * TcpStream R W) :
  p ∈ tried i -> open_one pkg_version os arch timer env i node p = Ok o -> o.1 = p.
Proof.
  assert (Hh : forall m q (s : TcpStream R W), handshake_on m q s = Ok o -> o.1 = q).
  { intros m q s. unfold handshake_on. destruct (m s) as [[[]|e] s']; [by intros [= <-]|done]. }
  intros Hp. assert (Hp' : p = PQuic \/ p = PTlsTcp \/ p = PTcp \/ p = PSshDirect).
  { unfold tried in Hp. destruct (is_some (remote_quic i)), (is_some (remote_tls i)), (allow_plain_tcp i); set_solver. }
  destruct Hp' as [-> |[-> |[-> | ->]]]; cbn [open_one];
    unfold open_quic_transport, open_tls_transport, open_plain_tcp_transport, open_ssh_direct_transport; intros Ho;
    repeat match type of Ho with (_ ≫= _) = Ok _ => apply bind_Ok in Ho as (? & _ & Ho) end; by eapply Hh.
Qed.

(** ** Properties *)

(** C22. Automatic transport opens the best transport that works: it tries QUIC
    and TLS where the profile has their addresses, plain TCP only with
    consent, and an SSH channel last; it returns the first one whose
    connection and handshake succeed, and when all fail it reports the failure
    of each that was tried, in order. *)
Theorem auto_transport_order {R W} `{AsyncRead R} `{AsyncWrite W} `{SerdeJson}
    (pkg_version os arch : string) (timer : string -> option (TcpStream R W -> TcpStream R W))
    (env : OpenEnv) (i : OpenIntent) (node : string) :
  transport i = Auto ->
  let open := open_one pkg_version os arch timer env i node in
  let outcome := open_remote_helper pkg_version os arch timer env i node in
  ((exists pre p post o, tried i = pre ++ p :: post /\ Forall (fun q => is_ok (open q) = false) pre
      /\ open p = Ok o /\ o.1 = p /\ outcome = Ok o)
   \/ (exists errors, Forall2 (fun p e => open p = Err e) (tried i) errors
       /\ outcome = Err (AllFailed (zip (peer_protocol_name <$> tried i) errors))))
  /\ (PTcp ∈ tried i <-> allow_plain_tcp i = true) /\ last (tried i) = Some PSshDirect.
Proof.
  intros Hauto open outcome. unfold outcome, open_remote_helper. rewrite Hauto, open_auto_first_success by done.
  split_and!.
  - destruct (first_success_spec pkg_version os arch timer env i node (tried i) [])
      as [(pre & p & post & o & Ht & Hpre & Hp & Hr)|(errors & He & Hr)]; [left|right; by exists errors].
    exists pre, p, post, o. split_and!; try done. eapply open_one_protocol; [|exact Hp]. rewrite Ht. set_solver.
  - unfold tried. destruct (is_some (remote_quic i)), (is_some (remote_tls i)), (allow_plain_tcp i); set_solver.
  - unfold tried. by destruct (is_some (remote_quic i)), (is_some (remote_tls i)), (allow_plain_tcp i).
Qed.

Definition sample_intent : OpenIntent :=
  {| transport := Auto; remote_platform := PlatformUnix; remote_tcp := {| sa_ip := V4 [x7f; x00; x00; x01]; sa_port := 19080 |};
     remote_quic := Some {| sa_ip := V4 [x0a; x00; x00; x02]; sa_port := 19082 |}; remote_tls := None;
     remote_name := "server-a"; remote_ca := Some "ca.pem"; remote_client_cert := None; remote_client_key := None;
     remote_token := None; allow_plain_tcp := false; connect_timeout_secs := 30; quic := default_quic_options |}.

(** QUIC is blocked, and the SSH channel leads to a node that accepts. *)
Definition sample_env `{SerdeJson} : OpenEnv (R := Segments) (W := ScriptedWriter) :=
  {| load_cert_chain _ := Ok tt; load_private_key _ := Ok tt;
     connect_tcp _ _ := Err "unreachable"; connect_tls _ _ _ _ := Err "unreachable";
     connect_quic _ _ _ _ := Err "timed out";
     direct_tcpip _ _ :=
       Ok (MkTcp (MkSegments [handshake_bytes sample_welcome] AtEof) (MkWriter [] [] 0));
     exec_helper := Err "no helper" |}.

Definition sample_open (p : PeerProtocol) : result OpenError (PeerProtocol * TcpStream Segments ScriptedWriter) :=
  let _ := CountedText.counted_json in
  open_one "0.1.8" "linux" "x86_64" in_time sample_env sample_intent "laptop" p.

Lemma sample_quic_fails : is_ok (sample_open PQuic) = false.
Proof. by vm_compute. Qed.
Lemma sample_ssh_opens : is_ok (sample_open PSshDirect) = true.
Proof. by vm_compute. Qed.

Lemma auto_transport_order_witness :
  exists s, open_remote_helper (H1 := CountedText.counted_json) "0.1.8" "linux" "x86_64" in_time
              (sample_env (H := CountedText.counted_json)) sample_intent "laptop" = Ok (PSshDirect, s).
Proof.
  destruct (auto_transport_order (H1 := CountedText.counted_json) "0.1.8" "linux" "x86_64" in_time
    (sample_env (H := CountedText.counted_json)) sample_intent "laptop" eq_refl)
    as [[(pre & p & post & o & Ht & Hpre & Hp & Hop & Hr)|(errors & He & _)] _].
  - destruct pre as [|q pre]; [|destruct pre as [|q' pre]].
    + injection Ht as <- _. apply (f_equal is_ok) in Hp. pose proof sample_quic_fails as Hf.
      unfold sample_open in Hf. rewrite Hp in Hf. discriminate Hf.
    + injection Ht as <- <- _. exists o.2. rewrite Hr, <-Hop. by destruct o.
    + apply (f_equal length) in Ht. rewrite length_app in Ht. cbn in Ht. lia.
  - exfalso. inversion He as [|? e1 ? l1 _ He']; subst. inversion He' as [|? e2 ? l2 Hx _]; subst.
    apply (f_equal is_ok) in Hx. pose proof sample_ssh_opens as Hf. unfold sample_open in Hf. rewrite Hx in Hf.
    discriminate Hf.
Defined.
