(* ===== verification/QuicConnect.v ===== *)
(** * Connecting a QUIC-native route

    [quic_native/runtime/connection.rs] (a worker connects and negotiates its
    route) and [node_daemon/quic_transport.rs] (the node accepts a connection,
    chooses the data plane, and serves flows), on top of the handshake of
    [PeerHandshake] and the sessions and flow headers of [ControlFrame]. *)
From stdpp Require Import base list strings sorting.
From S2P Require Import Prelude RustStr IpAddr Stream StreamHeader RouteDecision Json Serde ControlFrame.
From S2P Require Import PeerHandshake RemoteHelper.

Inductive ConnectError :=
| ArgumentMissing (what : string)
| ConnectOutside (e : string)
| ConnectOptions (e : string)
| ConnectHandshake (e : HandshakeError)
| ConnectFrame (e : FrameError)
| UnexpectedProtocol (p : PeerProtocol)
| FlowTimeout
| FlowRoute (expected got : string)
| EgressTimeout
| EgressFailed (e : string).

Section quic.
Context {R W : Type} `{AsyncRead R} `{AsyncWrite W} `{SerdeJson}.
Context (pkg_version os arch : string) (timer : string -> option (TcpStream R W -> TcpStream R W)).
Abbreviation quic_conn := (sr (TcpStream R W) ConnectError).

(** ** The client *)

(** The route session a worker asks for. *)
Definition worker_spec (route_id node : string) : RouteSessionSpec :=
  MkSessionSpec route_id node default_features [peer_protocol_name PQuicNative].

(** [connect_worker] once the control stream is open: the route id it runs
    with. *)
Definition negotiate_worker (route_id node : string) : quic_conn string :=
  _ ← sr_map_err ConnectHandshake (client_handshake pkg_version os arch timer node PQuicNative);
  '(_, welcome) ← sr_map_err ConnectFrame (client_negotiate (worker_spec route_id node));
  mret (rw_route_id welcome).

Record WorkerEnv := {
  worker_certs : string -> result string unit;
  worker_control : SocketAddr -> string -> QuicTransportOptions -> Z -> result string (TcpStream R W);
}.

Definition connect_worker (env : WorkerEnv) (i : OpenIntent) (route_id node : string) :
    result ConnectError (string * TcpStream R W) :=
  addr ← ok_or (ArgumentMissing "--remote-quic") (remote_quic i);
  ca ← ok_or (ArgumentMissing "--remote-ca") (remote_ca i);
  _ ← map_err ConnectOutside (worker_certs env ca);
  options ← map_err ConnectOptions (validate (quic i));
  control ← map_err ConnectOutside (worker_control env addr (remote_name i) options (Z.max (connect_timeout_secs i) 1));
  match negotiate_worker route_id node control with
  | (Ok route, s) => Ok (route, s)
  | (Err e, _) => Err e
  end.

(** ** The node *)

Inductive Plane := FramedPlane | NativePlane (route_id : string).

(** [handle_connection_inner] up to the data plane. *)
Definition accept_connection (node : string) : quic_conn Plane :=
  '(accepted, _) ← sr_map_err ConnectHandshake (accept_quic_peer_control pkg_version os arch timer node);
  match accepted with
  | PQuicNative =>
    hello ← sr_map_err ConnectFrame (server_accept node_welcome);
    mret (NativePlane (rh_route_id hello))
  | PQuic => mret FramedPlane
  | other => sr_fail (UnexpectedProtocol other)
  end.

(** [handle_native_quic_stream] up to the copy: the target the flow is bridged
    to.  The flags say whether the timers of ten
    seconds end the waits. *)
Definition serve_flow {T} (route : string) (header_expired egress_expired : bool)
    (connect_tcp : string -> Z -> option string -> result string T) : quic_conn (StreamHeader * T) :=
  if header_expired then sr_fail FlowTimeout
  else
    header ← sr_map_err ConnectFrame read_flow_header;
    _ ← sr_guard (String.eqb (StreamHeader.route_id header) route) (FlowRoute route (StreamHeader.route_id header));
    if egress_expired then sr_fail EgressTimeout
    else
      remote ← sr_lift (map_err EgressFailed
                          (connect_tcp (host (target header)) (port (target header)) (egress_proxy header)));
      mret (header, remote).

(** The node resets the stream for these errors; after the others it only
    drops it. *)
Definition flow_reset (e : ConnectError) : bool :=
  match e with
  | FlowRoute _ _ | EgressFailed _ => true
  | _ => false
  end.
End quic.

(** ** Both ends together *)

Section quic_laws.
Context {R W : Type} `{AsyncReadLaws R} `{AsyncWriteLaws W} `{SerdeJsonLaws}.
Context (pkg_version os arch : string).
Abbreviation exchange := (exchange (R := R) (W := W)).

Lemma exchange_map_ok {E F A} (g : E -> F) (m : sr (TcpStream R W) E A) x a o :
  exchange m x (Ok a) o -> exchange (sr_map_err g m) x (Ok a) o.
Proof. intros Hm. exact (exchange_map_err g m x (Ok a) o Hm). Qed.

Lemma serve_flow_exchange {T} route h out (connect_tcp : string -> Z -> option string -> result string T) :
  header_ok h -> encode h = Ok out -> len out <= 8 + u_max 16 ->
  exchange (serve_flow route false false connect_tcp) out
    (if String.eqb (route_id h) route then
       map_err EgressFailed (pair h <$> connect_tcp (host (target h)) (port (target h)) (egress_proxy h))
     else Err (FlowRoute route (route_id h))) [].
Proof.
  intros Hok He Hl. unfold serve_flow. rewrite <-(app_nil_r out).
  eapply exchange_bind_r; [by apply exchange_map_ok, read_flow_exchange|].
  destruct (String.eqb (route_id h) route); [|apply exchange_fail]. cbn.
  destruct (connect_tcp _ _ _); [apply exchange_ret|apply exchange_fail].
Qed.
End quic_laws.

(** C18. A QUIC-native connection ends with both sides on the same route: the
    worker's handshake and negotiation and the node's acceptance complete
    against each other, and both continue with the worker's route id.  A flow
    whose header carries this route is connected to exactly the target and
    through the proxy its header names; one for another route is refused
    before anything is connected. *)
Theorem quic_native_connects {R W} `{AsyncReadLaws R} `{AsyncWriteLaws W} `{SerdeJsonLaws}
    (pkg_version os arch node server route : string) :
  let hello := client_hello pkg_version os arch node PQuicNative in
  let welcome := server_welcome pkg_version os arch server hello SUPPORTED_QUIC_PROTOCOLS in
  let session := into_hello (worker_spec route node) in
  handshake_fits hello -> handshake_fits welcome ->
  frame_fits (RHello session) -> frame_fits (RWelcome (node_welcome session)) ->
  (exists c s,
     exchange (R := R) (W := W) (negotiate_worker pkg_version os arch in_time route node) s (Ok route) c
     /\ exchange (R := R) (W := W) (accept_connection pkg_version os arch in_time server) c
          (Ok (NativePlane route)) s)
  /\ (forall T h out (connect_tcp : string -> Z -> option string -> result string T),
       header_ok h -> encode h = Ok out -> len out <= 8 + u_max 16 ->
       exchange (R := R) (W := W) (serve_flow route false false connect_tcp) out
         (if String.eqb (route_id h) route then
            map_err EgressFailed (pair h <$> connect_tcp (host (target h)) (port (target h)) (egress_proxy h))
          else Err (FlowRoute route (route_id h))) []).
Proof.
  intros hello welcome session Hh Hw Hs Hn. split; [|by intros; apply serve_flow_exchange].
  assert (Hin : PQuicNative ∈ SUPPORTED_QUIC_PROTOCOLS) by (unfold SUPPORTED_QUIC_PROTOCOLS; set_solver).
  exists (handshake_bytes hello ++ route_frame_bytes (RHello session)),
    (handshake_bytes welcome ++ route_frame_bytes (RWelcome (node_welcome session))). split.
  - unfold negotiate_worker. eapply exchange_bind; [by apply exchange_map_ok, client_agrees|].
    eapply exchange_finish; [apply exchange_map_ok; by apply (negotiate_exchange_client _ (node_welcome session))|].
    apply exchange_ret.
  - unfold accept_connection, accept_quic_peer_control. eapply exchange_bind.
    { apply exchange_map_ok. eapply exchange_finish; [by apply server_agrees|]. apply exchange_ret. }
    eapply exchange_finish; [by apply exchange_map_ok, accept_exchange_server|]. apply exchange_ret.
Qed.

Lemma quic_native_connects_witness :
  let _ := CountedText.counted_json in
  let route := route_id sample_header in
  (exists c s,
     exchange (R := Segments) (W := ScriptedWriter)
       (negotiate_worker "0.1.8" "linux" "x86_64" in_time route "laptop") s (Ok route) c
     /\ exchange (R := Segments) (W := ScriptedWriter)
          (accept_connection "0.1.8" "linux" "x86_64" in_time "server-a") c (Ok (NativePlane route)) s)
  /\ exchange (R := Segments) (W := ScriptedWriter)
       (serve_flow route false false (fun h p _ => Ok (h, p))) (wire_header sample_header)
       (Ok (sample_header, (host (target sample_header), port (target sample_header)))) [].
Proof.
  intros j route. pose proof (CountedText.counted_json_laws : @SerdeJsonLaws j) as Hj.
  destruct (quic_native_connects (R := Segments) (W := ScriptedWriter) "0.1.8" "linux" "x86_64" "laptop" "server-a"
    route) as [Hboth Hflow].
  - split; [by apply client_hello_ok|by vm_compute].
  - split; [|by vm_compute]. split_and!; try done; [apply default_features_ok|apply default_bits_ok].
  - split; [repeat constructor; vm_compute; congruence|vm_compute; congruence].
  - split; [repeat constructor; vm_compute; congruence|vm_compute; congruence].
  - split; [exact Hboth|].
    refine (Hflow _ sample_header (wire_header sample_header) (fun h p _ => Ok (h, p)) _ eq_refl _);
      [vm_compute; intuition congruence|vm_compute; congruence].
Defined.
