(* ===== verification/Unicode.v ===== *)
(** * Characters of a string

    Round trips between a [str] and its characters, and what [trim] and
    [to_ascii_lowercase] do to them. *)
From stdpp Require Import base list strings.
From S2P Require Import Prelude RustStr.

Import Strings.Ascii.

(** A Unicode scalar value: a code point that is no surrogate. *)
Definition scalar (c : Z) : Prop := 0 <= c < 55296 \/ 57344 <= c < 1114112.

Lemma decode_scalar l cs : Utf8.decode l = Some cs -> Forall scalar cs.
Proof.
  remember (length l) as n eqn:Hn. revert l cs Hn.
  induction n as [n IH] using lt_wf_ind. intros l cs -> H. unfold scalar in *.
  destruct l as [|b0 l1]; [by injection H as <-|]. cbn [Utf8.decode] in H.
  pose proof (byte_val_range b0) as B0.
  destruct (byte_val b0 <? 128) eqn:E0.
  { apply bind_Some in H as (cs' & H' & [= <-]). constructor; [lia|].
    eapply IH; [|done|done]. cbn. lia. }
  destruct l1 as [|b1 l2]; [done|]. destruct (Utf8.in_range 194 223 b0) eqn:E1.
  { destruct (Utf8.is_cont b1) eqn:E2; [|done]. apply bind_Some in H as (cs' & H' & [= <-]).
    Utf8.split_guard. constructor; [unfold Utf8.cont_val; lia|]. eapply IH; [|done|done]. cbn. lia. }
  destruct l2 as [|b2 l3]; [done|]. destruct (Utf8.in_range 224 239 b0) eqn:E2.
  { destruct (_ && _) eqn:E3 in H; [|done]. apply bind_Some in H as (cs' & H' & [= <-]).
    Utf8.split_guard. constructor; [|eapply IH; [|done|done]; cbn; lia].
    unfold Utf8.cont_val. destruct (Z.eqb_spec (byte_val b0) 237);
      [match goal with H : (_ <=? 159) = true |- _ => apply Z.leb_le in H end; lia|].
    destruct (Z.leb_spec (byte_val b0) 236); lia. }
  destruct l3 as [|b3 l4]; [done|]. destruct (_ && _) eqn:E3 in H; [|done].
  apply bind_Some in H as (cs' & H' & [= <-]). Utf8.split_guard. constructor; [|eapply IH; [|done|done]; cbn; lia].
  right. unfold Utf8.cont_val. destruct (Z.eqb_spec (byte_val b0) 244), (Z.eqb_spec (byte_val b0) 240);
    repeat match goal with H : (_ <=? _) = true |- _ => apply Z.leb_le in H end; lia.
Qed.

Lemma byte_small z : 0 <= z < 256 -> byte_val (byte_of z) = z.
Proof. intros. rewrite byte_val_of. by apply Z.mod_small. Qed.

(** The first byte says how long a character is. *)
Lemma decode_char c l : scalar c -> Utf8.decode (Utf8.encode_char c ++ l) = cons c <$> Utf8.decode l.
Proof.
  intros Hc. assert (Hr : 0 <= c < 1114112) by (unfold scalar in Hc; lia). unfold Utf8.encode_char.
  assert (Hm : forall z, 0 <= z mod 64 < 64) by (intros z; apply Z.mod_pos_bound; lia).
  destruct (Z.ltb_spec c 128).
  { cbn [app Utf8.decode]. rewrite byte_small by lia. rewrite (proj2 (Z.ltb_lt _ _)) by lia.
    by destruct (Utf8.decode l). }
  destruct (Z.ltb_spec c 2048); [|destruct (Z.ltb_spec c 65536)]; cbn [app Utf8.decode];
    unfold Utf8.in_range, Utf8.is_cont, Utf8.cont_val.
  - assert (2 <= c / 64 <= 31) by (Z.to_euclidean_division_equations; lia). pose proof (Hm c).
    rewrite !byte_small by lia. rewrite (proj2 (Z.ltb_ge _ 128)), !(proj2 (Z.leb_le _ _)), (proj2 (Z.ltb_lt _ 192)) by lia.
    cbn [andb]. replace ((192 + c / 64 - 192) * 64 + (128 + c mod 64 - 128)) with c
      by (pose proof (Z.div_mod c 64 ltac:(lia)); lia). by destruct (Utf8.decode l).
  - assert (0 <= c / 4096 <= 15) by (Z.to_euclidean_division_equations; lia).
    pose proof (Hm c). pose proof (Hm (c / 64)). rewrite !byte_small by lia.
    rewrite (proj2 (Z.ltb_ge _ 128)), (proj2 (Z.leb_le 194 _)), (proj2 (Z.leb_gt _ 223)) by lia. cbn [andb].
    assert (Hd : c / 64 = c / 4096 * 64 + c / 64 mod 64)
      by (pose proof (Z.div_mod (c / 64) 64 ltac:(lia)) as Hd; rewrite Z.div_div in Hd by lia; change (64 * 64) with 4096 in Hd; lia).
    pose proof (Z.div_mod c 64 ltac:(lia)) as Hd'.
    rewrite (proj2 (Z.leb_le 224 _)), (proj2 (Z.leb_le _ 239)), !(proj2 (Z.leb_le 128 _)), !(proj2 (Z.ltb_lt _ 192)) by lia.
    cbn [andb].
    assert ((if 224 + c / 4096 =? 224 then 160 <=? 128 + c / 64 mod 64 else true) = true) as ->.
    { destruct (Z.eqb_spec (224 + c / 4096) 224); [apply Z.leb_le; lia|done]. }
    assert ((if 224 + c / 4096 =? 237 then 128 + c / 64 mod 64 <=? 159 else true) = true) as ->.
    { destruct (Z.eqb_spec (224 + c / 4096) 237); [apply Z.leb_le; unfold scalar in Hc; lia|done]. }
    cbn [andb]. replace ((224 + c / 4096 - 224) * 4096 + (128 + c / 64 mod 64 - 128) * 64 + (128 + c mod 64 - 128)) with c by lia.
    by destruct (Utf8.decode l).
  - assert (0 <= c / 262144 <= 4) by (Z.to_euclidean_division_equations; lia).
    pose proof (Hm c). pose proof (Hm (c / 64)). pose proof (Hm (c / 4096)). rewrite !byte_small by lia.
    rewrite (proj2 (Z.ltb_ge _ 128)), (proj2 (Z.leb_le 194 _)), (proj2 (Z.leb_gt _ 223)) by lia. cbn [andb].
    rewrite (proj2 (Z.leb_le 224 _)), (proj2 (Z.leb_gt _ 239)) by lia. cbn [andb].
    assert (Hd : c / 64 = c / 4096 * 64 + c / 64 mod 64)
      by (pose proof (Z.div_mod (c / 64) 64 ltac:(lia)) as Hd; rewrite Z.div_div in Hd by lia; change (64 * 64) with 4096 in Hd; lia).
    assert (Hd2 : c / 4096 = c / 262144 * 64 + c / 4096 mod 64)
      by (pose proof (Z.div_mod (c / 4096) 64 ltac:(lia)) as Hd2; rewrite Z.div_div in Hd2 by lia;
          change (4096 * 64) with 262144 in Hd2; lia).
    pose proof (Z.div_mod c 64 ltac:(lia)) as Hd'.
    rewrite (proj2 (Z.leb_le 240 _)), (proj2 (Z.leb_le _ 244)), !(proj2 (Z.leb_le 128 _)), !(proj2 (Z.ltb_lt _ 192)) by lia.
    cbn [andb].
    assert ((if 240 + c / 262144 =? 240 then 144 <=? 128 + c / 4096 mod 64 else true) = true) as ->.
    { destruct (Z.eqb_spec (240 + c / 262144) 240); [apply Z.leb_le; lia|done]. }
    assert ((if 240 + c / 262144 =? 244 then 128 + c / 4096 mod 64 <=? 143 else true) = true) as ->.
    { destruct (Z.eqb_spec (240 + c / 262144) 244); [apply Z.leb_le; lia|done]. }
    cbn [andb]. replace ((240 + c / 262144 - 240) * 262144 + (128 + c / 4096 mod 64 - 128) * 4096 + (128 + c / 64 mod 64 - 128) * 64
      + (128 + c mod 64 - 128)) with c by lia.
    by destruct (Utf8.decode l).
Qed.

Lemma decode_encode cs : Forall scalar cs -> Utf8.decode (Utf8.encode cs) = Some cs.
Proof.
  induction 1 as [|c cs Hc _ IH]; [done|]. unfold Utf8.encode. cbn [fmap list_fmap concat].
  rewrite decode_char by done. unfold Utf8.encode in IH. by rewrite IH.
Qed.

(** ** Strings and their characters *)

Lemma chars_spec s : str_ok s -> Forall scalar (chars s) /\ Utf8.encode (chars s) = str_bytes s.
Proof.
  unfold str_ok, Utf8.valid, chars. intros H. destruct (Utf8.decode (str_bytes s)) as [cs|] eqn:E; [|done].
  split; [by eapply decode_scalar|by apply Utf8.encode_decode].
Qed.

Lemma chars_string_of_chars cs : Forall scalar cs -> chars (string_of_chars cs) = cs /\ str_ok (string_of_chars cs).
Proof.
  intros H. unfold chars, str_ok, string_of_chars, Utf8.valid. rewrite str_bytes_str_of_bytes.
  by rewrite decode_encode.
Qed.

Lemma chars_inj s t : str_ok s -> str_ok t -> chars s = chars t -> s = t.
Proof. intros Hs Ht E. by rewrite <-(string_of_chars_chars s Hs), <-(string_of_chars_chars t Ht), E. Qed.

(** ** [trim] *)

Lemma drop_while_suffix {A} (p : A -> bool) l : drop_while p l `suffix_of` l.
Proof.
  induction l as [|x l IH]; cbn; [done|]. destruct (p x); [|done]. by apply suffix_cons_r.
Qed.

Lemma drop_while_head {A} (p : A -> bool) l x : head (drop_while p l) = Some x -> p x = false.
Proof. induction l as [|y l IH]; cbn; [done|]. destruct (p y) eqn:E; [done|]. by intros [= <-]. Qed.

Lemma drop_while_done {A} (p : A -> bool) l : (forall x, head l = Some x -> p x = false) -> drop_while p l = l.
Proof. destruct l as [|x l]; [done|]. cbn. intros H. by rewrite (H x). Qed.

Lemma trim_by_infix {A} (p : A -> bool) l : exists a b, l = a ++ trim_by p l ++ b.
Proof.
  unfold trim_by. destruct (drop_while_suffix p l) as [a Ha].
  destruct (drop_while_suffix p (reverse (drop_while p l))) as [b Hb].
  exists a, (reverse b). rewrite Ha at 1. f_equal.
  rewrite <-(reverse_involutive (drop_while p l)) at 1. rewrite Hb at 1. by rewrite reverse_app.
Qed.

Lemma trim_by_ends {A} (p : A -> bool) l x :
  head (trim_by p l) = Some x \/ last (trim_by p l) = Some x -> p x = false.
Proof.
  unfold trim_by. set (d := drop_while p l). intros [Hx|Hx].
  - destruct (drop_while_suffix p (reverse d)) as [b Hb].
    assert (Hd : d = reverse (drop_while p (reverse d)) ++ reverse b).
    { rewrite <-(reverse_involutive d) at 1. rewrite Hb at 1. by rewrite reverse_app. }
    apply (drop_while_head p l). fold d. rewrite Hd.
    destruct (reverse (drop_while p (reverse d))); [done|]. by injection Hx as ->.
  - rewrite last_reverse in Hx. by apply (drop_while_head p (reverse d)).
Qed.

Lemma trim_by_done {A} (p : A -> bool) l :
  (forall x, head l = Some x \/ last l = Some x -> p x = false) -> trim_by p l = l.
Proof.
  intros H. unfold trim_by. rewrite (drop_while_done p l) by auto. rewrite drop_while_done.
  - apply reverse_involutive.
  - intros x. rewrite head_reverse. auto.
Qed.

Lemma trim_by_map {A} (p : A -> bool) (f : A -> A) l :
  (forall x, p (f x) = p x) -> trim_by p (f <$> l) = f <$> trim_by p l.
Proof.
  intros Hf. assert (Hd : forall k, drop_while p (f <$> k) = f <$> drop_while p k).
  { induction k as [|x k IH]; [done|]. cbn. rewrite Hf. by destruct (p x). }
  unfold trim_by. by rewrite Hd, <-fmap_reverse, Hd, <-fmap_reverse.
Qed.

(** [trim_by] takes away all it may from both ends, and nothing else. *)
Lemma drop_while_cut {A} (p : A -> bool) l : exists a, l = a ++ drop_while p l /\ Forall (fun x => p x = true) a.
Proof.
  induction l as [|x l (a & E & Ha)]; [by exists []|]. cbn. destruct (p x) eqn:Ex; [|by exists []].
  exists (x :: a). cbn. by rewrite <-E, Forall_cons.
Qed.
Lemma drop_while_app {A} (p : A -> bool) a l : Forall (fun x => p x = true) a -> drop_while p (a ++ l) = drop_while p l.
Proof. induction 1 as [|x a Hx _ IH]; [done|]. cbn. by rewrite Hx. Qed.

Lemma trim_by_cut {A} (p : A -> bool) l :
  exists a b, l = a ++ trim_by p l ++ b /\ Forall (fun x => p x = true) (a ++ b).
Proof.
  unfold trim_by. destruct (drop_while_cut p l) as (a & Ha & Hpa).
  destruct (drop_while_cut p (reverse (drop_while p l))) as (b & Hb & Hpb). exists a, (reverse b). split.
  - rewrite Ha at 1. f_equal. rewrite <-(reverse_involutive (drop_while p l)) at 1. rewrite Hb at 1. by rewrite reverse_app.
  - apply Forall_app. split; [done|]. by apply Forall_reverse.
Qed.
Lemma trim_by_unique {A} (p : A -> bool) a l b :
  Forall (fun x => p x = true) (a ++ b) -> Forall (fun x => p x = false) l -> trim_by p (a ++ l ++ b) = l.
Proof.
  intros [Ha Hb]%Forall_app Hl. unfold trim_by. rewrite drop_while_app by done. destruct l as [|x l].
  { rewrite <-(app_nil_r b), app_nil_l, drop_while_app by done. done. }
  rewrite (drop_while_done p ((x :: l) ++ b)) by (intros y [= <-]; by apply Forall_cons in Hl as [-> _]).
  rewrite reverse_app, drop_while_app by (by apply Forall_reverse). rewrite drop_while_done; [apply reverse_involutive|].
  intros y. rewrite head_reverse. intros Hy%last_Some_elem_of. by rewrite Forall_forall in Hl; apply Hl.
Qed.

Lemma chars_trim s : str_ok s -> chars (trim s) = trim_by is_whitespace (chars s) /\ str_ok (trim s).
Proof.
  intros Hs. destruct (chars_spec s Hs) as [Hc _]. apply chars_string_of_chars.
  destruct (trim_by_infix is_whitespace (chars s)) as (a & b & E). rewrite E in Hc.
  by apply Forall_app in Hc as [_ [Hc _]%Forall_app].
Qed.

Lemma trim_done s :
  str_ok s -> (forall c, head (chars s) = Some c \/ last (chars s) = Some c -> is_whitespace c = false) -> trim s = s.
Proof.
  intros Hs He. destruct (chars_trim s Hs) as [Hc Hok]. apply chars_inj; [done|done|].
  rewrite Hc. by apply trim_by_done.
Qed.

Lemma trim_trim s : str_ok s -> trim (trim s) = trim s.
Proof.
  intros Hs. destruct (chars_trim s Hs) as [Hc Hok]. apply trim_done; [done|]. rewrite Hc. apply trim_by_ends.
Qed.

(** ** [to_ascii_lowercase] *)

(** A map of characters that is the identity outside ASCII and stays within it
    may be applied to the bytes. *)
Section ascii_map.
Context (f : Z -> Z) (small : forall c, 0 <= c < 128 -> 0 <= f c < 128) (large : forall c, 128 <= c -> f c = c).

Lemma ascii_map_scalar c : scalar c -> scalar (f c).
Proof.
  unfold scalar. intros Hc. destruct (Z.ltb_spec c 128); [|by rewrite large by lia].
  specialize (small c). lia.
Qed.

Lemma encode_char_map c :
  scalar c -> Utf8.encode_char (f c) = (fun b => byte_of (f (byte_val b))) <$> Utf8.encode_char c.
Proof.
  intros Hc. assert (Hr : 0 <= c < 1114112) by (unfold scalar in Hc; lia). destruct (Z.ltb_spec c 128).
  - unfold Utf8.encode_char. rewrite !(proj2 (Z.ltb_lt _ 128)) by (try apply small; lia). cbn.
    by rewrite byte_small by lia.
  - rewrite large by lia. rewrite <-(list_fmap_id (Utf8.encode_char c)) at 1. apply list_fmap_ext.
    intros i b Hb%list_elem_of_lookup_2. cbn. rewrite large; [symmetry; apply byte_of_val|].
    destruct (Utf8.encode_char_bytes c b Hr Hb); lia.
Qed.

Lemma chars_map s :
  str_ok s -> let t := str_of_bytes ((fun b => byte_of (f (byte_val b))) <$> str_bytes s) in
  chars t = f <$> chars s /\ str_ok t.
Proof.
  intros Hs t. destruct (chars_spec s Hs) as [Hc He]. assert (t = string_of_chars (f <$> chars s)) as ->.
  { unfold t, string_of_chars. f_equal. rewrite <-He. clear He t. induction Hc as [|c cs Hc _ IH]; [done|].
    unfold Utf8.encode in *. cbn [fmap list_fmap concat]. rewrite encode_char_map, fmap_app by done. by f_equal. }
  apply chars_string_of_chars, Forall_fmap. eapply Forall_impl; [done|]. apply ascii_map_scalar.
Qed.
End ascii_map.

Lemma chars_lower s :
  str_ok s -> chars (to_ascii_lowercase s) = char_lower <$> chars s /\ str_ok (to_ascii_lowercase s).
Proof.
  apply chars_map; intros c Hc; unfold char_lower, is_ascii_uppercase;
    destruct (Z.leb_spec 65 c), (Z.leb_spec c 90); cbn [andb]; lia.
Qed.

(** ** [replace('-', "_")] *)

Definition char_dash (c : Z) : Z := if c =? 45 then 95 else c.

Lemma chars_replace_dash s :
  str_ok s -> chars (replace_char "-"%char "_"%char s) = char_dash <$> chars s /\ str_ok (replace_char "-"%char "_"%char s).
Proof.
  assert (replace_char "-"%char "_"%char s = str_of_bytes ((fun b => byte_of (char_dash (byte_val b))) <$> str_bytes s)) as ->.
  { induction s as [|c s IH]; [done|]. cbn [replace_char]. rewrite IH. clear IH.
    cbn [Strings.String.list_byte_of_string fmap list_fmap Strings.String.string_of_list_byte]. f_equal.
    by destruct c as [[] [] [] [] [] [] [] []]. }
  apply chars_map; intros c Hc; unfold char_dash; destruct (Z.eqb_spec c 45); lia.
Qed.

Lemma lower_lower s : str_ok s -> to_ascii_lowercase (to_ascii_lowercase s) = to_ascii_lowercase s.
Proof.
  intros Hs. destruct (chars_lower s Hs) as [Hc Hok]. destruct (chars_lower _ Hok) as [Hc2 Hok2].
  apply chars_inj; [done|done|]. rewrite Hc2, Hc, <-list_fmap_compose. apply list_fmap_ext. intros i c _. cbn.
  unfold char_lower, is_ascii_uppercase. destruct (Z.leb_spec 65 c), (Z.leb_spec c 90); cbn [andb];
  repeat (match goal with |- context [?x <=? ?y] => destruct (Z.leb_spec x y) end; cbn [andb]); lia.
Qed.

Lemma whitespace_lower c : is_whitespace (char_lower c) = is_whitespace c.
Proof.
  unfold char_lower, is_ascii_uppercase. destruct (Z.leb_spec 65 c), (Z.leb_spec c 90); cbn [andb]; try done.
  assert (Hn : forall d, 65 <= d <= 122 -> is_whitespace d = false); [|by rewrite !Hn by lia].
  intros d Hd. unfold is_whitespace.
  repeat match goal with |- context [?a <=? ?b] => destruct (Z.leb_spec a b); try lia end;
  repeat match goal with |- context [?a =? ?b] => destruct (Z.eqb_spec a b); try lia end; done.
Qed.

Lemma trim_lower s : str_ok s -> trim (to_ascii_lowercase s) = to_ascii_lowercase (trim s).
Proof.
  intros Hs. destruct (chars_lower s Hs) as [Hc Hok]. destruct (chars_trim _ Hok) as [Hc2 Hok2].
  destruct (chars_trim s Hs) as [Ht Htok]. destruct (chars_lower _ Htok) as [Hl Hlok].
  apply chars_inj; [done|done|]. rewrite Hc2, Hc, Hl, Ht. apply trim_by_map, whitespace_lower.
Qed.
