(* ===== verification/Control.v ===== *)
(** * The control protocol of the daemon

    [protocol_core/control.rs] and [protocol_core/envelope.rs] (commands and
    answers), [ssh-proxy-daemon/src/control.rs] (what a request asks for),
    [node_daemon/control_protocol.rs] with [control_protocol/*.rs] (requests) and
    [ssh-proxy-control/src/control_socket.rs] (addresses of the socket).  The
    server and the client are in [ControlServer]. *)
From stdpp Require Import base list strings.
From S2P Require Import Prelude RustStr IpAddr Unicode RouteDecision Collections Json Serde ControlFrame.

Import Strings.Ascii.

(** ** Commands *)
Module Cmd.

Inductive t :=
| Status | Descriptor | Links | Shutdown | Nodes | Jobs | JobStatus | JobEvents | EnsureProxySession
| ProxySessionStatus | ProxySessionDown | DaemonUpdate | ApplyRemoteSettings | NodeEnsure | NodeStart
| NodeStop | NodeRestart | Connect | Disconnect | RouteStart | RoutePlan | RouteIntent | RouteStop
| RouteRestart | RouteList | PeerList | RemotePeerEnsure | RemotePeerStatus | RemotePeerRepair
| RemotePeerUpdate | TokenRotate | PeerBootstrap | PeerEnsure | PeerUpdate | PeerRefresh | PeerDiff
| PeerReconcile | PeerCheckVersion | PeerRotateToken | PeerForget | Report
| Unknown (value : string).

#[global] Instance eq_dec : EqDecision t.
Proof. solve_decision. Defined.

Definition table : list (string * t) :=
  [(EmptyString, Status); ("status", Status); ("descriptor", Descriptor); ("describe", Descriptor);
   ("links", Links); ("shutdown", Shutdown); ("nodes", Nodes); ("node_list", Nodes); ("jobs", Jobs);
   ("job_list", Jobs); ("job_status", JobStatus); ("job_events", JobEvents);
   ("ensure_proxy_session", EnsureProxySession); ("proxy_session_status", ProxySessionStatus);
   ("proxy_session_down", ProxySessionDown); ("daemon_update", DaemonUpdate);
   ("apply_remote_settings", ApplyRemoteSettings); ("node_ensure", NodeEnsure); ("node_start", NodeStart);
   ("node_stop", NodeStop); ("node_restart", NodeRestart); ("connect", Connect); ("disconnect", Disconnect);
   ("route_start", RouteStart); ("route_plan", RoutePlan); ("route_intent", RouteIntent);
   ("route_stop", RouteStop); ("route_restart", RouteRestart); ("route_list", RouteList);
   ("routes", RouteList); ("peer_list", PeerList); ("peers", PeerList);
   ("remote_peer_ensure", RemotePeerEnsure); ("remote_peer_status", RemotePeerStatus);
   ("remote_peer_repair", RemotePeerRepair); ("remote_peer_update", RemotePeerUpdate);
   ("token_rotate", TokenRotate); ("peer_bootstrap", PeerBootstrap); ("peer_ensure", PeerEnsure);
   ("peer_update", PeerUpdate); ("peer_refresh", PeerRefresh); ("peer_diff", PeerDiff);
   ("peer_reconcile", PeerReconcile); ("peer_check_version", PeerCheckVersion);
   ("peer_rotate_token", PeerRotateToken); ("peer_forget", PeerForget); ("report", Report)].

(** [normalize_command] of [protocol_core]. *)
Definition normalize_command (value : string) : string :=
  replace_char "-" "_" (to_ascii_lowercase (trim value)).

(** [DaemonControlCommand::parse]. *)
Definition parse (value : string) : t :=
  let lower := to_ascii_lowercase (trim value) in
  let normalized := normalize_command lower in
  match map_get normalized table with
  | Some command => command
  | None => Unknown lower
  end.

Definition canonical_name (c : t) : string :=
  match c with
  | Status => "status" | Descriptor => "descriptor" | Links => "links" | Shutdown => "shutdown"
  | Nodes => "nodes" | Jobs => "jobs" | JobStatus => "job_status" | JobEvents => "job_events"
  | EnsureProxySession => "ensure_proxy_session" | ProxySessionStatus => "proxy_session_status"
  | ProxySessionDown => "proxy_session_down" | DaemonUpdate => "daemon_update"
  | ApplyRemoteSettings => "apply_remote_settings" | NodeEnsure => "node_ensure" | NodeStart => "node_start"
  | NodeStop => "node_stop" | NodeRestart => "node_restart" | Connect => "connect"
  | Disconnect => "disconnect" | RouteStart => "route_start" | RoutePlan => "route_plan"
  | RouteIntent => "route_intent" | RouteStop => "route_stop" | RouteRestart => "route_restart"
  | RouteList => "route_list" | PeerList => "peer_list" | RemotePeerEnsure => "remote_peer_ensure"
  | RemotePeerStatus => "remote_peer_status" | RemotePeerRepair => "remote_peer_repair"
  | RemotePeerUpdate => "remote_peer_update" | TokenRotate => "token_rotate"
  | PeerBootstrap => "peer_bootstrap" | PeerEnsure => "peer_ensure" | PeerUpdate => "peer_update"
  | PeerRefresh => "peer_refresh" | PeerDiff => "peer_diff" | PeerReconcile => "peer_reconcile"
  | PeerCheckVersion => "peer_check_version" | PeerRotateToken => "peer_rotate_token"
  | PeerForget => "peer_forget" | Report => "report"
  | Unknown value => value
  end.

Definition is_unknown (c : t) : bool := match c with Unknown _ => true | _ => false end.
End Cmd.

Module Shape.
Inductive t :=
| Empty | Profile | Id | RouteStart | RouteArgs | PeerBootstrap | Report | ProxySession | RemoteSettings
| DaemonUpdate | JobEvents | Unknown.

(** [DaemonControlCommand::payload_shape]. *)
Definition payload_shape (c : Cmd.t) : t :=
  match c with
  | Cmd.Status | Cmd.Descriptor | Cmd.Links | Cmd.Shutdown | Cmd.Nodes | Cmd.Jobs | Cmd.NodeEnsure
  | Cmd.RouteList | Cmd.PeerList | Cmd.TokenRotate => Empty
  | Cmd.JobStatus | Cmd.NodeStart | Cmd.NodeStop | Cmd.NodeRestart | Cmd.RouteStop | Cmd.RouteRestart
  | Cmd.PeerForget => Id
  | Cmd.JobEvents => JobEvents
  | Cmd.EnsureProxySession | Cmd.ProxySessionStatus | Cmd.ProxySessionDown => ProxySession
  | Cmd.DaemonUpdate => DaemonUpdate
  | Cmd.ApplyRemoteSettings => RemoteSettings
  | Cmd.Connect | Cmd.Disconnect => Profile
  | Cmd.RouteStart => RouteStart
  | Cmd.RoutePlan | Cmd.RouteIntent => RouteArgs
  | Cmd.RemotePeerEnsure | Cmd.RemotePeerStatus | Cmd.RemotePeerRepair | Cmd.RemotePeerUpdate
  | Cmd.PeerBootstrap | Cmd.PeerEnsure | Cmd.PeerUpdate | Cmd.PeerRefresh | Cmd.PeerDiff | Cmd.PeerReconcile
  | Cmd.PeerCheckVersion | Cmd.PeerRotateToken => PeerBootstrap
  | Cmd.Report => Report
  | Cmd.Unknown _ => Unknown
  end.
End Shape.

(** ** What a request asks for *)
Module Kind.
Inductive t :=
| Connect | Disconnect | Status | Descriptor | Links | Shutdown | Nodes | Jobs | JobStatus | JobEvents
| NodeEnsure | NodeStart | NodeStop | NodeRestart | RouteIntent | RoutePlan | RouteStart | RouteStop
| RouteRestart | RouteList | PeerList | TokenRotate | RemotePeerEnsure | RemotePeerStatus | RemotePeerRepair
| RemotePeerUpdate | PeerBootstrap | PeerEnsure | PeerUpdate | PeerRefresh | PeerDiff | PeerReconcile
| PeerCheckVersion | PeerRotateToken | PeerForget | Report | EnsureProxySession | ProxySessionStatus
| ProxySessionDown | ApplyRemoteSettings | DaemonUpdate | Unknown.

#[global] Instance eq_dec : EqDecision t.
Proof. solve_decision. Defined.

Definition table : list (string * t) :=
  [("connect", Connect); ("disconnect", Disconnect); (EmptyString, Status); ("status", Status);
   ("descriptor", Descriptor); ("describe", Descriptor); ("links", Links); ("shutdown", Shutdown);
   ("nodes", Nodes); ("node_list", Nodes); ("jobs", Jobs); ("job_list", Jobs); ("job_status", JobStatus);
   ("job_events", JobEvents); ("node_ensure", NodeEnsure); ("node_start", NodeStart);
   ("node_stop", NodeStop); ("node_restart", NodeRestart); ("route_intent", RouteIntent);
   ("route_plan", RoutePlan); ("route_start", RouteStart); ("route_stop", RouteStop);
   ("route_restart", RouteRestart); ("route_list", RouteList); ("routes", RouteList);
   ("peer_list", PeerList); ("peers", PeerList); ("token_rotate", TokenRotate);
   ("remote_peer_ensure", RemotePeerEnsure); ("remote_peer_status", RemotePeerStatus);
   ("remote_peer_repair", RemotePeerRepair); ("remote_peer_update", RemotePeerUpdate);
   ("peer_bootstrap", PeerBootstrap); ("peer_ensure", PeerEnsure); ("peer_update", PeerUpdate);
   ("peer_refresh", PeerRefresh); ("peer_diff", PeerDiff); ("peer_reconcile", PeerReconcile);
   ("peer_check_version", PeerCheckVersion); ("peer_rotate_token", PeerRotateToken);
   ("peer_forget", PeerForget); ("report", Report); ("ensure_proxy_session", EnsureProxySession);
   ("proxy_session_status", ProxySessionStatus); ("proxy_session_down", ProxySessionDown);
   ("apply_remote_settings", ApplyRemoteSettings); ("daemon_update", DaemonUpdate)].

(** [normalize_command] of [ssh-proxy-daemon]. *)
Definition normalize_command (command : string) : string :=
  replace_char "-" "_" (to_ascii_lowercase (trim command)).

(** [NodeRequestKind::from_command]. *)
Definition from_command (command : string) : t :=
  default Unknown (map_get (normalize_command command) table).

(** The kind with the name of the command. *)
Definition of_command (c : Cmd.t) : t :=
  match c with
  | Cmd.Status => Status | Cmd.Descriptor => Descriptor | Cmd.Links => Links | Cmd.Shutdown => Shutdown
  | Cmd.Nodes => Nodes | Cmd.Jobs => Jobs | Cmd.JobStatus => JobStatus | Cmd.JobEvents => JobEvents
  | Cmd.EnsureProxySession => EnsureProxySession | Cmd.ProxySessionStatus => ProxySessionStatus
  | Cmd.ProxySessionDown => ProxySessionDown | Cmd.DaemonUpdate => DaemonUpdate
  | Cmd.ApplyRemoteSettings => ApplyRemoteSettings | Cmd.NodeEnsure => NodeEnsure
  | Cmd.NodeStart => NodeStart | Cmd.NodeStop => NodeStop | Cmd.NodeRestart => NodeRestart
  | Cmd.Connect => Connect | Cmd.Disconnect => Disconnect | Cmd.RouteStart => RouteStart
  | Cmd.RoutePlan => RoutePlan | Cmd.RouteIntent => RouteIntent | Cmd.RouteStop => RouteStop
  | Cmd.RouteRestart => RouteRestart | Cmd.RouteList => RouteList | Cmd.PeerList => PeerList
  | Cmd.RemotePeerEnsure => RemotePeerEnsure | Cmd.RemotePeerStatus => RemotePeerStatus
  | Cmd.RemotePeerRepair => RemotePeerRepair | Cmd.RemotePeerUpdate => RemotePeerUpdate
  | Cmd.TokenRotate => TokenRotate | Cmd.PeerBootstrap => PeerBootstrap | Cmd.PeerEnsure => PeerEnsure
  | Cmd.PeerUpdate => PeerUpdate | Cmd.PeerRefresh => PeerRefresh | Cmd.PeerDiff => PeerDiff
  | Cmd.PeerReconcile => PeerReconcile | Cmd.PeerCheckVersion => PeerCheckVersion
  | Cmd.PeerRotateToken => PeerRotateToken | Cmd.PeerForget => PeerForget | Cmd.Report => Report
  | Cmd.Unknown _ => Unknown
  end.
End Kind.

(** ** Answers *)

(** [CONTROL_API_VERSION] of [version.rs] and [NODE_CONTROL_VERSION]. *)
Definition CONTROL_API_VERSION : Z := 1.
Definition NODE_CONTROL_VERSION : Z := CONTROL_API_VERSION.

Record ControlError := MkControlError {
  ce_code : string;
  ce_message : string;
  ce_blocker : option string;
  ce_repair_action : option Value;
}.

Definition ControlError_new (code message : string) : ControlError := MkControlError code message None None.
Definition with_blocker (blocker : string) (e : ControlError) : ControlError :=
  MkControlError (ce_code e) (ce_message e) (Some blocker) (ce_repair_action e).
Definition with_repair_action (repair_action : Value) (e : ControlError) : ControlError :=
  match repair_action with
  | Null => e
  | v => MkControlError (ce_code e) (ce_message e) (ce_blocker e) (Some v)
  end.

Record ControlResponse := MkControlResponse {
  cr_api_version : Z;
  cr_ok : bool;
  cr_kind : option string;
  cr_code : option string;
  cr_message : option string;
  cr_error : option string;
  cr_data : option Value;
  cr_blocker : option string;
  cr_repair_action : option Value;
}.

Definition response_ok (data : Value) : ControlResponse :=
  MkControlResponse CONTROL_API_VERSION true None None None None (Some data) None None.
Definition response_ok_message (message : string) : ControlResponse :=
  MkControlResponse CONTROL_API_VERSION true None None (Some message) None None None None.
Definition response_error (e : ControlError) : ControlResponse :=
  MkControlResponse CONTROL_API_VERSION false None (Some (ce_code e)) None (Some (ce_message e)) None
    (ce_blocker e) (ce_repair_action e).

(** The fields that a derived serialiser writes: those that are not skipped. *)
Definition present (fields : list (string * option Value)) : list (string * Value) :=
  omap (fun kv => pair kv.1 <$> kv.2) fields.

Definition response_fields (r : ControlResponse) : list (string * option Value) :=
  [("api_version", Some (ser_uint (cr_api_version r))); ("ok", Some (Bool (cr_ok r))); ("kind", Str <$> cr_kind r);
   ("code", Str <$> cr_code r); ("message", Str <$> cr_message r); ("error", Str <$> cr_error r);
   ("data", cr_data r); ("blocker", Str <$> cr_blocker r); ("repair_action", cr_repair_action r)].

(** [ControlResponse::public_ok_value]; [to_value] sorts the keys. *)
Definition public_ok_value (value : Value) : Value :=
  match value with
  | Object object =>
    match map_get "api_version" object with
    | Some _ => Object object
    | None => Object (map_insert "api_version" (ser_uint CONTROL_API_VERSION) object)
    end
  | other => Object (map_of (present (response_fields (response_ok other))))
  end.

(** [NodeResponse], which has no kind. *)
Record NodeResponse := MkNodeResponse {
  nr_api_version : Z;
  nr_ok : bool;
  nr_code : option string;
  nr_message : option string;
  nr_error : option string;
  nr_data : option Value;
  nr_blocker : option string;
  nr_repair_action : option Value;
}.

Definition from_control (r : ControlResponse) : NodeResponse :=
  MkNodeResponse (cr_api_version r) (cr_ok r) (cr_code r) (cr_message r) (cr_error r) (cr_data r) (cr_blocker r)
    (cr_repair_action r).
Definition node_ok_message (message : string) : NodeResponse := from_control (response_ok_message message).
Definition node_error (code error : string) : NodeResponse := from_control (response_error (ControlError_new code error)).

Definition node_response_value (r : NodeResponse) : Value :=
  Object (present [("api_version", Some (ser_uint (nr_api_version r))); ("ok", Some (Bool (nr_ok r)));
                   ("code", Str <$> nr_code r); ("message", Str <$> nr_message r); ("error", Str <$> nr_error r);
                   ("data", nr_data r); ("blocker", Str <$> nr_blocker r);
                   ("repair_action", nr_repair_action r)]).

(** ** Requests *)

(** The arguments that requests only carry, with their derived JSON. *)
Class RequestArgs := {
  ProxyArgs : Type;
  ReverseTaskArgs : Type;
  RouteArgs : Type;
  PeerBootstrapArgs : Type;
  SessionSpec : Type;
  spec_job_id : SessionSpec -> string;
}.

Class RequestWire `{RequestArgs} := {
  #[global] proxy_wire :: Wire ProxyArgs;
  #[global] reverse_wire :: Wire ReverseTaskArgs;
  #[global] route_wire :: Wire RouteArgs;
  #[global] bootstrap_wire :: Wire PeerBootstrapArgs;
  #[global] spec_wire :: Wire SessionSpec;
}.

Section requests.
Context `{RequestArgs}.

Record NodeRequest := MkRequest {
  rq_api_version : option Z;
  rq_auth_token : option string;
  rq_cmd : string;
  rq_profile : option string;
  rq_id : option string;
  rq_direction : option string;
  rq_persist : option bool;
  rq_proxy : option ProxyArgs;
  rq_reverse : option ReverseTaskArgs;
  rq_route : option RouteArgs;
  rq_bootstrap : option PeerBootstrapArgs;
  rq_alias : option string;
  rq_node : option string;
  rq_status : option Value;
  rq_connect_mode : option string;
  rq_fallback_reason : option string;
  rq_node_scope : option string;
  rq_proxy_session : option SessionSpec;
  rq_update_source : option string;
  rq_remote_url : option string;
}.

(** [..Self::default()] with the fields that a constructor sets. *)
Definition request_default : NodeRequest :=
  MkRequest None None EmptyString None None None None None None None None None None None None None None None None None.
Definition command (cmd : string) : NodeRequest :=
  MkRequest (Some NODE_CONTROL_VERSION) None cmd None None None None None None None None None None None None None None
    None None None.
Definition legacy_command (cmd : string) (profile : option string) : NodeRequest :=
  MkRequest None None cmd profile None None None None None None None None None None None None None None None None.
Definition profile_request (cmd profile : string) : NodeRequest :=
  MkRequest (Some NODE_CONTROL_VERSION) None cmd (Some profile) None None None None None None None None None None None
    None None None None None.
Definition id_request (cmd : string) (id : option string) : NodeRequest :=
  MkRequest (Some NODE_CONTROL_VERSION) None cmd None id None None None None None None None None None None None None
    None None None.
Definition connect (profile : string) : NodeRequest := profile_request "connect" profile.
Definition disconnect (profile : string) : NodeRequest := profile_request "disconnect" profile.
Definition node_ensure (scope : string) : NodeRequest :=
  MkRequest (Some NODE_CONTROL_VERSION) None "node_ensure" None None None None None None None None None None None None
    None (Some scope) None None None.
Definition node_start (id : string) : NodeRequest := id_request "node_start" (Some id).
Definition node_stop (id : string) : NodeRequest := id_request "node_stop" (Some id).
Definition node_restart (id : string) : NodeRequest := id_request "node_restart" (Some id).
Definition route_start_forward (id : string) (persist : bool) (proxy : ProxyArgs) : NodeRequest :=
  MkRequest (Some NODE_CONTROL_VERSION) None "route_start" None (Some id) (Some "forward") (Some persist) (Some proxy)
    None None None None None None None None None None None None.
Definition route_start_reverse (id : string) (persist : bool) (reverse : ReverseTaskArgs)
    (connect_mode : option string) : NodeRequest :=
  MkRequest (Some NODE_CONTROL_VERSION) None "route_start" None (Some id) (Some "reverse") (Some persist) None
    (Some reverse) None None None None None connect_mode None None None None None.
Definition route_stop (id : string) : NodeRequest := id_request "route_stop" (Some id).
Definition route_restart (id : string) : NodeRequest := id_request "route_restart" (Some id).
Definition route_request (cmd : string) (route : RouteArgs) : NodeRequest :=
  MkRequest (Some NODE_CONTROL_VERSION) None cmd None None None None None None (Some route) None None None None None
    None None None None None.
Definition route_intent (route : RouteArgs) : NodeRequest := route_request "route_intent" route.
Definition route_plan (route : RouteArgs) : NodeRequest := route_request "route_plan" route.
Definition bootstrap_request (cmd : string) (bootstrap : PeerBootstrapArgs) : NodeRequest :=
  MkRequest (Some NODE_CONTROL_VERSION) None cmd None None None None None None None (Some bootstrap) None None None
    None None None None None None.
Definition peer_bootstrap (b : PeerBootstrapArgs) : NodeRequest := bootstrap_request "peer_bootstrap" b.
Definition peer_ensure (b : PeerBootstrapArgs) : NodeRequest := bootstrap_request "peer_ensure" b.
Definition peer_update (b : PeerBootstrapArgs) : NodeRequest := bootstrap_request "peer_update" b.
Definition peer_refresh (b : PeerBootstrapArgs) : NodeRequest := bootstrap_request "peer_refresh" b.
Definition peer_diff (b : PeerBootstrapArgs) : NodeRequest := bootstrap_request "peer_diff" b.
Definition peer_reconcile (b : PeerBootstrapArgs) : NodeRequest := bootstrap_request "peer_reconcile" b.
Definition peer_check_version (b : PeerBootstrapArgs) : NodeRequest := bootstrap_request "peer_check_version" b.
Definition peer_rotate_token (b : PeerBootstrapArgs) : NodeRequest := bootstrap_request "peer_rotate_token" b.
Definition peer_forget (alias : string) : NodeRequest :=
  MkRequest (Some NODE_CONTROL_VERSION) None "peer_forget" None None None None None None None None (Some alias) None None
    None None None None None None.
Definition report (node : string) (status : Value) : NodeRequest :=
  MkRequest (Some NODE_CONTROL_VERSION) None "report" None None None None None None None None None (Some node)
    (Some status) None None None None None None.
Definition ensure_proxy_session (spec : SessionSpec) : NodeRequest :=
  MkRequest (Some NODE_CONTROL_VERSION) None "ensure_proxy_session" None (Some (spec_job_id spec)) None None None None
    None None None None None None None None (Some spec) None None.
Definition daemon_update (source : option string) : NodeRequest :=
  MkRequest (Some NODE_CONTROL_VERSION) None "daemon_update" None None None None None None None None None None None None
    None None None source None.
Definition session_request (cmd : string) (id : option string) (spec : option SessionSpec) : NodeRequest :=
  MkRequest (Some NODE_CONTROL_VERSION) None cmd None id None None None None None None None None None None None None spec
    None None.
Definition proxy_session_status (id : option string) (spec : option SessionSpec) : NodeRequest :=
  session_request "proxy_session_status" id spec.
Definition proxy_session_down (id : option string) (spec : option SessionSpec) : NodeRequest :=
  session_request "proxy_session_down" id spec.
Definition apply_remote_settings (target workspace remote_url : string) : NodeRequest :=
  MkRequest (Some NODE_CONTROL_VERSION) None "apply_remote_settings" None (Some workspace) None None None None None None
    (Some target) None None None None None None None (Some remote_url).
Definition job_events (id : option string) : NodeRequest := id_request "job_events" id.

Definition with_auth_token (token : option string) (r : NodeRequest) : NodeRequest :=
  match token with
  | Some token =>
    MkRequest (rq_api_version r) (Some token) (rq_cmd r) (rq_profile r) (rq_id r) (rq_direction r) (rq_persist r)
      (rq_proxy r) (rq_reverse r) (rq_route r) (rq_bootstrap r) (rq_alias r) (rq_node r) (rq_status r)
      (rq_connect_mode r) (rq_fallback_reason r) (rq_node_scope r) (rq_proxy_session r) (rq_update_source r)
      (rq_remote_url r)
  | None => r
  end.

(** [attach_auth_token]. *)
Definition attach_auth_token (token : option string) (value : Value) : Value :=
  match token, value with
  | Some token, Object object =>
    match map_get "auth_token" object with
    | Some _ => value
    | None => Object (map_insert "auth_token" (Str token) object)
    end
  | _, _ => value
  end.

(** *** What a request asks for *)

Definition command_kind (r : NodeRequest) : Cmd.t := Cmd.parse (rq_cmd r).

Inductive NodeRequestPayload :=
| PayloadEmpty
| PayloadProfile (profile : option string)
| PayloadId (id : option string)
| PayloadRouteStart (id direction : option string) (persist : option bool) (has_proxy has_reverse : bool)
    (connect_mode : option string)
| PayloadRouteArgs (has_route : bool)
| PayloadPeerBootstrap (has_bootstrap : bool)
| PayloadReport (node : option string) (has_status : bool)
| PayloadProxySession (id : option string) (has_spec : bool)
| PayloadRemoteSettings (target workspace remote_url : option string)
| PayloadDaemonUpdate (source : option string)
| PayloadJobEvents (id : option string)
| PayloadUnknown.

Definition is_some {A} (o : option A) : bool := match o with Some _ => true | None => false end.

Definition typed_payload (r : NodeRequest) : NodeRequestPayload :=
  match Shape.payload_shape (command_kind r) with
  | Shape.Empty => PayloadEmpty
  | Shape.Profile => PayloadProfile (rq_profile r)
  | Shape.Id => PayloadId (rq_id r)
  | Shape.RouteStart =>
    PayloadRouteStart (rq_id r) (rq_direction r) (rq_persist r) (is_some (rq_proxy r)) (is_some (rq_reverse r))
      (rq_connect_mode r)
  | Shape.RouteArgs => PayloadRouteArgs (is_some (rq_route r))
  | Shape.PeerBootstrap => PayloadPeerBootstrap (is_some (rq_bootstrap r))
  | Shape.Report => PayloadReport (rq_node r) (is_some (rq_status r))
  | Shape.ProxySession => PayloadProxySession (rq_id r) (is_some (rq_proxy_session r))
  | Shape.RemoteSettings => PayloadRemoteSettings (rq_alias r) (rq_id r) (rq_remote_url r)
  | Shape.DaemonUpdate => PayloadDaemonUpdate (rq_update_source r)
  | Shape.JobEvents => PayloadJobEvents (rq_id r)
  | Shape.Unknown => PayloadUnknown
  end.

Record NodeRequestIntent := MkIntent {
  ni_kind : Kind.t;
  ni_command : string;
  ni_api_version : option Z;
  ni_id : option string;
  ni_alias : option string;
  ni_payload : NodeRequestPayload;
}.

(** [NodeRequestIntent::new]. *)
Definition intent_new (command : string) (api_version : option Z) (id alias : option string)
    (payload : NodeRequestPayload) : NodeRequestIntent :=
  let command := Cmd.canonical_name (Cmd.parse command) in
  MkIntent (Kind.from_command command) command api_version id alias payload.

Definition typed_intent (r : NodeRequest) : NodeRequestIntent :=
  intent_new (Cmd.canonical_name (command_kind r)) (rq_api_version r) (rq_id r)
    (match rq_alias r with Some alias => Some alias | None => rq_node r end) (typed_payload r).

(** [NodeRequest::validate_compatible]; the error has this text. *)
Definition validate_compatible (r : NodeRequest) : result string unit :=
  match rq_api_version r with
  | Some version =>
    if NODE_CONTROL_VERSION <? version then
      Err ("unsupported node control api_version " +:+ display_uint version +:+ "; local daemon supports "
           +:+ display_uint NODE_CONTROL_VERSION)
    else Ok tt
  | None => Ok tt
  end.

(** *** Requests on the wire *)

Context `{!RequestWire}.

Definition request_fields (r : NodeRequest) : list (string * option Value) :=
  [("api_version", ser_uint <$> rq_api_version r); ("auth_token", Str <$> rq_auth_token r);
   ("cmd", Some (Str (rq_cmd r))); ("profile", Str <$> rq_profile r); ("id", Str <$> rq_id r);
   ("direction", Str <$> rq_direction r); ("persist", Bool <$> rq_persist r); ("proxy", to_value <$> rq_proxy r);
   ("reverse", to_value <$> rq_reverse r); ("route", to_value <$> rq_route r);
   ("bootstrap", to_value <$> rq_bootstrap r); ("alias", Str <$> rq_alias r); ("node", Str <$> rq_node r);
   ("status", rq_status r); ("connect_mode", Str <$> rq_connect_mode r);
   ("fallback_reason", Str <$> rq_fallback_reason r); ("node_scope", Str <$> rq_node_scope r);
   ("proxy_session", to_value <$> rq_proxy_session r); ("update_source", Str <$> rq_update_source r);
   ("remote_url", Str <$> rq_remote_url r)].

Definition request_value (r : NodeRequest) : Value := Object (present (request_fields r)).

Definition de_request (v : Value) : option NodeRequest :=
  _ ← de_shape 20 v;
  api_version ← de_optional_default 0 "api_version" (de_uint 16) v;
  auth_token ← de_optional_default 1 "auth_token" de_string v;
  cmd ← de_default 2 "cmd" de_string EmptyString v;
  profile ← de_optional_default 3 "profile" de_string v;
  id ← de_optional_default 4 "id" de_string v;
  direction ← de_optional_default 5 "direction" de_string v;
  persist ← de_optional_default 6 "persist" de_bool v;
  proxy ← de_optional_default 7 "proxy" from_value v;
  reverse ← de_optional_default 8 "reverse" from_value v;
  route ← de_optional_default 9 "route" from_value v;
  bootstrap ← de_optional_default 10 "bootstrap" from_value v;
  alias ← de_optional_default 11 "alias" de_string v;
  node ← de_optional_default 12 "node" de_string v;
  status ← de_optional_default 13 "status" (fun v => Some (de_value v)) v;
  connect_mode ← de_optional_default 14 "connect_mode" de_string v;
  fallback_reason ← de_optional_default 15 "fallback_reason" de_string v;
  node_scope ← de_optional_default 16 "node_scope" de_string v;
  proxy_session ← de_optional_default 17 "proxy_session" from_value v;
  update_source ← de_optional_default 18 "update_source" de_string v;
  remote_url ← de_optional_default 19 "remote_url" de_string v;
  Some (MkRequest api_version auth_token cmd profile id direction persist proxy reverse route bootstrap alias node status
          connect_mode fallback_reason node_scope proxy_session update_source remote_url).

(** [NodeRequest::to_line]. *)
Definition to_line `{SerdeJson} (r : NodeRequest) : list byte := json_text (request_value r) ++ [x0a].
End requests.

(** ** The address of the control socket *)

(** A number of any length that fits [w] bits. *)
Definition read_uint (w : Z) (l : list byte) : option (Z * list byte) := read_number 10 (length l) true (u_max w) l.

Definition read_char (b : byte) (l : list byte) : option (list byte) :=
  match l with
  | b' :: l => if decide (b' = b) then Some l else None
  | [] => None
  end.

(** [s.parse::<SocketAddr>()], with the scope of an IPv6 address. *)
Definition read_socket_addr_v4 (l : list byte) : option (SocketAddr * Z * list byte) :=
  '(o, l) ← read_v4 l;
  l ← read_char x3a l;
  '(port, l) ← read_uint 16 l;
  Some ({| sa_ip := V4 o; sa_port := port |}, 0, l).

Definition read_scope_id (l : list byte) : option (Z * list byte) := l ← read_char x25 l; read_uint 32 l.

Definition read_socket_addr_v6 (l : list byte) : option (SocketAddr * Z * list byte) :=
  l ← read_char x5b l;
  '(o, l) ← read_v6 l;
  let '(scope, l) := default (0, l) (read_scope_id l) in
  l ← read_char x5d l;
  l ← read_char x3a l;
  '(port, l) ← read_uint 16 l;
  Some ({| sa_ip := V6 o; sa_port := port |}, scope, l).

Definition parse_socket_addr (s : string) : option (SocketAddr * Z) :=
  let l := str_bytes s in
  let r := match read_socket_addr_v4 l with
           | Some r => Some r
           | None => read_socket_addr_v6 l
           end in
  match r with
  | Some (a, scope, []) => Some (a, scope)
  | _ => None
  end.

(** The text of a socket address; the scope is printed when it is not 0. *)
Definition socket_addr_text (a : SocketAddr) (scope : Z) : string :=
  match sa_ip a with
  | V6 _ =>
    if scope =? 0 then addr_text a
    else "[" +:+ ip_text (sa_ip a) +:+ "%" +:+ display_uint scope +:+ "]:" +:+ display_uint (sa_port a)
  | V4 _ => addr_text a
  end.

Inductive ControlEndpoint :=
| EndpointTcp (addr : SocketAddr) (scope : Z)
| EndpointUnix (path : string).

Definition tcp_endpoint (a : SocketAddr * Z) : ControlEndpoint := EndpointTcp a.1 a.2.

Inductive EndpointError := BadTcpEndpoint | EmptyUnixPath | BadEndpoint.

(** [ControlEndpoint::parse] on Unix. *)
Definition parse_endpoint (value : string) : result EndpointError ControlEndpoint :=
  match strip_prefix "tcp://" value with
  | Some rest => tcp_endpoint <$> ok_or BadTcpEndpoint (parse_socket_addr rest)
  | None =>
    match strip_prefix "unix://" value with
    | Some rest => if String.eqb rest EmptyString then Err EmptyUnixPath else Ok (EndpointUnix rest)
    | None => tcp_endpoint <$> ok_or BadEndpoint (parse_socket_addr value)
    end
  end.

Definition display_endpoint (e : ControlEndpoint) : string :=
  match e with
  | EndpointTcp addr scope => "tcp://" +:+ socket_addr_text addr scope
  | EndpointUnix path => "unix://" +:+ path
  end.

(** [user_port] and the user's name in an address. *)
Definition endpoint_user_component (user : string) : string :=
  string_of_chars ((fun ch => if is_ascii_alphanumeric ch || (ch =? 45) || (ch =? 95) then ch else 95) <$> chars user).

Definition user_hash (user : string) : Z :=
  foldl (fun acc b => wrap_u 16 (wrap_u 16 (acc * 31) + byte_val b)) 0 (str_bytes user).

(** [base + (hash % 1000)] of 16 bits: [None] when the addition overflows. *)
Definition user_port (base : Z) (user : string) : option Z :=
  let port := base + user_hash user mod 1000 in
  if port <=? u_max 16 then Some port else None.

(** ** Lemmas *)

Lemma map_get_elem {V} k (m : list (string * V)) v : map_get k m = Some v -> (k, v) ∈ m.
Proof.
  induction m as [|[k' v'] m IH]; [done|]. cbn. destruct (String.eqb_spec k k'); intros; simplify_eq; set_solver.
Qed.

Lemma map_get_absent {V} k (m : list (string * V)) : k ∉ m.*1 -> map_get k m = None.
Proof.
  induction m as [|[k' v'] m IH]; [done|]. cbn. intros [Hk Hm]%not_elem_of_cons.
  destruct (String.eqb_spec k k'); [done|]. by apply IH.
Qed.

Lemma normalize_lower value :
  str_ok value -> Cmd.normalize_command (to_ascii_lowercase (trim value)) = Cmd.normalize_command value.
Proof.
  intros Hv. unfold Cmd.normalize_command. destruct (chars_trim value Hv) as [_ Ht].
  by rewrite trim_lower, trim_trim, lower_lower.
Qed.

Lemma parse_table value :
  str_ok value -> Cmd.parse value = default (Cmd.Unknown (to_ascii_lowercase (trim value)))
                                      (map_get (Cmd.normalize_command value) Cmd.table).
Proof. intros Hv. unfold Cmd.parse. rewrite normalize_lower by done. by destruct (map_get _ _). Qed.

(** A text spells a name: between white space, character by character, in either
    case and with dashes for underscores. *)
Definition written_as (a b : Z) : Prop := a = b \/ 65 <= a <= 90 /\ b = a + 32 \/ a = 45 /\ b = 95.
Definition spelled (value name : string) : Prop :=
  exists before word after, chars value = before ++ word ++ after
    /\ Forall (fun c => is_whitespace c = true) (before ++ after) /\ Forall2 written_as word (chars name).

(** A name in lower case, without dashes and white space. *)
Definition plain_char (c : Z) : bool := is_ascii_lowercase c || (c =? 95).
Definition plain_name (name : string) : Prop := str_ok name /\ forallb plain_char (chars name) = true.

Lemma written_plain a b :
  plain_char b = true -> written_as a b -> char_dash (char_lower a) = b /\ is_whitespace a = false.
Proof.
  unfold plain_char, is_ascii_lowercase. rewrite orb_true_iff, andb_true_iff, !Z.leb_le, Z.eqb_eq. intros Hb Hw.
  assert (Ha : 65 <= a <= 122 \/ a = 45) by (unfold written_as in Hw; lia). split.
  - unfold written_as, char_dash, char_lower, is_ascii_uppercase in *.
    destruct (Z.leb_spec 65 a), (Z.leb_spec a 90); cbn [andb]; case_match; lia.
  - unfold is_whitespace.
    repeat match goal with |- context [?x <=? ?y] => destruct (Z.leb_spec x y); try lia end;
    repeat match goal with |- context [?x =? ?y] => destruct (Z.eqb_spec x y); try lia end; done.
Qed.
Lemma written_normal a : written_as a (char_dash (char_lower a)).
Proof.
  unfold written_as, char_dash, char_lower, is_ascii_uppercase.
  destruct (Z.leb_spec 65 a), (Z.leb_spec a 90); cbn [andb]; case_match; lia.
Qed.

Lemma normalized_chars value :
  str_ok value -> chars (Cmd.normalize_command value) = char_dash <$> (char_lower <$> trim_by is_whitespace (chars value))
                  /\ str_ok (Cmd.normalize_command value).
Proof.
  intros Hv. unfold Cmd.normalize_command. destruct (chars_trim value Hv) as [Ht Hok].
  destruct (chars_lower _ Hok) as [Hl Hok2]. destruct (chars_replace_dash _ Hok2) as [Hd Hok3]. by rewrite Hd, Hl, Ht.
Qed.

Lemma normalize_spelled value name :
  str_ok value -> plain_name name -> Cmd.normalize_command value = name <-> spelled value name.
Proof.
  intros Hv [Hn Hp]. destruct (normalized_chars value Hv) as [Hc Hok]. split.
  - intros <-. destruct (trim_by_cut is_whitespace (chars value)) as (a & b & E & Hw).
    exists a, (trim_by is_whitespace (chars value)), b. split_and!; [done..|]. rewrite Hc, <-list_fmap_compose.
    clear. induction (trim_by _ _) as [|c l IH]; [constructor|]. constructor; [apply written_normal|done].
  - intros (a & word & b & E & Hw & Hf). apply chars_inj; [done|done|]. rewrite Hc, E, <-list_fmap_compose.
    assert (Hall : Forall (fun c => is_whitespace c = false) word /\ (char_dash ∘ char_lower) <$> word = chars name).
    { clear E Hc. revert Hp. induction Hf as [|x y l k Hxy Hlk IH]; [done|]. cbn [forallb fmap list_fmap].
      rewrite andb_true_iff. intros [Hy Hk]. destruct (written_plain x y Hy Hxy) as [<- Hx]. destruct (IH Hk) as [H1 <-].
      by split; [constructor|]. }
    destruct Hall as [Hall <-]. by rewrite trim_by_unique.
Qed.

Lemma table_names name c : (name, c) ∈ Cmd.table -> map_get name Cmd.table = Some c /\ plain_name name /\ Cmd.is_unknown c = false.
Proof.
  intros Hin.
  assert (Hall : Forall (fun kv => map_get kv.1 Cmd.table = Some kv.2
      /\ (str_ok kv.1 /\ forallb plain_char (chars kv.1) = true) /\ Cmd.is_unknown kv.2 = false) Cmd.table) by (by repeat constructor).
  rewrite Forall_forall in Hall. exact (Hall _ Hin).
Qed.

(** The commands are recognised by their names, however they are spelled. *)
Lemma parse_spelled value c :
  str_ok value -> Cmd.is_unknown c = false ->
  Cmd.parse value = c <-> exists name, (name, c) ∈ Cmd.table /\ spelled value name.
Proof.
  intros Hv Hc. rewrite parse_table by done. split.
  - destruct (map_get (Cmd.normalize_command value) Cmd.table) as [c'|] eqn:E; cbn [default]; [|by intros <-].
    intros <-. apply map_get_elem in E. eexists. split; [done|]. apply table_names in E as (_ & Hp & _).
    by apply normalize_spelled.
  - intros (name & Hin & Hs). destruct (table_names _ _ Hin) as (Hg & Hp & _).
    apply normalize_spelled in Hs as ->; [|done..]. by rewrite Hg.
Qed.

(** The two tables name the same commands. *)
Lemma kind_table name : map_get name Kind.table = Kind.of_command <$> map_get name Cmd.table.
Proof.
  destruct (decide (name ∈ Cmd.table.*1)) as [Hin|Hout].
  - revert name Hin. apply Forall_forall. by repeat constructor.
  - rewrite !map_get_absent; [done|done|]. intros Hin. apply Hout. revert name Hin Hout.
    assert (Hall : Forall (fun k => k ∈ Cmd.table.*1) Kind.table.*1) by (by apply (bool_decide_unpack _); vm_compute).
    rewrite Forall_forall in Hall. auto.
Qed.

Lemma canonical_table name c :
  map_get name Cmd.table = Some c -> str_ok (Cmd.canonical_name c) /\ Cmd.parse (Cmd.canonical_name c) = c.
Proof.
  intros Hin%map_get_elem.
  assert (Hall : Forall (fun kv => str_ok (Cmd.canonical_name kv.2) /\ Cmd.parse (Cmd.canonical_name kv.2) = kv.2) Cmd.table)
    by (by repeat constructor).
  rewrite Forall_forall in Hall. exact (Hall _ Hin).
Qed.

Lemma parse_canonical value :
  str_ok value -> str_ok (Cmd.canonical_name (Cmd.parse value))
                  /\ Cmd.parse (Cmd.canonical_name (Cmd.parse value)) = Cmd.parse value.
Proof.
  intros Hv. rewrite (parse_table value Hv). destruct (map_get _ _) as [c|] eqn:E; cbn [default].
  - by apply canonical_table in E.
  - destruct (chars_trim value Hv) as [_ Ht]. destruct (chars_lower _ Ht) as [_ Hl]. cbn [Cmd.canonical_name].
    split; [done|]. rewrite parse_table by done. rewrite normalize_lower, E by done. cbn [default].
    by rewrite trim_lower, trim_trim, lower_lower.
Qed.

(** ** Reading requests back *)

Lemma occurrences_cons k k' v f :
  occurrences k ((k', v) :: f) = if decide (k' = k) then v :: occurrences k f else occurrences k f.
Proof. unfold occurrences. rewrite filter_cons. cbn. by case_decide. Qed.

Lemma present_cons k o fs :
  present ((k, o) :: fs) = match o with Some v => (k, v) :: present fs | None => present fs end.
Proof. by destruct o. Qed.

Lemma occurrences_none k fs : k ∉ fs.*1 -> occurrences k (present fs) = [].
Proof.
  induction fs as [|[k' o'] fs IH]; [done|]. rewrite fmap_cons. intros [Hk Hf]%not_elem_of_cons.
  rewrite present_cons. destruct o' as [v|]; [|by apply IH].
  rewrite occurrences_cons, decide_False by (cbn in Hk; congruence). by apply IH.
Qed.

Lemma occurrences_present fields i k o :
  NoDup fields.*1 -> fields !! i = Some (k, o) -> occurrences k (present fields) = option_list o.
Proof.
  revert i. induction fields as [|[k' o'] fields IH]; intros [|i]; try done; rewrite fmap_cons;
    intros [Hk Hn]%NoDup_cons Hi; rewrite present_cons.
  - injection Hi as -> ->. destruct o as [v|]; [|by apply occurrences_none].
    rewrite occurrences_cons, decide_True by done. cbn. f_equal. by apply occurrences_none.
  - assert (k' <> k) as Hne.
    { intros ->. apply Hk. apply list_elem_of_fmap. exists (k, o). split; [done|]. by eapply list_elem_of_lookup_2. }
    destruct o' as [v|]; [rewrite occurrences_cons, decide_False by done|]; by eapply IH.
Qed.

Lemma de_optional_present {A} fields i k (ser : A -> Value) (de : Value -> option A) (a : option A) :
  NoDup fields.*1 -> fields !! i = Some (k, ser <$> a) ->
  (forall x, a = Some x -> ser x <> Null /\ de (ser x) = Some x) ->
  de_optional_default i k de (Object (present fields)) = Some a.
Proof.
  intros Hn Hi Hde. unfold de_optional_default, de_field. rewrite (occurrences_present _ _ _ _ Hn Hi).
  destruct a as [x|]; [|done]. destruct (Hde x eq_refl) as [Hnull Hx]. cbn. destruct (ser x); try done; cbn in *; by rewrite Hx.
Qed.

Section request_laws.
Context `{RequestArgs} `{!RequestWire} `{!WireLaws ProxyArgs} `{!WireLaws ReverseTaskArgs} `{!WireLaws RouteArgs}.
Context `{!WireLaws PeerBootstrapArgs} `{!WireLaws SessionSpec}.

(** The text of an argument is an object, so never [null]. *)
Definition arg_ok {A} `{WireLaws A} (o : option A) : Prop :=
  forall a, o = Some a -> wire_ok a /\ plain 126 (to_value a) /\ to_value a <> Null.
Definition opt_str_ok (o : option string) : Prop := forall s, o = Some s -> str_ok s.

Record request_ok (r : NodeRequest) : Prop := {
  ok_version : forall v, rq_api_version r = Some v -> in_u 16 v;
  ok_cmd : str_ok (rq_cmd r);
  ok_strings : Forall opt_str_ok
    [rq_auth_token r; rq_profile r; rq_id r; rq_direction r; rq_alias r; rq_node r; rq_connect_mode r;
     rq_fallback_reason r; rq_node_scope r; rq_update_source r; rq_remote_url r];
  ok_proxy : arg_ok (rq_proxy r);
  ok_reverse : arg_ok (rq_reverse r);
  ok_route : arg_ok (rq_route r);
  ok_bootstrap : arg_ok (rq_bootstrap r);
  ok_session : arg_ok (rq_proxy_session r);
  ok_status : forall v, rq_status r = Some v -> value_ok v /\ plain 126 v /\ v <> Null;
}.

Lemma request_keys r : NoDup (request_fields r).*1.
Proof. change (NoDup (request_fields request_default).*1). apply (bool_decide_unpack _). by vm_compute. Qed.

Lemma de_present {A} r i k (ser : A -> Value) (de : Value -> option A) (a : option A) :
  request_fields r !! i = Some (k, ser <$> a) ->
  (forall x, a = Some x -> ser x <> Null /\ de (ser x) = Some x) ->
  de_optional_default i k de (request_value r) = Some a.
Proof. intros. eapply de_optional_present; [apply request_keys|done|done]. Qed.

Lemma de_string_present r i k (a : option string) :
  request_fields r !! i = Some (k, Str <$> a) ->
  de_optional_default i k de_string (request_value r) = Some a.
Proof. intros Hi. by eapply de_present. Qed.

Lemma de_arg_present {A} `{WireLaws A} r i k (a : option A) :
  arg_ok a -> request_fields r !! i = Some (k, to_value <$> a) ->
  de_optional_default i k from_value (request_value r) = Some a.
Proof.
  intros Ha Hi. eapply de_present; [exact Hi|]. intros x Hx.
  destruct (Ha x Hx) as (Hok & _ & Hn). split; [done|]. by apply wire_back.
Qed.

Lemma de_cmd_present r : de_default 2 "cmd" de_string EmptyString (request_value r) = Some (rq_cmd r).
Proof.
  unfold de_default, de_field, request_value.
  by rewrite (occurrences_present (request_fields r) 2 "cmd" (Some (Str (rq_cmd r))) (request_keys r) eq_refl).
Qed.

Lemma de_status_present r :
  request_ok r -> de_optional_default 13 "status" (fun v => Some (de_value v)) (request_value r) = Some (rq_status r).
Proof.
  intros Hok. eapply (de_present r 13 "status" id); [by destruct r as [? ? ? ? ? ? ? ? ? ? ? ? ? [?|]]|].
  intros v Hv. destruct (ok_status r Hok v Hv) as (Hvok & _ & Hn). split; [done|]. cbn. by rewrite de_value_ok.
Qed.

(** A request is read back exactly. *)
Lemma request_back r : request_ok r -> de_request (request_value r) = Some r.
Proof.
  intros Hok. unfold de_request. assert (de_shape 20 (request_value r) = Some tt) as -> by done.
  assert (de_optional_default 0 "api_version" (de_uint 16) (request_value r) = Some (rq_api_version r)) as ->.
  { apply (de_present r 0 "api_version" ser_uint); [done|]. intros v Hv. split; [done|].
    by apply de_uint_ser, (ok_version r Hok). }
  assert (de_optional_default 6 "persist" de_bool (request_value r) = Some (rq_persist r)) as ->
    by (by apply (de_present r 6 "persist" Bool)).
  rewrite de_cmd_present, (de_status_present r Hok).
  rewrite (de_arg_present r 7 "proxy" (rq_proxy r) (ok_proxy r Hok) eq_refl),
    (de_arg_present r 8 "reverse" (rq_reverse r) (ok_reverse r Hok) eq_refl),
    (de_arg_present r 9 "route" (rq_route r) (ok_route r Hok) eq_refl),
    (de_arg_present r 10 "bootstrap" (rq_bootstrap r) (ok_bootstrap r Hok) eq_refl),
    (de_arg_present r 17 "proxy_session" (rq_proxy_session r) (ok_session r Hok) eq_refl).
  rewrite (de_string_present r 1 "auth_token" (rq_auth_token r) eq_refl), (de_string_present r 3 "profile" (rq_profile r) eq_refl),
    (de_string_present r 4 "id" (rq_id r) eq_refl), (de_string_present r 5 "direction" (rq_direction r) eq_refl),
    (de_string_present r 11 "alias" (rq_alias r) eq_refl), (de_string_present r 12 "node" (rq_node r) eq_refl),
    (de_string_present r 14 "connect_mode" (rq_connect_mode r) eq_refl), (de_string_present r 15 "fallback_reason" (rq_fallback_reason r) eq_refl),
    (de_string_present r 16 "node_scope" (rq_node_scope r) eq_refl), (de_string_present r 18 "update_source" (rq_update_source r) eq_refl),
    (de_string_present r 19 "remote_url" (rq_remote_url r) eq_refl).
  by destruct r.
Qed.

#[local] Opaque plain.

Lemma plain_present d fields :
  Forall (fun kv => str_ok kv.1 /\ forall v, kv.2 = Some v -> plain d v) fields -> plain (S d) (Object (present fields)).
Proof.
  intros Hf. apply plain_object. induction Hf as [|[k o] fields [Hk Ho] _ IH]; [by constructor|].
  rewrite present_cons. destruct o as [v|]; [|done]. constructor; [|done]. split; [done|]. by apply Ho.
Qed.

Lemma plain_opt_str d o v : opt_str_ok o -> Str <$> o = Some v -> plain d v.
Proof. intros Ho. destruct o as [s|]; [|done]. intros [= <-]. by apply plain_str, Ho. Qed.

Lemma plain_arg {A} `{WireLaws A} (o : option A) v : arg_ok o -> to_value <$> o = Some v -> plain 126 v.
Proof. intros Ho. destruct o as [a|]; [|done]. intros [= <-]. by apply Ho. Qed.

Lemma request_plain r : request_ok r -> plain 127 (request_value r).
Proof.
  intros Hok. apply plain_present. pose proof (ok_strings r Hok) as Hs. decompose_Forall_hyps.
  assert (Hv : forall v, ser_uint <$> rq_api_version r = Some v -> plain 126 v).
  { intros v. pose proof (ok_version r Hok) as Hv. destruct (rq_api_version r) as [n|]; [|done].
    intros [= <-]. by apply (plain_uint 126 16); [apply Hv|]. }
  assert (Hb : forall v, Bool <$> rq_persist r = Some v -> plain 126 v).
  { intros v. destruct (rq_persist r); [|done]. intros [= <-]. apply plain_bool. }
  assert (Hc : forall v, Some (Str (rq_cmd r)) = Some v -> plain 126 v).
  { intros v [= <-]. by apply plain_str, ok_cmd. }
  destruct Hok as [_ _ _ Ha1 Ha2 Ha3 Ha4 Ha5 Hst].
  unfold request_fields. repeat (apply Forall_cons; split; [split; [done|cbn [snd]]|]); [..|by constructor];
    try done; intros v Hx; try (by eapply plain_opt_str; [|exact Hx]); 
    try first [exact (plain_arg _ v Ha1 Hx)|exact (plain_arg _ v Ha2 Hx)|exact (plain_arg _ v Ha3 Hx)
      |exact (plain_arg _ v Ha4 Hx)|exact (plain_arg _ v Ha5 Hx)]. by destruct (Hst v Hx) as (_ & Hp & _).
Qed.

(** The line that carries a request. *)
Lemma request_line `{SerdeJsonLaws} `{!SerdeJsonLine} r :
  request_ok r ->
  exists inner, to_line r = (x7b :: inner ++ [x7d; x0a]) /\ (x0a ∉ x7b :: inner ++ [x7d])
    /\ Utf8.valid (x7b :: inner ++ [x7d]) = true
    /\ json_parse (x7b :: inner ++ [x7d]) = Some (request_value r).
Proof.
  intros Hok. apply request_plain in Hok. destruct (json_braces _ Hok) as [inner Hi]. exists inner.
  change (Object (present (request_fields r))) with (request_value r) in Hi. rewrite <-Hi. unfold to_line.
  split_and!; [rewrite Hi; cbn [app]; by rewrite <-app_assoc|by apply json_line|by apply json_utf8|by apply json_round_trip].
Qed.
End request_laws.

(** *** Socket addresses *)

Lemma read_digits_parse max l r : forall acc z,
  parse_digits max acc l = Some z -> read_digits 10 r = ([], r) ->
  exists ds, read_digits 10 (l ++ r) = (ds, r) /\ foldl (fun acc d => acc * 10 + d) acc ds = z
             /\ length ds = length l.
Proof.
  induction l as [|b l IH]; cbn [parse_digits]; intros acc z Hp Hr.
  { exists []. by simplify_eq. }
  destruct (is_ascii_digit (byte_val b)) eqn:Ed; [|done]. destruct (_ <=? max); [|done].
  destruct (IH _ _ Hp Hr) as (ds & Hds & Hf & Hl). exists (byte_val b - 48 :: ds). cbn [app read_digits].
  assert (digit_value 10 b = Some (byte_val b - 48)) as ->.
  { unfold digit_value. rewrite Ed. unfold is_ascii_digit in Ed. apply andb_true_iff in Ed as [_ Hle%Z.leb_le].
    by rewrite (proj2 (Z.ltb_lt _ 10)) by lia. }
  rewrite Hds. cbn. auto.
Qed.

Lemma read_uint_display w z r :
  0 <= z <= u_max w -> read_digits 10 r = ([], r) ->
  read_uint w (str_bytes (display_uint z) ++ r) = Some (z, r).
Proof.
  intros Hz Hr. unfold read_uint, read_number, display_uint. rewrite str_bytes_str_of_bytes.
  pose proof (parse_digits_of (u_max w) (Z.to_nat (Z.log2 z)) z Hz (display_fuel z ltac:(lia))) as Hp.
  destruct (read_digits_parse _ _ r _ _ Hp Hr) as (ds & -> & -> & Hl).
  assert (length ds <> 0%nat) as Hne.
  { rewrite Hl. cbn [digits_of]. destruct (z <? 10); [done|]. rewrite length_app. cbn. lia. }
  rewrite (proj2 (Nat.ltb_ge _ _)) by (rewrite length_app; lia). destruct ds; [done|]. cbn [negb andb].
  by rewrite (proj2 (Z.ltb_ge _ _)) by lia.
Qed.

Lemma read_v4_text o r :
  length o = 4%nat -> read_digits 10 r = ([], r) -> read_v4 (str_bytes (v4_text o) ++ r) = Some (o, r).
Proof.
  intros Ho Hr. destruct o as [|a [|b [|c [|d [|]]]]]; try done. unfold read_v4. rewrite v4_text_bytes.
  rewrite <-!app_assoc. cbn [read_octets read_sep mbind option_bind app].
  do 3 (rewrite read_octet by done; cbn [mbind option_bind]; rewrite decide_True by done; cbn [mbind option_bind]).
  rewrite read_octet by done. cbn [mbind option_bind]. by rewrite !byte_of_val.
Qed.

Lemma parse_socket_addr_v4 o port :
  length o = 4%nat -> in_u 16 port ->
  parse_socket_addr (socket_addr_text {| sa_ip := V4 o; sa_port := port |} 0) = Some ({| sa_ip := V4 o; sa_port := port |}, 0).
Proof.
  intros Ho Hp. unfold parse_socket_addr, read_socket_addr_v4, socket_addr_text, addr_text. cbn [sa_ip sa_port ip_text].
  rewrite !str_bytes_append. change (str_bytes ":") with [x3a]. rewrite <-(app_nil_r (str_bytes (display_uint port))).
  rewrite read_v4_text by done. cbn [mbind option_bind app read_char]. rewrite decide_True by done.
  cbn [mbind option_bind]. rewrite read_uint_display; [done|unfold in_u, u_max in *; lia|done].
Qed.

(** ** Properties *)

(** C38. A command has one meaning.  A text is recognised as a command exactly
    when it spells one of the command's names, between white space, in either
    case and with dashes or underscores; the second classification of the text
    agrees with the first one; a command's canonical name stands for the command
    itself; and the intent that is derived from a request has the kind and the
    name of the command that is dispatched. *)
Theorem command_names_agree `{RequestArgs} (value : string) (r : NodeRequest) :
  str_ok value ->
  (forall c, Cmd.is_unknown c = false ->
     Cmd.parse value = c <-> exists name, (name, c) ∈ Cmd.table /\ spelled value name)
  /\ Kind.from_command value = Kind.of_command (Cmd.parse value)
  /\ Cmd.parse (Cmd.canonical_name (Cmd.parse value)) = Cmd.parse value
  /\ (rq_cmd r = value -> ni_kind (typed_intent r) = Kind.of_command (command_kind r)
                          /\ ni_command (typed_intent r) = Cmd.canonical_name (command_kind r)).
Proof.
  intros Hv.
  assert (Hk : forall s, str_ok s -> Kind.from_command s = Kind.of_command (Cmd.parse s)).
  { intros s Hs. unfold Kind.from_command. change Kind.normalize_command with Cmd.normalize_command.
    rewrite kind_table, parse_table by done. by destruct (map_get _ _). }
  split_and!; [intros c; by apply parse_spelled|by apply Hk|by apply parse_canonical|].
  intros <-. destruct (parse_canonical (rq_cmd r) Hv) as [Hok Hp].
  unfold typed_intent, intent_new, command_kind. cbn [ni_kind ni_command]. rewrite Hp. split; [|done].
  by rewrite Hk, Hp.
Qed.

#[local] Instance no_args : RequestArgs :=
  {| ProxyArgs := unit; ReverseTaskArgs := unit; RouteArgs := unit; PeerBootstrapArgs := unit; SessionSpec := unit;
     spec_job_id _ := "job"%string |}.

Lemma command_names_agree_witness :
  Cmd.parse " Node-List " = Cmd.Nodes /\ Kind.from_command " Node-List " = Kind.Nodes
  /\ ni_kind (typed_intent (command " Node-List ")) = Kind.Nodes.
Proof.
  destruct (command_names_agree " Node-List " (command " Node-List ")) as (H1 & H2 & _ & H4); [by vm_compute|].
  assert (Hp : Cmd.parse " Node-List " = Cmd.Nodes).
  { apply (H1 Cmd.Nodes eq_refl). exists "node_list"%string. split; [by do 7 right; left|].
    exists [32], (chars "Node-List"), [32]. split_and!; [by vm_compute|by repeat constructor|].
    change (chars "Node-List") with [78; 111; 100; 101; 45; 76; 105; 115; 116].
    change (chars "node_list") with [110; 111; 100; 101; 95; 108; 105; 115; 116].
    repeat constructor; unfold written_as; lia. }
  split_and!; [exact Hp|by rewrite H2, Hp|]. rewrite (proj1 (H4 eq_refl)). by vm_compute.
Defined.

(** Control addresses survive printing and parsing: every Unix socket path
    that is not empty and every IPv4 address with a port. *)
Theorem endpoint_round_trip (e : ControlEndpoint) :
  match e with
  | EndpointUnix path => path <> EmptyString
  | EndpointTcp a scope => exists o, sa_ip a = V4 o /\ length o = 4%nat /\ in_u 16 (sa_port a) /\ scope = 0
  end ->
  parse_endpoint (display_endpoint e) = Ok e.
Proof.
  destruct e as [[ip port] scope|path]; cbn [sa_ip sa_port].
  - intros (o & -> & Ho & Hp & ->). unfold parse_endpoint, display_endpoint. rewrite strip_prefix_append.
    by rewrite parse_socket_addr_v4.
  - intros Hp. unfold parse_endpoint, display_endpoint.
    assert (strip_prefix "tcp://" ("unix://" +:+ path) = None) as -> by done. rewrite strip_prefix_append.
    by destruct (String.eqb_spec path EmptyString).
Qed.

Lemma endpoint_round_trip_witness :
  parse_endpoint "tcp://127.0.0.1:1081" = Ok (EndpointTcp {| sa_ip := V4 [x7f; x00; x00; x01]; sa_port := 1081 |} 0).
Proof.
  apply (endpoint_round_trip (EndpointTcp {| sa_ip := V4 [x7f; x00; x00; x01]; sa_port := 1081 |} 0)).
  by exists [x7f; x00; x00; x01].
Defined.

(** The default ports of users lie in a block of a thousand above the base, and
    the addition does not overflow for the bases the program uses. *)
Lemma user_port_range base user :
  0 <= base <= u_max 16 - 999 -> exists port, user_port base user = Some port /\ base <= port < base + 1000.
Proof.
  intros Hb. unfold user_port. pose proof (Z.mod_pos_bound (user_hash user) 1000 ltac:(lia)).
  rewrite (proj2 (Z.leb_le _ _)) by lia. eexists. split; [done|lia].
Qed.
