(* ===== verification/ControlServer.v ===== *)
(** * The server and the client of the control socket

    [node_daemon/control_server.rs] (one request per connection),
    [ssh-proxy-control/src/control_socket.rs] (the client's side) and
    [node_daemon/control_client.rs] (the requests of the command line).  What
    the daemon does for a command is a parameter: [call] runs one of its
    methods on the daemon's state. *)
From stdpp Require Import base list strings.
From S2P Require Import Prelude RustStr IpAddr Unicode Stream RouteDecision Json Serde ControlFrame Control.

Definition MAX_CONTROL_REQUEST_BYTES : Z := 1024 * 1024.
Definition MAX_CONTROL_RESPONSE_BYTES : Z := 16 * 1024 * 1024.

(** The capacity of tokio's [BufReader]. *)
Definition BUF_READER_CAPACITY : Z := 8192.

(** [serde_json::to_string_pretty], which also writes UTF-8. *)
Class SerdePretty := { json_pretty : Value -> list byte }.
Class SerdePrettyLaws `{SerdePretty} := {
  json_pretty_utf8 v : plain 127 v -> Utf8.valid (json_pretty v) = true;
}.

Definition response_text `{SerdePretty} (r : NodeResponse) : list byte := json_pretty (node_response_value r) ++ [x0a].
Definition error_line `{SerdePretty} (code error : string) : list byte := response_text (node_error code error).

(** [stream.shutdown().await.ok()], then the value. *)
Definition closed {R W E A} `{AsyncWrite W} (a : A) : sr (TcpStream R W) E A := fun s =>
  (Ok a, (send shutdown s).2).

(** ** The daemon's methods *)
Module Call.
Section calls.
Context `{RequestArgs}.
Inductive t :=
| StatusJson | DescriptorJson | LinksJson | Shutdown | NodesJson | JobsJson
| JobStatusJson (r : NodeRequest) | JobEventsJson (r : NodeRequest)
| EnsureProxySession (r : NodeRequest) | ProxySessionStatus (r : NodeRequest) | ProxySessionDown (r : NodeRequest)
| DaemonUpdate (r : NodeRequest) | ApplyRemoteSettings (r : NodeRequest)
| NodeEnsure (r : NodeRequest) | NodeStart (r : NodeRequest) | NodeStop (r : NodeRequest) | NodeRestart (r : NodeRequest)
| ConnectProfile (profile : string) | DisconnectProfile (profile : string)
| StartRoute (r : NodeRequest) | HandleRoutePlan (r : NodeRequest) | HandleRouteIntent (r : NodeRequest)
| StopRoute (r : NodeRequest) | RestartRoute (r : NodeRequest) | RouteListJson | PeersJson
| RemotePeerEnsure (r : NodeRequest) | RemotePeerStatus (r : NodeRequest)
| AcceptRemotePeerJob (r : NodeRequest) (kind action message : string)
| RotateToken | BootstrapPeer (r : NodeRequest) | EnsurePeer (r : NodeRequest) | UpdatePeer (r : NodeRequest)
| RefreshPeer (r : NodeRequest) | DiffPeer (r : NodeRequest) | ReconcilePeer (r : NodeRequest)
| CheckPeerVersion (r : NodeRequest) | RotatePeerToken (r : NodeRequest) | ForgetPeer (r : NodeRequest)
| RecordReport (r : NodeRequest).
End calls.
End Call.

Section server.
Context `{RequestArgs} `{!RequestWire} `{SerdeJson} `{SerdePretty}.
(** The daemon's state, its current token, its methods, and the debug text of a
    string. *)
Context {M : Type} (token_value : M -> option string) (call : Call.t -> M -> result string string * M).
Context (debug_text : string -> string).

(** ** One request *)

Definition parse_request (command_line : string) : result string NodeRequest :=
  let trimmed := trim command_line in
  if String.eqb trimmed EmptyString then Ok (command "status")
  else if starts_with trimmed "{" then
    request ← ok_or "failed to parse node JSON request" (json_parse (str_bytes trimmed) ≫= de_request);
    _ ← validate_compatible request;
    Ok request
  else
    let parts := split_whitespace trimmed in
    Ok (legacy_command (default "status" (parts !! 0%nat)) (parts !! 1%nat)).

(** [token_matches] does not stop at the first difference. *)
Definition token_matches (provided expected : string) : bool :=
  if negb (str_len provided =? str_len expected) then false
  else foldl (fun acc lr => Z.lor acc (Z.lxor (byte_val lr.1) (byte_val lr.2))) 0
         (zip (str_bytes provided) (str_bytes expected)) =? 0.

Definition authenticate_request (m : M) (request : NodeRequest) (require_auth : bool) : result string unit :=
  if negb require_auth then Ok tt
  else
    match token_value m with
    | None => Ok tt
    | Some expected =>
      provided ← ok_or "node control token is required" (rq_auth_token request);
      if token_matches provided expected then Ok tt else Err "invalid node control token"
    end.

(** A method that answers with the text of its response. *)
Definition respond (c : Call.t) (m : M) : result string (list byte) * M :=
  let '(v, m) := call c m in (str_bytes <$> v, m).

(** A method on the profile that the request must name. *)
Definition respond_profile (what : string) (c : string -> Call.t) (request : NodeRequest) (m : M) :
    result string (list byte) * M :=
  match rq_profile request with
  | None => (Err (what +:+ " requires a profile"), m)
  | Some profile =>
    let '(v, m) := call (c profile) m in
    ((fun message => response_text (node_ok_message message)) <$> v, m)
  end.

Definition dispatch_request (m : M) (request : NodeRequest) : result string (list byte) * M :=
  match command_kind request with
  | Cmd.Status => respond Call.StatusJson m
  | Cmd.Descriptor => respond Call.DescriptorJson m
  | Cmd.Links => respond Call.LinksJson m
  | Cmd.Shutdown => respond Call.Shutdown m
  | Cmd.Nodes => respond Call.NodesJson m
  | Cmd.Jobs => respond Call.JobsJson m
  | Cmd.JobStatus => respond (Call.JobStatusJson request) m
  | Cmd.JobEvents => respond (Call.JobEventsJson request) m
  | Cmd.EnsureProxySession => respond (Call.EnsureProxySession request) m
  | Cmd.ProxySessionStatus => respond (Call.ProxySessionStatus request) m
  | Cmd.ProxySessionDown => respond (Call.ProxySessionDown request) m
  | Cmd.DaemonUpdate => respond (Call.DaemonUpdate request) m
  | Cmd.ApplyRemoteSettings => respond (Call.ApplyRemoteSettings request) m
  | Cmd.NodeEnsure => respond (Call.NodeEnsure request) m
  | Cmd.NodeStart => respond (Call.NodeStart request) m
  | Cmd.NodeStop => respond (Call.NodeStop request) m
  | Cmd.NodeRestart => respond (Call.NodeRestart request) m
  | Cmd.Connect => respond_profile "connect" Call.ConnectProfile request m
  | Cmd.Disconnect => respond_profile "disconnect" Call.DisconnectProfile request m
  | Cmd.RouteStart => respond (Call.StartRoute request) m
  | Cmd.RoutePlan => respond (Call.HandleRoutePlan request) m
  | Cmd.RouteIntent => respond (Call.HandleRouteIntent request) m
  | Cmd.RouteStop => respond (Call.StopRoute request) m
  | Cmd.RouteRestart => respond (Call.RestartRoute request) m
  | Cmd.RouteList => respond Call.RouteListJson m
  | Cmd.PeerList => respond Call.PeersJson m
  | Cmd.RemotePeerEnsure => respond (Call.RemotePeerEnsure request) m
  | Cmd.RemotePeerStatus => respond (Call.RemotePeerStatus request) m
  | Cmd.RemotePeerRepair =>
    respond (Call.AcceptRemotePeerJob request "remote_peer_repair" "remote_peer_update" "remote peer repair accepted") m
  | Cmd.RemotePeerUpdate =>
    respond (Call.AcceptRemotePeerJob request "remote_peer_update" "remote_peer_update" "remote peer update accepted") m
  | Cmd.TokenRotate => respond Call.RotateToken m
  | Cmd.PeerBootstrap => respond (Call.BootstrapPeer request) m
  | Cmd.PeerEnsure => respond (Call.EnsurePeer request) m
  | Cmd.PeerUpdate => respond (Call.UpdatePeer request) m
  | Cmd.PeerRefresh => respond (Call.RefreshPeer request) m
  | Cmd.PeerDiff => respond (Call.DiffPeer request) m
  | Cmd.PeerReconcile => respond (Call.ReconcilePeer request) m
  | Cmd.PeerCheckVersion => respond (Call.CheckPeerVersion request) m
  | Cmd.PeerRotateToken => respond (Call.RotatePeerToken request) m
  | Cmd.PeerForget => respond (Call.ForgetPeer request) m
  | Cmd.Report => respond (Call.RecordReport request) m
  | Cmd.Unknown other => (Ok (error_line "unknown_command" ("unknown node command " +:+ debug_text other)), m)
  end.

(** The answer to the text of a request. *)
Definition answer (require_auth : bool) (m : M) (command_line : string) : list byte * M :=
  match parse_request command_line with
  | Err e => (error_line "bad_request" e, m)
  | Ok request =>
    match authenticate_request m request require_auth with
    | Err e => (error_line "unauthorized" e, m)
    | Ok _ =>
      match dispatch_request m request with
      | (Ok response, m) => (response, m)
      | (Err e, m) => (error_line "request_failed" e, m)
      end
    end
  end.

(** ** A connection *)

Context {R W : Type} `{AsyncRead R} `{AsyncWrite W}.

(** The bytes up to the first line feed. *)
Fixpoint line_of (l : list byte) : option (list byte) :=
  match l with
  | [] => None
  | b :: l => if decide (b = x0a) then Some [x0a] else cons b <$> line_of l
  end.

(** [reader.take(limit).read_until(b'\n')] over a [BufReader]: what one read
    has buffered is searched up to the limit.  Every turn takes a byte at
    least. *)
Fixpoint read_until (fuel : nat) (limit : Z) (acc : list byte) : sr (TcpStream R W) io_error (list byte) :=
  match fuel with
  | O => sr_fail IoOther
  | S fuel =>
    if limit <=? 0 then mret acc
    else
      chunk ← recv (read_some BUF_READER_CAPACITY);
      match chunk with
      | [] => mret acc
      | _ =>
        let available := take (Z.to_nat limit) chunk in
        match line_of available with
        | Some line => mret (acc ++ line)
        | None => read_until fuel (limit - len available) (acc ++ available)
        end
      end
  end.

Inductive ControlFailure := RequestTimedOut | ControlIo (e : io_error) | InvalidUtf8.

(** [handle_control]: [expired] says that the timer of the read ends first.  A
    failure also leaves the state that the daemon is in. *)
Definition handle_control (expired require_auth : bool) (m : M) : sr (TcpStream R W) (ControlFailure * M) M :=
  if expired then sr_fail (RequestTimedOut, m)
  else
    line ← sr_map_err (fun e => (ControlIo e, m))
             (read_until (Z.to_nat (MAX_CONTROL_REQUEST_BYTES + 2)) (MAX_CONTROL_REQUEST_BYTES + 1) []);
    if MAX_CONTROL_REQUEST_BYTES <? len line then
      _ ← sr_map_err (fun e => (ControlIo e, m)) (send (write_all (error_line "bad_request" "control request too large")));
      closed m
    else
      match from_utf8 line with
      | None => sr_fail (InvalidUtf8, m)
      | Some command_line =>
        let '(response, m') := answer require_auth m command_line in
        _ ← sr_map_err (fun e => (ControlIo e, m')) (send (write_all response));
        closed m'
      end.

(** The state after a connection. *)
Definition state_after (v : result (ControlFailure * M) M) : M :=
  match v with Ok m => m | Err (_, m) => m end.

(** ** The listener *)

(** What happens to the listener, in the order of time: a connection, whose
    read may expire; a failed accept; the notification of a shutdown; and what
    other tasks do to the daemon's state meanwhile. *)
Inductive ListenerEvent :=
| Accepted (expired : bool) (stream : TcpStream R W)
| AcceptFailed (e : string)
| ShutdownNotified
| Elsewhere (f : M -> M).

(** A connection that was served: the state it met, and how it ended. *)
Record Connection := MkConnection {
  cn_before : M; cn_expired : bool; cn_stream : TcpStream R W;
  cn_end : result (ControlFailure * M) M * TcpStream R W }.
Definition cn_after (c : Connection) : M := state_after (cn_end c).1.

(** The loop of [run_control_server]; the first value is [None] while it runs. *)
Fixpoint control_loop (require_auth : bool) (events : list ListenerEvent) (m : M) :
    option (result string unit) * list Connection * M :=
  match events with
  | [] => (None, [], m)
  | Accepted expired stream :: events =>
    let c := MkConnection m expired stream (handle_control expired require_auth m stream) in
    let '(v, conns, m) := control_loop require_auth events (cn_after c) in (v, c :: conns, m)
  | AcceptFailed e :: _ => (Some (Err e), [], m)
  | ShutdownNotified :: _ => (Some (Ok tt), [], m)
  | Elsewhere f :: events => control_loop require_auth events (f m)
  end.

(** Whether tokens are asked for is decided once, when the listener starts. *)
Definition run_control_server (bound : result string unit) (events : list ListenerEvent) (m : M) :
    option (result string unit) * list Connection * M :=
  match bound with
  | Err e => (Some (Err e), [], m)
  | Ok _ =>
    let require_auth := match token_value m with Some _ => true | None => false end in
    control_loop require_auth events m
  end.
End server.

(** ** The client *)

Section client.
Context {R W : Type} `{AsyncRead R} `{AsyncWrite W}.

Inductive RequestError :=
| RequestTooLarge (n : Z)
| RequestTimeout (what : string)
| ConnectFailed (e : string)
| RequestIo (e : io_error)
| ResponseUtf8
| ResponseTooLarge.

(** [AsyncReadExt::take(limit).read_to_end]. *)
Fixpoint read_to_end (fuel : nat) (limit : Z) (acc : list byte) : sr (TcpStream R W) io_error (list byte) :=
  match fuel with
  | O => sr_fail IoOther
  | S fuel =>
    if limit <=? 0 then mret acc
    else
      chunk ← recv (read_some limit);
      match chunk with
      | [] => mret acc
      | _ => read_to_end fuel (limit - len chunk) (acc ++ chunk)
      end
  end.

(** [request] once the socket is connected.  [timer] says which waits expire. *)
Definition exchange_request (timer : string -> bool) (command_line : list byte) : sr (TcpStream R W) RequestError string :=
  if timer "timed out writing control request" then sr_fail (RequestTimeout "timed out writing control request")
  else
    _ ← sr_map_err RequestIo (send (write_all command_line));
    _ ← closed tt;
    if timer "timed out reading control response" then sr_fail (RequestTimeout "timed out reading control response")
    else
      response ← sr_map_err RequestIo
                   (read_to_end (Z.to_nat (MAX_CONTROL_RESPONSE_BYTES + 2)) (MAX_CONTROL_RESPONSE_BYTES + 1) []);
      text ← sr_lift (ok_or ResponseUtf8 (from_utf8 response));
      _ ← sr_guard (len response <=? MAX_CONTROL_RESPONSE_BYTES) ResponseTooLarge;
      mret text.

Definition control_request (timer : string -> bool) (connect : result string (TcpStream R W))
    (command_line : list byte) : result RequestError string :=
  _ ← guard_or (len command_line <=? MAX_CONTROL_REQUEST_BYTES) (RequestTooLarge (len command_line));
  _ ← guard_or (negb (timer "timed out connecting to control socket"))
        (RequestTimeout "timed out connecting to control socket");
  stream ← map_err ConnectFailed connect;
  (exchange_request timer command_line stream).1.
End client.

(** ** Reading a line *)

Lemma line_of_app l r : forall x, line_of l = Some x -> line_of (l ++ r) = Some x.
Proof.
  induction l as [|b l IH]; cbn; [done|]. intros x. case_decide; [done|].
  intros (y & Hy & ->)%fmap_Some. by rewrite (IH y Hy).
Qed.

Lemma line_of_none l r : line_of l = None -> line_of (l ++ r) = app l <$> line_of r.
Proof.
  induction l as [|b l IH]; cbn; [by destruct (line_of r)|]. case_decide; [done|].
  intros Hl. assert (line_of l = None) as Hn by (by destruct (line_of l)). rewrite IH by done. by destruct (line_of r).
Qed.

Lemma line_of_line l : x0a ∉ l -> line_of (l ++ [x0a]) = Some (l ++ [x0a]).
Proof.
  intros Hl. assert (line_of l = None) as Hn.
  { induction l as [|b l IH]; [done|]. apply not_elem_of_cons in Hl as [Hb Hl]. cbn.
    rewrite decide_False by done. by rewrite IH. }
  by rewrite line_of_none.
Qed.

Lemma line_of_length l x : line_of l = Some x -> (length x <= length l)%nat.
Proof.
  revert x. induction l as [|b l IH]; cbn; [done|]. intros x. case_decide as Hb.
  - intros [= <-]. cbn. lia.
  - intros (y & Hy & ->)%fmap_Some. cbn. apply IH in Hy. lia.
Qed.

(** A line within the first bytes is the line; one that ends after them is
    longer than they are. *)
Lemma line_of_take n l :
  match line_of (take n l) with
  | Some x => line_of l = Some x
  | None => forall x, line_of l = Some x -> (n < length x)%nat
  end.
Proof.
  destruct (line_of (take n l)) as [x|] eqn:E; rewrite <-(take_drop n l).
  - by apply line_of_app.
  - rewrite (line_of_none _ _ E). intros x (y & Hy & ->)%fmap_Some. rewrite length_app, length_take.
    assert (y <> []) as Hne by (intros ->; destruct (drop n l) as [|b r]; cbn in Hy; [done|]; case_decide; [done|];
      by destruct (line_of r)).
    assert (drop n l <> []) as Hd by (by intros Hd; rewrite Hd in Hy).
    assert (n < length l)%nat by (destruct (decide (n < length l)%nat); [done|]; destruct Hd; apply drop_ge; lia).
    destruct y; [done|]. cbn. lia.
Qed.

(** The first line of an input, up to its line feed or to the end. *)
Definition first_line (l : list byte) : list byte := default l (line_of l).

Section reading.
Context {R W : Type} `{AsyncReadLaws R} `{AsyncWriteLaws W}.

Lemma recv_some_spec n (s : TcpStream R W) :
  0 < n ->
  (rest (inbound s) = [] ->
     (recv (read_some n) s).1 = match fin (inbound s) with AtEof => Ok [] | AtFailure => Err IoOther end)
  /\ (rest (inbound s) <> [] -> exists chunk s', recv (read_some n) s = (Ok chunk, s')
        /\ chunk <> [] /\ len chunk <= n /\ rest (inbound s) = chunk ++ rest (inbound s')
        /\ fin (inbound s') = fin (inbound s) /\ outbound s' = outbound s)
  /\ outbound (recv (read_some n) s).2 = outbound s.
Proof.
  intros Hn. unfold recv. split_and!.
  - intros Hr. destruct (read_some_end n (inbound s) Hn Hr) as [r' ->]. done.
  - intros Hr. destruct (read_some_ok n (inbound s) Hn Hr) as (k & r' & Hk & Hkn & Hkl & -> & Hr' & Hf).
    eexists _, _. split; [done|]. cbn [inbound outbound]. rewrite Hr', take_drop. split_and!; try done.
    + intros E. apply (f_equal length) in E. rewrite length_take in E. cbn in E. lia.
    + rewrite length_take. lia.
  - by destruct (read_some n (inbound s)).
Qed.

(** What [read_until] returns depends on the bytes only. *)
Lemma read_until_spec fuel : forall limit acc (s : TcpStream R W),
  0 <= limit < Z.of_nat fuel ->
  let l := take (Z.to_nat limit) (rest (inbound s)) in
  (read_until fuel limit acc s).1
  = match line_of l with
    | Some line => Ok (acc ++ line)
    | None =>
      if limit <=? len (rest (inbound s)) then Ok (acc ++ l)
      else match fin (inbound s) with AtEof => Ok (acc ++ l) | AtFailure => Err IoOther end
    end
  /\ outbound (read_until fuel limit acc s).2 = outbound s.
Proof.
  induction fuel as [|fuel IH]; intros limit acc s Hl; [lia|]. intros l. cbn [read_until].
  destruct (Z.leb_spec limit 0).
  { assert (limit = 0) as -> by lia. subst l. cbn. rewrite app_nil_r. by rewrite (proj2 (Z.leb_le _ _)) by lia. }
  destruct (recv_some_spec BUF_READER_CAPACITY s) as (Hend & Hmore & Hout); [done|].
  destruct (decide (rest (inbound s) = [])) as [Hr|Hr].
  { specialize (Hend Hr). destruct (recv (read_some BUF_READER_CAPACITY) s) as [v s'] eqn:E. cbn in Hend, Hout. subst v l.
    rewrite Hr. rewrite take_nil. cbn [line_of]. rewrite (proj2 (Z.leb_gt _ _)) by (cbn; lia). rewrite app_nil_r.
    destruct (fin (inbound s)); [rewrite (sr_bind_Ok _ _ _ _ _ E)|rewrite (sr_bind_Err _ _ _ _ _ E)]; done. }
  destruct (Hmore Hr) as (chunk & s' & E & Hne & _ & Hcut & Hf & Ho). rewrite (sr_bind_Ok _ _ _ _ _ E).
  destruct chunk as [|b chunk]; [done|]. set (c := b :: chunk) in *. set (available := take (Z.to_nat limit) c).
  assert (Hl' : l = available ++ take (Z.to_nat (limit - len available)) (rest (inbound s'))).
  { subst l available. rewrite Hcut, take_app. f_equal. f_equal. rewrite length_take. lia. }
  assert (0 < len available <= limit) as Ha by (subst available c; rewrite length_take; cbn [length]; lia).
  destruct (line_of available) as [line|] eqn:Eline.
  { rewrite Hl', (line_of_app _ _ _ Eline). done. }
  destruct (IH (limit - len available) (acc ++ available) s') as [Hv Ho']; [lia|].
  rewrite Hv, Ho', Ho. split; [|done]. rewrite Hl', (line_of_none _ _ Eline), Hf.
  assert ((limit - len available <=? len (rest (inbound s'))) = (limit <=? len (rest (inbound s)))) as ->.
  { rewrite Hcut, length_app. subst available. rewrite length_take.
    destruct (Z.leb_spec limit (Z.of_nat (length c + length (rest (inbound s'))))); [apply Z.leb_le|apply Z.leb_gt]; lia. }
  destruct (line_of (take _ _)); cbn; by rewrite ?app_assoc.
Qed.

(** The request that [handle_control] reads, when it is not too long, is the
    first line of the input, whose end has to be seen. *)
Lemma read_first_line n (s : TcpStream R W) :
  0 < n -> let read := (read_until (Z.to_nat (n + 2)) (n + 1) [] s).1 in
  (forall line, read = Ok line -> len line <= n -> line = first_line (rest (inbound s)))
  /\ (fin (inbound s) = AtEof \/ is_Some (line_of (rest (inbound s))) -> len (first_line (rest (inbound s))) <= n ->
      read = Ok (first_line (rest (inbound s)))).
Proof.
  intros Hn read. destruct (read_until_spec (Z.to_nat (n + 2)) (n + 1) [] s) as [Hv _]; [lia|]. subst read. rewrite Hv.
  clear Hv. set (l := rest (inbound s)). pose proof (line_of_take (Z.to_nat (n + 1)) l) as Ht. unfold first_line.
  destruct (line_of (take (Z.to_nat (n + 1)) l)) as [x|]; [rewrite Ht; split; [by intros ? [= <-]|done]|].
  assert (Hx : forall x, line_of l = Some x -> n < len x) by (intros x Hx; apply Ht in Hx; lia).
  destruct (Z.leb_spec (n + 1) (len l)) as [Hlong|Hshort].
  - split; [intros ? [= <-]; cbn [app]; rewrite length_take; lia|]. intros _. destruct (line_of l) as [x|]; cbn; [|lia].
    specialize (Hx x eq_refl). lia.
  - assert (line_of l = None) as Hnone.
    { destruct (line_of l) as [x|] eqn:El; [|done]. specialize (Hx x eq_refl).
      apply line_of_length in El. lia. }
    rewrite Hnone. cbn [default app]. rewrite (take_ge l) by lia. destruct (fin (inbound s)).
    + split; [by intros ? [= <-]|done].
    + split; [done|]. intros [|[? ?]]; done.
Qed.
End reading.

(** ** The text of a request *)

Lemma encode_snoc cs c : Utf8.encode (cs ++ [c]) = Utf8.encode cs ++ Utf8.encode_char c.
Proof. unfold Utf8.encode. rewrite fmap_app, concat_app. cbn. by rewrite app_nil_r. Qed.

Lemma encode_char_nonempty c : Utf8.encode_char c <> [].
Proof. unfold Utf8.encode_char. by repeat case_match. Qed.

(** The characters of an object's text stand between braces. *)
Lemma braced_chars inner cs :
  Utf8.decode (x7b :: inner ++ [x7d]) = Some cs -> head cs = Some 123 /\ last cs = Some 125.
Proof.
  intros Hd. pose proof (Utf8.encode_decode _ _ Hd) as He. pose proof (Utf8.decode_range _ _ Hd) as Hr.
  assert (Hin : forall c b, c ∈ cs -> b ∈ Utf8.encode_char c -> byte_val b < 128 -> c = byte_val b).
  { intros c b Hc Hb Hlt. rewrite Forall_forall in Hr. destruct (Utf8.encode_char_bytes c b (Hr c Hc) Hb); lia. }
  split.
  - destruct cs as [|c cs]; [done|]. unfold Utf8.encode in He. cbn [fmap list_fmap concat] in He.
    destruct (Utf8.encode_char c) as [|b bs] eqn:Ec; [by apply encode_char_nonempty in Ec|].
    injection He as -> _. cbn. f_equal. apply (Hin c x7b); [set_solver|rewrite Ec; set_solver|done].
  - destruct cs as [|c cs _] using rev_ind; [done|]. rewrite encode_snoc in He. rewrite last_snoc. f_equal.
    destruct (Utf8.encode_char c) as [|b bs _] eqn:Ec using rev_ind; [by apply encode_char_nonempty in Ec|].
    rewrite app_assoc, app_comm_cons in He. apply app_inj_tail in He as [_ ->].
    apply (Hin c x7d); [set_solver|rewrite Ec; set_solver|done].
Qed.

Lemma trim_braced_line inner :
  Utf8.valid (x7b :: inner ++ [x7d]) = true ->
  from_utf8 (x7b :: inner ++ [x7d; x0a]) = Some (str_of_bytes (x7b :: inner ++ [x7d; x0a]))
  /\ trim (str_of_bytes (x7b :: inner ++ [x7d; x0a])) = str_of_bytes (x7b :: inner ++ [x7d]).
Proof.
  intros Hv. destruct (Utf8.decode (x7b :: inner ++ [x7d])) as [cs|] eqn:Hd;
    [|by unfold Utf8.valid in Hv; rewrite Hd in Hv].
  destruct (braced_chars _ _ Hd) as [Hh Hlast]. pose proof (decode_scalar _ _ Hd) as Hs.
  pose proof (Utf8.encode_decode _ _ Hd) as He.
  assert (Henc : Utf8.encode (cs ++ [10]) = x7b :: inner ++ [x7d; x0a]).
  { rewrite encode_snoc, He. cbn. by rewrite <-app_assoc. }
  assert (Hs' : Forall scalar (cs ++ [10])).
  { apply Forall_app. split; [done|]. constructor; [|done]. unfold scalar. lia. }
  destruct (chars_string_of_chars _ Hs') as [Hc Hok]. unfold string_of_chars in Hc, Hok. rewrite Henc in Hc, Hok.
  split.
  - unfold from_utf8. unfold str_ok in Hok. rewrite str_bytes_str_of_bytes in Hok. by rewrite Hok.
  - unfold trim. rewrite Hc. unfold string_of_chars. f_equal. rewrite <-He. f_equal.
    destruct cs as [|c cs]; [done|]. injection Hh as ->. unfold trim_by.
    rewrite (drop_while_done _ ((123 :: cs) ++ [10])) by (by intros ? [= <-]). rewrite reverse_app.
    change (reverse [10] ++ reverse (123 :: cs)) with (10 :: reverse (123 :: cs)). cbn [drop_while].
    change (is_whitespace 10) with true. cbn match. rewrite drop_while_done; [apply reverse_involutive|].
    intros x. rewrite head_reverse, Hlast. by intros [= <-].
Qed.

Section texts.
Context `{RequestArgs} `{!RequestWire} `{!WireLaws ProxyArgs} `{!WireLaws ReverseTaskArgs} `{!WireLaws RouteArgs}.
Context `{!WireLaws PeerBootstrapArgs} `{!WireLaws SessionSpec} `{SerdeJsonLaws} `{!SerdeJsonLine}.

(** A request that was written is parsed as itself, up to its version. *)
Lemma parse_line r :
  request_ok r ->
  exists text, line_of (to_line r) = Some (to_line r) /\ from_utf8 (to_line r) = Some text
               /\ parse_request text = (_ ← validate_compatible r; Ok r).
Proof.
  intros Hok. destruct (request_line r Hok) as (inner & Hl & Hnl & Hutf & Hparse).
  destruct (trim_braced_line inner Hutf) as [Hfrom Htrim]. rewrite Hl. eexists. split; [|split; [exact Hfrom|]].
  - change [x7d; x0a] with ([x7d] ++ [x0a]). rewrite app_assoc, app_comm_cons. by apply line_of_line.
  - unfold parse_request. rewrite Htrim, str_bytes_str_of_bytes, Hparse. cbn [mbind option_bind].
    rewrite request_back by done.
    assert (starts_with (str_of_bytes (x7b :: inner ++ [x7d])) "{" = true) as ->
      by (apply prefix_spec; by exists (str_of_bytes (inner ++ [x7d]))).
    done.
Qed.
End texts.

Lemma foldl_lor (l : list (byte * byte)) : forall acc, 0 <= acc ->
  foldl (fun acc lr => Z.lor acc (Z.lxor (byte_val lr.1) (byte_val lr.2))) acc l = 0
  <-> acc = 0 /\ Forall (fun lr => lr.1 = lr.2) l.
Proof.
  induction l as [|[a b] l IH]; intros acc Hacc; cbn [foldl fst snd]; [naive_solver|].
  assert (Hx : 0 <= Z.lxor (byte_val a) (byte_val b)).
  { apply Z.lxor_nonneg. pose proof (byte_val_range a). pose proof (byte_val_range b). lia. }
  rewrite IH by (by apply Z.lor_nonneg). rewrite Z.lor_eq_0_iff, Z.lxor_eq_0_iff, Forall_cons. cbn.
  split; [intros [[-> Hb] Hf]|intros (-> & -> & Hf)]; [|done]. split_and!; [done|by apply byte_val_inj|done].
Qed.

(** The comparison without early exit is equality. *)
Lemma token_matches_spec provided expected : token_matches provided expected = true <-> provided = expected.
Proof.
  unfold token_matches, str_len. split.
  - destruct (Z.eqb_spec (len (str_bytes provided)) (len (str_bytes expected))) as [Hl|]; [|done]. cbn [negb].
    intros Hz%Z.eqb_eq%foldl_lor; [|done]. destruct Hz as [_ Hf].
    rewrite <-(str_of_bytes_str_bytes provided), <-(str_of_bytes_str_bytes expected). f_equal.
    apply Nat2Z.inj in Hl. revert Hl Hf. generalize (str_bytes provided) (str_bytes expected). clear.
    intros l k. revert k. induction l as [|a l IH]; intros [|b k] Hl Hf; try done. cbn in Hf.
    apply Forall_cons in Hf as [Hab Hf]. cbn in Hab, Hl. f_equal; [done|]. apply IH; [lia|done].
  - intros ->. rewrite Z.eqb_refl. cbn [negb]. apply Z.eqb_eq. apply foldl_lor; [done|]. split; [done|].
    generalize (str_bytes expected). intros l. induction l; cbn; auto.
Qed.

(** ** The command line's requests *)

Section commands.
Context `{RequestArgs}.
(** The arguments of the two commands that start a route, with the conversions
    of [args.rs] that copy them into the arguments of a proxy. *)
Context {NodeForwardArgs NodeReverseArgs : Type}.
Context (nf_id : NodeForwardArgs -> option string) (nf_listen : NodeForwardArgs -> SocketAddr)
  (nf_target : NodeForwardArgs -> string) (nf_volatile : NodeForwardArgs -> bool)
  (proxy_args_from_node_forward : NodeForwardArgs -> ProxyArgs).
Context (nv_id : NodeReverseArgs -> option string) (nv_remote_listen : NodeReverseArgs -> SocketAddr)
  (nv_target : NodeReverseArgs -> string) (nv_volatile : NodeReverseArgs -> bool)
  (reverse_args_from_node_reverse : NodeReverseArgs -> ReverseTaskArgs).

Inductive NodeControlScope := ScopeUser | ScopeSystem | ScopeSession.
Definition scope_as_str (s : NodeControlScope) : string :=
  match s with ScopeUser => "user" | ScopeSystem => "system" | ScopeSession => "session" end.

(** [NodeControlCommand] but for [Send], which sends a text of its own. *)
Inductive NodeControlCommand :=
| NcStatus | NcDescriptor | NcShutdown | NcNodes | NcJobs
| NcNodeEnsure (scope : NodeControlScope)
| NcNodeStart (id : string) | NcNodeStop (id : string) | NcNodeRestart (id : string)
| NcConnect (profile : string) | NcDisconnect (profile : string)
| NcForward (args : NodeForwardArgs) | NcReverse (args : NodeReverseArgs) | NcRoutePlan (args : RouteArgs)
| NcStopRoute (id : string) | NcRestartRoute (id : string)
| NcRoutes | NcPeers | NcTokenRotate
| NcPeerBootstrap (args : PeerBootstrapArgs) | NcPeerEnsure (args : PeerBootstrapArgs)
| NcPeerUpdate (args : PeerBootstrapArgs) | NcPeerRefresh (args : PeerBootstrapArgs)
| NcPeerDiff (args : PeerBootstrapArgs) | NcPeerReconcile (args : PeerBootstrapArgs)
| NcPeerCheckVersion (args : PeerBootstrapArgs) | NcPeerRotateToken (args : PeerBootstrapArgs)
| NcPeerForget (alias : string) | NcLinks.

(** The request that [control_client::run] builds. *)
Definition client_request (auth_token : option string) (c : NodeControlCommand) : NodeRequest :=
  with_auth_token auth_token
    match c with
    | NcStatus => command "status"
    | NcDescriptor => command "descriptor"
    | NcShutdown => command "shutdown"
    | NcNodes => command "nodes"
    | NcJobs => command "jobs"
    | NcNodeEnsure scope => node_ensure (scope_as_str scope)
    | NcNodeStart id => node_start id
    | NcNodeStop id => node_stop id
    | NcNodeRestart id => node_restart id
    | NcLinks => command "links"
    | NcConnect profile => connect profile
    | NcDisconnect profile => disconnect profile
    | NcForward args =>
      route_start_forward
        (match nf_id args with
         | Some id => id
         | None => "forward:" +:+ addr_text (nf_listen args) +:+ "->" +:+ nf_target args
         end) (negb (nf_volatile args)) (proxy_args_from_node_forward args)
    | NcReverse args =>
      route_start_reverse
        (match nv_id args with
         | Some id => id
         | None => "reverse:" +:+ addr_text (nv_remote_listen args) +:+ "<-" +:+ nv_target args
         end) (negb (nv_volatile args)) (reverse_args_from_node_reverse args) None
    | NcRoutePlan args => route_plan args
    | NcStopRoute id => route_stop id
    | NcRestartRoute id => route_restart id
    | NcRoutes => command "route_list"
    | NcPeers => command "peer_list"
    | NcTokenRotate => command "token_rotate"
    | NcPeerBootstrap args => peer_bootstrap args
    | NcPeerEnsure args => peer_ensure args
    | NcPeerUpdate args => peer_update args
    | NcPeerRefresh args => peer_refresh args
    | NcPeerDiff args => peer_diff args
    | NcPeerReconcile args => peer_reconcile args
    | NcPeerCheckVersion args => peer_check_version args
    | NcPeerRotateToken args => peer_rotate_token args
    | NcPeerForget alias => peer_forget alias
    end.

(** [cli_token.or(config.daemon.token)]. *)
Definition client_token (cli_token daemon_token : option string) : option string :=
  match cli_token with Some t => Some t | None => daemon_token end.

(** The method each command is for. *)
Definition intended_call (c : NodeControlCommand) (r : NodeRequest) : Call.t :=
  match c with
  | NcStatus => Call.StatusJson
  | NcDescriptor => Call.DescriptorJson
  | NcShutdown => Call.Shutdown
  | NcNodes => Call.NodesJson
  | NcJobs => Call.JobsJson
  | NcNodeEnsure _ => Call.NodeEnsure r
  | NcNodeStart _ => Call.NodeStart r
  | NcNodeStop _ => Call.NodeStop r
  | NcNodeRestart _ => Call.NodeRestart r
  | NcLinks => Call.LinksJson
  | NcConnect profile => Call.ConnectProfile profile
  | NcDisconnect profile => Call.DisconnectProfile profile
  | NcForward _ | NcReverse _ => Call.StartRoute r
  | NcRoutePlan _ => Call.HandleRoutePlan r
  | NcStopRoute _ => Call.StopRoute r
  | NcRestartRoute _ => Call.RestartRoute r
  | NcRoutes => Call.RouteListJson
  | NcPeers => Call.PeersJson
  | NcTokenRotate => Call.RotateToken
  | NcPeerBootstrap _ => Call.BootstrapPeer r
  | NcPeerEnsure _ => Call.EnsurePeer r
  | NcPeerUpdate _ => Call.UpdatePeer r
  | NcPeerRefresh _ => Call.RefreshPeer r
  | NcPeerDiff _ => Call.DiffPeer r
  | NcPeerReconcile _ => Call.ReconcilePeer r
  | NcPeerCheckVersion _ => Call.CheckPeerVersion r
  | NcPeerRotateToken _ => Call.RotatePeerToken r
  | NcPeerForget _ => Call.ForgetPeer r
  end.

Lemma client_request_token token c :
  rq_auth_token (client_request token c) = token
  /\ rq_api_version (client_request token c) = Some NODE_CONTROL_VERSION.
Proof. destruct token, c; done. Qed.

Definition intended_command (c : NodeControlCommand) : Cmd.t :=
  match c with
  | NcStatus => Cmd.Status | NcDescriptor => Cmd.Descriptor | NcShutdown => Cmd.Shutdown | NcNodes => Cmd.Nodes
  | NcJobs => Cmd.Jobs | NcNodeEnsure _ => Cmd.NodeEnsure | NcNodeStart _ => Cmd.NodeStart | NcNodeStop _ => Cmd.NodeStop
  | NcNodeRestart _ => Cmd.NodeRestart | NcLinks => Cmd.Links | NcConnect _ => Cmd.Connect
  | NcDisconnect _ => Cmd.Disconnect | NcForward _ | NcReverse _ => Cmd.RouteStart | NcRoutePlan _ => Cmd.RoutePlan
  | NcStopRoute _ => Cmd.RouteStop | NcRestartRoute _ => Cmd.RouteRestart | NcRoutes => Cmd.RouteList
  | NcPeers => Cmd.PeerList | NcTokenRotate => Cmd.TokenRotate | NcPeerBootstrap _ => Cmd.PeerBootstrap
  | NcPeerEnsure _ => Cmd.PeerEnsure | NcPeerUpdate _ => Cmd.PeerUpdate | NcPeerRefresh _ => Cmd.PeerRefresh
  | NcPeerDiff _ => Cmd.PeerDiff | NcPeerReconcile _ => Cmd.PeerReconcile
  | NcPeerCheckVersion _ => Cmd.PeerCheckVersion | NcPeerRotateToken _ => Cmd.PeerRotateToken
  | NcPeerForget _ => Cmd.PeerForget
  end.

Lemma client_request_command token c : command_kind (client_request token c) = intended_command c.
Proof.
  assert (rq_cmd (client_request token c) = rq_cmd (client_request None c)) as Hc by by destruct token.
  unfold command_kind. rewrite Hc. destruct c; by vm_compute.
Qed.

Lemma client_request_profile token c profile :
  c = NcConnect profile \/ c = NcDisconnect profile -> rq_profile (client_request token c) = Some profile.
Proof. intros [-> | ->]; by destruct token. Qed.

(** What a command is answered with: the text its method gives, for the two
    commands on profiles a response with the message, or the method's error. *)
Definition command_reply `{SerdePretty} (c : NodeControlCommand) (v : result string string) : list byte :=
  match v, c with
  | Err e, _ => error_line "request_failed" e
  | Ok message, (NcConnect _ | NcDisconnect _) => response_text (node_ok_message message)
  | Ok text, _ => str_bytes text
  end.

Lemma client_request_dispatched {M} `{SerdePretty} (call : Call.t -> M -> result string string * M) debug_text token c m :
  let r := client_request token c in let v := call (intended_call c r) m in
  dispatch_request call debug_text m r = (match v.1 with Ok text => Ok (command_reply c (Ok text)) | Err e => Err e end, v.2).
Proof.
  intros r v. unfold dispatch_request, respond, respond_profile.
  pose proof (client_request_command token c) as Hk. pose proof (client_request_profile token c) as Hp. fold r in Hk, Hp.
  rewrite Hk. clear Hk. subst v. clearbody r.
  destruct c; cbn [intended_command intended_call]; rewrite ?(Hp _ (or_introl eq_refl)), ?(Hp _ (or_intror eq_refl));
    match goal with |- context [call ?x m] => by destruct (call x m) as [[]] end.
Qed.
End commands.

(** ** Both ends *)

Lemma max_request_range : 0 < MAX_CONTROL_REQUEST_BYTES.
Proof. done. Qed.
Lemma max_response_range : 0 < MAX_CONTROL_RESPONSE_BYTES.
Proof. done. Qed.
#[local] Opaque MAX_CONTROL_REQUEST_BYTES MAX_CONTROL_RESPONSE_BYTES.

Section ends.
Context {R W : Type} `{AsyncReadLaws R} `{AsyncWriteLaws W}.

Lemma closed_spec {E A} (a : A) (s : TcpStream R W) :
  live (outbound s) -> exists s', closed (E := E) a s = (Ok a, s') /\ inbound s' = inbound s
                                  /\ written (outbound s') = written (outbound s).
Proof.
  intros Hl. unfold closed, send. destruct (shutdown_live (outbound s) Hl) as (w' & -> & Hw). by eexists.
Qed.

Lemma send_all_spec {E} (g : io_error -> E) bs (s : TcpStream R W) :
  live (outbound s) -> exists s', sr_map_err g (send (write_all bs)) s = (Ok tt, s') /\ inbound s' = inbound s
                                  /\ written (outbound s') = written (outbound s) ++ bs /\ live (outbound s').
Proof.
  intros Hl. unfold sr_map_err, send. destruct (write_all_live bs (outbound s) Hl) as (w' & -> & Hw & Hl'). by eexists.
Qed.

Lemma read_to_end_spec fuel : forall limit acc (s : TcpStream R W),
  len (rest (inbound s)) < limit -> limit <= Z.of_nat fuel -> fin (inbound s) = AtEof ->
  (read_to_end fuel limit acc s).1 = Ok (acc ++ rest (inbound s))
  /\ outbound (read_to_end fuel limit acc s).2 = outbound s.
Proof.
  induction fuel as [|fuel IH]; intros limit acc s Hl Hf Hfin; [lia|]. cbn [read_to_end].
  rewrite (proj2 (Z.leb_gt _ _)) by lia.
  destruct (recv_some_spec limit s) as (Hend & Hmore & Hout); [lia|].
  destruct (decide (rest (inbound s) = [])) as [Hr|Hr].
  { specialize (Hend Hr). destruct (recv (read_some limit) s) as [v s'] eqn:E. cbn in Hend, Hout. subst v.
    rewrite Hfin in *. rewrite (sr_bind_Ok _ _ _ _ _ E), Hr, app_nil_r. done. }
  destruct (Hmore Hr) as (chunk & s' & E & Hne & Hn & Hcut & Hf' & Ho). rewrite (sr_bind_Ok _ _ _ _ _ E).
  destruct chunk as [|b chunk]; [done|]. rewrite Hcut, length_app in Hl.
  destruct (IH (limit - len (b :: chunk)) (acc ++ b :: chunk) s') as [Hv Ho']; [lia|cbn [length]; lia|congruence|].
  by rewrite Hv, Ho', Ho, Hcut, <-app_assoc.
Qed.

(** The client's side: what it writes, and that it returns what it is sent. *)
Lemma exchange_request_spec line response (s : TcpStream R W) :
  live (outbound s) -> rest (inbound s) = response -> fin (inbound s) = AtEof ->
  Utf8.valid response = true -> len response <= MAX_CONTROL_RESPONSE_BYTES ->
  exists s', exchange_request (fun _ => false) line s = (Ok (str_of_bytes response), s')
             /\ written (outbound s') = written (outbound s) ++ line.
Proof.
  intros Hl Hr Hf Hv Hn. pose proof max_response_range. unfold exchange_request.
  destruct (send_all_spec RequestIo line s Hl) as (s1 & E1 & Hi1 & Hw1 & Hl1). rewrite (sr_bind_Ok _ _ _ _ _ E1).
  destruct (closed_spec (E := RequestError) tt s1 Hl1) as (s2 & E2 & Hi2 & Hw2). rewrite (sr_bind_Ok _ _ _ _ _ E2).
  destruct (read_to_end_spec (Z.to_nat (MAX_CONTROL_RESPONSE_BYTES + 2)) (MAX_CONTROL_RESPONSE_BYTES + 1) [] s2)
    as [Hv3 Ho3]; [rewrite Hi2, Hi1, Hr; lia|lia|congruence|].
  destruct (read_to_end _ _ [] s2) as [v s3] eqn:E3. cbn [fst snd] in Hv3, Ho3. subst v.
  rewrite Hi2, Hi1, Hr in E3. cbn [app] in E3. exists s3. split; [|by rewrite Ho3, Hw2, Hw1].
  erewrite sr_bind_Ok; [|unfold sr_map_err; by rewrite E3]. unfold from_utf8. rewrite Hv.
  erewrite sr_bind_Ok; [|done]. erewrite sr_bind_Ok; [done|]. unfold sr_guard.
  by rewrite (proj2 (Z.leb_le _ _)) by lia.
Qed.
End ends.

Section both_ends.
Context {R W : Type} `{AsyncReadLaws R} `{AsyncWriteLaws W}.
Context `{RequestArgs} `{!RequestWire} `{!WireLaws ProxyArgs} `{!WireLaws ReverseTaskArgs} `{!WireLaws RouteArgs}.
Context `{!WireLaws PeerBootstrapArgs} `{!WireLaws SessionSpec} `{SerdeJsonLaws} `{!SerdeJsonLine} `{SerdePretty}.
Context {M : Type} (token_value : M -> option string) (call : Call.t -> M -> result string string * M).
Context (debug_text : string -> string).
Abbreviation handle := (handle_control (R := R) (W := W) token_value call debug_text).
Abbreviation dispatch := (dispatch_request call debug_text).

(** A request that is read within the limits is answered. *)
Lemma handle_control_text require_auth m (s : TcpStream R W) text :
  let line := first_line (rest (inbound s)) in
  fin (inbound s) = AtEof \/ is_Some (line_of (rest (inbound s))) ->
  len line <= MAX_CONTROL_REQUEST_BYTES -> from_utf8 line = Some text ->
  let a := answer token_value call debug_text require_auth m text in
  state_after (handle false require_auth m s).1 = a.2
  /\ (live (outbound s) -> exists s', handle false require_auth m s = (Ok a.2, s')
                                     /\ written (outbound s') = written (outbound s) ++ a.1).
Proof.
  intros line Hend Hn Hutf a. unfold handle_control.
  destruct (read_first_line MAX_CONTROL_REQUEST_BYTES s max_request_range) as [_ Hv]. specialize (Hv Hend Hn).
  destruct (read_until_spec (Z.to_nat (MAX_CONTROL_REQUEST_BYTES + 2)) (MAX_CONTROL_REQUEST_BYTES + 1) [] s)
    as [_ Ho]; [pose proof max_request_range; lia|].
  destruct (read_until _ _ [] s) as [v s1] eqn:E1. cbn [fst snd] in Hv, Ho. subst v.
  erewrite sr_bind_Ok; [|unfold sr_map_err; by rewrite E1].
  rewrite (proj2 (Z.ltb_ge _ _)) by exact Hn. fold line. rewrite Hutf. fold a. destruct a as [response m']. split.
  - unfold mbind, sr_bind, sr_map_err, closed. by destruct (send (write_all response) s1) as [[[]|e] s2].
  - intros Hl. rewrite <-Ho in Hl.
    destruct (send_all_spec (fun e => (ControlIo e, m')) response s1 Hl) as (s2 & E2 & _ & Hw2 & Hl2).
    rewrite (sr_bind_Ok _ _ _ _ _ E2). destruct (closed_spec (E := ControlFailure * M) m' s2 Hl2) as (s3 & E3 & _ & Hw3).
    rewrite E3. exists s3. split; [done|]. by rewrite Hw3, Hw2, Ho.
Qed.

(** The state changes only as the request in the first line makes it. *)
Lemma handle_control_state expired require_auth m (s : TcpStream R W) :
  let line := first_line (rest (inbound s)) in let m' := state_after (handle expired require_auth m s).1 in
  m' = m \/ exists text r, len line <= MAX_CONTROL_REQUEST_BYTES /\ from_utf8 line = Some text
             /\ parse_request text = Ok r /\ authenticate_request token_value m r require_auth = Ok tt /\ m' = (dispatch m r).2.
Proof.
  intros line m'. subst m'. unfold handle_control. destruct expired; [by left|].
  destruct (read_first_line MAX_CONTROL_REQUEST_BYTES s max_request_range) as [Hv _].
  destruct (read_until _ _ [] s) as [[x|e] s1] eqn:E1.
  2: { erewrite sr_bind_Err; [|unfold sr_map_err; by rewrite E1]. by left. }
  erewrite sr_bind_Ok; [|unfold sr_map_err; by rewrite E1]. specialize (Hv x eq_refl).
  destruct (Z.ltb_spec MAX_CONTROL_REQUEST_BYTES (len x)) as [Hlong|Hn].
  { left. unfold mbind, sr_bind, sr_map_err, closed. by destruct (send (write_all _) s1) as [[[]|e] s2]. }
  specialize (Hv Hn). fold line in Hv. subst x. destruct (from_utf8 line) as [text|] eqn:Eu; [|by left].
  assert (Hs : forall p : list byte * M,
    state_after ((let '(response, m') := p in
      sr_map_err (fun e => (ControlIo e, m')) (send (write_all response)) ≫= fun _ => closed m') s1).1 = p.2).
  { intros [response m']. unfold mbind, sr_bind, sr_map_err, closed. by destruct (send (write_all response) s1) as [[[]|e] s2]. }
  rewrite Hs. unfold answer. destruct (parse_request text) as [r|e] eqn:Ep; [|by left].
  destruct (authenticate_request token_value m r require_auth) as [[]|e] eqn:Ea; [|by left].
  right. exists text, r. split_and!; try done. by destruct (dispatch m r) as [[]].
Qed.

Lemma authenticate_token m r token :
  token_value m = Some token -> authenticate_request token_value m r true = Ok tt -> rq_auth_token r = Some token.
Proof.
  unfold authenticate_request. intros ->. cbn [negb]. destruct (rq_auth_token r) as [provided|]; cbn; [|done].
  destruct (token_matches provided token) eqn:Em; [|done]. by apply token_matches_spec in Em as ->.
Qed.

Lemma loop_connections require_auth events : forall m,
  Forall (fun c => cn_end c = handle (cn_expired c) require_auth (cn_before c) (cn_stream c))
    (control_loop (R := R) (W := W) token_value call debug_text require_auth events m).1.2.
Proof.
  induction events as [|[expired stream|e| |f] events IH]; intros m; cbn; try done.
  set (c := MkConnection m expired stream _). specialize (IH (cn_after c)).
  destruct (control_loop _ _ _ _ events (cn_after c)) as [[v conns] m']. by constructor.
Qed.

Lemma server_connections bound events m c :
  c ∈ (run_control_server (R := R) (W := W) token_value call debug_text bound events m).1.2 ->
  cn_end c = handle (cn_expired c) (match token_value m with Some _ => true | None => false end) (cn_before c) (cn_stream c).
Proof.
  unfold run_control_server. destruct bound; [|by intros ?%elem_of_nil]. intros Hc.
  pose proof (loop_connections (match token_value m with Some _ => true | None => false end) events m) as Hf.
  rewrite Forall_forall in Hf. by apply Hf.
Qed.

Context {NodeForwardArgs NodeReverseArgs : Type}.
Context (nf_id : NodeForwardArgs -> option string) (nf_listen : NodeForwardArgs -> SocketAddr)
  (nf_target : NodeForwardArgs -> string) (nf_volatile : NodeForwardArgs -> bool)
  (proxy_args_from_node_forward : NodeForwardArgs -> ProxyArgs).
Context (nv_id : NodeReverseArgs -> option string) (nv_remote_listen : NodeReverseArgs -> SocketAddr)
  (nv_target : NodeReverseArgs -> string) (nv_volatile : NodeReverseArgs -> bool)
  (reverse_args_from_node_reverse : NodeReverseArgs -> ReverseTaskArgs).
Abbreviation sent := (client_request nf_id nf_listen nf_target nf_volatile proxy_args_from_node_forward
                        nv_id nv_remote_listen nv_target nv_volatile reverse_args_from_node_reverse).

Lemma answer_client require_auth m token c text :
  let r := sent token c in let v := call (intended_call c r) m in
  parse_request text = (_ ← validate_compatible r; Ok r) ->
  require_auth = false \/ token_value m = None \/ token_value m = token ->
  answer token_value call debug_text require_auth m text = (command_reply c v.1, v.2).
Proof.
  intros r v Hp Hauth.
  destruct (client_request_token nf_id nf_listen nf_target nf_volatile proxy_args_from_node_forward
              nv_id nv_remote_listen nv_target nv_volatile reverse_args_from_node_reverse token c) as [Ht Hv].
  fold r in Ht, Hv. unfold answer. rewrite Hp. unfold validate_compatible. rewrite Hv. change (_ <? _) with false. cbn.
  assert (authenticate_request token_value m r require_auth = Ok tt) as ->.
  { unfold authenticate_request. rewrite Ht. destruct require_auth; [|done]. destruct Hauth as [|[-> | ->]]; [done|done|].
    destruct token as [t|]; [|done]. cbn. by rewrite (proj2 (token_matches_spec t t) eq_refl). }
  rewrite (client_request_dispatched nf_id nf_listen nf_target nf_volatile proxy_args_from_node_forward
    nv_id nv_remote_listen nv_target nv_volatile reverse_args_from_node_reverse call debug_text token c m).
  fold r v. by destruct v as [[]].
Qed.

(** C9. A command of the command line is carried out by the daemon: over the
    control socket, however the bytes arrive, the daemon runs exactly the
    method the command is for, on the request the client built, when the token
    is the daemon's or none is required.  It answers with the text the method
    gave (for connecting and disconnecting a profile, with a response that
    carries the method's message), or with the method's error, and closes; the
    client returns exactly this answer, when it is UTF-8 of at most 16 MiB. *)
Theorem control_request_served require_auth m token c :
  let r := sent token c in
  let v := call (intended_call c r) m in
  request_ok r -> len (to_line r) <= MAX_CONTROL_REQUEST_BYTES ->
  require_auth = false \/ token_value m = None \/ token_value m = token ->
  exists response,
    (forall text, v.1 = Ok text -> (forall profile, c <> NcConnect profile /\ c <> NcDisconnect profile) ->
       response = str_bytes text)
    /\ (forall message profile, v.1 = Ok message -> c = NcConnect profile \/ c = NcDisconnect profile ->
       response = json_pretty (node_response_value (node_ok_message message)) ++ [x0a])
    /\ (forall e, v.1 = Err e -> response = json_pretty (node_response_value (node_error "request_failed" e)) ++ [x0a])
    /\ (forall (s : TcpStream R W) y, rest (inbound s) = to_line r ++ y -> live (outbound s) ->
         exists s', handle false require_auth m s = (Ok v.2, s')
                    /\ written (outbound s') = written (outbound s) ++ response)
    /\ (Utf8.valid response = true -> len response <= MAX_CONTROL_RESPONSE_BYTES ->
        forall s : TcpStream R W, rest (inbound s) = response -> fin (inbound s) = AtEof -> live (outbound s) ->
        exists s', exchange_request (fun _ => false) (to_line r) s = (Ok (str_of_bytes response), s')
                   /\ written (outbound s') = written (outbound s) ++ to_line r).
Proof.
  intros r v Hok Hn Hauth. exists (command_reply c v.1). split_and!.
  - intros text -> Hc. destruct c; try done; by destruct (Hc profile).
  - by intros message profile -> [-> | ->].
  - by intros e ->.
  - intros s y Hr Hl. destruct (parse_line r Hok) as (text & Hline & Hutf & Hparse).
    assert (Hf : first_line (rest (inbound s)) = to_line r) by (unfold first_line; by rewrite Hr, (line_of_app _ _ _ Hline)).
    destruct (handle_control_text require_auth m s text) as [_ Hh]; [|by rewrite Hf..|].
    { right. rewrite Hr, (line_of_app _ _ _ Hline). done. }
    destruct (Hh Hl) as (s' & E & Hw). exists s'. rewrite E, Hw. by rewrite (answer_client require_auth m token c text Hparse Hauth).
  - intros Hv Hlen s Hr Hf Hl. by apply exchange_request_spec.
Qed.

(** C10. Who may act through the control listener is decided by the token the
    daemon has when the listener starts.  If it has one, then for every
    connection served while its token is [token] (the same or a later one) the
    daemon's state is left alone, unless the first line of what the connection
    sends, up to its line feed or to the end, is a request of at most 1 MiB with
    exactly this token, and then it changes as this request makes it.  If it has
    none, every request is carried out, whatever token it names and whatever
    token was set since. *)
Theorem control_needs_token bound events m v conns m' :
  run_control_server (R := R) (W := W) token_value call debug_text bound events m = (v, conns, m') ->
  forall c, c ∈ conns ->
  let line := first_line (rest (inbound (cn_stream c))) in
  (forall start token, token_value m = Some start -> token_value (cn_before c) = Some token ->
     cn_after c = cn_before c
     \/ exists text r, len line <= MAX_CONTROL_REQUEST_BYTES /\ from_utf8 line = Some text /\ parse_request text = Ok r
          /\ rq_auth_token r = Some token /\ cn_after c = (dispatch (cn_before c) r).2)
  /\ (token_value m = None -> forall text r,
       cn_expired c = false -> fin (inbound (cn_stream c)) = AtEof \/ is_Some (line_of (rest (inbound (cn_stream c)))) ->
       len line <= MAX_CONTROL_REQUEST_BYTES -> from_utf8 line = Some text -> parse_request text = Ok r ->
       cn_after c = (dispatch (cn_before c) r).2).
Proof.
  intros E c Hc line. assert (conns = (run_control_server (R := R) (W := W) token_value call debug_text bound events m).1.2) as -> by by rewrite E.
  apply server_connections in Hc. unfold cn_after. rewrite Hc. split.
  - intros start token Hstart Htoken. rewrite Hstart.
    destruct (handle_control_state (cn_expired c) true (cn_before c) (cn_stream c)) as [|(text & r & Hn & Hu & Hp & Ha & Hd)];
      [by left|right]. exists text, r. split_and!; try done. by eapply authenticate_token.
  - intros Hnone text r Hexp Hend Hn Hu Hp. rewrite Hnone, Hexp.
    destruct (handle_control_text false (cn_before c) (cn_stream c) text Hend Hn Hu) as [-> _].
    unfold answer. rewrite Hp. cbn. by destruct (dispatch (cn_before c) r) as [[]].
Qed.
End both_ends.

(** A daemon that records its calls, with the token it expects. *)
Module Sample.
#[local] Instance args : RequestArgs :=
  {| ProxyArgs := unit; ReverseTaskArgs := unit; RouteArgs := unit; PeerBootstrapArgs := unit; SessionSpec := unit;
     spec_job_id _ := "job"%string |}.
#[local] Instance unit_wire : Wire unit := {| to_value _ := Object []; from_value _ := Some tt |}.
#[local] Instance unit_wire_laws : WireLaws unit.
Proof.
  refine {| wire_ok _ := True |}; [intros [] _; apply plain_object; by apply Forall_nil|by intros [] _].
Defined.
#[local] Instance wires : RequestWire :=
  {| proxy_wire := unit_wire; reverse_wire := unit_wire; route_wire := unit_wire; bootstrap_wire := unit_wire;
     spec_wire := unit_wire |}.
#[local] Existing Instance CountedText.counted_json.
#[local] Existing Instance CountedText.counted_json_laws.
#[local] Existing Instance CountedText.counted_json_line.
#[local] Instance pretty : SerdePretty := {| json_pretty := json_text |}.

(** The state: the token, and the calls so far. *)
Abbreviation State := (option string * list Call.t)%type.
Definition record (c : Call.t) (m : State) : result string string * State := (Ok "done", (m.1, c :: m.2)).
Definition guarded : State := (Some "s3cret"%string, []).
Definition stop_route : NodeRequest := with_auth_token (Some "s3cret"%string) (route_stop "r1").

Lemma stop_route_ok : request_ok stop_route.
Proof.
  constructor; [intros v [= <-]; unfold in_u, NODE_CONTROL_VERSION, CONTROL_API_VERSION; lia|reflexivity| |intros a [=]..].
  repeat (apply Forall_cons; split; [intros x; first [intros [= <-]; reflexivity|by intros [=]]|]). by apply Forall_nil.
Qed.

Definition server_side : TcpStream Segments ScriptedWriter :=
  MkTcp (MkSegments [to_line stop_route] AtEof) (MkWriter [] [] 0).
Definition client_side : TcpStream Segments ScriptedWriter :=
  MkTcp (MkSegments [str_bytes "do"; str_bytes "ne"] AtEof) (MkWriter [] [] 0).

Lemma control_request_served_witness :
  (exists s', handle_control fst record id false true guarded server_side
                = (Ok (Some "s3cret"%string, [Call.StopRoute stop_route]), s')
              /\ written (outbound s') = str_bytes "done")
  /\ exists s', exchange_request (fun _ => false) (to_line stop_route) client_side = (Ok "done"%string, s')
                /\ written (outbound s') = to_line stop_route.
Proof.
  destruct (control_request_served (R := Segments) (W := ScriptedWriter) fst record id
    (fun _ : unit => None) (fun _ => {| sa_ip := V4 []; sa_port := 0 |}) (fun _ => EmptyString) (fun _ => false) id
    (fun _ : unit => None) (fun _ => {| sa_ip := V4 []; sa_port := 0 |}) (fun _ => EmptyString) (fun _ => false) id
    true guarded (Some "s3cret"%string) (NcStopRoute "r1")) as (response & Htext & _ & _ & Hs & Hc).
  - exact stop_route_ok.
  - by vm_compute.
  - by right; right.
  - assert (response = str_bytes "done") as -> by (apply Htext; [reflexivity|]; intros profile; split; discriminate).
    split.
    + apply (Hs server_side []); [|done]. cbn. by rewrite !app_nil_r.
    + apply Hc; [vm_compute; reflexivity|vm_compute; congruence|reflexivity..].
Defined.

(** Someone without a token, first at a listener that asks for one, then at one
    that was started before the token was set. *)
Definition stranger : TcpStream Segments ScriptedWriter :=
  MkTcp (MkSegments [str_bytes "shut"; str_bytes "down"; [x0a]] AtEof) (MkWriter [] [] 0).
Definition set_token (m : State) : State := (Some "s3cret"%string, m.2).
Abbreviation serve := (run_control_server (R := Segments) (W := ScriptedWriter) fst record id (Ok tt)).

Lemma control_needs_token_witness :
  (serve [Accepted false stranger; ShutdownNotified] guarded).2 = guarded
  /\ (serve [Elsewhere set_token; Accepted false stranger] (None, [])).2 = (Some "s3cret"%string, [Call.Shutdown]).
Proof.
  split.
  - destruct (serve [Accepted false stranger; ShutdownNotified] guarded) as [[v conns] m'] eqn:E.
    pose proof (control_needs_token (R := Segments) (W := ScriptedWriter) fst record id _ _ _ _ _ _ E) as Hall.
    cbn in E. injection E as <- <- <-. destruct (Hall _ (list_elem_of_here _ _)) as [Hc _].
    destruct (Hc "s3cret"%string "s3cret"%string eq_refl eq_refl) as [Hm|(text & r & _ & Hu & Hp & Hr & _)]; [exact Hm|].
    exfalso. vm_compute in Hu. injection Hu as <-. vm_compute in Hp. injection Hp as <-. discriminate Hr.
  - destruct (serve [Elsewhere set_token; Accepted false stranger] (None, [])) as [[v conns] m'] eqn:E.
    pose proof (control_needs_token (R := Segments) (W := ScriptedWriter) fst record id _ _ _ _ _ _ E) as Hall.
    cbn in E. injection E as <- <- <-. destruct (Hall _ (list_elem_of_here _ _)) as [_ Hc].
    exact (Hc eq_refl (str_of_bytes (str_bytes "shutdown" ++ [x0a])) (legacy_command "shutdown" None) eq_refl (or_introl eq_refl) ltac:(vm_compute; discriminate) eq_refl eq_refl).
Defined.
End Sample.
