(* ===== verification/Versions.v ===== *)
(** * Versions, descriptors and health reports

    [protocol_core/version.rs] and [descriptor.rs] of
    [crates/ssh-proxy-protocol], by which two daemons decide whether they can
    talk to each other, and [crates/ssh-proxy-service/src/health.rs], which
    turns the decision and the state of a node into reports.

    Theorems: the classification of a peer, the verdicts of its reports, their
    advised actions and status and the handshake fit together; the report on a route store is
    good exactly for a store of the right version without repeated ids; a
    descriptor is read back as it was written. *)
From Stdlib Require Import Ascii.
From stdpp Require Import base list strings sorting.
From S2P Require Import Prelude RustStr IpAddr RouteDecision Routes Collections Json Serde ControlFrame PeerHandshake Control.

(** ** Values *)

(** [json!({ ... })]. *)
Definition json_object (fields : list (string * Value)) : Value := Object (map_of fields).
Definition ser_strings (l : list string) : Value := Array (Str <$> l).

(** [Value::get] with a name, [Value::pointer] with names, and the accessors. *)
Definition value_get (k : string) (v : Value) : option Value :=
  match v with Object f => map_get k f | _ => None end.
Fixpoint pointer (path : list string) (v : Value) : option Value :=
  match path with
  | [] => Some v
  | k :: path => v ← value_get k v; pointer path v
  end.
Definition as_str (v : Value) : option string := de_string v.
Definition as_bool (v : Value) : option bool := de_bool v.
Definition as_u64 (v : Value) : option Z := match v with Num (PosInt n) => Some n | _ => None end.
Definition as_array (v : Value) : option (list Value) := match v with Array l => Some l | _ => None end.
Definition is_null (v : Value) : bool := match v with Null => true | _ => false end.

(** ** Versions *)

Record FeatureSet := { fs_features : list string; fs_feature_bits : list (string * Value) }.

Definition FeatureSet_new (features : list string) : FeatureSet :=
  {| fs_features := features; fs_feature_bits := map_of ((fun feature => (feature, Bool true)) <$> features) |}.

Definition missing_from (self remote : FeatureSet) : list string :=
  filter (fun feature => feature ∉ fs_features remote) (fs_features self).

Definition common_with (self remote : FeatureSet) : list string :=
  filter (fun feature => feature ∈ fs_features remote) (fs_features self).

Definition supports_all (self required : FeatureSet) : bool :=
  match missing_from required self with [] => true | _ => false end.

Inductive VersionCompatibility :=
| Compatible
| UpgradeLocal
| UpgradeRemote
| Incompatible (reason : string).

(** The fields that all checks have. *)
Definition check_value (name : string) (ok : bool) (l r : Value) (severity : string)
    (more : list (string * Value)) : Value :=
  json_object ([("name", Str name); ("ok", Bool ok); ("local", l); ("remote", r); ("severity", Str severity)] ++ more).

Definition control_api_check (local : Z) (remote : option Z) : Value :=
  match remote with
  | Some remote =>
    if remote <=? local then
      check_value "control_api_version" true (ser_uint local) (ser_uint remote) "info"
        [("message", Str "remote control API is supported")]
    else
      check_value "control_api_version" false (ser_uint local) (ser_uint remote) "error"
        [("message", Str "remote control API is newer than this binary supports")]
  | None =>
    check_value "control_api_version" false (ser_uint local) Null "error"
      [("message", Str "remote descriptor does not advertise a control API version")]
  end.

Definition peer_protocol_check (local : Z) (remote : option Z) : Value :=
  match remote with
  | Some remote =>
    if remote =? local then
      check_value "peer_protocol_version" true (ser_uint local) (ser_uint remote) "info"
        [("message", Str "remote peer data protocol matches")]
    else if local <? remote then
      check_value "peer_protocol_version" false (ser_uint local) (ser_uint remote) "error"
        [("message", Str "remote peer data protocol is newer than this binary supports")]
    else
      check_value "peer_protocol_version" false (ser_uint local) (ser_uint remote) "error"
        [("message", Str "remote peer data protocol is older than this binary requires")]
  | None =>
    check_value "peer_protocol_version" false (ser_uint local) Null "error"
      [("message", Str "remote descriptor does not advertise a peer data protocol version")]
  end.

Definition feature_check (local remote missing : list string) : Value :=
  match missing with
  | [] =>
    check_value "features" true (ser_strings local) (ser_strings remote) "info"
      [("message", Str "remote advertises all locally required data-plane features")]
  | _ =>
    check_value "features" false (ser_strings local) (ser_strings remote) "error"
      [("message", Str "remote is missing required data-plane features"); ("missing", ser_strings missing)]
  end.

(** No check has severity [error]. *)
Definition passes (check : Value) : bool :=
  negb (bool_decide (value_get "severity" check ≫= as_str = Some "error")).
Definition all_pass (checks : list Value) : bool := forallb passes checks.

Record ProtocolCompatibilityReport := {
  cr_checks : list Value;
  cr_compatible : bool;
  cr_missing_features : list string;
  cr_common_features : list string;
}.

Definition protocol_compatibility_report (local_control : Z) (remote_control : option Z) (local_peer : Z)
    (remote_peer : option Z) (local_features remote_features : list string) : ProtocolCompatibilityReport :=
  let local_feature_set := FeatureSet_new local_features in
  let remote_feature_set := FeatureSet_new remote_features in
  let missing_features := missing_from local_feature_set remote_feature_set in
  let common_features := common_with local_feature_set remote_feature_set in
  let checks := [
    control_api_check local_control remote_control;
    peer_protocol_check local_peer remote_peer;
    feature_check local_features remote_features missing_features] in
  {| cr_checks := checks; cr_compatible := all_pass checks;
     cr_missing_features := missing_features; cr_common_features := common_features |}.

Definition is_supported_by (self supported : Z) : bool := self <=? supported.
Definition matches_required (self required : Z) : bool := self =? required.

Definition is_some_and {A} (p : A -> bool) (o : option A) : bool := from_option p false o.
Definition is_none {A} (o : option A) : bool := match o with None => true | Some _ => false end.

Definition classify_protocol_compatibility (local_control : Z) (remote_control : option Z) (local_peer : Z)
    (remote_peer : option Z) (local_features remote_features : FeatureSet) : VersionCompatibility :=
  if is_some_and (fun remote => negb (is_supported_by remote local_control)) remote_control then UpgradeLocal
  else if is_some_and (fun remote => local_peer <? remote) remote_peer then UpgradeLocal
  else if is_none remote_control || is_none remote_peer then UpgradeRemote
  else if is_some_and (fun remote => negb (matches_required remote local_peer)) remote_peer then UpgradeRemote
  else
    match missing_from local_features remote_features with
    | [] => Compatible
    | missing => Incompatible ("remote is missing required features: " +:+ join ", " missing)
    end.

(** Up to the first dash, numbers between dots. *)
Definition parse_dotted_version (value : string) : option (list Z) :=
  let core := match split_once "-" value with Some (core, _) => core | None => value end in
  parts ← mapM (parse_uint 64) (split_char "."%char core);
  match parts with [] => None | _ => Some parts end.

(** [Vec<u64>::cmp]. *)
Fixpoint compare_numbers (l r : list Z) : comparison :=
  match l, r with
  | [], [] => Eq
  | [], _ => Lt
  | _, [] => Gt
  | x :: l, y :: r => match x ?= y with Eq => compare_numbers l r | c => c end
  end.

Definition compare_dotted_versions (left_version right_version : string) : option comparison :=
  l ← parse_dotted_version left_version;
  r ← parse_dotted_version right_version;
  Some (compare_numbers l r).

(** ** Health reports *)

Inductive ConfigFileHealthState :=
| ConfigMissing
| ConfigValid (schema_version : Z) (schema_recorded : bool)
| ConfigInvalid (error : string)
| ConfigReadError (exists_ : bool) (error : string).

Inductive RouteStoreHealthState :=
| StoreMissing
| StoreLoaded (value : Value)
| StoreError (exists_ : bool) (error : string).

Inductive EndpointHealthInput :=
| EpControl (endpoint : string) (kind error : option string)
| EpMissingPeerControl
| EpTcp (addr probe_addr : option string) (reachable : option bool) (error : option string)
| EpQuic (addr : option string).

Record BinaryHealthInput := {
  bh_source_exists : bool;
  bh_installed_exists : bool;
  bh_copy_exe : bool;
  bh_same_path : bool;
}.

Record ServiceHealthInput := {
  sh_config : Value;
  sh_route_store : Value;
  sh_binary : Value;
  sh_control : Value;
  sh_plain_tcp : Value;
  sh_tls_tcp : Value;
  sh_quic : Value;
  sh_peers : Value;
}.

Record PeerHealthInput := {
  ph_alias : string;
  ph_node_id : option string;
  ph_node_name : option string;
  ph_version : option string;
  ph_control_api_version : option Z;
  ph_peer_protocol_version : option Z;
  ph_features : list string;
  ph_os : option string;
  ph_arch : option string;
  ph_target : option string;
  ph_trust : option string;
  ph_protocols : list string;
  ph_token_present : bool;
  ph_token_metadata : Value;
  ph_compatibility : Value;
  ph_last_seen_unix : option Z;
  ph_control : Value;
  ph_plain_tcp : Value;
  ph_tls_tcp : Value;
  ph_quic : Value;
}.

Record PeerCompatibilityInput := {
  pc_local_version : string;
  pc_local_control_api_version : Z;
  pc_local_peer_protocol_version : Z;
  pc_local_features : list string;
  pc_remote_version : option string;
  pc_remote_control_api_version : option Z;
  pc_remote_peer_protocol_version : option Z;
  pc_remote_features : list string;
  pc_remote_os : option string;
  pc_remote_arch : option string;
}.

(** The version of the package is fixed when the program is built. *)
Definition current_local (pkg_version : string) (remote_version : option string) : PeerCompatibilityInput :=
  {| pc_local_version := pkg_version; pc_local_control_api_version := CONTROL_API_VERSION;
     pc_local_peer_protocol_version := PEER_VERSION; pc_local_features := default_features;
     pc_remote_version := remote_version; pc_remote_control_api_version := None;
     pc_remote_peer_protocol_version := None; pc_remote_features := []; pc_remote_os := None;
     pc_remote_arch := None |}.

Record PeerVersionCheckInput := {
  pv_ok : option bool;
  pv_kind : string;
  pv_alias : string;
  pv_target : option string;
  pv_recorded : option bool;
  pv_fresh : option bool;
  pv_compatibility : PeerCompatibilityInput;
}.

Inductive BinaryVersionMessageStyle := ServiceHealth | VersionCheck.

Definition service_health_report (input : ServiceHealthInput) : Value :=
  json_object [
    ("config", sh_config input);
    ("route_store", sh_route_store input);
    ("binary", sh_binary input);
    ("listeners", json_object [
      ("control", sh_control input);
      ("plain_tcp", sh_plain_tcp input);
      ("tls_tcp", sh_tls_tcp input);
      ("quic", sh_quic input)]);
    ("peers", sh_peers input)].

Definition config_file_health_report (path : string) (current_schema_version : Z) (state : ConfigFileHealthState) : Value :=
  match state with
  | ConfigMissing => json_object [
      ("ok", Bool false); ("exists", Bool false); ("path", Str path);
      ("message", Str "config file does not exist; run `ssh_proxy config init` or `ssh_proxy service install`");
      ("next_action", Str "config-init"); ("repair_action", Str "ssh_proxy config init")]
  | ConfigValid schema_version schema_recorded => json_object [
      ("ok", Bool true); ("exists", Bool true); ("path", Str path);
      ("schema_version", ser_uint schema_version);
      ("current_schema_version", ser_uint current_schema_version);
      ("schema_recorded", Bool schema_recorded);
      ("legacy_without_schema", Bool (negb schema_recorded));
      ("next_action", Str "none"); ("repair_action", Null)]
  | ConfigInvalid error => json_object [
      ("ok", Bool false); ("exists", Bool true); ("path", Str path);
      ("current_schema_version", ser_uint current_schema_version);
      ("error", Str error);
      ("next_action", Str "repair-config"); ("repair_action", Str "ssh_proxy config inspect")]
  | ConfigReadError exists_ error => json_object [
      ("ok", Bool false); ("exists", Bool exists_); ("path", Str path);
      ("error", Str error);
      ("next_action", Str "repair-config");
      ("repair_action", Str "check file permissions and rerun ssh_proxy service status")]
  end.

(** The loop of [duplicate_route_ids] with the ids seen and the duplicates. *)
Fixpoint duplicate_ids_go (seen duplicates : list string) (routes : list Value) : list string :=
  match routes with
  | [] => duplicates
  | route :: routes =>
    match value_get "id" route ≫= as_str with
    | None => duplicate_ids_go seen duplicates routes
    | Some id =>
      if bool_decide (id ∉ seen) then duplicate_ids_go (id :: seen) duplicates routes
      else if bool_decide (id ∈ duplicates) then duplicate_ids_go seen duplicates routes
      else duplicate_ids_go seen (duplicates ++ [id]) routes
    end
  end.

Definition duplicate_route_ids (routes : option (list Value)) : list string :=
  match routes with None => [] | Some routes => duplicate_ids_go [] [] routes end.

Definition route_store_health_report (path : string) (current_version : Z) (state : RouteStoreHealthState) : Value :=
  match state with
  | StoreMissing => json_object [
      ("ok", Bool true); ("exists", Bool false); ("path", Str path); ("routes", ser_uint 0);
      ("message", Str "route store does not exist yet");
      ("next_action", Str "none"); ("repair_action", Null)]
  | StoreLoaded value =>
    let version := value_get "version" value ≫= as_u64 in
    let routes_array := value_get "routes" value ≫= as_array in
    let routes := (fun routes => len routes) <$> routes_array in
    let duplicate_ids := duplicate_route_ids routes_array in
    let ok := bool_decide (version = Some current_version) && is_some routes &&
              match duplicate_ids with [] => true | _ => false end in
    json_object [
      ("ok", Bool ok); ("exists", Bool true); ("path", Str path);
      ("version", ser_option ser_uint version);
      ("current_version", ser_uint current_version);
      ("routes", ser_option ser_uint routes);
      ("duplicate_ids", ser_strings duplicate_ids);
      ("next_action", Str (if ok then "none" else "repair-route-store"));
      ("repair_action", if ok then Null
                        else Str "inspect routes.json and remove duplicate or incompatible records")]
  | StoreError exists_ error => json_object [
      ("ok", Bool false); ("exists", Bool exists_); ("path", Str path); ("error", Str error);
      ("next_action", Str "repair-route-store");
      ("repair_action", Str "inspect routes.json or remove it after stopping the daemon")]
  end.

Definition binary_health_report (input : BinaryHealthInput) : Value :=
  let ok := bh_source_exists input &&
            (bh_installed_exists input || negb (bh_copy_exe input) || bh_same_path input) in
  json_object [
    ("ok", Bool ok);
    ("source_exists", Bool (bh_source_exists input));
    ("installed_exists", Bool (bh_installed_exists input));
    ("copy_exe", Bool (bh_copy_exe input));
    ("same_path", Bool (bh_same_path input));
    ("next_action", Str (if ok then "none" else "service-install"));
    ("repair_action", if ok then Null else Str "ssh_proxy service install")].

Definition endpoint_health_report (input : EndpointHealthInput) : Value :=
  match input with
  | EpControl endpoint (Some kind) None => json_object [
      ("ok", Bool true); ("endpoint", Str endpoint); ("kind", Str kind);
      ("next_action", Str "none"); ("repair_action", Null)]
  | EpControl endpoint _ error => json_object [
      ("ok", Bool false); ("endpoint", Str endpoint);
      ("error", Str (default "control endpoint could not be parsed" error));
      ("next_action", Str "repair-control-endpoint");
      ("repair_action", Str "check daemon control endpoint configuration")]
  | EpMissingPeerControl => json_object [
      ("ok", Bool false); ("configured", Bool false); ("reachable", Null);
      ("message", Str "peer control endpoint is not recorded");
      ("next_action", Str "peer-refresh"); ("repair_action", Str "ssh_proxy peer refresh")]
  | EpTcp None _ _ _ => json_object [
      ("ok", Bool true); ("configured", Bool false); ("reachable", Null);
      ("next_action", Str "none"); ("repair_action", Null)]
  | EpTcp (Some addr) probe_addr reachable error =>
    let reachable := default false reachable in
    json_object [
      ("ok", Bool reachable); ("configured", Bool true); ("addr", Str addr);
      ("probe_addr", ser_option Str probe_addr); ("reachable", Bool reachable);
      ("error", ser_option Str error);
      ("next_action", Str (if reachable then "none" else "repair-listener"));
      ("repair_action", if reachable then Null else Str "restart the daemon or refresh the peer transport")]
  | EpQuic (Some addr) => json_object [
      ("ok", Bool true); ("configured", Bool true); ("addr", Str addr); ("reachable", Null);
      ("message", Str "QUIC UDP listener reachability is not probed by service status yet");
      ("next_action", Str "none"); ("repair_action", Null)]
  | EpQuic None => json_object [
      ("ok", Bool true); ("configured", Bool false); ("reachable", Null);
      ("next_action", Str "none"); ("repair_action", Null)]
  end.

(** [value.get("ok").and_then(Value::as_bool).unwrap_or(false)]. *)
Definition reports_ok (v : Value) : bool := default false (value_get "ok" v ≫= as_bool).

Definition peer_registry_health_report (config_available : bool) (peers : list Value) : Value :=
  if negb config_available then json_object [
    ("ok", Bool false); ("count", ser_uint 0); ("error", Str "config unavailable"); ("peers", Array []);
    ("next_action", Str "repair-config"); ("repair_action", Str "ssh_proxy config inspect")]
  else
    let ok := forallb reports_ok peers in
    json_object [
      ("ok", Bool ok); ("count", ser_uint (len peers)); ("peers", Array peers);
      ("next_action", Str (if ok then "none" else "peer-refresh"));
      ("repair_action", if ok then Null else Str "ssh_proxy peer refresh")].

Definition peer_health_report (input : PeerHealthInput) : Value :=
  let ok := forallb reports_ok
    [ph_control input; ph_plain_tcp input; ph_tls_tcp input; ph_quic input; ph_compatibility input] in
  json_object [
    ("ok", Bool ok);
    ("alias", Str (ph_alias input));
    ("node_id", ser_option Str (ph_node_id input));
    ("node_name", ser_option Str (ph_node_name input));
    ("version", ser_option Str (ph_version input));
    ("control_api_version", ser_option ser_uint (ph_control_api_version input));
    ("peer_protocol_version", ser_option ser_uint (ph_peer_protocol_version input));
    ("features", ser_strings (ph_features input));
    ("os", ser_option Str (ph_os input));
    ("arch", ser_option Str (ph_arch input));
    ("target", ser_option Str (ph_target input));
    ("trust", ser_option Str (ph_trust input));
    ("protocols", ser_strings (ph_protocols input));
    ("auth", json_object [
      ("token", Bool (ph_token_present input));
      ("token_metadata", ph_token_metadata input)]);
    ("compatibility", ph_compatibility input);
    ("last_seen_unix", ser_option ser_uint (ph_last_seen_unix input));
    ("endpoints", json_object [
      ("control", ph_control input);
      ("plain_tcp", ph_plain_tcp input);
      ("tls_tcp", ph_tls_tcp input);
      ("quic", ph_quic input)]);
    ("next_action", Str (if ok then "none" else "peer-refresh"));
    ("repair_action", if ok then Null else Str "ssh_proxy peer refresh")].

(** *** Compatibility of a peer *)

(** The message, which depends on the report it is part of. *)
Definition binary_version_check (local : string) (remote : option string) (style : BinaryVersionMessageStyle) : Value :=
  let check := check_value "binary_version" true (Str local) (ser_option Str remote) in
  match remote ≫= compare_dotted_versions local with
  | Some Eq =>
    match style with
    | ServiceHealth => check "info" []
    | VersionCheck =>
      check "info" [("message", Str "local and remote binaries report the same package version")]
    end
  | Some Gt =>
    match style with
    | ServiceHealth =>
      check "warning"
        [("message", Str "saved peer binary is older; refresh or bootstrap the peer when changing protocols")]
    | VersionCheck =>
      check "warning" [("message", Str "remote binary is older; bootstrap with --force to align versions")]
    end
  | Some Lt =>
    match style with
    | ServiceHealth =>
      check "warning" [("message", Str "saved peer binary is newer; consider upgrading the local binary")]
    | VersionCheck =>
      check "warning" [("message", Str "remote binary is newer; consider upgrading the local binary")]
    end
  | None =>
    match style with
    | ServiceHealth => check "warning" [("message", Str "binary version is not recorded or cannot be compared")]
    | VersionCheck => check "warning" [("message", Str "binary version could not be compared")]
    end
  end.

Record CompatibilityComponents := {
  cc_checks : list Value;
  cc_compatible : bool;
  cc_missing_features : list string;
  cc_common_features : list string;
}.

Definition compatibility_components (input : PeerCompatibilityInput) (style : BinaryVersionMessageStyle) :
    CompatibilityComponents :=
  let protocol_report := protocol_compatibility_report (pc_local_control_api_version input)
    (pc_remote_control_api_version input) (pc_local_peer_protocol_version input)
    (pc_remote_peer_protocol_version input) (pc_local_features input) (pc_remote_features input) in
  let checks := cr_checks protocol_report ++
    [binary_version_check (pc_local_version input) (pc_remote_version input) style] in
  {| cc_checks := checks; cc_compatible := all_pass checks;
     cc_missing_features := cr_missing_features protocol_report;
     cc_common_features := cr_common_features protocol_report |}.

(** One of the remote versions is newer than the local one. *)
Definition remote_newer (input : PeerCompatibilityInput) : bool :=
  is_some_and (fun remote => pc_local_control_api_version input <? remote) (pc_remote_control_api_version input) ||
  is_some_and (fun remote => pc_local_peer_protocol_version input <? remote) (pc_remote_peer_protocol_version input).

Definition service_compatibility_next_action (input : PeerCompatibilityInput) (compatible : bool) : string :=
  if negb compatible then
    if remote_newer input then "upgrade-local" else "peer-refresh"
  else if is_some_and (fun remote =>
      bool_decide (compare_dotted_versions (pc_local_version input) remote = Some Gt)) (pc_remote_version input)
  then "peer-bootstrap --force"
  else "none".

Definition compatibility_repair_action (next_action : string) : Value :=
  if String.eqb next_action "upgrade-local" then Str "upgrade the local ssh_proxy binary"
  else if String.eqb next_action "peer-refresh" then Str "ssh_proxy peer refresh"
  else if String.eqb next_action "peer-bootstrap --force" then Str "ssh_proxy peer bootstrap --force"
  else Null.

Definition version_next_action (input : PeerCompatibilityInput) (missing_features : list string) : string :=
  if remote_newer input then "upgrade-local"
  else if is_none (pc_remote_control_api_version input) || is_none (pc_remote_peer_protocol_version input) ||
          is_some_and (fun remote => remote <? pc_local_peer_protocol_version input)
            (pc_remote_peer_protocol_version input) ||
          match missing_features with [] => false | _ => true end
  then "peer-bootstrap --force"
  else
    match pc_remote_version input ≫= compare_dotted_versions (pc_local_version input) with
    | Some Gt => "peer-bootstrap --force"
    | Some Lt => "upgrade-local"
    | _ => "none"
    end.

Definition version_status (compatible : bool) (local_version : string) (remote_version : option string)
    (next_action : string) : string :=
  if negb compatible then "incompatible"
  else
    match remote_version ≫= compare_dotted_versions local_version with
    | Some Eq => "compatible"
    | Some Gt =>
      if String.eqb next_action "peer-bootstrap --force" then "compatible-upgrade-remote"
      else "compatible-version-unknown"
    | Some Lt =>
      if String.eqb next_action "upgrade-local" then "compatible-upgrade-local"
      else "compatible-version-unknown"
    | None => "compatible-version-unknown"
    end.

(** The two sides of a report. *)
Definition local_side (input : PeerCompatibilityInput) : Value :=
  json_object [
    ("version", Str (pc_local_version input));
    ("control_api_version", ser_uint (pc_local_control_api_version input));
    ("peer_protocol_version", ser_uint (pc_local_peer_protocol_version input));
    ("features", ser_strings (pc_local_features input))].

Definition remote_side (input : PeerCompatibilityInput) (components : CompatibilityComponents) : Value :=
  json_object [
    ("version", ser_option Str (pc_remote_version input));
    ("control_api_version", ser_option ser_uint (pc_remote_control_api_version input));
    ("peer_protocol_version", ser_option ser_uint (pc_remote_peer_protocol_version input));
    ("features", ser_strings (pc_remote_features input));
    ("common_features", ser_strings (cc_common_features components));
    ("missing_features", ser_strings (cc_missing_features components));
    ("os", ser_option Str (pc_remote_os input));
    ("arch", ser_option Str (pc_remote_arch input))].

Definition peer_compatibility_report (input : PeerCompatibilityInput) : Value :=
  let components := compatibility_components input ServiceHealth in
  let next_action := service_compatibility_next_action input (cc_compatible components) in
  json_object [
    ("ok", Bool (cc_compatible components));
    ("status", Str (if cc_compatible components then "compatible" else "incompatible"));
    ("local", local_side input);
    ("remote", remote_side input components);
    ("checks", Array (cc_checks components));
    ("next_action", Str next_action);
    ("repair_action", compatibility_repair_action next_action)].

Definition peer_version_check_report (input : PeerVersionCheckInput) : Value :=
  let compatibility := pv_compatibility input in
  let components := compatibility_components compatibility VersionCheck in
  let next_action := version_next_action compatibility (cc_missing_features components) in
  let status := version_status (cc_compatible components) (pc_local_version compatibility)
    (pc_remote_version compatibility) next_action in
  Object (map_of (
    ser_some "ok" Bool (pv_ok input) ++
    [("kind", Str (pv_kind input)); ("alias", Str (pv_alias input))] ++
    ser_some "target" Str (pv_target input) ++
    ser_some "recorded" Bool (pv_recorded input) ++
    ser_some "fresh" Bool (pv_fresh input) ++
    [("compatible", Bool (cc_compatible components));
     ("status", Str status);
     ("local", local_side compatibility);
     ("remote", remote_side compatibility components);
     ("checks", Array (cc_checks components));
     ("next_action", Str next_action)])).

Definition unrecorded_peer_version_check_report (alias : string) : Value :=
  json_object [
    ("kind", Str "saved_peer_version_check");
    ("alias", Str alias);
    ("recorded", Bool false);
    ("compatible", Bool false);
    ("status", Str "unrecorded");
    ("checks", Array []);
    ("next_action", Str "peer-bootstrap");
    ("message", Str "peer is not recorded locally; route start will try descriptor adoption then SSH bootstrap")].

(** ** Descriptors *)

Record PeerDescriptorEndpoints := {
  de_control : option string;
  de_transport : option string;
  de_tls_transport : option string;
  de_quic_transport : option string;
}.

Record PeerDescriptorAuth := {
  da_control_token : option bool;
  da_transport_token : option bool;
  da_token_metadata : option Value;
  da_token_generation : option Z;
  da_tls_server_cert : option bool;
  da_tls_client_ca : option bool;
  da_tls_server_cert_fingerprint : option string;
  da_tls_client_ca_fingerprint : option string;
}.

Record PeerDescriptor := {
  pd_ok : option bool;
  pd_kind : option string;
  pd_source : option string;
  pd_schema_version : option Z;
  pd_node_id : option string;
  pd_node_name : option string;
  pd_service_instance_id : option string;
  pd_version : option string;
  pd_os : option string;
  pd_arch : option string;
  pd_os_user : option string;
  pd_data_dir : option string;
  pd_target : option string;
  pd_control_endpoint : option string;
  pd_control_api_version : option Z;
  pd_peer_protocol_version : option Z;
  pd_features : list string;
  pd_feature_bits : list (string * Value);
  pd_endpoints : PeerDescriptorEndpoints;
  pd_transport_protocols : list string;
  pd_auth : PeerDescriptorAuth;
  pd_routes_path : option Value;
  pd_route_autostart : option bool;
}.

Definition no_endpoints : PeerDescriptorEndpoints :=
  {| de_control := None; de_transport := None; de_tls_transport := None; de_quic_transport := None |}.
Definition no_auth : PeerDescriptorAuth :=
  {| da_control_token := None; da_transport_token := None; da_token_metadata := None;
     da_token_generation := None; da_tls_server_cert := None; da_tls_client_ca := None;
     da_tls_server_cert_fingerprint := None; da_tls_client_ca_fingerprint := None |}.

(** [Deserialize] and [Serialize] of the three structs. *)
Definition de_endpoints (v : Value) : option PeerDescriptorEndpoints :=
  _ ← de_shape 4 v;
  control ← de_optional_default 0 "control" de_string v;
  transport ← de_optional_default 1 "transport" de_string v;
  tls_transport ← de_optional_default 2 "tls_transport" de_string v;
  quic_transport ← de_optional_default 3 "quic_transport" de_string v;
  Some {| de_control := control; de_transport := transport; de_tls_transport := tls_transport;
          de_quic_transport := quic_transport |}.

Definition endpoint_fields (e : PeerDescriptorEndpoints) : list (string * Value) :=
  [("control", ser_option Str (de_control e)); ("transport", ser_option Str (de_transport e));
   ("tls_transport", ser_option Str (de_tls_transport e)); ("quic_transport", ser_option Str (de_quic_transport e))].

Definition de_auth (v : Value) : option PeerDescriptorAuth :=
  _ ← de_shape 8 v;
  control_token ← de_optional_default 0 "control_token" de_bool v;
  transport_token ← de_optional_default 1 "transport_token" de_bool v;
  token_metadata ← de_optional_default 2 "token_metadata" (fun v => Some (de_value v)) v;
  token_generation ← de_optional_default 3 "token_generation" (de_uint 64) v;
  tls_server_cert ← de_optional_default 4 "tls_server_cert" de_bool v;
  tls_client_ca ← de_optional_default 5 "tls_client_ca" de_bool v;
  tls_server_cert_fingerprint ← de_optional_default 6 "tls_server_cert_fingerprint" de_string v;
  tls_client_ca_fingerprint ← de_optional_default 7 "tls_client_ca_fingerprint" de_string v;
  Some {| da_control_token := control_token; da_transport_token := transport_token;
          da_token_metadata := token_metadata; da_token_generation := token_generation;
          da_tls_server_cert := tls_server_cert; da_tls_client_ca := tls_client_ca;
          da_tls_server_cert_fingerprint := tls_server_cert_fingerprint;
          da_tls_client_ca_fingerprint := tls_client_ca_fingerprint |}.

Definition auth_fields (a : PeerDescriptorAuth) : list (string * Value) :=
  [("control_token", ser_option Bool (da_control_token a));
   ("transport_token", ser_option Bool (da_transport_token a));
   ("token_metadata", ser_option id (da_token_metadata a));
   ("token_generation", ser_option ser_uint (da_token_generation a));
   ("tls_server_cert", ser_option Bool (da_tls_server_cert a));
   ("tls_client_ca", ser_option Bool (da_tls_client_ca a));
   ("tls_server_cert_fingerprint", ser_option Str (da_tls_server_cert_fingerprint a));
   ("tls_client_ca_fingerprint", ser_option Str (da_tls_client_ca_fingerprint a))].

Definition de_descriptor (v : Value) : option PeerDescriptor :=
  _ ← de_shape 23 v;
  ok ← de_optional_default 0 "ok" de_bool v;
  kind ← de_optional_default 1 "kind" de_string v;
  source ← de_optional_default 2 "source" de_string v;
  schema_version ← de_optional_default 3 "schema_version" (de_uint 32) v;
  node_id ← de_optional_default 4 "node_id" de_string v;
  node_name ← de_optional_default 5 "node_name" de_string v;
  service_instance_id ← de_optional_default 6 "service_instance_id" de_string v;
  version ← de_optional_default 7 "version" de_string v;
  os ← de_optional_default 8 "os" de_string v;
  arch ← de_optional_default 9 "arch" de_string v;
  os_user ← de_optional_default 10 "os_user" de_string v;
  data_dir ← de_optional_default 11 "data_dir" de_string v;
  target ← de_optional_default 12 "target" de_string v;
  control_endpoint ← de_optional_default 13 "control_endpoint" de_string v;
  control_api_version ← de_optional_default 14 "control_api_version" (de_uint 16) v;
  peer_protocol_version ← de_optional_default 15 "peer_protocol_version" (de_uint 16) v;
  features ← de_default 16 "features" (de_vec de_string) [] v;
  feature_bits ← de_default 17 "feature_bits" de_map [] v;
  endpoints ← de_default 18 "endpoints" de_endpoints no_endpoints v;
  transport_protocols ← de_default 19 "transport_protocols" (de_vec de_string) [] v;
  auth ← de_default 20 "auth" de_auth no_auth v;
  routes_path ← de_optional_default 21 "routes_path" (fun v => Some (de_value v)) v;
  route_autostart ← de_optional_default 22 "route_autostart" de_bool v;
  Some {| pd_ok := ok; pd_kind := kind; pd_source := source; pd_schema_version := schema_version;
          pd_node_id := node_id; pd_node_name := node_name; pd_service_instance_id := service_instance_id;
          pd_version := version; pd_os := os; pd_arch := arch; pd_os_user := os_user; pd_data_dir := data_dir;
          pd_target := target; pd_control_endpoint := control_endpoint;
          pd_control_api_version := control_api_version; pd_peer_protocol_version := peer_protocol_version;
          pd_features := features; pd_feature_bits := feature_bits; pd_endpoints := endpoints;
          pd_transport_protocols := transport_protocols; pd_auth := auth; pd_routes_path := routes_path;
          pd_route_autostart := route_autostart |}.

Definition descriptor_fields (d : PeerDescriptor) : list (string * Value) :=
  [("ok", ser_option Bool (pd_ok d)); ("kind", ser_option Str (pd_kind d));
   ("source", ser_option Str (pd_source d)); ("schema_version", ser_option ser_uint (pd_schema_version d));
   ("node_id", ser_option Str (pd_node_id d)); ("node_name", ser_option Str (pd_node_name d));
   ("service_instance_id", ser_option Str (pd_service_instance_id d));
   ("version", ser_option Str (pd_version d)); ("os", ser_option Str (pd_os d));
   ("arch", ser_option Str (pd_arch d)); ("os_user", ser_option Str (pd_os_user d));
   ("data_dir", ser_option Str (pd_data_dir d)); ("target", ser_option Str (pd_target d));
   ("control_endpoint", ser_option Str (pd_control_endpoint d));
   ("control_api_version", ser_option ser_uint (pd_control_api_version d));
   ("peer_protocol_version", ser_option ser_uint (pd_peer_protocol_version d));
   ("features", ser_strings (pd_features d)); ("feature_bits", Object (pd_feature_bits d));
   ("endpoints", json_object (endpoint_fields (pd_endpoints d)));
   ("transport_protocols", ser_strings (pd_transport_protocols d));
   ("auth", json_object (auth_fields (pd_auth d)));
   ("routes_path", ser_option id (pd_routes_path d));
   ("route_autostart", ser_option Bool (pd_route_autostart d))].

Inductive DescriptorError := DescriptorNotOk | DescriptorMalformed.

Definition descriptor_from_value (value : Value) : result DescriptorError PeerDescriptor :=
  if bool_decide (value_get "ok" value ≫= as_bool = Some false) then Err DescriptorNotOk
  else ok_or DescriptorMalformed (de_descriptor value).

Definition descriptor_to_value (d : PeerDescriptor) : Value := json_object (descriptor_fields d).

Definition parse_socket_or_tcp_endpoint (value : string) : option (SocketAddr * Z) :=
  parse_socket_addr (default value (strip_prefix "tcp://" value)).

(** [Option::or]. *)
Definition opt_or {A} (a b : option A) : option A := match a with Some _ => a | None => b end.

Definition control_endpoint (d : PeerDescriptor) : option string :=
  opt_or (de_control (pd_endpoints d)) (pd_control_endpoint d).
Definition transport_addr (d : PeerDescriptor) : option (SocketAddr * Z) :=
  de_transport (pd_endpoints d) ≫= parse_socket_or_tcp_endpoint.
Definition tls_transport_addr (d : PeerDescriptor) : option (SocketAddr * Z) :=
  de_tls_transport (pd_endpoints d) ≫= parse_socket_or_tcp_endpoint.
Definition quic_transport_addr (d : PeerDescriptor) : option (SocketAddr * Z) :=
  de_quic_transport (pd_endpoints d) ≫= parse_socket_or_tcp_endpoint.
Definition control_addr (d : PeerDescriptor) : option (SocketAddr * Z) :=
  control_endpoint d ≫= parse_socket_or_tcp_endpoint.

(** The protocols of the addresses that are there, the preferred first. *)
Definition protocols_of {A B C} (quic : option A) (tls : option B) (tcp : option C) : list string :=
  (if is_some quic then ["quic"] else []) ++ (if is_some tls then ["tls-tcp"] else []) ++
  (if is_some tcp then ["plain-tcp"] else []).

Definition transport_protocols_or_infer (d : PeerDescriptor) : list string :=
  match pd_transport_protocols d with
  | [] => protocols_of (quic_transport_addr d) (tls_transport_addr d) (transport_addr d)
  | protocols => protocols
  end.

Definition feature_set (d : PeerDescriptor) : FeatureSet :=
  {| fs_features := pd_features d; fs_feature_bits := pd_feature_bits d |}.

(** ** Verdicts *)

Lemma control_api_passes l r : passes (control_api_check l r) = is_some_and (fun remote => remote <=? l) r.
Proof. destruct r as [r|]; [|done]. cbn. by destruct (r <=? l). Qed.

Lemma peer_protocol_passes l r : passes (peer_protocol_check l r) = is_some_and (fun remote => remote =? l) r.
Proof. destruct r as [r|]; [|done]. cbn. destruct (r =? l); [done|]. by destruct (l <? r). Qed.

Lemma feature_passes l r missing :
  passes (feature_check l r missing) = match missing with [] => true | _ => false end.
Proof. by destruct missing. Qed.

Lemma binary_version_passes l r style : passes (binary_version_check l r style) = true.
Proof. unfold binary_version_check. destruct (r ≫= _) as [[]|], style; done. Qed.

Definition classify (input : PeerCompatibilityInput) : VersionCompatibility :=
  classify_protocol_compatibility (pc_local_control_api_version input) (pc_remote_control_api_version input)
    (pc_local_peer_protocol_version input) (pc_remote_peer_protocol_version input)
    (FeatureSet_new (pc_local_features input)) (FeatureSet_new (pc_remote_features input)).

Definition is_compatible (c : VersionCompatibility) : bool := match c with Compatible => true | _ => false end.

(** The remote binary against the local one, when both versions are known. *)
Definition binary_order (input : PeerCompatibilityInput) : option comparison :=
  pc_remote_version input ≫= compare_dotted_versions (pc_local_version input).

Lemma components_compatible input style :
  cc_compatible (compatibility_components input style) = is_compatible (classify input).
Proof.
  cbn. rewrite control_api_passes, peer_protocol_passes, feature_passes, binary_version_passes.
  unfold classify, classify_protocol_compatibility, is_supported_by, matches_required.
  destruct (pc_remote_control_api_version input) as [c|], (pc_remote_peer_protocol_version input) as [p|];
    cbn; repeat case_match; rewrite ?andb_false_r, ?andb_true_r; cbn [is_compatible]; lia.
Qed.

Lemma missing_nil l r : missing_from (FeatureSet_new l) (FeatureSet_new r) = [] <-> l ⊆ r.
Proof.
  unfold missing_from. cbn. split.
  - intros Hf x Hx. destruct (decide (x ∈ r)) as [|Hn]; [done|].
    assert (x ∈ filter (fun feature => feature ∉ r) l) as Hin by (by apply list_elem_of_filter).
    rewrite Hf in Hin. by apply elem_of_nil in Hin.
  - intros Hs. apply elem_of_nil_inv. intros x [Hn Hx]%list_elem_of_filter. by apply Hn, Hs.
Qed.

Lemma classify_compatible input :
  classify input = Compatible <->
  (exists control, pc_remote_control_api_version input = Some control /\
     control <= pc_local_control_api_version input) /\
  pc_remote_peer_protocol_version input = Some (pc_local_peer_protocol_version input) /\
  pc_local_features input ⊆ pc_remote_features input.
Proof.
  unfold classify, classify_protocol_compatibility, is_supported_by, matches_required.
  rewrite <- missing_nil.
  split.
  - destruct (pc_remote_control_api_version input) as [c|], (pc_remote_peer_protocol_version input) as [p|]; cbn;
      repeat case_match; try done; intros _.
    split_and!; [exists c; split; [done|lia] | f_equal; lia | done].
  - intros ((c & -> & Hc) & -> & ->). cbn. repeat case_match; try done; lia.
Qed.

(** The actions and the status that a verdict stands for. *)
Definition advised_service (c : VersionCompatibility) (order : option comparison) : string :=
  match c with
  | Compatible => match order with Some Gt => "peer-bootstrap --force" | _ => "none" end
  | UpgradeLocal => "upgrade-local"
  | _ => "peer-refresh"
  end.

Definition advised_check (c : VersionCompatibility) (order : option comparison) : string :=
  match c with
  | Compatible =>
    match order with Some Gt => "peer-bootstrap --force" | Some Lt => "upgrade-local" | _ => "none" end
  | UpgradeLocal => "upgrade-local"
  | _ => "peer-bootstrap --force"
  end.

Definition status_of (c : VersionCompatibility) (order : option comparison) : string :=
  match c with
  | Compatible =>
    match order with
    | Some Eq => "compatible"
    | Some Gt => "compatible-upgrade-remote"
    | Some Lt => "compatible-upgrade-local"
    | None => "compatible-version-unknown"
    end
  | _ => "incompatible"
  end.

Lemma service_action input :
  service_compatibility_next_action input (is_compatible (classify input)) =
  advised_service (classify input) (binary_order input).
Proof.
  unfold service_compatibility_next_action, advised_service, binary_order, classify,
    classify_protocol_compatibility, remote_newer, is_supported_by, matches_required.
  destruct (pc_remote_version input) as [v|]; cbn;
    [destruct (compare_dotted_versions _ v) as [[]|]; cbn|];
    destruct (pc_remote_control_api_version input) as [c|], (pc_remote_peer_protocol_version input) as [p|]; cbn;
    repeat case_match; cbn in *; try done; lia.
Qed.

Lemma check_action input :
  version_next_action input (missing_from (FeatureSet_new (pc_local_features input))
    (FeatureSet_new (pc_remote_features input))) =
  advised_check (classify input) (binary_order input).
Proof.
  unfold version_next_action, advised_check, classify, classify_protocol_compatibility, remote_newer,
    is_supported_by, matches_required. fold (binary_order input).
  destruct (pc_remote_control_api_version input) as [c|], (pc_remote_peer_protocol_version input) as [p|]; cbn;
    repeat case_match; cbn in *; try done; lia.
Qed.

Lemma check_status input :
  version_status (is_compatible (classify input)) (pc_local_version input) (pc_remote_version input)
    (advised_check (classify input) (binary_order input)) =
  status_of (classify input) (binary_order input).
Proof.
  unfold version_status. fold (binary_order input).
  destruct (classify input), (binary_order input) as [[]|]; done.
Qed.

Definition input_check (input : PeerVersionCheckInput) (k : string) : option Value :=
  value_get k (peer_version_check_report input).

Lemma check_fields input :
  let c := compatibility_components (pv_compatibility input) VersionCheck in
  let next_action := version_next_action (pv_compatibility input) (cc_missing_features c) in
  input_check input "compatible" = Some (Bool (cc_compatible c)) /\
  input_check input "next_action" = Some (Str next_action) /\
  input_check input "status" =
    Some (Str (version_status (cc_compatible c) (pc_local_version (pv_compatibility input))
      (pc_remote_version (pv_compatibility input)) next_action)).
Proof. unfold input_check, peer_version_check_report. by destruct input as [[] ? ? [] [] [] ?]. Qed.

Lemma status_unknown c order :
  status_of c order = "compatible-version-unknown" <-> c = Compatible /\ order = None.
Proof. destruct c, order as [[]|]; split; try done; by intros [? ?]. Qed.

(** Another version of the data protocol. *)
Lemma classify_other_version input v :
  pc_remote_peer_protocol_version input = Some v -> v <> pc_local_peer_protocol_version input ->
  classify input = if remote_newer input then UpgradeLocal else UpgradeRemote.
Proof.
  intros Hv Hne. unfold classify, classify_protocol_compatibility, remote_newer, is_supported_by, matches_required.
  rewrite Hv. destruct (pc_remote_control_api_version input) as [c|]; cbn; repeat case_match; cbn in *; try done; lia.
Qed.

(** C39. The judgements of a peer fit together.  Two nodes are classified as
    compatible exactly when the remote control version is known and not newer,
    the data protocol is the same and every local feature is offered; the report
    of the service and the version check both say whether they are.  The actions
    the two reports advise are each a function of this classification and of the
    order of the two binaries, and are the same one except in two cases: for a
    compatible peer with a newer binary the service advises nothing and the
    check an upgrade, and for a peer that has to be upgraded or lacks a feature
    the service advises a refresh and the check a bootstrap.  The status of the
    check is that of the classification and the order, so that "version unknown"
    is said only when the versions cannot be compared.  And the classification
    fits the handshake of a peer that says hello with the version on record: the
    hello of a compatible peer is never refused for its version, and a hello of
    another version is refused, by a node that asks for an upgrade. *)
Theorem version_verdicts_agree (input : PeerVersionCheckInput) :
  let peer := pv_compatibility input in
  let verdict := classify peer in
  let order := binary_order peer in
  (verdict = Compatible <->
     (exists control, pc_remote_control_api_version peer = Some control /\ control <= pc_local_control_api_version peer) /\
     pc_remote_peer_protocol_version peer = Some (pc_local_peer_protocol_version peer) /\
     pc_local_features peer ⊆ pc_remote_features peer) /\
  value_get "ok" (peer_compatibility_report peer) = Some (Bool (is_compatible verdict)) /\
  value_get "compatible" (peer_version_check_report input) = Some (Bool (is_compatible verdict)) /\
  value_get "next_action" (peer_compatibility_report peer) = Some (Str (advised_service verdict order)) /\
  value_get "next_action" (peer_version_check_report input) = Some (Str (advised_check verdict order)) /\
  (advised_service verdict order = advised_check verdict order
     <-> verdict = UpgradeLocal \/ (verdict = Compatible /\ order <> Some Lt)) /\
  value_get "status" (peer_version_check_report input) = Some (Str (status_of verdict order)) /\
  (status_of verdict order = "compatible-version-unknown" <-> verdict = Compatible /\ order = None) /\
  (forall (hello : PeerHello) supported, pc_local_peer_protocol_version peer = PEER_VERSION ->
     pc_remote_peer_protocol_version peer = Some (PeerHandshake.ph_version hello) ->
     (verdict = Compatible -> accepted_protocol hello supported = select_supported_protocol (PeerHandshake.ph_protocols hello) supported) /\
     (PeerHandshake.ph_version hello <> PEER_VERSION ->
        accepted_protocol hello supported = None /\
        verdict = if remote_newer peer then UpgradeLocal else UpgradeRemote)).
Proof.
  intros peer verdict order.
  destruct (check_fields input) as (Hc & Hn & Hs). unfold input_check in *.
  fold peer in Hc, Hn, Hs. rewrite components_compatible in Hc, Hs.
  replace (cc_missing_features _) with (missing_from (FeatureSet_new (pc_local_features peer))
    (FeatureSet_new (pc_remote_features peer))) in Hn, Hs by done.
  rewrite check_action in Hn, Hs. rewrite check_status in Hs.
  split; [apply classify_compatible|].
  unfold peer_compatibility_report. rewrite components_compatible.
  do 2 (split; [done|]). split; [cbn; by rewrite service_action|]. split; [done|]. split_and!.
  - destruct verdict, order as [[]|]; split; try done; try (by auto); intros [|[? ?]]; done.
  - done.
  - apply status_unknown.
  - intros hello supported Hl Hr. unfold accepted_protocol. split.
    + intros (_ & Hp & _)%classify_compatible. assert (PeerHandshake.ph_version hello = PEER_VERSION) as -> by congruence.
      by rewrite Z.eqb_refl.
    + intros Hne. rewrite (proj2 (Z.eqb_neq _ _) Hne). split; [done|].
      apply (classify_other_version peer (PeerHandshake.ph_version hello)); [done|congruence].
Qed.

(** A peer that lacks a feature: both reports refuse it, each with its action. *)
Definition lacking_peer : PeerVersionCheckInput :=
  {| pv_ok := Some true; pv_kind := "peer_version_check"; pv_alias := "lab"; pv_target := None; pv_recorded := None;
     pv_fresh := None;
     pv_compatibility := {| pc_local_version := "0.4.2"; pc_local_control_api_version := CONTROL_API_VERSION;
       pc_local_peer_protocol_version := PEER_VERSION; pc_local_features := default_features;
       pc_remote_version := Some "0.4.1"%string; pc_remote_control_api_version := Some CONTROL_API_VERSION;
       pc_remote_peer_protocol_version := Some PEER_VERSION; pc_remote_features := []; pc_remote_os := None;
       pc_remote_arch := None |} |}.

Lemma version_verdicts_agree_witness :
  value_get "next_action" (peer_compatibility_report (pv_compatibility lacking_peer)) = Some (Str "peer-refresh") /\
  value_get "next_action" (peer_version_check_report lacking_peer) = Some (Str "peer-bootstrap --force").
Proof.
  destruct (version_verdicts_agree lacking_peer) as (_ & _ & _ & H1 & H2 & _). split; [exact H1|exact H2].
Defined.

(** ** Route stores *)

(** [x] is in [l] twice or more. *)
Definition twice {A} (l : list A) (x : A) : Prop := exists a b, l = a ++ b /\ x ∈ a /\ x ∈ b.

Lemma twice_snoc {A} (l : list A) y x : twice (l ++ [y]) x <-> twice l x \/ x = y /\ x ∈ l.
Proof.
  split.
  - intros (a & b & Hl & Ha & Hb). destruct b as [|z b _] using rev_ind; [by apply elem_of_nil in Hb|].
    rewrite app_assoc in Hl. apply app_inj_tail in Hl as [-> <-].
    apply elem_of_app in Hb as [Hb | Hb%list_elem_of_singleton].
    + left. by exists a, b.
    + right. split; [done|]. set_solver.
  - intros [(a & b & -> & Ha & Hb) | [-> Hx]].
    + exists a, (b ++ [y]). rewrite app_assoc. set_solver.
    + exists l, [y]. set_solver.
Qed.

Lemma twice_NoDup {A} (l : list A) : NoDup l <-> forall x, ~ twice l x.
Proof.
  induction l as [|y l IH] using rev_ind.
  { split; [|constructor]. intros _ x (a & b & Hl & Ha & _). destruct a; [by apply elem_of_nil in Ha|done]. }
  rewrite NoDup_app, IH. setoid_rewrite twice_snoc. split.
  - intros (Hl & Hy & _) x [Hx | [-> Hx]]; [by apply (Hl x)|]. apply (Hy y); set_solver.
  - intros Hn. split_and!.
    + intros x Hx. apply (Hn x). by left.
    + intros x Hx Hy%list_elem_of_singleton. apply (Hn x). by right.
    + apply NoDup_singleton.
Qed.

(** The ids of the routes in a store, those that are strings. *)
Definition route_ids (routes : list Value) : list string :=
  omap (fun route => value_get "id" route ≫= as_str) routes.

Lemma duplicate_ids_go_spec routes : forall before seen duplicates,
  (forall x, x ∈ seen <-> x ∈ before) -> (forall x, x ∈ duplicates <-> twice before x) -> NoDup duplicates ->
  let d := duplicate_ids_go seen duplicates routes in
  NoDup d /\ forall x, x ∈ d <-> twice (before ++ route_ids routes) x.
Proof.
  induction routes as [|route routes IH]; intros before seen duplicates Hs Hd Hn; cbn.
  { by rewrite app_nil_r. }
  destruct (value_get "id" route ≫= as_str) as [id|] eqn:Hid; cbn; [|by apply IH].
  rewrite (cons_middle id before), app_assoc.
  case_bool_decide as Hseen; [|case_bool_decide as Hdup]; apply IH; try done;
    try (intros x; rewrite ?twice_snoc, ?elem_of_app, ?list_elem_of_singleton, ?elem_of_cons, ?Hs, ?Hd; set_solver).
  - apply NoDup_app. split_and!; [done| |apply NoDup_singleton]. set_solver.
Qed.

Lemma duplicate_ids_spec routes :
  NoDup (duplicate_ids_go [] [] routes) /\
  forall x, x ∈ duplicate_ids_go [] [] routes <-> twice (route_ids routes) x.
Proof.
  apply (duplicate_ids_go_spec routes []); [done| |constructor].
  intros x. split; [by intros ?%elem_of_nil|]. intros (a & b & Hl & Ha & _).
  destruct a; [by apply elem_of_nil in Ha|done].
Qed.

Lemma duplicate_ids_nil routes : duplicate_ids_go [] [] routes = [] <-> NoDup (route_ids routes).
Proof.
  destruct (duplicate_ids_spec routes) as [_ Hd]. rewrite twice_NoDup. split.
  - intros Hn x Hx%Hd. rewrite Hn in Hx. by apply elem_of_nil in Hx.
  - intros Hn. apply elem_of_nil_inv. intros x Hx%Hd. by apply (Hn x).
Qed.

(** What the verdict of the report means. *)
Lemma route_store_ok path current value :
  reports_ok (route_store_health_report path current (StoreLoaded value)) = true <->
  value_get "version" value ≫= as_u64 = Some current /\
  exists routes, value_get "routes" value = Some (Array routes) /\ NoDup (route_ids routes).
Proof.
  transitivity (bool_decide (value_get "version" value ≫= as_u64 = Some current) &&
    is_some (value_get "routes" value ≫= as_array) &&
    match duplicate_route_ids (value_get "routes" value ≫= as_array) with [] => true | _ => false end = true).
  { unfold route_store_health_report, reports_ok. cbn. by destruct (value_get "routes" value ≫= as_array). }
  rewrite !andb_true_iff, bool_decide_eq_true.
  destruct (value_get "routes" value) as [[| | | |routes|]|]; cbn; try naive_solver.
  pose proof (duplicate_ids_nil routes) as Hd.
  destruct (duplicate_ids_go [] [] routes) as [|x d]; naive_solver.
Qed.

(** The JSON of a saved store; the JSON of a route's options is [spec_value]. *)
Definition stored_route_value {Opts} (spec_value : RouteSpec Opts -> Value) (r : StoredRoute Opts) : Value :=
  json_object ([("id", Str (st_id r)); ("created_at_unix", ser_uint (st_created_at_unix r))] ++
    ser_some "fallback_reason" Str (st_fallback_reason r) ++ [("spec", spec_value (st_spec r))]).

Definition route_store_value {Opts} (spec_value : RouteSpec Opts -> Value) (s : RouteStore Opts) : Value :=
  json_object [("version", ser_uint (st_version s)); ("routes", Array (stored_route_value spec_value <$> st_routes s))].

Lemma route_ids_stored {Opts} (spec_value : RouteSpec Opts -> Value) routes :
  route_ids (stored_route_value spec_value <$> routes) = st_id <$> routes.
Proof.
  induction routes as [|r routes IH]; [done|]. unfold route_ids in *. cbn [fmap list_fmap omap list_omap].
  replace (value_get "id" (stored_route_value spec_value r)) with (Some (Str (st_id r))).
  { cbn. f_equal. apply IH. }
  destruct r as [id at_ [reason|] spec]; done.
Qed.

Lemma snapshot_ids {Opts} (rs : gmap string (RouteTask Opts)) : NoDup (st_id <$> st_routes (snapshot rs)).
Proof.
  cbn. rewrite <- list_fmap_compose. apply NoDup_fst_filter, NoDup_fst_map_to_list.
Qed.

(** C40. The report on a route store is good exactly when the store has the
    right version, a list of routes, and no two of them have the same id; it
    names each id that occurs more than once, each of them once.  A store the
    daemon has saved is good, whatever its routes are. *)
Theorem route_store_health_exact (path : string) (current : Z) (value : Value) :
  let report := route_store_health_report path current (StoreLoaded value) in
  (reports_ok report = true <->
     value_get "version" value ≫= as_u64 = Some current /\
     exists routes, value_get "routes" value = Some (Array routes) /\ NoDup (route_ids routes)) /\
  (exists d, value_get "duplicate_ids" report = Some (ser_strings d) /\ NoDup d /\
     forall id, id ∈ d <->
       exists routes, value_get "routes" value = Some (Array routes) /\ twice (route_ids routes) id) /\
  (forall Opts (spec_value : RouteSpec Opts -> Value) (rs : gmap string (RouteTask Opts)),
     reports_ok (route_store_health_report path 1 (StoreLoaded (route_store_value spec_value (snapshot rs)))) = true).
Proof.
  split; [apply route_store_ok|]. split.
  - exists (duplicate_route_ids (value_get "routes" value ≫= as_array)). split; [done|].
    destruct (value_get "routes" value) as [[| | | |routes|]|]; cbn;
      try (split; [constructor|]; intros id; split; [by intros ?%elem_of_nil|by intros (? & ? & ?)]).
    destruct (duplicate_ids_spec routes) as [Hn Hd]. split; [done|]. intros id. rewrite Hd. naive_solver.
  - intros Opts spec_value rs. apply route_store_ok. split; [done|].
    exists (stored_route_value spec_value <$> st_routes (snapshot rs)). split; [done|].
    rewrite route_ids_stored. apply snapshot_ids.
Qed.

(** ** Descriptors are read back *)

Lemma map_insert_perm {V} k (v : V) m : k ∉ m.*1 -> map_insert k v m ≡ₚ (k, v) :: m.
Proof.
  induction m as [|[k' v'] m IH]; [done|]. intros [Hk Hm]%not_elem_of_cons. cbn.
  destruct (String.eqb_spec k k'); [done|]. destruct (str_ltb k k'); [done|].
  rewrite IH by done. constructor.
Qed.

Lemma map_of_perm {V} (l : list (string * V)) : NoDup l.*1 -> map_of l ≡ₚ l.
Proof.
  induction l as [|[k v] l IH] using rev_ind; [done|]. rewrite fmap_app. intros (Hl & Hk & _)%NoDup_app.
  unfold map_of in *. rewrite foldl_snoc. cbn. rewrite map_insert_perm.
  - rewrite IH by done. apply Permutation_cons_append.
  - rewrite IH by done. intros Hin. apply (Hk _ Hin). by left.
Qed.

Lemma occurrences_map_get k f v : NoDup f.*1 -> map_get k f = Some v -> occurrences k f = [v].
Proof.
  induction f as [|[k' v'] f IH]; [done|]. cbn [fmap list_fmap map_get fst snd].
  intros [Hk Hf]%NoDup_cons. rewrite occurrences_cons.
  destruct (String.eqb_spec k k') as [->|Hne].
  - intros [= ->]. rewrite decide_True by done. f_equal.
    destruct (occurrences k' f) as [|w l] eqn:Ho; [done|]. exfalso. apply Hk.
    assert (w ∈ occurrences k' f) as Hw by (rewrite Ho; by left).
    apply list_elem_of_fmap in Hw as ([k w'] & -> & [Hkk Hin]%list_elem_of_filter). cbn in Hkk. subst k.
    apply list_elem_of_fmap. by exists (k', w').
  - intros Hg. rewrite decide_False by done. by apply IH.
Qed.

Lemma occurrences_map_of k (l : list (string * Value)) v :
  NoDup l.*1 -> map_get k l = Some v -> occurrences k (map_of l) = [v].
Proof.
  intros Hn Hg. pose proof (map_of_perm l Hn) as Hp.
  apply Permutation_singleton_r. rewrite <- (occurrences_map_get k l v Hn Hg).
  unfold occurrences. by rewrite Hp.
Qed.

(** A field of a struct that was serialised. *)
Lemma de_field_object {A} (l : list (string * Value)) i k (de : Value -> option A) absent absent_at v :
  NoDup l.*1 -> map_get k l = Some v -> de_field i k de absent absent_at (json_object l) = de v.
Proof. intros Hn Hg. cbn. by rewrite (occurrences_map_of k l v). Qed.

Lemma de_option_ser {A} (de : Value -> option A) (ser : A -> Value) (o : option A) :
  (forall a, o = Some a -> ser a <> Null /\ de (ser a) = Some a) -> de_option de (ser_option ser o) = Some o.
Proof.
  destruct o as [a|]; [|done]. intros Ha. destruct (Ha a) as [Hn Hd]; [done|]. cbn.
  unfold de_option. destruct (ser a); try done; by rewrite Hd.
Qed.

(** Values of the fields within their types. *)
Definition number_ok (w : Z) (o : option Z) : Prop := match o with Some n => in_u w n | None => True end.
(** JSON that [Option<Value>] can carry: [null] is read as [None]. *)
Definition json_ok (o : option Value) : Prop := match o with Some v => value_ok v /\ v <> Null | None => True end.

Record descriptor_ok (d : PeerDescriptor) : Prop := {
  dok_schema : number_ok 32 (pd_schema_version d);
  dok_control : number_ok 16 (pd_control_api_version d);
  dok_peer : number_ok 16 (pd_peer_protocol_version d);
  dok_bits : value_ok (Object (pd_feature_bits d));
  dok_metadata : json_ok (da_token_metadata (pd_auth d));
  dok_generation : number_ok 64 (da_token_generation (pd_auth d));
  dok_routes : json_ok (pd_routes_path d);
}.

Lemma de_opt_string (o : option string) : de_option de_string (ser_option Str o) = Some o.
Proof. by destruct o. Qed.
Lemma de_opt_bool (o : option bool) : de_option de_bool (ser_option Bool o) = Some o.
Proof. by destruct o. Qed.
Lemma de_opt_uint w (o : option Z) : number_ok w o -> de_option (de_uint w) (ser_option ser_uint o) = Some o.
Proof. intros Ho. apply de_option_ser. intros n ->. split; [done|]. by apply de_uint_ser. Qed.
Lemma de_opt_json (o : option Value) : json_ok o -> de_option (fun v => Some (de_value v)) (ser_option id o) = Some o.
Proof.
  intros Ho. apply de_option_ser. intros v ->. destruct Ho as [Hv Hn]. split; [done|]. cbn. by rewrite de_value_ok.
Qed.
Lemma de_string_list (l : list string) : de_vec de_string (ser_strings l) = Some l.
Proof. by apply de_vec_ser. Qed.

Create HintDb descriptor.
#[local] Hint Resolve de_opt_string de_opt_bool de_opt_uint de_opt_json de_string_list : descriptor.

Lemma bind_step {A B} (o : option A) (k : A -> option B) a r : o = Some a -> k a = r -> o ≫= k = r.
Proof. by intros -> <-. Qed.

(** Reads the fields of a serialised struct one after the other. *)
Ltac read_fields Hn :=
  repeat (eapply bind_step; [
    unfold de_optional_default, de_default;
    match goal with |- de_field ?i ?k _ _ _ (json_object ?l) = _ =>
      rewrite (de_field_object l i k _ _ _ _ Hn eq_refl) end;
    solve [by apply de_map_ok | auto with descriptor] | cbv beta]).

Lemma endpoints_back e : de_endpoints (json_object (endpoint_fields e)) = Some e.
Proof.
  assert (Hn : NoDup (endpoint_fields e).*1) by (by apply (bool_decide_unpack _); vm_compute).
  unfold de_endpoints. eapply bind_step; [done|]. read_fields Hn. by destruct e.
Qed.

Lemma auth_back a : json_ok (da_token_metadata a) -> number_ok 64 (da_token_generation a) ->
  de_auth (json_object (auth_fields a)) = Some a.
Proof.
  intros Hm Hg. assert (Hn : NoDup (auth_fields a).*1) by (by apply (bool_decide_unpack _); vm_compute).
  unfold de_auth. eapply bind_step; [done|]. read_fields Hn. by destruct a.
Qed.

#[local] Hint Resolve endpoints_back auth_back : descriptor.

Lemma descriptor_back d : descriptor_ok d -> de_descriptor (descriptor_to_value d) = Some d.
Proof.
  intros [].
  assert (Hn : NoDup (descriptor_fields d).*1) by (by apply (bool_decide_unpack _); vm_compute).
  unfold de_descriptor, descriptor_to_value. eapply bind_step; [done|]. read_fields Hn. by destruct d.
Qed.

(** A descriptor that a node writes is read back exactly, unless it says
    that the node is not ready; then it is refused, whatever else it holds. *)
Theorem descriptor_round_trip (d : PeerDescriptor) :
  descriptor_ok d ->
  descriptor_from_value (descriptor_to_value d) =
    if bool_decide (pd_ok d = Some false) then Err DescriptorNotOk else Ok d.
Proof.
  intros Hd. unfold descriptor_from_value. rewrite descriptor_back by done.
  replace (value_get "ok" (descriptor_to_value d)) with (Some (ser_option Bool (pd_ok d))) by done.
  by destruct (pd_ok d) as [[]|].
Qed.

Definition sample_descriptor : PeerDescriptor :=
  {| pd_ok := Some true; pd_kind := Some "peer_descriptor"; pd_source := None; pd_schema_version := Some 1;
     pd_node_id := Some "spx-remote"; pd_node_name := Some "remote"; pd_service_instance_id := None;
     pd_version := Some "0.2.0"; pd_os := Some "linux"; pd_arch := None; pd_os_user := None; pd_data_dir := None;
     pd_target := None; pd_control_endpoint := None; pd_control_api_version := Some 1;
     pd_peer_protocol_version := Some 1; pd_features := default_features;
     pd_feature_bits := default_feature_bits;
     pd_endpoints := {| de_control := Some "tcp://127.0.0.1:19081"; de_transport := Some "127.0.0.1:19080";
                        de_tls_transport := None; de_quic_transport := Some "127.0.0.1:19083" |};
     pd_transport_protocols := [];
     pd_auth := {| da_control_token := Some true; da_transport_token := None;
                   da_token_metadata := Some (Object [("generation", ser_uint 2)]); da_token_generation := Some 2;
                   da_tls_server_cert := None; da_tls_client_ca := None; da_tls_server_cert_fingerprint := None;
                   da_tls_client_ca_fingerprint := None |};
     pd_routes_path := Some (Str "/home/a/routes.json"); pd_route_autostart := Some true |}.

Lemma descriptor_round_trip_witness :
  descriptor_from_value (descriptor_to_value sample_descriptor) = Ok sample_descriptor /\
  transport_protocols_or_infer sample_descriptor = ["quic"; "plain-tcp"].
Proof.
  split; [|vm_compute; reflexivity].
  rewrite (descriptor_round_trip sample_descriptor); [reflexivity|].
  assert (Hone : value_ok (Object [("generation", ser_uint 2)])) by (repeat constructor).
  constructor; try done.
  - constructor; [repeat constructor|]. apply Forall_forall. intros kv Hkv. vm_compute in Hkv.
    repeat (apply elem_of_cons in Hkv as [-> | Hkv]; [constructor|]). by apply elem_of_nil in Hkv.
  - split; [constructor|done].
Defined.
